(* ===== verification/_CoqProject ===== *)
-Q . S2P
Prelude.v
Errors.v
Float64.v
SyncPool.v
VirtualMem.v
MagicRing.v
RingRefinement.v
LockFreeStack.v
MsQueue.v
KeyPool.v
Flags.v
Submitter.v
LoadBalancer.v
RingPool.v
ByteSlicePool.v
Config.v
Sockaddr.v
SocketOps.v
Multicast.v
GoState.v
Conn.v
ConnSpec.v
ConnManager.v
Worker.v
WorkerSpec.v
Looper.v
ConsumerWorker.v
AcceptorWorker.v
StreamSpec.v
ShardWorker.v
ShardSpec.v
RingContract.v
TableSpec.v
LoopSpec.v
ShutdownSpec.v
DatagramSpec.v
DatagramSession.v
AsyncSpec.v
ReactorSpec.v
LateError.v
Server.v
ServerSpec.v
ShardLoop.v
ConsumerLoop.v
AcceptorLoop.v
Startup.v
Engine.v
EngineSpec.v
Closers.v
MagicMap.v
Examples.v
ExamplesSpec.v
