(* ===== verification/Prelude.v ===== *)
(** * A verification development for gain, an io_uring networking framework in Go

    ** The program

    A server ([src/server.go], [src/gain.go]) opens one or more listening sockets and
    runs in one of two architectures.  With socket sharding every worker owns a socket
    and an io_uring instance, accepts (or receives datagrams) and serves what it
    accepted.  In the reactor one acceptor owns the socket and hands every accepted
    descriptor to a consumer chosen by a load balancer.  A worker is an event loop: it
    submits requests to its ring, waits for completions, and runs the callbacks of the
    user's event handler on connections.  A connection has two ring buffers over
    doubly mapped memory; connections, buffers and byte slices come from pools.
    Workers and other goroutines exchange data through a lock-free stack (released
    keys) and a Michael-Scott queue (accepted descriptors, results of asynchronous
    handlers).

    ** Files

    Data structures and memory:
    - [Prelude]: Go panics ([outcome]), integers of fixed width, slices, shared lemmas,
      the hint database [godb].
    - [Errors] ([pkg/errors], [pkg/net]), [Float64] (the [float64] arithmetic the
      program uses), [SyncPool] ([pkg/pool/sync]).
    - [VirtualMem] ([pkg/pool/virtualmem]): the mirrored memory and its pool;
      [MagicMap]: the [mmap] calls of [allocateBuffer] over a model of the mappings of
      the process, and the proof that a buffer they have built, written through either
      half, is the memory of [VirtualMem].
    - [MagicRing], [RingRefinement] ([pkg/buffer/magicring]): the ring buffer, and its
      refinement of a list of bytes.
    - [RingPool], [ByteSlicePool] ([pkg/pool/ringbuffer], [pkg/pool/byteslice]).
    - [LockFreeStack], [MsQueue] ([pkg/stack], [pkg/queue]): every interleaving of the
      atomic operations; [KeyPool] ([key_pool.go]) on top of the stack's interface.

    Sockets and configuration:
    - [Config] ([config.go]), [Sockaddr], [SocketOps], [Multicast] ([pkg/socket],
      [socket.go], [cbpf.go]): system calls are recorded in a trace, and what the kernel
      answers is a function of the trace.
    - [Flags], [Submitter], [LoadBalancer] ([flags.go], [submitter_batch.go],
      [load_balancer.go]).

    Workers:
    - [GoState]: the state a worker's code reaches (a heap of connections shared by
      pointer, pools, memory, submission queue, system calls, callbacks, manager, the
      queue and the goroutines of asynchronous handlers), the state monad [M] with
      panics, and its weakest preconditions [wp].
    - [Conn], [ConnSpec] ([conn.go], [conn_pool.go]); [ConnManager]
      ([conn_manager.go]).
    - [Worker], [WorkerSpec] ([conn_closer.go], [read.go], [write.go], [acceptor.go],
      [worker.go], [shutdown.go], [read_write_worker.go]): the requests, and the event
      code that all workers share.
    - [Looper] ([looper.go], [linux_tuning.go]): one round of the loop takes what the
      ring does as an input; the loop runs on any state that contains a worker's state
      (class [HasWorker]).
    - [ConsumerWorker], [AcceptorWorker] ([consumer_worker.go], [acceptor_worker.go]):
      the reactor is the acceptor's state with the balancer and its consumers.
    - [ShardWorker] ([shard_worker.go]).
    - [StreamSpec]: the life of a stream connection, proved against the class
      [StreamWorker]; [ShardSpec] and [ReactorSpec] give the instances for the two
      kinds of workers.  [DatagramSpec]: one datagram; [DatagramSession]: a datagram
      worker over many datagrams with several answers under way, datagrams that are not
      answered, and datagrams received while others wait in the socket.  [AsyncSpec]:
      handlers that run in goroutines.  [LateError]: a consumer that waits for
      descriptor 0 in its shutdown waits for ever.
    - [RingContract]: the documented behaviour of the ring that the theorems on whole
      loops assume (chains of linked entries, one completion per entry, answers that
      fit the operation, fresh descriptors, interrupted waits).  [TableSpec]: a worker
      as an abstract server of many connections, with or without a listening socket of
      its own, event by event; [LoopSpec]: round by round; [ShutdownSpec]: the abstract
      closer, from the request to shut down to the return of the loop.
    - Whole loops from the constructor on, each with a concrete run: [ShardLoop] (a
      shard worker), [ConsumerLoop] (a consumer worker as a server of the clients it is
      given, by ring messages or by its queue), [AcceptorLoop] (the acceptor as a
      dispatcher of clients).

    Server:
    - [Server], [ServerSpec] ([server.go], [compatibility.go], [const.go], [gain.go] and
      the constructors of the workers): what [start] builds from a configuration.
    - [Startup]: the goroutines of one run (launch, [startedChan], the wait groups,
      [handleWorkerStop]) under any interleaving.
    - [Engine], [EngineSpec]: [Start], [Shutdown], [AsyncShutdown], signals and the
      closing goroutine under any interleaving, and the handshake of [shutdown.go];
      [Closers]: the [closer] of each architecture over the handshakes of all its
      workers, whose loops may fail meanwhile, and whose finish conditions may never
      hold.

    Programs on top of the library:
    - [Examples], [ExamplesSpec] ([examples/cli], [examples/tcp_echo]): the handlers of
      the examples, the flags of the command line, and what a client gets from the echo
      and the HTTP server.

    ** What the theorems show

    - Buffers: any sequence of operations on a ring buffer returns what a list of bytes
      returns; the ranges given to the kernel stay inside the buffer's contents and
      free space; a buffer from the pool is empty and zeroed.  (Under the pool promise
      below.)
    - Shared structures: stack and queue are linearizable, and a thread that runs alone
      returns within a fixed number of its own steps; keys are unique.
    - Connections: the code of an event handler sees two byte queues and a flag; the
      buffers the kernel owns are out of its reach; the manager is a table.
    - Workers: for any sequence of completions a stream connection is served like a
      session with its peer, with one request chain after each event; a datagram worker
      answers each datagram its handler has seen to its sender, and the session says what
      becomes of the others; the results of asynchronous handlers are
      taken up; shard and consumer do the same.
    - Whole loops: a shard worker, from its construction over any number of rounds with
      any number of connections, does exactly the steps of the abstract server, as long
      as the ring keeps its contract and the conditions each theorem names hold; a
      shutdown that is asked for in any round completes when the kernel has closed the
      connections, and tells each handler once.
      A consumer worker does the steps of the same server for the clients it is given;
      the acceptor gives each client, with its address, to the consumer the balancer
      chose and always has one accept under way.
    - Reactor and server: a client is handed to one consumer with its address; what
      [startReactor] builds is well-formed; a run reaches the running state after every
      worker has reported, and comes to rest only when all workers are in their loops or
      have ended, or at one of two named failures; [Shutdown] returns after the workers
      stopped; the closers end within a number of steps that is linear in the number of
      workers, after every worker, unless one they wait for has failed or never sees its
      finish condition hold.
    - Some theorems state where the code departs from what it means to do, for instance
      a failed request that is dropped, or an acknowledgement that is never taken.

    ** Conventions, bounds and fuel

    Integers are [Z] with their wrap-around written out ([uint32], [int64], ...).
    Pure panics of the language are values of [outcome]; a theorem about [wp] says that
    the code returns.  What the program calls but does not contain is an input: the
    kernel's answers, the completions of the ring, the choice of [sync.Pool], the order
    of [range] over a map, [sort.Sort], the resolver and interface table, the handler
    (a function of the callbacks so far whose result is a program over [Conn]
    operations, which may also panic; the theorems ask that it does not).  [EnvLaws] and [PoolPromise] state what is assumed of these.
    [sync.Pool] may return any pooled object or nil; for the memory pool
    a choice may also depend on the size that is asked for ([mem_choice]).  The pool
    promise is that requests are granted and that memory from the pool has the size asked
    for.  [exact_world] keeps it: reuse is allowed, and what is excluded are the choices of
    a larger memory of the same size class; [pool_reuse_breaks_fifo] is what happens with
    these.  [ReadFrom] and the two loops that drain a queue take fuel;
    [ring_read_from_total] and [async_queue_drained] give amounts that are enough, and
    for the queue of accepted descriptors more than its length is ([queue_ok]).
    The event loop runs over the list of rounds it is given; a round says what the
    ring reports, what the kernel has written, what the acceptor has stored and queued
    for a consumer ([KwHandover]), and whether the shutdown is asked for while the loop
    waits.

    ** Simplifications

    The pools of the process are part of each worker's state.  Inside one worker the
    code is sequential, except that a goroutine of an asynchronous handler may run
    between any two events.  In [Engine] launching the workers of a run is one step,
    whose detail is [Startup], and so is the end of the workers that were asked to stop,
    which may not come; its detail is [Closers].  In [Startup] a loop makes any number of
    rounds, whose detail is [Looper], and may or may not end.  Log output is left out.  The first bytes of the kernel's address
    structures are decoded by a parameter ([anyToSockaddr], from
    [golang.org/x/sys/unix]).

    ** Not modelled

    [logger] (sets up a third-party logger), of [examples] the command line parser, the
    [pprof] server, the clock and the test clients, [interfaces.go] (interfaces without
    code), the io_uring library, the goroutine pool [pond] (a task submitted to
    it is treated like one started with [go]), [ListenAndServe] (a call of [NewServer]
    and [Start]), and tests.

    ** Further work

    The theorems on whole loops are about the shard worker with stream sockets, the
    consumer and the acceptor, with synchronous handlers.  The shutdown of a whole loop
    is proved for the shard worker; for the other workers it is proved event by event.
    While a worker closes, no accept completes, and what the ring answers for a closed
    descriptor is an error.  The worker loops are without keep-alive and CPU affinity.  In [AcceptorLoop] the consumers make no progress of their
    own between two rounds of the acceptor.  In [ConsumerLoop] a descriptor that the
    consumer still has open is not given to it again;
    [queued_reuse_closes_stranger] shows what the code does otherwise.  [Startup],
    [Engine] and [Closers] are related by their descriptions, not by a simulation. *)

From Corelib Require Export ssreflect.
From stdpp Require Export prelude list strings pretty gmap.
From Stdlib Require Export Strings.Byte Lia ZArith.

#[export] Set Default Goal Selector "!".
#[export] Set Warnings "-rewrite-rw".

(** ** Scope and automation *)

Declare Scope go_scope.
Delimit Scope go_scope with go.
#[global] Open Scope general_if_scope.
#[global] Open Scope Z_scope.
#[global] Open Scope go_scope.

(** SSReflect's [by] and [//] close goals with stdpp's [done]. *)
Ltac done := stdpp.tactics.done.

(** [godb] holds the lemmas that close the side conditions of the components:
    bounds, well-formedness and length facts. *)
Create HintDb godb discriminated.

(** ** Go panics

    A Go computation either returns or panics.  The panics of the program are
    the run-time panics of the language (index or slice bound out of range, nil
    dereference, division by zero) and the calls of [log.Panic]. *)
Inductive panic : Type :=
| PanicBounds
| PanicNil
| PanicDivZero
| PanicLog (msg : string).

Inductive outcome (A : Type) : Type :=
| Ret (a : A)
| Panic (p : panic).
Arguments Ret {A} a.
Arguments Panic {A} p.

#[export] Instance outcome_ret : MRet outcome := @Ret.
#[export] Instance outcome_bind : MBind outcome := fun A B f m =>
  match m with Ret a => f a | Panic p => Panic p end.

Definition returns {A} (m : outcome A) : bool :=
  match m with Ret _ => true | Panic _ => false end.

Lemma bind_Ret {A B} (a : A) (f : A -> outcome B) : Ret a ≫= f = f a.
Proof. done. Qed.

Lemma bind_Ret_inv {A B} (m : outcome A) (f : A -> outcome B) b :
  m ≫= f = Ret b -> exists a, m = Ret a /\ f a = Ret b.
Proof. destruct m; [by eauto|done]. Qed.

(** A nil check followed by the dereference of a pointer. *)
Definition deref {A} (p : option A) : outcome A :=
  match p with Some a => Ret a | None => Panic PanicNil end.

(** Integer remainder: Go panics on a zero divisor and truncates towards zero. *)
Definition go_rem (a b : Z) : outcome Z :=
  if b =? 0 then Panic PanicDivZero else Ret (Z.rem a b).

(** [l[i]] with Go's bounds check. *)
Definition go_index {A} (l : list A) (i : Z) : outcome A :=
  if i <? 0 then Panic PanicBounds
  else match l !! Z.to_nat i with Some a => Ret a | None => Panic PanicBounds end.

(** [l[lo:hi]] of a slice whose length is its capacity. *)
Definition go_slice {A} (l : list A) (lo hi : Z) : outcome (list A) :=
  if (0 <=? lo) && (lo <=? hi) && (hi <=? Z.of_nat (length l))
  then Ret (take (Z.to_nat (hi - lo)) (drop (Z.to_nat lo) l))
  else Panic PanicBounds.

#[export] Instance byte_eq_decision : EqDecision byte := Byte.byte_eq_dec.

(** [len] as a Go [int]. *)
Definition zlen {A} (l : list A) : Z := Z.of_nat (length l).

(** ** Machine integers *)

Definition wrap_u (w z : Z) : Z := z mod 2 ^ w.
Definition wrap_s (w z : Z) : Z := (z + 2 ^ (w - 1)) mod 2 ^ w - 2 ^ (w - 1).

Abbreviation uint32 := (wrap_u 32).
Abbreviation uint64 := (wrap_u 64).
Abbreviation int32 := (wrap_s 32).
Abbreviation int64 := (wrap_s 64).

(** [bits.Len32]: the number of bits of a nonnegative 32-bit value. *)
Definition bits_Len32 (n : Z) : Z := if n =? 0 then 0 else Z.log2 n + 1.

(** ** Tactics *)

(** Case analysis on the boolean comparisons of the goal and the context. *)
Ltac zbool :=
  repeat match goal with
  | H : context [Z.eqb ?a ?b] |- _ => destruct (Z.eqb_spec a b)
  | H : context [Z.ltb ?a ?b] |- _ => destruct (Z.ltb_spec a b)
  | H : context [Z.leb ?a ?b] |- _ => destruct (Z.leb_spec a b)
  | |- context [Z.eqb ?a ?b] => destruct (Z.eqb_spec a b)
  | |- context [Z.ltb ?a ?b] => destruct (Z.ltb_spec a b)
  | |- context [Z.leb ?a ?b] => destruct (Z.leb_spec a b)
  end; cbn [andb orb negb] in *.

(** Inversion of a run of bound computations that returned. *)
Ltac run_inv :=
  repeat match goal with
  | H : mbind _ _ = Ret _ |- _ =>
      let a := fresh "a" in let H1 := fresh "Hrun" in
      apply bind_Ret_inv in H as (a & H1 & H)
  | H : Ret _ = Ret _ |- _ => injection H as H
  | H : Panic _ = Ret _ |- _ => discriminate H
  | p : (_ * _)%type |- _ => destruct p
  end; simplify_eq.

(** ** Integer lemmas *)

Lemma wrap_u_small w z : 0 <= z < 2 ^ w -> wrap_u w z = z.
Proof. apply Z.mod_small. Qed.

Lemma wrap_u_range w z : 0 <= w -> 0 <= wrap_u w z < 2 ^ w.
Proof. intros. apply Z.mod_pos_bound. lia. Qed.

Lemma wrap_s_small w z :
  0 < w -> - 2 ^ (w - 1) <= z < 2 ^ (w - 1) -> wrap_s w z = z.
Proof.
  intros Hw Hz. have Hpow : 2 ^ w = 2 * 2 ^ (w - 1).
  { have -> : w = Z.succ (w - 1) by lia.
    rewrite Z.pow_succ_r; [lia|]. do 2 f_equal. lia. }
  rewrite /wrap_s Z.mod_small; lia.
Qed.

Lemma wrap_u_add w a b : wrap_u w (wrap_u w a + b) = wrap_u w (a + b).
Proof. rewrite /wrap_u. by rewrite Zplus_mod_idemp_l. Qed.

Lemma wrap_u_add_r w a b : wrap_u w (a + wrap_u w b) = wrap_u w (a + b).
Proof. rewrite /wrap_u. by rewrite Zplus_mod_idemp_r. Qed.

Lemma wrap_s_add w a b : wrap_s w (wrap_s w a + b) = wrap_s w (a + b).
Proof.
  rewrite /wrap_s. f_equal.
  replace (_ - _ + b + _) with ((a + 2 ^ (w - 1)) mod 2 ^ w + b) by lia.
  rewrite Zplus_mod_idemp_l. f_equal. lia.
Qed.

Lemma bits_Len32_spec n k :
  0 <= k -> 0 <= n -> bits_Len32 n <= k <-> n < 2 ^ k.
Proof.
  intros Hk Hn. rewrite /bits_Len32. case: (Z.eqb_spec n 0) => [->|?].
  - split; intros; [apply Z.pow_pos_nonneg|]; lia.
  - have := Z.log2_lt_pow2 n k. lia.
Qed.

Lemma bits_Len32_lower n : 0 < n -> 2 ^ (bits_Len32 n - 1) <= n.
Proof.
  intros Hn. rewrite /bits_Len32. destruct (Z.eqb_spec n 0); [lia|].
  replace (Z.log2 n + 1 - 1) with (Z.log2 n) by lia.
  by apply Z.log2_spec.
Qed.

Lemma bits_Len32_nonneg n : 0 <= bits_Len32 n.
Proof. rewrite /bits_Len32. zbool; [lia|]. have := Z.log2_nonneg n. lia. Qed.

(** ** List lemmas *)

Lemma zlen_nonneg {A} (l : list A) : 0 <= zlen l.
Proof. rewrite /zlen. lia. Qed.

Lemma zlen_app {A} (l k : list A) : zlen (l ++ k) = zlen l + zlen k.
Proof. rewrite /zlen length_app. lia. Qed.

Lemma zlen_nil_inv {A} (l : list A) : zlen l = 0 -> l = [].
Proof. destruct l; [done|]. rewrite /zlen /=. lia. Qed.

Lemma go_slice_ok {A} (l : list A) lo hi :
  0 <= lo <= hi -> hi <= zlen l ->
  go_slice l lo hi = Ret (take (Z.to_nat (hi - lo)) (drop (Z.to_nat lo) l)).
Proof. rewrite /go_slice /zlen. intros. zbool; try done; lia. Qed.

Lemma go_index_ok {A} (l : list A) i a :
  0 <= i -> l !! Z.to_nat i = Some a -> go_index l i = Ret a.
Proof. intros Hi Hl. rewrite /go_index Hl. zbool; [lia|done]. Qed.

(** ** Sums over the values of a finite map *)

Definition map_sum {A} (f : A -> Z) (m : gmap nat A) : Z := map_fold (fun _ a acc => f a + acc) 0 m.

Lemma map_sum_insert_new {A} (f : A -> Z) (m : gmap nat A) k a :
  m !! k = None -> map_sum f (<[k := a]> m) = map_sum f m + f a.
Proof.
  intros Hk. rewrite /map_sum map_fold_insert_L //; [lia|]. intros. lia.
Qed.

Lemma map_sum_insert {A} (f : A -> Z) (m : gmap nat A) k a :
  map_sum f (<[k := a]> m) = map_sum f m + f a - default 0 (f <$> m !! k).
Proof.
  destruct (m !! k) as [b|] eqn:Hk; simpl.
  - rewrite -(insert_delete_id m k b Hk) insert_insert_eq.
    rewrite !map_sum_insert_new ?lookup_delete_eq //. lia.
  - rewrite map_sum_insert_new //. lia.
Qed.

Lemma map_sum_ind {A} (P : Z -> Z -> Prop) (f g : A -> Z) (m : gmap nat A) :
  P 0 0 -> (forall k a x y, m !! k = Some a -> P x y -> P (x + f a) (y + g a)) ->
  P (map_sum f m) (map_sum g m).
Proof.
  intros H0. induction m as [|k a m Hk IH] using map_ind; intros Hstep; [done|].
  rewrite !map_sum_insert_new //. eapply Hstep; [apply lookup_insert_eq|]. apply IH.
  intros k' b x y Hb. eapply (Hstep k'). rewrite lookup_insert_ne //. congruence.
Qed.

Lemma map_sum_nonneg {A} (f : A -> Z) (m : gmap nat A) : (forall a, 0 <= f a) -> 0 <= map_sum f m.
Proof.
  intros Hf. apply (map_sum_ind (fun x _ => 0 <= x) f f); [done|]. intros k a x _ _ Hx. specialize (Hf a). lia.
Qed.

#[export] Hint Resolve zlen_nonneg bits_Len32_nonneg : godb.
