(* ===== verification/Errors.v ===== *)
(** * Errors: [pkg/errors/errors.go], [pkg/net/net.go] and the error values of the
    Go standard library the program compares with.

    A Go error is a sentinel value, an [os.SyscallError], or an error wrapped by
    [fmt.Errorf] with [%w]; [errors.Is] follows the chain of wrapped errors. *)

From S2P Require Import Prelude.

(** The sentinels of [pkg/errors], the ones of [io], the [errno] values of the
    kernel, and errors of user code (readers, writers, event handlers). *)
Inductive error : Type :=
| ErrUnsupportedProtocol
| ErrUnsupportedTCPProtocol
| ErrUnsupportedUDPProtocol
| ErrNoIPv4AddressOnInterface
| ErrNotSupported
| ErrSkippable
| ErrIsEmpty
| ErrConnectionAlreadyClosed
| ErrConnectionClosed
| ErrOpNotAvailableInMode
| ErrConnectionQueueIsNil
| ErrUnknownConnectionState
| ErrInvalidTimeDuration
| ErrInvalidState
| ErrAddressNotFound
| ErrServerAlreadyRunning
| ErrGettingSQE
| IoEOF
| IoErrShortBuffer
| IoErrShortWrite
| Errno (n : Z)
| ErrUser (n : Z)
| SyscallError (call : string) (e : error)
| Wrap (msg : string) (e : error).

#[export] Instance error_eq_dec : EqDecision error.
Proof. solve_decision. Defined.

(** [errors.Is] *)
Fixpoint errors_Is (e target : error) : bool :=
  bool_decide (e = target) ||
  match e with Wrap _ e' | SyscallError _ e' => errors_Is e' target | _ => false end.

(** [errors.As(err, &syscallErr)], and then [syscallErr.Err] *)
Fixpoint errors_AsSyscall (e : error) : option error :=
  match e with SyscallError _ e' => Some e' | Wrap _ e' => errors_AsSyscall e' | _ => None end.

(** [fmt.Errorf("%w, op: %s, mode: %s", ...)] *)
Definition ErrorOpNotAvailableInMode (op mode : string) : error :=
  Wrap (", op: " +:+ op +:+ ", mode: " +:+ mode) ErrOpNotAvailableInMode.

Definition ErrorUnknownConnectionState (state : Z) : error :=
  Wrap (", state: " +:+ pretty state) ErrUnknownConnectionState.

Definition ErrorAddressNotFound (fd : Z) : error :=
  Wrap (", fd: " +:+ pretty fd) ErrAddressNotFound.

(** [pkg/net/net.go] *)
Definition UDP : string := "udp".
Definition UDP4 : string := "udp4".
Definition UDP6 : string := "udp6".
Definition TCP : string := "tcp".
Definition TCP4 : string := "tcp4".
Definition TCP6 : string := "tcp6".
Definition UNIX : string := "unix".

Lemma errors_Is_refl e : errors_Is e e = true.
Proof. destruct e; cbn [errors_Is]; by rewrite bool_decide_true. Qed.

Lemma errors_AsSyscall_Is e e' target :
  errors_AsSyscall e = Some e' -> errors_Is e' target = true -> errors_Is e target = true.
Proof.
  induction e; simpl; intros Has His; simplify_eq; cbn [errors_Is]; rewrite ?His ?(IHe Has His) orb_true_r //.
Qed.

Lemma errors_Is_Wrap msg e target :
  errors_Is e target = true -> errors_Is (Wrap msg e) target = true.
Proof. intros H. cbn [errors_Is]. by rewrite H orb_true_r. Qed.
