(* ===== verification/Float64.v ===== *)
(** * Float64: the binary64 arithmetic the program uses

    [virtualmem.AdjustBufferSize] and [ringbuffer.calibrate] compute with Go's
    [float64].  A finite [float64] is represented by its rational value and every
    operation rounds its exact result to 53 significant bits, ties to even
    (IEEE 754).  The operands of the program are integers below [2^64], so
    subnormals, infinities and NaN do not occur. *)

From S2P Require Import Prelude.
From Stdlib Require Import QArith Qround.

#[local] Open Scope Z_scope.

(** The integer nearest to [n / d], ties to even. *)
Definition round_half_even (n d : Z) : Z :=
  let q := n / d in
  let r := n mod d in
  if 2 * r <? d then q
  else if d <? 2 * r then q + 1
  else if Z.even q then q else q + 1.

(** [floor (log2 (n / d))] for positive [n] and [d]. *)
Definition floor_log2 (n d : Z) : Z :=
  let k := Z.log2 n - Z.log2 d in
  if (if 0 <=? k then d * 2 ^ k <=? n else d <=? n * 2 ^ (- k)) then k else k - 1.

(** The rational [m * 2^e]. *)
Definition dyadic (m e : Z) : Q :=
  if 0 <=? e then inject_Z (m * 2 ^ e) else Qmake m (Z.to_pos (2 ^ (- e))).

(** Rounding of a positive rational to 53 significant bits. *)
Definition round53_pos (q : Q) : Q :=
  let n := Qnum q in
  let d := Zpos (Qden q) in
  let e := floor_log2 n d - 52 in
  let m := if 0 <=? e then round_half_even n (d * 2 ^ e)
           else round_half_even (n * 2 ^ (- e)) d in
  dyadic m e.

Definition round53 (q : Q) : Q :=
  if Qnum q =? 0 then 0%Q
  else if Qnum q <? 0 then Qopp (round53_pos (Qopp q))
  else round53_pos q.

Definition f64_of_int (n : Z) : Q := round53 (inject_Z n).
Definition f64_div (x y : Q) : Q := round53 (x / y).
Definition f64_add (x y : Q) : Q := round53 (x + y).
Definition f64_mul (x y : Q) : Q := round53 (x * y).
(** [math.Ceil], exact on finite values *)
Definition f64_ceil (x : Q) : Q := inject_Z (Qceiling x).
(** the conversions [int(x)] and [uint64(x)]: truncation towards zero *)
Definition f64_to_int (x : Q) : Z := Z.quot (Qnum x) (Zpos (Qden x)).

(** ** Exactness: a value with at most 53 significant bits is not rounded. *)

Lemma pow2_pos k : 0 <= k -> 0 < 2 ^ k.
Proof. intros. apply Z.pow_pos_nonneg; lia. Qed.

Lemma floor_log2_spec n d s :
  0 < n -> 0 < d -> 0 <= s -> 0 <= floor_log2 n d + s ->
  d * 2 ^ (floor_log2 n d + s) <= n * 2 ^ s < d * 2 ^ (floor_log2 n d + s + 1).
Proof.
  intros Hn Hd Hs. rewrite /floor_log2.
  set k := Z.log2 n - Z.log2 d.
  have [Hn1 Hn2] := Z.log2_spec n Hn. have [Hd1 Hd2] := Z.log2_spec d Hd.
  have Hln := Z.log2_nonneg n. have Hld := Z.log2_nonneg d.
  have Hps := pow2_pos s Hs.
  have Hup : 0 <= k + s + 1 -> n * 2 ^ s < d * 2 ^ (k + s + 1).
  { intros. have : 2 ^ (Z.succ (Z.log2 n)) * 2 ^ s = 2 ^ Z.log2 d * 2 ^ (k + s + 1).
    { rewrite -!Z.pow_add_r; [lia..|]. f_equal. lia. }
    have := pow2_pos (k + s + 1). nia. }
  have Hlow : 0 <= k - 1 + s -> d * 2 ^ (k - 1 + s) <= n * 2 ^ s.
  { intros. have : 2 ^ (Z.succ (Z.log2 d)) * 2 ^ (k - 1 + s) = 2 ^ Z.log2 n * 2 ^ s.
    { rewrite -!Z.pow_add_r; [lia..|]. f_equal. lia. }
    have := pow2_pos (k - 1 + s). nia. }
  destruct (Z.leb_spec 0 k) as [Hk|Hk].
  - have Hks : 2 ^ (k + s) = 2 ^ k * 2 ^ s by (rewrite -Z.pow_add_r; lia).
    destruct (Z.leb_spec (d * 2 ^ k) n).
    + intros. split; [nia|]. apply Hup; lia.
    + intros. split; [by apply Hlow|]. replace (k - 1 + s + 1) with (k + s) by lia. nia.
  - have Hks : 0 <= k + s -> 2 ^ s = 2 ^ (k + s) * 2 ^ (- k).
    { intros. rewrite -Z.pow_add_r; [lia..|]. f_equal. lia. }
    have Hpk := pow2_pos (- k).
    destruct (Z.leb_spec d (n * 2 ^ (- k))).
    + intros Hp. have := pow2_pos (k + s). split; [nia|]. apply Hup; lia.
    + intros Hp. split; [by apply Hlow|]. replace (k - 1 + s + 1) with (k + s) by lia.
      have := pow2_pos (k + s). nia.
Qed.

Lemma round_half_even_exact n d q : 0 < d -> n = d * q -> round_half_even n d = q.
Proof.
  intros Hd ->. rewrite /round_half_even (Z.mul_comm d q) Z.div_mul; [lia|].
  rewrite Z.mod_mul; [lia|]. zbool; (done || lia).
Qed.

(** A positive rational equal to [m * 2^e] with [m] below [2^53] is a float64;
    [s] shifts the exponent to a nonnegative one. *)
Lemma round53_exact q m e s :
  0 < m < 2 ^ 53 -> 0 <= s -> 0 <= e + s ->
  (q * inject_Z (2 ^ s) == inject_Z (m * 2 ^ (e + s)))%Q ->
  (round53 q == q)%Q.
Proof.
  destruct q as [n d]. intros Hm Hs Hes Hq.
  have {}Hq : n * 2 ^ s = Zpos d * (m * 2 ^ (e + s)).
  { move: Hq. rewrite /Qeq /=. lia. }
  have Hps := pow2_pos s Hs. have Hpes := pow2_pos (e + s) Hes.
  have Hn : 0 < n by nia.
  rewrite /round53 /=. destruct (Z.eqb_spec n 0); [lia|].
  destruct (Z.ltb_spec n 0); [lia|]. rewrite /round53_pos /=.
  set k := floor_log2 n (Zpos d).
  have Hke : k - 52 <= e.
  { have [Hlo _] := floor_log2_spec n (Zpos d) (s + Z.abs k) Hn ltac:(lia) ltac:(lia) ltac:(lia).
    rewrite -/k (Z.pow_add_r 2 s) in Hlo; [lia..|].
    rewrite Z.mul_assoc Hq -Z.mul_assoc in Hlo.
    apply Z.mul_le_mono_pos_l in Hlo; [|lia].
    have Hpk := pow2_pos (Z.abs k) ltac:(lia).
    have : 2 ^ (k + (s + Z.abs k)) < 2 ^ (53 + (e + s + Z.abs k)).
    { rewrite (Z.pow_add_r 2 53); [lia..|].
      rewrite (Z.pow_add_r 2 (e + s)); [lia..|]. nia. }
    intros ?%Z.pow_lt_mono_r_iff; lia. }
  have [c [Hc0 Hc]] : exists c, 0 <= c /\ e = c + (k - 52) by exists (e - (k - 52)); lia.
  move: Hc Hq Hes Hpes. generalize (k - 52) => j -> {Hke} Hq Hes Hpes.
  destruct (Z.leb_spec 0 j) as [Hj|Hj].
  - have Hexp : n = Zpos d * 2 ^ j * (m * 2 ^ c).
    { apply (Z.mul_reg_r _ _ (2 ^ s)); [lia|].
      rewrite Hq (Z.pow_add_r 2 (c + j)); [lia..|]. rewrite (Z.pow_add_r 2 c j); lia. }
    rewrite (round_half_even_exact _ _ _ _ Hexp).
    + have := pow2_pos j. lia.
    + rewrite /dyadic. destruct (Z.leb_spec 0 j); [|lia]. rewrite /Qeq /= Hexp. lia.
  - have Hexp : n * 2 ^ (- j) = Zpos d * (m * 2 ^ c).
    { apply (Z.mul_reg_r _ _ (2 ^ s)); [lia|].
      have Hp : 2 ^ (c + j + s) * 2 ^ (- j) = 2 ^ c * 2 ^ s.
      { rewrite -!Z.pow_add_r; [lia..|]. f_equal. lia. }
      transitivity (n * 2 ^ s * 2 ^ (- j)); [lia|]. rewrite Hq. nia. }
    rewrite (round_half_even_exact _ _ _ _ Hexp); [lia|].
    rewrite /dyadic. destruct (Z.leb_spec 0 j); [lia|].
    have := pow2_pos (- j). rewrite /Qeq /= => ?. rewrite Z2Pos.id; lia.
Qed.
