(* ===== verification/SyncPool.v ===== *)
(** * SyncPool: [pkg/pool/sync/sync.go]

    The typed wrapper around Go's [sync.Pool].  [sync.Pool.Get] removes and
    returns an arbitrary pooled object, or returns nil, also when the pool is
    not empty: the choice of the Go runtime is an argument of the model
    ([None]: nil; [Some i]: the [i]-th pooled object). *)

From S2P Require Import Prelude.

Record pool (A : Type) : Type := mkPool {
  internalPool : list A;
  count : Z
}.
Arguments mkPool {A} internalPool count.
Arguments internalPool {A} p.
Arguments count {A} p.

Definition pool_Get {A} (choice : option nat) (p : pool A) : option A * pool A :=
  match choice ≫= fun i => pair i <$> internalPool p !! i with
  | None => (None, p)
  | Some (i, a) => (Some a, mkPool (delete i (internalPool p)) (int64 (count p - 1)))
  end.

Definition pool_Put {A} (value : A) (p : pool A) : pool A :=
  mkPool (value :: internalPool p) (int64 (count p + 1)).

Definition NewPool {A} : pool A := mkPool [] 0.

(** ** What a pool promises its clients *)

Lemma pool_Get_Permutation {A} choice (p p' : pool A) a :
  pool_Get choice p = (Some a, p') -> internalPool p ≡ₚ a :: internalPool p'.
Proof.
  rewrite /pool_Get. destruct choice as [i|]; simpl; [|done].
  destruct (internalPool p !! i) eqn:Hi; simpl; [|done].
  intros [= -> <-]. by apply delete_Permutation.
Qed.

Lemma pool_Get_chosen {A} choice (p p' : pool A) a :
  pool_Get choice p = (Some a, p') -> exists i, choice = Some i /\ internalPool p !! i = Some a.
Proof.
  rewrite /pool_Get. destruct choice as [i|]; simpl; [|done].
  destruct (internalPool p !! i) eqn:Hi; simpl; [|done]. intros [= -> <-]. by exists i.
Qed.

Lemma pool_Get_None {A} choice (p p' : pool A) :
  pool_Get choice p = (None, p') -> p' = p.
Proof. rewrite /pool_Get. case_match; [by destruct_and?; case_match|congruence]. Qed.

(** A property of every pooled object survives [Get], and holds of the object
    it returns. *)
Lemma pool_Get_Forall {A} (P : A -> Prop) choice (p p' : pool A) o :
  pool_Get choice p = (o, p') -> Forall P (internalPool p) ->
  Forall P (internalPool p') /\ from_option P True o.
Proof.
  destruct o as [a|].
  - intros ->%pool_Get_Permutation Hall. by inversion Hall.
  - by intros ->%pool_Get_None.
Qed.
