(* ===== verification/VirtualMem.v ===== *)
(** * VirtualMem: [pkg/pool/virtualmem/virtualmem.go] and [virtualmem_pool.go]

    A [VirtualMem] is a memory file of [Size] bytes mapped twice, one copy after
    the other: the slice [Buf] has [2 * Size] bytes and [Buf[i]] and
    [Buf[i + Size]] are the same byte.  The model keeps the bytes of the file
    ([vm_mem]); the slice is the file followed by itself ([vm_Buf]) and a store
    through the slice is seen through both copies ([vm_copy]).

    The pool keeps released memories in 32 size classes. *)

From S2P Require Import Prelude Float64 SyncPool.
From Stdlib Require Import QArith Qround.

#[local] Open Scope Z_scope.

(** The page size of the machine: on Linux a power of two from 4 KiB to 64 KiB. *)
Class Os : Type := {
  page_bits : Z;
  page_bits_range : 12 <= page_bits <= 16
}.

Definition linux_x86_64 : Os := {| page_bits := 12; page_bits_range := ltac:(lia) |}.

Section VirtualMem.
Context {os : Os}.

(** [pageSize = os.Getpagesize()] *)
Definition pageSize : Z := 2 ^ page_bits.

Definition doubleSize (size : Z) : Z := int64 (size * 2).

Record VirtualMem : Type := mkVM {
  vm_mem : list byte;
  vm_Size : Z
}.

(** The slice [Buf]: both mappings of the file. *)
Definition vm_Buf (m : VirtualMem) : list byte := vm_mem m ++ vm_mem m.

(** The file after the bytes [bs] were stored at offset [w] of the double
    mapping: first the image of the two copies, then the file it leaves behind
    (a byte stored through the second copy is a byte of the file). *)
Definition mirror_store (mem : list byte) (w : nat) (bs : list byte) : list byte :=
  let len := length mem in
  let n := length bs in
  let img := take w (mem ++ mem) ++ bs ++ drop (w + n) (mem ++ mem) in
  let lo := take len img in
  if (w + n <=? len)%nat then lo
  else
    let a := (w `max` len)%nat in
    take (a - len) lo ++ take (w + n - a) (drop a img) ++ drop (w + n - len) lo.

(** [copy(m.Buf[off:], src)]: the number of bytes copied and the new memory. *)
Definition vm_copy (m : VirtualMem) (off : Z) (src : list byte) : outcome (Z * VirtualMem) :=
  if (0 <=? off) && (off <=? zlen (vm_Buf m)) then
    let n := Z.min (zlen (vm_Buf m) - off) (zlen src) in
    Ret (n, mkVM (mirror_store (vm_mem m) (Z.to_nat off) (take (Z.to_nat n) src)) (vm_Size m))
  else Panic PanicBounds.

(** [for j := 0; j < n; j++ { m.Buf[j] = 0 }] *)
Definition vm_zero (m : VirtualMem) (n : Z) : outcome VirtualMem :=
  if n <=? zlen (vm_Buf m) then
    Ret (mkVM (mirror_store (vm_mem m) 0 (replicate (Z.to_nat n) x00)) (vm_Size m))
  else Panic PanicBounds.

Definition VirtualMem_Zeroes (m : VirtualMem) : outcome VirtualMem := vm_zero m (vm_Size m).

Definition AdjustBufferSize (size : Z) : Z :=
  f64_to_int (f64_mul (f64_ceil (f64_div (f64_of_int size) (f64_of_int pageSize)))
                      (f64_of_int pageSize)).

(** What [sync.Pool.Get] does when it is called for a memory of [size] bytes and the
    pool of the class holds the memories [ms]: it returns nil, or the memory at the
    given place.  The Go runtime knows nothing of sizes, but what it does in a run may
    depend on everything that happened in it. *)
Definition mem_choice : Type := Z -> list VirtualMem -> option nat.

(** What the pool, the Go runtime and the kernel contribute to a run: the pools
    of the 32 size classes, the choices of [sync.Pool.Get] (none: nil), and which of the
    coming allocations the kernel refuses (no entry: they succeed). *)
Record World : Type := mkWorld {
  pools : list (pool VirtualMem);
  choices : list mem_choice;
  alloc_fails : list bool
}.

(** What [allocateBuffer] delivers: a fresh memory file of zeroes, mapped twice;
    a failing system call panics.  [MagicMap.v] follows the system calls. *)
Definition mapped_buffer (size : Z) (wd : World) : outcome (list byte * World) :=
  if default false (head (alloc_fails wd)) then Panic (PanicLog "allocateBuffer")
  else Ret (replicate (Z.to_nat size) x00, mkWorld (pools wd) (choices wd) (tail (alloc_fails wd))).

Definition NewVirtualMem (size : Z) (wd : World) : outcome (VirtualMem * World) :=
  '(buf, wd) ← mapped_buffer size wd;
  Ret (mkVM buf size, wd).

Definition maxVMSize : Z := 64 * 1024 * 1024.

Definition virtualmem_index (n : Z) : Z := uint32 (bits_Len32 (uint32 (n - 1))).

Definition virtualmem_Pool_Get (size : Z) (wd : World) : outcome (option VirtualMem * World) :=
  if size <=? 0 then Ret (None, wd)
  else
    let size := AdjustBufferSize size in
    if maxVMSize <? size then
      '(vm, wd) ← NewVirtualMem size wd; Ret (Some vm, wd)
    else
      let idx := virtualmem_index (uint32 size) in
      p ← go_index (pools wd) idx;
      let '(ptr, p') := pool_Get (choice ← head (choices wd); choice size (internalPool p)) p in
      let wd := mkWorld (<[Z.to_nat idx := p']> (pools wd)) (tail (choices wd)) (alloc_fails wd) in
      match ptr with
      | None => '(vm, wd) ← NewVirtualMem size wd; Ret (Some vm, wd)
      | Some vm => Ret (Some vm, wd)
      end.

Definition virtualmem_Pool_Put (mem : VirtualMem) (wd : World) : outcome World :=
  if (vm_Size mem <? pageSize) || (maxVMSize <? vm_Size mem) then Ret wd
  else
    let idx := virtualmem_index (uint32 (vm_Size mem)) in
    let idx := if vm_Size mem =? 2 ^ idx then idx else uint32 (idx - 1) in
    p ← go_index (pools wd) idx;
    Ret (mkWorld (<[Z.to_nat idx := pool_Put mem p]> (pools wd)) (choices wd) (alloc_fails wd)).

(** The package functions on the built-in pool. *)
Definition virtualmem_Get (size : Z) (wd : World) : outcome (option VirtualMem * World) :=
  virtualmem_Pool_Get size wd.

Definition virtualmem_Put (mem : VirtualMem) (wd : World) : outcome World :=
  mem ← VirtualMem_Zeroes mem;
  virtualmem_Pool_Put mem wd.

(** [NewPool]: 32 empty pools. *)
Definition virtualmem_NewPool : list (pool VirtualMem) := replicate 32 NewPool.

End VirtualMem.

#[global] Arguments pageSize : simpl never.
#[global] Arguments AdjustBufferSize {os} size : simpl never.
#[global] Arguments virtualmem_index n : simpl never.
#[global] Arguments maxVMSize : simpl never.
#[global] Arguments mirror_store mem w bs : simpl never.

Lemma doubleSize_small size : 0 <= size < 2 ^ 62 -> doubleSize size = size * 2.
Proof. intros. apply wrap_s_small; lia. Qed.

(** ** The double mapping *)

(** The byte of the file seen at offset [i] of the double mapping. *)
Lemma mirror_lookup (mem : list byte) i :
  (i < 2 * length mem)%nat -> (mem ++ mem) !! i = mem !! (i mod length mem)%nat.
Proof.
  intros Hi. destruct (decide (i < length mem)%nat) as [Hlt|Hge].
  - by rewrite lookup_app_l // Nat.mod_small.
  - rewrite lookup_app_r; [lia|]. f_equal.
    apply (Nat.mod_unique _ _ 1); lia.
Qed.

Lemma length_mirror_store mem w bs :
  (w + length bs <= 2 * length mem)%nat ->
  length (mirror_store mem w bs) = length mem.
Proof.
  intros Hw. rewrite /mirror_store.
  destruct (Nat.leb_spec (w + length bs) (length mem)).
  - rewrite length_take !length_app length_take length_drop !length_app. lia.
  - rewrite !length_app !length_take !length_drop !length_take !length_app
      length_take length_drop !length_app. lia.
Qed.

(** The file after a store: a byte written through the second copy wins, then
    one written through the first copy, then the old byte. *)
Lemma mirror_store_lookup mem w bs j :
  (w + length bs <= 2 * length mem)%nat -> (j < length mem)%nat ->
  mirror_store mem w bs !! j =
    if decide (w <= j + length mem < w + length bs)%nat then bs !! (j + length mem - w)%nat
    else if decide (w <= j < w + length bs)%nat then bs !! (j - w)%nat
    else mem !! j.
Proof.
  intros Hw Hj. rewrite /mirror_store.
  set img := take w (mem ++ mem) ++ bs ++ drop (w + length bs) (mem ++ mem).
  have Himg : forall i, (i < 2 * length mem)%nat -> img !! i =
    if decide (w <= i < w + length bs)%nat then bs !! (i - w)%nat else (mem ++ mem) !! i.
  { intros i Hi. rewrite /img. have Hlen : length (take w (mem ++ mem)) = w.
    { rewrite length_take length_app. lia. }
    case_decide.
    - rewrite lookup_app_r; [lia|]. rewrite Hlen lookup_app_l //. lia.
    - destruct (decide (i < w)%nat).
      + rewrite lookup_app_l; [lia|]. by rewrite lookup_take_lt.
      + rewrite lookup_app_r; [lia|]. rewrite Hlen lookup_app_r; [lia|].
        rewrite lookup_drop. f_equal. lia. }
  have Hlo : take (length mem) img !! j =
    if decide (w <= j < w + length bs)%nat then bs !! (j - w)%nat else mem !! j.
  { rewrite lookup_take_lt // Himg; [lia|]. rewrite lookup_app_l //. }
  destruct (Nat.leb_spec (w + length bs) (length mem)) as [Hle|Hgt].
  - rewrite Hlo. repeat case_decide; (done || lia).
  - move Ha : (w `max` length mem)%nat => a.
    have Hlen1 : length (take (a - length mem) (take (length mem) img)) = (a - length mem)%nat.
    { rewrite !length_take. rewrite /img !length_app length_take length_drop !length_app. lia. }
    destruct (decide (j < a - length mem)%nat) as [Hj1|Hj1].
    { rewrite lookup_app_l; [lia|]. rewrite lookup_take_lt // Hlo.
      repeat case_decide; (done || lia). }
    rewrite lookup_app_r; [lia|]. rewrite Hlen1.
    have Hlen2 : length (take (w + length bs - a) (drop a img)) = (w + length bs - a)%nat.
    { rewrite length_take length_drop /img !length_app length_take length_drop !length_app. lia. }
    destruct (decide (j + length mem < w + length bs)%nat) as [Hj2|Hj2].
    + rewrite lookup_app_l; [lia|]. rewrite lookup_take_lt; [lia|]. rewrite lookup_drop Himg; [lia|].
      repeat case_decide; try lia; f_equal; lia.
    + rewrite lookup_app_r; [lia|]. rewrite Hlen2 lookup_drop.
      rewrite (_ : (w + length bs - length mem + (j - (a - length mem) - (w + length bs - a)))%nat = j); [lia|].
      rewrite Hlo. repeat case_decide; (done || lia).
Qed.

Lemma mod_wrap (a n : nat) :
  (a < 2 * n)%nat -> (a mod n)%nat = if decide (a < n)%nat then a else (a - n)%nat.
Proof.
  intros Ha. case_decide; [by apply Nat.mod_small|].
  symmetry. apply (Nat.mod_unique _ _ 1); lia.
Qed.

(** [m.Buf[r:r+n]] *)
Definition mirror_load (mem : list byte) (r n : nat) : list byte :=
  take n (drop r (mem ++ mem)).

Lemma length_mirror_load mem r n :
  (r + n <= 2 * length mem)%nat -> length (mirror_load mem r n) = n.
Proof. rewrite /mirror_load length_take length_drop length_app. lia. Qed.

Lemma mirror_load_lookup mem r n i :
  (i < n)%nat -> (r + n <= 2 * length mem)%nat ->
  mirror_load mem r n !! i = mem !! ((r + i) mod length mem)%nat.
Proof.
  intros. rewrite /mirror_load lookup_take_lt // lookup_drop mirror_lookup //. lia.
Qed.

(** A store of at most one lap, byte by byte around the ring. *)
Lemma mirror_store_ring mem w bs p :
  (w < length mem)%nat -> (length bs <= length mem)%nat -> (p < length mem)%nat ->
  mirror_store mem w bs !! p =
    let d := if decide (w <= p)%nat then (p - w)%nat else (p + length mem - w)%nat in
    if decide (d < length bs)%nat then bs !! d else mem !! p.
Proof.
  intros. rewrite mirror_store_lookup; [lia..|].
  repeat (case_decide; simpl); (done || lia).
Qed.

Lemma mirror_store_append mem r k bs :
  (r < length mem)%nat -> (k + length bs <= length mem)%nat ->
  mirror_load (mirror_store mem ((r + k) mod length mem) bs) r (k + length bs) =
  mirror_load mem r k ++ bs.
Proof.
  intros Hr Hk. have Hlt : ((r + k) mod length mem < length mem)%nat.
  { apply Nat.mod_upper_bound. lia. }
  have Hlen : length (mirror_store mem ((r + k) mod length mem) bs) = length mem.
  { apply length_mirror_store. lia. }
  apply list_eq_same_length with (k + length bs)%nat.
  - rewrite length_app length_mirror_load; lia.
  - rewrite length_mirror_load; lia.
  - intros i x y Hi.
    rewrite mirror_load_lookup; [lia..|]. rewrite Hlen mirror_store_ring; [lia..| |].
    { apply Nat.mod_upper_bound. lia. }
    rewrite !mod_wrap; [lia..|].
    destruct (decide (i < k)%nat).
    + rewrite lookup_app_l; [rewrite length_mirror_load; lia|].
      rewrite mirror_load_lookup; [lia..|]. rewrite mod_wrap; [lia|].
      repeat (case_decide; simpl); try lia; congruence.
    + rewrite lookup_app_r; [rewrite length_mirror_load; lia|].
      rewrite length_mirror_load; [lia|].
      repeat (case_decide; simpl); try lia;
        match goal with |- bs !! ?a = _ -> bs !! ?b = _ -> _ =>
          replace a with b by lia; congruence end.
Qed.

Lemma mirror_load_advance mem r k n :
  (r < length mem)%nat -> (k <= n <= length mem)%nat ->
  mirror_load mem ((r + k) mod length mem) (n - k) = drop k (mirror_load mem r n).
Proof.
  intros Hr Hk. have Hlt : ((r + k) mod length mem < length mem)%nat.
  { apply Nat.mod_upper_bound. lia. }
  apply list_eq_same_length with (n - k)%nat.
  - rewrite length_drop length_mirror_load; lia.
  - rewrite length_mirror_load; lia.
  - intros i x y Hi. rewrite mirror_load_lookup; [lia..|].
    rewrite lookup_drop mirror_load_lookup; [lia..|].
    rewrite Nat.Div0.add_mod_idemp_l Nat.add_assoc. congruence.
Qed.

Lemma mirror_load_take mem r k n :
  (k <= n)%nat -> take k (mirror_load mem r n) = mirror_load mem r k.
Proof. intros. rewrite /mirror_load take_take. f_equal. lia. Qed.

Lemma mirror_load_fresh mem bs :
  (length bs <= length mem)%nat ->
  mirror_load (mirror_store mem 0 bs) 0 (length bs) = bs.
Proof.
  intros. destruct (decide (length mem = 0)%nat) as [Hz|Hz].
  { have -> : bs = [] by apply length_zero_iff_nil; lia. done. }
  have := mirror_store_append mem 0 0 bs. rewrite Nat.Div0.mod_0_l /=.
  intros ->; [done|lia|lia].
Qed.

(** ** Rounding to whole pages *)

Section Sizes.
Context {os : Os}.

Lemma pageSize_bounds : 4096 <= pageSize <= 65536.
Proof.
  rewrite /pageSize. pose proof page_bits_range as Hb. split.
  - change 4096 with (2 ^ 12). apply Z.pow_le_mono_r; lia.
  - change 65536 with (2 ^ 16). apply Z.pow_le_mono_r; lia.
Qed.

(** The number of pages that hold [size] bytes. *)
Definition pages (size : Z) : Z := (size + pageSize - 1) / pageSize.

Lemma pages_spec size :
  size <= pages size * pageSize < size + pageSize.
Proof.
  have := pageSize_bounds. rewrite /pages => ?.
  pose proof (Z.div_mod (size + pageSize - 1) pageSize).
  pose proof (Z.mod_pos_bound (size + pageSize - 1) pageSize). lia.
Qed.

Lemma f64_of_int_exact n : 0 < n < 2 ^ 53 -> (f64_of_int n == inject_Z n)%Q.
Proof.
  intros. apply (round53_exact _ n 0 0); [lia..|].
  rewrite /Qeq /=. lia.
Qed.

Lemma f64_to_int_comp x y : (x == y)%Q -> 0 <= Qnum y -> f64_to_int x = f64_to_int y.
Proof.
  rewrite /f64_to_int /Qeq. intros Heq Hy.
  have Hx : 0 <= Qnum x by nia.
  rewrite !Z.quot_div_nonneg; [lia..|].
  rewrite -(Z.div_mul_cancel_r (Qnum x) _ (Zpos (Qden y))); [lia..|].
  rewrite Heq (Z.mul_comm (Zpos (Qden x))) Z.div_mul_cancel_r; lia.
Qed.

Lemma Qceiling_div_pages size :
  Qceiling (inject_Z size / inject_Z pageSize) = pages size.
Proof.
  have Hps := pageSize_bounds. have Hpg := pages_spec size.
  have -> : (inject_Z size / inject_Z pageSize == Qmake size (Z.to_pos pageSize))%Q.
  { rewrite (Qmake_Qdiv size) Z2Pos.id //. lia. }
  rewrite /Qceiling /Qfloor /= Z2Pos.id; [lia|].
  pose proof (Z.div_mod (- size) pageSize). pose proof (Z.mod_pos_bound (- size) pageSize).
  nia.
Qed.

(** The floating point computation rounds up to whole pages exactly, for every
    size below [2^53 - 2^16]. *)
Lemma AdjustBufferSize_spec size :
  0 <= size < 2 ^ 53 - 2 ^ 16 -> AdjustBufferSize size = pages size * pageSize.
Proof.
  intros Hsize. have Hps := pageSize_bounds. have Hpg := pages_spec size.
  destruct (decide (size = 0)) as [->|Hnz].
  { have -> : pages 0 = 0 by nia. rewrite /AdjustBufferSize.
    by rewrite /f64_of_int /f64_div /round53. }
  pose proof page_bits_range as Hb.
  have Hs : (f64_of_int size == inject_Z size)%Q by apply f64_of_int_exact; lia.
  have Hp : (f64_of_int pageSize == inject_Z pageSize)%Q by apply f64_of_int_exact; lia.
  have Hpnz : ~ (inject_Z pageSize == 0)%Q by rewrite /Qeq /=; lia.
  have Hdiv : (f64_div (f64_of_int size) (f64_of_int pageSize)
               == inject_Z size / inject_Z pageSize)%Q.
  { rewrite -Hs -Hp. apply (round53_exact _ size (- page_bits) page_bits); [lia..|].
    rewrite Hs Hp Z.add_opp_diag_l Z.mul_1_r -/pageSize. by field. }
  have Hceil : Qceiling (f64_div (f64_of_int size) (f64_of_int pageSize)) = pages size.
  { rewrite Hdiv. by apply Qceiling_div_pages. }
  rewrite /AdjustBufferSize /f64_ceil Hceil.
  have Hmul : (f64_mul (inject_Z (pages size)) (f64_of_int pageSize)
               == inject_Z (pages size * pageSize))%Q.
  { rewrite inject_Z_mult -Hp. apply (round53_exact _ (pages size) page_bits 0); [nia|lia..|].
    rewrite Hp Z.add_0_r -/pageSize Qmult_1_r inject_Z_mult //. }
  rewrite (f64_to_int_comp _ _ Hmul); [simpl; lia|].
  rewrite /f64_to_int /=. apply Z.quot_1_r.
Qed.
End Sizes.

(** ** Size classes *)

Lemma virtualmem_index_spec n :
  1 <= n <= 2 ^ 31 ->
  0 <= virtualmem_index n <= 31 /\ n <= 2 ^ virtualmem_index n /\
  (1 < n -> 2 ^ (virtualmem_index n - 1) < n).
Proof.
  intros Hn. rewrite /virtualmem_index.
  rewrite (wrap_u_small 32 (n - 1)); [lia|].
  have Hk := bits_Len32_nonneg (n - 1).
  have H31 : bits_Len32 (n - 1) <= 31 by apply bits_Len32_spec; lia.
  rewrite wrap_u_small; [lia|]. repeat split; [lia..| |].
  - have := proj1 (bits_Len32_spec (n - 1) (bits_Len32 (n - 1)) Hk ltac:(lia)). lia.
  - intros. have := bits_Len32_lower (n - 1). lia.
Qed.

(** A power of two is the upper end of its own class. *)
Lemma virtualmem_index_pow2 k : 0 <= k <= 31 -> virtualmem_index (2 ^ k) = k.
Proof.
  intros Hk. have Hp : 1 <= 2 ^ k <= 2 ^ 31.
  { split; [have := pow2_pos k; lia|apply Z.pow_le_mono_r; lia]. }
  have [Hi [Hle Hlt]] := virtualmem_index_spec _ Hp.
  apply Z.pow_le_mono_r_iff in Hle; [|lia|lia].
  destruct (decide (k = 0)) as [->|]; [reflexivity|].
  have : 1 < 2 ^ k. { apply Z.pow_gt_1; lia. }
  intros ?%Hlt%Z.pow_lt_mono_r_iff; lia.
Qed.

(** The file of a memory has [Size] bytes, at least the smallest page. *)
Record vm_ok (m : VirtualMem) : Prop := {
  vm_ok_len : zlen (vm_mem m) = vm_Size m;
  vm_ok_page : 4096 <= vm_Size m
}.

Definition vm_zeroed (m : VirtualMem) : Prop := Forall (eq x00) (vm_mem m).

(** What class [i] of the pool holds: zeroed memories of [2^i] to [2^(i+1) - 1]
    bytes. *)
Definition class_ok (i : nat) (m : VirtualMem) : Prop :=
  vm_ok m /\ vm_zeroed m /\ 2 ^ Z.of_nat i <= vm_Size m < 2 ^ (Z.of_nat i + 1).

Record world_ok (wd : World) : Prop := {
  world_ok_len : length (pools wd) = 32%nat;
  world_ok_class : forall i p, pools wd !! i = Some p -> Forall (class_ok i) (internalPool p)
}.

Lemma world_ok_NewPool cs fs : world_ok (mkWorld virtualmem_NewPool cs fs).
Proof.
  split; [done|]. intros i p. simpl.
  by intros [-> _]%lookup_replicate_1.
Qed.

Lemma world_ok_update wd i p cs fs :
  world_ok wd -> Forall (class_ok i) (internalPool p) ->
  world_ok (mkWorld (<[i := p]> (pools wd)) cs fs).
Proof.
  intros [Hlen Hcl] Hp. split; simpl; [by rewrite length_insert|].
  intros j q [(-> & <- & _)|[? ?]]%list_lookup_insert_Some; eauto.
Qed.

Lemma mirror_store_zero_all mem :
  Forall (eq x00) (mirror_store mem 0 (replicate (length mem) x00)).
Proof.
  apply Forall_lookup. intros i b Hb.
  have Hi : (i < length mem)%nat.
  { apply lookup_lt_Some in Hb. rewrite length_mirror_store in Hb; [|done].
    rewrite length_replicate. lia. }
  rewrite mirror_store_lookup ?length_replicate in Hb; [rewrite ?length_replicate; lia..|].
  repeat case_decide; try lia. by apply lookup_replicate_1 in Hb as [-> _].
Qed.

Lemma VirtualMem_Zeroes_ok m :
  vm_ok m ->
  exists m', VirtualMem_Zeroes m = Ret m' /\ vm_ok m' /\ vm_zeroed m' /\ vm_Size m' = vm_Size m.
Proof.
  intros [Hlen Hpos]. rewrite /VirtualMem_Zeroes /vm_zero /vm_Buf zlen_app.
  destruct (Z.leb_spec (vm_Size m) (zlen (vm_mem m) + zlen (vm_mem m))); [|lia].
  eexists. split; [done|]. simpl.
  rewrite -Hlen /zlen Nat2Z.id. split; [|split; [|done]].
  - split; simpl; [|rewrite /zlen in Hlen; lia].
    rewrite /zlen length_mirror_store // length_replicate. lia.
  - apply mirror_store_zero_all.
Qed.

(** ** The pool *)

Section Pool.
Context {os : Os}.

(** The kernel grants the next allocation. *)
Definition can_alloc (wd : World) : Prop := default false (head (alloc_fails wd)) = false.

(** Requests the pool serves: far above any buffer, far below the precision of
    the page rounding. *)
Definition size_range (size : Z) : Prop := 0 < size < 2 ^ 53 - 2 ^ 16.

Lemma AdjustBufferSize_bounds size :
  0 <= size < 2 ^ 53 - 2 ^ 16 -> size <= AdjustBufferSize size < size + pageSize.
Proof. intros ?. rewrite AdjustBufferSize_spec //. apply pages_spec. Qed.

Lemma AdjustBufferSize_page size :
  size_range size -> pageSize <= AdjustBufferSize size.
Proof.
  intros Hs. pose proof (pageSize_bounds) as Hps. pose proof (pages_spec size) as Hpg.
  rewrite /size_range in Hs. rewrite AdjustBufferSize_spec; [lia|]. assert (1 <= pages size) by nia. nia.
Qed.

Lemma AdjustBufferSize_idem size :
  0 <= size < 2 ^ 52 -> AdjustBufferSize (AdjustBufferSize size) = AdjustBufferSize size.
Proof.
  intros Hs. pose proof pageSize_bounds as Hps.
  pose proof (AdjustBufferSize_bounds size ltac:(lia)) as Hb.
  rewrite (AdjustBufferSize_spec (AdjustBufferSize size)); [lia|].
  rewrite (AdjustBufferSize_spec size) in Hb |- *; [lia|]. rewrite /pages in Hb |- *.
  rewrite -Z.add_sub_assoc (Z.add_comm (_ * _)) Z.div_add; [lia|].
  rewrite Z.div_small; lia.
Qed.

Lemma NewVirtualMem_ok size wd :
  4096 <= size -> world_ok wd -> can_alloc wd ->
  exists vm wd', NewVirtualMem size wd = Ret (vm, wd') /\
    vm_ok vm /\ vm_zeroed vm /\ vm_Size vm = size /\ world_ok wd' /\
    pools wd' = pools wd /\ choices wd' = choices wd /\ alloc_fails wd' = tail (alloc_fails wd).
Proof.
  rewrite /can_alloc. intros Hs [Hlen Hcl] Hf. rewrite /NewVirtualMem /mapped_buffer Hf /=.
  eexists _, _. split; [done|]. repeat split; simpl; [|lia|by apply Forall_replicate|done..].
  rewrite /zlen length_replicate. lia.
Qed.

(** What a request delivers when the kernel does not refuse the allocation: a
    zeroed memory of at least the rounded size and less than four times it. *)
Lemma virtualmem_Get_ok size wd :
  size_range size -> world_ok wd -> can_alloc wd ->
  exists vm wd', virtualmem_Get size wd = Ret (Some vm, wd') /\
    vm_ok vm /\ vm_zeroed vm /\ world_ok wd' /\
    AdjustBufferSize size <= vm_Size vm < 4 * AdjustBufferSize size /\
    (alloc_fails wd' = alloc_fails wd \/ alloc_fails wd' = tail (alloc_fails wd)).
Proof.
  intros Hs Hwd Hf. pose proof (pageSize_bounds) as Hps.
  pose proof (AdjustBufferSize_page size Hs) as Hadj.
  rewrite /virtualmem_Get /virtualmem_Pool_Get.
  destruct (Z.leb_spec size 0); [rewrite /size_range in Hs; lia|].
  destruct (Z.ltb_spec maxVMSize (AdjustBufferSize size)) as [Hbig|Hsmall].
  { destruct (NewVirtualMem_ok (AdjustBufferSize size) wd)
      as (vm & wd' & -> & ? & ? & Hsz & ? & _ & _ & ?); [lia|done..|].
    rewrite bind_Ret. eexists _, _. split; [done|]. rewrite Hsz. repeat (split; [done||lia|]). by right. }
  rewrite (wrap_u_small 32); [rewrite /maxVMSize in Hsmall; lia|].
  destruct (virtualmem_index_spec (AdjustBufferSize size)) as (Hi & Hle & Hlt).
  { rewrite /maxVMSize in Hsmall. lia. }
  set idx := virtualmem_index _ in Hi Hle Hlt *.
  have [p Hp] : is_Some (pools wd !! Z.to_nat idx).
  { apply lookup_lt_is_Some. rewrite (world_ok_len _ Hwd). lia. }
  rewrite (go_index_ok _ _ p) // ?bind_Ret; [lia|].
  destruct (pool_Get _ p) as [ptr p'] eqn:Hget.
  have [Hp' Hptr] := pool_Get_Forall (class_ok (Z.to_nat idx)) _ _ _ _ Hget (world_ok_class _ Hwd _ _ Hp).
  have Hwd' := world_ok_update wd (Z.to_nat idx) p' (tail (choices wd)) (alloc_fails wd) Hwd Hp'.
  destruct ptr as [vm|]; simpl in Hptr.
  - destruct Hptr as [? [? [Hlo Hhi]]]. eexists _, _. split; [done|].
    rewrite Z2Nat.id in Hlo; [lia|]. rewrite Z2Nat.id in Hhi; [lia|].
    repeat (split; [done|]). split; [|by left]. split; [lia|].
    have Hpow : 2 ^ (idx + 1) = 4 * 2 ^ (idx - 1).
    { change 4 with (2 ^ 2). rewrite -Z.pow_add_r; [lia| |f_equal; lia].
      destruct (decide (idx = 0)) as [Hz|]; [|lia]. rewrite Hz in Hle. lia. }
    lia.
  - edestruct (NewVirtualMem_ok (AdjustBufferSize size))
      as (vm & wd' & -> & ? & ? & Hsz & ? & _ & _ & ?); [lia|exact Hwd'|exact Hf|].
    rewrite bind_Ret. eexists _, _. split; [done|]. rewrite Hsz. repeat (split; [done||lia|]). by right.
Qed.

(** A released memory is zeroed and filed in the class of its size. *)
Lemma virtualmem_Put_ok m wd :
  vm_ok m -> world_ok wd ->
  exists wd', virtualmem_Put m wd = Ret wd' /\ world_ok wd' /\
    choices wd' = choices wd /\ alloc_fails wd' = alloc_fails wd.
Proof.
  intros Hm Hwd. pose proof pageSize_bounds as Hps.
  destruct (VirtualMem_Zeroes_ok m Hm) as (m' & Hz & Hm' & Hz' & Hsz).
  rewrite /virtualmem_Put Hz bind_Ret /virtualmem_Pool_Put Hsz.
  destruct (_ || _) eqn:Hrange; [by exists wd|].
  apply orb_false_iff in Hrange as [Hlo%Z.ltb_ge Hhi%Z.ltb_ge].
  rewrite (wrap_u_small 32); [rewrite /maxVMSize in Hhi; lia|].
  destruct (virtualmem_index_spec (vm_Size m)) as (Hi & Hle & Hlt).
  { rewrite /maxVMSize in Hhi. lia. }
  specialize (Hlt ltac:(lia)). set idx := virtualmem_index _ in Hi Hle Hlt *.
  have Hidx : 1 <= idx.
  { destruct (decide (idx = 0)) as [Hz0|]; [|lia]. rewrite Hz0 Z.pow_0_r in Hle. lia. }
  set c := if vm_Size m =? 2 ^ idx then idx else uint32 (idx - 1).
  have [Hc Hcl] : 0 <= c <= 31 /\ 2 ^ c <= vm_Size m < 2 ^ (c + 1).
  { rewrite /c. destruct (Z.eqb_spec (vm_Size m) (2 ^ idx)) as [->|Hne].
    - split; [lia|]. split; [done|]. apply Z.pow_lt_mono_r; lia.
    - rewrite wrap_u_small; [lia|]. rewrite Z.sub_add. lia. }
  have [p Hp] : is_Some (pools wd !! Z.to_nat c).
  { apply lookup_lt_is_Some. rewrite (world_ok_len _ Hwd). lia. }
  rewrite (go_index_ok _ _ p) // ?bind_Ret; [lia|].
  eexists. split; [done|]. split; [|done]. apply world_ok_update; [done|].
  simpl. constructor; [|by eapply world_ok_class]. split; [done|]. split; [done|].
  rewrite Hsz Z2Nat.id; lia.
Qed.

Lemma NewVirtualMem_size size wd vm wd' :
  ('(vm, wd) ← NewVirtualMem size wd; Ret (Some vm, wd)) = Ret (Some vm, wd') ->
  exists vm', vm = vm' /\ vm_Size vm' = size.
Proof.
  rewrite /NewVirtualMem /mapped_buffer. destruct (default _ _); [done|].
  intros [= <- _]. by eexists.
Qed.

(** The memory a request delivers has exactly the rounded size. *)
Definition vm_exact (size : Z) (wd : World) : Prop :=
  forall vm wd', virtualmem_Get size wd = Ret (Some vm, wd') -> vm_Size vm = AdjustBufferSize size.

(** That is so when the size class is empty ... *)
Lemma vm_exact_empty size wd :
  pools wd !! Z.to_nat (virtualmem_index (uint32 (AdjustBufferSize size))) = Some NewPool ->
  vm_exact size wd.
Proof.
  intros Hp vm wd'. rewrite /virtualmem_Get /virtualmem_Pool_Get.
  destruct (size <=? 0); [done|]. revert Hp. generalize (AdjustBufferSize size) => s Hp.
  destruct (maxVMSize <? s).
  { by intros (vm' & -> & ?)%NewVirtualMem_size. }
  rewrite /go_index Hp. destruct (_ <? 0); [done|]. rewrite bind_Ret /pool_Get.
  have -> : ((choice ← head (choices wd); choice s (internalPool (NewPool (A := VirtualMem)))) ≫= fun i =>
    pair i <$> internalPool (NewPool (A := VirtualMem)) !! i) = None.
  { destruct (head (choices wd)) as [f|]; simpl; [by destruct (f _ _)|done]. }
  by intros (vm' & -> & ?)%NewVirtualMem_size.
Qed.

(** ... and when the rounded size is a power of two and so are the sizes of the
    memories of its class. *)
Lemma vm_exact_pow2 size wd k p :
  0 <= k <= 31 -> AdjustBufferSize size = 2 ^ k ->
  pools wd !! Z.to_nat k = Some p ->
  Forall (fun m => vm_Size m = 2 ^ k) (internalPool p) ->
  vm_exact size wd.
Proof.
  intros Hk Hadj Hp Hall vm wd'. rewrite /virtualmem_Get /virtualmem_Pool_Get Hadj.
  have Hpk : 0 <= 2 ^ k < 2 ^ 32.
  { split; [have := pow2_pos k; lia|apply Z.pow_lt_mono_r; lia]. }
  rewrite (wrap_u_small 32) // virtualmem_index_pow2 // (go_index_ok _ _ p) ?bind_Ret; [lia|done|].
  destruct (size <=? 0); [done|]. revert Hall. generalize (2 ^ k) => s Hall.
  destruct (maxVMSize <? _).
  { by intros (vm' & -> & ?)%NewVirtualMem_size. }
  destruct (pool_Get _ p) as [ptr p'] eqn:Hget.
  have [_ Hptr] := pool_Get_Forall _ _ _ _ _ Hget Hall.
  destruct ptr; simpl in Hptr; [by intros [= <- _]|].
  by intros (vm' & -> & ?)%NewVirtualMem_size.
Qed.

(** ** What the pool promises the buffers

    The worlds a client reaches by requests and releases. *)
Inductive world_reach (wd : World) : World -> Prop :=
| reach_refl : world_reach wd wd
| reach_get wd1 size vm wd2 :
    world_reach wd wd1 -> size_range size -> virtualmem_Get size wd1 = Ret (vm, wd2) ->
    world_reach wd wd2
| reach_put wd1 m wd2 :
    world_reach wd wd1 -> vm_ok m -> virtualmem_Put m wd1 = Ret wd2 -> world_reach wd wd2.

Lemma reach_trans wd1 wd2 wd3 : world_reach wd1 wd2 -> world_reach wd2 wd3 -> world_reach wd1 wd3.
Proof. intros H1. induction 1; [done|by eapply reach_get|by eapply reach_put]. Qed.

(** A set of worlds in which every request is granted and delivers exactly the
    rounded size, and which requests and releases do not leave: [exact_world] below is
    one. *)
Class PoolPromise (P : World -> Prop) : Prop := {
  promise_ok wd : P wd -> world_ok wd;
  promise_alloc wd : P wd -> can_alloc wd;
  promise_exact wd size : P wd -> size_range size -> vm_exact size wd;
  promise_get wd size vm wd' :
    P wd -> size_range size -> virtualmem_Get size wd = Ret (vm, wd') -> P wd';
  promise_put wd m wd' : P wd -> vm_ok m -> virtualmem_Put m wd = Ret wd' -> P wd'
}.

Lemma promise_reach P `{!PoolPromise P} wd wd' : P wd -> world_reach wd wd' -> P wd'.
Proof.
  intros HP. induction 1 as [|? ? ? ? ? IH|? ? ? ? IH]; [done|by eapply promise_get|by eapply promise_put].
Qed.

(** [sync.Pool] answers a request with nil or with a memory of the size asked for. *)
Definition exact_choice (f : mem_choice) : Prop :=
  forall size ms i m, f size ms = Some i -> ms !! i = Some m -> vm_Size m = size.

(** The runs in which it always does so, and in which the kernel grants the
    allocations.  Memories are reused; what is excluded is that a request is answered
    with a larger memory of its size class. *)
Definition exact_world (wd : World) : Prop :=
  world_ok wd /\ Forall exact_choice (choices wd) /\ alloc_fails wd = [].

(** The first memory of the right size. *)
Definition first_fit : mem_choice := fun size ms => fst <$> list_find (fun m => vm_Size m = size) ms.

Lemma first_fit_exact : exact_choice first_fit.
Proof.
  intros size ms i m ((j & m') & (Hm & Hs & _)%list_find_Some & ->)%fmap_Some Hi. simpl in Hi. by simplify_eq.
Qed.

Lemma exact_world_Get wd size vm wd' :
  exact_world wd -> size_range size -> virtualmem_Get size wd = Ret (vm, wd') ->
  exact_world wd' /\ exists m, vm = Some m /\ vm_Size m = AdjustBufferSize size.
Proof.
  intros (Hok & Hch & Hal) Hs Hget.
  destruct (virtualmem_Get_ok size wd Hs Hok) as (m & wd1 & Hget' & _ & _ & Hok' & _ & _).
  { by rewrite /can_alloc Hal. }
  rewrite Hget in Hget'. simplify_eq. move: Hget. rewrite /virtualmem_Get /virtualmem_Pool_Get.
  destruct (size <=? 0); [done|]. rewrite /NewVirtualMem /mapped_buffer Hal /=.
  generalize (AdjustBufferSize size) => s. destruct (_ <? _).
  - intros [= <- <-]. split; [done|by eexists].
  - have Htl : Forall exact_choice (tail (choices wd)) by destruct (choices wd); [|inversion Hch].
    intros (p & _ & H)%bind_Ret_inv. destruct (pool_Get _ p) as [[m1|] p'] eqn:Hp.
    + injection H as <- <-. split; [done|]. eexists. split; [done|].
      destruct (choices wd) as [|f fs]; [done|]. inversion Hch as [|? ? Hf]. simpl in Hp. subst.
      by eapply pool_Get_chosen in Hp as (i & Hi & Hm); [eapply Hf].
    + injection H as <- <-. split; [done|by eexists].
Qed.

#[export] Instance exact_world_promise : PoolPromise exact_world.
Proof.
  split.
  - by intros wd [? _].
  - intros wd (_ & _ & Hal). by rewrite /can_alloc Hal.
  - intros wd size Hwd Hs vm wd' Hget.
    by destruct (exact_world_Get _ _ _ _ Hwd Hs Hget) as [_ (m & [= <-] & ?)].
  - intros wd size vm wd' Hwd Hs Hget. by destruct (exact_world_Get _ _ _ _ Hwd Hs Hget).
  - intros wd m wd' (Hok & Hch & Hal) Hm Hput.
    destruct (virtualmem_Put_ok m wd Hm Hok) as (wd1 & Hput' & Hok' & Hc & Ha).
    rewrite Hput in Hput'. simplify_eq. rewrite /exact_world. by rewrite Hc Ha.
Qed.

End Pool.
