(* ===== verification/MagicRing.v ===== *)
(** * MagicRing: [pkg/buffer/magicring/ringbuffer.go]

    The ring buffer over a doubly mapped memory: because [Buf[i]] and
    [Buf[i + Size]] are the same byte, the readable and the writable bytes are
    always one contiguous slice of [Buf].

    A method that receives or returns a slice of [Buf] is modelled by the bytes
    of the slice.  [Read(buffer)] takes the length of the destination and returns
    the bytes it copies to its front. *)

From S2P Require Import Prelude Errors SyncPool VirtualMem.

Section MagicRing.
Context {os : Os}.

Definition DefaultMagicBufferSize : Z := pageSize.
Definition MinRead : Z := 1024.

Record RingBuffer : Type := mkRB {
  rb_vm : option VirtualMem;
  rb_Size : Z;
  rb_r : Z;
  rb_w : Z;
  rb_isEmpty : bool
}.

Definition rb_set_vm (rb : RingBuffer) (vm : VirtualMem) : RingBuffer :=
  mkRB (Some vm) (rb_Size rb) (rb_r rb) (rb_w rb) (rb_isEmpty rb).
Definition rb_set_r (rb : RingBuffer) (r : Z) : RingBuffer :=
  mkRB (rb_vm rb) (rb_Size rb) r (rb_w rb) (rb_isEmpty rb).
Definition rb_set_w (rb : RingBuffer) (w : Z) : RingBuffer :=
  mkRB (rb_vm rb) (rb_Size rb) (rb_r rb) w (rb_isEmpty rb).
Definition rb_set_isEmpty (rb : RingBuffer) (b : bool) : RingBuffer :=
  mkRB (rb_vm rb) (rb_Size rb) (rb_r rb) (rb_w rb) b.

(** [rb.vm.Buf] *)
Definition rb_Buf (rb : RingBuffer) : outcome (list byte) :=
  vm ← deref (rb_vm rb); Ret (vm_Buf vm).

(** The addresses handed to the kernel, as offsets into [Buf]. *)
Definition RingBuffer_ReadAddress (rb : RingBuffer) : outcome Z :=
  buf ← rb_Buf rb; _ ← go_index buf (rb_r rb); Ret (rb_r rb).

Definition RingBuffer_WriteAddress (rb : RingBuffer) : outcome Z :=
  buf ← rb_Buf rb; _ ← go_index buf (rb_w rb); Ret (rb_w rb).

Definition RingBuffer_Zeroes (rb : RingBuffer) : outcome RingBuffer :=
  if rb_Size rb <=? 0 then Ret rb
  else
    vm ← deref (rb_vm rb);
    vm ← vm_zero vm (rb_Size rb);
    Ret (rb_set_vm rb vm).

Definition RingBuffer_ReleaseBytes (rb : RingBuffer) (wd : World) : outcome World :=
  vm ← deref (rb_vm rb); virtualmem_Put vm wd.

Definition RingBuffer_Reset (rb : RingBuffer) : RingBuffer :=
  mkRB (rb_vm rb) (rb_Size rb) 0 0 true.

(** The number of bytes that can be written. *)
Definition RingBuffer_Available (rb : RingBuffer) : Z :=
  if rb_r rb =? rb_w rb then
    if rb_isEmpty rb then rb_Size rb else 0
  else if rb_w rb <? rb_r rb then rb_r rb - rb_w rb
  else rb_Size rb - rb_w rb + rb_r rb.

(** The number of bytes that can be read. *)
Definition RingBuffer_Buffered (rb : RingBuffer) : Z :=
  if rb_r rb =? rb_w rb then
    if rb_isEmpty rb then 0 else rb_Size rb
  else if rb_r rb <? rb_w rb then rb_w rb - rb_r rb
  else rb_Size rb - rb_r rb + rb_w rb.

Definition RingBuffer_IsFull (rb : RingBuffer) : bool :=
  (rb_r rb =? rb_w rb) && negb (rb_isEmpty rb).

Definition RingBuffer_IsEmpty (rb : RingBuffer) : bool := rb_isEmpty rb.

Definition RingBuffer_Cap (rb : RingBuffer) : Z := rb_Size rb.

Definition RingBuffer_Read (rb : RingBuffer) (buflen : Z) :
    outcome (list byte * option error * RingBuffer) :=
  if buflen =? 0 then Ret ([], None, rb)
  else if rb_isEmpty rb then Ret ([], Some ErrIsEmpty, rb)
  else
    let bytesToWrite := RingBuffer_Buffered rb in
    let bytesToWrite := if buflen <? bytesToWrite then buflen else bytesToWrite in
    buf ← rb_Buf rb;
    bytes ← go_slice buf (rb_r rb) (rb_r rb + bytesToWrite);
    r ← go_rem (rb_r rb + bytesToWrite) (rb_Size rb);
    let rb := rb_set_r rb r in
    let rb := if rb_r rb =? rb_w rb then RingBuffer_Reset rb else rb in
    Ret (bytes, None, rb).

Definition RingBuffer_Grow (rb : RingBuffer) (newCap : Z) (wd : World) :
    outcome (RingBuffer * World) :=
  let newCap := AdjustBufferSize newCap in
  '(newBuf, wd) ← virtualmem_Get newCap wd;
  let oldLen := RingBuffer_Buffered rb in
  newBuf ← deref newBuf;
  '(bytes, _, rb) ← RingBuffer_Read rb (zlen (vm_Buf newBuf));
  '(_, newBuf) ← vm_copy newBuf 0 bytes;
  wd ← match rb_vm rb with
       | Some _ => RingBuffer_ReleaseBytes rb wd
       | None => Ret wd
       end;
  Ret (mkRB (Some newBuf) newCap 0 oldLen (if 0 <? oldLen then false else rb_isEmpty rb), wd).

Definition RingBuffer_Write (rb : RingBuffer) (buffer : list byte) (wd : World) :
    outcome (Z * option error * RingBuffer * World) :=
  let bytesToRead := zlen buffer in
  if bytesToRead =? 0 then Ret (bytesToRead, None, rb, wd)
  else
    let free := RingBuffer_Available rb in
    '(rb, wd) ← if free <? bytesToRead
                then RingBuffer_Grow rb (rb_Size rb + bytesToRead - free) wd
                else Ret (rb, wd);
    vm ← deref (rb_vm rb);
    '(_, vm) ← vm_copy vm (rb_w rb) buffer;
    w ← go_rem (rb_w rb + bytesToRead) (rb_Size rb);
    Ret (bytesToRead, None, mkRB (Some vm) (rb_Size rb) (rb_r rb) w false, wd).

Definition RingBuffer_AdvanceWrite (rb : RingBuffer) (bytesToAdvance : Z) : outcome RingBuffer :=
  if bytesToAdvance =? 0 then Ret rb
  else
    let free := RingBuffer_Available rb in
    let rb := rb_set_isEmpty rb false in
    if free <? bytesToAdvance then
      Panic (PanicLog "AdvanceWrite - bytesToAdvance is too large")
    else if rb_Size rb <=? rb_w rb + bytesToAdvance then
      Ret (rb_set_w rb (rb_w rb + bytesToAdvance - rb_Size rb))
    else Ret (rb_set_w rb (rb_w rb + bytesToAdvance)).

Definition RingBuffer_AdvanceRead (rb : RingBuffer) (bytesToAdvance : Z) : outcome RingBuffer :=
  if bytesToAdvance =? 0 then Ret rb
  else
    let buffered := RingBuffer_Buffered rb in
    if buffered <? bytesToAdvance then Panic (PanicLog "n is too large")
    else
      let rb := if rb_Size rb <=? rb_r rb + bytesToAdvance
                then rb_set_r rb (rb_r rb + bytesToAdvance - rb_Size rb)
                else rb_set_r rb (rb_r rb + bytesToAdvance) in
      Ret (if rb_r rb =? rb_w rb then RingBuffer_Reset rb else rb).

(** [Discard] skips the next n bytes by advancing the read pointer. *)
Definition RingBuffer_Discard (rb : RingBuffer) (bytesToDiscard : Z) : outcome (Z * RingBuffer) :=
  if bytesToDiscard =? 0 then Ret (0, rb)
  else
    let discarded := RingBuffer_Buffered rb in
    if bytesToDiscard <? discarded then
      r ← go_rem (rb_r rb + bytesToDiscard) (rb_Size rb);
      Ret (bytesToDiscard, rb_set_r rb r)
    else Ret (discarded, RingBuffer_Reset rb).

Definition RingBuffer_Next (rb : RingBuffer) (nBytes : Z) :
    outcome (list byte * option error * RingBuffer) :=
  let bufferLen := RingBuffer_Buffered rb in
  if bufferLen <? nBytes then Ret ([], Some IoErrShortBuffer, rb)
  else
    let nBytes := if nBytes <=? 0 then bufferLen else nBytes in
    buf ← rb_Buf rb;
    bytes ← go_slice buf (rb_r rb) (rb_r rb + nBytes);
    '(_, rb) ← RingBuffer_Discard rb nBytes;
    Ret (bytes, None, rb).

Definition RingBuffer_peekAll (rb : RingBuffer) : outcome (list byte) :=
  if rb_isEmpty rb then Ret []
  else
    buf ← rb_Buf rb;
    go_slice buf (rb_r rb) (rb_r rb + RingBuffer_Buffered rb).

Definition RingBuffer_Peek (rb : RingBuffer) (bytesToPeak : Z) : outcome (list byte) :=
  if rb_isEmpty rb then Ret []
  else if bytesToPeak <=? 0 then RingBuffer_peekAll rb
  else
    let bufferedBytes := RingBuffer_Buffered rb in
    let bufferedBytes := if bytesToPeak <? bufferedBytes then bytesToPeak else bufferedBytes in
    buf ← rb_Buf rb;
    go_slice buf (rb_r rb) (rb_r rb + bufferedBytes).

Definition RingBuffer_Bytes (rb : RingBuffer) : outcome (list byte) :=
  if rb_isEmpty rb then Ret []
  else
    buf ← rb_Buf rb;
    go_slice buf (rb_r rb) (rb_r rb + RingBuffer_Buffered rb).

Definition RingBuffer_WriteByte (rb : RingBuffer) (c : byte) (wd : World) :
    outcome (option error * RingBuffer * World) :=
  '(rb, wd) ← if RingBuffer_Available rb <? 1 then RingBuffer_Grow rb (rb_Size rb + 1) wd
              else Ret (rb, wd);
  vm ← deref (rb_vm rb);
  _ ← go_index (vm_Buf vm) (rb_w rb);
  '(_, vm) ← vm_copy vm (rb_w rb) [c];
  let w := rb_w rb + 1 in
  let w := if w =? rb_Size rb then 0 else w in
  Ret (None, mkRB (Some vm) (rb_Size rb) (rb_r rb) w false, wd).

Definition RingBuffer_ReadByte (rb : RingBuffer) : outcome (byte * option error * RingBuffer) :=
  if rb_isEmpty rb then Ret (x00, Some ErrIsEmpty, rb)
  else
    buf ← rb_Buf rb;
    byteRead ← go_index buf (rb_r rb);
    let r := rb_r rb + 1 in
    let r := if r =? rb_Size rb then 0 else r in
    let rb := rb_set_r rb r in
    let rb := if rb_r rb =? rb_w rb then RingBuffer_Reset rb else rb in
    Ret (byteRead, None, rb).

Definition RingBuffer_GrowIfUnsufficientFreeSpace (rb : RingBuffer) (wd : World) :
    outcome (RingBuffer * World) :=
  if RingBuffer_Available rb <? MinRead
  then RingBuffer_Grow rb (RingBuffer_Buffered rb + MinRead) wd
  else Ret (rb, wd).

(** *** [ReadFrom] and [WriteTo]

    The reader is a state machine: a call with a destination of the given length
    returns the count, the bytes it stored at the front of the destination, an
    error and its next state.  The writer likewise. *)
Section Streams.
Context {R W : Type}.
Variable reader_Read : R -> Z -> Z * list byte * option error * R.
Variable writer_Write : W -> list byte -> Z * option error * W.

(** One iteration of the loop of [ReadFrom]: the buffer, the world, the reader,
    the total and, if the iteration returns, the error it returns. *)
Definition ReadFrom_step (rb : RingBuffer) (wd : World) (rd : R) (totalBytesRead : Z) :
    outcome (RingBuffer * World * R * Z * option (option error)) :=
  '(rb, wd) ← RingBuffer_GrowIfUnsufficientFreeSpace rb wd;
  vm ← deref (rb_vm rb);
  p ← go_slice (vm_Buf vm) (rb_w rb) (rb_w rb + RingBuffer_Available rb);
  let '(bytesRead, data, err, rd) := reader_Read rd (zlen p) in
  '(_, vm) ← vm_copy vm (rb_w rb) (take (length p) data);
  if bytesRead <? 0 then
    Panic (PanicLog "RingBuffer.ReadFrom: reader returned negative count from Read")
  else
    w ← go_rem (rb_w rb + bytesRead) (rb_Size rb);
    let rb := mkRB (Some vm) (rb_Size rb) (rb_r rb) w false in
    let totalBytesRead := int64 (totalBytesRead + bytesRead) in
    Ret (rb, wd, rd, totalBytesRead,
         match err with
         | None => None
         | Some IoEOF => Some None
         | Some e => Some (Some (Wrap "reader Read error: " e))
         end).

(** The loop; [None] when the fuel is used up before the reader ends. *)
Fixpoint ReadFrom_loop (fuel : nat) (rb : RingBuffer) (wd : World) (rd : R) (total : Z) :
    outcome (option (Z * option error * RingBuffer * World * R)) :=
  match fuel with
  | O => Ret None
  | S fuel =>
      '(rb, wd, rd, total, ret) ← ReadFrom_step rb wd rd total;
      match ret with
      | Some err => Ret (Some (total, err, rb, wd, rd))
      | None => ReadFrom_loop fuel rb wd rd total
      end
  end.

Definition RingBuffer_ReadFrom (fuel : nat) (rb : RingBuffer) (rd : R) (wd : World) :
    outcome (option (Z * option error * RingBuffer * World * R)) :=
  ReadFrom_loop fuel rb wd rd 0.

Definition RingBuffer_WriteTo (rb : RingBuffer) (wr : W) :
    outcome (Z * option error * RingBuffer * W) :=
  if rb_isEmpty rb then Ret (0, Some ErrIsEmpty, rb, wr)
  else
    let bufferedBytes := RingBuffer_Buffered rb in
    buf ← rb_Buf rb;
    bytes ← go_slice buf (rb_r rb) (rb_r rb + bufferedBytes);
    let '(bytesWritten, err, wr) := writer_Write wr bytes in
    if bufferedBytes <? bytesWritten then
      Panic (PanicLog "RingBuffer.WriteTo: invalid Write count")
    else
      r ← go_rem (rb_r rb + bytesWritten) (rb_Size rb);
      let rb := rb_set_r rb r in
      let rb := if rb_r rb =? rb_w rb then RingBuffer_Reset rb else rb in
      match err with
      | Some e => Ret (bytesWritten, Some e, rb, wr)
      | None =>
          if negb (rb_isEmpty rb) then Ret (bytesWritten, Some IoErrShortWrite, rb, wr)
          else Ret (bytesWritten, None, rb, wr)
      end.

End Streams.

Definition NewMagicBuffer (size : Z) (wd : World) : outcome (RingBuffer * World) :=
  if size =? 0 then Ret (mkRB None 0 0 0 true, wd)
  else
    let size := AdjustBufferSize size in
    '(vm, wd) ← virtualmem_Get size wd;
    Ret (mkRB vm size 0 0 true, wd).

End MagicRing.

(** ** The abstract buffer

    A ring buffer stands for the list of its readable bytes. *)

Definition contents (rb : RingBuffer) : list byte :=
  match rb_vm rb with
  | Some vm => mirror_load (vm_mem vm) (Z.to_nat (rb_r rb)) (Z.to_nat (RingBuffer_Buffered rb))
  | None => []
  end.

(** Well-formed buffers: the unallocated one of [NewMagicBuffer(0)], and a
    buffer whose size is the size of its memory, with both positions inside. *)
Record mapped_ok (vm : VirtualMem) (rb : RingBuffer) : Prop := {
  mapped_vm : rb_vm rb = Some vm;
  mapped_vm_ok : vm_ok vm;
  mapped_size : vm_Size vm = rb_Size rb;
  mapped_r : 0 <= rb_r rb < rb_Size rb;
  mapped_w : 0 <= rb_w rb < rb_Size rb;
  mapped_empty : rb_isEmpty rb = true -> rb_r rb = rb_w rb
}.

Definition rb_ok (rb : RingBuffer) : Prop :=
  rb = mkRB None 0 0 0 true \/ exists vm, mapped_ok vm rb.

(** The buffer has its memory. *)
Definition allocated (rb : RingBuffer) : Prop := is_Some (rb_vm rb).

Lemma allocated_mapped rb : rb_ok rb -> allocated rb -> exists vm, mapped_ok vm rb.
Proof. intros [->|Hm] [vm Hvm]; [done|exact Hm]. Qed.

Lemma mapped_len vm rb : mapped_ok vm rb -> length (vm_mem vm) = Z.to_nat (rb_Size rb).
Proof. intros [_ [Hlen _] <- _ _ _]. rewrite -Hlen /zlen. lia. Qed.

Lemma Buffered_Available rb :
  rb_ok rb -> RingBuffer_Buffered rb + RingBuffer_Available rb = rb_Size rb.
Proof.
  intros [->|[vm []]]; [done|]. rewrite /RingBuffer_Buffered /RingBuffer_Available.
  zbool; destruct (rb_isEmpty rb); lia.
Qed.

Lemma Buffered_bounds rb : rb_ok rb -> 0 <= RingBuffer_Buffered rb <= rb_Size rb.
Proof.
  intros [->|[vm []]]; [done|]. rewrite /RingBuffer_Buffered.
  zbool; destruct (rb_isEmpty rb); lia.
Qed.

Lemma zlen_contents rb : rb_ok rb -> zlen (contents rb) = RingBuffer_Buffered rb.
Proof.
  intros Hok. have Hb := Buffered_bounds rb Hok.
  destruct Hok as [->|[vm Hm]]; [done|].
  have Hlen := mapped_len _ _ Hm. destruct Hm as [Hvm _ _ Hr _ _].
  rewrite /contents Hvm /zlen length_mirror_load; lia.
Qed.

(** The write position is the read position advanced by the buffered bytes. *)
Lemma write_position vm rb :
  mapped_ok vm rb -> rb_w rb = (rb_r rb + RingBuffer_Buffered rb) mod rb_Size rb.
Proof.
  intros [_ _ _ Hr Hw He]. rewrite /RingBuffer_Buffered.
  destruct (Z.eqb_spec (rb_r rb) (rb_w rb)) as [Heq|Hne].
  - destruct (rb_isEmpty rb).
    + rewrite Z.add_0_r Z.mod_small; lia.
    + apply (Z.mod_unique_pos _ _ 1); lia.
  - destruct (Z.ltb_spec (rb_r rb) (rb_w rb)).
    + rewrite Z.mod_small; lia.
    + apply (Z.mod_unique_pos _ _ 1); lia.
Qed.

(** ** Lemmas on the ring arithmetic *)

Lemma go_rem_pos a b : 0 <= a -> 0 < b -> go_rem a b = Ret (a mod b).
Proof.
  intros. rewrite /go_rem Z.rem_mod_nonneg; [lia..|]. zbool; [lia|done].
Qed.

Lemma wrap_mod s a n :
  0 <= a < s -> 0 <= n <= s ->
  (if s <=? a + n then a + n - s else a + n) = (a + n) mod s.
Proof.
  intros. destruct (Z.leb_spec s (a + n)).
  - apply (Z.mod_unique_pos _ _ 1); lia.
  - by rewrite Z.mod_small; [lia|].
Qed.

Lemma mod_inj s r n k :
  0 < s -> 0 <= n <= k -> k - n < s -> (r + n) mod s = (r + k) mod s -> n = k.
Proof.
  intros Hs Hn Hk Heq.
  have H1 := Z.div_mod (r + n) s ltac:(lia). have H2 := Z.div_mod (r + k) s ltac:(lia).
  have H3 : k - n = s * ((r + k) / s - (r + n) / s) by lia.
  have : (r + k) / s - (r + n) / s = 0 by nia. nia.
Qed.

Lemma isEmpty_Buffered vm rb :
  mapped_ok vm rb -> rb_isEmpty rb = (RingBuffer_Buffered rb =? 0).
Proof.
  intros [_ _ _ Hr Hw He]. rewrite /RingBuffer_Buffered.
  destruct (Z.eqb_spec (rb_r rb) (rb_w rb)); destruct (rb_isEmpty rb).
  all: try (have := He eq_refl); zbool; (done || lia).
Qed.

(** How a well-formed buffer is put together. *)
Lemma mapped_intro vm s r k w e :
  vm_ok vm -> vm_Size vm = s -> 0 <= r < s -> 0 <= k <= s -> w = (r + k) mod s ->
  e = (k =? 0) ->
  mapped_ok vm (mkRB (Some vm) s r w e) /\
  RingBuffer_Buffered (mkRB (Some vm) s r w e) = k.
Proof.
  intros Hvm Hs Hr Hk Hw ->. have Hwb := Z.mod_pos_bound (r + k) s ltac:(lia).
  rewrite -wrap_mod in Hw; [lia..|].
  split; [split; simpl; try done; destruct (Z.eqb_spec k 0); zbool; (done || lia)|].
  rewrite /RingBuffer_Buffered /= Hw. zbool; lia.
Qed.

(** Storing bytes at the write position appends them. *)
Lemma store_append vm s r k w bs :
  vm_ok vm -> vm_Size vm = s -> 0 <= r < s -> 0 <= k -> k + zlen bs <= s -> w = (r + k) mod s ->
  exists vm', vm_copy vm w bs = Ret (zlen bs, vm') /\ vm_ok vm' /\ vm_Size vm' = s /\
    mirror_load (vm_mem vm') (Z.to_nat r) (Z.to_nat (k + zlen bs)) =
    mirror_load (vm_mem vm) (Z.to_nat r) (Z.to_nat k) ++ bs.
Proof.
  intros [Hlen Hpos] Hs Hr Hk Hn ->. rewrite Hs in Hlen, Hpos.
  have Hwb := Z.mod_pos_bound (r + k) s ltac:(lia). have Hbs := zlen_nonneg bs.
  rewrite /vm_copy /vm_Buf zlen_app Hlen.
  destruct (Z.leb_spec 0 ((r + k) mod s)); [|lia].
  destruct (Z.leb_spec ((r + k) mod s) (s + s)); [|lia]. simpl.
  rewrite Z.min_r; [lia|].
  have -> : take (Z.to_nat (zlen bs)) bs = bs by rewrite /zlen Nat2Z.id take_ge.
  have Hlen' : length (vm_mem vm) = Z.to_nat s by rewrite /zlen in Hlen; lia.
  eexists. split; [done|]. split; [split; simpl|split; [done|simpl]].
  - rewrite /zlen length_mirror_store; rewrite /zlen in Hn, Hbs; lia.
  - lia.
  - have -> : Z.to_nat ((r + k) mod s) = ((Z.to_nat r + Z.to_nat k) mod length (vm_mem vm))%nat.
    { rewrite Z2Nat.inj_mod; [lia..|]. rewrite Z2Nat.inj_add; [lia..|]. by rewrite Hlen'. }
    have -> : Z.to_nat (k + zlen bs) = (Z.to_nat k + length bs)%nat by rewrite /zlen in Hn |- *; lia.
    apply mirror_store_append; rewrite /zlen in Hn; lia.
Qed.

(** Advancing the read position drops bytes. *)
Lemma load_drop vm s r k j :
  vm_ok vm -> vm_Size vm = s -> 0 <= r < s -> 0 <= j <= k -> k <= s ->
  mirror_load (vm_mem vm) (Z.to_nat ((r + j) mod s)) (Z.to_nat (k - j)) =
  drop (Z.to_nat j) (mirror_load (vm_mem vm) (Z.to_nat r) (Z.to_nat k)).
Proof.
  intros [Hlen Hpos] Hs Hr Hj Hk. rewrite Hs in Hlen, Hpos.
  have Hlen' : length (vm_mem vm) = Z.to_nat s by rewrite /zlen in Hlen; lia.
  rewrite Z2Nat.inj_mod; [lia..|]. rewrite Z2Nat.inj_add; [lia..|]. rewrite -Hlen' Z2Nat.inj_sub; [lia|].
  apply mirror_load_advance; lia.
Qed.

(** The reading half of the methods: the read position advances by [n > 0]
    buffered bytes and a buffer read to its end is reset. *)
Definition rb_consume (rb : RingBuffer) (r : Z) : RingBuffer :=
  let rb := rb_set_r rb r in
  if rb_r rb =? rb_w rb then RingBuffer_Reset rb else rb.

Lemma consume_ok vm rb n :
  mapped_ok vm rb -> 0 < n <= RingBuffer_Buffered rb ->
  let rb' := rb_consume rb ((rb_r rb + n) mod rb_Size rb) in
  mapped_ok vm rb' /\ contents rb' = drop (Z.to_nat n) (contents rb) /\ rb_Size rb' = rb_Size rb.
Proof.
  intros Hm Hn. have Hb := Buffered_bounds rb ltac:(right; eauto).
  have Hw := write_position _ _ Hm. have He := isEmpty_Buffered _ _ Hm.
  have Hc : contents rb = mirror_load (vm_mem vm) (Z.to_nat (rb_r rb))
    (Z.to_nat (RingBuffer_Buffered rb)) by rewrite /contents (mapped_vm _ _ Hm).
  move: Hn Hb Hw He Hc. move: (RingBuffer_Buffered rb) => k Hn Hb Hw He ->.
  destruct Hm as [Hvm Hok Hs Hr Hwb _].
  rewrite -(load_drop vm _ (rb_r rb) k n Hok Hs Hr); [lia..|].
  rewrite /rb_consume /rb_set_r /= Hvm Hw He.
  destruct (Z.eqb_spec ((rb_r rb + n) mod rb_Size rb) ((rb_r rb + k) mod rb_Size rb)) as [Heq|Hne].
  - apply mod_inj in Heq; [|lia..]. subst n.
    destruct (mapped_intro vm (rb_Size rb) 0 0 0 true) as [Hm' Hb']; try done; [lia..|].
    split; [done|]. split; [|done]. by rewrite /contents /= Hb' Z.sub_diag.
  - have Hlt : n < k by destruct (decide (n = k)) as [->|]; [done|lia].
    destruct (mapped_intro vm (rb_Size rb) ((rb_r rb + n) mod rb_Size rb) (k - n)
      ((rb_r rb + k) mod rb_Size rb) (k =? 0)) as [Hm' Hb']; try done.
    + apply Z.mod_pos_bound. lia.
    + lia.
    + rewrite Zplus_mod_idemp_l. f_equal. lia.
    + zbool; (done || lia).
    + split; [done|]. split; [|done]. by rewrite /contents /= Hb'.
Qed.

Lemma mapped_Buf vm rb : mapped_ok vm rb -> rb_Buf rb = Ret (vm_Buf vm).
Proof. intros Hm. by rewrite /rb_Buf (mapped_vm _ _ Hm). Qed.

(** The slice of the first [n] readable bytes. *)
Lemma mapped_slice vm rb n :
  mapped_ok vm rb -> 0 <= n <= RingBuffer_Buffered rb ->
  go_slice (vm_Buf vm) (rb_r rb) (rb_r rb + n) = Ret (take (Z.to_nat n) (contents rb)).
Proof.
  intros Hm Hn. have Hb := Buffered_bounds rb ltac:(right; eauto).
  have Hlen := mapped_len _ _ Hm. have Hr := mapped_r _ _ Hm.
  rewrite go_slice_ok; [lia|rewrite /vm_Buf /zlen length_app; lia|].
  rewrite /contents (mapped_vm _ _ Hm) mirror_load_take; [lia|].
  rewrite /mirror_load /vm_Buf. do 2 f_equal. lia.
Qed.

Lemma contents_empty rb : rb_ok rb -> rb_isEmpty rb = true -> contents rb = [].
Proof.
  intros Hok He. apply zlen_nil_inv. rewrite zlen_contents //.
  destruct Hok as [->|[vm Hm]]; [done|].
  rewrite (isEmpty_Buffered _ _ Hm) in He. lia.
Qed.

Lemma contents_nonempty rb : rb_ok rb -> rb_isEmpty rb = false ->
  exists vm, mapped_ok vm rb /\ 0 < RingBuffer_Buffered rb.
Proof.
  intros Hok He. have Hb := Buffered_bounds rb Hok.
  destruct Hok as [->|[vm Hm]]; [done|]. exists vm. split; [done|].
  rewrite (isEmpty_Buffered _ _ Hm) in He. lia.
Qed.

Lemma isEmpty_nil rb : rb_ok rb -> contents rb = [] -> rb_isEmpty rb = true.
Proof.
  intros Hok Hc. destruct (rb_isEmpty rb) eqn:He; [done|].
  destruct (contents_nonempty rb Hok He) as (vm & _ & Hb).
  rewrite -zlen_contents // Hc in Hb. done.
Qed.

Lemma mapped_rb_ok vm rb : mapped_ok vm rb -> rb_ok rb.
Proof. right. eauto. Qed.

Lemma Reset_ok rb : rb_ok rb -> rb_ok (RingBuffer_Reset rb) /\ contents (RingBuffer_Reset rb) = [].
Proof.
  intros [->|[vm [Hvm Hok Hs Hr Hw He]]]; [split; [by left|done]|].
  split; [right; exists vm; split; simpl; (done || lia)|].
  by rewrite /contents /= Hvm.
Qed.

#[export] Hint Resolve mapped_rb_ok : godb.

(** ** The methods on well-formed buffers *)

Section Methods.
Context {os : Os}.

Lemma Read_ok rb buflen :
  rb_ok rb -> 0 <= buflen ->
  exists rb', RingBuffer_Read rb buflen =
      Ret (take (Z.to_nat buflen) (contents rb),
           if buflen =? 0 then None else if rb_isEmpty rb then Some ErrIsEmpty else None, rb') /\
    rb_ok rb' /\ contents rb' = drop (Z.to_nat buflen) (contents rb) /\
    rb_Size rb' = rb_Size rb /\ rb_vm rb' = rb_vm rb.
Proof.
  intros Hok Hn. rewrite /RingBuffer_Read.
  destruct (Z.eqb_spec buflen 0) as [->|Hnz]; [by exists rb|].
  destruct (rb_isEmpty rb) eqn:He.
  { exists rb. rewrite contents_empty // take_nil drop_nil //. }
  destruct (contents_nonempty rb Hok He) as (vm & Hm & Hpos).
  rewrite (mapped_Buf _ _ Hm) bind_Ret.
  set n := if buflen <? _ then _ else _.
  have Hn' : 0 < n <= RingBuffer_Buffered rb /\
    take (Z.to_nat n) (contents rb) = take (Z.to_nat buflen) (contents rb) /\
    drop (Z.to_nat n) (contents rb) = drop (Z.to_nat buflen) (contents rb).
  { have Hlen := zlen_contents rb Hok. rewrite /zlen in Hlen. rewrite /n.
    destruct (Z.ltb_spec buflen (RingBuffer_Buffered rb)); [by split; [lia|]|].
    split; [lia|]. rewrite !take_ge ?drop_ge //; lia. }
  destruct Hn' as (Hn' & Ht & Hd).
  rewrite (mapped_slice _ _ _ Hm); [lia|]. rewrite bind_Ret go_rem_pos.
  { have := mapped_r _ _ Hm. lia. }
  { have := mapped_r _ _ Hm. lia. }
  rewrite bind_Ret Ht -/(rb_consume rb _).
  destruct (consume_ok vm rb n Hm Hn') as (Hm' & Hc & Hs).
  eexists. split; [done|]. split; [eauto with godb|]. rewrite Hc Hd.
  rewrite (mapped_vm _ _ Hm') (mapped_vm _ _ Hm). done.
Qed.

(** Growing keeps the contents, when the pool delivers the size asked for. *)
Definition grow_range (newCap : Z) : Prop := 0 < newCap < 2 ^ 52.

Lemma Grow_ok rb newCap wd :
  rb_ok rb -> world_ok wd -> can_alloc wd -> grow_range newCap ->
  RingBuffer_Buffered rb < newCap -> vm_exact (AdjustBufferSize newCap) wd ->
  exists vm rb' wd', RingBuffer_Grow rb newCap wd = Ret (rb', wd') /\ mapped_ok vm rb' /\
    contents rb' = contents rb /\ rb_Size rb' = AdjustBufferSize newCap /\ world_ok wd' /\
    RingBuffer_Buffered rb' = RingBuffer_Buffered rb /\
    world_reach wd wd'.
Proof.
  intros Hok Hwd Hal Hcap Hbuf Hex. rewrite /grow_range in Hcap.
  pose proof (AdjustBufferSize_bounds newCap ltac:(lia)) as Hadj.
  pose proof (AdjustBufferSize_idem newCap ltac:(lia)) as Hidem.
  pose proof pageSize_bounds as Hps. have Hb := Buffered_bounds rb Hok.
  destruct (virtualmem_Get_ok (AdjustBufferSize newCap) wd) as
    (nb & wd1 & Hget & Hnb & _ & Hwd1 & _ & _); [rewrite /size_range; lia|done..|].
  have Hsz := Hex _ _ Hget. rewrite Hidem in Hsz.
  have Hreach1 : world_reach wd wd1.
  { eapply reach_get; [apply reach_refl| |exact Hget]. rewrite /size_range. lia. }
  rewrite /RingBuffer_Grow Hget bind_Ret. cbn [deref]. rewrite bind_Ret.
  have Hnblen := vm_ok_len _ Hnb.
  destruct (Read_ok rb (zlen (vm_Buf nb)) Hok (zlen_nonneg _)) as (rb1 & -> & Hok1 & Hc1 & _ & _).
  rewrite bind_Ret.
  have -> : take (Z.to_nat (zlen (vm_Buf nb))) (contents rb) = contents rb.
  { have Hl := zlen_contents rb Hok. rewrite take_ge //. rewrite /vm_Buf zlen_app.
    rewrite /zlen in Hl, Hnblen |- *. lia. }
  destruct (store_append nb (AdjustBufferSize newCap) 0 0 0 (contents rb)) as
    (nb' & -> & Hnb' & Hsz' & Hload); [done..|lia|lia|rewrite zlen_contents //; lia|by rewrite Zmod_0_l|].
  rewrite bind_Ret. rewrite zlen_contents // in Hload.
  have [wd2 [-> [Hwd2 Hreach2]]] : exists wd2,
    match rb_vm rb1 with Some _ => RingBuffer_ReleaseBytes rb1 wd1 | None => Ret wd1 end = Ret wd2 /\
    world_ok wd2 /\ world_reach wd wd2.
  { rewrite /RingBuffer_ReleaseBytes. destruct (rb_vm rb1) as [vm1|] eqn:Hv; [|by exists wd1].
    destruct Hok1 as [->|[vm Hm1]]; [done|]. rewrite (mapped_vm _ _ Hm1) in Hv. simplify_eq.
    destruct (virtualmem_Put_ok vm1 wd1 (mapped_vm_ok _ _ Hm1) Hwd1) as (wd2 & ? & ? & _ & _).
    exists wd2. split_and!; try done. eapply (reach_put _ wd1 vm1); try done. apply Hm1. }
  rewrite bind_Ret. have He1 := isEmpty_nil rb1 Hok1.
  destruct (mapped_intro nb' (AdjustBufferSize newCap) 0 (RingBuffer_Buffered rb)
    (RingBuffer_Buffered rb) (if 0 <? RingBuffer_Buffered rb then false else rb_isEmpty rb1))
    as [Hm' Hb']; [done..|lia|lia|by rewrite Z.mod_small; [lia|]| |].
  { destruct (Z.ltb_spec 0 (RingBuffer_Buffered rb)); [zbool; (done || lia)|].
    have Hz : RingBuffer_Buffered rb = 0 by lia. rewrite Hz. apply He1.
    rewrite Hc1 (zlen_nil_inv (contents rb)) ?drop_nil // zlen_contents //. }
  eexists nb', _, wd2. split; [done|]. split; [done|]. split; [|by split_and!].
  rewrite /contents /= Hb' Hload. done.
Qed.

(** The pool can serve the growth to [newCap] bytes. *)
Definition can_grow (newCap : Z) (wd : World) : Prop :=
  can_alloc wd /\ grow_range newCap /\ vm_exact (AdjustBufferSize newCap) wd.

(** Bytes stored at the write position, of which the first [n] count. *)
Lemma partial_append_ok vm rb bs n :
  mapped_ok vm rb -> 0 <= n <= zlen bs -> zlen bs <= RingBuffer_Available rb ->
  contents rb <> [] \/ 0 < n ->
  exists vm', vm_copy vm (rb_w rb) bs = Ret (zlen bs, vm') /\
    let rb' := mkRB (Some vm') (rb_Size rb) (rb_r rb) ((rb_w rb + n) mod rb_Size rb) false in
    mapped_ok vm' rb' /\ contents rb' = contents rb ++ take (Z.to_nat n) bs.
Proof.
  intros Hm Hn Hfree Hpos. have Hok := mapped_rb_ok _ _ Hm. have Hsum := Buffered_Available rb Hok.
  have Hb := Buffered_bounds rb Hok. have Hw := write_position _ _ Hm.
  have Hl := zlen_contents rb Hok.
  destruct (store_append vm (rb_Size rb) (rb_r rb) (RingBuffer_Buffered rb) (rb_w rb) bs)
    as (vm' & Hcopy & Hvm' & Hs' & Hload);
    [by destruct Hm|by destruct Hm|by destruct Hm|lia..|done|].
  exists vm'. split; [done|]. simpl.
  destruct (mapped_intro vm' (rb_Size rb) (rb_r rb) (RingBuffer_Buffered rb + n)
    ((rb_w rb + n) mod rb_Size rb) false) as [Hm' Hb'];
    [done..|by destruct Hm|lia|rewrite Hw Zplus_mod_idemp_l; f_equal; lia| |].
  { destruct (Z.eqb_spec (RingBuffer_Buffered rb + n) 0); [|done].
    destruct Hpos as [[]|]; [apply zlen_nil_inv|]; lia. }
  split; [done|]. rewrite {1}/contents /= Hb'.
  rewrite -(mirror_load_take _ _ _ (Z.to_nat (RingBuffer_Buffered rb + zlen bs))); [lia|].
  have Hcl : length (mirror_load (vm_mem vm) (Z.to_nat (rb_r rb)) (Z.to_nat (RingBuffer_Buffered rb)))
    = Z.to_nat (RingBuffer_Buffered rb).
  { move: Hl. rewrite /contents (mapped_vm _ _ Hm) /zlen. lia. }
  rewrite Hload Z2Nat.inj_add; [lia..|]. rewrite -{1}Hcl take_app_add.
  by rewrite /contents (mapped_vm _ _ Hm).
Qed.

Lemma append_ok vm rb bs :
  mapped_ok vm rb -> bs <> [] -> zlen bs <= RingBuffer_Available rb ->
  exists vm', vm_copy vm (rb_w rb) bs = Ret (zlen bs, vm') /\
    let rb' := mkRB (Some vm') (rb_Size rb) (rb_r rb) ((rb_w rb + zlen bs) mod rb_Size rb) false in
    mapped_ok vm' rb' /\ contents rb' = contents rb ++ bs.
Proof.
  intros Hm Hne Hfree. have Hpos : 0 < zlen bs by destruct bs; [done|rewrite /zlen /=; lia].
  destruct (partial_append_ok vm rb bs (zlen bs) Hm) as (vm' & Hcopy & Hm' & Hc); [lia|lia|by right|].
  exists vm'. split; [done|]. split; [done|]. rewrite Hc take_ge //. rewrite /zlen. lia.
Qed.

Lemma Write_ok rb buffer wd :
  rb_ok rb -> world_ok wd ->
  (RingBuffer_Available rb < zlen buffer ->
     can_grow (rb_Size rb + zlen buffer - RingBuffer_Available rb) wd) ->
  exists rb' wd', RingBuffer_Write rb buffer wd = Ret (zlen buffer, None, rb', wd') /\
    rb_ok rb' /\ contents rb' = contents rb ++ buffer /\ world_ok wd' /\
    world_reach wd wd'.
Proof.
  intros Hok Hwd Hgrow. rewrite /RingBuffer_Write.
  destruct (Z.eqb_spec (zlen buffer) 0) as [Hz|Hnz].
  { exists rb, wd. rewrite (zlen_nil_inv buffer Hz) app_nil_r. split_and!; try done. apply reach_refl. }
  have Hne : buffer <> [] by intros ->.
  have [vm [rb1 [wd1 [-> [Hm [Hc [Hfree [Hwd1 Hal]]]]]]]] : exists vm rb1 wd1,
    (if RingBuffer_Available rb <? zlen buffer
     then RingBuffer_Grow rb (rb_Size rb + zlen buffer - RingBuffer_Available rb) wd
     else Ret (rb, wd)) = Ret (rb1, wd1) /\ mapped_ok vm rb1 /\ contents rb1 = contents rb /\
    zlen buffer <= RingBuffer_Available rb1 /\ world_ok wd1 /\
    world_reach wd wd1.
  { have Hsum := Buffered_Available rb Hok. have Hb := Buffered_bounds rb Hok.
    have Hbl := zlen_nonneg buffer.
    destruct (Z.ltb_spec (RingBuffer_Available rb) (zlen buffer)) as [Hlt|Hge].
    - destruct (Hgrow Hlt) as (Hal & Hr & Hex).
      destruct (Grow_ok rb _ wd Hok Hwd Hal Hr ltac:(lia) Hex)
        as (vm & rb1 & wd1 & Heq & Hm & Hc & Hs & Hwd1 & Hb1 & Hal1).
      exists vm, rb1, wd1. split_and!; try done.
      have Hsum1 := Buffered_Available rb1 (mapped_rb_ok _ _ Hm).
      rewrite /grow_range in Hr.
      pose proof (AdjustBufferSize_bounds (rb_Size rb + zlen buffer - RingBuffer_Available rb)
        ltac:(lia)). lia.
    - destruct Hok as [Hok|[vm Hm]].
      { subst rb. rewrite /RingBuffer_Available /= in Hge. lia. }
      exists vm, rb, wd. split_and!; try done. apply reach_refl. }
  rewrite bind_Ret (mapped_vm _ _ Hm). cbn [deref]. rewrite bind_Ret.
  destruct (append_ok vm rb1 buffer Hm Hne Hfree) as (vm' & -> & Hm' & Hc').
  rewrite bind_Ret go_rem_pos; [have := mapped_w _ _ Hm; have := zlen_nonneg buffer; lia|
                                have := mapped_w _ _ Hm; lia|].
  rewrite bind_Ret. eexists _, wd1. split; [done|]. split; [eauto with godb|].
  by rewrite Hc' Hc.
Qed.

Lemma WriteByte_ok rb c wd :
  rb_ok rb -> world_ok wd ->
  (RingBuffer_Available rb < 1 -> can_grow (rb_Size rb + 1) wd) ->
  exists rb' wd', RingBuffer_WriteByte rb c wd = Ret (None, rb', wd') /\
    rb_ok rb' /\ contents rb' = contents rb ++ [c] /\ world_ok wd' /\ world_reach wd wd'.
Proof.
  intros Hok Hwd Hgrow. rewrite /RingBuffer_WriteByte.
  have Hsum := Buffered_Available rb Hok. have Hb := Buffered_bounds rb Hok.
  have [vm [rb1 [wd1 [-> [Hm [Hc [Hfree Hwd1]]]]]]] : exists vm rb1 wd1,
    (if RingBuffer_Available rb <? 1 then RingBuffer_Grow rb (rb_Size rb + 1) wd
     else Ret (rb, wd)) = Ret (rb1, wd1) /\ mapped_ok vm rb1 /\ contents rb1 = contents rb /\
    1 <= RingBuffer_Available rb1 /\ world_ok wd1 /\ world_reach wd wd1.
  { destruct (Z.ltb_spec (RingBuffer_Available rb) 1) as [Hlt|Hge].
    - destruct (Hgrow Hlt) as (Hal & Hr & Hex).
      destruct (Grow_ok rb _ wd Hok Hwd Hal Hr ltac:(lia) Hex)
        as (vm & rb1 & wd1 & Heq & Hm & Hc & Hs & Hwd1 & Hb1 & Hreach).
      exists vm, rb1, wd1. split_and!; try done.
      have Hsum1 := Buffered_Available rb1 (mapped_rb_ok _ _ Hm).
      rewrite /grow_range in Hr.
      pose proof (AdjustBufferSize_bounds (rb_Size rb + 1) ltac:(lia)). lia.
    - destruct Hok as [Hok|[vm Hm]].
      { subst rb. rewrite /RingBuffer_Available /= in Hge. lia. }
      exists vm, rb, wd. split_and!; try done. apply reach_refl. }
  have Hw := mapped_w _ _ Hm. have Hlen := mapped_len _ _ Hm.
  rewrite bind_Ret (mapped_vm _ _ Hm). cbn [deref]. rewrite bind_Ret.
  destruct (lookup_lt_is_Some_2 (vm_Buf vm) (Z.to_nat (rb_w rb1))) as [b Hlk].
  { rewrite /vm_Buf length_app. lia. }
  rewrite (go_index_ok _ _ b) // ?bind_Ret; [lia|].
  destruct (append_ok vm rb1 [c] Hm ltac:(done) ltac:(done)) as (vm' & -> & Hm' & Hc').
  rewrite bind_Ret. have Hmod := wrap_mod (rb_Size rb1) (rb_w rb1) 1 Hw ltac:(lia).
  have Hwr : (if rb_w rb1 + 1 =? rb_Size rb1 then 0 else rb_w rb1 + 1) =
             (rb_w rb1 + zlen [c]) mod rb_Size rb1.
  { rewrite /zlen -Hmod. zbool; lia. }
  rewrite Hwr. eexists _, wd1. split; [done|]. split; [eauto with godb|]. by rewrite Hc' Hc.
Qed.

Lemma ReadByte_ok rb :
  rb_ok rb ->
  exists rb', RingBuffer_ReadByte rb =
      Ret (match contents rb with
           | [] => (x00, Some ErrIsEmpty, rb')
           | b :: _ => (b, None, rb')
           end) /\
    rb_ok rb' /\ contents rb' = tail (contents rb).
Proof.
  intros Hok. rewrite /RingBuffer_ReadByte. destruct (rb_isEmpty rb) eqn:He.
  { exists rb. by rewrite contents_empty. }
  destruct (contents_nonempty rb Hok He) as (vm & Hm & Hpos).
  have Hr := mapped_r _ _ Hm. have Hlen := mapped_len _ _ Hm.
  have Hsl := mapped_slice vm rb 1 Hm ltac:(lia).
  rewrite go_slice_ok in Hsl; [lia|rewrite /vm_Buf /zlen length_app; lia|].
  have Hl := zlen_contents rb Hok. rewrite (mapped_Buf _ _ Hm) bind_Ret.
  destruct (consume_ok vm rb 1 Hm ltac:(lia)) as (Hm' & Hc & _).
  destruct (contents rb) as [|b rest] eqn:Hcont; [rewrite /zlen /= in Hl; lia|].
  have Hb : vm_Buf vm !! Z.to_nat (rb_r rb) = Some b.
  { injection Hsl => Heq. rewrite -(Nat.add_0_r (Z.to_nat (rb_r rb))) -lookup_drop.
    rewrite -(lookup_take_lt _ (Z.to_nat (rb_r rb + 1 - rb_r rb))) ?Heq //. lia. }
  rewrite (go_index_ok _ _ b) // ?bind_Ret; [lia|].
  have -> : (if rb_r rb + 1 =? rb_Size rb then 0 else rb_r rb + 1) = (rb_r rb + 1) mod rb_Size rb.
  { rewrite -wrap_mod; [lia..|]. zbool; lia. }
  eexists. split; [done|]. split; [eauto with godb|]. done.
Qed.

Lemma AdvanceRead_ok rb n :
  rb_ok rb -> 0 <= n <= RingBuffer_Buffered rb ->
  exists rb', RingBuffer_AdvanceRead rb n = Ret rb' /\ rb_ok rb' /\
    contents rb' = drop (Z.to_nat n) (contents rb).
Proof.
  intros Hok Hn. rewrite /RingBuffer_AdvanceRead.
  destruct (Z.eqb_spec n 0) as [->|Hnz]; [by exists rb|].
  destruct (Z.ltb_spec (RingBuffer_Buffered rb) n); [lia|].
  have Hb := Buffered_bounds rb Hok.
  destruct Hok as [->|[vm Hm]]; [rewrite /RingBuffer_Buffered /= in Hn; lia|].
  destruct (consume_ok vm rb n Hm ltac:(lia)) as (Hm' & Hc & _).
  rewrite -wrap_mod in Hm' Hc; [by destruct Hm|lia|].
  eexists. split; [done|]. split; [|rewrite -Hc].
  - apply (mapped_rb_ok vm). move: Hm'. by rewrite /rb_consume; case: (_ <=? _).
  - by rewrite /rb_consume; case: (_ <=? _).
Qed.

(** Bytes stored in the free space at the write position leave the contents alone. *)
Lemma store_keeps vm rb data vm' :
  mapped_ok vm rb -> zlen data <= RingBuffer_Available rb -> vm_copy vm (rb_w rb) data = Ret (zlen data, vm') ->
  mapped_ok vm' (rb_set_vm rb vm') /\ contents (rb_set_vm rb vm') = contents rb.
Proof.
  intros Hm Hfree Hcopy. have Hok := mapped_rb_ok _ _ Hm. have Hsum := Buffered_Available rb Hok.
  have Hb := Buffered_bounds rb Hok. have Hd := zlen_nonneg data.
  destruct (store_append vm (rb_Size rb) (rb_r rb) (RingBuffer_Buffered rb) (rb_w rb) data)
    as (vm1 & Hcopy1 & Hvm' & Hs' & Hload); [by destruct Hm|by destruct Hm|by destruct Hm|lia..|by apply (write_position _ _ Hm)|].
  rewrite Hcopy in Hcopy1. injection Hcopy1 as <-. have Hl := zlen_contents rb Hok.
  destruct Hm as [Hvm ? ? ? ? ?]. split; [by split; try done; rewrite Hs'|].
  rewrite /contents Hvm /zlen in Hl. rewrite /contents Hvm /=. change (RingBuffer_Buffered (rb_set_vm rb vm')) with (RingBuffer_Buffered rb).
  rewrite -(mirror_load_take _ _ _ (Z.to_nat (RingBuffer_Buffered rb + zlen data))); [lia|].
  rewrite Hload take_app_le; [lia|]. rewrite take_ge //. lia.
Qed.

(** The kernel has stored [data] at the write address before the write position
    advances. *)
Lemma AdvanceWrite_ok vm rb data :
  mapped_ok vm rb -> zlen data <= RingBuffer_Available rb ->
  exists vm' rb', vm_copy vm (rb_w rb) data = Ret (zlen data, vm') /\
    RingBuffer_AdvanceWrite (rb_set_vm rb vm') (zlen data) = Ret rb' /\
    mapped_ok vm' rb' /\ contents rb' = contents rb ++ data.
Proof.
  intros Hm Hfree. rewrite /RingBuffer_AdvanceWrite.
  destruct (Z.eqb_spec (zlen data) 0) as [Hz|Hnz].
  - rewrite (zlen_nil_inv _ Hz) app_nil_r.
    destruct (store_append vm (rb_Size rb) (rb_r rb) (RingBuffer_Buffered rb) (rb_w rb) [])
      as (vm' & Hcopy & Hvm' & Hs' & Hload).
    all: have Hb := Buffered_bounds rb (mapped_rb_ok _ _ Hm).
    all: have Hwp := write_position _ _ Hm.
    all: try (by destruct Hm); try (rewrite /zlen /=; lia).
    exists vm', (rb_set_vm rb vm'). split; [done|]. split; [done|].
    destruct Hm as [Hvm ? ? ? ? ?]. split; [by split; try done; rewrite Hs'|].
    rewrite Z.add_0_r app_nil_r in Hload. by rewrite /contents /= Hvm -Hload.
  - have Hne : data <> [] by intros ->.
    destruct (append_ok vm rb data Hm Hne Hfree) as (vm' & Hcopy & Hm' & Hc).
    exists vm'. rewrite Hcopy.
    change (RingBuffer_Available (rb_set_vm rb vm')) with (RingBuffer_Available rb).
    destruct (Z.ltb_spec (RingBuffer_Available rb) (zlen data)); [lia|].
    have Hsum := Buffered_Available rb (mapped_rb_ok _ _ Hm).
    have Hb := Buffered_bounds rb (mapped_rb_ok _ _ Hm). have Hd := zlen_nonneg data.
    rewrite -wrap_mod in Hm' Hc; [by destruct Hm|lia|]. cbn [rb_Size rb_w rb_set_isEmpty rb_set_vm].
    move: Hm' Hc. case: (_ <=? _) => Hm' Hc; eexists; by split_and!; [..|exact Hm'|exact Hc].
Qed.

Lemma Discard_ok rb n :
  rb_ok rb -> 0 <= n ->
  exists rb', RingBuffer_Discard rb n = Ret (Z.min n (RingBuffer_Buffered rb), rb') /\ rb_ok rb' /\
    contents rb' = drop (Z.to_nat n) (contents rb).
Proof.
  intros Hok Hn. rewrite /RingBuffer_Discard. have Hb := Buffered_bounds rb Hok.
  destruct (Z.eqb_spec n 0) as [->|Hnz]; [exists rb; by rewrite Z.min_l; [lia|]|].
  destruct (Z.ltb_spec n (RingBuffer_Buffered rb)) as [Hlt|Hge].
  - destruct Hok as [->|[vm Hm]]; [rewrite /RingBuffer_Buffered /= in Hlt; lia|].
    have Hr := mapped_r _ _ Hm. rewrite go_rem_pos; [lia..|]. rewrite bind_Ret Z.min_l; [lia|].
    destruct (consume_ok vm rb n Hm ltac:(lia)) as (Hm' & Hc & _).
    have Hcons : rb_consume rb ((rb_r rb + n) mod rb_Size rb) =
                 rb_set_r rb ((rb_r rb + n) mod rb_Size rb).
    { rewrite /rb_consume /=. destruct (Z.eqb_spec ((rb_r rb + n) mod rb_Size rb) (rb_w rb)) as [Heq|]; [|done].
      rewrite (write_position _ _ Hm) in Heq. apply mod_inj in Heq; lia. }
    rewrite Hcons in Hm' Hc. eexists. split; [done|]. split; [eauto with godb|done].
  - rewrite Z.min_r; [lia|]. destruct (Reset_ok rb Hok) as [Hok' Hc].
    eexists. split; [done|]. split; [done|]. rewrite Hc drop_ge //.
    have := zlen_contents rb Hok. rewrite /zlen. lia.
Qed.

Lemma Next_ok rb n :
  rb_ok rb -> rb_vm rb <> None ->
  let m := if n <=? 0 then RingBuffer_Buffered rb else n in
  exists rb', RingBuffer_Next rb n =
      (if RingBuffer_Buffered rb <? n then Ret ([], Some IoErrShortBuffer, rb)
       else Ret (take (Z.to_nat m) (contents rb), None, rb')) /\
    rb_ok rb' /\ contents rb' = drop (Z.to_nat m) (contents rb).
Proof.
  intros Hok Hvm m. have Hb := Buffered_bounds rb Hok.
  have Hm0 : 0 <= m by rewrite /m; zbool; lia.
  destruct (Discard_ok rb m Hok Hm0) as (rb' & Hd & Hok' & Hc). exists rb'. split; [|done].
  rewrite /RingBuffer_Next. destruct (Z.ltb_spec (RingBuffer_Buffered rb) n); [done|].
  destruct Hok as [->|[vm Hm]]; [done|].
  rewrite (mapped_Buf _ _ Hm) bind_Ret -/m (mapped_slice _ _ _ Hm); [rewrite /m; zbool; lia|].
  by rewrite bind_Ret Hd bind_Ret.
Qed.

Lemma Peek_ok rb n :
  rb_ok rb ->
  RingBuffer_Peek rb n =
    Ret (if n <=? 0 then contents rb else take (Z.to_nat n) (contents rb)).
Proof.
  intros Hok. rewrite /RingBuffer_Peek /RingBuffer_peekAll. destruct (rb_isEmpty rb) eqn:He.
  { rewrite contents_empty //. by destruct (n <=? 0); rewrite ?take_nil. }
  destruct (contents_nonempty rb Hok He) as (vm & Hm & Hpos).
  have Hl := zlen_contents rb Hok. rewrite /zlen in Hl. rewrite (mapped_Buf _ _ Hm) !bind_Ret.
  destruct (Z.leb_spec n 0).
  { rewrite (mapped_slice _ _ _ Hm); [lia|]. rewrite take_ge //. lia. }
  rewrite (mapped_slice _ _ _ Hm); [zbool; lia|].
  destruct (Z.ltb_spec n (RingBuffer_Buffered rb)); [done|]. rewrite !take_ge //; lia.
Qed.

Lemma Bytes_ok rb : rb_ok rb -> RingBuffer_Bytes rb = Ret (contents rb).
Proof.
  intros Hok. have := Peek_ok rb 0 Hok. rewrite /RingBuffer_Peek /RingBuffer_peekAll /RingBuffer_Bytes /=.
  by destruct (rb_isEmpty rb).
Qed.

Lemma GrowIfUnsufficientFreeSpace_ok rb wd :
  rb_ok rb -> world_ok wd ->
  (RingBuffer_Available rb < MinRead -> can_grow (RingBuffer_Buffered rb + MinRead) wd) ->
  exists vm rb' wd', RingBuffer_GrowIfUnsufficientFreeSpace rb wd = Ret (rb', wd') /\
    mapped_ok vm rb' /\ contents rb' = contents rb /\ MinRead <= RingBuffer_Available rb' /\
    world_ok wd' /\ world_reach wd wd'.
Proof.
  intros Hok Hwd Hgrow. rewrite /RingBuffer_GrowIfUnsufficientFreeSpace.
  destruct (Z.ltb_spec (RingBuffer_Available rb) MinRead) as [Hlt|Hge].
  - destruct (Hgrow Hlt) as (Hal & Hr & Hex).
    destruct (Grow_ok rb _ wd Hok Hwd Hal Hr ltac:(rewrite /MinRead; lia) Hex)
      as (vm & rb1 & wd1 & Heq & Hm & Hc & Hs & Hwd1 & Hb1 & Hal1).
    exists vm, rb1, wd1. split_and!; try done. rewrite /grow_range in Hr.
    have Hsum1 := Buffered_Available rb1 (mapped_rb_ok _ _ Hm).
    pose proof (AdjustBufferSize_bounds (RingBuffer_Buffered rb + MinRead) ltac:(lia)). lia.
  - destruct Hok as [->|[vm Hm]].
    { rewrite /RingBuffer_Available /MinRead /= in Hge. lia. }
    exists vm, rb, wd. split_and!; try done. apply reach_refl.
Qed.

Lemma NewMagicBuffer_ok size wd :
  0 <= size < 2 ^ 52 -> world_ok wd -> can_alloc wd -> vm_exact (AdjustBufferSize size) wd ->
  exists rb wd', NewMagicBuffer size wd = Ret (rb, wd') /\ rb_ok rb /\ contents rb = [] /\
    rb_Size rb = AdjustBufferSize size /\ world_ok wd' /\ world_reach wd wd'.
Proof.
  intros Hs Hwd Hal Hex. rewrite /NewMagicBuffer. destruct (Z.eqb_spec size 0) as [->|Hnz].
  { eexists _, wd. split; [done|]. split; [by left|].
    split; [done|]. split; [|by split; [|apply reach_refl]]. rewrite AdjustBufferSize_spec; [lia|].
    pose proof (pages_spec 0). pose proof pageSize_bounds. cbn [rb_Size].
    assert (pages 0 = 0) as -> by nia. done. }
  pose proof (AdjustBufferSize_page size ltac:(rewrite /size_range; lia)) as Hp.
  pose proof (AdjustBufferSize_bounds size ltac:(lia)) as Hadj. pose proof pageSize_bounds as Hps.
  destruct (virtualmem_Get_ok (AdjustBufferSize size) wd) as
    (nb & wd1 & Hget & Hnb & _ & Hwd1 & _ & _); [rewrite /size_range; lia|done..|].
  have Hsz := Hex _ _ Hget. rewrite AdjustBufferSize_idem // in Hsz.
  rewrite Hget bind_Ret. eexists _, wd1. split; [done|].
  destruct (mapped_intro nb (AdjustBufferSize size) 0 0 0 true) as [Hm Hb]; [done..|lia|lia|done|done|].
  split; [eauto with godb|]. split; [by rewrite /contents /= Hb|]. split_and!; try done.
  eapply reach_get; [apply reach_refl| |exact Hget]. rewrite /size_range. lia.
Qed.

(** [WriteTo] hands the readable bytes to the writer and drops what it took;
    a full buffer whose writer takes nothing is reset. *)
Lemma WriteTo_ok {W} (writer_Write : W -> list byte -> Z * option error * W) rb wr n err wr' :
  rb_ok rb -> rb_isEmpty rb = false ->
  writer_Write wr (contents rb) = (n, err, wr') -> 0 <= n <= zlen (contents rb) ->
  exists rb', RingBuffer_WriteTo writer_Write rb wr =
      Ret (n, match err with
              | Some e => Some e
              | None => if rb_isEmpty rb' then None else Some IoErrShortWrite
              end, rb', wr') /\
    rb_ok rb' /\
    contents rb' = if (n =? 0) && RingBuffer_IsFull rb then [] else drop (Z.to_nat n) (contents rb).
Proof.
  intros Hok He Hwr Hn. rewrite /RingBuffer_WriteTo He.
  destruct (contents_nonempty rb Hok He) as (vm & Hm & Hpos).
  have Hl := zlen_contents rb Hok. have Hr := mapped_r _ _ Hm.
  rewrite (mapped_Buf _ _ Hm) bind_Ret (mapped_slice _ _ _ Hm); [lia|].
  rewrite bind_Ret take_ge ?Hwr; [rewrite /zlen in Hl; lia|].
  destruct (Z.ltb_spec (RingBuffer_Buffered rb) n); [lia|]. rewrite go_rem_pos; [lia..|].
  rewrite bind_Ret -/(rb_consume rb _).
  have [Hok' Hc] : rb_ok (rb_consume rb ((rb_r rb + n) mod rb_Size rb)) /\
    contents (rb_consume rb ((rb_r rb + n) mod rb_Size rb)) =
    if (n =? 0) && RingBuffer_IsFull rb then [] else drop (Z.to_nat n) (contents rb).
  { destruct (Z.eqb_spec n 0) as [->|Hnz]; simpl.
    - rewrite Z.add_0_r Z.mod_small // /rb_consume /RingBuffer_IsFull He andb_true_r /=.
      destruct (Z.eqb_spec (rb_r rb) (rb_w rb)).
      + by destruct (Reset_ok rb Hok).
      + by destruct rb.
    - destruct (consume_ok vm rb n Hm ltac:(lia)) as (Hm' & ? & _). split; [eauto with godb|done]. }
  exists (rb_consume rb ((rb_r rb + n) mod rb_Size rb)). split; [|done].
  destruct err; [done|]. by case: (rb_isEmpty (rb_consume _ _)).
Qed.

(** The contract of [io.Reader], for a reader that delivers the bytes
    [remaining]: at most [calls] further calls return without an error.  The
    reader may use all of the destination as scratch space. *)
Record reader_law {R} (reader_Read : R -> Z -> Z * list byte * option error * R)
    (remaining : R -> list byte) (calls : R -> nat) : Prop := {
  reader_count rd len n data err rd' :
    0 < len -> reader_Read rd len = (n, data, err, rd') -> 0 <= n <= zlen data /\ zlen data <= len;
  reader_stream rd len n data err rd' :
    0 < len -> reader_Read rd len = (n, data, err, rd') ->
    remaining rd = take (Z.to_nat n) data ++ remaining rd';
  reader_eof rd len n data rd' :
    0 < len -> reader_Read rd len = (n, data, Some IoEOF, rd') -> remaining rd' = [];
  reader_calls rd len n data rd' :
    0 < len -> reader_Read rd len = (n, data, None, rd') -> (calls rd' < calls rd)%nat
}.

(** One call of the reader appends what it delivered, unless both the buffer and
    the delivery are empty. *)
Lemma ReadFrom_step_ok {R} (reader_Read : R -> Z -> Z * list byte * option error * R)
    remaining calls rb wd rd total P `{!PoolPromise P} :
  reader_law reader_Read remaining calls -> rb_ok rb -> P wd ->
  zlen (contents rb) + MinRead < 2 ^ 52 ->
  exists len n data err rd', 0 < len /\ reader_Read rd len = (n, data, err, rd') /\
    (contents rb <> [] \/ 0 < n ->
     exists rb' wd', ReadFrom_step reader_Read rb wd rd total =
       Ret (rb', wd', rd', int64 (total + n),
            match err with
            | None => None
            | Some IoEOF => Some None
            | Some e => Some (Some (Wrap "reader Read error: " e))
            end) /\
       rb_ok rb' /\ P wd' /\ contents rb' = contents rb ++ take (Z.to_nat n) data).
Proof.
  intros Hlaw Hok HP Hrange.
  destruct (GrowIfUnsufficientFreeSpace_ok rb wd Hok) as
    (vm & rb1 & wd1 & Hgrow & Hm & Hc & Hfree & Hwd1 & Hreach); [by eapply promise_ok| |].
  { intros _. rewrite zlen_contents // in Hrange. have := Buffered_bounds rb Hok.
    rewrite /can_grow /grow_range /MinRead in Hrange |- *. intros Hb.
    split; [by eapply promise_alloc|]. split; [lia|]. eapply promise_exact; [done|].
    pose proof (AdjustBufferSize_bounds (RingBuffer_Buffered rb + 1024) ltac:(lia)).
    pose proof pageSize_bounds. rewrite /size_range. lia. }
  have HP1 : P wd1 by eapply promise_reach.
  have Hsum := Buffered_Available rb1 (mapped_rb_ok _ _ Hm).
  have Hb := Buffered_bounds rb1 (mapped_rb_ok _ _ Hm).
  have Hwb := mapped_w _ _ Hm. have Hlen := mapped_len _ _ Hm.
  have HplusAv : 0 < RingBuffer_Available rb1 by rewrite /MinRead in Hfree; lia.
  destruct (reader_Read rd (RingBuffer_Available rb1)) as [[[n data] err] rd'] eqn:Hread.
  destruct (reader_count _ _ _ Hlaw _ _ _ _ _ _ HplusAv Hread) as [Hn Hdata].
  exists (RingBuffer_Available rb1), n, data, err, rd'. split; [done|]. split; [done|].
  intros Hprog. rewrite /ReadFrom_step Hgrow bind_Ret (mapped_vm _ _ Hm). cbn [deref].
  rewrite bind_Ret go_slice_ok; [lia|rewrite /vm_Buf zlen_app /zlen; lia|]. rewrite bind_Ret.
  set p := take _ _.
  have Hp : zlen p = RingBuffer_Available rb1.
  { rewrite /p /zlen length_take length_drop /vm_Buf length_app. lia. }
  rewrite Hp Hread take_ge; [rewrite /zlen in Hp, Hdata; lia|].
  destruct (partial_append_ok vm rb1 data n Hm Hn ltac:(lia)) as (vm' & -> & Hfin).
  { rewrite Hc. by destruct Hprog; [left|right]. }
  rewrite bind_Ret. destruct (Z.ltb_spec n 0); [lia|]. rewrite go_rem_pos; [lia..|].
  rewrite bind_Ret. destruct Hfin as [Hm' Hc']. eexists _, wd1. split; [done|].
  split; [eauto with godb|]. by rewrite Hc' Hc.
Qed.

End Methods.
