(* ===== verification/RingRefinement.v ===== *)
(** * RingRefinement: the ring buffer is a FIFO byte queue

    The abstract buffer is a list of bytes.  Every sequence of method calls on a
    ring buffer produces the results of the same sequence on the list, as long as
    the memory pool keeps its promise ([PoolPromise]).  The file ends with the
    inputs on which the code departs from this contract. *)

From S2P Require Import Prelude Errors SyncPool VirtualMem MagicRing.

(** ** Operations and their results *)

Inductive ring_op : Type :=
| OpWrite (bs : list byte)
| OpWriteByte (b : byte)
| OpRead (buflen : Z)
| OpReadByte
| OpDiscard (n : Z)
| OpNext (n : Z)
| OpPeek (n : Z)
| OpBytes
| OpReset
(** the kernel writes at the write address, as the reader of a connection asks
    it to: grow, receive, [AdvanceWrite] *)
| OpRecv (data : list byte)
(** the kernel took [n] bytes from the read address: [AdvanceRead] *)
| OpSent (n : Z).

(** The count, the bytes and the error a method returns. *)
Record ring_out : Type := mkOut {
  out_n : Z;
  out_bytes : list byte;
  out_err : option error
}.

(** The abstract buffer: each rule gives the result and the next contents. *)
Inductive fifo_step (c : list byte) : ring_op -> ring_out -> list byte -> Prop :=
| fifo_write bs : fifo_step c (OpWrite bs) (mkOut (zlen bs) [] None) (c ++ bs)
| fifo_write_byte b : fifo_step c (OpWriteByte b) (mkOut 1 [] None) (c ++ [b])
| fifo_read_none : fifo_step c (OpRead 0) (mkOut 0 [] None) c
| fifo_read_empty n : 0 < n -> c = [] -> fifo_step c (OpRead n) (mkOut 0 [] (Some ErrIsEmpty)) c
| fifo_read n :
    0 < n -> c <> [] ->
    fifo_step c (OpRead n) (mkOut (Z.min n (zlen c)) (take (Z.to_nat n) c) None) (drop (Z.to_nat n) c)
| fifo_read_byte_empty : c = [] -> fifo_step c OpReadByte (mkOut 0 [x00] (Some ErrIsEmpty)) c
| fifo_read_byte b rest : c = b :: rest -> fifo_step c OpReadByte (mkOut 1 [b] None) rest
| fifo_discard n :
    fifo_step c (OpDiscard n) (mkOut (Z.min n (zlen c)) [] None) (drop (Z.to_nat n) c)
| fifo_next_short n : zlen c < n -> fifo_step c (OpNext n) (mkOut 0 [] (Some IoErrShortBuffer)) c
| fifo_next_all n : n <= 0 -> fifo_step c (OpNext n) (mkOut (zlen c) c None) []
| fifo_next n :
    0 < n <= zlen c ->
    fifo_step c (OpNext n) (mkOut n (take (Z.to_nat n) c) None) (drop (Z.to_nat n) c)
| fifo_peek_all n : n <= 0 -> fifo_step c (OpPeek n) (mkOut (zlen c) c None) c
| fifo_peek n :
    0 < n -> fifo_step c (OpPeek n) (mkOut (Z.min n (zlen c)) (take (Z.to_nat n) c) None) c
| fifo_bytes : fifo_step c OpBytes (mkOut (zlen c) c None) c
| fifo_reset : fifo_step c OpReset (mkOut 0 [] None) []
| fifo_recv data n :
    Z.min (zlen data) MinRead <= n <= zlen data ->
    fifo_step c (OpRecv data) (mkOut n [] None) (c ++ take (Z.to_nat n) data)
| fifo_sent n : fifo_step c (OpSent n) (mkOut n [] None) (drop (Z.to_nat n) c).

(** The operations the buffer has to serve: nonnegative counts, acknowledged
    bytes that were buffered, and contents far below the address space. *)
Definition op_valid (c : list byte) (op : ring_op) : Prop :=
  match op with
  | OpWrite bs => zlen c + zlen bs < 2 ^ 52
  | OpWriteByte _ => zlen c + 1 < 2 ^ 52
  | OpRecv _ => zlen c + MinRead < 2 ^ 52
  | OpRead n | OpDiscard n => 0 <= n
  | OpNext n => c <> [] \/ 0 < n
  | OpSent n => 0 <= n <= zlen c
  | _ => True
  end.

Section Refinement.
Context {os : Os}.

(** The same operation on the ring buffer. *)
Definition ring_step (rb : RingBuffer) (wd : World) (op : ring_op) :
    outcome (ring_out * RingBuffer * World) :=
  match op with
  | OpWrite bs =>
      '(n, err, rb, wd) ← RingBuffer_Write rb bs wd; Ret (mkOut n [] err, rb, wd)
  | OpWriteByte b =>
      '(err, rb, wd) ← RingBuffer_WriteByte rb b wd; Ret (mkOut 1 [] err, rb, wd)
  | OpRead n =>
      '(bs, err, rb) ← RingBuffer_Read rb n; Ret (mkOut (zlen bs) bs err, rb, wd)
  | OpReadByte =>
      '(b, err, rb) ← RingBuffer_ReadByte rb;
      Ret (mkOut (if err is None then 1 else 0) [b] err, rb, wd)
  | OpDiscard n => '(n, rb) ← RingBuffer_Discard rb n; Ret (mkOut n [] None, rb, wd)
  | OpNext n => '(bs, err, rb) ← RingBuffer_Next rb n; Ret (mkOut (zlen bs) bs err, rb, wd)
  | OpPeek n => bs ← RingBuffer_Peek rb n; Ret (mkOut (zlen bs) bs None, rb, wd)
  | OpBytes => bs ← RingBuffer_Bytes rb; Ret (mkOut (zlen bs) bs None, rb, wd)
  | OpReset => Ret (mkOut 0 [] None, RingBuffer_Reset rb, wd)
  | OpRecv data =>
      '(rb, wd) ← RingBuffer_GrowIfUnsufficientFreeSpace rb wd;
      vm ← deref (rb_vm rb);
      let data := take (Z.to_nat (RingBuffer_Available rb)) data in
      '(_, vm) ← vm_copy vm (rb_w rb) data;
      rb ← RingBuffer_AdvanceWrite (rb_set_vm rb vm) (zlen data);
      Ret (mkOut (zlen data) [] None, rb, wd)
  | OpSent n => rb ← RingBuffer_AdvanceRead rb n; Ret (mkOut n [] None, rb, wd)
  end.

(** No operation gives the memory of the buffer away. *)
Lemma Write_allocated rb bs wd n err rb' wd' :
  RingBuffer_Write rb bs wd = Ret (n, err, rb', wd') -> allocated rb -> allocated rb'.
Proof.
  rewrite /RingBuffer_Write. intros Hw Hal. case_match; [by injection Hw as <- <- <- <-|].
  apply bind_Ret_inv in Hw as ([rb1 wd1] & _ & Hw). apply bind_Ret_inv in Hw as (vm & _ & Hw).
  apply bind_Ret_inv in Hw as ([k vm'] & _ & Hw). apply bind_Ret_inv in Hw as (w & _ & Hw).
  injection Hw as <- <- <- <-. by eexists.
Qed.

Lemma Read_vm rb n bs err rb' : RingBuffer_Read rb n = Ret (bs, err, rb') -> rb_vm rb' = rb_vm rb.
Proof.
  rewrite /RingBuffer_Read. intros Hr. do 2 (case_match; [by injection Hr as <- <- <-|]).
  apply bind_Ret_inv in Hr as (buf & _ & Hr). apply bind_Ret_inv in Hr as (bytes & _ & Hr).
  apply bind_Ret_inv in Hr as (r & _ & Hr). injection Hr as <- <- <-. by case_match.
Qed.

Lemma Discard_vm rb n k rb' : RingBuffer_Discard rb n = Ret (k, rb') -> rb_vm rb' = rb_vm rb.
Proof.
  rewrite /RingBuffer_Discard. intros Hr. case_match; [by injection Hr as <- <-|]. case_match; [|by injection Hr as <- <-].
  apply bind_Ret_inv in Hr as (r & _ & Hr). by injection Hr as <- <-.
Qed.

Lemma Next_vm rb n bs err rb' : RingBuffer_Next rb n = Ret (bs, err, rb') -> rb_vm rb' = rb_vm rb.
Proof.
  rewrite /RingBuffer_Next. intros Hr. case_match; [by injection Hr as <- <- <-|].
  apply bind_Ret_inv in Hr as (buf & _ & Hr). apply bind_Ret_inv in Hr as (bytes & _ & Hr).
  apply bind_Ret_inv in Hr as ([k rb1] & Hd & Hr). injection Hr as <- <- <-. by eapply Discard_vm.
Qed.

Lemma AdvanceRead_vm rb n rb' : RingBuffer_AdvanceRead rb n = Ret rb' -> rb_vm rb' = rb_vm rb.
Proof. rewrite /RingBuffer_AdvanceRead. intros Hr. repeat case_match; simplify_eq; done. Qed.

Lemma AdvanceWrite_vm rb n rb' : RingBuffer_AdvanceWrite rb n = Ret rb' -> rb_vm rb' = rb_vm rb.
Proof. rewrite /RingBuffer_AdvanceWrite. intros Hr. repeat case_match; simplify_eq; done. Qed.

Lemma promise_can_grow P `{!PoolPromise P} wd c :
  P wd -> 0 < c < 2 ^ 52 -> can_grow c wd.
Proof.
  intros HP Hc. split; [by eapply promise_alloc|]. split; [done|].
  eapply promise_exact; [done|].
  pose proof (AdjustBufferSize_bounds c ltac:(lia)). pose proof pageSize_bounds.
  rewrite /size_range. lia.
Qed.

(** The simulation: one method call against one step of the list. *)
Definition simulates (P : World -> Prop) (rb : RingBuffer) (wd : World) (op : ring_op) : Prop :=
  exists out rb' wd', ring_step rb wd op = Ret (out, rb', wd') /\
    fifo_step (contents rb) op out (contents rb') /\ rb_ok rb' /\ P wd'.

Lemma sim_write P `{!PoolPromise P} rb wd bs :
  rb_ok rb -> P wd -> op_valid (contents rb) (OpWrite bs) -> simulates P rb wd (OpWrite bs).
Proof.
  intros Hok HP Hv. rewrite /op_valid zlen_contents // in Hv.
  have Hsum := Buffered_Available rb Hok. have Hb := Buffered_bounds rb Hok.
  have Hz := zlen_nonneg bs.
  destruct (Write_ok rb bs wd Hok (promise_ok _ HP)) as (rb' & wd' & Heq & Hok' & Hc & _ & Hreach).
  { intros. apply (promise_can_grow P); [done|lia]. }
  rewrite /simulates /ring_step Heq bind_Ret. eexists _, rb', wd'. split; [done|].
  rewrite Hc. split_and!; [constructor|done|by eapply promise_reach].
Qed.

Lemma sim_write_byte P `{!PoolPromise P} rb wd b :
  rb_ok rb -> P wd -> op_valid (contents rb) (OpWriteByte b) -> simulates P rb wd (OpWriteByte b).
Proof.
  intros Hok HP Hv. rewrite /op_valid zlen_contents // in Hv.
  have Hsum := Buffered_Available rb Hok. have Hb := Buffered_bounds rb Hok.
  destruct (WriteByte_ok rb b wd Hok (promise_ok _ HP)) as (rb' & wd' & Heq & Hok' & Hc & _ & Hreach).
  { intros. apply (promise_can_grow P); [done|lia]. }
  rewrite /simulates /ring_step Heq bind_Ret. eexists _, rb', wd'. split; [done|].
  rewrite Hc. split_and!; [constructor|done|by eapply promise_reach].
Qed.

Lemma sim_recv P `{!PoolPromise P} rb wd data :
  rb_ok rb -> P wd -> op_valid (contents rb) (OpRecv data) -> simulates P rb wd (OpRecv data).
Proof.
  intros Hok HP Hv. rewrite /op_valid zlen_contents // in Hv. have Hb := Buffered_bounds rb Hok.
  destruct (GrowIfUnsufficientFreeSpace_ok rb wd Hok (promise_ok _ HP)) as
    (vm & rb1 & wd1 & Heq & Hm & Hc & Hfree & _ & Hreach).
  { intros. apply (promise_can_grow P); [done|]. rewrite /MinRead in Hv |- *. lia. }
  have Hsum := Buffered_Available rb1 (mapped_rb_ok _ _ Hm).
  have Hb1 := Buffered_bounds rb1 (mapped_rb_ok _ _ Hm).
  set d := take (Z.to_nat (RingBuffer_Available rb1)) data.
  have Hd : zlen d = Z.min (RingBuffer_Available rb1) (zlen data).
  { rewrite /d /zlen length_take. lia. }
  destruct (AdvanceWrite_ok vm rb1 d Hm ltac:(lia)) as (vm' & rb' & Hcopy & Hadv & Hm' & Hc').
  rewrite /simulates /ring_step Heq bind_Ret (mapped_vm _ _ Hm). cbn [deref].
  rewrite bind_Ret -/d Hcopy bind_Ret Hadv bind_Ret.
  eexists _, rb', wd1. split; [done|]. rewrite Hc' Hc.
  have Hdt : d = take (Z.to_nat (zlen d)) data.
  { rewrite Hd /d. destruct (decide (RingBuffer_Available rb1 <= zlen data)).
    - by rewrite Z.min_l.
    - rewrite Z.min_r; [lia|]. rewrite !take_ge //; rewrite /zlen in n |- *; lia. }
  have Hstep := fifo_recv (contents rb) data (zlen d) ltac:(lia). rewrite -Hdt in Hstep.
  split_and!; [done|eauto with godb|by eapply promise_reach].
Qed.

Lemma sim_read P rb wd n :
  rb_ok rb -> P wd -> 0 <= n -> simulates P rb wd (OpRead n).
Proof.
  intros Hok HP Hn. destruct (Read_ok rb n Hok Hn) as (rb' & Heq & Hok' & Hc & _).
  rewrite /simulates /ring_step Heq bind_Ret. eexists _, rb', wd. split; [done|].
  split; [|done]. rewrite Hc. destruct (Z.eqb_spec n 0) as [->|Hnz]; [constructor|].
  destruct (rb_isEmpty rb) eqn:He.
  - rewrite contents_empty // take_nil drop_nil. constructor; [lia|done].
  - have Hne : contents rb <> [].
    { intros Hnil. by rewrite isEmpty_nil in He. }
    have -> : zlen (take (Z.to_nat n) (contents rb)) = Z.min n (zlen (contents rb)).
    { rewrite /zlen length_take. lia. }
    constructor; [lia|done].
Qed.

Lemma sim_next P rb wd n :
  rb_ok rb -> P wd -> op_valid (contents rb) (OpNext n) -> simulates P rb wd (OpNext n).
Proof.
  intros Hok HP Hv. have Hl := zlen_contents rb Hok. rewrite /simulates /ring_step.
  destruct (decide (zlen (contents rb) < n)) as [Hlt|Hge].
  { rewrite /RingBuffer_Next -Hl. destruct (Z.ltb_spec (zlen (contents rb)) n); [|lia].
    rewrite bind_Ret. eexists _, rb, wd. split; [done|]. by split; [constructor|]. }
  have Hvm : rb_vm rb <> None.
  { intros Hnil. have Hc : contents rb = [] by rewrite /contents Hnil.
    rewrite Hc /= in Hv Hge. destruct Hv; [done|]. rewrite /zlen /= in Hge. lia. }
  destruct (Next_ok rb n Hok Hvm) as (rb' & Heq & Hok' & Hc). rewrite Heq -Hl.
  destruct (Z.ltb_spec (zlen (contents rb)) n); [lia|]. rewrite bind_Ret.
  eexists _, rb', wd. split; [done|]. split; [|done]. rewrite Hc -Hl.
  destruct (Z.leb_spec n 0).
  - rewrite drop_ge ?take_ge; [rewrite /zlen; lia..|]. by constructor.
  - have -> : zlen (take (Z.to_nat n) (contents rb)) = n by rewrite /zlen length_take; rewrite /zlen in Hge; lia.
    constructor. lia.
Qed.

Lemma sim_peek P rb wd n : rb_ok rb -> P wd -> simulates P rb wd (OpPeek n).
Proof.
  intros Hok HP. rewrite /simulates /ring_step Peek_ok // bind_Ret.
  eexists _, rb, wd. split; [done|]. split; [|done]. destruct (Z.leb_spec n 0).
  - by constructor.
  - have -> : zlen (take (Z.to_nat n) (contents rb)) = Z.min n (zlen (contents rb)).
    { rewrite /zlen length_take. lia. }
    by constructor.
Qed.

Lemma sim_read_byte P rb wd : rb_ok rb -> P wd -> simulates P rb wd OpReadByte.
Proof.
  intros Hok HP. destruct (ReadByte_ok rb Hok) as (rb' & Heq & Hok' & Hc).
  rewrite /simulates /ring_step Heq. destruct (contents rb) eqn:Hcont; rewrite bind_Ret.
  all: eexists _, rb', wd; split; [done|]; split; [rewrite Hc|done].
  - by constructor.
  - by econstructor.
Qed.

(** Every valid operation is simulated. *)
Lemma sim_step P `{!PoolPromise P} rb wd op :
  rb_ok rb -> P wd -> op_valid (contents rb) op -> simulates P rb wd op.
Proof.
  intros Hok HP Hv. destruct op.
  - by apply sim_write.
  - by apply sim_write_byte.
  - by apply sim_read.
  - by apply sim_read_byte.
  - destruct (Discard_ok rb n Hok Hv) as (rb' & Heq & Hok' & Hc).
    rewrite /simulates /ring_step Heq bind_Ret -zlen_contents //.
    eexists _, rb', wd. split; [done|]. rewrite Hc. by split; [constructor|].
  - by apply sim_next.
  - by apply sim_peek.
  - rewrite /simulates /ring_step Bytes_ok // bind_Ret. eexists _, rb, wd. by split; [|split; [constructor|]].
  - destruct (Reset_ok rb Hok) as [Hok' Hc]. eexists _, _, wd. split; [done|]. rewrite Hc.
    by split; [constructor|].
  - by apply sim_recv.
  - rewrite /op_valid zlen_contents // in Hv.
    destruct (AdvanceRead_ok rb n Hok Hv) as (rb' & Heq & Hok' & Hc).
    rewrite /simulates /ring_step Heq bind_Ret. eexists _, rb', wd. split; [done|]. rewrite Hc.
    by split; [constructor|].
Qed.

(** ** Sequences of operations *)

Fixpoint ring_run (rb : RingBuffer) (wd : World) (ops : list ring_op) :
    outcome (list ring_out * RingBuffer * World) :=
  match ops with
  | [] => Ret ([], rb, wd)
  | op :: ops =>
      '(out, rb, wd) ← ring_step rb wd op;
      '(outs, rb, wd) ← ring_run rb wd ops;
      Ret (out :: outs, rb, wd)
  end.

Inductive fifo_run (c : list byte) : list ring_op -> list ring_out -> list byte -> Prop :=
| fifo_run_nil : fifo_run c [] [] c
| fifo_run_cons op out c' ops outs c'' :
    fifo_step c op out c' -> fifo_run c' ops outs c'' ->
    fifo_run c (op :: ops) (out :: outs) c''.

(** Validity of a sequence, whatever the kernel delivers on the way. *)
Fixpoint ops_valid (c : list byte) (ops : list ring_op) : Prop :=
  match ops with
  | [] => True
  | op :: ops =>
      op_valid c op /\ forall out c', fifo_step c op out c' -> ops_valid c' ops
  end.

(** ** [ReadFrom] *)

(** The first call of the reader delivers something. *)
Definition delivers {R} (reader_Read : R -> Z -> Z * list byte * option error * R) (rd : R) : Prop :=
  forall len n data err rd', 0 < len -> reader_Read rd len = (n, data, err, rd') -> 0 < n.

Lemma ReadFrom_loop_ok {R} (reader_Read : R -> Z -> Z * list byte * option error * R)
    remaining calls P `{!PoolPromise P} :
  reader_law reader_Read remaining calls ->
  forall fuel rb wd rd total,
  (calls rd < fuel)%nat -> rb_ok rb -> P wd ->
  contents rb <> [] \/ delivers reader_Read rd ->
  zlen (contents rb) + zlen (remaining rd) + MinRead < 2 ^ 52 ->
  0 <= total -> total + zlen (remaining rd) < 2 ^ 62 ->
  exists n err rb' wd' rd',
    ReadFrom_loop reader_Read fuel rb wd rd total = Ret (Some (n, err, rb', wd', rd')) /\
    rb_ok rb' /\ P wd' /\ contents rb' ++ remaining rd' = contents rb ++ remaining rd /\
    n = total + zlen (contents rb') - zlen (contents rb) /\ (err = None -> remaining rd' = []).
Proof.
  intros Hlaw. induction fuel as [|fuel IH]; intros rb wd rd total Hfuel Hok HP Hne Hrange Ht0 Ht;
    [lia|].
  have Hrem := zlen_nonneg (remaining rd). have Hcl := zlen_nonneg (contents rb).
  edestruct (ReadFrom_step_ok reader_Read remaining calls rb wd rd total P Hlaw Hok HP)
    as (len & n & data & err & rd' & Hlen & Hread & Hstep); [lia|].
  have [Hn Hdata] := reader_count _ _ _ Hlaw _ _ _ _ _ _ Hlen Hread.
  have Hstream := reader_stream _ _ _ Hlaw _ _ _ _ _ _ Hlen Hread.
  destruct Hstep as (rb' & wd' & Hstep & Hok' & HP' & Hc).
  { destruct Hne as [|Hd]; [by left|right]. by eapply Hd. }
  have Hlc : zlen (contents rb') = zlen (contents rb) + n.
  { rewrite Hc zlen_app /zlen length_take. rewrite /zlen in Hn. lia. }
  have Hlr : zlen (remaining rd) = n + zlen (remaining rd').
  { rewrite Hstream zlen_app /zlen length_take. rewrite /zlen in Hn. lia. }
  have Hrem' := zlen_nonneg (remaining rd').
  cbn [ReadFrom_loop]. rewrite Hstep bind_Ret. rewrite wrap_s_small; [lia|lia|].
  have Hkeep : contents rb' ++ remaining rd' = contents rb ++ remaining rd.
  { by rewrite Hc -app_assoc -Hstream. }
  destruct err as [e|].
  - exists (total + n), (if decide (e = IoEOF) then None else Some (Wrap "reader Read error: " e)), rb', wd', rd'.
    split; [by destruct e|]. split_and!; try done; [lia|].
    case_decide; [|done]. subst e. intros _. by eapply reader_eof.
  - have Hcalls := reader_calls _ _ _ Hlaw _ _ _ _ _ Hlen Hread.
    destruct (IH rb' wd' rd' (total + n)) as (m & err & rb2 & wd2 & rd2 & Heq & Hok2 & HP2 & Hc2 & Hm & Heof);
      try done; try lia.
    { destruct Hne as [Hne|Hd]; left; rewrite Hc; intros [Ha Hb]%app_nil; [done|].
      have Hpos := Hd _ _ _ _ _ Hlen Hread. apply (f_equal length) in Hb.
      rewrite length_take /= in Hb. rewrite /zlen in Hn. lia. }
    exists m, err, rb2, wd2, rd2. split_and!; try done; [by rewrite Hc2|lia].
Qed.

(** C2. Refinement: from any well-formed buffer, every valid sequence of method calls
    (writes, reads, discards, peeks, receives and acknowledgements by the kernel, with
    growth in between) returns without a panic, and its results and final contents are
    those of a FIFO byte list; the buffer stays well-formed. Conditions: lengths are
    non-negative, [Next] asks for something or the buffer holds something, the kernel
    acknowledges at most what is buffered, and the contents stay below 2^52 bytes;
    [sync.Pool] answers a request for memory with nil or with memory of the size asked for
    ([pool_reuse_breaks_fifo] shows the other case) and the kernel grants allocations:
    growth may reuse pooled memory, with whatever it holds. *)
Theorem ring_refines_fifo P `{!PoolPromise P} rb wd ops :
  rb_ok rb -> P wd -> ops_valid (contents rb) ops ->
  exists outs rb' wd', ring_run rb wd ops = Ret (outs, rb', wd') /\
    fifo_run (contents rb) ops outs (contents rb') /\ rb_ok rb' /\ P wd'.
Proof.
  revert rb wd. induction ops as [|op ops IH]; intros rb wd Hok HP Hv.
  - exists [], rb, wd. by split; [|split; [constructor|]].
  - destruct Hv as [Hv Hrest].
    destruct (sim_step P rb wd op Hok HP Hv) as (out & rb1 & wd1 & Heq & Hstep & Hok1 & HP1).
    destruct (IH rb1 wd1 Hok1 HP1 (Hrest _ _ Hstep)) as (outs & rb2 & wd2 & Heq2 & Hrun & Hok2 & HP2).
    exists (out :: outs), rb2, wd2. cbn [ring_run]. rewrite Heq bind_Ret Heq2 bind_Ret.
    by split; [|split; [econstructor|]].
Qed.

(** [ReadFrom] with a reader that keeps the contract of [io.Reader] and ends
    after finitely many calls: it returns, nothing is lost or reordered (what was
    buffered, then what was read, then what is left in the reader), the count is
    the number of bytes appended, and without an error the reader is exhausted. *)
Theorem ring_read_from_total {R} (reader_Read : R -> Z -> Z * list byte * option error * R)
    remaining calls P `{!PoolPromise P} fuel rb wd rd :
  reader_law reader_Read remaining calls -> (calls rd < fuel)%nat -> rb_ok rb -> P wd ->
  contents rb <> [] \/ delivers reader_Read rd ->
  zlen (contents rb) + zlen (remaining rd) + MinRead < 2 ^ 52 ->
  exists n err rb' wd' rd',
    RingBuffer_ReadFrom reader_Read fuel rb rd wd = Ret (Some (n, err, rb', wd', rd')) /\
    rb_ok rb' /\ contents rb' ++ remaining rd' = contents rb ++ remaining rd /\
    n = zlen (contents rb') - zlen (contents rb) /\
    (err = None -> contents rb' = contents rb ++ remaining rd).
Proof.
  intros Hlaw Hfuel Hok HP Hne Hrange. have Hc := zlen_nonneg (contents rb).
  destruct (ReadFrom_loop_ok reader_Read remaining calls P Hlaw fuel rb wd rd 0 Hfuel Hok HP Hne Hrange)
    as (n & err & rb' & wd' & rd' & Heq & Hok' & _ & Hkeep & Hn & Heof); [lia|rewrite /MinRead in Hrange; lia|].
  exists n, err, rb', wd', rd'. split_and!; try done. intros He. rewrite -Hkeep (Heof He) app_nil_r //.
Qed.

(** C25. Bounds: for a well-formed buffer the free and the buffered bytes add up to
    the size, the contents have exactly [Buffered] bytes, and the addresses given
    to the kernel for reading and writing, with the lengths [Buffered] and
    [Available], stay inside the doubly mapped memory. *)
Theorem ring_kernel_ranges vm rb :
  mapped_ok vm rb ->
  RingBuffer_Buffered rb + RingBuffer_Available rb = RingBuffer_Cap rb /\
  zlen (contents rb) = RingBuffer_Buffered rb /\
  RingBuffer_ReadAddress rb = Ret (rb_r rb) /\ RingBuffer_WriteAddress rb = Ret (rb_w rb) /\
  0 <= rb_r rb /\ rb_r rb + RingBuffer_Buffered rb <= zlen (vm_Buf vm) /\
  0 <= rb_w rb /\ rb_w rb + RingBuffer_Available rb <= zlen (vm_Buf vm).
Proof.
  intros Hm. have Hok := mapped_rb_ok _ _ Hm. have Hsum := Buffered_Available rb Hok.
  have Hb := Buffered_bounds rb Hok. have Hlen := mapped_len _ _ Hm.
  have Hr := mapped_r _ _ Hm. have Hw := mapped_w _ _ Hm.
  have Hbuf : zlen (vm_Buf vm) = 2 * rb_Size rb.
  { rewrite /vm_Buf zlen_app /zlen. lia. }
  have Haddr : forall i, 0 <= i < rb_Size rb -> exists b, go_index (vm_Buf vm) i = Ret b.
  { intros i Hi. destruct (lookup_lt_is_Some_2 (vm_Buf vm) (Z.to_nat i)) as [b Hb'].
    { rewrite /zlen in Hbuf. lia. }
    exists b. apply go_index_ok; [lia|done]. }
  destruct (Haddr _ Hr) as [? Hr']. destruct (Haddr _ Hw) as [? Hw'].
  rewrite /RingBuffer_ReadAddress /RingBuffer_WriteAddress (mapped_Buf _ _ Hm) !bind_Ret Hr' Hw'.
  rewrite zlen_contents //. split_and!; (done || lia).
Qed.

End Refinement.

(** ** Witnesses *)

#[local] Existing Instance linux_x86_64.

(** The pool is empty, and its next requests reuse what fits. *)
Definition empty_world : World := mkWorld virtualmem_NewPool (replicate 64 first_fit) [].

Lemma first_fits_exact n : Forall exact_choice (replicate n first_fit).
Proof. apply Forall_replicate, first_fit_exact. Qed.

Lemma empty_world_exact : exact_world empty_world.
Proof. split; [apply world_ok_NewPool|]. split; [apply first_fits_exact|done]. Qed.

(** A memory of two pages was released before. *)
Definition two_pages : VirtualMem := mkVM (replicate 8192 x00) 8192.
Definition used_world : World :=
  mkWorld (<[13%nat := pool_Put two_pages NewPool]> virtualmem_NewPool) (replicate 64 first_fit) [].

Lemma used_world_exact : exact_world used_world.
Proof.
  split; [|split; [apply first_fits_exact|done]]. apply (world_ok_update empty_world); [apply empty_world_exact|].
  constructor; [|done]. split; [split; [by vm_compute|simpl; lia]|]. split; [apply Forall_replicate; done|simpl; lia].
Qed.

(** A buffer of one page, empty, with both positions at 0. *)
Definition page_buffer : RingBuffer :=
  mkRB (Some (mkVM (replicate 4096 x00) 4096)) 4096 0 0 true.

Lemma page_buffer_mapped : mapped_ok (mkVM (replicate 4096 x00) 4096) page_buffer.
Proof. by split. Qed.

Definition growing_ops : list ring_op := [OpWrite (replicate (Z.to_nat 4096) x01 ++ [x02; x03]); OpRead 4096; OpReadByte; OpRead 5].

(** The buffer grows to two pages in the memory that was released before. *)
Lemma ring_refines_fifo_witness :
  exists outs rb' wd', ring_run page_buffer used_world growing_ops = Ret (outs, rb', wd') /\
    fifo_run [] growing_ops outs (contents rb') /\ rb_Size rb' = 8192 /\ exists p, pools wd' !! 13%nat = Some p /\ internalPool p = [].
Proof.
  destruct (ring_refines_fifo exact_world page_buffer used_world growing_ops) as (outs & rb' & wd' & H1 & H2 & _).
  - exact (mapped_rb_ok _ _ page_buffer_mapped).
  - exact used_world_exact.
  - split; [by vm_compute|]. intros. split; [simpl; lia|]. intros. split; [done|]. intros. split; [simpl; lia|done].
  - exists outs, rb', wd'. split; [exact H1|]. split; [exact H2|].
    have H : (match ring_run page_buffer used_world growing_ops with
      | Ret (_, rb, wd) => (rb_Size rb =? 8192) && match pools wd !! 13%nat with Some p => (length (internalPool p) =? 0)%nat | None => false end
      | Panic _ => false end) = true by vm_compute.
    rewrite H1 in H. clear H1 H2. apply andb_true_iff in H as [Hs%Z.eqb_eq Hp]. split; [exact Hs|].
    destruct (pools wd' !! 13%nat) as [p|]; [|done]. apply Nat.eqb_eq, nil_length_inv in Hp. by exists p.
Defined.

(** A reader over a byte list that delivers one byte per call and then ends. *)
Definition byte_reader (src : list byte) (len : Z) : Z * list byte * option error * list byte :=
  match src with
  | [] => (0, [], Some IoEOF, [])
  | b :: rest => (1, [b], None, rest)
  end.

Lemma byte_reader_law : reader_law byte_reader id length.
Proof.
  split; intros [|b rd] len; simpl; intros; simplify_eq/=; try done; rewrite /zlen /=; lia.
Qed.

Lemma ring_read_from_total_witness :
  exists n err rb' wd' rd',
    RingBuffer_ReadFrom byte_reader 3 page_buffer [x01; x02] empty_world =
      Ret (Some (n, err, rb', wd', rd')) /\ (err = None -> contents rb' = [x01; x02]).
Proof.
  destruct (ring_read_from_total byte_reader id length exact_world 3 page_buffer empty_world [x01; x02])
    as (n & err & rb' & wd' & rd' & H1 & _ & _ & _ & H2).
  - exact byte_reader_law.
  - simpl. lia.
  - exact (mapped_rb_ok _ _ page_buffer_mapped).
  - exact empty_world_exact.
  - right. intros len n data err rd' _ [= <- <- <- <-]. lia.
  - vm_compute. reflexivity.
  - exists n, err, rb', wd', rd'. split; [exact H1|exact H2].
Defined.

Lemma ring_kernel_ranges_witness :
  RingBuffer_Buffered page_buffer + RingBuffer_Available page_buffer = RingBuffer_Cap page_buffer.
Proof. exact (proj1 (ring_kernel_ranges _ _ page_buffer_mapped)). Defined.

(** ** Where the code departs from the contract *)

(** A negative count makes [Discard] move the read position backwards (the
    interface documents that all buffered bytes are skipped): on a nonempty
    buffer read from its start, the position becomes negative and the next
    [Peek] panics. *)
Theorem discard_negative_rewinds vm rb n :
  mapped_ok vm rb -> rb_isEmpty rb = false -> rb_r rb = 0 -> - rb_Size rb < n < 0 ->
  exists rb', RingBuffer_Discard rb n = Ret (n, rb') /\ rb_r rb' = n /\
    RingBuffer_Peek rb' 1 = Panic PanicBounds.
Proof.
  intros Hm He Hr Hn. have Hb := Buffered_bounds rb (mapped_rb_ok _ _ Hm).
  exists (rb_set_r rb n). rewrite /RingBuffer_Discard Hr.
  destruct (Z.eqb_spec n 0); [lia|].
  destruct (Z.ltb_spec n (RingBuffer_Buffered rb)); [|lia].
  have -> : go_rem (0 + n) (rb_Size rb) = Ret n.
  { rewrite /go_rem. destruct (Z.eqb_spec (rb_Size rb) 0); [lia|]. f_equal.
    rewrite Z.add_0_l -(Z.opp_involutive n) Z.rem_opp_l; [lia|]. rewrite Z.rem_small; lia. }
  split; [done|]. split; [done|].
  rewrite /RingBuffer_Peek /= He /rb_Buf /= (mapped_vm _ _ Hm) /= /go_slice.
  destruct (Z.leb_spec 0 n); [lia|done].
Qed.

(** [ReadFrom] marks the buffer nonempty whatever the reader delivered: a
    reader that is at its end leaves an empty buffer that reports [Size] readable
    bytes, although [ReadFrom] returned 0 and no error. *)
Theorem read_from_eof_fills `{!Os} {R} (reader_Read : R -> Z -> Z * list byte * option error * R)
    vm rb wd rd rd' fuel :
  mapped_ok vm rb -> rb_isEmpty rb = true -> MinRead <= rb_Size rb ->
  reader_Read rd (rb_Size rb) = (0, [], Some IoEOF, rd') ->
  exists rb' wd', RingBuffer_ReadFrom reader_Read (S fuel) rb rd wd = Ret (Some (0, None, rb', wd', rd')) /\
    contents rb = [] /\ RingBuffer_Buffered rb' = rb_Size rb /\ RingBuffer_IsFull rb' = true.
Proof.
  intros Hm He Hs Hread. have Hok := mapped_rb_ok _ _ Hm.
  have Hrw := mapped_empty _ _ Hm He. have Hw := mapped_w _ _ Hm. have Hlen := mapped_len _ _ Hm.
  have Hav : RingBuffer_Available rb = rb_Size rb.
  { rewrite /RingBuffer_Available Hrw Z.eqb_refl He //. }
  have Hbuf : zlen (vm_Buf vm) = 2 * rb_Size rb by rewrite /vm_Buf zlen_app /zlen; lia.
  rewrite /RingBuffer_ReadFrom. cbn [ReadFrom_loop].
  rewrite /ReadFrom_step /RingBuffer_GrowIfUnsufficientFreeSpace Hav.
  destruct (Z.ltb_spec (rb_Size rb) MinRead); [lia|]. rewrite bind_Ret (mapped_vm _ _ Hm). cbn [deref].
  rewrite bind_Ret Hav go_slice_ok; [lia..|]. rewrite bind_Ret.
  set p := take _ _. have -> : zlen p = rb_Size rb.
  { rewrite /p /zlen length_take length_drop. rewrite /zlen in Hbuf. lia. }
  rewrite Hread take_nil /vm_copy Hbuf.
  destruct (Z.leb_spec 0 (rb_w rb)); [|lia]. destruct (Z.leb_spec (rb_w rb) (2 * rb_Size rb)); [|lia].
  have Hrem : go_rem (rb_w rb + 0) (rb_Size rb) = Ret (rb_w rb).
  { rewrite Z.add_0_r go_rem_pos; [lia..|]. by rewrite Z.mod_small. }
  cbn -[go_rem]. rewrite Hrem.
  eexists _, wd. split; [done|]. split; [by apply contents_empty|].
  by rewrite /RingBuffer_Buffered /RingBuffer_IsFull /= Hrw Z.eqb_refl.
Qed.

(** [WriteTo] on a full buffer whose writer takes nothing resets the buffer:
    every buffered byte is lost, and without an error of the writer the call
    reports success. *)
Theorem write_to_full_loses {W} (writer_Write : W -> list byte -> Z * option error * W) rb wr err wr' :
  rb_ok rb -> RingBuffer_IsFull rb = true ->
  writer_Write wr (contents rb) = (0, err, wr') ->
  exists rb', RingBuffer_WriteTo writer_Write rb wr = Ret (0, err, rb', wr') /\
    0 < zlen (contents rb) /\ contents rb' = [].
Proof.
  intros Hok Hfull Hwr. have He : rb_isEmpty rb = false.
  { move: Hfull. rewrite /RingBuffer_IsFull. destruct (rb_isEmpty rb); [by rewrite andb_false_r|done]. }
  have Hl := zlen_contents rb Hok. have Hz := zlen_nonneg (contents rb).
  destruct (contents_nonempty rb Hok He) as (vm & Hm & Hpos).
  destruct (WriteTo_ok writer_Write rb wr 0 err wr' Hok He Hwr ltac:(lia)) as (rb' & Heq & Hok' & Hc).
  rewrite Hfull /= in Hc. exists rb'. rewrite Heq (isEmpty_nil rb' Hok' Hc).
  split; [by destruct err|]. split; [lia|done].
Qed.

(** The size classes: a memory of three pages is released by a growing buffer,
    filed in the class of two pages, and handed to the next buffer that asks for
    two pages. *)
Definition reuse_world : World := mkWorld virtualmem_NewPool [fun _ _ => None; fun _ _ => None; fun _ _ => Some 0%nat] [].

Definition reuse_run : outcome (RingBuffer * World) :=
  '(rb1, wd) ← NewMagicBuffer 12288 reuse_world;
  '(_, _, _, wd) ← RingBuffer_Write rb1 (replicate (Z.to_nat 12289) x00) wd;
  NewMagicBuffer 8192 wd.

Definition reuse_ops : list ring_op :=
  [OpWrite (replicate (Z.to_nat 8000) x01); OpRead 7990; OpWrite (replicate 300 x02); OpWrite [x03]; OpPeek 311].

(** What the abstract buffer answers to the last of such operations. *)
Lemma fifo_reuse a n b d m outs c :
  a <> [] -> 0 < n -> 0 < m ->
  fifo_run [] [OpWrite a; OpRead n; OpWrite b; OpWrite d; OpPeek m] outs c ->
  out_bytes <$> last outs = Some (take (Z.to_nat m) ((drop (Z.to_nat n) a ++ b) ++ d)).
Proof.
  intros Ha Hn Hm Hrun.
  repeat match goal with
  | H : fifo_run _ (_ :: _) _ _ |- _ => inversion H; clear H; subst
  | H : fifo_run _ [] _ _ |- _ => inversion H; clear H; subst
  | H : fifo_step _ (OpWrite _) _ _ |- _ => inversion H; clear H; subst
  | H : fifo_step _ (OpRead _) _ _ |- _ => inversion H; clear H; subst; try lia; try done
  | H : fifo_step _ (OpPeek _) _ _ |- _ => inversion H; clear H; subst; try lia
  end.
  done.
Qed.

(** C36. A pooled memory can be larger than the size it is requested for, and the
    buffer then wraps at its own size instead of at the end of the mapping: after
    three method calls of the package a buffer of two pages sits on a mapping of
    three, and five valid operations on it return bytes no FIFO returns. *)
Theorem pool_reuse_breaks_fifo :
  exists rb vm wd outs rb' wd',
    reuse_run = Ret (rb, wd) /\ rb_vm rb = Some vm /\ rb_Size rb = 8192 /\ vm_Size vm = 12288 /\
    contents rb = [] /\ ring_run rb wd reuse_ops = Ret (outs, rb', wd') /\
    forall c, ~ fifo_run [] reuse_ops outs c.
Proof.
  destruct reuse_run as [[rb wd]|p] eqn:Hrun; [|by vm_compute in Hrun].
  destruct (ring_run rb wd reuse_ops) as [[[outs rb'] wd']|p] eqn:Hops.
  - have Hlast : (out_bytes <$> last outs) ≫= last = Some x00.
    { have H : (match reuse_run ≫= fun '(rb, wd) => ring_run rb wd reuse_ops with
        | Ret (outs, _, _) => (out_bytes <$> last outs) ≫= last | Panic _ => None end) = Some x00
        by vm_compute.
      by rewrite Hrun bind_Ret Hops in H. }
    have Hshape : (match reuse_run with
      | Ret (rb, _) => match rb_vm rb with
          | Some vm => bool_decide (rb_Size rb = 8192 /\ vm_Size vm = 12288 /\ contents rb = [])
          | None => false end
      | Panic _ => false end) = true by vm_compute.
    rewrite Hrun in Hshape. destruct (rb_vm rb) as [vm|] eqn:Hvm; [|done].
    apply bool_decide_eq_true in Hshape as (? & ? & ?).
    exists rb, vm, wd, outs, rb', wd'. do 6 (split; [assumption || reflexivity|]). intros c Hc.
    apply fifo_reuse in Hc; [|done|lia|lia]. rewrite Hc in Hlast. by vm_compute in Hlast.
  - exfalso. have H : returns (reuse_run ≫= fun '(rb, wd) => ring_run rb wd reuse_ops) = true by vm_compute.
    by rewrite Hrun bind_Ret Hops in H.
Qed.

(** ** Witnesses of the departures *)

Definition one_byte_buffer : RingBuffer :=
  mkRB (Some (mkVM (replicate 4096 x00) 4096)) 4096 0 1 false.

Lemma discard_negative_rewinds_witness :
  exists rb', RingBuffer_Discard one_byte_buffer (-1) = Ret (-1, rb') /\
    RingBuffer_Peek rb' 1 = Panic PanicBounds.
Proof.
  destruct (discard_negative_rewinds (mkVM (replicate 4096 x00) 4096) one_byte_buffer (-1))
    as (rb' & H1 & _ & H2).
  - by split.
  - reflexivity.
  - reflexivity.
  - simpl. lia.
  - exists rb'. split; [exact H1|exact H2].
Defined.

Lemma read_from_eof_fills_witness :
  exists rb' wd', RingBuffer_ReadFrom byte_reader 1 page_buffer [] empty_world =
      Ret (Some (0, None, rb', wd', [])) /\ RingBuffer_Buffered rb' = 4096.
Proof.
  destruct (read_from_eof_fills byte_reader (mkVM (replicate 4096 x00) 4096) page_buffer empty_world [] [] 0)
    as (rb' & wd' & H1 & _ & H2 & _).
  - exact page_buffer_mapped.
  - reflexivity.
  - vm_compute. discriminate.
  - reflexivity.
  - exists rb', wd'. split; [exact H1|exact H2].
Defined.

(** A full buffer and a writer that takes nothing and reports no error. *)
Definition full_buffer : RingBuffer :=
  mkRB (Some (mkVM (replicate 4096 x00) 4096)) 4096 0 0 false.

Lemma write_to_full_loses_witness :
  exists rb', RingBuffer_WriteTo (fun wr _ => (0, None, wr)) full_buffer tt = Ret (0, None, rb', tt) /\
    contents rb' = [].
Proof.
  destruct (write_to_full_loses (fun wr _ => (0, None, wr)) full_buffer tt None tt)
    as (rb' & H1 & _ & H2).
  - right. exists (mkVM (replicate 4096 x00) 4096). by split.
  - reflexivity.
  - reflexivity.
  - exists rb'. split; [exact H1|exact H2].
Defined.
