(* ===== verification/LockFreeStack.v ===== *)
(** * LockFreeStack: [pkg/stack/stack_lf.go]

    The lock-free stack under every interleaving of its atomic operations.  A
    thread is a program counter with its local variables; one step executes one
    atomic operation of [Push] or [Pop] (a load, a compare-and-swap, an atomic
    add) or one access to a node.  Nodes are never reused while a thread can
    still hold their address (Go is garbage collected), so an allocation returns
    a new address. *)

From S2P Require Import Prelude.

Section Stack.
Context {T : Type}.
(** [getZero]: the zero value of [T]. *)
Variable getZero : T.

Record stack_node : Type := mkSNode {
  snode_value : T;
  snode_next : option nat
}.

(** Where a thread stands in [Push] or [Pop]; the argument [item] of the [Push]
    counters is the node the call allocated. *)
Inductive stack_pc : Type :=
| StackIdle
| PushLoad (item : nat)
| PushSet (item : nat) (top : option nat)
| PushCas (item : nat) (top : option nat)
| PushAdd
| PopLoad
| PopNext (top : nat)
| PopCas (top : nat) (next : option nat)
| PopAdd (top : nat).

Record Stack : Type := mkStack {
  st_heap : gmap nat stack_node;
  st_top : option nat;
  st_len : Z;
  st_next : nat;
  st_threads : gmap nat stack_pc
}.

Definition NewLockFreeStack : Stack := mkStack ∅ None 0 0 ∅.

(** What a step does to the abstract stack or returns to a caller. *)
Inductive stack_label : Type :=
| SInternal
| SCallPush (v : T)
| SCallPop
| SPushed (v : T)
| SPopped (v : T)
| SEmpty (v : T)
| SReturn (v : option T).

Definition st_goto (s : Stack) (t : nat) (pc : stack_pc) : Stack :=
  mkStack (st_heap s) (st_top s) (st_len s) (st_next s) (<[t := pc]> (st_threads s)).

(** The call of [Push(v)]: the node is allocated before the loop. *)
Definition Push_call (s : Stack) (t : nat) (v : T) : Stack :=
  mkStack (<[st_next s := mkSNode v None]> (st_heap s)) (st_top s) (st_len s) (S (st_next s))
    (<[t := PushLoad (st_next s)]> (st_threads s)).

Definition Pop_call (s : Stack) (t : nat) : Stack := st_goto s t PopLoad.

(** [atomic.CompareAndSwapPointer(&s.top, old, new)], with the counter to go to
    on success and the one on failure. *)
Definition cas_top (s : Stack) (t : nat) (old new : option nat) (yes no : stack_pc) : Stack * bool :=
  if decide (st_top s = old)
  then (mkStack (st_heap s) new (st_len s) (st_next s) (<[t := yes]> (st_threads s)), true)
  else (st_goto s t no, false).

(** One step of the body of [Push]; [None] is the access to a missing node. *)
Definition Push_step (s : Stack) (t : nat) (pc : stack_pc) : option (Stack * stack_label) :=
  match pc with
  | PushLoad item => Some (st_goto s t (PushSet item (st_top s)), SInternal)
  | PushSet item top =>
      n ← st_heap s !! item;
      Some (mkStack (<[item := mkSNode (snode_value n) top]> (st_heap s)) (st_top s) (st_len s)
              (st_next s) (<[t := PushCas item top]> (st_threads s)), SInternal)
  | PushCas item top =>
      n ← st_heap s !! item;
      let '(s, ok) := cas_top s t top (Some item) PushAdd (PushLoad item) in
      Some (s, if ok then SPushed (snode_value n) else SInternal)
  | PushAdd =>
      Some (mkStack (st_heap s) (st_top s) (uint64 (st_len s + 1)) (st_next s)
              (<[t := StackIdle]> (st_threads s)), SReturn None)
  | _ => None
  end.

(** One step of the body of [Pop]. *)
Definition Pop_step (s : Stack) (t : nat) (pc : stack_pc) : option (Stack * stack_label) :=
  match pc with
  | PopLoad =>
      match st_top s with
      | None => Some (st_goto s t StackIdle, SEmpty getZero)
      | Some top => Some (st_goto s t (PopNext top), SInternal)
      end
  | PopNext top =>
      n ← st_heap s !! top;
      Some (st_goto s t (PopCas top (snode_next n)), SInternal)
  | PopCas top next =>
      n ← st_heap s !! top;
      let '(s, ok) := cas_top s t (Some top) next (PopAdd top) PopLoad in
      Some (s, if ok then SPopped (snode_value n) else SInternal)
  | PopAdd top =>
      n ← st_heap s !! top;
      Some (mkStack (st_heap s) (st_top s) (uint64 (st_len s + uint64 (-1))) (st_next s)
              (<[t := StackIdle]> (st_threads s)), SReturn (Some (snode_value n)))
  | _ => None
  end.

(** The scheduler: a thread that is not inside a call starts one; a thread inside
    a call executes its next operation. *)
Inductive stack_act : Type :=
| ActPush (t : nat) (v : T)
| ActPop (t : nat)
| ActStep (t : nat).

Definition thread_pc (s : Stack) (t : nat) : stack_pc := default StackIdle (st_threads s !! t).

Definition is_idle (pc : stack_pc) : bool := if pc is StackIdle then true else false.

Definition is_push (pc : stack_pc) : bool :=
  match pc with PushLoad _ | PushSet _ _ | PushCas _ _ | PushAdd => true | _ => false end.

Definition stack_exec (s : Stack) (a : stack_act) : option (Stack * stack_label) :=
  match a with
  | ActPush t v => if is_idle (thread_pc s t) then Some (Push_call s t v, SCallPush v) else None
  | ActPop t => if is_idle (thread_pc s t) then Some (Pop_call s t, SCallPop) else None
  | ActStep t =>
      let pc := thread_pc s t in
      if is_push pc then Push_step s t pc else Pop_step s t pc
  end.

(** ** The abstract stack *)

(** [chain h p ls]: from [p] the nodes [ls] are linked, the last one to nil. *)
Fixpoint chain (h : gmap nat stack_node) (p : option nat) (ls : list nat) : Prop :=
  match ls with
  | [] => p = None
  | l :: ls => p = Some l /\ exists n, h !! l = Some n /\ chain h (snode_next n) ls
  end.

Fixpoint values (h : gmap nat stack_node) (ls : list nat) : list T :=
  match ls with
  | [] => []
  | l :: ls =>
      match h !! l with
      | Some n => snode_value n :: values h ls
      | None => values h ls
      end
  end.

(** The values on the stack, top first. *)
Definition on_stack (s : Stack) (vs : list T) : Prop :=
  exists ls, chain (st_heap s) (st_top s) ls /\ values (st_heap s) ls = vs.

(** ** The invariant *)

(** The node a pushing thread owns until it publishes it. *)
Definition owned (pc : stack_pc) : option nat :=
  match pc with PushLoad i | PushSet i _ | PushCas i _ => Some i | _ => None end.

(** What a program counter knows about the heap; [pub] are the nodes that have
    ever been published, whose links no longer change. *)
Definition pc_ok (h : gmap nat stack_node) (pub : gset nat) (pc : stack_pc) : Prop :=
  match pc with
  | PushLoad i | PushSet i _ => (i ∉ pub) /\ is_Some (h !! i)
  | PushCas i top => (i ∉ pub) /\ exists n, h !! i = Some n /\ snode_next n = top
  | PopNext top | PopAdd top => top ∈ pub
  | PopCas top next => (top ∈ pub) /\ exists n, h !! top = Some n /\ snode_next n = next
  | _ => True
  end.

Record stack_inv (s : Stack) (ls : list nat) (pub : gset nat) : Prop := {
  si_chain : chain (st_heap s) (st_top s) ls;
  si_sub : list_to_set ls ⊆ pub;
  si_heap l : l ∈ pub -> is_Some (st_heap s !! l);
  si_alloc l : is_Some (st_heap s !! l) -> (l < st_next s)%nat;
  si_pc t : pc_ok (st_heap s) pub (thread_pc s t);
  si_own t1 t2 i : owned (thread_pc s t1) = Some i -> owned (thread_pc s t2) = Some i -> t1 = t2
}.

Lemma chain_frame h h' p ls :
  (forall l, l ∈ ls -> h' !! l = h !! l) -> chain h p ls -> chain h' p ls.
Proof.
  revert p. induction ls as [|l ls IH]; intros p Hh; [done|].
  intros [-> (n & Hn & Hc)]. split; [done|]. exists n. split.
  - rewrite Hh //. set_solver.
  - apply IH; [set_solver|done].
Qed.

Lemma values_frame h h' ls :
  (forall l, l ∈ ls -> h' !! l = h !! l) -> values h' ls = values h ls.
Proof.
  induction ls as [|l ls IH]; intros Hh; [done|]. rewrite /= Hh; [set_solver|].
  rewrite IH //. set_solver.
Qed.

Lemma chain_det h p ls1 ls2 : chain h p ls1 -> chain h p ls2 -> ls1 = ls2.
Proof.
  revert p ls2. induction ls1 as [|l ls1 IH]; intros p [|l2 ls2]; simpl.
  { done. } { by intros -> [? _]. } { by intros [-> _] ?. }
  intros [-> (n & Hn & Hc)] [[= <-] (n2 & Hn2 & Hc2)]. simplify_eq. f_equal. by eapply IH.
Qed.

Lemma thread_pc_insert h top len nx ths t pc t' :
  thread_pc (mkStack h top len nx (<[t := pc]> ths)) t' =
    if decide (t = t') then pc else default StackIdle (ths !! t').
Proof. rewrite /thread_pc /= lookup_insert. by case_decide. Qed.

Lemma owned_pc_ok h pub pc i :
  pc_ok h pub pc -> owned pc = Some i -> (i ∉ pub) /\ is_Some (h !! i).
Proof. destruct pc; simpl; naive_solver. Qed.

(** A step of thread [t] keeps the invariant when it leaves the published nodes
    and the nodes owned by the other threads alone. *)
Lemma stack_inv_update s ls pub t pc h top len nx ls' pub' :
  stack_inv s ls pub ->
  chain h top ls' -> list_to_set ls' ⊆ pub' -> pub ⊆ pub' ->
  (forall l, l ∈ pub' -> is_Some (h !! l)) -> (forall l, is_Some (h !! l) -> (l < nx)%nat) ->
  (forall l, l ∈ pub -> h !! l = st_heap s !! l) ->
  (forall t' i, t <> t' -> owned (thread_pc s t') = Some i ->
     h !! i = st_heap s !! i /\ (i ∉ pub') /\ owned pc <> Some i) ->
  pc_ok h pub' pc ->
  stack_inv (mkStack h top len nx (<[t := pc]> (st_threads s))) ls' pub'.
Proof.
  intros Hinv Hch Hsub Hpub Hheap Halloc Hframe Hother Hpc.
  split; simpl; try done.
  - intros t'. rewrite thread_pc_insert. case_decide as Ht; [done|].
    have Hok := si_pc _ _ _ Hinv t'. have Ho := Hother t'. rewrite /thread_pc in Hok Ho.
    destruct (default StackIdle (st_threads s !! t')); simpl in *; try done.
    + destruct (Ho item Ht eq_refl) as (-> & ? & _). naive_solver.
    + destruct (Ho item Ht eq_refl) as (-> & ? & _). naive_solver.
    + destruct (Ho item Ht eq_refl) as (-> & ? & _). naive_solver.
    + set_solver.
    + destruct Hok as [Hin Hn]. rewrite Hframe //. set_solver.
    + set_solver.
  - intros t1 t2 i. rewrite !thread_pc_insert. repeat case_decide; intros H1 H2; subst; try done.
    + by destruct (Hother t2 i) as (_ & _ & []).
    + by destruct (Hother t1 i) as (_ & _ & []).
    + by eapply (si_own _ _ _ Hinv).
Qed.

(** What a label says about the abstract stack. *)
Definition label_ok (vs : list T) (l : stack_label) (vs' : list T) : Prop :=
  match l with
  | SPushed v => vs' = v :: vs
  | SPopped v => vs = v :: vs'
  | SEmpty v => vs = [] /\ vs' = [] /\ v = getZero
  | SInternal | SCallPush _ | SCallPop | SReturn _ => vs' = vs
  end.

Definition step_ok (s : Stack) (ls : list nat) (l : stack_label) (s' : Stack) : Prop :=
  exists ls' pub', stack_inv s' ls' pub' /\
    label_ok (values (st_heap s) ls) l (values (st_heap s') ls').

(** Steps that only move the program counter of [t]. *)
Lemma step_goto s ls pub t pc l :
  stack_inv s ls pub -> pc_ok (st_heap s) pub pc ->
  (forall i, owned pc = Some i -> owned (thread_pc s t) = Some i) ->
  label_ok (values (st_heap s) ls) l (values (st_heap s) ls) ->
  step_ok s ls l (st_goto s t pc).
Proof.
  intros Hinv Hpc Hown Hl. exists ls, pub. split; [|done]. destruct Hinv as [Hch Hsub Hh Ha Hpcs Ho].
  apply (stack_inv_update s ls pub); try done.
  intros t' i Ht Hi. have [? _] := owned_pc_ok _ _ _ _ (Hpcs t') Hi. do 2 (split; [done|]).
  intros Hi'%Hown. by destruct Ht; eapply Ho.
Qed.

(** Steps that only change the counter [len]. *)
Lemma step_len s ls pub t len v :
  stack_inv s ls pub ->
  step_ok s ls (SReturn v) (mkStack (st_heap s) (st_top s) len (st_next s) (<[t := StackIdle]> (st_threads s))).
Proof.
  intros Hinv. exists ls, pub. split; [|done]. have [Hch Hsub Hh Ha Hpcs Ho] := Hinv.
  apply (stack_inv_update s ls pub); try done.
  intros t' i Ht Hi. by have [? _] := owned_pc_ok _ _ _ _ (Hpcs t') Hi.
Qed.

Lemma step_push_call s ls pub t v :
  stack_inv s ls pub -> step_ok s ls (SCallPush v) (Push_call s t v).
Proof.
  intros Hinv. have [Hch Hsub Hh Ha Hpcs Ho] := Hinv. exists ls, pub.
  have Hnew : st_heap s !! st_next s = None.
  { apply eq_None_not_Some. intros Hs%Ha. lia. }
  have Hframe : forall l, l ∈ pub -> <[st_next s := mkSNode v None]> (st_heap s) !! l = st_heap s !! l.
  { intros l Hl. rewrite lookup_insert_ne //. intros <-. destruct (Hh _ Hl). congruence. }
  have Hls : forall l, l ∈ ls -> l ∈ pub by set_solver.
  split; [|symmetry; apply values_frame; symmetry; auto].
  apply (stack_inv_update s ls pub); try done.
  - by apply (chain_frame (st_heap s)); auto.
  - intros l Hl. rewrite Hframe //. auto.
  - intros l [n [[<- _]|[_ Hn]]%lookup_insert_Some]; [lia|]. have := Ha l ltac:(by eexists). lia.
  - intros t' i Ht Hi. have [Hnp Hs] := owned_pc_ok _ _ _ _ (Hpcs t') Hi.
    rewrite lookup_insert_ne; [intros <-; destruct Hs; congruence|].
    split; [done|]. split; [done|]. intros [= <-]. destruct Hs. congruence.
  - simpl. rewrite lookup_insert_eq. split; [|done]. intros Hp. destruct (Hh _ Hp). congruence.
Qed.

(** [item.next = top] on the node the thread owns. *)
Lemma step_push_set s ls pub t i top n :
  stack_inv s ls pub -> thread_pc s t = PushSet i top -> st_heap s !! i = Some n ->
  step_ok s ls SInternal
    (mkStack (<[i := mkSNode (snode_value n) top]> (st_heap s)) (st_top s) (st_len s) (st_next s)
       (<[t := PushCas i top]> (st_threads s))).
Proof.
  intros Hinv Hpc Hn. have [Hch Hsub Hh Ha Hpcs Ho] := Hinv. exists ls, pub.
  have Hip : i ∉ pub. { have := Hpcs t. rewrite Hpc. by intros [? _]. }
  have Hframe : forall l, l ∈ pub -> <[i := mkSNode (snode_value n) top]> (st_heap s) !! l = st_heap s !! l.
  { intros l Hl. rewrite lookup_insert_ne //. by intros <-. }
  have Hls : forall l, l ∈ ls -> l ∈ pub by set_solver.
  split; [|apply values_frame; auto].
  apply (stack_inv_update s ls pub); try done.
  - by apply (chain_frame (st_heap s)); auto.
  - intros l Hl. rewrite Hframe //. auto.
  - intros l [n' [[<- _]|[_ Hn']]%lookup_insert_Some]; apply Ha; by eexists.
  - intros t' j Ht Hj. have [Hnp Hs] := owned_pc_ok _ _ _ _ (Hpcs t') Hj.
    have Hij : i <> j. { intros <-. destruct Ht. eapply Ho; [|done]. by rewrite Hpc. }
    rewrite lookup_insert_ne //. split; [done|]. split; [done|]. simpl. congruence.
  - simpl. split; [done|]. eexists. by rewrite lookup_insert_eq.
Qed.

(** The successful compare-and-swap of [Push] publishes the node. *)
Lemma step_push_cas s ls pub t i n :
  stack_inv s ls pub -> thread_pc s t = PushCas i (st_top s) -> st_heap s !! i = Some n ->
  step_ok s ls (SPushed (snode_value n))
    (mkStack (st_heap s) (Some i) (st_len s) (st_next s) (<[t := PushAdd]> (st_threads s))).
Proof.
  intros Hinv Hpc Hn. have [Hch Hsub Hh Ha Hpcs Ho] := Hinv. exists (i :: ls), ({[i]} ∪ pub).
  have [Hip [n' [Hn' Htop]]] : i ∉ pub /\ exists n', st_heap s !! i = Some n' /\ snode_next n' = st_top s.
  { have := Hpcs t. by rewrite Hpc. }
  rewrite Hn in Hn'. simplify_eq. split; [|by rewrite /= Hn].
  apply (stack_inv_update s ls pub); try done.
  - split; [done|]. exists n'. rewrite Hn. by rewrite Htop.
  - set_solver.
  - set_solver.
  - intros l [->%elem_of_singleton|Hl]%elem_of_union; [by eexists|auto].
  - intros t' j Ht Hj. have [Hnp _] := owned_pc_ok _ _ _ _ (Hpcs t') Hj. split; [done|].
    split; [|done]. have Hij : i <> j. { intros <-. destruct Ht. eapply Ho; [|done]. by rewrite Hpc. }
    set_solver.
Qed.

(** The successful compare-and-swap of [Pop]: the link read before is still the
    link of the top node. *)
Lemma step_pop_cas s ls pub t top next n :
  stack_inv s ls pub -> thread_pc s t = PopCas top next -> st_top s = Some top ->
  st_heap s !! top = Some n ->
  step_ok s ls (SPopped (snode_value n))
    (mkStack (st_heap s) next (st_len s) (st_next s) (<[t := PopAdd top]> (st_threads s))).
Proof.
  intros Hinv Hpc Htop Hn. have [Hch Hsub Hh Ha Hpcs Ho] := Hinv.
  have [Hip [n' [Hn' Hnext]]] : top ∈ pub /\ exists n', st_heap s !! top = Some n' /\ snode_next n' = next.
  { have := Hpcs t. by rewrite Hpc. }
  rewrite Htop in Hch. destruct ls as [|l ls]; [done|]. destruct Hch as [[= <-] (n2 & Hn2 & Hch)].
  simplify_eq. exists ls, pub. split; [|by rewrite /= Hn].
  apply (stack_inv_update s (top :: ls) pub); try done.
  - set_solver.
  - intros t' j Ht Hj. have [Hnp _] := owned_pc_ok _ _ _ _ (Hpcs t') Hj. by split.
Qed.

Lemma stack_exec_ok s ls pub a s' l :
  stack_inv s ls pub -> stack_exec s a = Some (s', l) -> step_ok s ls l s'.
Proof.
  intros Hinv. destruct a as [t v|t|t]; simpl.
  - destruct (is_idle _); [|done]. intros [= <- <-]. by eapply step_push_call.
  - destruct (is_idle _); [|done]. intros [= <- <-]. by eapply step_goto.
  - have Hpc := si_pc _ _ _ Hinv t. destruct (thread_pc s t) as [|i|i top|i top| | |top|top next|top] eqn:Ht;
      simpl in *.
    + done.
    + intros [= <- <-]. eapply step_goto; try done. by rewrite Ht.
    + destruct (st_heap s !! i) as [n|] eqn:Hn; [|done]. intros [= <- <-]. by eapply step_push_set.
    + destruct (st_heap s !! i) as [n|] eqn:Hn; [|done]. rewrite /= /cas_top. case_decide; intros [= <- <-].
      * subst top. by eapply step_push_cas.
      * eapply step_goto; try done; [|by rewrite Ht]. simpl. by destruct Hpc as [? (? & ? & _)].
    + intros [= <- <-]. by eapply step_len.
    + destruct (st_top s) as [top|] eqn:Htop; intros [= <- <-]; eapply step_goto; try done.
      * have Hch := si_chain _ _ _ Hinv. have Hsub := si_sub _ _ _ Hinv.
        rewrite Htop in Hch. destruct ls; [done|]. destruct Hch as [[= <-] _]. set_solver.
      * have Hch := si_chain _ _ _ Hinv. rewrite Htop in Hch. destruct ls; [done|]. by destruct Hch.
    + destruct (st_heap s !! top) as [n|] eqn:Hn; [|done]. intros [= <- <-].
      eapply step_goto; try done. simpl. eauto.
    + destruct (st_heap s !! top) as [n|] eqn:Hn; [|done]. rewrite /= /cas_top. case_decide; intros [= <- <-].
      * by eapply step_pop_cas.
      * by eapply step_goto.
    + destruct (st_heap s !! top) as [n|] eqn:Hn; [|done]. intros [= <- <-]. by eapply step_len.
Qed.

(** ** The specification

    A client sees calls and returns.  The specification is a list; a pending call
    takes effect on it at one step between its call and its return, and returns
    what it took there. *)
Inductive stack_call : Type :=
| PendingPush (v : T)
| PendingPop
| Finished (r : option T).

Inductive stack_spec : list T * gmap nat stack_call -> nat * stack_label -> list T * gmap nat stack_call -> Prop :=
| spec_internal vs p t : stack_spec (vs, p) (t, SInternal) (vs, p)
| spec_call_push vs p t v :
    p !! t = None -> stack_spec (vs, p) (t, SCallPush v) (vs, <[t := PendingPush v]> p)
| spec_call_pop vs p t :
    p !! t = None -> stack_spec (vs, p) (t, SCallPop) (vs, <[t := PendingPop]> p)
| spec_push vs p t v :
    p !! t = Some (PendingPush v) -> stack_spec (vs, p) (t, SPushed v) (v :: vs, <[t := Finished None]> p)
| spec_pop vs p t v :
    p !! t = Some PendingPop -> stack_spec (v :: vs, p) (t, SPopped v) (vs, <[t := Finished (Some v)]> p)
| spec_empty p t :
    p !! t = Some PendingPop -> stack_spec ([], p) (t, SEmpty getZero) ([], delete t p)
| spec_return vs p t r :
    p !! t = Some (Finished r) -> stack_spec (vs, p) (t, SReturn r) (vs, delete t p).

Inductive stack_spec_run : list T * gmap nat stack_call -> list (nat * stack_label) -> list T * gmap nat stack_call -> Prop :=
| spec_run_nil a : stack_spec_run a [] a
| spec_run_snoc a tr b e c :
    stack_spec_run a tr b -> stack_spec b e c -> stack_spec_run a (tr ++ [e]) c.

(** A run of the code: a schedule and the trace it produces. *)
Definition act_thread (a : stack_act) : nat :=
  match a with ActPush t _ | ActPop t | ActStep t => t end.

Fixpoint stack_run (s : Stack) (acts : list stack_act) : option (Stack * list (nat * stack_label)) :=
  match acts with
  | [] => Some (s, [])
  | a :: acts =>
      '(s', l) ← stack_exec s a;
      '(s'', tr) ← stack_run s' acts;
      Some (s'', (act_thread a, l) :: tr)
  end.

(** The pending call a program counter stands for. *)
Definition call_ok (h : gmap nat stack_node) (pc : stack_pc) (c : option stack_call) : Prop :=
  match pc with
  | StackIdle => c = None
  | PushLoad i | PushSet i _ | PushCas i _ => exists n, h !! i = Some n /\ c = Some (PendingPush (snode_value n))
  | PushAdd => c = Some (Finished None)
  | PopLoad | PopNext _ | PopCas _ _ => c = Some PendingPop
  | PopAdd top => exists n, h !! top = Some n /\ c = Some (Finished (Some (snode_value n)))
  end.

(** [len] is updated after the compare-and-swap, so it lags behind by the calls
    that have not executed their atomic add yet. *)
Definition len_lag (pc : stack_pc) : Z :=
  match pc with PushAdd => -1 | PopAdd _ => 1 | _ => 0 end.

Record stack_sim (s : Stack) (vs : list T) (p : gmap nat stack_call) : Prop := {
  ss_inv : exists ls pub, stack_inv s ls pub /\ values (st_heap s) ls = vs;
  ss_calls t : call_ok (st_heap s) (thread_pc s t) (p !! t);
  ss_len : st_len s = uint64 (zlen vs + map_sum len_lag (st_threads s))
}.

(** The value of an allocated node never changes. *)
Definition heap_grows (h h' : gmap nat stack_node) : Prop :=
  forall i n, h !! i = Some n -> exists n', h' !! i = Some n' /\ snode_value n' = snode_value n.

Lemma heap_grows_refl h : heap_grows h h.
Proof. intros i n. eauto. Qed.

Lemma call_ok_grows h h' pc c : heap_grows h h' -> call_ok h pc c -> call_ok h' pc c.
Proof.
  intros Hg. destruct pc; simpl; try done; intros (n & Hn & ->);
    destruct (Hg _ _ Hn) as (n' & Hn' & <-); eauto.
Qed.

Lemma map_sum_lag s t pc :
  map_sum len_lag (<[t := pc]> (st_threads s)) =
    map_sum len_lag (st_threads s) + len_lag pc - len_lag (thread_pc s t).
Proof. rewrite map_sum_insert /thread_pc. by destruct (st_threads s !! t). Qed.

(** The pending calls of the other threads are untouched by a step. *)
Lemma calls_update s (p : gmap nat stack_call) t pc h top len nx c :
  (forall t', call_ok (st_heap s) (thread_pc s t') (p !! t')) ->
  heap_grows (st_heap s) h -> call_ok h pc c ->
  forall t', call_ok h (thread_pc (mkStack h top len nx (<[t := pc]> (st_threads s))) t')
               (partial_alter (fun _ => c) t p !! t').
Proof.
  intros Hc Hg Hpc t'. rewrite thread_pc_insert. case_decide as Ht.
  - subst t'. by rewrite lookup_partial_alter_eq.
  - rewrite lookup_partial_alter_ne //. exact (call_ok_grows _ _ _ _ Hg (Hc t')).
Qed.

Lemma sim_update s vs p t pc h top len nx c ls' pub' vs' :
  stack_sim s vs p ->
  stack_inv (mkStack h top len nx (<[t := pc]> (st_threads s))) ls' pub' -> values h ls' = vs' ->
  heap_grows (st_heap s) h -> call_ok h pc c ->
  len = uint64 (zlen vs' + map_sum len_lag (st_threads s) + len_lag pc - len_lag (thread_pc s t)) ->
  stack_sim (mkStack h top len nx (<[t := pc]> (st_threads s))) vs' (partial_alter (fun _ => c) t p).
Proof.
  intros [_ Hc _] Hinv' Hvs Hg Hpc Hlen. split; simpl.
  - eauto.
  - by eapply calls_update.
  - rewrite map_sum_lag Hlen. f_equal. lia.
Qed.

(** A step that keeps the counter [len] and the heap. *)
Lemma sim_same s vs p t pc top c ls' pub' vs' :
  stack_sim s vs p ->
  stack_inv (mkStack (st_heap s) top (st_len s) (st_next s) (<[t := pc]> (st_threads s))) ls' pub' ->
  values (st_heap s) ls' = vs' -> call_ok (st_heap s) pc c ->
  zlen vs = zlen vs' + len_lag pc - len_lag (thread_pc s t) ->
  stack_sim (mkStack (st_heap s) top (st_len s) (st_next s) (<[t := pc]> (st_threads s))) vs'
    (partial_alter (fun _ => c) t p).
Proof.
  intros Hsim Hinv' Hvs Hpc Hz. eapply sim_update; try done; [apply heap_grows_refl|].
  rewrite (ss_len _ _ _ Hsim). f_equal. lia.
Qed.

Lemma sim_push_call s vs p t v ls' pub' :
  stack_sim s vs p -> thread_pc s t = StackIdle ->
  stack_inv (Push_call s t v) ls' pub' -> values (st_heap (Push_call s t v)) ls' = vs ->
  stack_sim (Push_call s t v) vs (<[t := PendingPush v]> p).
Proof.
  intros Hsim Ht Hinv' Hvs. destruct (ss_inv _ _ _ Hsim) as (ls & pub & Hinv & _).
  eapply sim_update; try done.
  - intros i n Hi. rewrite lookup_insert_ne; [|eauto].
    intros <-. have := si_alloc _ _ _ Hinv (st_next s) ltac:(eauto). lia.
  - simpl. rewrite lookup_insert_eq. eauto.
  - rewrite Ht (ss_len _ _ _ Hsim) /=. f_equal. lia.
Qed.

Lemma sim_push_set s vs p t i top n ls' pub' :
  let s' := mkStack (<[i := mkSNode (snode_value n) top]> (st_heap s)) (st_top s) (st_len s)
              (st_next s) (<[t := PushCas i top]> (st_threads s)) in
  stack_sim s vs p -> thread_pc s t = PushSet i top -> st_heap s !! i = Some n ->
  stack_inv s' ls' pub' -> values (st_heap s') ls' = vs -> stack_sim s' vs p.
Proof.
  intros s' Hsim Ht Hn Hinv' Hvs. have Hc := ss_calls _ _ _ Hsim t.
  rewrite Ht /= Hn in Hc. destruct Hc as (n' & [= <-] & Hp).
  rewrite -(partial_alter_self p t) Hp.
  eapply sim_update; try done.
  - intros j m Hj. rewrite lookup_insert. case_decide; [|eauto]. simplify_eq. eauto.
  - simpl. rewrite lookup_insert_eq. eauto.
  - rewrite Ht (ss_len _ _ _ Hsim) /=. f_equal. lia.
Qed.

(** A step inside the code of a call. *)
Lemma sim_goto s vs p t pc ls' pub' :
  stack_sim s vs p -> stack_inv (st_goto s t pc) ls' pub' -> values (st_heap s) ls' = vs ->
  call_ok (st_heap s) pc (p !! t) -> len_lag pc = len_lag (thread_pc s t) ->
  stack_sim (st_goto s t pc) vs p.
Proof.
  intros. rewrite -(partial_alter_self p t). eapply sim_same; try done. lia.
Qed.

(** The last step of a call: the atomic add. *)
Lemma sim_return s vs p t d ls' pub' :
  let s' := mkStack (st_heap s) (st_top s) (uint64 (st_len s + d)) (st_next s)
              (<[t := StackIdle]> (st_threads s)) in
  stack_sim s vs p -> stack_inv s' ls' pub' -> values (st_heap s) ls' = vs ->
  uint64 d = uint64 (- len_lag (thread_pc s t)) ->
  stack_sim s' vs (delete t p).
Proof.
  intros s' Hsim Hinv' Hvs Hd. eapply sim_update; try done; [apply heap_grows_refl|].
  rewrite (ss_len _ _ _ Hsim) wrap_u_add -wrap_u_add_r Hd wrap_u_add_r. f_equal. simpl. lia.
Qed.

(** Every step of the code is a step of the specification. *)
Lemma stack_exec_sim s vs p a s' l :
  stack_sim s vs p -> stack_exec s a = Some (s', l) ->
  exists vs' p', stack_spec (vs, p) (act_thread a, l) (vs', p') /\ stack_sim s' vs' p'.
Proof.
  intros Hsim Hexec. destruct (ss_inv _ _ _ Hsim) as (ls & pub & Hinv & Hvs).
  destruct (stack_exec_ok _ _ _ _ _ _ Hinv Hexec) as (ls' & pub' & Hinv' & Hl).
  have Hc := ss_calls _ _ _ Hsim (act_thread a).
  rewrite Hvs in Hl. remember (values (st_heap s') ls') as vs' eqn:Hvs'. symmetry in Hvs'.
  destruct a as [t v|t|t]; simpl in *.
  - destruct (thread_pc s t) eqn:Ht; try done. injection Hexec as <- <-. simpl in Hl. subst vs'.
    eexists _, _. split; [by constructor|by eapply sim_push_call].
  - destruct (thread_pc s t) eqn:Ht; try done. injection Hexec as <- <-. simpl in Hl. subst vs'.
    eexists _, _. split; [by constructor|]. eapply sim_same; try done. rewrite Ht. simpl. lia.
  - destruct (thread_pc s t) as [|i|i top|i top| | |top|top next|top] eqn:Ht; simpl in *.
    + done.
    + injection Hexec as <- <-. simpl in Hl. subst vs'. eexists _, _. split; [by constructor|].
      eapply sim_goto; try done. by rewrite Ht.
    + destruct (st_heap s !! i) as [n|] eqn:Hn; [|done]. injection Hexec as <- <-. simpl in Hl. subst vs'.
      eexists _, _. split; [by constructor|]. by eapply sim_push_set.
    + destruct Hc as (n & Hn & Hp). rewrite Hn /= /cas_top in Hexec.
      case_decide; injection Hexec as <- <-; simpl in Hl; subst vs'.
      * eexists _, _. split; [by constructor|]. eapply sim_same; try done.
        rewrite Ht /zlen /=. lia.
      * eexists _, _. split; [by constructor|]. eapply sim_goto; try done; [by eexists|by rewrite Ht].
    + injection Hexec as <- <-. simpl in Hl. subst vs'. eexists _, _. split; [by constructor|].
      eapply sim_return; try done. by rewrite Ht.
    + destruct (st_top s) as [top|]; injection Hexec as <- <-; simpl in Hl.
      * subst vs'. eexists _, _. split; [by constructor|]. eapply sim_goto; try done. by rewrite Ht.
      * destruct Hl as (Hl & -> & _). rewrite Hl in Hsim Hvs *. eexists _, _. split; [by constructor|].
        eapply sim_same; try done. rewrite Ht. simpl. lia.
    + destruct (st_heap s !! top) as [n|] eqn:Hn; [|done]. injection Hexec as <- <-. simpl in Hl. subst vs'.
      eexists _, _. split; [by constructor|]. eapply sim_goto; try done. by rewrite Ht.
    + destruct (st_heap s !! top) as [n|] eqn:Hn; [|done]. rewrite /= /cas_top in Hexec.
      case_decide; injection Hexec as <- <-; simpl in Hl.
      * rewrite Hl in Hsim Hvs *. eexists _, _. split; [by constructor|]. eapply sim_same; try done; [by eexists|].
        rewrite Ht /zlen /=. lia.
      * subst vs'. eexists _, _. split; [by constructor|]. eapply sim_goto; try done. by rewrite Ht.
    + destruct Hc as (n & Hn & Hp). rewrite Hn /= in Hexec. injection Hexec as <- <-. simpl in Hl. subst vs'.
      eexists _, _. split; [by constructor|]. eapply sim_return; try done. by rewrite Ht.
Qed.

Lemma stack_sim_new : stack_sim NewLockFreeStack [] ∅.
Proof.
  split; [|intros t; by rewrite /thread_pc /= !lookup_empty|done].
  exists [], ∅. split; [|done]. split; try done. intros t. by rewrite /thread_pc /= lookup_empty.
Qed.

Lemma stack_run_app s acts1 acts2 :
  stack_run s (acts1 ++ acts2) =
    ('(s1, tr1) ← stack_run s acts1; '(s2, tr2) ← stack_run s1 acts2; Some (s2, tr1 ++ tr2)).
Proof.
  revert s. induction acts1 as [|a acts1 IH]; intros s; simpl.
  - by destruct (stack_run s acts2) as [[??]|].
  - destruct (stack_exec s a) as [[s' l]|]; [|done]. simpl. rewrite IH.
    destruct (stack_run s' acts1) as [[s1 tr1]|]; [|done]. simpl.
    by destruct (stack_run s1 acts2) as [[??]|].
Qed.

Lemma stack_run_sim acts s tr :
  stack_run NewLockFreeStack acts = Some (s, tr) ->
  exists vs p, stack_spec_run ([], ∅) tr (vs, p) /\ stack_sim s vs p.
Proof.
  revert s tr. induction acts as [|a acts IH] using rev_ind; intros s tr.
  - intros [= <- <-]. exists [], ∅. split; [constructor|apply stack_sim_new].
  - rewrite stack_run_app. destruct (stack_run _ acts) as [[s1 tr1]|] eqn:Hrun; [|done]. simpl.
    destruct (stack_exec s1 a) as [[s2 l]|] eqn:Hexec; [|done]. simpl. intros [= <- <-].
    destruct (IH _ _ eq_refl) as (vs & p & Hspec & Hsim).
    destruct (stack_exec_sim _ _ _ _ _ _ Hsim Hexec) as (vs' & p' & Hstep & Hsim').
    exists vs', p'. split; [by econstructor|done].
Qed.

(** ** Progress *)

(** How many operations a thread that runs alone still has to execute. *)
Definition solo_rank (cur : option nat) (pc : stack_pc) : nat :=
  (match pc with
  | StackIdle => 0
  | PushAdd | PopAdd _ => 1
  | PushCas _ top => if decide (cur = top) then 2 else 5
  | PushSet _ top => if decide (cur = top) then 3 else 6
  | PushLoad _ => 4
  | PopCas top _ => if decide (cur = Some top) then 2 else 5
  | PopNext top => if decide (cur = Some top) then 3 else 6
  | PopLoad => 4
  end)%nat.

#[local] Ltac solve_rank :=
  eexists _, _; split; [reflexivity|]; rewrite /st_goto thread_pc_insert decide_True //=;
  repeat case_decide; (lia || congruence).

Lemma stack_step_rank s vs p t :
  stack_sim s vs p -> thread_pc s t <> StackIdle ->
  exists s' l, stack_exec s (ActStep t) = Some (s', l) /\
    (solo_rank (st_top s') (thread_pc s' t) < solo_rank (st_top s) (thread_pc s t))%nat.
Proof.
  intros Hsim. destruct (ss_inv _ _ _ Hsim) as (ls & pub & Hinv & _).
  have Hpc := si_pc _ _ _ Hinv t. have Hc := ss_calls _ _ _ Hsim t.
  have Hheap := si_heap _ _ _ Hinv. rewrite /stack_exec.
  destruct (thread_pc s t) as [|i|i top|i top| | |top|top next|top] eqn:Ht;
    cbn [is_push Push_step Pop_step]; intros Hne; try done.
  - solve_rank.
  - destruct Hc as (n & -> & _). solve_rank.
  - destruct Hc as (n & -> & _). rewrite /= /cas_top. case_decide; solve_rank.
  - solve_rank.
  - destruct (st_top s) as [top|] eqn:Htop; solve_rank.
  - destruct (Hheap _ Hpc) as [n ->]. solve_rank.
  - destruct Hpc as [_ (n & -> & _)]. rewrite /= /cas_top. case_decide; solve_rank.
  - destruct Hc as (n & -> & _). solve_rank.
Qed.

Fixpoint solo (s : Stack) (t : nat) (fuel : nat) : option Stack :=
  match fuel with
  | O => Some s
  | S fuel => if is_idle (thread_pc s t) then Some s else '(s', _) ← stack_exec s (ActStep t); solo s' t fuel
  end.

Lemma solo_idle fuel s vs p t :
  stack_sim s vs p -> (solo_rank (st_top s) (thread_pc s t) <= fuel)%nat ->
  exists s', solo s t fuel = Some s' /\ thread_pc s' t = StackIdle.
Proof.
  revert s vs p. induction fuel as [|fuel IH]; intros s vs p Hsim Hr.
  - exists s. split; [done|]. rewrite /solo_rank in Hr. destruct (thread_pc s t); repeat case_decide; done || lia.
  - simpl. destruct (is_idle (thread_pc s t)) eqn:Hi.
    { exists s. split; [done|]. by destruct (thread_pc s t). }
    destruct (stack_step_rank s vs p t Hsim) as (s' & l & Hexec & Hlt); [by intros Heq; rewrite Heq in Hi|].
    simpl in Hexec. rewrite Hexec /=. destruct (stack_exec_sim _ _ _ (ActStep t) _ _ Hsim Hexec) as (vs' & p' & _ & Hsim').
    eapply IH; [done|lia].
Qed.

Lemma solo_rank_le cur pc : (solo_rank cur pc <= 6)%nat.
Proof. rewrite /solo_rank. destruct pc; repeat case_decide; lia. Qed.

End Stack.

(** ** Properties *)

Section StackProperties.
Context {T : Type}.
Variable getZero : T.

(** C9. The lock-free stack is linearizable under every interleaving: the trace of
    calls, compare-and-swaps and returns of any schedule is a trace of the
    sequential stack in which each call takes effect once between its call and its
    return, [Pop] returns the value it took or the zero value on an empty stack,
    and the nodes reachable from [top] are the values of the sequential stack. *)
Theorem stack_linearizable acts (s : Stack) tr :
  stack_run getZero NewLockFreeStack acts = Some (s, tr) ->
  exists vs p, stack_spec_run getZero ([], ∅) tr (vs, p) /\ on_stack s vs.
Proof.
  intros Hrun. destruct (stack_run_sim getZero _ _ _ Hrun) as (vs & p & Hspec & Hsim).
  exists vs, p. split; [done|]. destruct (ss_inv _ _ _ Hsim) as (ls & pub & Hinv & Hvs).
  exists ls. split; [|done]. apply (si_chain _ _ _ Hinv).
Qed.

(** C26. A thread inside [Push] or [Pop] of the lock-free stack is never stuck on a
    missing node, and from any reachable state it returns within six of its own
    operations when no other thread runs. *)
Theorem stack_solo_returns acts (s : Stack) tr t :
  stack_run getZero NewLockFreeStack acts = Some (s, tr) ->
  exists s', solo getZero s t 6 = Some s' /\ thread_pc s' t = StackIdle.
Proof.
  intros Hrun. destruct (stack_run_sim getZero _ _ _ Hrun) as (vs & p & _ & Hsim).
  eapply solo_idle; [done|]. apply solo_rank_le.
Qed.

(** When no call is in progress the counter [len] of the lock-free stack is
    the number of its values modulo [2^64]; in between it differs by the calls
    that have not executed their atomic add. *)
Theorem stack_len_counts acts (s : Stack) tr vs :
  stack_run getZero NewLockFreeStack acts = Some (s, tr) -> on_stack s vs ->
  st_len s = uint64 (zlen vs + map_sum len_lag (st_threads s)).
Proof.
  intros Hrun (ls & Hch & Hvs). destruct (stack_run_sim getZero _ _ _ Hrun) as (vs' & p & _ & Hsim).
  destruct (ss_inv _ _ _ Hsim) as (ls' & pub & Hinv & <-).
  rewrite (ss_len _ _ _ Hsim). by rewrite -Hvs (chain_det _ _ _ _ Hch (si_chain _ _ _ Hinv)).
Qed.

End StackProperties.

(** *** A schedule in which a push overtakes another and a pop takes its value *)
Definition two_pushes : list (stack_act (T := Z)) :=
  [ActPush 0 7; ActPush 1 9; ActStep 0; ActStep 1; ActStep 1; ActStep 1; ActStep 0; ActStep 0;
   ActStep 0; ActStep 0; ActStep 0; ActPop 2; ActStep 2; ActStep 2; ActStep 2].

Definition run_end (z : Z) acts : Stack (T := Z) * list (nat * stack_label (T := Z)) :=
  default (NewLockFreeStack, []) (stack_run z NewLockFreeStack acts).

Lemma stack_linearizable_witness :
  exists vs p, stack_spec_run 0 ([], ∅) (run_end 0 two_pushes).2 (vs, p) /\
    on_stack (run_end 0 two_pushes).1 vs.
Proof. apply (stack_linearizable 0 two_pushes). vm_compute. reflexivity. Defined.

Lemma stack_solo_returns_witness :
  exists s', solo 0 (run_end 0 two_pushes).1 2 6 = Some s' /\ thread_pc s' 2 = StackIdle.
Proof. apply (stack_solo_returns 0 two_pushes _ (run_end 0 two_pushes).2). vm_compute. reflexivity. Defined.

Lemma stack_len_counts_witness :
  st_len (run_end 0 two_pushes).1 = uint64 (zlen [9] + map_sum len_lag (st_threads (run_end 0 two_pushes).1)).
Proof.
  apply (stack_len_counts 0 two_pushes _ (run_end 0 two_pushes).2); [vm_compute; reflexivity|].
  exists [1%nat]. split; [|reflexivity]. split; [vm_compute; reflexivity|]. eexists. split; vm_compute; reflexivity.
Defined.
