(* ===== verification/MsQueue.v ===== *)
(** * MsQueue: [pkg/queue/queue_ms.go]

    The Michael-Scott queue under every interleaving of its atomic operations, in
    the style of [LockFreeStack]: a thread is a program counter with its local
    variables, and one step executes one atomic operation of [Enqueue] or
    [Dequeue].  The queue carries the asynchronous operations and the accepted
    connections from other goroutines to a worker, which empties it with
    [for !q.IsEmpty() { q.Dequeue() }]. *)

From S2P Require Import Prelude.

Section Queue.
Context {T : Type}.
(** [getZero]: the zero value of [T]. *)
Variable getZero : T.

(** [value] is a pointer; the first node has none. *)
Record queue_node : Type := mkQNode {
  qnode_value : option T;
  qnode_next : option nat
}.

Inductive queue_pc : Type :=
| QueueIdle
| EnqTail (node : nat)
| EnqNext (node tail : nat)
| EnqCheck (node tail : nat) (next : option nat)
| EnqCas (node tail : nat)
| EnqHelp (node tail next : nat)
| EnqSwing (node tail : nat)
| EnqAdd
| DeqHead
| DeqTail (head : nat)
| DeqNext (head tail : nat)
| DeqCheck (head tail : nat) (next : option nat)
| DeqHelp (tail next : nat)
| DeqValue (head : nat) (next : option nat)
| DeqCas (head next : nat) (value : T)
| DeqAdd (value : T).

Record msQueue : Type := mkQueue {
  q_heap : gmap nat queue_node;
  q_head : nat;
  q_tail : nat;
  q_size : Z;
  q_next : nat;
  q_threads : gmap nat queue_pc
}.

Definition NewQueue : msQueue := mkQueue {[0%nat := mkQNode None None]} 0 0 0 1 ∅.

Definition IsEmpty (q : msQueue) : bool := q_size q =? 0.
Definition Size (q : msQueue) : Z := q_size q.

(** What a step does to the abstract queue or returns to a caller;
    [QSawEmpty] is the load that finds no successor of the head. *)
Inductive queue_label : Type :=
| QInternal
| QCallEnq (v : T)
| QCallDeq
| QEnqueued (v : T)
| QDequeued (v : T)
| QSawEmpty
| QReturnEmpty (v : T)
| QReturn (v : option T).

Definition q_goto (q : msQueue) (t : nat) (pc : queue_pc) : msQueue :=
  mkQueue (q_heap q) (q_head q) (q_tail q) (q_size q) (q_next q) (<[t := pc]> (q_threads q)).

(** [cas(&q.tail, tail, new)]: the result is not looked at. *)
Definition cas_tail (q : msQueue) (t tail new : nat) (pc : queue_pc) : msQueue :=
  mkQueue (q_heap q) (q_head q) (if decide (q_tail q = tail) then new else q_tail q) (q_size q)
    (q_next q) (<[t := pc]> (q_threads q)).

(** The call of [Enqueue(value)]: the node is allocated before the loop. *)
Definition Enqueue_call (q : msQueue) (t : nat) (v : T) : msQueue :=
  mkQueue (<[q_next q := mkQNode (Some v) None]> (q_heap q)) (q_head q) (q_tail q) (q_size q)
    (S (q_next q)) (<[t := EnqTail (q_next q)]> (q_threads q)).

Definition Dequeue_call (q : msQueue) (t : nat) : msQueue := q_goto q t DeqHead.

(** One step of the body of [Enqueue]; [None] is the access to a missing node. *)
Definition Enqueue_step (q : msQueue) (t : nat) (pc : queue_pc) : option (msQueue * queue_label) :=
  match pc with
  | EnqTail node => Some (q_goto q t (EnqNext node (q_tail q)), QInternal)
  | EnqNext node tail =>
      n ← q_heap q !! tail;
      Some (q_goto q t (EnqCheck node tail (qnode_next n)), QInternal)
  | EnqCheck node tail next =>
      Some (q_goto q t
              (if decide (tail = q_tail q)
               then match next with None => EnqCas node tail | Some next => EnqHelp node tail next end
               else EnqTail node), QInternal)
  | EnqCas node tail =>
      n ← q_heap q !! tail;
      new ← q_heap q !! node;
      v ← qnode_value new;
      match qnode_next n with
      | None =>
          Some (mkQueue (<[tail := mkQNode (qnode_value n) (Some node)]> (q_heap q)) (q_head q) (q_tail q)
                  (q_size q) (q_next q) (<[t := EnqSwing node tail]> (q_threads q)), QEnqueued v)
      | Some _ => Some (q_goto q t (EnqTail node), QInternal)
      end
  | EnqHelp node tail next => Some (cas_tail q t tail next (EnqTail node), QInternal)
  | EnqSwing node tail => Some (cas_tail q t tail node EnqAdd, QInternal)
  | EnqAdd =>
      Some (mkQueue (q_heap q) (q_head q) (q_tail q) (int32 (q_size q + 1)) (q_next q)
              (<[t := QueueIdle]> (q_threads q)), QReturn None)
  | _ => None
  end.

(** One step of the body of [Dequeue]; [None] is also the dereference of nil. *)
Definition Dequeue_step (q : msQueue) (t : nat) (pc : queue_pc) : option (msQueue * queue_label) :=
  match pc with
  | DeqHead => Some (q_goto q t (DeqTail (q_head q)), QInternal)
  | DeqTail head => Some (q_goto q t (DeqNext head (q_tail q)), QInternal)
  | DeqNext head tail =>
      n ← q_heap q !! head;
      Some (q_goto q t (DeqCheck head tail (qnode_next n)),
            match qnode_next n with None => QSawEmpty | Some _ => QInternal end)
  | DeqCheck head tail next =>
      if decide (head = q_head q) then
        if decide (head = tail) then
          match next with
          | None => Some (q_goto q t QueueIdle, QReturnEmpty getZero)
          | Some next => Some (q_goto q t (DeqHelp tail next), QInternal)
          end
        else Some (q_goto q t (DeqValue head next), QInternal)
      else Some (q_goto q t DeqHead, QInternal)
  | DeqHelp tail next => Some (cas_tail q t tail next DeqHead, QInternal)
  | DeqValue head next =>
      next ← next;
      n ← q_heap q !! next;
      v ← qnode_value n;
      Some (q_goto q t (DeqCas head next v), QInternal)
  | DeqCas head next v =>
      if decide (q_head q = head) then
        Some (mkQueue (q_heap q) next (q_tail q) (q_size q) (q_next q)
                (<[t := DeqAdd v]> (q_threads q)), QDequeued v)
      else Some (q_goto q t DeqHead, QInternal)
  | DeqAdd v =>
      Some (mkQueue (q_heap q) (q_head q) (q_tail q) (int32 (q_size q - 1)) (q_next q)
              (<[t := QueueIdle]> (q_threads q)), QReturn (Some v))
  | _ => None
  end.

Inductive queue_act : Type :=
| ActEnqueue (t : nat) (v : T)
| ActDequeue (t : nat)
| ActRun (t : nat).

Definition queue_thread_pc (q : msQueue) (t : nat) : queue_pc := default QueueIdle (q_threads q !! t).

Definition queue_idle (pc : queue_pc) : bool := if pc is QueueIdle then true else false.

Definition in_enqueue (pc : queue_pc) : bool :=
  match pc with
  | EnqTail _ | EnqNext _ _ | EnqCheck _ _ _ | EnqCas _ _ | EnqHelp _ _ _ | EnqSwing _ _ | EnqAdd => true
  | _ => false
  end.

Definition queue_exec (q : msQueue) (a : queue_act) : option (msQueue * queue_label) :=
  match a with
  | ActEnqueue t v => if queue_idle (queue_thread_pc q t) then Some (Enqueue_call q t v, QCallEnq v) else None
  | ActDequeue t => if queue_idle (queue_thread_pc q t) then Some (Dequeue_call q t, QCallDeq) else None
  | ActRun t =>
      let pc := queue_thread_pc q t in
      if in_enqueue pc then Enqueue_step q t pc else Dequeue_step q t pc
  end.

Definition queue_act_thread (a : queue_act) : nat :=
  match a with ActEnqueue t _ | ActDequeue t | ActRun t => t end.

Fixpoint queue_run (q : msQueue) (acts : list queue_act) : option (msQueue * list (nat * queue_label)) :=
  match acts with
  | [] => Some (q, [])
  | a :: acts =>
      '(q', l) ← queue_exec q a;
      '(q'', tr) ← queue_run q' acts;
      Some (q'', (queue_act_thread a, l) :: tr)
  end.

(** ** The specification

    A call takes effect on the list at one step between its call and its return;
    a [Dequeue] that returns the zero value saw the list empty in between. *)
Inductive queue_call : Type :=
| WaitEnq (v : T)
| WaitDeq (saw_empty : bool)
| Done (r : option T).

Inductive queue_spec : list T * gmap nat queue_call -> nat * queue_label -> list T * gmap nat queue_call -> Prop :=
| qspec_internal vs p t : queue_spec (vs, p) (t, QInternal) (vs, p)
| qspec_call_enq vs p t v :
    p !! t = None -> queue_spec (vs, p) (t, QCallEnq v) (vs, <[t := WaitEnq v]> p)
| qspec_call_deq vs p t :
    p !! t = None -> queue_spec (vs, p) (t, QCallDeq) (vs, <[t := WaitDeq false]> p)
| qspec_enq vs p t v :
    p !! t = Some (WaitEnq v) -> queue_spec (vs, p) (t, QEnqueued v) (vs ++ [v], <[t := Done None]> p)
| qspec_deq vs p t v b :
    p !! t = Some (WaitDeq b) -> queue_spec (v :: vs, p) (t, QDequeued v) (vs, <[t := Done (Some v)]> p)
| qspec_saw p t b :
    p !! t = Some (WaitDeq b) -> queue_spec ([], p) (t, QSawEmpty) ([], <[t := WaitDeq true]> p)
| qspec_empty vs p t :
    p !! t = Some (WaitDeq true) -> queue_spec (vs, p) (t, QReturnEmpty getZero) (vs, delete t p)
| qspec_return vs p t r :
    p !! t = Some (Done r) -> queue_spec (vs, p) (t, QReturn r) (vs, delete t p).

Inductive queue_spec_run : list T * gmap nat queue_call -> list (nat * queue_label) -> list T * gmap nat queue_call -> Prop :=
| qspec_nil a : queue_spec_run a [] a
| qspec_snoc a tr b e c :
    queue_spec_run a tr b -> queue_spec b e c -> queue_spec_run a (tr ++ [e]) c.

(** ** The invariant

    [L] lists the nodes that were ever linked, oldest first; the head and the tail
    of the queue stand at positions [hi] and [ti] of it. *)

(** The node an enqueueing thread owns until it links it. *)
Definition queue_owned (pc : queue_pc) : option nat :=
  match pc with
  | EnqTail n | EnqNext n _ | EnqCheck n _ _ | EnqCas n _ | EnqHelp n _ _ => Some n
  | _ => None
  end.

Definition own_node (h : gmap nat queue_node) (L : list nat) (n : nat) (c : option queue_call) : Prop :=
  n ∉ L /\ exists v, h !! n = Some (mkQNode (Some v) None) /\ c = Some (WaitEnq v).

Definition is_deq (c : option queue_call) : Prop := exists b, c = Some (WaitDeq b).

(** What a program counter knows, and the pending call it stands for. *)
Definition queue_pc_ok (h : gmap nat queue_node) (L : list nat) (hi ti : nat) (pc : queue_pc)
    (c : option queue_call) : Prop :=
  match pc with
  | QueueIdle => c = None
  | EnqTail n => own_node h L n c
  | EnqNext n tl | EnqCas n tl => own_node h L n c /\ exists i, (i <= ti)%nat /\ L !! i = Some tl
  | EnqCheck n tl nx =>
      own_node h L n c /\
      exists i, (i <= ti)%nat /\ L !! i = Some tl /\ forall m, nx = Some m -> L !! S i = Some m
  | EnqHelp n tl m => own_node h L n c /\ exists i, L !! i = Some tl /\ L !! S i = Some m
  | EnqSwing n tl => c = Some (Done None) /\ exists i, L !! i = Some tl /\ L !! S i = Some n
  | EnqAdd => c = Some (Done None)
  | DeqHead => is_deq c
  | DeqTail hd => is_deq c /\ exists i, (i <= hi)%nat /\ L !! i = Some hd
  | DeqNext hd tl =>
      is_deq c /\ exists i j, L !! i = Some hd /\ L !! j = Some tl /\ (i <= hi)%nat /\ (i <= j <= ti)%nat
  | DeqCheck hd tl nx =>
      is_deq c /\ exists i j, L !! i = Some hd /\ L !! j = Some tl /\ (i <= j <= ti)%nat /\
        (forall m, nx = Some m -> L !! S i = Some m) /\
        (nx = None -> i = j /\ c = Some (WaitDeq true))
  | DeqHelp tl m => is_deq c /\ exists i, L !! i = Some tl /\ L !! S i = Some m
  | DeqValue hd nx =>
      is_deq c /\ exists i m, nx = Some m /\ L !! i = Some hd /\ L !! S i = Some m /\ (S i <= ti)%nat
  | DeqCas hd m v =>
      is_deq c /\ (exists i, L !! i = Some hd /\ L !! S i = Some m /\ (S i <= ti)%nat) /\
      exists n, h !! m = Some n /\ qnode_value n = Some v
  | DeqAdd v => c = Some (Done (Some v))
  end.

(** A counted element is one whose [Enqueue] has executed its atomic add. *)
Definition size_lag (pc : queue_pc) : Z :=
  match pc with EnqSwing _ _ | EnqAdd => -1 | DeqAdd _ => 1 | _ => 0 end.

Record queue_inv (q : msQueue) (L : list nat) (hi ti : nat) (vs : list T) (p : gmap nat queue_call) : Prop := {
  qi_nodup : NoDup L;
  qi_head : L !! hi = Some (q_head q);
  qi_tail : L !! ti = Some (q_tail q);
  qi_order : (hi <= ti)%nat;
  qi_lag : (length L <= ti + 2)%nat;
  qi_heap i x : L !! i = Some x ->
    exists n, q_heap q !! x = Some n /\ qnode_next n = L !! S i /\ ((0 < i)%nat -> is_Some (qnode_value n));
  qi_alloc x : is_Some (q_heap q !! x) -> (x < q_next q)%nat;
  qi_vals : Forall2 (fun x v => exists n, q_heap q !! x = Some n /\ qnode_value n = Some v) (drop (S hi) L) vs;
  qi_pc t : queue_pc_ok (q_heap q) L hi ti (queue_thread_pc q t) (p !! t);
  qi_own t1 t2 n : queue_owned (queue_thread_pc q t1) = Some n ->
    queue_owned (queue_thread_pc q t2) = Some n -> t1 = t2;
  qi_size : q_size q = int32 (zlen vs + map_sum size_lag (q_threads q))
}.

(** The value of an allocated node never changes. *)
Definition qheap_grows (h h' : gmap nat queue_node) : Prop :=
  forall i n, h !! i = Some n -> exists n', h' !! i = Some n' /\ qnode_value n' = qnode_value n.

Lemma qheap_grows_refl h : qheap_grows h h.
Proof. intros i n. eauto. Qed.

Lemma queue_pc_frame h h' L L' hi hi' ti ti' pc c :
  queue_pc_ok h L hi ti pc c ->
  L `prefix_of` L' -> (hi <= hi')%nat -> (ti <= ti')%nat -> qheap_grows h h' ->
  (forall n, queue_owned pc = Some n -> n ∉ L' /\ h' !! n = h !! n) ->
  queue_pc_ok h' L' hi' ti' pc c.
Proof.
  intros Hok HL Hhi Hti Hg Hown.
  have Hl : forall i x, L !! i = Some x -> L' !! i = Some x by eauto using prefix_lookup_Some.
  have Ho : forall n, queue_owned pc = Some n -> own_node h L n c -> own_node h' L' n c.
  { intros n [Hn Hh]%Hown [_ Hv]. split; [done|]. by rewrite Hh. }
  destruct pc; simpl in *; try done; try (by apply Ho); destruct Hok as [Hc Hok];
    (split; [by (exact Hc || apply Ho)|]).
  - destruct Hok as (i & ? & ?). exists i. split; [lia|auto].
  - destruct Hok as (i & ? & ? & ?). exists i. split; [lia|auto].
  - destruct Hok as (i & ? & ?). exists i. split; [lia|auto].
  - destruct Hok as (i & ? & ?). exists i. auto.
  - destruct Hok as (i & ? & ?). exists i. auto.
  - destruct Hok as (i & ? & ?). exists i. split; [lia|auto].
  - destruct Hok as (i & j & ? & ? & ? & ?). exists i, j. split_and!; auto; lia.
  - destruct Hok as (i & j & ? & ? & ? & ? & ?). exists i, j. split_and!; auto; lia.
  - destruct Hok as (i & ? & ?). exists i. auto.
  - destruct Hok as (i & m & ? & ? & ? & ?). exists i, m. split_and!; auto; lia.
  - destruct Hok as ((i & ? & ? & ?) & n & Hn & Hv). split; [exists i; split_and!; auto; lia|].
    destruct (Hg _ _ Hn) as (n' & ? & ?). exists n'. split; congruence.
Qed.

Lemma queue_thread_pc_insert h hd tl sz nx ths t pc t' :
  queue_thread_pc (mkQueue h hd tl sz nx (<[t := pc]> ths)) t' =
    if decide (t = t') then pc else default QueueIdle (ths !! t').
Proof. rewrite /queue_thread_pc /= lookup_insert. by case_decide. Qed.

Lemma map_sum_size q t pc :
  map_sum size_lag (<[t := pc]> (q_threads q)) =
    map_sum size_lag (q_threads q) + size_lag pc - size_lag (queue_thread_pc q t).
Proof. rewrite map_sum_insert /queue_thread_pc. by destruct (q_threads q !! t). Qed.

(** The nodes other threads own are outside [L']. *)
Definition others_own (q : msQueue) (t : nat) (pc : queue_pc) (h : gmap nat queue_node) (L' : list nat) : Prop :=
  forall t' n, t <> t' -> queue_owned (queue_thread_pc q t') = Some n ->
    n ∉ L' /\ h !! n = q_heap q !! n /\ queue_owned pc <> Some n.

Definition heap_linked (h : gmap nat queue_node) (L : list nat) : Prop :=
  forall i x, L !! i = Some x ->
    exists n, h !! x = Some n /\ qnode_next n = L !! S i /\ ((0 < i)%nat -> is_Some (qnode_value n)).

Lemma queue_inv_update q L hi ti vs p t pc c h hd tl sz nx L' hi' ti' vs' :
  queue_inv q L hi ti vs p ->
  NoDup L' -> L' !! hi' = Some hd -> L' !! ti' = Some tl -> (hi' <= ti')%nat -> (length L' <= ti' + 2)%nat ->
  heap_linked h L' -> (forall x, is_Some (h !! x) -> (x < nx)%nat) ->
  Forall2 (fun x v => exists n, h !! x = Some n /\ qnode_value n = Some v) (drop (S hi') L') vs' ->
  L `prefix_of` L' -> (hi <= hi')%nat -> (ti <= ti')%nat -> qheap_grows (q_heap q) h ->
  others_own q t pc h L' -> queue_pc_ok h L' hi' ti' pc c ->
  sz = int32 (zlen vs' + map_sum size_lag (q_threads q) + size_lag pc - size_lag (queue_thread_pc q t)) ->
  queue_inv (mkQueue h hd tl sz nx (<[t := pc]> (q_threads q))) L' hi' ti' vs' (partial_alter (fun _ => c) t p).
Proof.
  intros Hinv ????? Hlink ?? HL Hhi Hti Hg Hother Hpc Hsz. split; simpl; try done.
  - intros t'. rewrite queue_thread_pc_insert. case_decide as Ht.
    + subst t'. by rewrite lookup_partial_alter_eq.
    + rewrite lookup_partial_alter_ne //.
      apply (queue_pc_frame _ _ _ _ _ _ _ _ _ _ (qi_pc _ _ _ _ _ _ Hinv t') HL Hhi Hti Hg).
      intros n Hn. destruct (Hother t' n Ht Hn) as (? & ? & _). done.
  - intros t1 t2 n. rewrite !queue_thread_pc_insert. repeat case_decide; intros Hn1 Hn2; subst; try done.
    + by destruct (Hother t2 n) as (_ & _ & []).
    + by destruct (Hother t1 n) as (_ & _ & []).
    + by eapply (qi_own _ _ _ _ _ _ Hinv).
  - rewrite map_sum_size Hsz. f_equal. lia.
Qed.

(** Nodes that were linked are not owned, and owners are unique. *)
Lemma queue_others q L hi ti vs p t pc :
  queue_inv q L hi ti vs p ->
  (forall n, queue_owned pc = Some n -> queue_owned (queue_thread_pc q t) = Some n) ->
  others_own q t pc (q_heap q) L.
Proof.
  intros Hinv Hpc t' n Ht Hn. have Hok := qi_pc _ _ _ _ _ _ Hinv t'.
  split; [|split; [done|]].
  - destruct (queue_thread_pc q t'); simpl in *; simplify_eq; apply Hok.
  - intros Hn'%Hpc. by destruct Ht; eapply (qi_own _ _ _ _ _ _ Hinv).
Qed.

(** Steps that leave the nodes alone: the program counter, the head, the tail and
    the size may move. *)
Lemma queue_inv_local q L hi ti vs p t pc c hd tl sz hi' ti' vs' :
  queue_inv q L hi ti vs p ->
  L !! hi' = Some hd -> L !! ti' = Some tl -> (hi <= hi' <= ti')%nat -> (ti <= ti')%nat ->
  Forall2 (fun x v => exists n, q_heap q !! x = Some n /\ qnode_value n = Some v) (drop (S hi') L) vs' ->
  (forall n, queue_owned pc = Some n -> queue_owned (queue_thread_pc q t) = Some n) ->
  queue_pc_ok (q_heap q) L hi' ti' pc c ->
  sz = int32 (zlen vs' + map_sum size_lag (q_threads q) + size_lag pc - size_lag (queue_thread_pc q t)) ->
  queue_inv (mkQueue (q_heap q) hd tl sz (q_next q) (<[t := pc]> (q_threads q))) L hi' ti' vs'
    (partial_alter (fun _ => c) t p).
Proof.
  intros Hinv Hhd Htl Hhi Hti Hvs Hown Hpc Hsz. have Hlag := qi_lag _ _ _ _ _ _ Hinv.
  apply (queue_inv_update q L hi ti vs); try done; try lia.
  - by apply (qi_nodup _ _ _ _ _ _ Hinv).
  - exact (qi_heap _ _ _ _ _ _ Hinv).
  - by apply (qi_alloc _ _ _ _ _ _ Hinv).
  - apply qheap_grows_refl.
  - by eapply queue_others.
Qed.

(** Steps that only move the program counter. *)
Lemma queue_inv_goto q L hi ti vs p t pc c :
  queue_inv q L hi ti vs p ->
  (forall n, queue_owned pc = Some n -> queue_owned (queue_thread_pc q t) = Some n) ->
  queue_pc_ok (q_heap q) L hi ti pc c -> size_lag pc = size_lag (queue_thread_pc q t) ->
  queue_inv (q_goto q t pc) L hi ti vs (partial_alter (fun _ => c) t p).
Proof.
  intros Hinv Hown Hpc Hlag. have [????????? ? Hsz] := Hinv. eapply queue_inv_local; try done.
  rewrite Hsz. f_equal. lia.
Qed.

(** A compare-and-swap of the tail to the successor of the node it names. *)
Lemma queue_inv_cas_tail q L hi ti vs p t pc c i tl new :
  queue_inv q L hi ti vs p -> L !! i = Some tl -> L !! S i = Some new ->
  (forall n, queue_owned pc = Some n -> queue_owned (queue_thread_pc q t) = Some n) ->
  (forall ti', queue_pc_ok (q_heap q) L hi ti' pc c) -> size_lag pc = size_lag (queue_thread_pc q t) ->
  exists ti', queue_inv (cas_tail q t tl new pc) L hi ti' vs (partial_alter (fun _ => c) t p).
Proof.
  intros Hinv Hi Hsi Hown Hpc Hlag. have [Hnd Hhd Htl Hord ?????? Hsz] := Hinv.
  rewrite /cas_tail. case_decide as Hc.
  - rewrite -Hc in Hi. have Hit := NoDup_lookup _ _ _ _ Hnd Hi Htl. subst i.
    exists (S ti). eapply queue_inv_local; try done; try lia. rewrite Hsz. f_equal. lia.
  - exists ti. eapply queue_inv_local; try done; try lia. rewrite Hsz. f_equal. lia.
Qed.

(** ** Every step is a step of the specification *)

Definition queue_step_ok (vs : list T) (p : gmap nat queue_call) (t : nat) (l : queue_label) (q' : msQueue) : Prop :=
  exists L' hi' ti' vs' p', queue_spec (vs, p) (t, l) (vs', p') /\ queue_inv q' L' hi' ti' vs' p'.

Lemma queue_step_internal q L hi ti vs p t pc :
  queue_inv q L hi ti vs p ->
  (forall n, queue_owned pc = Some n -> queue_owned (queue_thread_pc q t) = Some n) ->
  queue_pc_ok (q_heap q) L hi ti pc (p !! t) -> size_lag pc = size_lag (queue_thread_pc q t) ->
  queue_step_ok vs p t QInternal (q_goto q t pc).
Proof.
  intros. exists L, hi, ti, vs, p. split; [constructor|].
  rewrite -(partial_alter_self p t). by apply queue_inv_goto.
Qed.

Lemma queue_step_cas_tail q L hi ti vs p t pc i tl new :
  queue_inv q L hi ti vs p -> L !! i = Some tl -> L !! S i = Some new ->
  (forall n, queue_owned pc = Some n -> queue_owned (queue_thread_pc q t) = Some n) ->
  (forall ti', queue_pc_ok (q_heap q) L hi ti' pc (p !! t)) -> size_lag pc = size_lag (queue_thread_pc q t) ->
  queue_step_ok vs p t QInternal (cas_tail q t tl new pc).
Proof.
  intros Hinv Hi Hsi Hown Hpc Hlag.
  destruct (queue_inv_cas_tail q L hi ti vs p t pc (p !! t) i tl new) as [ti' Hinv']; try done.
  exists L, hi, ti', vs, p. split; [constructor|]. by rewrite partial_alter_self in Hinv'.
Qed.

Lemma queue_fresh q L hi ti vs p :
  queue_inv q L hi ti vs p -> q_heap q !! q_next q = None /\ q_next q ∉ L.
Proof.
  intros Hinv. have Hn : q_heap q !! q_next q = None.
  { apply eq_None_not_Some. intros Hs%(qi_alloc _ _ _ _ _ _ Hinv). lia. }
  split; [done|]. intros [i Hi]%list_elem_of_lookup_1.
  destruct (qi_heap _ _ _ _ _ _ Hinv _ _ Hi) as (n & ? & _). congruence.
Qed.

(** A node that is in [L] or owned by another thread is not the fresh one. *)
Lemma queue_owned_alloc q L hi ti vs p t n :
  queue_inv q L hi ti vs p -> queue_owned (queue_thread_pc q t) = Some n ->
  n ∉ L /\ exists v, q_heap q !! n = Some (mkQNode (Some v) None) /\ p !! t = Some (WaitEnq v).
Proof.
  intros Hinv Hn. have Hok := qi_pc _ _ _ _ _ _ Hinv t.
  destruct (queue_thread_pc q t); simpl in *; simplify_eq; (exact Hok || apply Hok).
Qed.

Lemma queue_step_call q L hi ti vs p t v :
  queue_inv q L hi ti vs p -> queue_thread_pc q t = QueueIdle ->
  queue_step_ok vs p t (QCallEnq v) (Enqueue_call q t v).
Proof.
  intros Hinv Ht. have [Hnd Hhd Htl Hord Hlag Hheap Halloc Hvs Hpcs Hown Hsz] := Hinv.
  destruct (queue_fresh _ _ _ _ _ _ Hinv) as [Hnew HnewL].
  have Hg : forall x n, q_heap q !! x = Some n -> <[q_next q := mkQNode (Some v) None]> (q_heap q) !! x = Some n.
  { intros x n Hx. rewrite lookup_insert_ne //. intros <-. congruence. }
  have Hpt := Hpcs t. rewrite Ht in Hpt.
  exists L, hi, ti, vs, (<[t := WaitEnq v]> p). split; [by constructor|].
  apply (queue_inv_update q L hi ti vs); try done.
  - intros i x Hi. destruct (Hheap _ _ Hi) as (n & Hn & ? & ?). exists n. auto.
  - intros x. rewrite lookup_insert. case_decide; [intros _; lia|]. intros Hx%Halloc. lia.
  - eapply Forall2_impl; [done|]. simpl. intros x w (n & Hn & Hw). eauto.
  - intros x n Hx. eauto.
  - intros t' n Hne Hn. destruct (queue_owned_alloc _ _ _ _ _ _ _ _ Hinv Hn) as (? & w & Hw & _).
    split; [done|]. split; [rewrite Hw; by apply Hg|]. simpl. intros [= <-]. congruence.
  - split; [done|]. exists v. by rewrite lookup_insert_eq.
  - rewrite Ht Hsz /=. f_equal. lia.
Qed.

Lemma heap_linked_snoc h L i tail node n v :
  NoDup L -> heap_linked h L -> length L = S i -> L !! i = Some tail -> h !! tail = Some n -> node <> tail ->
  h !! node = Some (mkQNode (Some v) None) ->
  heap_linked (<[tail := mkQNode (qnode_value n) (Some node)]> h) (L ++ [node]).
Proof.
  intros Hnd Hheap Hlen Htail Hn Hne Hnode j x [Hj|[Hj Hx]]%lookup_app_Some.
  - destruct (Hheap _ _ Hj) as (m & Hm & Hmn & Hmv). rewrite lookup_insert. case_decide as Hx.
    + subst x. have Hji : j = i by eapply NoDup_lookup. subst j. rewrite Hn in Hm. simplify_eq.
      eexists. split; [done|]. simpl. split; [|done].
      by rewrite lookup_app_r ?Hlen ?Nat.sub_diag; [lia|].
    + exists m. split; [done|]. split; [|done]. rewrite Hmn. symmetry. apply lookup_app_l.
      have Hlt := lookup_lt_Some _ _ _ Hj. destruct (decide (j = i)); [congruence|lia].
  - destruct (j - length L)%nat eqn:Hji; simplify_list_eq. exists (mkQNode (Some v) None).
    rewrite lookup_insert_ne //. split; [done|]. split; [|done].
    symmetry. apply lookup_ge_None_2. rewrite length_app /=. lia.
Qed.

(** The successful compare-and-swap of [tail.next] links the node at the end. *)
Lemma queue_step_link q L hi ti vs p t node tail n new v :
  queue_inv q L hi ti vs p -> queue_thread_pc q t = EnqCas node tail ->
  q_heap q !! tail = Some n -> qnode_next n = None -> q_heap q !! node = Some new -> qnode_value new = Some v ->
  queue_step_ok vs p t (QEnqueued v)
    (mkQueue (<[tail := mkQNode (qnode_value n) (Some node)]> (q_heap q)) (q_head q) (q_tail q) (q_size q)
       (q_next q) (<[t := EnqSwing node tail]> (q_threads q))).
Proof.
  intros Hinv Ht Hn Hnext Hnew Hv. have [Hnd Hhd Htl Hord Hlag Hheap Halloc Hvs Hpcs Hown Hsz] := Hinv.
  have Hok := Hpcs t. rewrite Ht in Hok. destruct Hok as [[HnodeL (w & Hw & Hp)] (i & Hi & Htail)].
  rewrite Hnew in Hw. injection Hw as ->. simpl in Hv. injection Hv as ->.
  destruct (Hheap _ _ Htail) as (n' & Hn' & Hlink & _). rewrite Hn in Hn'. injection Hn' as <-.
  have Hlen : length L = S i.
  { rewrite Hnext in Hlink. symmetry in Hlink. apply lookup_ge_None_1 in Hlink.
    apply lookup_lt_Some in Htail. lia. }
  have Hti : ti = i. { apply lookup_lt_Some in Htl. lia. } subst ti.
  have Hne : node <> tail. { intros ->. apply HnodeL. by eapply list_elem_of_lookup_2. }
  set h := <[tail := _]> _.
  have Hg : qheap_grows (q_heap q) h.
  { intros x m Hx. rewrite /h lookup_insert. case_decide; [|eauto]. simplify_eq. eauto. }
  have Hhn : h !! node = Some (mkQNode (Some v) None). { rewrite /h lookup_insert_ne //. }
  exists (L ++ [node]), hi, i, (vs ++ [v]), (<[t := Done None]> p). split; [by constructor|].
  apply (queue_inv_update q L hi i vs); try done.
  - apply NoDup_app. split_and!; [done| |apply NoDup_singleton]. set_solver.
  - by apply lookup_app_l_Some.
  - by apply lookup_app_l_Some.
  - rewrite length_app /=. lia.
  - by eapply heap_linked_snoc.
  - intros x. rewrite /h lookup_insert. case_decide; [intros _; subst|]; auto.
  - have Hhlen := lookup_lt_Some _ _ _ Hhd. rewrite drop_app_le; [lia|]. apply Forall2_app.
    + eapply Forall2_impl; [done|]. simpl. intros x w (m & Hm & <-). destruct (Hg _ _ Hm) as (m' & ? & ?). eauto.
    + constructor; [|constructor]. eauto.
  - by exists [node].
  - intros t' m Hne' Hm. destruct (queue_owned_alloc _ _ _ _ _ _ _ _ Hinv Hm) as (HmL & w' & Hw' & _).
    have Hmn : m <> node. { intros ->. apply Hne'. eapply Hown; [|done]. by rewrite Ht. }
    have Hmt : m <> tail. { intros ->. apply HmL. by eapply list_elem_of_lookup_2. }
    split; [set_solver|]. split; [|done]. by rewrite /h lookup_insert_ne.
  - split; [done|]. exists i. split; [by apply lookup_app_l_Some|].
    by rewrite lookup_app_r ?Hlen ?Nat.sub_diag; [lia|].
  - rewrite Ht Hsz zlen_app /zlen /=. f_equal. lia.
Qed.

(** The successful compare-and-swap of the head takes the oldest value. *)
Lemma queue_step_deq q L hi ti vs p t next v :
  queue_inv q L hi ti vs p -> queue_thread_pc q t = DeqCas (q_head q) next v ->
  queue_step_ok vs p t (QDequeued v)
    (mkQueue (q_heap q) next (q_tail q) (q_size q) (q_next q) (<[t := DeqAdd v]> (q_threads q))).
Proof.
  intros Hinv Ht. have [Hnd Hhd Htl Hord Hlag Hheap Halloc Hvs Hpcs Hown Hsz] := Hinv.
  have Hok := Hpcs t. rewrite Ht in Hok. destruct Hok as [[b Hp] [(i & Hi & Hsi & Hsti) (n & Hn & Hv)]].
  have Hih := NoDup_lookup _ _ _ _ Hnd Hi Hhd. subst i.
  rewrite (drop_S _ _ _ Hsi) in Hvs. inversion Hvs as [|x w xs ws (n' & Hn' & Hw) Hrest]. subst.
  rewrite Hn in Hn'. simplify_eq.
  exists L, (S hi), ti, ws, (<[t := Done (Some v)]> p). split; [by econstructor|].
  eapply queue_inv_local; try done; try lia. rewrite Ht Hsz /zlen /=. f_equal. lia.
Qed.

(** The head has no successor exactly when the queue is empty. *)
Lemma queue_head_last q L hi ti vs p i hd n :
  queue_inv q L hi ti vs p -> L !! i = Some hd -> (i <= hi)%nat -> q_heap q !! hd = Some n ->
  qnode_next n = None -> vs = [] /\ i = hi /\ i = ti.
Proof.
  intros Hinv Hi Hhi Hn Hnext. have [Hnd Hhd Htl Hord Hlag Hheap Halloc Hvs Hpcs Hown Hsz] := Hinv.
  destruct (Hheap _ _ Hi) as (n' & Hn' & Hlink & _). rewrite Hn in Hn'. injection Hn' as <-.
  rewrite Hnext in Hlink. symmetry in Hlink. apply lookup_ge_None_1 in Hlink.
  have Hlt := lookup_lt_Some _ _ _ Htl. split_and!; [|lia|lia].
  rewrite drop_ge in Hvs; [lia|]. by inversion Hvs.
Qed.

Lemma queue_step_size q L hi ti vs p t d r :
  queue_inv q L hi ti vs p -> p !! t = Some (Done r) -> size_lag (queue_thread_pc q t) = - d ->
  queue_step_ok vs p t (QReturn r)
    (mkQueue (q_heap q) (q_head q) (q_tail q) (int32 (q_size q + d)) (q_next q)
       (<[t := QueueIdle]> (q_threads q))).
Proof.
  intros Hinv Hp Hd. have [Hnd Hhd Htl Hord Hlag Hheap Halloc Hvs Hpcs Hown Hsz] := Hinv.
  exists L, hi, ti, vs, (delete t p). split; [by constructor|].
  eapply queue_inv_local; try done. rewrite Hsz wrap_s_add Hd. f_equal. simpl. lia.
Qed.

Lemma enqueue_step_sim q L hi ti vs p t q' l :
  queue_inv q L hi ti vs p -> Enqueue_step q t (queue_thread_pc q t) = Some (q', l) ->
  queue_step_ok vs p t l q'.
Proof.
  intros Hinv. have Hok := qi_pc _ _ _ _ _ _ Hinv t.
  destruct (queue_thread_pc q t) as [|n|n tl|n tl nx|n tl|n tl m|n tl| | | | | | | | | ] eqn:Ht;
    simpl; try done.
  - intros [= <- <-]. eapply queue_step_internal; try done; rewrite ?Ht //.
    split; [done|]. exists ti. split; [lia|]. apply (qi_tail _ _ _ _ _ _ Hinv).
  - destruct Hok as [Ho (i & Hi & Htl)]. destruct (qi_heap _ _ _ _ _ _ Hinv _ _ Htl) as (nd & Hnd & Hlink & _).
    rewrite Hnd /=. intros [= <- <-]. eapply queue_step_internal; try done; rewrite ?Ht //.
    split; [done|]. exists i. split_and!; try done. intros m. by rewrite Hlink.
  - destruct Hok as [Ho (i & Hi & Htl & Hm)]. intros [= <- <-].
    case_decide; [destruct nx as [m|]|]; (eapply queue_step_internal; try done; rewrite ?Ht //);
      (split; [done|]); exists i; auto.
  - destruct Hok as [Ho (i & Hi & Htl)].
    destruct (q_heap q !! tl) as [nd|] eqn:Hnd; [|done]. simpl.
    destruct (q_heap q !! n) as [new|] eqn:Hnew; [|done]. simpl.
    destruct (qnode_value new) as [v|] eqn:Hv; [|done]. simpl.
    destruct (qnode_next nd) as [m|] eqn:Hnext; intros [= <- <-].
    + eapply queue_step_internal; try done; rewrite ?Ht //.
    + by eapply queue_step_link.
  - destruct Hok as [Ho (i & Htl & Hm)]. intros [= <- <-].
    eapply queue_step_cas_tail; try done; rewrite ?Ht //.
  - destruct Hok as [Ho (i & Htl & Hm)]. intros [= <- <-].
    eapply queue_step_cas_tail; try done; rewrite ?Ht //.
  - intros [= <- <-]. eapply queue_step_size; try done. by rewrite Ht.
Qed.

Lemma dequeue_step_sim q L hi ti vs p t q' l :
  queue_inv q L hi ti vs p -> Dequeue_step q t (queue_thread_pc q t) = Some (q', l) ->
  queue_step_ok vs p t l q'.
Proof.
  intros Hinv. have Hok := qi_pc _ _ _ _ _ _ Hinv t. have Hhd := qi_head _ _ _ _ _ _ Hinv.
  destruct (queue_thread_pc q t) as [| | | | | | | | |hd|hd tl|hd tl nx|tl m|hd nx|hd m v|v] eqn:Ht;
    simpl; try done.
  - intros [= <- <-]. eapply queue_step_internal; try done; rewrite ?Ht //. split; [done|]. eauto.
  - destruct Hok as [Hd (i & Hi & Hl)]. intros [= <- <-].
    eapply queue_step_internal; try done; rewrite ?Ht //. split; [done|]. exists i, ti.
    have Ho := qi_order _ _ _ _ _ _ Hinv. have Htl := qi_tail _ _ _ _ _ _ Hinv. split_and!; done || lia.
  - destruct Hok as [[b Hp] (i & j & Hi & Hj & Hih & Hij)].
    destruct (qi_heap _ _ _ _ _ _ Hinv _ _ Hi) as (nd & Hnd & Hlink & _).
    rewrite Hnd /=. intros [= <- <-]. destruct (qnode_next nd) as [m|] eqn:Hnext.
    + eapply queue_step_internal; try done; rewrite ?Ht //. split; [by exists b|].
      exists i, j. split_and!; try done || lia. naive_solver congruence.
    + destruct (queue_head_last _ _ _ _ _ _ _ _ _ Hinv Hi Hih Hnd Hnext) as (-> & -> & ->).
      eexists L, _, _, [], _. split; [by econstructor|]. eapply queue_inv_goto; try done; rewrite ?Ht //.
      split; [by exists true|]. exists ti, j. split_and!; try done || lia. intros _. split; [lia|done].
  - destruct Hok as [Hd (i & j & Hi & Hj & Hij & Hs & Hn)].
    repeat case_decide; [destruct nx as [m|]| |]; intros [= <- <-].
    + eapply queue_step_internal; try done; rewrite ?Ht //. split; [done|]. subst tl. eauto.
    + destruct (Hn eq_refl) as [-> Hp]. eexists L, _, _, vs, _. split; [by constructor|].
      eapply queue_inv_goto; try done; rewrite ?Ht //.
    + eapply queue_step_internal; try done; rewrite ?Ht //. split; [done|].
      destruct nx as [m|]; [|by destruct (Hn eq_refl) as [-> _]; simplify_eq].
      exists i, m. split_and!; auto. destruct (decide (i = j)); [congruence|lia].
    + eapply queue_step_internal; try done; rewrite ?Ht //.
  - destruct Hok as [Hd (i & Htl & Hm)]. intros [= <- <-].
    eapply queue_step_cas_tail; try done; rewrite ?Ht //.
  - destruct Hok as [Hd (i & m & -> & Hi & Hs & Hti)]. simpl.
    destruct (q_heap q !! m) as [nd|] eqn:Hnd; [|done]. simpl.
    destruct (qnode_value nd) as [v|] eqn:Hv; [|done]. simpl. intros [= <- <-].
    eapply queue_step_internal; try done; rewrite ?Ht //. split_and!; eauto.
  - destruct Hok as [Hd _]. case_decide as Hc; intros [= <- <-].
    + subst hd. by eapply queue_step_deq.
    + eapply queue_step_internal; try done; rewrite ?Ht //.
  - intros [= <- <-]. eapply queue_step_size; try done. by rewrite Ht.
Qed.

Lemma queue_exec_sim q L hi ti vs p a q' l :
  queue_inv q L hi ti vs p -> queue_exec q a = Some (q', l) ->
  queue_step_ok vs p (queue_act_thread a) l q'.
Proof.
  intros Hinv. have Hpcs := qi_pc _ _ _ _ _ _ Hinv. destruct a as [t v|t|t]; simpl.
  - destruct (queue_thread_pc q t) eqn:Ht; try done. intros [= <- <-]. by eapply queue_step_call.
  - have Hp := Hpcs t. destruct (queue_thread_pc q t) eqn:Ht; try done. intros [= <- <-].
    eexists L, hi, ti, vs, _. split; [by constructor|]. eapply queue_inv_goto; try done; [|by rewrite Ht].
    by exists false.
  - destruct (in_enqueue _); [by apply (enqueue_step_sim q L hi ti)|by apply (dequeue_step_sim q L hi ti)].
Qed.

Lemma queue_inv_new : queue_inv NewQueue [0%nat] 0 0 [] ∅.
Proof.
  split; simpl; try done; try lia.
  - apply NoDup_singleton.
  - intros i x Hi. destruct i; [|done]. simpl in Hi. injection Hi as <-.
    eexists. split; [apply lookup_singleton_eq|]. split; [done|lia].
  - intros x [n [<- _]%lookup_singleton_Some]. lia.
Qed.

Lemma queue_run_app q acts1 acts2 :
  queue_run q (acts1 ++ acts2) =
    ('(q1, tr1) ← queue_run q acts1; '(q2, tr2) ← queue_run q1 acts2; Some (q2, tr1 ++ tr2)).
Proof.
  revert q. induction acts1 as [|a acts1 IH]; intros q; simpl.
  - by destruct (queue_run q acts2) as [[??]|].
  - destruct (queue_exec q a) as [[q' l]|]; [|done]. simpl. rewrite IH.
    destruct (queue_run q' acts1) as [[q1 tr1]|]; [|done]. simpl.
    by destruct (queue_run q1 acts2) as [[??]|].
Qed.

Lemma queue_run_sim acts q tr :
  queue_run NewQueue acts = Some (q, tr) ->
  exists L hi ti vs p, queue_spec_run ([], ∅) tr (vs, p) /\ queue_inv q L hi ti vs p.
Proof.
  revert q tr. induction acts as [|a acts IH] using rev_ind; intros q tr.
  - intros [= <- <-]. eexists _, _, _, [], ∅. split; [constructor|apply queue_inv_new].
  - rewrite queue_run_app. destruct (queue_run _ acts) as [[q1 tr1]|] eqn:Hrun; [|done]. simpl.
    destruct (queue_exec q1 a) as [[q2 l]|] eqn:Hexec; [|done]. simpl. intros [= <- <-].
    destruct (IH _ _ eq_refl) as (L & hi & ti & vs & p & Hspec & Hinv).
    destruct (queue_exec_sim _ _ _ _ _ _ _ _ _ Hinv Hexec) as (L' & hi' & ti' & vs' & p' & Hstep & Hinv').
    exists L', hi', ti', vs', p'. split; [by econstructor|done].
Qed.

(** ** Progress *)

Definition next_of (h : gmap nat queue_node) (x : nat) : option nat := n ← h !! x; qnode_next n.

(** A bound on the operations a thread that runs alone still executes. *)
Definition enqueue_rank (q : msQueue) (pc : queue_pc) : nat :=
  (let base := if decide (next_of (q_heap q) (q_tail q) = None) then 6 else 10 in
  match pc with
  | EnqTail _ => base
  | EnqNext _ tl => if decide (tl = q_tail q) then base - 1 else 12
  | EnqCheck _ tl nx =>
      if decide (tl = q_tail q) then
        match nx with
        | None => if decide (next_of (q_heap q) tl = None) then 4 else 12
        | Some _ => 8
        end
      else 11
  | EnqCas _ tl => if decide (next_of (q_heap q) tl = None) then 3 else 11
  | EnqHelp _ tl _ => if decide (tl = q_tail q) then 7 else 11
  | EnqSwing _ _ => 2
  | EnqAdd => 1
  | _ => 0
  end)%nat.

Definition dequeue_rank (q : msQueue) (pc : queue_pc) : nat :=
  (let base :=
    if decide (q_head q = q_tail q)
    then if decide (next_of (q_heap q) (q_tail q) = None) then 4 else 12 else 7 in
  match pc with
  | DeqHead => base
  | DeqTail hd => if decide (hd = q_head q) then base - 1 else 15
  | DeqNext hd tl =>
      if decide (hd = q_head q)
      then if decide (hd = tl) then if decide (next_of (q_heap q) hd = None) then 2 else 10 else 5
      else 14
  | DeqCheck hd tl nx =>
      if decide (hd = q_head q)
      then if decide (hd = tl) then match nx with None => 1 | Some _ => 9 end else 4
      else 13
  | DeqHelp tl _ => if decide (q_head q <> q_tail q \/ tl = q_tail q) then 8 else 13
  | DeqValue hd _ => if decide (hd = q_head q) then 3 else 14
  | DeqCas hd _ _ => if decide (hd = q_head q) then 2 else 13
  | DeqAdd _ => 1
  | _ => 0
  end)%nat.

Definition queue_rank (q : msQueue) (t : nat) : nat :=
  let pc := queue_thread_pc q t in
  if in_enqueue pc then enqueue_rank q pc else dequeue_rank q pc.

(** When a compare-and-swap moves the tail, the new tail is the last node and lies
    behind the head. *)
Lemma queue_swing_last q L hi ti vs p i m :
  queue_inv q L hi ti vs p -> L !! i = Some (q_tail q) -> L !! S i = Some m ->
  next_of (q_heap q) m = None /\ q_head q <> m.
Proof.
  intros Hinv Hi Hm. have [Hnd Hhd Htl Hord Hlag Hheap Halloc Hvs Hpcs Hown Hsz] := Hinv.
  have Hit := NoDup_lookup _ _ _ _ Hnd Hi Htl. subst i. split.
  - destruct (Hheap _ _ Hm) as (n & Hn & Hlink & _). rewrite /next_of Hn /= Hlink.
    apply lookup_ge_None_2. lia.
  - intros Heq. rewrite Heq in Hhd. have := NoDup_lookup _ _ _ _ Hnd Hm Hhd. lia.
Qed.

#[local] Ltac solve_rank :=
  eexists _, _; split; [reflexivity|];
  rewrite ?/q_goto ?/cas_tail queue_thread_pc_insert decide_True //=;
  rewrite ?/enqueue_rank ?/dequeue_rank /=; repeat case_decide; try lia; try naive_solver; exfalso; congruence.

Lemma enqueue_step_rank q L hi ti vs p t :
  queue_inv q L hi ti vs p -> in_enqueue (queue_thread_pc q t) = true ->
  exists q' l, Enqueue_step q t (queue_thread_pc q t) = Some (q', l) /\
    (queue_rank q' t < enqueue_rank q (queue_thread_pc q t))%nat.
Proof.
  intros Hinv. have Hok := qi_pc _ _ _ _ _ _ Hinv t. rewrite /queue_rank.
  destruct (queue_thread_pc q t) as [|n|n tl|n tl nx|n tl|n tl m|n tl| | | | | | | | | ] eqn:Ht;
    cbn [in_enqueue Enqueue_step]; intros Hin; try done.
  - solve_rank.
  - destruct Hok as [Ho (i & Hi & Htl)]. destruct (qi_heap _ _ _ _ _ _ Hinv _ _ Htl) as (nd & Hnd & Hlink & _).
    have Hnx : next_of (q_heap q) tl = qnode_next nd by rewrite /next_of Hnd.
    rewrite Hnd /=. destruct (qnode_next nd); solve_rank.
  - destruct nx; case_decide; solve_rank.
  - destruct Hok as [[_ (v & Hv & _)] (i & Hi & Htl)].
    destruct (qi_heap _ _ _ _ _ _ Hinv _ _ Htl) as (nd & Hnd & Hlink & _).
    have Hnx : next_of (q_heap q) tl = qnode_next nd by rewrite /next_of Hnd.
    rewrite Hnd Hv /=. destruct (qnode_next nd); solve_rank.
  - destruct Hok as [Ho (i & Htl & Hm)]. destruct (decide (tl = q_tail q)) as [->|Hne].
    + have [Hlast _] := queue_swing_last _ _ _ _ _ _ _ _ Hinv Htl Hm. solve_rank.
    + solve_rank.
  - solve_rank.
  - solve_rank.
Qed.

Lemma dequeue_step_rank q L hi ti vs p t :
  queue_inv q L hi ti vs p -> in_enqueue (queue_thread_pc q t) = false -> queue_thread_pc q t <> QueueIdle ->
  exists q' l, Dequeue_step q t (queue_thread_pc q t) = Some (q', l) /\
    (queue_rank q' t < dequeue_rank q (queue_thread_pc q t))%nat.
Proof.
  intros Hinv. have Hok := qi_pc _ _ _ _ _ _ Hinv t. rewrite /queue_rank.
  destruct (queue_thread_pc q t) as [| | | | | | | | |hd|hd tl|hd tl nx|tl m|hd nx|hd m v|v] eqn:Ht;
    cbn [in_enqueue Dequeue_step]; intros Hin Hne; try done.
  - solve_rank.
  - solve_rank.
  - destruct Hok as [_ (i & j & Hi & Hj & _)]. destruct (qi_heap _ _ _ _ _ _ Hinv _ _ Hi) as (nd & Hnd & Hlink & _).
    have Hnx : next_of (q_heap q) hd = qnode_next nd by rewrite /next_of Hnd.
    rewrite Hnd /=. destruct (qnode_next nd); solve_rank.
  - destruct nx; repeat case_decide; solve_rank.
  - destruct Hok as [_ (i & Htl & Hm)]. destruct (decide (tl = q_tail q)) as [->|Htq].
    + have [Hlast Hhd] := queue_swing_last _ _ _ _ _ _ _ _ Hinv Htl Hm. solve_rank.
    + solve_rank.
  - destruct Hok as [_ (i & m & -> & Hi & Hm & _)].
    destruct (qi_heap _ _ _ _ _ _ Hinv _ _ Hm) as (nd & Hnd & _ & [v Hv]); [lia|].
    rewrite /= Hnd /= Hv /=. solve_rank.
  - case_decide; solve_rank.
  - solve_rank.
Qed.

Fixpoint queue_solo (q : msQueue) (t : nat) (fuel : nat) : option msQueue :=
  match fuel with
  | O => Some q
  | S fuel =>
      if queue_idle (queue_thread_pc q t) then Some q
      else '(q', _) ← queue_exec q (ActRun t); queue_solo q' t fuel
  end.

Lemma queue_step_rank q L hi ti vs p t :
  queue_inv q L hi ti vs p -> queue_thread_pc q t <> QueueIdle ->
  exists q' l, queue_exec q (ActRun t) = Some (q', l) /\ (queue_rank q' t < queue_rank q t)%nat.
Proof.
  intros Hinv Hne. rewrite /= {2}/queue_rank. destruct (in_enqueue (queue_thread_pc q t)) eqn:Hin.
  - by eapply enqueue_step_rank.
  - by eapply dequeue_step_rank.
Qed.

Lemma queue_rank_idle q t : (queue_rank q t <= 0)%nat -> queue_thread_pc q t = QueueIdle.
Proof.
  rewrite /queue_rank. destruct (queue_thread_pc q t) as [| | | n tl []| | | | | | | | hd tl []| | | |];
    simpl; rewrite ?/enqueue_rank ?/dequeue_rank; repeat case_decide; done || lia.
Qed.

Lemma queue_rank_le q t : (queue_rank q t <= 15)%nat.
Proof.
  rewrite /queue_rank. destruct (queue_thread_pc q t) as [| | | n tl []| | | | | | | | hd tl []| | | |];
    simpl; rewrite ?/enqueue_rank ?/dequeue_rank; repeat case_decide; lia.
Qed.

Lemma queue_solo_idle fuel q L hi ti vs p t :
  queue_inv q L hi ti vs p -> (queue_rank q t <= fuel)%nat ->
  exists q', queue_solo q t fuel = Some q' /\ queue_thread_pc q' t = QueueIdle.
Proof.
  revert q L hi ti vs p. induction fuel as [|fuel IH]; intros q L hi ti vs p Hinv Hr.
  - exists q. split; [done|]. by apply queue_rank_idle.
  - cbn [queue_solo]. destruct (queue_idle (queue_thread_pc q t)) eqn:Hi.
    { exists q. split; [done|]. by destruct (queue_thread_pc q t). }
    destruct (queue_step_rank q L hi ti vs p t Hinv) as (q' & l & Hexec & Hlt); [by intros Heq; rewrite Heq in Hi|].
    rewrite Hexec /=.
    destruct (queue_exec_sim _ _ _ _ _ _ _ _ _ Hinv Hexec) as (L' & hi' & ti' & vs' & p' & _ & Hinv').
    eapply IH; [done|lia].
Qed.

(** ** The worker's loop: one consumer that asks [IsEmpty] first *)

(** [consumer_run c q ok]: [q] is reached with [c] the only thread that calls
    [Dequeue], each call after an [IsEmpty] that returned false; [ok] says that
    the last [IsEmpty] of [c] returned false and was not used yet. *)
Inductive consumer_run (c : nat) : msQueue -> bool -> Prop :=
| cr_new : consumer_run c NewQueue false
| cr_is_empty q ok :
    consumer_run c q ok -> queue_thread_pc q c = QueueIdle -> consumer_run c q (negb (IsEmpty q))
| cr_dequeue q q' l :
    consumer_run c q true -> queue_exec q (ActDequeue c) = Some (q', l) -> consumer_run c q' false
| cr_enqueue q ok t v q' l :
    consumer_run c q ok -> queue_exec q (ActEnqueue t v) = Some (q', l) -> consumer_run c q' ok
| cr_step q ok t q' l :
    consumer_run c q ok -> queue_exec q (ActRun t) = Some (q', l) -> consumer_run c q' ok.

(** An element that is linked but not counted yet. *)
Definition uncounted (pc : queue_pc) : Z :=
  match pc with EnqSwing _ _ | EnqAdd => 1 | _ => 0 end.

Definition consuming (pc : queue_pc) : bool :=
  match pc with
  | DeqHead | DeqTail _ | DeqNext _ _ | DeqCheck _ _ _ | DeqHelp _ _ | DeqValue _ _ | DeqCas _ _ _ => true
  | _ => false
  end.

Definition in_dequeue (pc : queue_pc) : bool := negb (queue_idle pc) && negb (in_enqueue pc).

Definition linked_change (l : queue_label) : Z :=
  match l with QEnqueued _ => 1 | QDequeued _ => -1 | _ => 0 end.

(** What a step does to the thread that executes it. *)
Lemma queue_exec_effect q a q' l :
  queue_exec q a = Some (q', l) ->
  exists pc', let pc := queue_thread_pc q (queue_act_thread a) in
    q_threads q' = <[queue_act_thread a := pc']> (q_threads q) /\
    uncounted pc' <= uncounted pc + (if l is QEnqueued _ then 1 else 0) /\
    (in_dequeue pc = false -> in_dequeue pc' = true -> exists t, a = ActDequeue t) /\
    (consuming pc' = true -> consuming pc = true \/ exists t, a = ActDequeue t) /\
    (forall v, l = QDequeued v -> consuming pc = true /\ consuming pc' = false) /\
    (l = QSawEmpty -> consuming pc = true).
Proof.
  destruct a as [t v|t|t]; simpl.
  - destruct (queue_thread_pc q t); try done. intros [= <- <-]. eexists. split; [done|]. simpl. naive_solver lia.
  - destruct (queue_thread_pc q t); try done. intros [= <- <-]. eexists. split; [done|]. simpl. naive_solver lia.
  - destruct (queue_thread_pc q t) eqn:Ht; simpl; try done; intros Hexec; simplify_option_eq;
      repeat case_match; simplify_option_eq; (eexists; split; [done|]); simpl; split_and!; done || naive_solver lia.
Qed.

Record consumer_inv (c : nat) (q : msQueue) (ok : bool) (vs : list T) (p : gmap nat queue_call) : Prop := {
  ci_others t : t <> c -> in_dequeue (queue_thread_pc q t) = false;
  ci_ok : ok = true -> in_dequeue (queue_thread_pc q c) = false;
  ci_enough : map_sum uncounted (q_threads q) +
    (if ok || consuming (queue_thread_pc q c) then 1 else 0) <= zlen vs;
  ci_call : p !! c <> Some (WaitDeq true)
}.

Lemma queue_spec_length vs p t l vs' p' :
  queue_spec (vs, p) (t, l) (vs', p') -> zlen vs' = zlen vs + linked_change l.
Proof. inversion 1; simplify_eq; rewrite ?zlen_app /zlen /=; lia. Qed.

(** A call of [Dequeue] notes an empty queue only on an empty queue. *)
Lemma queue_spec_saw vs p t l vs' p' c :
  queue_spec (vs, p) (t, l) (vs', p') -> (l = QSawEmpty -> vs <> [] \/ t <> c) ->
  p !! c <> Some (WaitDeq true) -> p' !! c <> Some (WaitDeq true).
Proof.
  intros Hspec Hne Hp. inversion Hspec; simplify_eq; try done;
    rewrite ?lookup_insert ?lookup_delete; repeat case_decide; try done.
  destruct (Hne eq_refl); congruence.
Qed.

Lemma queue_thread_pc_after q q' t pc t' :
  q_threads q' = <[t := pc]> (q_threads q) ->
  queue_thread_pc q' t' = if decide (t = t') then pc else queue_thread_pc q t'.
Proof. rewrite /queue_thread_pc. intros ->. rewrite lookup_insert. by case_decide. Qed.

Lemma map_sum_uncounted q t pc :
  map_sum uncounted (<[t := pc]> (q_threads q)) =
    map_sum uncounted (q_threads q) + uncounted pc - uncounted (queue_thread_pc q t).
Proof. rewrite map_sum_insert /queue_thread_pc. by destruct (q_threads q !! t). Qed.

Lemma in_dequeue_consuming pc : consuming pc = true -> in_dequeue pc = true.
Proof. by destruct pc. Qed.

(** There are enough linked elements for the consumer: arithmetic of one step. *)
Lemma consumer_enough c q q' ok ok' t pc' l (vs : list T) :
  (forall u, u <> c -> in_dequeue (queue_thread_pc q u) = false) ->
  (ok = true -> in_dequeue (queue_thread_pc q c) = false) ->
  map_sum uncounted (q_threads q) + (if ok || consuming (queue_thread_pc q c) then 1 else 0) <= zlen vs ->
  queue_thread_pc q' c = (if decide (t = c) then pc' else queue_thread_pc q c) ->
  uncounted pc' <= uncounted (queue_thread_pc q t) + (if l is QEnqueued _ then 1 else 0) ->
  (consuming pc' = true -> consuming (queue_thread_pc q t) = true \/ ok = true) ->
  (forall v, l = QDequeued v -> consuming (queue_thread_pc q t) = true /\ consuming pc' = false) ->
  (ok' = true -> ok = true) ->
  map_sum uncounted (q_threads q) + uncounted pc' - uncounted (queue_thread_pc q t) +
    (if ok' || consuming (queue_thread_pc q' c) then 1 else 0) <= zlen vs + linked_change l.
Proof.
  intros Hothers Hok Henough -> Hunc Hcons Hdq Hokk.
  have Hdeq : (exists v, l = QDequeued v) \/ 0 <= linked_change l /\
    (if l is QEnqueued _ then 1 else 0) <= linked_change l by destruct l; naive_solver lia.
  destruct Hdeq as [[v ->]|Hl].
  - destruct (Hdq v eq_refl) as [Hc Hc']. simpl in *.
    destruct (decide (t = c)) as [->|Ht].
    + destruct ok; [by specialize (Hok eq_refl); rewrite in_dequeue_consuming in Hok|].
      destruct ok'; [by specialize (Hokk eq_refl)|]. rewrite Hc Hc' /= in Henough *. lia.
    + specialize (Hothers t Ht). by rewrite in_dequeue_consuming in Hothers.
  - have Hneed : (if ok' || consuming (if decide (t = c) then pc' else queue_thread_pc q c) then 1 else 0) <=
      (if ok || consuming (queue_thread_pc q c) then 1 else 0).
    { destruct ok; simpl; [by destruct (ok' || _)|]. destruct ok'; [by specialize (Hokk eq_refl)|]. simpl.
      case_decide as Ht; [|lia]. subst t. destruct (consuming pc'); [|by destruct (consuming _)].
      by destruct (Hcons eq_refl) as [->|]. }
    lia.
Qed.

Lemma consumer_step c q ok a q' l ok' vs p vs' p' :
  consumer_inv c q ok vs p -> queue_exec q a = Some (q', l) ->
  queue_spec (vs, p) (queue_act_thread a, l) (vs', p') ->
  (forall t, a = ActDequeue t -> t = c /\ ok = true /\ ok' = false) ->
  ((forall t, a <> ActDequeue t) -> ok' = ok) ->
  consumer_inv c q' ok' vs' p'.
Proof.
  intros [Hothers Hok Henough Hcall] Hexec Hspec Hdeq Hnd.
  destruct (queue_exec_effect _ _ _ _ Hexec) as (pc' & Hths & Hunc & Hin & Hcons & Hdq & Hsaw).
  set (t := queue_act_thread a) in *.
  have Hlen := queue_spec_length _ _ _ _ _ _ Hspec.
  have Hpos : 0 <= map_sum uncounted (q_threads q) by apply map_sum_nonneg; intros []; simpl; lia.
  have Hkind : (exists u, a = ActDequeue u) \/ (forall u, a <> ActDequeue u).
  { destruct a; [by right|left; by eexists|by right]. }
  split.
  - intros u Hu. rewrite (queue_thread_pc_after _ _ _ _ _ Hths). case_decide as Htu; [|by apply Hothers].
    subst u. destruct (in_dequeue pc') eqn:Hd; [|done].
    destruct (Hin (Hothers _ Hu) eq_refl) as [u ->]. by destruct (Hdeq u eq_refl).
  - intros ->. rewrite (queue_thread_pc_after _ _ _ _ _ Hths).
    destruct Hkind as [[u ->]|Hk]; [by destruct (Hdeq u eq_refl) as (_ & _ & ?)|].
    have Hokc := Hok (eq_sym (Hnd Hk)). case_decide as Htc; [|done].
    destruct (in_dequeue pc') eqn:Hd; [|done]. rewrite Htc in Hin.
    destruct (Hin Hokc eq_refl) as [u ->]. by destruct (Hk u).
  - rewrite Hths map_sum_uncounted Hlen. eapply consumer_enough; try done.
    + by rewrite (queue_thread_pc_after _ _ _ _ _ Hths).
    + intros [?|[u ->]]%Hcons; [by left|]. right. by destruct (Hdeq u eq_refl) as (_ & ? & _).
    + intros ->. destruct Hkind as [[u ->]|Hk]; [by destruct (Hdeq u eq_refl) as (_ & ? & _)|]. by rewrite -Hnd.
  - eapply queue_spec_saw; try done. intros Hl. destruct (decide (t = c)) as [Htc|]; [left|by right].
    intros ->. rewrite -Htc Hsaw // orb_true_r /zlen /= in Henough. lia.
Qed.


(** With no thread between the removal of an element and its count, the size is
    the number of elements less the uncounted ones. *)
Lemma size_counts q L hi ti vs p :
  queue_inv q L hi ti vs p -> (forall t v, queue_thread_pc q t <> DeqAdd v) ->
  q_size q = int32 (zlen vs - map_sum uncounted (q_threads q)).
Proof.
  intros Hinv Hno. rewrite (qi_size _ _ _ _ _ _ Hinv). f_equal.
  have : map_sum size_lag (q_threads q) = - map_sum uncounted (q_threads q); [|lia].
  apply (map_sum_ind (fun x y => x = - y)); [done|]. intros t pc x y Ht ->.
  have Hpc := Hno t. rewrite /queue_thread_pc Ht /= in Hpc. destruct pc; simpl; try lia. by destruct (Hpc value).
Qed.

Lemma consumer_run_inv c q ok :
  consumer_run c q ok ->
  exists L hi ti vs p, queue_inv q L hi ti vs p /\ consumer_inv c q ok vs p.
Proof.
  induction 1 as [|q ok _ IH Hidle|q q' l _ IH Hexec|q ok t v q' l _ IH Hexec|q ok t q' l _ IH Hexec];
    [|destruct IH as (L & hi & ti & vs & p & Hinv & Hc)..].
  - exists [0%nat], 0%nat, 0%nat, [], ∅. split; [apply queue_inv_new|].
    by split.
  - exists L, hi, ti, vs, p. split; [done|]. destruct Hc as [Hothers Hok Henough Hcall].
    split; try done; [by rewrite Hidle|].
    have Hsize : q_size q = int32 (zlen vs - map_sum uncounted (q_threads q)).
    { eapply size_counts; [done|]. intros t w Hw. destruct (decide (t = c)) as [->|Ht]; [congruence|].
      specialize (Hothers t Ht). by rewrite Hw in Hothers. }
    rewrite Hidle /IsEmpty Hsize /= orb_false_r.
    destruct (Z.eqb_spec (int32 (zlen vs - map_sum uncounted (q_threads q))) 0) as [|Hne]; simpl.
    + destruct (ok || _) in Henough; lia.
    + destruct (decide (zlen vs = map_sum uncounted (q_threads q))) as [He|]; [|destruct (ok || _) in Henough; lia].
      by rewrite He Z.sub_diag in Hne.
  - destruct (queue_exec_sim _ _ _ _ _ _ _ _ _ Hinv Hexec) as (L' & hi' & ti' & vs' & p' & Hspec & Hinv').
    exists L', hi', ti', vs', p'. split; [done|]. eapply consumer_step; try done.
    + by intros t [= <-].
    + intros Hn. by destruct (Hn c).
  - destruct (queue_exec_sim _ _ _ _ _ _ _ _ _ Hinv Hexec) as (L' & hi' & ti' & vs' & p' & Hspec & Hinv').
    exists L', hi', ti', vs', p'. split; [done|]. by eapply consumer_step.
  - destruct (queue_exec_sim _ _ _ _ _ _ _ _ _ Hinv Hexec) as (L' & hi' & ti' & vs' & p' & Hspec & Hinv').
    exists L', hi', ti', vs', p'. split; [done|]. by eapply consumer_step.
Qed.

End Queue.

(** ** Properties *)

Section QueueProperties.
Context {T : Type}.
Variable getZero : T.

(** C8. The queue is linearizable under every interleaving: the trace of any
    schedule is a trace of a sequential first-in first-out queue in which each
    call takes effect once between its call and its return; a [Dequeue] that
    returns the zero value saw the queue empty during the call. *)
Theorem queue_linearizable acts (q : msQueue) tr :
  queue_run getZero NewQueue acts = Some (q, tr) ->
  exists vs p, queue_spec_run getZero ([], ∅) tr (vs, p) /\
    (forall t, queue_thread_pc q t = QueueIdle <-> p !! t = None).
Proof.
  intros Hrun. destruct (queue_run_sim getZero _ _ _ Hrun) as (L & hi & ti & vs & p & Hspec & Hinv).
  exists vs, p. split; [done|]. intros t. have Hok := qi_pc _ _ _ _ _ _ Hinv t.
  destruct (queue_thread_pc q t); unfold queue_pc_ok, own_node, is_deq in Hok; naive_solver.
Qed.

(** C27. No thread of the queue is ever stuck on nil, and from any reachable state
    a thread returns within fifteen of its own operations when no other runs. *)
Theorem queue_solo_returns acts (q : msQueue) tr t :
  queue_run getZero NewQueue acts = Some (q, tr) ->
  exists q', queue_solo getZero q t 15 = Some q' /\ queue_thread_pc q' t = QueueIdle.
Proof.
  intros Hrun. destruct (queue_run_sim getZero _ _ _ Hrun) as (L & hi & ti & vs & p & _ & Hinv).
  eapply queue_solo_idle; [done|]. apply queue_rank_le.
Qed.

(** C28. The worker loop [for !q.IsEmpty() { q.Dequeue() }] never receives the zero
    value: when one thread consumes and asks [IsEmpty] before each [Dequeue], no
    step of any thread returns from [Dequeue] without an element. *)
Theorem consumer_never_empty c (q : msQueue) ok t q' l v :
  consumer_run getZero c q ok -> queue_exec getZero q (ActRun t) = Some (q', l) -> l <> QReturnEmpty v.
Proof.
  intros Hrun Hexec ->. destruct (consumer_run_inv getZero _ _ _ Hrun) as (L & hi & ti & vs & p & Hinv & Hc).
  destruct (queue_exec_sim getZero _ _ _ _ _ _ _ _ _ Hinv Hexec) as (L' & hi' & ti' & vs' & p' & Hspec & _).
  simpl in Hspec. inversion Hspec; simplify_eq. have [Hothers _ _ Hcall] := Hc.
  destruct (decide (t = c)) as [->|Ht]; [done|]. specialize (Hothers t Ht).
  have Hok := qi_pc _ _ _ _ _ _ Hinv t.
  destruct (queue_thread_pc q t); simpl in *; rewrite ?/own_node in Hok; naive_solver.
Qed.

End QueueProperties.

(** *** A schedule with a lagging tail: an enqueue is helped by a dequeue *)
Definition helped_dequeue : list (queue_act (T := Z)) :=
  [ActEnqueue 0 7; ActRun 0; ActRun 0; ActRun 0; ActRun 0; ActDequeue 1; ActRun 1; ActRun 1; ActRun 1; ActRun 1;
   ActRun 1; ActRun 1; ActRun 1; ActRun 1; ActRun 1; ActRun 1; ActRun 1].

Definition queue_end (acts : list queue_act) : msQueue (T := Z) * list (nat * queue_label (T := Z)) :=
  default (NewQueue, []) (queue_run 0 NewQueue acts).

Lemma queue_linearizable_witness :
  exists vs p, queue_spec_run 0 ([], ∅) (queue_end helped_dequeue).2 (vs, p) /\
    (forall t, queue_thread_pc (queue_end helped_dequeue).1 t = QueueIdle <-> p !! t = None).
Proof. apply (queue_linearizable 0 helped_dequeue). vm_compute. reflexivity. Defined.

Lemma queue_solo_returns_witness :
  exists q', queue_solo 0 (queue_end helped_dequeue).1 1 15 = Some q' /\ queue_thread_pc q' 1 = QueueIdle.
Proof. apply (queue_solo_returns 0 helped_dequeue _ (queue_end helped_dequeue).2). vm_compute. reflexivity. Defined.

(** One element enqueued and counted, then the consumer inside [Dequeue]. *)
Definition counted_element : msQueue (T := Z) :=
  (queue_end [ActEnqueue 0 7; ActRun 0; ActRun 0; ActRun 0; ActRun 0; ActRun 0; ActRun 0; ActDequeue 1]).1.

Lemma consumer_never_empty_witness :
  consumer_run 0 1 counted_element false /\ QInternal <> QReturnEmpty (T := Z) 0.
Proof.
  have Hrun : consumer_run 0 1 counted_element false.
  { pose proof (cr_enqueue 0 1 _ false 0 7 _ _ (cr_new 0 1) eq_refl) as Hrun.
    do 6 (pose proof (cr_step 0 1 _ _ 0 _ _ Hrun eq_refl) as Hrun'; clear Hrun; rename Hrun' into Hrun).
    pose proof (cr_is_empty 0 1 _ _ Hrun eq_refl) as Hne.
    exact (cr_dequeue 0 1 _ _ _ Hne eq_refl). }
  split; [exact Hrun|].
  eapply (consumer_never_empty 0 1 counted_element false 1); [exact Hrun|vm_compute; reflexivity].
Defined.
