(* ===== verification/KeyPool.v ===== *)
(** * KeyPool: [key_pool.go]

    The keys that identify the connections of a connectionless worker.  [get] pops
    a returned key and falls back to an atomic counter; several goroutines may be
    between the two operations, so a pool state carries the calls that found the
    stack empty.  The stack is used through the interface of [pkg/stack/stack.go];
    the sequential behaviour of the lock-free stack discharges it. *)

From S2P Require Import Prelude LockFreeStack.

(** ** The interface [stack.LockFreeStack[T]] *)

Class StackApi (T : Type) (zero : T) : Type := {
  stk : Type;
  stk_new : stk;
  stk_Push : stk -> T -> stk;
  stk_Pop : stk -> T * stk;
  stk_holds : stk -> list T -> Prop;
  stk_new_ok : stk_holds stk_new [];
  stk_Push_ok s vs v : stk_holds s vs -> stk_holds (stk_Push s v) (v :: vs);
  stk_Pop_ok s vs : stk_holds s vs ->
    (stk_Pop s).1 = match vs with [] => zero | v :: _ => v end /\ stk_holds (stk_Pop s).2 (tail vs)
}.

(** ** The lock-free stack implements it *)

Section SequentialStack.
Context {T : Type}.
Variable zero : T.

(** The value a step returns to the caller, when it ends the call. *)
Definition returned (l : stack_label (T := T)) : option T :=
  match l with SEmpty v => Some v | SReturn (Some v) => Some v | _ => None end.

(** A call of thread [t] run to its end without interruption. *)
Fixpoint call_alone (s : Stack (T := T)) (t : nat) (r : T) (fuel : nat) : T * Stack (T := T) :=
  match fuel with
  | O => (r, s)
  | S fuel =>
      if is_idle (thread_pc s t) then (r, s)
      else match stack_exec zero s (ActStep t) with
           | Some (s', l) => call_alone s' t (default r (returned l)) fuel
           | None => (r, s)
           end
  end.

(** What the rest of a call of [t] does to the sequential stack. *)
Definition rest_of_call (c : option (stack_call (T := T))) (vs : list T) (r : T) : T * list T :=
  match c with
  | None | Some (Finished None) => (r, vs)
  | Some (PendingPush v) => (r, v :: vs)
  | Some PendingPop => (match vs with [] => zero | v :: _ => v end, tail vs)
  | Some (Finished (Some v)) => (v, vs)
  end.

Lemma call_alone_ok fuel s vs p t r :
  stack_sim s vs p -> (solo_rank (st_top s) (thread_pc s t) <= fuel)%nat ->
  exists p', (call_alone s t r fuel).1 = (rest_of_call (p !! t) vs r).1 /\
    stack_sim (call_alone s t r fuel).2 (rest_of_call (p !! t) vs r).2 p' /\
    thread_pc (call_alone s t r fuel).2 t = StackIdle.
Proof.
  revert s vs p r. induction fuel as [|fuel IH]; intros s vs p r Hsim Hr; simpl.
  - have Hidle : thread_pc s t = StackIdle.
    { rewrite /solo_rank in Hr. destruct (thread_pc s t); repeat case_decide; done || lia. }
    have Hc := ss_calls _ _ _ Hsim t. rewrite Hidle /= in Hc. rewrite Hc. by exists p.
  - destruct (is_idle (thread_pc s t)) eqn:Hi.
    { have Hc := ss_calls _ _ _ Hsim t. destruct (thread_pc s t) eqn:Ht; try done.
      simpl in Hc. rewrite Hc. by exists p. }
    destruct (stack_step_rank zero s vs p t Hsim) as (s' & l & Hexec & Hlt); [by intros Heq; rewrite Heq in Hi|].
    destruct (stack_exec_sim zero _ _ _ (ActStep t) _ _ Hsim Hexec) as (vs' & p' & Hspec & Hsim').
    simpl in Hexec, Hspec. rewrite Hexec.
    destruct (IH s' vs' p' (default r (returned l)) Hsim') as (p'' & Hres & Hsim'' & Hidle); [lia|].
    exists p''. rewrite Hres. inversion Hspec; simplify_eq; simpl in *;
      rewrite ?lookup_insert_eq ?lookup_delete_eq in Hres Hsim'' *.
    + done.
    + by destruct (thread_pc s t); simpl in Hexec; simplify_option_eq; repeat case_match; simplify_eq.
    + by destruct (thread_pc s t); simpl in Hexec; simplify_option_eq; repeat case_match; simplify_eq.
    + match goal with H : p !! t = _ |- _ => rewrite H end. done.
    + match goal with H : p !! t = _ |- _ => rewrite H end. done.
    + match goal with H : p !! t = _ |- _ => rewrite H end. done.
    + match goal with H : p !! t = _ |- _ => rewrite H end. by destruct r0.
Qed.

Definition seq_Push (s : Stack (T := T)) (v : T) : Stack (T := T) := (call_alone (Push_call s 0 v) 0 zero 6).2.
Definition seq_Pop (s : Stack (T := T)) : T * Stack (T := T) := call_alone (Pop_call s 0) 0 zero 6.

Definition seq_holds (s : Stack (T := T)) (vs : list T) : Prop :=
  thread_pc s 0 = StackIdle /\ exists p, stack_sim s vs p.

Lemma seq_Push_ok s vs v : seq_holds s vs -> seq_holds (seq_Push s v) (v :: vs).
Proof.
  intros [Hidle [p Hsim]].
  destruct (stack_exec_sim zero _ _ _ (ActPush 0 v) (Push_call s 0 v) (SCallPush v) Hsim) as (vs' & p' & Hspec & Hsim').
  { by rewrite /= Hidle. }
  inversion Hspec; simplify_eq.
  destruct (call_alone_ok 6 _ _ _ 0 zero Hsim') as (p'' & _ & Hs & Hi); [apply solo_rank_le|].
  rewrite lookup_insert_eq in Hs. split; [done|]. by exists p''.
Qed.

Lemma seq_Pop_ok s vs :
  seq_holds s vs ->
  (seq_Pop s).1 = match vs with [] => zero | v :: _ => v end /\ seq_holds (seq_Pop s).2 (tail vs).
Proof.
  intros [Hidle [p Hsim]].
  destruct (stack_exec_sim zero _ _ _ (ActPop 0) (Pop_call s 0) SCallPop Hsim) as (vs' & p' & Hspec & Hsim').
  { by rewrite /= Hidle. }
  inversion Hspec; simplify_eq.
  destruct (call_alone_ok 6 _ _ _ 0 zero Hsim') as (p'' & Hr & Hs & Hi); [apply solo_rank_le|].
  rewrite lookup_insert_eq in Hr Hs. split; [done|]. split; [done|]. by exists p''.
Qed.

Lemma seq_new_ok : seq_holds NewLockFreeStack [].
Proof. split; [done|]. exists ∅. apply stack_sim_new. Qed.

#[export] Instance lock_free_stack_api : StackApi T zero := {|
  stk := Stack (T := T);
  stk_new := NewLockFreeStack;
  stk_Push := seq_Push;
  stk_Pop := seq_Pop;
  stk_holds := seq_holds;
  stk_new_ok := seq_new_ok;
  stk_Push_ok := seq_Push_ok;
  stk_Pop_ok := seq_Pop_ok
|}.

End SequentialStack.

(** ** The pool *)

Definition firstFreeKey : Z := 2.

Section KeyPool.
Context {api : StackApi Z 0}.

Record keyPool : Type := mkKeyPool { kp_stack : stk; kp_nextKey : Z }.

Definition newKeyPool : keyPool := mkKeyPool stk_new firstFreeKey.

(** The two atomic operations of [get]. *)
Definition keyPool_pop (p : keyPool) : Z * keyPool :=
  let '(key, s) := stk_Pop (kp_stack p) in (key, mkKeyPool s (kp_nextKey p)).

Definition keyPool_fresh (p : keyPool) : Z * keyPool :=
  let next := uint64 (kp_nextKey p + 1) in (uint64 (next - 1), mkKeyPool (kp_stack p) next).

Definition keyPool_get (p : keyPool) : Z * keyPool :=
  let '(key, p) := keyPool_pop p in
  if key =? 0 then keyPool_fresh p else (key, p).

Definition keyPool_put (p : keyPool) (key : Z) : keyPool :=
  mkKeyPool (stk_Push (kp_stack p) key) (kp_nextKey p).

(** The pool with its users: [held] are the keys handed out and not put back,
    [waiting] the calls of [get] between their two operations. *)
Record key_users : Type := mkUsers { ku_pool : keyPool; ku_held : list Z; ku_waiting : nat }.

(** A goroutine executes the first operation of [get], another one the second. *)
Definition users_pop (u : key_users) : key_users :=
  let '(key, p) := keyPool_pop (ku_pool u) in
  if key =? 0 then mkUsers p (ku_held u) (S (ku_waiting u)) else mkUsers p (key :: ku_held u) (ku_waiting u).

Definition users_fresh (u : key_users) : key_users :=
  let '(key, p) := keyPool_fresh (ku_pool u) in mkUsers p (key :: ku_held u) (pred (ku_waiting u)).

Inductive key_step : key_users -> key_users -> Prop :=
| ks_pop u : key_step u (users_pop u)
| ks_fresh u : (0 < ku_waiting u)%nat -> key_step u (users_fresh u)
| ks_put u l1 key l2 :
    ku_held u = l1 ++ key :: l2 ->
    key_step u (mkUsers (keyPool_put (ku_pool u) key) (l1 ++ l2) (ku_waiting u))
| ks_put_zero u : key_step u (mkUsers (keyPool_put (ku_pool u) 0) (ku_held u) (ku_waiting u)).

Inductive key_reach : nat -> key_users -> Prop :=
| kr_new : key_reach 0 (mkUsers newKeyPool [] 0)
| kr_step n u u' : key_reach n u -> key_step u u' -> key_reach (S n) u'.

(** Every key in use or in the stack is different and below the counter; the
    stack may hold zeros besides. *)
Definition key_inv (n : nat) (u : key_users) : Prop :=
  2 <= kp_nextKey (ku_pool u) <= 2 + Z.of_nat n /\
  exists vs, stk_holds (kp_stack (ku_pool u)) vs /\
    NoDup (ku_held u ++ filter (fun k => k <> 0) vs) /\
    (forall k, k ∈ ku_held u \/ k ∈ vs -> k = 0 \/ 2 <= k < kp_nextKey (ku_pool u)) /\
    0 ∉ ku_held u.

Lemma key_inv_pop n u : key_inv n u -> key_inv (S n) (users_pop u).
Proof.
  intros [Hn (vs & Hvs & Hnd & Hk & H0)]. rewrite /users_pop /keyPool_pop.
  destruct (stk_Pop_ok _ _ Hvs) as [Hkey Hrest].
  destruct (stk_Pop (kp_stack (ku_pool u))) as [key' s]. simpl in Hkey, Hrest.
  destruct (Z.eqb_spec key' 0) as [->|Hne].
  - split; [simpl; lia|]. exists (tail vs). split; [done|]. destruct vs as [|k vs]; [done|].
    simpl in *. subst k. rewrite filter_cons_False in Hnd; [tauto|]. split_and!; [done| |done].
    intros k Hin. apply Hk. destruct Hin; [by left|right; by right].
  - destruct vs as [|k vs]; [done|]. simpl in *. subst key'. rewrite filter_cons_True // in Hnd.
    split; [simpl; lia|]. exists vs. split; [done|]. simpl. split_and!.
    + rewrite -Permutation_middle in Hnd. exact Hnd.
    + intros k' [Hin|Hin]; apply Hk; [|right; by right].
      apply elem_of_cons in Hin as [->|Hin]; [right; left|by left].
    + intros [Heq|Hin]%elem_of_cons; [congruence|done].
Qed.

Lemma key_inv_fresh n u :
  Z.of_nat n < 2 ^ 64 - 3 -> key_inv n u -> key_inv (S n) (users_fresh u).
Proof.
  intros Hsmall [Hn (vs & Hvs & Hnd & Hk & H0)]. rewrite /users_fresh /keyPool_fresh.
  rewrite !wrap_u_small; [lia..|]. replace (_ + 1 - 1) with (kp_nextKey (ku_pool u)) by lia.
  split; [simpl; lia|]. exists vs. split; [done|]. simpl. split_and!.
  - apply NoDup_cons. split; [|done]. intros [Hin|Hin]%elem_of_app.
    + destruct (Hk _ (or_introl Hin)); lia.
    + apply list_elem_of_filter in Hin as [_ Hin]. destruct (Hk _ (or_intror Hin)); lia.
  - intros k [[->|Hin]%elem_of_cons|Hin]; [lia| |].
    + destruct (Hk k (or_introl Hin)); lia.
    + destruct (Hk k (or_intror Hin)); lia.
  - intros [Heq|Hin]%elem_of_cons; [lia|done].
Qed.

Lemma key_inv_put n u l1 key l2 :
  key_inv n u -> ku_held u = l1 ++ key :: l2 ->
  key_inv (S n) (mkUsers (keyPool_put (ku_pool u) key) (l1 ++ l2) (ku_waiting u)).
Proof.
  intros [Hn (vs & Hvs & Hnd & Hk & H0)] Hheld. split; [simpl; lia|]. rewrite Hheld in Hnd Hk H0.
  have Hne : key <> 0 by set_solver.
  exists (key :: vs). split; [by apply stk_Push_ok|]. simpl. split_and!.
  - rewrite filter_cons_True // -Permutation_middle. by rewrite -Permutation_middle in Hnd.
  - intros k Hin. apply Hk. set_solver.
  - set_solver.
Qed.

Lemma key_reach_inv n u : Z.of_nat n < 2 ^ 64 - 2 -> key_reach n u -> key_inv n u.
Proof.
  intros Hn Hr. induction Hr as [|n u u' Hr IH Hstep].
  { split; [simpl; rewrite /firstFreeKey; lia|]. exists []. split; [apply stk_new_ok|].
    split; [constructor|]. split; set_solver. }
  specialize (IH ltac:(lia)). inversion Hstep; subst.
  - by apply key_inv_pop.
  - apply (key_inv_fresh n u); [lia|done].
  - by apply key_inv_put.
  - destruct IH as [Hk (vs & Hvs & ? & Hin & ?)]. split; [simpl; lia|].
    exists (0 :: vs). split; [by apply stk_Push_ok|]. simpl. rewrite filter_cons_False; [lia|].
    split_and!; try done. intros k [Hk'|[->|Hk']%elem_of_cons]; auto.
Qed.

End KeyPool.

(** C29. The keys the pool has handed out are pairwise different, none is the
    invalid key 0 or the key 1 of the main socket, in every interleaving of the
    atomic operations of [get] and [put] by any number of goroutines, as long as
    fewer than [2^64 - 2] operations were executed. *)
Theorem keys_unique {api : StackApi Z 0} n u :
  Z.of_nat n < 2 ^ 64 - 2 -> key_reach n u ->
  NoDup (ku_held u) /\ Forall (fun k => 2 <= k < 2 + Z.of_nat n) (ku_held u).
Proof.
  intros Hn Hr. destruct (key_reach_inv _ _ Hn Hr) as [Hk (vs & _ & Hnd & Hin & H0)].
  split; [by apply NoDup_app in Hnd as [? _]|].
  apply Forall_forall. intros k Hkin. destruct (Hin k (or_introl Hkin)) as [->|]; [done|lia].
Qed.

Definition two_gets : key_users (api := lock_free_stack_api 0) :=
  users_fresh (users_fresh (users_pop (users_pop (mkUsers newKeyPool [] 0)))).

Lemma keys_unique_witness :
  NoDup (ku_held two_gets) /\ Forall (fun k => 2 <= k < 2 + Z.of_nat 4) (ku_held two_gets).
Proof.
  apply keys_unique; [lia|].
  eapply kr_step; [|apply ks_fresh; vm_compute; lia].
  eapply kr_step; [|apply ks_fresh; vm_compute; lia].
  eapply kr_step; [|apply ks_pop]. eapply kr_step; [apply kr_new|apply ks_pop].
Defined.
