(* ===== verification/Flags.v ===== *)
(** * Flags: [flags.go]

    A request carries its kind in the five highest bits of [UserData] and the key
    or the file descriptor of its connection in the others. *)

From S2P Require Import Prelude.

Definition uint64Size : Z := 64.

(** [1 << (uint64Size - 1 - iota)] *)
Definition acceptDataFlag : Z := Z.shiftl 1 (uint64Size - 1 - 0).
Definition readDataFlag : Z := Z.shiftl 1 (uint64Size - 1 - 1).
Definition writeDataFlag : Z := Z.shiftl 1 (uint64Size - 1 - 2).
Definition addConnFlag : Z := Z.shiftl 1 (uint64Size - 1 - 3).
Definition closeConnFlag : Z := Z.shiftl 1 (uint64Size - 1 - 4).

Definition allFlagsMask : Z :=
  Z.lor (Z.lor (Z.lor (Z.lor acceptDataFlag readDataFlag) writeDataFlag) addConnFlag) closeConnFlag.

(** [flag & f > 0] on [uint64]. *)
Definition has_flag (data f : Z) : bool := 0 <? Z.land data f.

(** [cqe.UserData & ^allFlagsMask]; [^] flips the 64 bits. *)
Definition key_of (data : Z) : Z := Z.land data (Z.lxor (2 ^ 64 - 1) allFlagsMask).

Definition flagToString (flag : Z) : string :=
  if has_flag flag acceptDataFlag then "accept flag"
  else if has_flag flag readDataFlag then "read flag"
  else if has_flag flag writeDataFlag then "write flag"
  else if has_flag flag addConnFlag then "add conn flag"
  else if has_flag flag closeConnFlag then "close conn flag"
  else "unknown flag".

(** ** Lemmas *)

Inductive is_flag : Z -> Prop :=
| flag_accept : is_flag acceptDataFlag
| flag_read : is_flag readDataFlag
| flag_write : is_flag writeDataFlag
| flag_add : is_flag addConnFlag
| flag_close : is_flag closeConnFlag.

Lemma flag_pow2 f : is_flag f -> exists n, 59 <= n <= 63 /\ f = 2 ^ n.
Proof.
  intros []; [exists 63|exists 62|exists 61|exists 60|exists 59]; (split; [lia|reflexivity]).
Qed.

Lemma testbit_small k n : 0 <= k < 2 ^ 59 -> 59 <= n -> Z.testbit k n = false.
Proof.
  intros Hk Hn. destruct (Z.eqb_spec k 0) as [->|]; [apply Z.bits_0|].
  apply Z.bits_above_log2; [lia|]. have : Z.log2 k < 59 by apply Z.log2_lt_pow2; lia. lia.
Qed.

Lemma key_mask : Z.lxor (2 ^ 64 - 1) allFlagsMask = Z.ones 59.
Proof. reflexivity. Qed.

Lemma key_of_ones data : key_of data = data mod 2 ^ 59.
Proof. rewrite /key_of key_mask Z.land_ones //. Qed.

(** The bits of a flag with a key. *)
Lemma testbit_flag_key n k i :
  59 <= n <= 63 -> 0 <= k < 2 ^ 59 -> 0 <= i -> Z.testbit (Z.lor (2 ^ n) k) i = (n =? i) || Z.testbit k i.
Proof. intros Hn Hk Hi. rewrite Z.lor_spec Z.pow2_bits_eqb; [lia|done]. Qed.

Lemma key_of_flag f k : is_flag f -> 0 <= k < 2 ^ 59 -> key_of (Z.lor f k) = k.
Proof.
  intros (n & Hn & ->)%flag_pow2 Hk. rewrite /key_of key_mask.
  apply Z.bits_inj'. intros i Hi. rewrite Z.land_spec testbit_flag_key //.
  rewrite Z.testbit_ones; [lia|]. destruct (Z.eqb_spec n i), (Z.leb_spec 0 i), (Z.ltb_spec i 59);
    simpl; try lia; rewrite ?andb_true_r ?andb_false_r //; by rewrite testbit_small.
Qed.

Lemma has_flag_key f g k :
  is_flag f -> is_flag g -> 0 <= k < 2 ^ 59 -> has_flag (Z.lor f k) g = bool_decide (f = g).
Proof.
  intros Hf Hg Hk. destruct (flag_pow2 f Hf) as (n & Hn & ->), (flag_pow2 g Hg) as (m & Hm & ->).
  rewrite /has_flag. have Hland : Z.land (Z.lor (2 ^ n) k) (2 ^ m) = if n =? m then 2 ^ m else 0.
  { apply Z.bits_inj'. intros i Hi. rewrite Z.land_spec testbit_flag_key // Z.pow2_bits_eqb; [lia|].
    destruct (Z.eqb_spec m i) as [->|].
    - rewrite andb_true_r testbit_small //; [lia|]. rewrite orb_false_r.
      destruct (Z.eqb_spec n i); [|by rewrite Z.bits_0]. by rewrite Z.pow2_bits_true; [lia|].
    - rewrite andb_false_r. destruct (n =? m); [|by rewrite Z.bits_0]. by rewrite Z.pow2_bits_false. }
  rewrite Hland. destruct (Z.eqb_spec n m) as [->|Hne].
  - rewrite bool_decide_true //. apply Z.ltb_lt. apply Z.pow_pos_nonneg; lia.
  - rewrite bool_decide_false //. intros Heq. apply Hne. by apply (Z.pow_inj_r 2); [lia..|].
Qed.

(** The name of a flag. *)
Definition flag_name (f : Z) : string :=
  if bool_decide (f = acceptDataFlag) then "accept flag"
  else if bool_decide (f = readDataFlag) then "read flag"
  else if bool_decide (f = writeDataFlag) then "write flag"
  else if bool_decide (f = addConnFlag) then "add conn flag"
  else if bool_decide (f = closeConnFlag) then "close conn flag"
  else "unknown flag".

(** C30. [UserData] is an unambiguous encoding: for a key below [2^59] the key is
    recovered from [flag | key], exactly the flag that was set is found in it, and
    [flagToString] names that flag. *)
Theorem user_data_roundtrip f k :
  is_flag f -> 0 <= k < 2 ^ 59 ->
  key_of (Z.lor f k) = k /\ (forall g, is_flag g -> has_flag (Z.lor f k) g = true <-> g = f) /\
  flagToString (Z.lor f k) = flag_name f.
Proof.
  intros Hf Hk. split_and!.
  - by apply key_of_flag.
  - intros g Hg. rewrite has_flag_key // bool_decide_eq_true. naive_solver.
  - rewrite /flagToString /flag_name !has_flag_key //; constructor.
Qed.

Lemma user_data_roundtrip_witness :
  key_of (Z.lor readDataFlag 42) = 42 /\
  (forall g, is_flag g -> has_flag (Z.lor readDataFlag 42) g = true <-> g = readDataFlag) /\
  flagToString (Z.lor readDataFlag 42) = flag_name readDataFlag.
Proof. apply user_data_roundtrip; [constructor|lia]. Defined.
