(* ===== verification/Submitter.v ===== *)
(** * Submitter: [submitter_batch.go]

    The submitter decides how many completions a worker waits for: the number
    moves up and down a fixed ladder.  The ring is not part of the program; what it
    returns from [SubmitAndWaitTimeout] is an argument of [submit]. *)

From S2P Require Import Prelude Errors.

Definition EAGAIN : Z := 11.
Definition EINTR : Z := 4.
Definition ETIME : Z := 62.

Definition waitForArray : list Z :=
  [1; 32; 64; 96; 128; 256; 384; 512; 768; 1024; 1536; 2048; 3072; 4096; 5120; 6144; 7168; 8192; 10240].

Record batchSubmitter : Type := mkSubmitter { waitForIndex : Z; waitFor : Z }.

(** [err] is the error of [ring.SubmitAndWaitTimeout(s.waitFor, ...)]. *)
Definition submit (s : batchSubmitter) (err : option error) : outcome (option error * batchSubmitter) :=
  match err with
  | None => Ret (None, s)
  | Some e =>
      if errors_Is e (Errno EAGAIN) || errors_Is e (Errno EINTR) || errors_Is e (Errno ETIME) then
        if waitForIndex s =? 0 then Ret (Some ErrSkippable, s)
        else
          let i := uint32 (waitForIndex s - 1) in
          w ← go_index waitForArray i;
          Ret (Some ErrSkippable, mkSubmitter i w)
      else Ret (Some (Wrap "submitAndWaitTimeout error: " e), s)
  end.

(** The loop of [advance] from [index] on. *)
Fixpoint advance_loop (fuel : nat) (index n : Z) (best : Z) : outcome Z :=
  match fuel with
  | O => Ret best
  | S fuel =>
      if index <? zlen waitForArray then
        w ← go_index waitForArray index;
        if n <? w then Ret best else advance_loop fuel (uint32 (index + 1)) n index
      else Ret best
  end.

(** [advance(n)], after [ring.CQAdvance(n)]. *)
Definition advance (s : batchSubmitter) (n : Z) : outcome batchSubmitter :=
  i ← advance_loop (length waitForArray) 1 n (waitForIndex s);
  w ← go_index waitForArray i;
  Ret (mkSubmitter i w).

Definition newBatchSubmitter : outcome batchSubmitter :=
  w ← go_index waitForArray 0; Ret (mkSubmitter 0 w).

(** ** The invariant *)

Definition submitter_ok (s : batchSubmitter) : Prop :=
  0 <= waitForIndex s < 19 /\ go_index waitForArray (waitForIndex s) = Ret (waitFor s).

Lemma waitFor_index i : 0 <= i < 19 -> exists w, go_index waitForArray i = Ret w /\ 1 <= w <= 10240.
Proof.
  intros Hi. rewrite /go_index. destruct (Z.ltb_spec i 0); [lia|].
  destruct (Z.to_nat i) as [|k] eqn:Hk; [by eexists|].
  do 18 (destruct k as [|k]; [eexists; split; [reflexivity|lia]|]). lia.
Qed.

(** Where the loop stops: the last rung that is at most [n]. *)
Lemma advance_loop_ok fuel index n best :
  0 <= index <= 19 -> (19 <= index + Z.of_nat fuel) ->
  exists i, advance_loop fuel index n best = Ret i /\
    ((i = best /\ (forall w, go_index waitForArray index = Ret w -> n < w)) \/
     (index <= i < 19 /\ (exists w, go_index waitForArray i = Ret w /\ w <= n) /\
      (forall w, go_index waitForArray (i + 1) = Ret w -> n < w))).
Proof.
  revert index best. induction fuel as [|fuel IH]; intros index best Hi Hf; simpl.
  - have -> : index = 19 by lia. exists best. split; [done|]. by left.
  - change (zlen waitForArray) with 19. destruct (Z.ltb_spec index 19) as [Hlt|].
    + destruct (waitFor_index index) as (w & Hw & Hwr); [lia|]. rewrite Hw /=.
      destruct (Z.ltb_spec n w) as [Hn|Hn].
      * exists best. split; [done|]. left. split; [done|]. intros w' [= <-]. done.
      * rewrite wrap_u_small; [lia|].
        destruct (IH (index + 1) index) as (i & -> & Hcase); [lia..|]. exists i. split; [done|]. right.
        destruct Hcase as [[-> Hnext]|(Hir & Hw' & Hnext)].
        -- split; [lia|]. split; [by exists w|done].
        -- split; [lia|]. done.
    + exists best. split; [done|]. left. split; [done|]. by have -> : index = 19 by lia.
Qed.

Lemma new_submitter_ok : exists s, newBatchSubmitter = Ret s /\ submitter_ok s.
Proof. eexists. split; [reflexivity|]. split; [simpl; lia|done]. Qed.

Lemma submit_ok s err :
  submitter_ok s ->
  exists e s', submit s err = Ret (e, s') /\ submitter_ok s' /\
    (e = Some ErrSkippable -> waitForIndex s' = Z.max 0 (waitForIndex s - 1) \/ s' = s) /\
    (e = None -> err = None /\ s' = s).
Proof.
  intros [Hi Hw]. destruct err as [err|]; simpl; [|eexists _, _; split; [done|]; split; [done|]; naive_solver].
  destruct (errors_Is err _ || _ || _).
  - destruct (Z.eqb_spec (waitForIndex s) 0) as [H0|H0].
    + eexists _, _. split; [done|]. split; [done|]. split; [|done]. intros _. by right.
    + rewrite wrap_u_small; [lia|]. destruct (waitFor_index (waitForIndex s - 1)) as (w & Hw' & _); [lia|].
      rewrite Hw' /=. eexists _, _. split; [done|]. split; [split; [simpl; lia|done]|].
      split; [|done]. intros _. left. simpl. lia.
  - eexists _, _. split; [done|]. split; [done|]. split; [|done]. intros _. by right.
Qed.

Lemma advance_ok s n :
  submitter_ok s ->
  exists s', advance s n = Ret s' /\ submitter_ok s' /\
    ((n < 32 /\ s' = s) \/
     (waitFor s' <= n /\ forall w, go_index waitForArray (waitForIndex s' + 1) = Ret w -> n < w)).
Proof.
  intros [Hi Hw]. rewrite /advance.
  destruct (advance_loop_ok (length waitForArray) 1 n (waitForIndex s)) as (i & -> & Hcase); [lia|simpl; lia|].
  rewrite bind_Ret. destruct Hcase as [[-> Hn]|(Hir & (w & Hw' & Hle) & Hn)].
  - rewrite Hw /=. eexists. split; [done|]. split; [split; done|]. left.
    split; [by apply Hn|]. by destruct s.
  - rewrite Hw' /=. eexists. split; [done|]. split; [split; [simpl; lia|done]|]. by right.
Qed.

(** ** Histories of a submitter *)

Inductive submitter_op : Type :=
| SubmitOp (err : option error)
| AdvanceOp (n : Z).

Definition submitter_step (s : batchSubmitter) (op : submitter_op) : outcome batchSubmitter :=
  match op with
  | SubmitOp err => '(_, s) ← submit s err; Ret s
  | AdvanceOp n => advance s n
  end.

Fixpoint submitter_run (s : batchSubmitter) (ops : list submitter_op) : outcome batchSubmitter :=
  match ops with
  | [] => Ret s
  | op :: ops => s ← submitter_step s op; submitter_run s ops
  end.

Lemma submitter_run_ok ops s :
  submitter_ok s -> exists s', submitter_run s ops = Ret s' /\ submitter_ok s'.
Proof.
  revert s. induction ops as [|op ops IH]; intros s Hs; [by exists s|]. destruct op as [err|n]; simpl.
  - destruct (submit_ok s err Hs) as (e & s' & -> & Hs' & _). simpl. by apply IH.
  - destruct (advance_ok s n Hs) as (s' & -> & Hs' & _). simpl. by apply IH.
Qed.

(** The ladder goes up. *)
Lemma ladder_sorted i r n w :
  0 <= i < 19 -> go_index waitForArray i = Ret r ->
  (forall x, go_index waitForArray (i + 1) = Ret x -> n < x) -> w ∈ waitForArray -> w <= n -> w <= r.
Proof.
  intros Hi Hr Hnext Hin Hw.
  have Hcase : i = 0 \/ i = 1 \/ i = 2 \/ i = 3 \/ i = 4 \/ i = 5 \/ i = 6 \/ i = 7 \/ i = 8 \/ i = 9 \/ i = 10 \/
    i = 11 \/ i = 12 \/ i = 13 \/ i = 14 \/ i = 15 \/ i = 16 \/ i = 17 \/ i = 18 by lia.
  rewrite /waitForArray !elem_of_cons elem_of_nil in Hin.
  repeat destruct Hcase as [->|Hcase]; try subst i; injection Hr as <-;
    try (specialize (Hnext _ eq_refl)); lia.
Qed.

(** Timeouts lower the index one by one. *)
Lemma timeouts_ok k s :
  submitter_ok s ->
  exists s', submitter_run s (replicate k (SubmitOp (Some (Errno ETIME)))) = Ret s' /\ submitter_ok s' /\
    waitForIndex s' = Z.max 0 (waitForIndex s - Z.of_nat k).
Proof.
  revert s. induction k as [|k IH]; intros s Hs.
  - exists s. split; [done|]. split; [done|]. destruct Hs as [Hi _]. lia.
  - have [Hi Hw] := Hs. cbn [replicate submitter_run submitter_step submit].
    change (errors_Is (Errno ETIME) (Errno EAGAIN) || errors_Is (Errno ETIME) (Errno EINTR) ||
      errors_Is (Errno ETIME) (Errno ETIME)) with true. cbn [andb].
    destruct (Z.eqb_spec (waitForIndex s) 0) as [H0|H0].
    + destruct (IH s Hs) as (s' & Hrun & Hs' & Hidx). exists s'. split; [done|]. split; [done|]. lia.
    + rewrite wrap_u_small; [lia|]. destruct (waitFor_index (waitForIndex s - 1)) as (w & Hw' & _); [lia|].
      rewrite Hw' !bind_Ret. destruct (IH (mkSubmitter (waitForIndex s - 1) w)) as (s' & Hrun & Hs' & Hidx).
      { split; [simpl; lia|done]. }
      exists s'. split; [done|]. split; [done|]. simpl in Hidx. lia.
Qed.

(** Whatever the ring returns and however many completions are consumed, the
    submitter never indexes outside [waitForArray]: it waits for 1 to 10240
    completions, and the number is the rung its index names. *)
Theorem submitter_stays_on_ladder ops :
  exists s0 s, newBatchSubmitter = Ret s0 /\ submitter_run s0 ops = Ret s /\
    go_index waitForArray (waitForIndex s) = Ret (waitFor s) /\ 1 <= waitFor s <= 10240.
Proof.
  destruct new_submitter_ok as (s0 & Hnew & Hs0). destruct (submitter_run_ok ops s0 Hs0) as (s & Hrun & Hi & Hw).
  exists s0, s. split; [done|]. split; [done|]. split; [done|].
  destruct (waitFor_index _ Hi) as (w & Hw' & Hr). rewrite Hw in Hw'. injection Hw' as ->. done.
Qed.

(** After [advance(n)] of at least 32 completions the submitter waits for the
    largest rung that is at most [n]; with fewer it keeps its rung. *)
Theorem advance_picks_rung ops n s0 s :
  newBatchSubmitter = Ret s0 -> submitter_run s0 ops = Ret s ->
  exists s', advance s n = Ret s' /\
    ((n < 32 /\ s' = s) \/ (waitFor s' <= n /\ forall w, w ∈ waitForArray -> w <= n -> w <= waitFor s')).
Proof.
  intros [= <-] Hrun. destruct (submitter_run_ok ops (mkSubmitter 0 1)) as (s1 & Hrun' & Hs).
  { split; [simpl; lia|done]. }
  rewrite Hrun in Hrun'. injection Hrun' as <-.
  destruct (advance_ok s n Hs) as (s' & Heq & [Hi Hw] & [Hlow|[Hle Hnext]]); exists s'; (split; [done|]); [by left|right].
  split; [done|]. intros w Hin Hwn. by eapply ladder_sorted.
Qed.

Definition one_batch : list submitter_op := [AdvanceOp 100; SubmitOp (Some (Errno ETIME))].

Lemma advance_picks_rung_witness :
  exists s', advance (mkSubmitter 2 64) 500 = Ret s' /\
    ((500 < 32 /\ s' = mkSubmitter 2 64) \/
     (waitFor s' <= 500 /\ forall w, w ∈ waitForArray -> w <= 500 -> w <= waitFor s')).
Proof. apply (advance_picks_rung one_batch 500 (mkSubmitter 0 1)); reflexivity. Defined.

(** When the ring stays idle the submitter comes down to waiting for a single
    completion: after 18 timeouts in a row, whatever happened before, [waitFor]
    is 1, and every one of those calls reports [ErrSkippable]. *)
Theorem idle_ring_waits_for_one ops k s0 s :
  newBatchSubmitter = Ret s0 -> submitter_run s0 ops = Ret s -> (18 <= k)%nat ->
  exists s', submitter_run s (replicate k (SubmitOp (Some (Errno ETIME)))) = Ret s' /\ waitFor s' = 1.
Proof.
  intros [= <-] Hrun Hk. destruct (submitter_run_ok ops (mkSubmitter 0 1)) as (s1 & Hrun' & Hs).
  { split; [simpl; lia|done]. }
  rewrite Hrun in Hrun'. injection Hrun' as <-. destruct (timeouts_ok k s Hs) as (s' & Heq & [_ Hw] & Hi).
  exists s'. split; [done|]. destruct Hs as [Hr _]. rewrite Hi in Hw.
  rewrite Z.max_l in Hw; [lia|]. by injection Hw as <-.
Qed.

Lemma idle_ring_waits_for_one_witness :
  exists s', submitter_run (mkSubmitter 2 64) (replicate 18 (SubmitOp (Some (Errno ETIME)))) = Ret s' /\ waitFor s' = 1.
Proof. apply (idle_ring_waits_for_one one_batch 18 (mkSubmitter 0 1)); [reflexivity..|lia]. Defined.
