(* ===== verification/LoadBalancer.v ===== *)
(** * LoadBalancer: [load_balancer.go]

    The three ways in which the acceptor chooses the consumer of a new connection.
    A balancer sees a consumer through [setIndex] and [activeConnections] only, so
    the consumers are a type with these two operations. *)

From S2P Require Import Prelude Errors.
Local Open Scope string_scope.
Local Open Scope list_scope.
Local Open Scope Z_scope.

Class Consumer (W : Type) : Type := {
  setIndex : W -> Z -> W;
  activeConnections : W -> Z
}.

(** ** [crc32.ChecksumIEEE] *)

(** One bit of the reflected polynomial division. *)
Definition crc_bit (c : Z) : Z :=
  if Z.testbit c 0 then Z.lxor (Z.shiftr c 1) 3988292384 else Z.shiftr c 1.

Definition crc_byte (c : Z) (b : byte) : Z :=
  Nat.iter 8 crc_bit (Z.lxor c (Z.of_N (Byte.to_N b))).

Definition ChecksumIEEE (bs : list byte) : Z :=
  Z.lxor (foldl crc_byte 4294967295 bs) 4294967295.

(** [[]byte(s)] *)
Definition string_bytes (s : string) : list byte := String.list_byte_of_string s.

Inductive LoadBalancing : Type := RoundRobin | LeastConnections | SourceIPHash | OtherBalancing (n : Z).

Section Balancer.
Context {W : Type} `{!Consumer W}.

Record genericLoadBalancer : Type := mkBalancer { lb_workers : list W; lb_size : Z }.

Definition balancer_register (b : genericLoadBalancer) (worker : W) : genericLoadBalancer :=
  let worker := setIndex worker (lb_size b) in
  mkBalancer (lb_workers b ++ [worker]) (lb_size b + 1).

(** The three balancers; [net.Addr] enters through its [String]. *)
Inductive loadBalancer : Type :=
| roundRobinLoadBalancer (b : genericLoadBalancer) (nextWorkerIndex : Z)
| leastConnectionsLoadBalancer (b : genericLoadBalancer)
| sourceIPHashLoadBalancer (b : genericLoadBalancer).

Definition roundRobin_next (b : genericLoadBalancer) (nextWorkerIndex : Z) : outcome (W * Z) :=
  worker ← go_index (lb_workers b) nextWorkerIndex;
  let nextWorkerIndex := nextWorkerIndex + 1 in
  Ret (worker, if lb_size b <=? nextWorkerIndex then 0 else nextWorkerIndex).

(** [for _, v := range b.workers[1:]] *)
Fixpoint least_loop (worker : W) (minN : Z) (rest : list W) : W :=
  match rest with
  | [] => worker
  | v :: rest =>
      let n := activeConnections v in
      if n <? minN then least_loop v n rest else least_loop worker minN rest
  end.

Definition leastConnections_next (b : genericLoadBalancer) : outcome W :=
  worker ← go_index (lb_workers b) 0;
  rest ← go_slice (lb_workers b) 1 (zlen (lb_workers b));
  Ret (least_loop worker (activeConnections worker) rest).

Definition sourceIPHash_hash (s : string) : Z :=
  let hash := int64 (ChecksumIEEE (string_bytes s)) in
  if hash <? 0 then int64 (- hash) else hash.

Definition sourceIPHash_next (b : genericLoadBalancer) (addr : string) : outcome W :=
  i ← go_rem (sourceIPHash_hash addr) (lb_size b);
  go_index (lb_workers b) i.

Definition generic (lb : loadBalancer) : genericLoadBalancer :=
  match lb with
  | roundRobinLoadBalancer b _ | leastConnectionsLoadBalancer b | sourceIPHashLoadBalancer b => b
  end.

Definition register (lb : loadBalancer) (worker : W) : loadBalancer :=
  match lb with
  | roundRobinLoadBalancer b i => roundRobinLoadBalancer (balancer_register b worker) i
  | leastConnectionsLoadBalancer b => leastConnectionsLoadBalancer (balancer_register b worker)
  | sourceIPHashLoadBalancer b => sourceIPHashLoadBalancer (balancer_register b worker)
  end.

Definition next (lb : loadBalancer) (addr : string) : outcome (W * loadBalancer) :=
  match lb with
  | roundRobinLoadBalancer b i => '(w, i) ← roundRobin_next b i; Ret (w, roundRobinLoadBalancer b i)
  | leastConnectionsLoadBalancer b => w ← leastConnections_next b; Ret (w, lb)
  | sourceIPHashLoadBalancer b => w ← sourceIPHash_next b addr; Ret (w, lb)
  end.

(** [forEach], the same loop in the three balancers; the callback threads the
    state it changes. *)
Fixpoint forEach_loop {S} (callback : S -> W -> option error * S) (s : S) (ws : list W) : option error * S :=
  match ws with
  | [] => (None, s)
  | c :: ws =>
      let '(err, s) := callback s c in
      match err with Some e => (Some e, s) | None => forEach_loop callback s ws end
  end.

Definition forEach {S} (callback : S -> W -> option error * S) (s : S) (lb : loadBalancer) : option error * S :=
  forEach_loop callback s (lb_workers (generic lb)).

Definition newGenericLoadBalancer : genericLoadBalancer := mkBalancer [] 0.
Definition newRoundRobinLoadBalancer : loadBalancer := roundRobinLoadBalancer newGenericLoadBalancer 0.
Definition newLeastConnectionsLoadBalancer : loadBalancer := leastConnectionsLoadBalancer newGenericLoadBalancer.
Definition newSourceIPHashLoadBalancer : loadBalancer := sourceIPHashLoadBalancer newGenericLoadBalancer.

Definition createLoadBalancer (loadBalancing : LoadBalancing) : loadBalancer + error :=
  match loadBalancing with
  | RoundRobin => inl newRoundRobinLoadBalancer
  | LeastConnections => inl newLeastConnectionsLoadBalancer
  | SourceIPHash => inl newSourceIPHashLoadBalancer
  | OtherBalancing _ => inr ErrNotSupported
  end.

(** ** Invariant *)

Definition balancer_ok (lb : loadBalancer) : Prop :=
  lb_size (generic lb) = zlen (lb_workers (generic lb)) /\
  match lb with
  | roundRobinLoadBalancer b i => 0 <= i /\ (i < zlen (lb_workers b) \/ i = 0)
  | _ => True
  end.

Definition register_all (lb : loadBalancer) (ws : list W) : loadBalancer := foldl register lb ws.

Lemma register_ok lb w : balancer_ok lb -> balancer_ok (register lb w).
Proof.
  rewrite /balancer_ok. destruct lb; simpl; rewrite zlen_app /zlen /=; intros [-> ?]; split; lia || done.
Qed.

Lemma register_all_ok lb ws : balancer_ok lb -> balancer_ok (register_all lb ws).
Proof.
  revert lb. induction ws as [|w ws IH]; intros lb Hlb; [done|]. simpl. by apply IH, register_ok.
Qed.

Lemma create_ok k lb : createLoadBalancer k = inl lb -> balancer_ok lb.
Proof. destruct k; simpl; intros [= <-]; (split; [done|]); simpl; auto; lia. Qed.

Lemma go_index_in {A} (l : list A) i : 0 <= i < zlen l -> exists a, go_index l i = Ret a /\ l !! Z.to_nat i = Some a.
Proof.
  rewrite /zlen. intros Hi. destruct (lookup_lt_is_Some_2 l (Z.to_nat i)) as [a Ha]; [lia|].
  exists a. split; [|done]. apply go_index_ok; [lia|done].
Qed.

(** *** Round robin *)

Lemma roundRobin_next_ok b i :
  lb_size b = zlen (lb_workers b) -> 0 <= i < lb_size b ->
  exists w, roundRobin_next b i = Ret (w, (i + 1) mod lb_size b) /\ lb_workers b !! Z.to_nat i = Some w.
Proof.
  intros Hs Hi. rewrite /roundRobin_next. destruct (go_index_in (lb_workers b) i) as (w & -> & Hw); [lia|].
  exists w. split; [|done]. rewrite bind_Ret. do 2 f_equal.
  destruct (Z.leb_spec (lb_size b) (i + 1)).
  - have -> : i + 1 = lb_size b by lia. by rewrite Z_mod_same_full.
  - rewrite Z.mod_small; lia.
Qed.

(** What the registrations store. *)
Lemma register_round_robin b i ws :
  exists b', register_all (roundRobinLoadBalancer b i) ws = roundRobinLoadBalancer b' i /\
    lb_size b' = lb_size b + zlen ws /\ length (lb_workers b') = (length (lb_workers b) + length ws)%nat /\
    (forall k w, lb_workers b !! k = Some w -> lb_workers b' !! k = Some w) /\
    (forall k w, ws !! k = Some w ->
       lb_workers b' !! (length (lb_workers b) + k)%nat = Some (setIndex w (lb_size b + Z.of_nat k))).
Proof.
  revert b. induction ws as [|w ws IH]; intros b; simpl.
  - exists b. rewrite /zlen /=. split_and!; [done|lia|lia|done|done].
  - destruct (IH (balancer_register b w)) as (b' & -> & Hs & Hlen & Hold & Hnew). simpl in *.
    rewrite length_app /= in Hlen Hnew. exists b'. rewrite /zlen /= in Hs *. split_and!; [done|lia|lia| |].
    + intros k w' Hk. apply Hold. by apply lookup_app_l_Some.
    + intros [|k] w' Hk; simplify_eq/=.
      * rewrite Z.add_0_r Nat.add_0_r. apply Hold. by rewrite lookup_app_r ?Nat.sub_diag; [lia|].
      * replace (length (lb_workers b) + S k)%nat with (length (lb_workers b) + 1 + k)%nat by lia.
        rewrite (Hnew k w' Hk). do 2 f_equal. lia.
Qed.

Lemma register_all_new ws :
  exists b, register_all newRoundRobinLoadBalancer ws = roundRobinLoadBalancer b 0 /\
    lb_size b = zlen ws /\ length (lb_workers b) = length ws /\
    (forall k r, lb_workers b !! k = Some r -> exists w, ws !! k = Some w /\ r = setIndex w (Z.of_nat k)).
Proof.
  destruct (register_round_robin newGenericLoadBalancer 0 ws) as (b & Heq & Hs & Hlen & _ & Hnew).
  exists b. split_and!; [done|done|done|]. intros k r Hr.
  destruct (lookup_lt_is_Some_2 ws k) as [w Hw]; [apply lookup_lt_Some in Hr; simpl in Hlen; lia|].
  exists w. split; [done|]. specialize (Hnew k w Hw). rewrite /newGenericLoadBalancer Z.add_0_l /= in Hnew. congruence.
Qed.

(** The consumers that [k] calls in a row return. *)
Fixpoint next_run (lb : loadBalancer) (addrs : list string) : outcome (list W * loadBalancer) :=
  match addrs with
  | [] => Ret ([], lb)
  | a :: addrs =>
      '(w, lb) ← next lb a;
      '(ws, lb) ← next_run lb addrs;
      Ret (w :: ws, lb)
  end.

Lemma roundRobin_run b addrs i :
  lb_size b = zlen (lb_workers b) -> 0 <= i < lb_size b ->
  exists ws i', next_run (roundRobinLoadBalancer b i) addrs = Ret (ws, roundRobinLoadBalancer b i') /\
    0 <= i' < lb_size b /\ length ws = length addrs /\
    forall k w, ws !! k = Some w -> lb_workers b !! Z.to_nat ((i + Z.of_nat k) mod lb_size b) = Some w.
Proof.
  intros Hs. revert i. induction addrs as [|a addrs IH]; intros i Hi; simpl.
  - exists [], i. done.
  - destruct (roundRobin_next_ok b i Hs Hi) as (w & -> & Hw). rewrite !bind_Ret.
    have Hm := Z.mod_pos_bound (i + 1) (lb_size b).
    destruct (IH ((i + 1) mod lb_size b)) as (ws & i' & Heq & Hi' & Hlen & Hws); [lia|].
    rewrite Heq bind_Ret. exists (w :: ws), i'. split; [done|]. split; [done|]. split; [by simpl; rewrite Hlen|].
    intros [|k] w' Hk; simpl in Hk.
    + injection Hk as <-. by rewrite Z.add_0_r Z.mod_small.
    + rewrite -(Hws k w' Hk). do 2 f_equal. rewrite Zplus_mod_idemp_l. f_equal. lia.
Qed.

(** *** Least connections *)

Lemma least_loop_ok worker rest :
  let r := least_loop worker (activeConnections worker) rest in
  exists k, (worker :: rest) !! k = Some r /\
    (forall j w, (worker :: rest) !! j = Some w -> activeConnections r <= activeConnections w) /\
    (forall j w, (j < k)%nat -> (worker :: rest) !! j = Some w -> activeConnections r < activeConnections w).
Proof.
  revert worker. induction rest as [|v rest IH]; intros worker; simpl.
  - exists 0%nat. split; [done|]. split; [|lia]. intros [|j] w Hj; simplify_eq/=. lia.
  - destruct (Z.ltb_spec (activeConnections v) (activeConnections worker)) as [Hlt|Hge].
    + destruct (IH v) as (k & Hk & Hmin & Hfirst). exists (S k). split; [done|].
      have Hv := Hmin 0%nat v eq_refl. split.
      * intros [|j] w Hj; simplify_eq/=; [lia|]. by apply (Hmin j).
      * intros [|j] w Hlt' Hj; simplify_eq/=; [lia|]. apply (Hfirst j); [lia|done].
    + destruct (IH worker) as (k & Hk & Hmin & Hfirst). have Hw := Hmin 0%nat worker eq_refl.
      destruct k as [|k].
      * exists 0%nat. split; [done|]. split; [|lia].
        intros [|[|j]] w Hj; simplify_eq/=; [lia|simplify_eq; lia|]. by apply (Hmin (S j)).
      * exists (S (S k)). split; [done|]. have Hw' := Hfirst 0%nat worker ltac:(lia) eq_refl. split.
        -- intros [|[|j]] w Hj; simplify_eq/=; [lia|lia|]. by apply (Hmin (S j)).
        -- intros [|[|j]] w Hlt' Hj; simplify_eq/=; [lia|lia|]. apply (Hfirst (S j)); [lia|done].
Qed.

End Balancer.

Arguments genericLoadBalancer : clear implicits.
Arguments loadBalancer : clear implicits.

(** *** Source hash *)

Lemma lxor_u32 a b : 0 <= a < 2 ^ 32 -> 0 <= b < 2 ^ 32 -> 0 <= Z.lxor a b < 2 ^ 32.
Proof.
  intros Ha Hb. have H0 : 0 <= Z.lxor a b by apply Z.lxor_nonneg; lia. split; [done|].
  destruct (Z.eqb_spec (Z.lxor a b) 0) as [->|Hne]; [lia|].
  apply Z.log2_lt_pow2; [lia|].
  have Hl : forall x, 0 <= x < 2 ^ 32 -> Z.log2 x < 32.
  { intros x Hx. destruct (Z.eqb_spec x 0) as [->|]; [done|]. apply Z.log2_lt_pow2; lia. }
  have := Z.log2_lxor a b. have := Hl a Ha. have := Hl b Hb. lia.
Qed.

Lemma crc_bit_u32 c : 0 <= c < 2 ^ 32 -> 0 <= crc_bit c < 2 ^ 32.
Proof.
  intros Hc. rewrite /crc_bit. have Hs : 0 <= Z.shiftr c 1 < 2 ^ 32.
  { rewrite Z.shiftr_div_pow2 //. split; [apply Z.div_pos; lia|]. apply Z.div_lt_upper_bound; lia. }
  destruct (Z.testbit c 0); [|done]. apply lxor_u32; [done|lia].
Qed.

Lemma crc_byte_u32 c b : 0 <= c < 2 ^ 32 -> 0 <= crc_byte c b < 2 ^ 32.
Proof.
  intros Hc. rewrite /crc_byte. have Hb : 0 <= Z.of_N (Byte.to_N b) < 2 ^ 32 by destruct b; simpl; lia.
  have := lxor_u32 _ _ Hc Hb. generalize (Z.lxor c (Z.of_N (Byte.to_N b))). intros x Hx.
  generalize 8%nat. intros n. induction n as [|n IH]; [done|]. simpl. by apply crc_bit_u32.
Qed.

Lemma ChecksumIEEE_u32 bs : 0 <= ChecksumIEEE bs < 2 ^ 32.
Proof.
  apply lxor_u32; [|lia].
  have : 0 <= 4294967295 < 2 ^ 32 by lia. generalize 4294967295. induction bs as [|b bs IH]; intros c Hc; [done|].
  simpl. apply IH, crc_byte_u32, Hc.
Qed.

Lemma sourceIPHash_hash_eq s : sourceIPHash_hash s = ChecksumIEEE (string_bytes s).
Proof.
  rewrite /sourceIPHash_hash. have := ChecksumIEEE_u32 (string_bytes s). intros Hr.
  rewrite wrap_s_small; [lia|simpl; lia|]. by destruct (Z.ltb_spec (ChecksumIEEE (string_bytes s)) 0); [lia|].
Qed.

Lemma source_next_in {W} (b : genericLoadBalancer W) a :
  lb_size b = zlen (lb_workers b) -> lb_workers b <> [] ->
  exists w, sourceIPHash_next b a = Ret w /\
    lb_workers b !! Z.to_nat (ChecksumIEEE (string_bytes a) mod lb_size b) = Some w.
Proof.
  intros Hs Hne. have Hpos : 0 < lb_size b by rewrite Hs /zlen; destruct (lb_workers b); [done|simpl; lia].
  rewrite /sourceIPHash_next sourceIPHash_hash_eq /go_rem.
  destruct (Z.eqb_spec (lb_size b) 0); [lia|]. rewrite bind_Ret Z.rem_mod_nonneg; [apply ChecksumIEEE_u32|done|].
  have Hm := Z.mod_pos_bound (ChecksumIEEE (string_bytes a)) (lb_size b) Hpos.
  destruct (go_index_in (lb_workers b) (ChecksumIEEE (string_bytes a) mod lb_size b)) as (w & ? & ?); [|by exists w].
  rewrite -Hs. done.
Qed.

Lemma least_next_in {W} `{!Consumer W} (b : genericLoadBalancer W) :
  lb_workers b <> [] ->
  exists (k : nat) (r : W), leastConnections_next b = Ret r /\ lb_workers b !! k = Some r /\
      (forall j w, lb_workers b !! j = Some w -> activeConnections r <= activeConnections w) /\
      (forall j w, (j < k)%nat -> lb_workers b !! j = Some w -> activeConnections r < activeConnections w).
Proof.
  intros Hne. destruct b as [[|w ws] n]; [done|]. have Hz : 1 <= zlen (w :: ws) by rewrite /zlen /=; lia.
  rewrite /leastConnections_next /= go_slice_ok; [lia|lia|].
  rewrite bind_Ret. have -> : take (Z.to_nat (zlen (w :: ws) - 1)) (drop (Z.to_nat 1) (w :: ws)) = ws.
  { simpl. apply take_ge. rewrite /zlen /=. lia. }
  destruct (least_loop_ok w ws) as (k & Hk & Hmin & Hfirst).
  exists k. eexists. split; [reflexivity|]. done.
Qed.

(** Every balancer with consumers chooses one of them. *)
Lemma next_in {W} `{!Consumer W} (lb : loadBalancer W) a :
  balancer_ok lb -> lb_workers (generic lb) <> [] ->
  exists (k : nat) w lb', next lb a = Ret (w, lb') /\ lb_workers (generic lb) !! k = Some w /\
    generic lb' = generic lb /\ balancer_ok lb'.
Proof.
  intros [Hs Hi] Hne. have Hpos : 0 < lb_size (generic lb).
  { rewrite Hs /zlen. destruct (lb_workers (generic lb)); [done|simpl; lia]. }
  destruct lb as [b i|b|b]; cbn [generic next] in *.
  - destruct (roundRobin_next_ok b i) as (w & -> & Hw); [done|lia|].
    exists (Z.to_nat i), w, (roundRobinLoadBalancer b ((i + 1) mod lb_size b)). split_and!; try done.
    split; [done|]. cbn [generic]. have := Z.mod_pos_bound (i + 1) (lb_size b) Hpos. lia.
  - destruct (least_next_in b Hne) as (k & r & -> & Hk & _). by exists k, r, (leastConnectionsLoadBalancer b).
  - destruct (source_next_in b a Hs Hne) as (w & -> & Hw). by exists (Z.to_nat (ChecksumIEEE (string_bytes a) mod lb_size b)), w, (sourceIPHashLoadBalancer b).
Qed.

(** ** Properties *)

(** Round robin is fair: after [N > 0] registrations the [k]-th call of [next]
    returns the consumer registered as number [k mod N], so that any [N] calls in
    a row reach every consumer once; no call panics. *)
Theorem round_robin_fair {W} `{!Consumer W} (ws : list W) (addrs : list string) :
  ws <> [] ->
  let lb := register_all newRoundRobinLoadBalancer ws in
  exists rs lb', next_run lb addrs = Ret (rs, lb') /\ length rs = length addrs /\
    forall k r, rs !! k = Some r ->
      exists w, ws !! (k mod length ws)%nat = Some w /\ r = setIndex w (Z.of_nat (k mod length ws)).
Proof.
  intros Hne lb. destruct (register_all_new ws) as (b & Hlb & Hsize & Hlenb & Hlook).
  rewrite /lb Hlb. have Hpos : 0 < zlen ws by destruct ws; [done|rewrite /zlen /=; lia].
  destruct (roundRobin_run b addrs 0) as (rs & i' & Hrun & _ & Hlen & Hk); [by rewrite Hsize /zlen Hlenb|lia|].
  eexists rs, _. split; [done|]. split; [done|]. intros k r Hr. specialize (Hk k r Hr).
  rewrite Hsize Z.add_0_l /zlen -Nat2Z.inj_mod Nat2Z.id in Hk. by apply Hlook.
Qed.

(** A consumer that only knows its index and its number of connections. *)
#[export] Instance plain_consumer : Consumer (Z * Z) := {|
  setIndex w i := (i, w.2);
  activeConnections w := w.2
|}.

Lemma round_robin_fair_witness :
  exists rs lb', next_run (register_all newRoundRobinLoadBalancer [(9, 0); (9, 5)]) ["a"; "b"; "c"] = Ret (rs, lb') /\
    length rs = 3%nat /\
    forall k r, rs !! k = Some r ->
      exists w, [(9, 0); (9, 5)] !! (k mod 2)%nat = Some w /\ r = setIndex w (Z.of_nat (k mod 2)).
Proof. by apply (round_robin_fair [(9, 0); (9, 5)] ["a"; "b"; "c"]). Defined.

(** Least connections picks a consumer with the fewest active connections,
    and the one registered first among those; it panics only without consumers. *)
Theorem least_connections_minimal {W} `{!Consumer W} (b : genericLoadBalancer W) :
  match lb_workers b with
  | [] => leastConnections_next b = Panic PanicBounds
  | _ => exists k r, leastConnections_next b = Ret r /\ lb_workers b !! k = Some r /\
      (forall j w, lb_workers b !! j = Some w -> activeConnections r <= activeConnections w) /\
      (forall j w, (j < k)%nat -> lb_workers b !! j = Some w -> activeConnections r < activeConnections w)
  end.
Proof.
  destruct b as [[|w ws] n]; [done|]. by apply least_next_in.
Qed.

(** The hash balancer returns one of its consumers, and the same one for
    equal addresses: it panics only without consumers. *)
Theorem source_hash_stable {W} `{!Consumer W} k lb0 (ws : list W) (a : string) :
  createLoadBalancer k = inl lb0 -> ws <> [] ->
  let b := generic (register_all lb0 ws) in
  exists w, sourceIPHash_next b a = Ret w /\
    lb_workers b !! Z.to_nat (ChecksumIEEE (string_bytes a) mod lb_size b) = Some w.
Proof.
  intros Hlb Hne b. have [Hs _] := register_all_ok lb0 ws (create_ok _ _ Hlb).
  have Hpos : 0 < lb_size b.
  { rewrite /b Hs. have : (length (lb_workers (generic lb0)) + length ws <= length (lb_workers b))%nat; [|].
    { rewrite /b. clear. revert lb0. induction ws as [|w ws IH]; intros lb0; simpl; [lia|].
      specialize (IH (register lb0 w)). destruct lb0; simpl in *; rewrite length_app /= in IH; lia. }
    destruct ws; [done|]. rewrite /b /zlen /=. lia. }
  apply source_next_in; [done|]. rewrite Hs /zlen in Hpos. intros Hnil. rewrite /b in Hnil Hpos. rewrite Hnil /= in Hpos. lia.
Qed.

Lemma source_hash_stable_witness :
  let b := generic (register_all newSourceIPHashLoadBalancer [(0, 0); (0, 0)]) in
  exists w, sourceIPHash_next b "10.0.0.1:4000" = Ret w /\
    lb_workers b !! Z.to_nat (ChecksumIEEE (string_bytes "10.0.0.1:4000") mod lb_size b) = Some w.
Proof. by apply (source_hash_stable SourceIPHash newSourceIPHashLoadBalancer [(0, 0); (0, 0)]). Defined.

(** The check value of CRC-32. *)
Example crc32_check : ChecksumIEEE (string_bytes "123456789") = 3421780262.
Proof. reflexivity. Qed.

(** The hash is taken of the address with its port: two connections from one
    IP address go to different consumers. *)
Theorem source_hash_uses_port :
  let b := generic (register_all newSourceIPHashLoadBalancer [(0, 0); (0, 0)]) in
  exists w1 w2, sourceIPHash_next b "10.0.0.1:4000" = Ret w1 /\ sourceIPHash_next b "10.0.0.1:4010" = Ret w2 /\
    w1 <> w2.
Proof. eexists _, _. split; [vm_compute; reflexivity|]. split; [vm_compute; reflexivity|]. done. Qed.

(** [forEach] calls the callback on the consumers in the order of their
    registration and stops at the first error, which it returns. *)
Theorem for_each_stops {W S} `{!Consumer W} (callback : S -> W -> option error * S) (s : S) (lb : loadBalancer W) :
  (exists s', forEach callback s lb = (None, s') /\
     foldl (fun acc w => s ← acc; let '(err, s) := callback s w in if err is None then Some s else None)
       (Some s) (lb_workers (generic lb)) = Some s') \/
  (exists l1 w l2 s1 e s', lb_workers (generic lb) = l1 ++ w :: l2 /\
     forEach_loop callback s l1 = (None, s1) /\ callback s1 w = (Some e, s') /\ forEach callback s lb = (Some e, s')).
Proof.
  rewrite /forEach. generalize (lb_workers (generic lb)). intros ws. revert s.
  induction ws as [|w ws IH]; intros s; simpl; [by left; exists s|].
  destruct (callback s w) as [[e|] s1] eqn:Hc.
  - right. exists [], w, ws, s, e, s1. done.
  - destruct (IH s1) as [(s' & -> & Hf)|(l1 & w' & l2 & s2 & e & s' & -> & Hl & Hw & Hf)].
    + left. by exists s'.
    + right. exists (w :: l1), w', l2, s2, e, s'. simpl. by rewrite Hc.
Qed.
