(* ===== verification/RingPool.v ===== *)
(** * RingPool: [pkg/pool/ringbuffer/ringbuffer.go]

    The pool of ring buffers with its self-calibrating default and maximal sizes.
    [sort.Sort] sorts but is not stable, so the order of equal elements is not
    known: the sort is a parameter with its documented law. *)

From S2P Require Import Prelude Errors Float64 SyncPool VirtualMem MagicRing.
From Stdlib Require Import Sorted.

Definition minBitSize : Z := 12.
Definition steps : Z := 15.
Definition minSize : Z := Z.shiftl 1 minBitSize.
Definition calibrateCallsThreshold : Z := 42000.
(** the constant 0.95 as a [float64] *)
Definition maxPercentile : QArith_base.Q := round53 (QArith_base.Qmake 95 100).

Record callSize : Type := mkCallSize { cs_calls : Z; cs_size : Z }.

(** [Less(i, j)]: the larger number of calls comes first. *)
Definition callSizes_Less (a b : callSize) : bool := cs_calls b <? cs_calls a.

Record ringPool : Type := mkRingPool {
  rp_calls : list Z;
  rp_calibrating : Z;
  rp_defaultSize : Z;
  rp_maxSize : Z;
  rp_pool : pool RingBuffer
}.

(** [for n > 0 { n >>= 1; idx++ }]; 64 rounds empty any [int]. *)
Fixpoint index_loop (fuel : nat) (n idx : Z) : Z :=
  match fuel with
  | O => idx
  | S fuel => if 0 <? n then index_loop fuel (Z.shiftr n 1) (idx + 1) else idx
  end.

Definition indexRingBufferPool (n : Z) : Z :=
  let idx := index_loop 64 (Z.shiftr (n - 1) minBitSize) 0 in
  if steps <=? idx then steps - 1 else idx.

Section Pool.
Context {os : Os}.
Variable sort_Sort : list callSize -> list callSize.

Definition NewRingBufferPool : ringPool :=
  mkRingPool (replicate (Z.to_nat steps) 0) 0 (uint64 DefaultMagicBufferSize) 0 NewPool.

(** [choice] is the choice of [sync.Pool.Get]. *)
Definition ringPool_Get (choice : option nat) (p : ringPool) (wd : World) :
    outcome (RingBuffer * ringPool * World) :=
  let '(v, q) := pool_Get choice (rp_pool p) in
  let p := mkRingPool (rp_calls p) (rp_calibrating p) (rp_defaultSize p) (rp_maxSize p) q in
  match v with
  | Some v => Ret (v, p, wd)
  | None => '(buffer, wd) ← NewMagicBuffer (rp_defaultSize p) wd; Ret (buffer, p, wd)
  end.

(** The first loop of [calibrate]: the counters with their sizes, and their sum. *)
Fixpoint collect_calls (calls : list Z) (i : Z) : list callSize * Z :=
  match calls with
  | [] => ([], 0)
  | c :: calls =>
      let '(data, sum) := collect_calls calls (i + 1) in
      (mkCallSize c (uint64 (Z.shiftl minSize i)) :: data, uint64 (c + sum))
  end.

(** The second loop: sizes are admitted until more than [maxSum] calls are. *)
Fixpoint admit_sizes (data : list callSize) (callsSum maxSum maxSize : Z) : Z :=
  match data with
  | [] => maxSize
  | d :: data =>
      if maxSum <? callsSum then maxSize
      else admit_sizes data (uint64 (callsSum + cs_calls d)) maxSum
             (if maxSize <? cs_size d then cs_size d else maxSize)
  end.

Definition calibrate (p : ringPool) : outcome ringPool :=
  if negb (rp_calibrating p =? 0) then Ret p
  else
    let '(callData, callsSum) := collect_calls (rp_calls p) 0 in
    let callData := sort_Sort callData in
    first ← go_index callData 0;
    let defaultSize := cs_size first in
    let maxSum := f64_to_int (f64_mul (f64_of_int callsSum) maxPercentile) in
    let maxSize := admit_sizes callData 0 maxSum defaultSize in
    Ret (mkRingPool (replicate (length (rp_calls p)) 0) 0 defaultSize maxSize (rp_pool p)).

Definition ringPool_Put (buffer : RingBuffer) (p : ringPool) : outcome ringPool :=
  let idx := indexRingBufferPool (RingBuffer_Cap buffer) in
  c ← go_index (rp_calls p) idx;
  let p := mkRingPool (<[Z.to_nat idx := uint64 (c + 1)]> (rp_calls p)) (rp_calibrating p)
             (rp_defaultSize p) (rp_maxSize p) (rp_pool p) in
  p ← if calibrateCallsThreshold <? uint64 (c + 1) then calibrate p else Ret p;
  let maxSize := rp_maxSize p in
  if (maxSize =? 0) || (RingBuffer_Cap buffer <=? maxSize) then
    Ret (mkRingPool (rp_calls p) (rp_calibrating p) (rp_defaultSize p) (rp_maxSize p)
           (pool_Put (RingBuffer_Reset buffer) (rp_pool p)))
  else Ret p.

(** The package functions on the built-in pool. *)
Definition ringbuffer_Get (choice : option nat) (p : ringPool) (wd : World) :
    outcome (RingBuffer * ringPool * World) := ringPool_Get choice p wd.

Definition ringbuffer_Put (b : RingBuffer) (p : ringPool) : outcome ringPool :=
  b ← RingBuffer_Zeroes b; ringPool_Put b p.

End Pool.

(** ** The size classes *)

Lemma index_loop_ok fuel n idx :
  0 <= n < 2 ^ Z.of_nat fuel -> index_loop fuel n idx = idx + (if 0 <? n then Z.log2 n + 1 else 0).
Proof.
  revert n idx. induction fuel as [|fuel IH]; intros n idx Hn.
  { simpl in Hn. have -> : n = 0 by lia. simpl. lia. }
  simpl. destruct (Z.ltb_spec 0 n) as [Hp|]; [|lia].
  have Hhalf : Z.shiftr n 1 = n / 2 by rewrite Z.shiftr_div_pow2.
  have Hd := Z.div_mod n 2. have Hm := Z.mod_pos_bound n 2.
  rewrite IH Hhalf.
  { rewrite Nat2Z.inj_succ Z.pow_succ_r in Hn; lia. }
  destruct (Z.ltb_spec 0 (n / 2)) as [Hp2|Hz].
  - have Hlog : Z.log2 n = Z.succ (Z.log2 (n / 2)); [|lia].
    destruct (Z.eqb_spec (n mod 2) 0) as [He|He].
    + have {1}-> : n = 2 * (n / 2) by lia. apply Z.log2_double. lia.
    + have {1}-> : n = 2 * (n / 2) + 1 by lia. apply Z.log2_succ_double. lia.
  - have -> : n = 1 by lia. simpl. lia.
Qed.

Lemma index_loop_neg fuel n idx : n <= 0 -> index_loop fuel n idx = idx.
Proof. destruct fuel; [done|]. cbn [index_loop]. destruct (Z.ltb_spec 0 n); [lia|done]. Qed.

(** The class of a capacity is the first whose size covers it. *)
Lemma index_spec n :
  n < 2 ^ 63 -> 0 <= indexRingBufferPool n < steps /\
  (n <= Z.shiftl minSize (indexRingBufferPool n) \/ indexRingBufferPool n = steps - 1) /\
  (0 < indexRingBufferPool n -> Z.shiftl minSize (indexRingBufferPool n - 1) < n).
Proof.
  intros Hn. rewrite /indexRingBufferPool /steps.
  have Hsh : Z.shiftr (n - 1) minBitSize = (n - 1) / 4096 by rewrite Z.shiftr_div_pow2.
  have Hdm := Z.div_mod (n - 1) 4096. have Hmb := Z.mod_pos_bound (n - 1) 4096.
  have Hmin : forall i, 0 <= i -> Z.shiftl minSize i = 4096 * 2 ^ i by intros i Hi; rewrite Z.shiftl_mul_pow2.
  rewrite Hsh. destruct (Z.leb_spec n 0) as [Hneg|Hpos].
  { have -> : index_loop 64 ((n - 1) / 4096) 0 = 0; [|rewrite Hmin //=; split_and!; lia].
    apply index_loop_neg. lia. }
  rewrite index_loop_ok; [lia|]. rewrite Z.add_0_l.
  destruct (Z.ltb_spec 0 ((n - 1) / 4096)) as [Hq|Hq]; simpl; last (rewrite Hmin //; split_and!; lia).
  have [Hl1 Hl2] := Z.log2_spec _ Hq. have Hl0 := Z.log2_nonneg ((n - 1) / 4096).
  destruct (Z.leb_spec 15 (Z.log2 ((n - 1) / 4096) + 1)) as [Hbig|Hsmall].
  - split; [lia|]. split; [by right|]. intros _. rewrite Hmin; [lia|].
    have : 2 ^ 14 <= 2 ^ Z.log2 ((n - 1) / 4096) by apply Z.pow_le_mono_r; lia. lia.
  - split; [lia|]. split.
    + left. rewrite Hmin; [lia|]. rewrite -Z.add_1_r in Hl2. lia.
    + intros _. rewrite Hmin; [lia|]. replace (_ + 1 - 1) with (Z.log2 ((n - 1) / 4096)) by lia. lia.
Qed.

Lemma index_loop_ge fuel n idx : idx <= index_loop fuel n idx.
Proof.
  revert n idx. induction fuel as [|fuel IH]; intros n idx; cbn [index_loop]; [lia|].
  destruct (0 <? n); [|lia]. specialize (IH (Z.shiftr n 1) (idx + 1)). lia.
Qed.

Lemma index_range n : 0 <= indexRingBufferPool n < steps.
Proof.
  rewrite /indexRingBufferPool. have := index_loop_ge 64 (Z.shiftr (n - 1) minBitSize) 0.
  generalize (index_loop 64 (Z.shiftr (n - 1) minBitSize) 0). intros k Hk. rewrite /steps. zbool; lia.
Qed.

(** ** Calibration *)

(** [sort.Sort]: a permutation in which no element is [Less] than an earlier one. *)
Definition sort_law (sort_Sort : list callSize -> list callSize) : Prop :=
  forall l, sort_Sort l ≡ₚ l /\
    forall i j a b, (i < j)%nat -> sort_Sort l !! i = Some a -> sort_Sort l !! j = Some b -> callSizes_Less b a = false.

Definition is_step_size (s : Z) : Prop := exists i, 0 <= i < steps /\ s = Z.shiftl minSize i.

Lemma step_size_bounds s : is_step_size s -> 4096 <= s <= 2 ^ 26.
Proof.
  intros (i & Hi & ->). rewrite /minSize /minBitSize /steps in Hi *. rewrite !Z.shiftl_mul_pow2; [lia..|].
  have : 2 ^ 0 <= 2 ^ i by apply Z.pow_le_mono_r; lia.
  have : 2 ^ i <= 2 ^ 14 by apply Z.pow_le_mono_r; lia. simpl. lia.
Qed.

Lemma collect_calls_lookup calls i k c :
  0 <= i -> i + zlen calls <= steps -> calls !! k = Some c ->
  (collect_calls calls i).1 !! k = Some (mkCallSize c (Z.shiftl minSize (i + Z.of_nat k))).
Proof.
  revert i k. induction calls as [|c' calls IH]; intros i k Hi Hlen Hk; [done|].
  rewrite /zlen /= in Hlen. simpl. destruct (collect_calls calls (i + 1)) as [data sum] eqn:Hc.
  destruct k as [|k]; simplify_eq/=.
  - rewrite Z.add_0_r wrap_u_small //.
    have := step_size_bounds (Z.shiftl minSize i) ltac:(exists i; rewrite /steps in Hlen *; lia). lia.
  - have Hd := IH (i + 1) k. rewrite Hc /= in Hd. rewrite Hd; [lia|rewrite /zlen; lia|done|].
    do 3 f_equal. lia.
Qed.

Lemma length_collect_calls calls i : length (collect_calls calls i).1 = length calls.
Proof.
  revert i. induction calls as [|c calls IH]; intros i; [done|]. simpl.
  specialize (IH (i + 1)). destruct (collect_calls calls (i + 1)). simpl in *. lia.
Qed.

(** Every collected entry pairs a counter with its size. *)
Lemma collect_calls_in calls d :
  length calls = 15%nat -> d ∈ (collect_calls calls 0).1 ->
  exists k, calls !! k = Some (cs_calls d) /\ cs_size d = Z.shiftl minSize (Z.of_nat k) /\ (k < 15)%nat.
Proof.
  intros Hlen [k Hk]%list_elem_of_lookup_1. have Hlt := lookup_lt_Some _ _ _ Hk.
  rewrite length_collect_calls in Hlt. destruct (lookup_lt_is_Some_2 calls k Hlt) as [c Hc].
  exists k. rewrite (collect_calls_lookup calls 0 k c) in Hk; [done|rewrite /zlen /steps; lia|done|].
  rewrite Z.add_0_l in Hk. injection Hk as <-. simpl. split; [done|]. split; [done|lia].
Qed.

Lemma admit_sizes_ok data callsSum maxSum maxSize :
  Forall (fun d => is_step_size (cs_size d)) data -> is_step_size maxSize ->
  is_step_size (admit_sizes data callsSum maxSum maxSize) /\ maxSize <= admit_sizes data callsSum maxSum maxSize.
Proof.
  revert callsSum maxSize. induction data as [|d data IH]; intros callsSum maxSize Hall Hs; simpl; [done|].
  inversion Hall; subst. destruct (maxSum <? callsSum); [done|].
  destruct (Z.ltb_spec maxSize (cs_size d)).
  - destruct (IH (uint64 (callsSum + cs_calls d)) (cs_size d)) as [? ?]; [done..|]. split; [done|lia].
  - apply IH; done.
Qed.

Section Calibrate.
Context {os : Os}.
Variable sort_Sort : list callSize -> list callSize.
Hypothesis Hsort : sort_law sort_Sort.

Lemma calibrate_ok p :
  length (rp_calls p) = 15%nat -> rp_calibrating p = 0 ->
  exists p', calibrate sort_Sort p = Ret p' /\ rp_calls p' = replicate 15 0 /\ rp_calibrating p' = 0 /\
    rp_pool p' = rp_pool p /\ is_step_size (rp_defaultSize p') /\ is_step_size (rp_maxSize p') /\
    rp_defaultSize p' <= rp_maxSize p' /\
    exists k c, rp_calls p !! k = Some c /\ rp_defaultSize p' = Z.shiftl minSize (Z.of_nat k) /\
      forall j c', rp_calls p !! j = Some c' -> c' <= c.
Proof.
  intros Hlen Hcal. rewrite /calibrate Hcal /= Hlen.
  destruct (collect_calls (rp_calls p) 0) as [data sum] eqn:Hcd.
  destruct (Hsort data) as [Hperm Hord].
  have Hdata : forall d, d ∈ data -> exists k, rp_calls p !! k = Some (cs_calls d) /\
      cs_size d = Z.shiftl minSize (Z.of_nat k) /\ (k < 15)%nat.
  { intros d Hd. apply collect_calls_in; [done|]. by rewrite Hcd. }
  have Hlen' : length (sort_Sort data) = 15%nat.
  { rewrite Hperm -Hlen -(length_collect_calls (rp_calls p) 0). by rewrite Hcd. }
  destruct (sort_Sort data) as [|first rest] eqn:Hs; [done|].
  have Hstep : Forall (fun d => is_step_size (cs_size d)) (first :: rest).
  { rewrite Forall_forall. intros d Hd. rewrite Hperm in Hd. destruct (Hdata d Hd) as (k & _ & -> & Hk).
    exists (Z.of_nat k). rewrite /steps. lia. }
  have Hfirst := Forall_inv Hstep. rewrite bind_Ret.
  set maxSum := f64_to_int _.
  destruct (admit_sizes_ok (first :: rest) 0 maxSum (cs_size first) Hstep Hfirst) as [Hmax Hle].
  eexists. split; [reflexivity|]. cbn [rp_calls rp_calibrating rp_pool rp_defaultSize rp_maxSize]. split_and!; try done.
  destruct (Hdata first) as (k & Hk & Hsz & _); [rewrite -Hperm; by left|].
  exists k, (cs_calls first). split; [done|]. split; [done|]. intros j c' Hj.
  have Hin : mkCallSize c' (Z.shiftl minSize (Z.of_nat j)) ∈ first :: rest.
  { rewrite Hperm. apply (list_elem_of_lookup_2 _ j). have := collect_calls_lookup (rp_calls p) 0 j c'.
    rewrite Hcd /=. intros ->; [done|lia|rewrite /zlen /steps; lia|done]. }
  apply list_elem_of_lookup_1 in Hin as [[|i] Hi]; simplify_eq/=; [lia|].
  have Hless := Hord 0%nat (S i) _ _ ltac:(lia) eq_refl Hi. rewrite /callSizes_Less /= in Hless.
  apply Z.ltb_ge in Hless. lia.
Qed.

End Calibrate.

(** ** What the pool holds *)

(** A buffer that carries nothing: empty, and its memory all zero. *)
Definition clean (rb : RingBuffer) : Prop :=
  rb_ok rb /\ contents rb = [] /\ allocated rb /\ forall vm, rb_vm rb = Some vm -> vm_zeroed vm.

(** A clean buffer has room for a receive. *)
Lemma clean_room rb : clean rb -> RingBuffer_Available rb = RingBuffer_Cap rb /\ MinRead <= RingBuffer_Available rb.
Proof.
  intros (Hok & Hc & Hal & _). have Hsum := Buffered_Available rb Hok. rewrite -zlen_contents // Hc in Hsum. change (zlen []) with 0 in Hsum.
  destruct (allocated_mapped rb Hok Hal) as [vm Hm]. have Hp := vm_ok_page _ (mapped_vm_ok _ _ Hm). have Hs := mapped_size _ _ Hm.
  rewrite /RingBuffer_Cap /MinRead. lia.
Qed.

Record ring_pool_ok (p : ringPool) : Prop := {
  rpo_calls : length (rp_calls p) = 15%nat;
  rpo_calibrating : rp_calibrating p = 0;
  rpo_default : 0 < rp_defaultSize p < 2 ^ 52;
  rpo_pool : Forall clean (internalPool (rp_pool p))
}.

Section PoolProofs.
Context {os : Os}.
Variable sort_Sort : list callSize -> list callSize.
Hypothesis Hsort : sort_law sort_Sort.

Lemma new_ring_pool_ok : ring_pool_ok NewRingBufferPool.
Proof.
  split; try done. simpl. rewrite /DefaultMagicBufferSize. pose proof pageSize_bounds as Hps.
  rewrite wrap_u_small; lia.
Qed.

Lemma NewMagicBuffer_clean P `{!PoolPromise P} size wd :
  0 < size < 2 ^ 52 -> P wd ->
  exists rb wd', NewMagicBuffer size wd = Ret (rb, wd') /\ clean rb /\ P wd'.
Proof.
  intros Hs HP. pose proof pageSize_bounds as Hps. pose proof (AdjustBufferSize_bounds size ltac:(lia)) as Hadj.
  destruct (NewMagicBuffer_ok size wd) as (rb & wd' & Hnew & Hok & Hc & _ & _ & Hreach);
    [lia|by apply promise_ok|by apply promise_alloc| |].
  { apply (promise_exact (P := P)); [done|]. rewrite /size_range. lia. }
  exists rb, wd'. split; [done|]. split; [|by eapply promise_reach]. split; [done|]. split; [done|].
  move: Hnew. rewrite /NewMagicBuffer. destruct (Z.eqb_spec size 0); [lia|].
  destruct (virtualmem_Get_ok (AdjustBufferSize size) wd) as (m & wd1 & -> & _ & Hz & _); 
    [rewrite /size_range; lia|by apply promise_ok|by apply promise_alloc|].
  rewrite bind_Ret. intros [= <- <-]. split; [by eexists|]. by intros vm [= <-].
Qed.

Lemma ringPool_Get_ok P `{!PoolPromise P} choice p wd :
  ring_pool_ok p -> P wd ->
  exists rb p' wd', ringbuffer_Get choice p wd = Ret (rb, p', wd') /\ clean rb /\ ring_pool_ok p' /\ P wd'.
Proof.
  intros [Hc Hcal Hd Hp] HP. rewrite /ringbuffer_Get /ringPool_Get.
  destruct (pool_Get choice (rp_pool p)) as [v q] eqn:Hget.
  destruct (pool_Get_Forall clean _ _ _ _ Hget Hp) as [Hq Hv]. destruct v as [v|].
  - eexists _, _, wd. split; [done|]. by split_and!.
  - destruct (NewMagicBuffer_clean P (rp_defaultSize p) wd Hd HP) as (rb & wd' & Hnew & Hcl & HP').
    cbn [rp_defaultSize]. rewrite Hnew bind_Ret. eexists _, _, wd'. split; [done|]. by split_and!.
Qed.

Lemma zeroes_ok rb :
  rb_ok rb -> allocated rb -> exists rb', RingBuffer_Zeroes rb = Ret rb' /\ rb_ok rb' /\ rb_Size rb' = rb_Size rb /\
    allocated rb' /\
    forall vm, rb_vm rb' = Some vm -> vm_zeroed vm.
Proof.
  intros [->|[vm Hm]] Hal.
  - by destruct Hal.
  - have [Hvm Hok Hs Hr Hw He] := Hm. rewrite /RingBuffer_Zeroes.
    destruct (Z.leb_spec (rb_Size rb) 0); [lia|]. rewrite Hvm /=.
    destruct (VirtualMem_Zeroes_ok vm Hok) as (vm' & Hz & Hok' & Hzero & Hsz).
    rewrite /VirtualMem_Zeroes Hs in Hz. rewrite Hz bind_Ret. eexists. split; [done|].
    split; [right; exists vm'; split; simpl; (done || congruence)|]. split; [done|].
    split; [by eexists|]. simpl. by intros ? [= <-].
Qed.

Lemma ringPool_Put_ok rb p :
  rb_ok rb -> allocated rb -> ring_pool_ok p ->
  exists p', ringbuffer_Put sort_Sort rb p = Ret p' /\ ring_pool_ok p'.
Proof.
  intros Hok Hal [Hc Hcal Hd Hp]. rewrite /ringbuffer_Put.
  destruct (zeroes_ok rb Hok Hal) as (rb' & -> & Hok' & Hs' & Hal' & Hz). rewrite bind_Ret /ringPool_Put /RingBuffer_Cap Hs'.
  have Hi := index_range (rb_Size rb). rewrite /steps in Hi.
  destruct (lookup_lt_is_Some_2 (rp_calls p) (Z.to_nat (indexRingBufferPool (rb_Size rb)))) as [c Hlc]; [lia|].
  rewrite (go_index_ok _ _ c); [lia|done|]. rewrite bind_Ret.
  set p1 := mkRingPool _ _ _ _ _.
  have Hp1 : ring_pool_ok p1 by split; [simpl; by rewrite length_insert|done..].
  have [p2 [-> Hp2]] : exists p2, (if calibrateCallsThreshold <? uint64 (c + 1) then calibrate sort_Sort p1 else Ret p1) = Ret p2
      /\ ring_pool_ok p2.
  { case_match; [|by exists p1].
    destruct (calibrate_ok sort_Sort Hsort p1) as (p2 & -> & Hcs & Hcb & Hpool & Hdef & _); [apply Hp1..|].
    exists p2. split; [done|]. have := step_size_bounds _ Hdef. intros Hb.
    split; [by rewrite Hcs|done|lia|]. rewrite Hpool. apply Hp1. }
  rewrite bind_Ret. destruct (_ || _); [|by exists p2]. eexists. split; [done|].
  destruct Hp2 as [? ? ? Hall]. split; try done. simpl. constructor; [|done].
  destruct (Reset_ok rb' Hok') as [? ?]. split; [done|]. split; [done|]. split; [exact Hal'|exact Hz].
Qed.

End PoolProofs.

(** ** Properties *)

(** Histories of the pool: connections take buffers, use them in any way that
    keeps them well formed, and put them back. *)
Inductive ring_pool_reach `{os : Os} (sort_Sort : list callSize -> list callSize) : ringPool -> Prop :=
| rpr_new : ring_pool_reach sort_Sort NewRingBufferPool
| rpr_get choice p wd rb p' wd' :
    ring_pool_reach sort_Sort p -> ringbuffer_Get choice p wd = Ret (rb, p', wd') -> ring_pool_reach sort_Sort p'
| rpr_put rb p p' :
    ring_pool_reach sort_Sort p -> rb_ok rb -> allocated rb ->
    ringbuffer_Put sort_Sort rb p = Ret p' -> ring_pool_reach sort_Sort p'.

Lemma ring_pool_reach_ok `{os : Os} sort_Sort p :
  sort_law sort_Sort -> ring_pool_reach sort_Sort p -> ring_pool_ok p.
Proof.
  intros Hsort. induction 1 as [|choice p wd rb p' wd' _ IH Hget|rb p p' _ IH Hok Hal Hput].
  - apply new_ring_pool_ok.
  - destruct IH as [Hc Hcal Hd Hp]. rewrite /ringbuffer_Get /ringPool_Get in Hget.
    destruct (pool_Get choice (rp_pool p)) as [v q] eqn:Hg.
    destruct (pool_Get_Forall clean _ _ _ _ Hg Hp) as [Hq _]. destruct v; run_inv; by split.
  - destruct (ringPool_Put_ok sort_Sort Hsort rb p Hok Hal IH) as (p1 & Heq & Hp1). rewrite Hput in Heq. by injection Heq as ->.
Qed.

(** C31. A connection does not see the bytes of another one: after any history in which
    buffers are taken from the pool, used by operations that keep them well-formed (their
    memory has exactly their size) and put back, [Get] returns a well-formed empty buffer
    whose whole memory is zero, and it does not panic.  The condition: the memory pool
    answers a request with nil or with a memory of the size asked for, and the kernel
    grants allocations.  A buffer on a larger memory is not well-formed and not covered;
    [pool_reuse_breaks_fifo] is about those. *)
Theorem pooled_buffer_clean `{os : Os} P `{!PoolPromise P} sort_Sort choice p wd :
  sort_law sort_Sort -> ring_pool_reach sort_Sort p -> P wd ->
  exists rb p' wd', ringbuffer_Get choice p wd = Ret (rb, p', wd') /\
    rb_ok rb /\ contents rb = [] /\ allocated rb /\ (forall vm, rb_vm rb = Some vm -> vm_zeroed vm) /\ P wd'.
Proof.
  intros Hsort Hreach HP.
  destruct (ringPool_Get_ok P choice p wd (ring_pool_reach_ok _ _ Hsort Hreach) HP) as (rb & p' & wd' & ? & (? & ? & ? & ?) & ? & ?).
  by exists rb, p', wd'.
Qed.

(** [calibrate] leaves consistent sizes: the default size is the size of a
    class with the largest number of calls, the maximal size is the size of a
    class and at least the default size, and the counters restart from zero. *)
Theorem calibrate_sizes `{os : Os} sort_Sort p :
  sort_law sort_Sort -> ring_pool_reach sort_Sort p ->
  exists p' k c, calibrate sort_Sort p = Ret p' /\ rp_calls p' = replicate 15 0 /\
    rp_calls p !! k = Some c /\ (forall j c', rp_calls p !! j = Some c' -> c' <= c) /\
    rp_defaultSize p' = Z.shiftl minSize (Z.of_nat k) /\ is_step_size (rp_maxSize p') /\
    rp_defaultSize p' <= rp_maxSize p'.
Proof.
  intros Hsort Hreach. destruct (ring_pool_reach_ok _ _ Hsort Hreach) as [Hc Hcal _ _].
  destruct (calibrate_ok sort_Sort Hsort p Hc Hcal) as (p' & ? & ? & _ & _ & _ & ? & ? & k & c & ? & ? & ?).
  exists p', k, c. by split_and!.
Qed.

(** An insertion sort by decreasing calls. *)
Fixpoint insert_desc (a : callSize) (l : list callSize) : list callSize :=
  match l with
  | [] => [a]
  | b :: l => if cs_calls a <? cs_calls b then b :: insert_desc a l else a :: b :: l
  end.

Definition sort_desc (l : list callSize) : list callSize := foldr insert_desc [] l.

Lemma insert_desc_perm a l : insert_desc a l ≡ₚ a :: l.
Proof.
  induction l as [|b l IH]; simpl; [done|]. destruct (_ <? _); [|done]. rewrite IH. apply Permutation_swap.
Qed.

Lemma insert_desc_sorted a l :
  StronglySorted (fun a b => cs_calls b <= cs_calls a) l ->
  StronglySorted (fun a b => cs_calls b <= cs_calls a) (insert_desc a l).
Proof.
  induction 1 as [|b l Hs IH Hall]; simpl; [repeat constructor|].
  destruct (Z.ltb_spec (cs_calls a) (cs_calls b)).
  - constructor; [done|]. rewrite insert_desc_perm. constructor; [lia|done].
  - constructor; [by constructor|]. constructor; [lia|]. eapply Forall_impl; [done|]. simpl. intros; lia.
Qed.

Lemma StronglySorted_lookup {A} (R : A -> A -> Prop) l i j a b :
  StronglySorted R l -> (i < j)%nat -> l !! i = Some a -> l !! j = Some b -> R a b.
Proof.
  intros Hs. revert i j. induction Hs as [|x l Hs IH Hall]; intros i j Hij Hi Hj; [done|].
  destruct j as [|j]; [lia|]. destruct i as [|i]; simplify_eq/=.
  - rewrite Forall_lookup in Hall. by eapply Hall.
  - eapply (IH i j); [lia|done..].
Qed.

Lemma sort_desc_law : sort_law sort_desc.
Proof.
  intros l. split.
  - induction l as [|a l IH]; [done|]. by rewrite /= insert_desc_perm IH.
  - have Hs : StronglySorted (fun a b => cs_calls b <= cs_calls a) (sort_desc l).
    { induction l as [|a l IH]; [constructor|]. by apply insert_desc_sorted. }
    intros i j a b Hij Hi Hj. apply Z.ltb_ge. exact (StronglySorted_lookup _ _ _ _ _ _ Hs Hij Hi Hj).
Qed.

#[local] Existing Instance linux_x86_64.

(** A full buffer of another connection is put back, and taken again. *)
Definition used_buffer : RingBuffer := mkRB (Some (mkVM (replicate (Z.to_nat 4096) x07) 4096)) 4096 5 5 false.
Definition used_pool : ringPool :=
  match ringbuffer_Put sort_desc used_buffer NewRingBufferPool with Ret p => p | Panic _ => NewRingBufferPool end.

Lemma pooled_buffer_clean_witness :
  length (internalPool (rp_pool used_pool)) = 1%nat /\
  exists rb p' wd', ringbuffer_Get (Some 0%nat) used_pool (mkWorld virtualmem_NewPool [first_fit] []) = Ret (rb, p', wd') /\
    rb_ok rb /\ contents rb = [] /\ allocated rb /\ (forall vm, rb_vm rb = Some vm -> vm_zeroed vm) /\ exact_world wd'.
Proof.
  split; [vm_compute; reflexivity|].
  apply (pooled_buffer_clean exact_world sort_desc); [apply sort_desc_law| |].
  - apply (rpr_put _ used_buffer NewRingBufferPool); [apply rpr_new| |by eexists|vm_compute; reflexivity].
    right. eexists. split; simpl; try done; try lia.
  - split; [apply world_ok_NewPool|]. split; [|done]. constructor; [apply first_fit_exact|done].
Defined.

Lemma calibrate_sizes_witness :
  exists p' k c, calibrate sort_desc NewRingBufferPool = Ret p' /\ rp_calls p' = replicate 15 0 /\
    rp_calls NewRingBufferPool !! k = Some c /\ (forall j c', rp_calls NewRingBufferPool !! j = Some c' -> c' <= c) /\
    rp_defaultSize p' = Z.shiftl minSize (Z.of_nat k) /\ is_step_size (rp_maxSize p') /\
    rp_defaultSize p' <= rp_maxSize p'.
Proof. apply calibrate_sizes; [apply sort_desc_law|apply rpr_new]. Defined.
