(* ===== verification/ByteSlicePool.v ===== *)
(** * ByteSlicePool: [pkg/pool/byteslice/byteslice_pool.go]

    The pool keeps bare pointers; [Get] rebuilds a slice header from the class the
    pointer was filed under.  A pooled pointer is modelled by the bytes that are
    really behind it, so that "the rebuilt slice stays inside its memory" is a
    statement of the model. *)

From S2P Require Import Prelude SyncPool.

Definition MaxInt32 : Z := 2 ^ 31 - 1.

(** A slice header over the memory [bs_mem] its pointer points to. *)
Record byteSlice : Type := mkSlice { bs_mem : list byte; bs_len : Z; bs_cap : Z }.

Definition slicePool : Type := list (pool (list byte)).

Definition NewByteSlicePool : slicePool := replicate 32 NewPool.

Definition byteslice_index (n : Z) : Z := uint32 (bits_Len32 (uint32 (n - 1))).

(** [make([]byte, n)] *)
Definition make_bytes (n : Z) : list byte := replicate (Z.to_nat n) x00.

(** [None] is the nil slice; [choice] is the choice of [sync.Pool.Get]. *)
Definition byteslice_Get (choice : option nat) (size : Z) (ps : slicePool) :
    outcome (option byteSlice * slicePool) :=
  if size <=? 0 then Ret (None, ps)
  else if MaxInt32 <? size then Ret (Some (mkSlice (make_bytes size) size size), ps)
  else
    let idx := byteslice_index (uint32 size) in
    p ← go_index ps idx;
    let '(ptr, p) := pool_Get choice p in
    let ps := <[Z.to_nat idx := p]> ps in
    match ptr with
    | None =>
        (* make([]byte, 1<<idx)[:size] *)
        if size <=? Z.shiftl 1 idx
        then Ret (Some (mkSlice (make_bytes (Z.shiftl 1 idx)) size (Z.shiftl 1 idx)), ps)
        else Panic PanicBounds
    | Some ptr => Ret (Some (mkSlice ptr size (Z.shiftl 1 idx)), ps)
    end.

Definition byteslice_Put (buf : byteSlice) (ps : slicePool) : outcome slicePool :=
  let size := bs_cap buf in
  if (size =? 0) || (MaxInt32 <? size) then Ret ps
  else
    let idx := byteslice_index (uint32 size) in
    let idx := if size =? Z.shiftl 1 idx then idx else uint32 (idx - 1) in
    p ← go_index ps idx;
    Ret (<[Z.to_nat idx := pool_Put (bs_mem buf) p]> ps).

(** ** The invariant *)

(** Class [i] holds pointers to at least [2^i] bytes. *)
Record slice_pool_ok (ps : slicePool) : Prop := {
  spo_len : length ps = 32%nat;
  spo_class i p : ps !! i = Some p -> Forall (fun m => 2 ^ Z.of_nat i <= zlen m) (internalPool p)
}.

(** A slice inside its memory, at the start of which it points. *)
Definition slice_ok (s : byteSlice) : Prop := 0 <= bs_len s <= bs_cap s /\ bs_cap s <= zlen (bs_mem s).

Lemma slice_pool_new : slice_pool_ok NewByteSlicePool.
Proof. split; [done|]. intros i p [-> _]%lookup_replicate_1. constructor. Qed.

Lemma slice_pool_update ps i p :
  slice_pool_ok ps -> Forall (fun m => 2 ^ Z.of_nat i <= zlen m) (internalPool p) -> slice_pool_ok (<[i := p]> ps).
Proof.
  intros [Hlen Hc] Hp. split; [by rewrite length_insert|].
  intros j q [(-> & <- & _)|[? ?]]%list_lookup_insert_Some; eauto.
Qed.

(** The class of a size from 1 to [2^31 - 1]. *)
Lemma byteslice_index_spec n :
  1 <= n <= MaxInt32 ->
  0 <= byteslice_index (uint32 n) <= 31 /\ n <= 2 ^ byteslice_index (uint32 n) /\
  (0 < byteslice_index (uint32 n) -> 2 ^ (byteslice_index (uint32 n) - 1) < n).
Proof.
  rewrite /MaxInt32. intros Hn. rewrite /byteslice_index (wrap_u_small 32 n); [lia|].
  rewrite (wrap_u_small 32 (n - 1)); [lia|].
  have Hnn := bits_Len32_nonneg (n - 1). have Hle := bits_Len32_spec (n - 1) 31.
  have Hself := bits_Len32_spec (n - 1) (bits_Len32 (n - 1)).
  rewrite wrap_u_small; [lia|]. split; [lia|]. split; [lia|].
  intros Hpos. destruct (Z.eqb_spec n 1) as [->|]; [done|].
  have := bits_Len32_lower (n - 1). lia.
Qed.

Lemma byteslice_Get_ok choice size ps :
  slice_pool_ok ps -> 0 < size ->
  exists s ps', byteslice_Get choice size ps = Ret (Some s, ps') /\ slice_pool_ok ps' /\ slice_ok s /\ bs_len s = size.
Proof.
  intros Hok Hs. rewrite /byteslice_Get. destruct (Z.leb_spec size 0); [lia|].
  have Hmake : forall n, 0 <= n -> zlen (make_bytes n) = n by intros n Hn; rewrite /zlen length_replicate; lia.
  destruct (Z.ltb_spec MaxInt32 size) as [Hbig|Hsmall].
  { eexists _, ps. split; [done|]. split; [done|]. split; [|done]. split; simpl; [lia|]. rewrite Hmake; lia. }
  destruct (byteslice_index_spec size) as (Hi & Hle & _); [lia|].
  have Hpow : 0 < 2 ^ byteslice_index (uint32 size) by apply Z.pow_pos_nonneg; lia.
  have Hsh : Z.shiftl 1 (byteslice_index (uint32 size)) = 2 ^ byteslice_index (uint32 size).
  { rewrite Z.shiftl_mul_pow2; lia. }
  rewrite Hsh. set (idx := byteslice_index (uint32 size)) in *.
  destruct (lookup_lt_is_Some_2 ps (Z.to_nat idx)) as [p Hp]; [rewrite (spo_len _ Hok); lia|].
  rewrite (go_index_ok _ _ p); [lia|done|]. rewrite bind_Ret.
  destruct (pool_Get choice p) as [ptr q] eqn:Hget.
  destruct (pool_Get_Forall _ _ _ _ _ Hget (spo_class _ Hok _ _ Hp)) as [Hq Hptr].
  have Hok' : slice_pool_ok (<[Z.to_nat idx := q]> ps) by apply slice_pool_update.
  destruct ptr as [m|].
  - eexists _, _. split; [done|]. split; [done|]. split; [|done]. simpl in Hptr. rewrite Z2Nat.id in Hptr; [lia|].
    split; simpl; lia.
  - destruct (Z.leb_spec size (2 ^ idx)); [|lia]. eexists _, _. split; [done|]. split; [done|].
    split; [|done]. split; simpl; [lia|]. rewrite Hmake; lia.
Qed.

Lemma byteslice_Put_ok s ps :
  slice_pool_ok ps -> slice_ok s -> exists ps', byteslice_Put s ps = Ret ps' /\ slice_pool_ok ps'.
Proof.
  intros Hok [Hl Hc]. rewrite /byteslice_Put.
  destruct (Z.eqb_spec (bs_cap s) 0); [by exists ps|]. destruct (Z.ltb_spec MaxInt32 (bs_cap s)); [by exists ps|]. simpl.
  destruct (byteslice_index_spec (bs_cap s)) as (Hi & Hle & Hlow); [lia|].
  have Hsh : Z.shiftl 1 (byteslice_index (uint32 (bs_cap s))) = 2 ^ byteslice_index (uint32 (bs_cap s)).
  { rewrite Z.shiftl_mul_pow2; lia. }
  rewrite Hsh. set (idx := byteslice_index (uint32 (bs_cap s))) in *.
  have [j [-> [Hj Hjc]]] : exists j, (if bs_cap s =? 2 ^ idx then idx else uint32 (idx - 1)) = j /\ 0 <= j <= 31 /\ 2 ^ j <= bs_cap s.
  { destruct (Z.eqb_spec (bs_cap s) (2 ^ idx)); [exists idx; lia|].
    have Hpos : 0 < idx. { destruct (Z.eqb_spec idx 0) as [H0|]; [rewrite H0 in Hle, n0; simpl in *; lia|lia]. }
    rewrite wrap_u_small; [lia|]. exists (idx - 1). specialize (Hlow Hpos). lia. }
  destruct (lookup_lt_is_Some_2 ps (Z.to_nat j)) as [p Hp]; [rewrite (spo_len _ Hok); lia|].
  rewrite (go_index_ok _ _ p); [lia|done|]. rewrite bind_Ret. eexists. split; [done|].
  apply slice_pool_update; [done|]. simpl. constructor; [|by apply (spo_class _ Hok)].
  rewrite Z2Nat.id; lia.
Qed.

(** ** Properties *)

(** Histories: clients take slices and put back slices of their own as well. *)
Inductive slice_pool_reach : slicePool -> Prop :=
| spr_new : slice_pool_reach NewByteSlicePool
| spr_get choice size ps s ps' :
    slice_pool_reach ps -> byteslice_Get choice size ps = Ret (s, ps') -> slice_pool_reach ps'
| spr_put s ps ps' :
    slice_pool_reach ps -> slice_ok s -> byteslice_Put s ps = Ret ps' -> slice_pool_reach ps'.

Lemma slice_pool_reach_ok ps : slice_pool_reach ps -> slice_pool_ok ps.
Proof.
  induction 1 as [|choice size ps s ps' _ IH Hget|s ps ps' _ IH Hs Hput].
  - apply slice_pool_new.
  - destruct (Z.leb_spec size 0).
    + rewrite /byteslice_Get in Hget. destruct (Z.leb_spec size 0); [by simplify_eq|lia].
    + destruct (byteslice_Get_ok choice size ps IH) as (? & ? & Heq & ? & _); [lia|]. rewrite Hget in Heq. by simplify_eq.
  - destruct (byteslice_Put_ok s ps IH Hs) as (? & Heq & ?). rewrite Hput in Heq. by simplify_eq.
Qed.

(** C32. The slice [Get(size)] builds over a pooled pointer has the length asked
    for and never reaches past the memory behind the pointer, whatever slices, also
    with capacities that are no powers of two, were put into the pool before. *)
Theorem byteslice_in_memory choice size ps :
  slice_pool_reach ps -> 0 < size ->
  exists s ps', byteslice_Get choice size ps = Ret (Some s, ps') /\ bs_len s = size /\
    size <= bs_cap s <= zlen (bs_mem s).
Proof.
  intros Hr Hs. destruct (byteslice_Get_ok choice size ps (slice_pool_reach_ok _ Hr) Hs) as (s & ps' & ? & _ & [? ?] & ?).
  exists s, ps'. split; [done|]. split; [done|]. lia.
Qed.

(** A slice of capacity 100 is filed with the 64-byte pointers and served as one. *)
Definition odd_slice : byteSlice := mkSlice (make_bytes 100) 10 100.

Definition odd_pool : slicePool := <[6%nat := pool_Put (make_bytes 100) NewPool]> NewByteSlicePool.

Lemma byteslice_in_memory_witness :
  exists s ps', byteslice_Get (Some 0%nat) 50 odd_pool = Ret (Some s, ps') /\ bs_len s = 50 /\
    50 <= bs_cap s <= zlen (bs_mem s).
Proof.
  apply byteslice_in_memory; [|lia]. apply (spr_put odd_slice NewByteSlicePool); [apply spr_new| |reflexivity].
  split; vm_compute; intuition discriminate.
Defined.
