(* ===== verification/Config.v ===== *)
(** * Config: [config.go]

    The configuration record, its options and [NewConfig].  A Go option is a
    function that updates a [Config] in place; here it returns the new value. *)

From S2P Require Import Prelude LoadBalancer.

Definition defaultMaxCQEvents : Z := 16384.
Definition defaultMaxSQEntries : Z := 16384.

(** [zerolog.ErrorLevel] *)
Definition ErrorLevel : Z := 3.

Inductive ServerArchitecture : Type := Reactor | SocketSharding | OtherArchitecture (n : Z).

(** Durations are nanoseconds, the logger level is zerolog's number. *)
Record Config : Type := mkConfig {
  Architecture : ServerArchitecture;
  AsyncHandler : bool;
  GoroutinePool : bool;
  CPUAffinity : bool;
  ProcessPriority : bool;
  Workers : Z;
  CBPFilter : bool;
  LoadBalancing_ : LoadBalancing;
  SocketRecvBufferSize : Z;
  SocketSendBufferSize : Z;
  TCPKeepAlive : Z;
  LoggerLevel : Z;
  PrettyLogger : bool;
  MaxSQEntries : Z;
  MaxCQEvents : Z
}.

(** [ConfigOption] *)
Definition ConfigOption : Type := Config -> Config.

Definition WithArchitecture (v : ServerArchitecture) : ConfigOption := fun c =>
  mkConfig v (AsyncHandler c) (GoroutinePool c) (CPUAffinity c) (ProcessPriority c) (Workers c)
    (CBPFilter c) (LoadBalancing_ c) (SocketRecvBufferSize c) (SocketSendBufferSize c)
    (TCPKeepAlive c) (LoggerLevel c) (PrettyLogger c) (MaxSQEntries c) (MaxCQEvents c).

Definition WithAsyncHandler (v : bool) : ConfigOption := fun c =>
  mkConfig (Architecture c) v (GoroutinePool c) (CPUAffinity c) (ProcessPriority c) (Workers c)
    (CBPFilter c) (LoadBalancing_ c) (SocketRecvBufferSize c) (SocketSendBufferSize c)
    (TCPKeepAlive c) (LoggerLevel c) (PrettyLogger c) (MaxSQEntries c) (MaxCQEvents c).

Definition WithGoroutinePool (v : bool) : ConfigOption := fun c =>
  mkConfig (Architecture c) (AsyncHandler c) v (CPUAffinity c) (ProcessPriority c) (Workers c)
    (CBPFilter c) (LoadBalancing_ c) (SocketRecvBufferSize c) (SocketSendBufferSize c)
    (TCPKeepAlive c) (LoggerLevel c) (PrettyLogger c) (MaxSQEntries c) (MaxCQEvents c).

Definition WithCPUAffinity (v : bool) : ConfigOption := fun c =>
  mkConfig (Architecture c) (AsyncHandler c) (GoroutinePool c) v (ProcessPriority c) (Workers c)
    (CBPFilter c) (LoadBalancing_ c) (SocketRecvBufferSize c) (SocketSendBufferSize c)
    (TCPKeepAlive c) (LoggerLevel c) (PrettyLogger c) (MaxSQEntries c) (MaxCQEvents c).

Definition WithProcessPriority (v : bool) : ConfigOption := fun c =>
  mkConfig (Architecture c) (AsyncHandler c) (GoroutinePool c) (CPUAffinity c) v (Workers c)
    (CBPFilter c) (LoadBalancing_ c) (SocketRecvBufferSize c) (SocketSendBufferSize c)
    (TCPKeepAlive c) (LoggerLevel c) (PrettyLogger c) (MaxSQEntries c) (MaxCQEvents c).

Definition WithWorkers (v : Z) : ConfigOption := fun c =>
  mkConfig (Architecture c) (AsyncHandler c) (GoroutinePool c) (CPUAffinity c)
    (ProcessPriority c) v (CBPFilter c) (LoadBalancing_ c) (SocketRecvBufferSize c)
    (SocketSendBufferSize c) (TCPKeepAlive c) (LoggerLevel c) (PrettyLogger c)
    (MaxSQEntries c) (MaxCQEvents c).

Definition WithCBPF (v : bool) : ConfigOption := fun c =>
  mkConfig (Architecture c) (AsyncHandler c) (GoroutinePool c) (CPUAffinity c)
    (ProcessPriority c) (Workers c) v (LoadBalancing_ c) (SocketRecvBufferSize c)
    (SocketSendBufferSize c) (TCPKeepAlive c) (LoggerLevel c) (PrettyLogger c)
    (MaxSQEntries c) (MaxCQEvents c).

Definition WithLoadBalancing (v : LoadBalancing) : ConfigOption := fun c =>
  mkConfig (Architecture c) (AsyncHandler c) (GoroutinePool c) (CPUAffinity c)
    (ProcessPriority c) (Workers c) (CBPFilter c) v (SocketRecvBufferSize c)
    (SocketSendBufferSize c) (TCPKeepAlive c) (LoggerLevel c) (PrettyLogger c)
    (MaxSQEntries c) (MaxCQEvents c).

Definition WithSocketRecvBufferSize (v : Z) : ConfigOption := fun c =>
  mkConfig (Architecture c) (AsyncHandler c) (GoroutinePool c) (CPUAffinity c)
    (ProcessPriority c) (Workers c) (CBPFilter c) (LoadBalancing_ c) v
    (SocketSendBufferSize c) (TCPKeepAlive c) (LoggerLevel c) (PrettyLogger c)
    (MaxSQEntries c) (MaxCQEvents c).

Definition WithSocketSendBufferSize (v : Z) : ConfigOption := fun c =>
  mkConfig (Architecture c) (AsyncHandler c) (GoroutinePool c) (CPUAffinity c)
    (ProcessPriority c) (Workers c) (CBPFilter c) (LoadBalancing_ c)
    (SocketRecvBufferSize c) v (TCPKeepAlive c) (LoggerLevel c) (PrettyLogger c)
    (MaxSQEntries c) (MaxCQEvents c).

Definition WithTCPKeepAlive (v : Z) : ConfigOption := fun c =>
  mkConfig (Architecture c) (AsyncHandler c) (GoroutinePool c) (CPUAffinity c)
    (ProcessPriority c) (Workers c) (CBPFilter c) (LoadBalancing_ c)
    (SocketRecvBufferSize c) (SocketSendBufferSize c) v (LoggerLevel c) (PrettyLogger c)
    (MaxSQEntries c) (MaxCQEvents c).

Definition WithLoggerLevel (v : Z) : ConfigOption := fun c =>
  mkConfig (Architecture c) (AsyncHandler c) (GoroutinePool c) (CPUAffinity c)
    (ProcessPriority c) (Workers c) (CBPFilter c) (LoadBalancing_ c)
    (SocketRecvBufferSize c) (SocketSendBufferSize c) (TCPKeepAlive c) v (PrettyLogger c)
    (MaxSQEntries c) (MaxCQEvents c).

Definition WithPrettyLogger (v : bool) : ConfigOption := fun c =>
  mkConfig (Architecture c) (AsyncHandler c) (GoroutinePool c) (CPUAffinity c)
    (ProcessPriority c) (Workers c) (CBPFilter c) (LoadBalancing_ c)
    (SocketRecvBufferSize c) (SocketSendBufferSize c) (TCPKeepAlive c) (LoggerLevel c) v
    (MaxSQEntries c) (MaxCQEvents c).

Definition WithMaxSQEntries (v : Z) : ConfigOption := fun c =>
  mkConfig (Architecture c) (AsyncHandler c) (GoroutinePool c) (CPUAffinity c)
    (ProcessPriority c) (Workers c) (CBPFilter c) (LoadBalancing_ c)
    (SocketRecvBufferSize c) (SocketSendBufferSize c) (TCPKeepAlive c) (LoggerLevel c)
    (PrettyLogger c) v (MaxCQEvents c).

Definition WithMaxCQEvents (v : Z) : ConfigOption := fun c =>
  mkConfig (Architecture c) (AsyncHandler c) (GoroutinePool c) (CPUAffinity c)
    (ProcessPriority c) (Workers c) (CBPFilter c) (LoadBalancing_ c)
    (SocketRecvBufferSize c) (SocketSendBufferSize c) (TCPKeepAlive c) (LoggerLevel c)
    (PrettyLogger c) (MaxSQEntries c) v.

(** [runtime.NumCPU] is a parameter. *)
Definition NewConfig (NumCPU : Z) (opts : list ConfigOption) : Config :=
  let config := mkConfig Reactor false false false false NumCPU false RoundRobin 0 0 0 ErrorLevel false
                  defaultMaxSQEntries defaultMaxCQEvents in
  foldl (fun c opt => opt c) config opts.

(** ** The options of the package *)

Inductive config_option : Type :=
| OArchitecture (v : ServerArchitecture)
| OAsyncHandler (v : bool)
| OGoroutinePool (v : bool)
| OCPUAffinity (v : bool)
| OProcessPriority (v : bool)
| OWorkers (v : Z)
| OCBPF (v : bool)
| OLoadBalancing (v : LoadBalancing)
| OSocketRecvBufferSize (v : Z)
| OSocketSendBufferSize (v : Z)
| OTCPKeepAlive (v : Z)
| OLoggerLevel (v : Z)
| OPrettyLogger (v : bool)
| OMaxSQEntries (v : Z)
| OMaxCQEvents (v : Z).

Definition option_fn (o : config_option) : ConfigOption :=
  match o with
  | OArchitecture v => WithArchitecture v
  | OAsyncHandler v => WithAsyncHandler v
  | OGoroutinePool v => WithGoroutinePool v
  | OCPUAffinity v => WithCPUAffinity v
  | OProcessPriority v => WithProcessPriority v
  | OWorkers v => WithWorkers v
  | OCBPF v => WithCBPF v
  | OLoadBalancing v => WithLoadBalancing v
  | OSocketRecvBufferSize v => WithSocketRecvBufferSize v
  | OSocketSendBufferSize v => WithSocketSendBufferSize v
  | OTCPKeepAlive v => WithTCPKeepAlive v
  | OLoggerLevel v => WithLoggerLevel v
  | OPrettyLogger v => WithPrettyLogger v
  | OMaxSQEntries v => WithMaxSQEntries v
  | OMaxCQEvents v => WithMaxCQEvents v
  end.

(** A field is what the last option that sets it says, or its default. *)
Definition last_of {A} (f : config_option -> option A) (d : A) (os : list config_option) : A :=
  default d (last (omap f os)).

Lemma last_of_snoc {A} (f : config_option -> option A) d os o :
  last_of f d (os ++ [o]) = default (last_of f d os) (f o).
Proof.
  rewrite /last_of omap_app. simpl. destruct (f o); [by rewrite last_snoc|by rewrite app_nil_r].
Qed.

(** [NewConfig] gives every field the value of the last option that sets it
    and the documented default when none does; no option touches another field. *)
Theorem new_config_last_option NumCPU (os : list config_option) :
  NewConfig NumCPU (map option_fn os) = mkConfig
    (last_of (fun o => if o is OArchitecture v then Some v else None) Reactor os)
    (last_of (fun o => if o is OAsyncHandler v then Some v else None) false os)
    (last_of (fun o => if o is OGoroutinePool v then Some v else None) false os)
    (last_of (fun o => if o is OCPUAffinity v then Some v else None) false os)
    (last_of (fun o => if o is OProcessPriority v then Some v else None) false os)
    (last_of (fun o => if o is OWorkers v then Some v else None) NumCPU os)
    (last_of (fun o => if o is OCBPF v then Some v else None) false os)
    (last_of (fun o => if o is OLoadBalancing v then Some v else None) RoundRobin os)
    (last_of (fun o => if o is OSocketRecvBufferSize v then Some v else None) 0 os)
    (last_of (fun o => if o is OSocketSendBufferSize v then Some v else None) 0 os)
    (last_of (fun o => if o is OTCPKeepAlive v then Some v else None) 0 os)
    (last_of (fun o => if o is OLoggerLevel v then Some v else None) 3 os)
    (last_of (fun o => if o is OPrettyLogger v then Some v else None) false os)
    (last_of (fun o => if o is OMaxSQEntries v then Some v else None) 16384 os)
    (last_of (fun o => if o is OMaxCQEvents v then Some v else None) 16384 os).
Proof.
  induction os as [|o os IH] using rev_ind; [reflexivity|].
  rewrite map_app /NewConfig foldl_app -/(NewConfig NumCPU (map option_fn os)) IH !last_of_snoc.
  by destruct o.
Qed.
