(* ===== verification/Sockaddr.v ===== *)
(** * Sockaddr: [pkg/socket/socktoaddr.go], [pkg/socket/sock_posix.go] and the
    address part of [tcp_socket.go] and [udp_socket.go]

    Conversions between the kernel's socket addresses and Go's [net.Addr].  The
    interface table of the host ([net.InterfaceByIndex], [net.InterfaceByName]) and
    the name resolution are parameters. *)

From S2P Require Import Prelude Errors ByteSlicePool.
Local Open Scope string_scope.
Local Open Scope list_scope.
Local Open Scope Z_scope.

Definition AF_INET : Z := 2.
Definition AF_INET6 : Z := 10.
Definition EINVAL : Z := 22.
Definition EAFNOSUPPORT : Z := 97.

(** [net.IP]: 0, 4 or 16 bytes; the empty list is nil. *)
Definition IP : Type := list byte.

Inductive Sockaddr : Type :=
| SockaddrInet4 (port : Z) (addr : list byte)
| SockaddrInet6 (port : Z) (addr : list byte) (zoneId : Z)
| SockaddrUnix (name : string).

Inductive NetAddr : Type :=
| TCPAddr (ip : IP) (port : Z) (zone : string)
| UDPAddr (ip : IP) (port : Z) (zone : string)
| UnixAddr (name net : string).

(** ** [net.IP.To4], [To16] and [Equal] *)

Definition ipv4InIPv6Prefix : list byte :=
  [x00; x00; x00; x00; x00; x00; x00; x00; x00; x00; xff; xff].

Definition To4 (ip : IP) : option IP :=
  if (length ip =? 4)%nat then Some ip
  else if (length ip =? 16)%nat && bool_decide (take 12 ip = ipv4InIPv6Prefix) then Some (drop 12 ip)
  else None.

Definition To16 (ip : IP) : option IP :=
  if (length ip =? 4)%nat then Some (ipv4InIPv6Prefix ++ ip)
  else if (length ip =? 16)%nat then Some ip
  else None.

Definition IPv4zero : IP := ipv4InIPv6Prefix ++ [x00; x00; x00; x00].
Definition IPv6zero : IP := replicate 16 x00.

(** [ip.Equal(x)]: an IPv4 address equals its IPv6 form. *)
Definition IP_Equal (a b : IP) : bool := bool_decide (default a (To16 a) = default b (To16 b)).

(** ** [socktoaddr.go] *)

Definition netIPBytesSize : Z := 16.
Definition int32size : Z := 32.

(** [copy(dst[lo:hi], src)] into a slice of the pool: bytes [lo] to [hi]. *)
Definition copy_range (dst : list byte) (lo hi : nat) (src : list byte) : list byte :=
  let n := Nat.min (hi - lo) (length src) in
  take lo dst ++ take n src ++ drop (lo + n) dst.

(** The first [len] bytes of a pooled slice. *)
Definition slice_bytes (s : byteSlice) : list byte := take (Z.to_nat (bs_len s)) (bs_mem s).

Section Addresses.
(** [net.InterfaceByIndex(i)]: the name of the interface. *)
Variable InterfaceByIndex : Z -> option string.
(** [net.InterfaceByName(name)]: its index. *)
Variable InterfaceByName : string -> option Z.

Definition sockaddrInet4ToIP (choice : option nat) (addr : list byte) (ps : slicePool) : outcome (IP * slicePool) :=
  '(s, ps) ← byteslice_Get choice netIPBytesSize ps;
  s ← deref s;
  let ip := copy_range (slice_bytes s) 0 12 ipv4InIPv6Prefix in
  Ret (copy_range ip 12 16 addr, ps).

(** The digits, written from the end of the 32-byte slice; [i] is [bytesSliceLen]. *)
Fixpoint int2decimal_loop (fuel : nat) (value : Z) (i : Z) (slice : list byte) : outcome (Z * list byte) :=
  match fuel with
  | O => Ret (i, slice)
  | S fuel =>
      if 0 <? value then
        let i := i - 1 in
        _ ← go_index slice i;
        let digit := default x00 (Byte.of_N (Z.to_N (value mod 10 + 48))) in
        int2decimal_loop fuel (value / 10) i (<[Z.to_nat i := digit]> slice)
      else Ret (i, slice)
  end.

(** A [uint] has at most 20 digits: 32 rounds are enough. *)
Definition int2decimal (choice : option nat) (value : Z) (ps : slicePool) : outcome (string * slicePool) :=
  if value =? 0 then Ret ("0", ps)
  else
    '(s, ps) ← byteslice_Get choice int32size ps;
    s ← deref s;
    '(i, bytes) ← int2decimal_loop 32 value (bs_len s) (slice_bytes s);
    Ret (String.string_of_list_byte (drop (Z.to_nat i) bytes), ps).

Definition ip6ZoneToString (choice : option nat) (zone : Z) (ps : slicePool) : outcome (string * slicePool) :=
  if zone =? 0 then Ret ("", ps)
  else match InterfaceByIndex zone with
       | Some name => Ret (name, ps)
       | None => int2decimal choice zone ps
       end.

Definition sockaddrInet6ToIPAndZone (c1 c2 : option nat) (addr : list byte) (zoneId : Z) (ps : slicePool) :
    outcome (IP * string * slicePool) :=
  '(s, ps) ← byteslice_Get c1 netIPBytesSize ps;
  s ← deref s;
  let ip := copy_range (slice_bytes s) 0 16 addr in
  '(zone, ps) ← ip6ZoneToString c2 zoneId ps;
  Ret (ip, zone, ps).

(** [nil] when the conversion fails. *)
Definition SockaddrToTCPOrUnixAddr (c1 c2 : option nat) (sa : Sockaddr) (ps : slicePool) :
    outcome (option NetAddr * slicePool) :=
  match sa with
  | SockaddrInet4 port addr => '(ip, ps) ← sockaddrInet4ToIP c1 addr ps; Ret (Some (TCPAddr ip port ""), ps)
  | SockaddrInet6 port addr z =>
      '(ip, zone, ps) ← sockaddrInet6ToIPAndZone c1 c2 addr z ps; Ret (Some (TCPAddr ip port zone), ps)
  | SockaddrUnix name => Ret (Some (UnixAddr name "unix"), ps)
  end.

Definition SockaddrToUDPAddr (c1 c2 : option nat) (sa : Sockaddr) (ps : slicePool) :
    outcome (option NetAddr * slicePool) :=
  match sa with
  | SockaddrInet4 port addr => '(ip, ps) ← sockaddrInet4ToIP c1 addr ps; Ret (Some (UDPAddr ip port ""), ps)
  | SockaddrInet6 port addr z =>
      '(ip, zone, ps) ← sockaddrInet6ToIPAndZone c1 c2 addr z ps; Ret (Some (UDPAddr ip port zone), ps)
  | SockaddrUnix _ => Ret (None, ps)
  end.

(** [RawAnyToSockaddrInet4]: family, port bytes in network order and address. *)
Definition RawAnyToSockaddrInet4 (rsa : option (Z * byte * byte * list byte)) : Sockaddr + error :=
  match rsa with
  | None => inr (Errno EINVAL)
  | Some (family, p0, p1, addr) =>
      if negb (family =? AF_INET) then inr (Errno EAFNOSUPPORT)
      else inl (SockaddrInet4 (Z.shiftl (Z.of_N (Byte.to_N p0)) 8 + Z.of_N (Byte.to_N p1)) (take 4 addr))
  end.

(** ** [sock_posix.go] *)

(** [&net.AddrError{Err: msg}] *)
Definition AddrError (msg : string) : error := Wrap msg (ErrUser 0).

Definition ipToSockaddrInet4 (ip : IP) (port : Z) : Sockaddr + error :=
  let ip := match ip with [] => IPv4zero | _ => ip end in
  match To4 ip with
  | None => inr (AddrError "non-IPv4 address")
  | Some ip4 => inl (SockaddrInet4 port ip4)
  end.

Definition ipToSockaddrInet6 (ip : IP) (port : Z) (zone : string) : Sockaddr + error :=
  let ip := if (length ip =? 0)%nat || IP_Equal ip IPv4zero then IPv6zero else ip in
  match To16 ip with
  | None => inr (AddrError "non-IPv6 address")
  | Some ip6 =>
      match InterfaceByName zone with
      | None => inr (Wrap "interfaceByName: " (ErrUser 1))
      | Some index => inl (SockaddrInet6 port ip6 (uint32 index))
      end
  end.

Definition ipToSockaddr (family : Z) (ip : IP) (port : Z) (zone : string) : Sockaddr + error :=
  if family =? AF_INET then ipToSockaddrInet4 ip port
  else if family =? AF_INET6 then ipToSockaddrInet6 ip port zone
  else inr (AddrError "invalid address family").

(** ** [GetTCPSockAddr] and [GetUDPSockAddr] *)

(** A resolved address: IP, port and zone. *)
Record resolved : Type := mkResolved { ra_IP : IP; ra_Port : Z; ra_Zone : string }.

Definition determineTCPProto (proto : string) (addr : resolved) : string + error :=
  if decide (is_Some (To4 (ra_IP addr))) then inl TCP4
  else if decide (is_Some (To16 (ra_IP addr))) then inl TCP6
  else if decide (proto = TCP \/ proto = TCP4 \/ proto = TCP6) then inl proto
  else inr ErrUnsupportedTCPProtocol.

Definition determineUDPProto (proto : string) (addr : resolved) : string + error :=
  if decide (is_Some (To4 (ra_IP addr))) then inl UDP4
  else if decide (is_Some (To16 (ra_IP addr))) then inl UDP6
  else if decide (proto = UDP \/ proto = UDP4 \/ proto = UDP6) then inl proto
  else inr ErrUnsupportedUDPProtocol.

(** [net.ResolveTCPAddr] and [net.ResolveUDPAddr] *)
Variable ResolveTCPAddr ResolveUDPAddr : string -> string -> resolved + error.

(** The socket address, the family and whether the socket is IPv6 only. *)
Definition GetTCPSockAddr (proto addr : string) : (Sockaddr * Z * resolved * bool) + error :=
  match ResolveTCPAddr proto addr with
  | inr e => inr (Wrap "resolveTCPAddr error: " e)
  | inl tcpAddr =>
      match determineTCPProto proto tcpAddr with
      | inr e => inr e
      | inl v =>
          if decide (v = TCP4) then
            match ipToSockaddr AF_INET (ra_IP tcpAddr) (ra_Port tcpAddr) "" with
            | inl sa => inl (sa, AF_INET, tcpAddr, false)
            | inr e => inr e
            end
          else if decide (v = TCP6 \/ v = TCP) then
            match ipToSockaddr AF_INET6 (ra_IP tcpAddr) (ra_Port tcpAddr) (ra_Zone tcpAddr) with
            | inl sa => inl (sa, AF_INET6, tcpAddr, bool_decide (v = TCP6))
            | inr e => inr e
            end
          else inr ErrUnsupportedProtocol
      end
  end.

Definition GetUDPSockAddr (proto addr : string) : (Sockaddr * Z * resolved * bool) + error :=
  match ResolveUDPAddr proto addr with
  | inr e => inr (Wrap "resolveUDPAddr error: " e)
  | inl udpAddr =>
      match determineUDPProto proto udpAddr with
      | inr e => inr e
      | inl v =>
          if decide (v = UDP4) then
            match ipToSockaddr AF_INET (ra_IP udpAddr) (ra_Port udpAddr) "" with
            | inl sa => inl (sa, AF_INET, udpAddr, false)
            | inr e => inr e
            end
          else if decide (v = UDP6 \/ v = UDP) then
            match ipToSockaddr AF_INET6 (ra_IP udpAddr) (ra_Port udpAddr) (ra_Zone udpAddr) with
            | inl sa => inl (sa, AF_INET6, udpAddr, bool_decide (v = UDP6))
            | inr e => inr e
            end
          else inr ErrUnsupportedProtocol
      end
  end.

End Addresses.

(** ** Decimal numbers *)

Lemma string_of_bytes_cons b bs :
  String.string_of_list_byte (b :: bs) = String (Ascii.ascii_of_byte b) (String.string_of_list_byte bs).
Proof. reflexivity. Qed.

(** The byte the loop stores is the digit [pretty] writes. *)
Lemma digit_char v :
  0 <= v -> Ascii.ascii_of_byte (default x00 (Byte.of_N (Z.to_N (v mod 10 + 48)))) = pretty_N_char (Z.to_N v mod 10).
Proof.
  intros Hv. have Hm := Z.mod_pos_bound v 10. have -> : (Z.to_N v mod 10)%N = Z.to_N (v mod 10).
  { by rewrite Z2N.inj_mod; [lia..|]. }
  have Hc : v mod 10 = 0 \/ v mod 10 = 1 \/ v mod 10 = 2 \/ v mod 10 = 3 \/ v mod 10 = 4 \/ v mod 10 = 5 \/
    v mod 10 = 6 \/ v mod 10 = 7 \/ v mod 10 = 8 \/ v mod 10 = 9 by lia.
  by repeat destruct Hc as [->|Hc]; [..|rewrite Hc].
Qed.

Lemma int2decimal_loop_ok fuel value i slice :
  0 <= value < 10 ^ Z.of_nat fuel -> Z.of_nat fuel <= i <= zlen slice ->
  exists i' slice', int2decimal_loop fuel value i slice = Ret (i', slice') /\
    String.string_of_list_byte (drop (Z.to_nat i') slice') =
      pretty_N_go (Z.to_N value) (String.string_of_list_byte (drop (Z.to_nat i) slice)).
Proof.
  revert value i slice. induction fuel as [|fuel IH]; intros value i slice Hv Hi.
  { have -> : value = 0 by simpl in Hv; lia. by exists i, slice. }
  cbn [int2decimal_loop]. destruct (Z.ltb_spec 0 value) as [Hpos|].
  2:{ have -> : value = 0 by lia. by exists i, slice. }
  rewrite /zlen in Hi. destruct (lookup_lt_is_Some_2 slice (Z.to_nat (i - 1))) as [b Hb]; [lia|].
  rewrite (go_index_ok _ _ b); [lia|done|]. rewrite bind_Ret.
  set d := default x00 _.
  destruct (IH (value / 10) (i - 1) (<[Z.to_nat (i - 1) := d]> slice)) as (i' & slice' & -> & Heq).
  { split; [apply Z.div_pos; lia|]. apply Z.div_lt_upper_bound; [lia|].
    rewrite Nat2Z.inj_succ Z.pow_succ_r in Hv; lia. }
  { rewrite /zlen length_insert. lia. }
  exists i', slice'. split; [done|]. rewrite Heq (pretty_N_go_step (Z.to_N value)); [lia|].
  rewrite Z2N.inj_div; [lia..|]. f_equal.
  rewrite (drop_S _ d); [apply list_lookup_insert_eq; lia|]. rewrite string_of_bytes_cons. f_equal.
  - apply digit_char. lia.
  - f_equal. replace (S (Z.to_nat (i - 1))) with (Z.to_nat i) by lia.
    apply drop_insert_lt. lia.
Qed.

Lemma slice_bytes_len s : slice_ok s -> zlen (slice_bytes s) = bs_len s.
Proof. intros [Hl Hc]. rewrite /zlen /slice_bytes length_take. rewrite /zlen in Hc. lia. Qed.

Lemma int2decimal_ok choice value ps :
  slice_pool_ok ps -> 0 <= value < 2 ^ 64 ->
  exists ps', int2decimal choice value ps = Ret (pretty (Z.to_N value), ps') /\ slice_pool_ok ps'.
Proof.
  intros Hok Hv. rewrite /int2decimal. destruct (Z.eqb_spec value 0) as [->|Hnz]; [by exists ps|].
  destruct (byteslice_Get_ok choice int32size ps Hok) as (s & ps' & -> & Hok' & Hs & Hlen); [done|].
  rewrite bind_Ret. cbn [deref]. rewrite bind_Ret.
  have Hz := slice_bytes_len s Hs. rewrite Hlen /int32size in Hz *.
  destruct (int2decimal_loop_ok 32 value 32 (slice_bytes s)) as (i & bytes & -> & Heq).
  { split; [lia|]. simpl. lia. }
  { rewrite Hz. lia. }
  exists ps'. rewrite bind_Ret Heq drop_ge.
  { rewrite /zlen in Hz. lia. }
  split; [|done]. rewrite /pretty /pretty_N decide_False //. lia.
Qed.

(** ** Round trips *)

Lemma copy_range_prefix dst n src : length src = n -> copy_range dst 0 n src = src ++ drop n dst.
Proof. intros <-. by rewrite /copy_range Nat.sub_0_r Nat.min_id firstn_all. Qed.

Lemma copy_range_rest pre rest hi src :
  length src = (hi - length pre)%nat -> length rest = length src ->
  copy_range (pre ++ rest) (length pre) hi src = pre ++ src.
Proof.
  intros Hs Hr. rewrite /copy_range -Hs Nat.min_id firstn_all take_app_length.
  rewrite drop_app_ge; [lia|]. rewrite drop_ge; [lia|]. by rewrite app_nil_r.
Qed.

Lemma sockaddrInet4ToIP_ok choice addr ps :
  slice_pool_ok ps -> length addr = 4%nat ->
  exists ps', sockaddrInet4ToIP choice addr ps = Ret (ipv4InIPv6Prefix ++ addr, ps') /\ slice_pool_ok ps'.
Proof.
  intros Hok Ha. rewrite /sockaddrInet4ToIP.
  destruct (byteslice_Get_ok choice netIPBytesSize ps Hok) as (s & ps' & -> & Hok' & Hs & Hlen); [done|].
  rewrite bind_Ret. cbn [deref]. rewrite bind_Ret. exists ps'. split; [|done]. do 2 f_equal.
  have Hz := slice_bytes_len s Hs. rewrite Hlen /zlen /netIPBytesSize in Hz.
  rewrite (copy_range_prefix _ 12 ipv4InIPv6Prefix) // (copy_range_rest ipv4InIPv6Prefix _ 16) //.
  rewrite length_drop /=. lia.
Qed.

Lemma sockaddrInet6ToIPAndZone_ok InterfaceByIndex c1 c2 addr zoneId ps :
  slice_pool_ok ps -> length addr = 16%nat -> 0 <= zoneId < 2 ^ 32 ->
  exists ps', sockaddrInet6ToIPAndZone InterfaceByIndex c1 c2 addr zoneId ps =
      Ret (addr, if zoneId =? 0 then "" else default (pretty (Z.to_N zoneId)) (InterfaceByIndex zoneId), ps') /\
    slice_pool_ok ps'.
Proof.
  intros Hok Ha Hz. rewrite /sockaddrInet6ToIPAndZone.
  destruct (byteslice_Get_ok c1 netIPBytesSize ps Hok) as (s & ps' & -> & Hok' & Hs & Hlen); [done|].
  rewrite bind_Ret. cbn [deref]. rewrite bind_Ret.
  have Hzl := slice_bytes_len s Hs. rewrite Hlen /zlen /netIPBytesSize in Hzl.
  have -> : copy_range (slice_bytes s) 0 16 addr = addr.
  { rewrite (copy_range_prefix _ 16) // drop_ge; [lia|]. by rewrite app_nil_r. }
  rewrite /ip6ZoneToString. destruct (Z.eqb_spec zoneId 0); [by exists ps'|].
  destruct (InterfaceByIndex zoneId) as [name|]; [by exists ps'|].
  destruct (int2decimal_ok c2 zoneId ps' Hok') as (ps2 & -> & Hok2); [lia|]. by exists ps2.
Qed.

(** The decimal conversion of an IPv6 zone is the decimal number: for every
    64-bit value and whatever slice the pool hands out, [int2decimal] returns its
    decimal digits without leading zeros and does not leave the 32-byte buffer. *)
Theorem int2decimal_pretty choice value ps :
  slice_pool_reach ps -> 0 <= value < 2 ^ 64 ->
  exists ps', int2decimal choice value ps = Ret (pretty (Z.to_N value), ps').
Proof.
  intros Hr Hv. destruct (int2decimal_ok choice value ps (slice_pool_reach_ok _ Hr) Hv) as (ps' & ? & _). by exists ps'.
Qed.

Lemma int2decimal_pretty_witness :
  exists ps', int2decimal None 1234 NewByteSlicePool = Ret (pretty (Z.to_N 1234), ps').
Proof. apply int2decimal_pretty; [apply spr_new|lia]. Defined.

(** C33. A socket address survives the trip from the kernel to Go and back: the [TCPAddr]
    made of an IPv4 address converts to the same socket address, as does the [UDPAddr], and
    so do those of an IPv6 address other than ::ffff:0.0.0.0 with its zone, when the zone's
    index is positive and an interface with that index and name exists. *)
Theorem sockaddr_roundtrip InterfaceByIndex InterfaceByName c1 c2 sa ps :
  slice_pool_reach ps ->
  match sa with
  | SockaddrInet4 _ addr => length addr = 4%nat
  | SockaddrInet6 _ addr z =>
      length addr = 16%nat /\ addr <> IPv4zero /\ 0 < z < 2 ^ 32 /\
      exists name, InterfaceByIndex z = Some name /\ InterfaceByName name = Some z
  | SockaddrUnix _ => False
  end ->
  exists ip port zone ps', SockaddrToTCPOrUnixAddr InterfaceByIndex c1 c2 sa ps = Ret (Some (TCPAddr ip port zone), ps') /\
    SockaddrToUDPAddr InterfaceByIndex c1 c2 sa ps = Ret (Some (UDPAddr ip port zone), ps') /\
    ipToSockaddr InterfaceByName (match sa with SockaddrInet4 _ _ => AF_INET | _ => AF_INET6 end) ip port zone = inl sa.
Proof.
  intros Hr%slice_pool_reach_ok. destruct sa as [port addr|port addr z|name]; [| |done].
  - intros Ha. destruct (sockaddrInet4ToIP_ok c1 addr ps Hr Ha) as (ps' & Heq & _).
    exists (ipv4InIPv6Prefix ++ addr), port, "", ps'. rewrite /SockaddrToTCPOrUnixAddr /SockaddrToUDPAddr Heq !bind_Ret.
    split; [done|]. split; [done|]. rewrite /ipToSockaddr /= /ipToSockaddrInet4 /= /To4 /= Ha /=. done.
  - intros (Ha & Hne & Hz & name & Hidx & Hname).
    destruct (sockaddrInet6ToIPAndZone_ok InterfaceByIndex c1 c2 addr z ps Hr Ha) as (ps' & Heq & _); [lia|].
    destruct (Z.eqb_spec z 0); [lia|]. rewrite Hidx /= in Heq.
    exists addr, port, name, ps'. rewrite /SockaddrToTCPOrUnixAddr /SockaddrToUDPAddr Heq !bind_Ret.
    split; [done|]. split; [done|]. rewrite /ipToSockaddr /= /ipToSockaddrInet6 Ha /=.
    have -> : IP_Equal addr IPv4zero = false.
    { rewrite /IP_Equal /To16 Ha /=. by apply bool_decide_eq_false. }
    rewrite /To16 Ha /= Hname. by rewrite wrap_u_small; [lia|].
Qed.

Lemma sockaddr_roundtrip_witness :
  let sa := SockaddrInet6 80 (xfe :: replicate 15 x01) 3 in
  exists ip port zone ps',
    SockaddrToTCPOrUnixAddr (fun _ => Some "eth0") None None sa NewByteSlicePool = Ret (Some (TCPAddr ip port zone), ps') /\
    SockaddrToUDPAddr (fun _ => Some "eth0") None None sa NewByteSlicePool = Ret (Some (UDPAddr ip port zone), ps') /\
    ipToSockaddr (fun _ => Some 3) AF_INET6 ip port zone = inl sa.
Proof.
  apply (sockaddr_roundtrip (fun _ => Some "eth0") (fun _ => Some 3)); [apply spr_new|].
  split; [done|]. split; [done|]. split; [lia|]. by exists "eth0".
Defined.

(** A TCP or UDP listener on an IPv6 address without a zone, or on the
    wildcard address, is refused: the empty zone is looked up as an interface
    name, which fails. *)
Theorem ipv6_without_zone_refused InterfaceByName ResolveTCPAddr ResolveUDPAddr proto addr r :
  InterfaceByName "" = None ->
  ResolveTCPAddr proto addr = inl r -> ResolveUDPAddr proto addr = inl r ->
  ra_Zone r = "" -> To4 (ra_IP r) = None -> (length (ra_IP r) = 16%nat \/ ra_IP r = []) ->
  (proto = TCP -> GetTCPSockAddr InterfaceByName ResolveTCPAddr proto addr = inr (Wrap "interfaceByName: " (ErrUser 1))) /\
  (proto = UDP -> GetUDPSockAddr InterfaceByName ResolveUDPAddr proto addr = inr (Wrap "interfaceByName: " (ErrUser 1))).
Proof.
  intros Hi Htcp Hudp Hz H4 Hip. rewrite /GetTCPSockAddr /GetUDPSockAddr Htcp Hudp /determineTCPProto /determineUDPProto.
  have Hsa : ipToSockaddr InterfaceByName AF_INET6 (ra_IP r) (ra_Port r) (ra_Zone r) = inr (Wrap "interfaceByName: " (ErrUser 1)).
  { rewrite /ipToSockaddr /= /ipToSockaddrInet6 Hz Hi. destruct Hip as [Hip|Hip]; [|by rewrite Hip].
    destruct (_ || _); [done|]. by rewrite /To16 Hip. }
  rewrite Hsa H4. destruct Hip as [Hip|Hip].
  - have -> : To16 (ra_IP r) = Some (ra_IP r) by rewrite /To16 Hip.
    split; intros ->; repeat case_decide; try done; naive_solver.
  - rewrite Hip. split; intros ->; repeat case_decide; try done; naive_solver.
Qed.

Lemma ipv6_without_zone_refused_witness :
  (TCP = TCP -> GetTCPSockAddr (fun _ => None) (fun _ _ => inl (mkResolved [] 8080 "")) TCP ":8080" =
     inr (Wrap "interfaceByName: " (ErrUser 1))) /\
  (TCP = UDP -> GetUDPSockAddr (fun _ => None) (fun _ _ => inl (mkResolved [] 8080 "")) TCP ":8080" =
     inr (Wrap "interfaceByName: " (ErrUser 1))).
Proof. apply (ipv6_without_zone_refused _ _ _ _ _ (mkResolved [] 8080 "")); (reflexivity || by right). Defined.
