(* ===== verification/SocketOps.v ===== *)
(** * SocketOps: [pkg/socket] (sockets and their options), [socket.go], [cbpf.go]

    System calls are recorded in a trace; what the kernel answers is a function of
    the calls made so far and the call ([Kernel]), so that every failure at every
    point is a behaviour of the model. *)

From S2P Require Import Prelude Errors Config Sockaddr.
From Stdlib Require Import Ascii.
Local Open Scope string_scope.
Local Open Scope list_scope.
Local Open Scope Z_scope.

(** ** System calls *)

Inductive sys_call : Type :=
| CSocket (family sotype proto : Z)
| CSetsockoptInt (fd level opt value : Z)
| CSetsockoptLinger (fd onoff linger : Z)
| CBind (fd : Z) (sa : Sockaddr)
| CListen (fd backlog : Z)
| CConnect (fd : Z) (sa : Sockaddr)
| CClose (fd : Z)
| CShutdown (fd how : Z)
| CAttachFilter (fd len : Z)
| CSetsockoptByte (fd level opt value : Z)
| CSetsockoptInet4Addr (fd level opt : Z) (value : list byte)
| CSetsockoptIPMreq (fd level opt : Z) (multiaddr interface : list byte)
| CSetsockoptIPv6Mreq (fd level opt : Z) (multiaddr : list byte) (interface : Z)
| CSetpriority (which who prio : Z)
| CSchedSetaffinity (pid : Z) (cpus : list Z).

Definition trace : Type := list sys_call.

(** [socket] returns a descriptor or an errno, the other calls 0 or an errno. *)
Class Kernel : Type := {
  k_socket : trace -> Z -> Z -> Z -> Z + Z;
  k_call : trace -> sys_call -> Z
}.

Definition SOCK_STREAM : Z := 1.
Definition SOCK_DGRAM : Z := 2.
Definition SOCK_CLOEXEC : Z := 524288.
Definition IPPROTO_TCP : Z := 6.
Definition IPPROTO_UDP : Z := 17.
Definition IPPROTO_IPV6 : Z := 41.
Definition SOL_SOCKET : Z := 1.
Definition SO_REUSEADDR : Z := 2.
Definition SO_BROADCAST : Z := 6.
Definition SO_SNDBUF : Z := 7.
Definition SO_RCVBUF : Z := 8.
Definition SO_KEEPALIVE : Z := 9.
Definition SO_REUSEPORT : Z := 15.
Definition TCP_NODELAY : Z := 1.
Definition TCP_KEEPIDLE : Z := 4.
Definition TCP_KEEPINTVL : Z := 5.
Definition TCP_QUICKACK : Z := 12.
Definition TCP_FASTOPEN : Z := 23.
Definition IPV6_V6ONLY : Z := 26.
Definition IPPROTO_IP : Z := 0.
Definition IP_MULTICAST_IF : Z := 32.
Definition IP_MULTICAST_LOOP : Z := 34.
Definition IP_ADD_MEMBERSHIP : Z := 35.
Definition IPV6_MULTICAST_IF : Z := 17.
Definition IPV6_MULTICAST_LOOP : Z := 19.
Definition IPV6_JOIN_GROUP : Z := 20.
Definition PRIO_PROCESS : Z := 0.
Definition EINPROGRESS : Z := 115.
Definition SOMAXCONN : Z := 4096.

Section Sockets.
Context {kernel : Kernel}.

(** [os.NewSyscallError(name, call)] *)
Definition sys (name : string) (c : sys_call) (tr : trace) : option error * trace :=
  let e := k_call tr c in
  (if e =? 0 then None else Some (SyscallError name (Errno e)), tr ++ [c]).

(** ** [sockopts_posix.go], [sockopts_unix.go] *)

Definition sock_setter : Type := Z -> Z -> trace -> option error * trace.

Definition SetNoDelay : sock_setter := fun fd v => sys "setsockopt" (CSetsockoptInt fd IPPROTO_TCP TCP_NODELAY v).
Definition SetRecvBuffer : sock_setter := fun fd v => sys "setsockopt" (CSetsockoptInt fd SOL_SOCKET SO_RCVBUF v).
Definition SetSendBuffer : sock_setter := fun fd v => sys "setsockopt" (CSetsockoptInt fd SOL_SOCKET SO_SNDBUF v).
Definition SetReuseport : sock_setter := fun fd v => sys "setsockopt" (CSetsockoptInt fd SOL_SOCKET SO_REUSEPORT v).
Definition SetReuseAddr : sock_setter := fun fd v => sys "setsockopt" (CSetsockoptInt fd SOL_SOCKET SO_REUSEADDR v).
Definition SetIPv6Only : sock_setter := fun fd v => sys "setsockopt" (CSetsockoptInt fd IPPROTO_IPV6 IPV6_V6ONLY v).
Definition SetQuickAck : sock_setter := fun fd v => sys "setsockopt" (CSetsockoptInt fd IPPROTO_TCP TCP_QUICKACK v).
Definition SetFastOpen : sock_setter := fun fd v => sys "setsockopt" (CSetsockoptInt fd IPPROTO_TCP TCP_FASTOPEN v).

Definition SetLinger (fd sec : Z) (tr : trace) : option error * trace :=
  if 0 <=? sec then sys "setsockopt" (CSetsockoptLinger fd 1 (int32 sec)) tr
  else sys "setsockopt" (CSetsockoptLinger fd 0 0) tr.

Definition SetKeepAlivePeriod (fd secs : Z) (tr : trace) : option error * trace :=
  if secs <=? 0 then (Some ErrInvalidTimeDuration, tr)
  else
    let '(err, tr) := sys "setsockopt" (CSetsockoptInt fd SOL_SOCKET SO_KEEPALIVE 1) tr in
    match err with
    | Some e => (Some e, tr)
    | None =>
        let '(err, tr) := sys "setsockopt" (CSetsockoptInt fd IPPROTO_TCP TCP_KEEPINTVL secs) tr in
        match err with
        | Some e => (Some e, tr)
        | None => sys "setsockopt" (CSetsockoptInt fd IPPROTO_TCP TCP_KEEPIDLE secs) tr
        end
    end.

(** ** [tcp_socket.go], [udp_socket.go] *)

Record sockOption : Type := mkOption { SetSockOpt : sock_setter; Opt : Z }.

Definition sysSocket (family sotype proto : Z) (tr : trace) : (Z + Z) * trace :=
  let sotype := Z.lor sotype SOCK_CLOEXEC in
  (k_socket tr family sotype proto, tr ++ [CSocket family sotype proto]).

(** [for _, sockOpt := range sockOpts] *)
Fixpoint apply_options (fd : Z) (opts : list sockOption) (tr : trace) : option error * trace :=
  match opts with
  | [] => (None, tr)
  | o :: opts =>
      let '(err, tr) := SetSockOpt o fd (Opt o) tr in
      match err with Some e => (Some e, tr) | None => apply_options fd opts tr end
  end.

(** The deferred function: the socket is closed on every error but EINPROGRESS. *)
Definition close_on_error (fd : Z) (err : option error) (tr : trace) : trace :=
  match err with
  | None => tr
  | Some e =>
      if from_option (fun e' => errors_Is e' (Errno EINPROGRESS)) false (errors_AsSyscall e) then tr
      else (sys "close" (CClose fd) tr).2
  end.

Lemma close_on_error_cases fd e tr :
  errors_Is e (Errno EINPROGRESS) = true \/ last (close_on_error fd (Some e) tr) = Some (CClose fd).
Proof.
  simpl. destruct (errors_AsSyscall e) as [e'|] eqn:Has; simpl; [|right; by rewrite last_snoc].
  destruct (errors_Is e' (Errno EINPROGRESS)) eqn:His; [left; by eapply errors_AsSyscall_Is|right; by rewrite last_snoc].
Qed.

(** [listenerBacklogMaxSize] *)
Variable backlog : Z.
Variable InterfaceByName : string -> option Z.
Variable ResolveTCPAddr ResolveUDPAddr : string -> string -> resolved + error.

(** The part of [tcpSocket] after the socket exists. *)
Definition tcpSocket_setup (fd family : Z) (ipv6only passive : bool) (sockAddr : Sockaddr)
    (sockOpts : list sockOption) (tr : trace) : option error * trace :=
  let '(err, tr) :=
    if (family =? AF_INET6) && ipv6only then SetIPv6Only fd 1 tr else (None, tr) in
  match err with
  | Some e => (Some e, tr)
  | None =>
      let '(err, tr) := apply_options fd sockOpts tr in
      match err with
      | Some e => (Some e, tr)
      | None =>
          if passive then
            let '(err, tr) := sys "bind" (CBind fd sockAddr) tr in
            match err with
            | Some e => (Some e, tr)
            | None => sys "listen" (CListen fd backlog) tr
            end
          else sys "connect" (CConnect fd sockAddr) tr
      end
  end.

Definition tcpSocket (proto addr : string) (passive : bool) (sockOpts : list sockOption) (tr : trace) :
    Z * option resolved * option error * trace :=
  match GetTCPSockAddr InterfaceByName ResolveTCPAddr proto addr with
  | inr e => (0, None, Some e, tr)
  | inl (sockAddr, family, netAddr, ipv6only) =>
      let '(fd, tr) := sysSocket family SOCK_STREAM IPPROTO_TCP tr in
      match fd with
      | inr errno => (-1, Some netAddr, Some (SyscallError "socket" (Errno errno)), tr)
      | inl fd =>
          let '(err, tr) := tcpSocket_setup fd family ipv6only passive sockAddr sockOpts tr in
          (fd, Some netAddr, err, close_on_error fd err tr)
      end
  end.

Definition udpSocket_setup (fd family : Z) (ipv6only connect : bool) (sockAddr : Sockaddr)
    (sockOpts : list sockOption) (tr : trace) : option error * trace :=
  let '(err, tr) :=
    if (family =? AF_INET6) && ipv6only then SetIPv6Only fd 1 tr else (None, tr) in
  match err with
  | Some e => (Some e, tr)
  | None =>
      let '(err, tr) := sys "setsockopt" (CSetsockoptInt fd SOL_SOCKET SO_BROADCAST 1) tr in
      match err with
      | Some e => (Some e, tr)
      | None =>
          let '(err, tr) := apply_options fd sockOpts tr in
          match err with
          | Some e => (Some e, tr)
          | None =>
              if connect then sys "connect" (CConnect fd sockAddr) tr
              else sys "bind" (CBind fd sockAddr) tr
          end
      end
  end.

Definition udpSocket (proto addr : string) (connect : bool) (sockOpts : list sockOption) (tr : trace) :
    Z * option resolved * option error * trace :=
  match GetUDPSockAddr InterfaceByName ResolveUDPAddr proto addr with
  | inr e => (0, None, Some e, tr)
  | inl (sockAddr, family, netAddr, ipv6only) =>
      let '(fd, tr) := sysSocket family SOCK_DGRAM IPPROTO_UDP tr in
      match fd with
      | inr errno => (-1, Some netAddr, Some (SyscallError "socket" (Errno errno)), tr)
      | inl fd =>
          let '(err, tr) := udpSocket_setup fd family ipv6only connect sockAddr sockOpts tr in
          (fd, Some netAddr, err, close_on_error fd err tr)
      end
  end.

(** ** [cbpf.go] *)

Inductive bpf_instruction : Type :=
| LoadAbsolute (off size : Z)
| ALUOpConstantMod (val : Z)
| RetA.

Definition skfAdOffPlusKSkfAdCPU : Z := 4294963236.
Definition cpuIDSize : Z := 4.

Definition newFilter (cpus : Z) : list bpf_instruction :=
  [LoadAbsolute skfAdOffPlusKSkfAdCPU cpuIDSize; ALUOpConstantMod cpus; RetA].

(** [bpf.Assemble]: the number of assembled instructions, or an error. *)
Variable Assemble : list bpf_instruction -> Z + error.

Definition filter_applyTo (f : list bpf_instruction) (fd : Z) (tr : trace) : option error * trace :=
  match Assemble f with
  | inr e => (Some (Wrap "BPF filter assemble error: " e), tr)
  | inl len =>
      let c := CAttachFilter fd len in
      let e := k_call tr c in
      (if e =? 0 then None else Some (Errno e), tr ++ [c])
  end.

(** ** [socket.go] *)

Record listener : Type := mkListener {
  ln_fd : Z;
  ln_addr : option resolved;
  ln_address : string;
  ln_network : string;
  ln_sockOpts : list sockOption
}.

Definition normalize (ln : listener) (tr : trace) : option error * listener * trace :=
  if decide (ln_network ln = TCP \/ ln_network ln = TCP4 \/ ln_network ln = TCP6) then
    let '(fd, addr, err, tr) := tcpSocket (ln_network ln) (ln_address ln) true (ln_sockOpts ln) tr in
    (err, mkListener fd addr (ln_address ln) TCP (ln_sockOpts ln), tr)
  else if decide (ln_network ln = UDP \/ ln_network ln = UDP4 \/ ln_network ln = UDP6) then
    let '(fd, addr, err, tr) := udpSocket (ln_network ln) (ln_address ln) false (ln_sockOpts ln) tr in
    (err, mkListener fd addr (ln_address ln) UDP (ln_sockOpts ln), tr)
  else (Some ErrUnsupportedProtocol, ln, tr).

Definition listener_options (network : string) (config : Config) : list sockOption :=
  [mkOption SetReuseport 1; mkOption SetReuseAddr 1] ++
  (if String.prefix TCP network
   then [mkOption SetNoDelay 1; mkOption SetQuickAck 1; mkOption SetFastOpen 1] else []) ++
  (if 0 <? SocketRecvBufferSize config then [mkOption SetRecvBuffer (SocketRecvBufferSize config)] else []) ++
  (if 0 <? SocketSendBufferSize config then [mkOption SetSendBuffer (SocketSendBufferSize config)] else []).

Definition initListener (NumCPU : Z) (network addr : string) (config : Config) (tr : trace) :
    listener * option error * trace :=
  let ln := mkListener 0 None addr network (listener_options network config) in
  let '(err, ln, tr) := normalize ln tr in
  if CBPFilter config then
    let '(err, tr) := filter_applyTo (newFilter (uint32 NumCPU)) (ln_fd ln) tr in
    (ln, err, tr)
  else (ln, err, tr).

End Sockets.

(** [parseProtoAddr]: the scheme and the rest, in lower case. *)
Definition ascii_lower (a : Ascii.ascii) : Ascii.ascii :=
  let n := Ascii.nat_of_ascii a in
  if (65 <=? n)%nat && (n <=? 90)%nat then Ascii.ascii_of_nat (n + 32) else a.

Fixpoint ToLower (s : string) : string :=
  match s with "" => "" | String a s => String (ascii_lower a) (ToLower s) end.

(** [strings.Split(s, "://")]: the pieces, here the first and the ones after it. *)
Fixpoint split_scheme (s acc : string) : list string :=
  match s with
  | "" => [acc]
  | String a s' =>
      match s with
      | String ":"%char (String "/"%char (String "/"%char rest)) => acc :: split_scheme rest ""
      | _ => split_scheme s' (acc +:+ String a "")
      end
  end.

Definition parseProtoAddr (addr : string) : outcome (string * string) :=
  let address := ToLower addr in
  match split_scheme address "" with
  | [_] => Ret (TCP, address)
  | parts => network ← go_index parts 0; address ← go_index parts 1; Ret (network, address)
  end.

(** [maxListenerBacklog]: [line] is what the file [somaxconn] holds, as the number
    of its first field; [None] when it cannot be read or parsed. *)
Definition maxListenerBacklog (value : option Z) : Z :=
  match value with
  | None => SOMAXCONN
  | Some v => if v =? 0 then SOMAXCONN else if 65535 <? v then 65535 else v
  end.

#[global] Arguments sys {kernel} name c tr : simpl never.

(** ** Properties *)

Section SocketProofs.
Context {kernel : Kernel}.

Lemma sys_cases name c tr :
  (sys name c tr = (None, tr ++ [c]) /\ k_call tr c = 0) \/
  (exists e, sys name c tr = (Some (SyscallError name (Errno e)), tr ++ [c]) /\ e <> 0).
Proof. rewrite /sys. destruct (Z.eqb_spec (k_call tr c) 0); [by left|right; eauto]. Qed.

(** The [setsockopt] call of an option that sets an integer. *)
Definition int_option (o : Z * Z * Z) : sockOption :=
  let '(level, opt, v) := o in
  mkOption (fun fd v => sys "setsockopt" (CSetsockoptInt fd level opt v)) v.

Definition int_call (fd : Z) (o : Z * Z * Z) : sys_call :=
  let '(level, opt, v) := o in CSetsockoptInt fd level opt v.

Lemma apply_options_ok fd opts tr err tr' :
  apply_options fd (map int_option opts) tr = (err, tr') -> err = None -> tr' = tr ++ map (int_call fd) opts.
Proof.
  revert tr. induction opts as [|[[l o] v] opts IH]; intros tr; simpl.
  - intros [= <- <-] _. by rewrite app_nil_r.
  - destruct (k_call tr (CSetsockoptInt fd l o v) =? 0).
    + intros Hrun Herr. by rewrite (IH _ Hrun Herr) -app_assoc.
    + by intros [= <- <-].
Qed.

(** The options of a listener, as [setsockopt] arguments. *)
Definition listener_calls (network : string) (config : Config) : list (Z * Z * Z) :=
  [(SOL_SOCKET, SO_REUSEPORT, 1); (SOL_SOCKET, SO_REUSEADDR, 1)] ++
  (if String.prefix TCP network
   then [(IPPROTO_TCP, TCP_NODELAY, 1); (IPPROTO_TCP, TCP_QUICKACK, 1); (IPPROTO_TCP, TCP_FASTOPEN, 1)] else []) ++
  (if 0 <? SocketRecvBufferSize config then [(SOL_SOCKET, SO_RCVBUF, SocketRecvBufferSize config)] else []) ++
  (if 0 <? SocketSendBufferSize config then [(SOL_SOCKET, SO_SNDBUF, SocketSendBufferSize config)] else []).

Lemma listener_options_calls network config :
  listener_options network config = map int_option (listener_calls network config).
Proof. rewrite /listener_options /listener_calls. by repeat case_match. Qed.

Lemma tcp_setup_ok backlog fd family ipv6only sa opts tr tr' :
  tcpSocket_setup backlog fd family ipv6only true sa (map int_option opts) tr = (None, tr') ->
  tr' = tr ++ (if (family =? AF_INET6) && ipv6only then [CSetsockoptInt fd IPPROTO_IPV6 IPV6_V6ONLY 1] else []) ++
    map (int_call fd) opts ++ [CBind fd sa; CListen fd backlog].
Proof.
  rewrite /tcpSocket_setup. destruct (_ && ipv6only); intros Hrun.
  - rewrite /SetIPv6Only in Hrun.
    destruct (sys_cases "setsockopt" (CSetsockoptInt fd IPPROTO_IPV6 IPV6_V6ONLY 1) tr) as [[Hs _]|(e & Hs & _)];
      rewrite Hs in Hrun; [|done].
    destruct (apply_options fd _ _) as [[e|] tr1] eqn:Ha; [done|]. rewrite (apply_options_ok _ _ _ _ _ Ha eq_refl) in Hrun.
    destruct (sys_cases "bind" (CBind fd sa) (((tr ++ [CSetsockoptInt fd IPPROTO_IPV6 IPV6_V6ONLY 1]) ++ map (int_call fd) opts)))
      as [[Hb _]|(e & Hb & _)]; rewrite Hb in Hrun; [|done].
    injection Hrun as _ <-. by rewrite -!app_assoc.
  - destruct (apply_options fd _ _) as [[e|] tr1] eqn:Ha; [done|]. rewrite (apply_options_ok _ _ _ _ _ Ha eq_refl) in Hrun.
    destruct (sys_cases "bind" (CBind fd sa) (tr ++ map (int_call fd) opts)) as [[Hb _]|(e & Hb & _)];
      rewrite Hb in Hrun; [|done].
    injection Hrun as _ <-. by rewrite -!app_assoc.
Qed.

End SocketProofs.

(** C34. A TCP listener that is returned without an error, with the BPF filter turned
    off, has been created, configured, bound and put in the listening state by exactly
    these calls in this order, with every socket option of the configuration, and its
    descriptor is open.  With the filter turned on the error of these calls is lost
    ([cbpf_hides_listener_error]). *)
Theorem tcp_listener_calls {kernel : Kernel} backlog IBN RT RU Assemble NumCPU network addr config tr ln tr' :
  initListener backlog IBN RT RU Assemble NumCPU network addr config tr = (ln, None, tr') ->
  CBPFilter config = false -> network = TCP \/ network = TCP4 \/ network = TCP6 ->
  exists sa family ra v6,
    GetTCPSockAddr IBN RT network addr = inl (sa, family, ra, v6) /\
    ln_network ln = TCP /\ ln_addr ln = Some ra /\
    tr' = tr ++ [CSocket family (Z.lor SOCK_STREAM SOCK_CLOEXEC) IPPROTO_TCP] ++
      (if (family =? AF_INET6) && v6 then [CSetsockoptInt (ln_fd ln) IPPROTO_IPV6 IPV6_V6ONLY 1] else []) ++
      map (int_call (ln_fd ln)) (listener_calls network config) ++ [CBind (ln_fd ln) sa; CListen (ln_fd ln) backlog].
Proof.
  intros Hinit Hf Hnet. rewrite /initListener Hf /normalize /= decide_True // in Hinit.
  rewrite /tcpSocket in Hinit. destruct (GetTCPSockAddr IBN RT network addr) as [[[[sa family] ra] v6]|e]; [|done].
  rewrite /sysSocket in Hinit. destruct (k_socket _ _ _ _) as [fd|errno]; [|done].
  rewrite listener_options_calls in Hinit.
  destruct (tcpSocket_setup _ _ _ _ _ _ _ _) as [[e|] tr1] eqn:Hsetup; [done|].
  apply tcp_setup_ok in Hsetup. injection Hinit as <- <-. exists sa, family, ra, v6. simpl.
  split_and!; try done. by rewrite Hsetup -app_assoc.
Qed.

(** C35. No descriptor leaks: when [TCPSocket] or [UDPSocket] returns an error
    after the kernel has created a socket with a descriptor other than 0, the last call
    closes that descriptor, except for EINPROGRESS, which is left to the caller. *)
Theorem socket_closed_on_error {kernel : Kernel} backlog IBN RT RU proto addr flag opts tr fd na e tr' :
  (tcpSocket backlog IBN RT proto addr flag opts tr = (fd, na, Some e, tr') \/
   udpSocket IBN RU proto addr flag opts tr = (fd, na, Some e, tr')) ->
  fd = 0 \/ fd = -1 \/ errors_Is e (Errno EINPROGRESS) = true \/ last tr' = Some (CClose fd).
Proof.
  intros [Hrun|Hrun]; [rewrite /tcpSocket in Hrun|rewrite /udpSocket in Hrun].
  - destruct (GetTCPSockAddr _ _ _ _) as [[[[sa family] ra] v6]|e']; [|left; congruence].
    rewrite /sysSocket in Hrun. destruct (k_socket _ _ _ _) as [fd'|errno]; [|right; left; congruence].
    destruct (tcpSocket_setup _ _ _ _ _ _ _ _) as [err tr1]. injection Hrun as -> _ -> <-.
    do 2 right. apply close_on_error_cases.
  - destruct (GetUDPSockAddr _ _ _ _) as [[[[sa family] ra] v6]|e']; [|left; congruence].
    rewrite /sysSocket in Hrun. destruct (k_socket _ _ _ _) as [fd'|errno]; [|right; left; congruence].
    destruct (udpSocket_setup _ _ _ _ _ _ _) as [err tr1]. injection Hrun as -> _ -> <-.
    do 2 right. apply close_on_error_cases.
Qed.

(** A kernel that grants everything, and one that refuses to bind. *)
Definition granting : Kernel := {| k_socket _ _ _ _ := inl 7; k_call _ _ := 0 |}.
Definition bind_refused : Kernel := {| k_socket _ _ _ _ := inl 7; k_call _ c := if c is CBind _ _ then 98 else 0 |}.

Definition local_resolve (_ _ : string) : resolved + error := inl (mkResolved [x7f; x00; x00; x01] 8080 "").

Definition plain_config : Config := NewConfig 4 [].

Lemma tcp_listener_calls_witness :
  exists sa family ra v6,
    GetTCPSockAddr (fun _ => None) local_resolve TCP "127.0.0.1:8080" = inl (sa, family, ra, v6) /\
    TCP = TCP /\ Some (mkResolved [x7f; x00; x00; x01] 8080 "") = Some ra /\
    [CSocket 2 524289 6; CSetsockoptInt 7 1 15 1; CSetsockoptInt 7 1 2 1; CSetsockoptInt 7 6 1 1;
     CSetsockoptInt 7 6 12 1; CSetsockoptInt 7 6 23 1; CBind 7 (SockaddrInet4 8080 [x7f; x00; x00; x01]); CListen 7 128] =
      [] ++ [CSocket family (Z.lor SOCK_STREAM SOCK_CLOEXEC) IPPROTO_TCP] ++
      (if (family =? AF_INET6) && v6 then [CSetsockoptInt 7 IPPROTO_IPV6 IPV6_V6ONLY 1] else []) ++
      map (int_call 7) (listener_calls TCP plain_config) ++ [CBind 7 sa; CListen 7 128].
Proof.
  apply (@tcp_listener_calls granting 128 (fun _ => None) local_resolve local_resolve (fun _ => inl 3) 4
    TCP "127.0.0.1:8080" plain_config []
    (mkListener 7 (Some (mkResolved [x7f; x00; x00; x01] 8080 "")) "127.0.0.1:8080" TCP
       (@listener_options granting TCP plain_config))); [vm_compute; reflexivity|reflexivity|by left].
Defined.

Lemma socket_closed_on_error_witness :
  7 = 0 \/ 7 = -1 \/ errors_Is (SyscallError "bind" (Errno 98)) (Errno EINPROGRESS) = true \/
  last [CSocket 2 524289 6; CBind 7 (SockaddrInet4 8080 [x7f; x00; x00; x01]); CClose 7] = Some (CClose 7).
Proof.
  apply (@socket_closed_on_error bind_refused 128 (fun _ => None) local_resolve local_resolve TCP "a" true [] []
    7 (Some (mkResolved [x7f; x00; x00; x01] 8080 ""))). left. vm_compute. reflexivity.
Defined.

(** With the BPF filter enabled the error of the listener is lost: for an
    unsupported protocol [initListener] attaches the filter to descriptor 0 and
    returns no error when the kernel accepts it. *)
Theorem cbpf_hides_listener_error {kernel : Kernel} backlog IBN RT RU Assemble NumCPU network addr config tr len :
  CBPFilter config = true -> Assemble (newFilter (uint32 NumCPU)) = inl len ->
  network ∉ [TCP; TCP4; TCP6; UDP; UDP4; UDP6] -> k_call tr (CAttachFilter 0 len) = 0 ->
  exists ln, initListener backlog IBN RT RU Assemble NumCPU network addr config tr =
      (ln, None, tr ++ [CAttachFilter 0 len]) /\ ln_fd ln = 0.
Proof.
  intros Hf Ha Hnet Hk. rewrite /initListener /normalize /=.
  rewrite decide_False; [set_solver|]. rewrite decide_False; [set_solver|]. rewrite Hf /filter_applyTo Ha /= Hk /=.
  by eexists.
Qed.

Lemma cbpf_hides_listener_error_witness :
  exists ln, @initListener granting 128 (fun _ => None) local_resolve local_resolve (fun _ => inl 3) 4 UNIX "a"
      (NewConfig 4 [WithCBPF true]) [] = (ln, None, [] ++ [CAttachFilter 0 3]) /\ ln_fd ln = 0.
Proof. apply cbpf_hides_listener_error; [reflexivity|reflexivity|by set_solver|reflexivity]. Defined.

(** *** Addresses *)

Example parse_tcp : parseProtoAddr "TCP://Localhost:8080" = Ret ("tcp", "localhost:8080").
Proof. reflexivity. Qed.

Example parse_bare : parseProtoAddr "127.0.0.1:80" = Ret ("tcp", "127.0.0.1:80").
Proof. reflexivity. Qed.

Example parse_udp : parseProtoAddr "udp4://0.0.0.0:53" = Ret ("udp4", "0.0.0.0:53").
Proof. reflexivity. Qed.
