(* ===== verification/Multicast.v ===== *)
(** * Multicast: the multicast options of [pkg/socket/sockopts_posix.go]

    The addresses of the host's interfaces are a parameter: for an index, the parsed
    addresses ([net.ParseCIDR] of each) in the order the host lists them. *)

From S2P Require Import Prelude Errors Sockaddr SocketOps.
Local Open Scope string_scope.
Local Open Scope list_scope.
Local Open Scope Z_scope.

(** [copy(dst[:], src)] into an array of zeros of length [n]. *)
Definition copy_array (n : nat) (src : option IP) : list byte :=
  let src := take n (default [] src) in src ++ replicate (n - length src) x00.

Section Multicast.
Context {kernel : Kernel}.
(** The error of [net.InterfaceByIndex], and what [iface.Addrs] gives. *)
Variable InterfaceError : Z -> option error.
Variable InterfaceAddrs : Z -> list (IP + error) + error.

(** [for _, addr := range addrs] *)
Fixpoint first_ipv4 (addrs : list (IP + error)) : IP + error :=
  match addrs with
  | [] => inr ErrNoIPv4AddressOnInterface
  | inr e :: _ => inr (Wrap "parse CIDR error: " e)
  | inl ip :: addrs => match To4 ip with Some _ => inl ip | None => first_ipv4 addrs end
  end.

Definition interfaceFirstIPv4Addr (ifIndex : Z) : IP + error :=
  if ifIndex =? 0 then inl [x00; x00; x00; x00]
  else
    match InterfaceError ifIndex with
    | Some e => inr (Wrap "interface by index error: " e)
    | None =>
        match InterfaceAddrs ifIndex with
        | inr e => inr (Wrap "get addrs error: " e)
        | inl addrs => first_ipv4 addrs
        end
    end.

Definition SetIPv4MulticastMembership (fd : Z) (mcast : IP) (ifIndex : Z) (tr : trace) : option error * trace :=
  match interfaceFirstIPv4Addr ifIndex with
  | inr e => (Some e, tr)
  | inl ip =>
      let multiaddr := copy_array 4 (To4 mcast) in
      let interface := copy_array 4 (To4 ip) in
      let '(err, tr) :=
        if 0 <? ifIndex then sys "setsockopt" (CSetsockoptInet4Addr fd IPPROTO_IP IP_MULTICAST_IF interface) tr
        else (None, tr) in
      match err with
      | Some e => (Some e, tr)
      | None =>
          let '(err, tr) := sys "setsockopt" (CSetsockoptByte fd IPPROTO_IP IP_MULTICAST_LOOP 0) tr in
          match err with
          | Some e => (Some e, tr)
          | None => sys "setsockopt" (CSetsockoptIPMreq fd IPPROTO_IP IP_ADD_MEMBERSHIP multiaddr interface) tr
          end
      end
  end.

Definition SetIPv6MulticastMembership (fd : Z) (mcast : IP) (ifIndex : Z) (tr : trace) : option error * trace :=
  let multiaddr := copy_array 16 (To16 mcast) in
  let '(err, tr) :=
    if 0 <? ifIndex then sys "setsockopt" (CSetsockoptInt fd IPPROTO_IPV6 IPV6_MULTICAST_IF ifIndex) tr
    else (None, tr) in
  match err with
  | Some e => (Some e, tr)
  | None =>
      let '(err, tr) := sys "setsockopt" (CSetsockoptInt fd IPPROTO_IPV6 IPV6_MULTICAST_LOOP 0) tr in
      match err with
      | Some e => (Some e, tr)
      | None => sys "setsockopt" (CSetsockoptIPv6Mreq fd IPPROTO_IPV6 IPV6_JOIN_GROUP multiaddr (uint32 ifIndex)) tr
      end
  end.

(** nil when the address has no UDP version. *)
Definition SetMulticastMembership (proto : string) (udpAddr : resolved) : option sock_setter :=
  match determineUDPProto proto udpAddr with
  | inr _ => None
  | inl udpVersion =>
      if decide (udpVersion = UDP4) then Some (fun fd ifIndex => SetIPv4MulticastMembership fd (ra_IP udpAddr) ifIndex)
      else if decide (udpVersion = UDP6) then Some (fun fd ifIndex => SetIPv6MulticastMembership fd (ra_IP udpAddr) ifIndex)
      else None
  end.

(** ** The calls of a membership *)

(** Calls in a row, stopped by the first that fails. *)
Fixpoint call_all (cs : list sys_call) (tr : trace) : option error * trace :=
  match cs with
  | [] => (None, tr)
  | c :: cs => let '(err, tr) := sys "setsockopt" c tr in match err with Some e => (Some e, tr) | None => call_all cs tr end
  end.

Lemma first_ipv4_ok addrs ip :
  first_ipv4 addrs = inl ip ->
  exists pre post, addrs = (inl <$> pre) ++ inl ip :: post /\ Forall (fun a => To4 a = None) pre /\ is_Some (To4 ip).
Proof.
  induction addrs as [|[a|e] addrs IH]; cbn [first_ipv4]; [done| |done].
  destruct (To4 a) as [b|] eqn:Ha.
  - intros [= ->]. exists [], addrs. split_and!; [done|constructor|by eexists].
  - intros (pre & post & -> & Hpre & Hip)%IH. exists (a :: pre), post. split_and!; [done|by constructor|done].
Qed.

End Multicast.

(** ** Properties *)

(** Joining an IPv4 group: the interface is chosen by its first IPv4 address, before
    which the host lists none; the datagrams are not looped back; the group is joined
    last; the first call that fails ends the sequence with its error. *)
Theorem ipv4_membership_calls {kernel : Kernel} InterfaceError InterfaceAddrs fd mcast ifIndex addrs tr :
  ifIndex <> 0 -> InterfaceError ifIndex = None -> InterfaceAddrs ifIndex = inl addrs ->
  match first_ipv4 addrs with
  | inr e => SetIPv4MulticastMembership InterfaceError InterfaceAddrs fd mcast ifIndex tr = (Some e, tr)
  | inl ip =>
      (exists pre post, addrs = (inl <$> pre) ++ inl ip :: post /\ Forall (fun a => To4 a = None) pre /\ is_Some (To4 ip)) /\
      SetIPv4MulticastMembership InterfaceError InterfaceAddrs fd mcast ifIndex tr =
        call_all ((if 0 <? ifIndex then [CSetsockoptInet4Addr fd IPPROTO_IP IP_MULTICAST_IF (copy_array 4 (To4 ip))] else []) ++
          [CSetsockoptByte fd IPPROTO_IP IP_MULTICAST_LOOP 0;
           CSetsockoptIPMreq fd IPPROTO_IP IP_ADD_MEMBERSHIP (copy_array 4 (To4 mcast)) (copy_array 4 (To4 ip))]) tr
  end.
Proof.
  intros Hne Herr Haddrs. rewrite /SetIPv4MulticastMembership /interfaceFirstIPv4Addr.
  destruct (Z.eqb_spec ifIndex 0); [done|]. rewrite Herr Haddrs. destruct (first_ipv4 addrs) as [ip|e] eqn:Hip; [|done].
  split; [by apply first_ipv4_ok|]. rewrite /sys.
  by destruct (0 <? ifIndex); cbn [app call_all]; rewrite /sys; repeat (destruct (k_call _ _ =? 0)).
Qed.

Lemma ipv4_membership_calls_witness :
  (exists pre post, ([inl IPv6zero; inl IPv4zero] : list (IP + error)) = (inl <$> pre) ++ inl IPv4zero :: post /\
     Forall (fun a => To4 a = None) pre /\ is_Some (To4 IPv4zero)) /\
  @SetIPv4MulticastMembership granting (fun _ => None) (fun _ => inl [inl IPv6zero; inl IPv4zero]) 3 IPv4zero 2 [] =
    @call_all granting [CSetsockoptInet4Addr 3 IPPROTO_IP IP_MULTICAST_IF (copy_array 4 (To4 IPv4zero));
      CSetsockoptByte 3 IPPROTO_IP IP_MULTICAST_LOOP 0;
      CSetsockoptIPMreq 3 IPPROTO_IP IP_ADD_MEMBERSHIP (copy_array 4 (To4 IPv4zero)) (copy_array 4 (To4 IPv4zero))] [].
Proof.
  apply (@ipv4_membership_calls granting (fun _ => None) (fun _ => inl [inl IPv6zero; inl IPv4zero]) 3 IPv4zero 2 [inl IPv6zero; inl IPv4zero] []); done.
Defined.
