(* ===== verification/GoState.v ===== *)
(** * GoState: the state of a worker process and the monad of its code

    The code of the packages [gain] runs against mutable objects: connections
    behind pointers, the pools of the process, the submission queue of the worker's
    ring, the kernel.  [M A] is a computation that reads and changes this state and
    may panic.  Connections live in a heap because the program shares pointers to
    them (the manager's map, the connection pool, the queue of asynchronous
    operations). *)

From S2P Require Import Prelude Errors SyncPool VirtualMem MagicRing RingPool ByteSlicePool KeyPool Flags.
From S2P Require Import Sockaddr SocketOps.

(** ** Connections: [conn.go] *)

Inductive connectionState : Type := connInvalid | connAccept | connRead | connWrite | connClose.

#[export] Instance connectionState_eq_dec : EqDecision connectionState.
Proof. solve_decision. Defined.

(** [int(conn.state)] *)
Definition state_num (s : connectionState) : Z :=
  match s with connInvalid => 0 | connAccept => 1 | connRead => 2 | connWrite => 3 | connClose => 4 end.

Definition kernelSpace : Z := 0.
Definition userSpace : Z := 1.

Inductive asyncOp : Type := noOp | readOp | writeOp | closeOp.

Definition tcp : Z := 0.
Definition udp : Z := 1.

(** The message header of a datagram socket: which buffer the vector points into,
    at which offset, and its length. *)
Inductive buffer_side : Type := Inbound | Outbound.

Record Msghdr : Type := mkMsghdr { iov_side : buffer_side; iov_base : Z; iov_len : Z }.

(** A user-defined context is a number. *)
Record connection : Type := mkConn {
  c_fd : Z;
  c_key : Z;
  c_network : Z;
  c_inbound : option RingBuffer;
  c_outbound : option RingBuffer;
  c_state : connectionState;
  c_mode : Z;
  c_closed : bool;
  c_msgHdr : option Msghdr;
  c_rawSockaddr : option (list byte);
  c_localAddr : option NetAddr;
  c_remoteAddr : option NetAddr;
  c_ctx : option Z;
  c_nextAsyncOp : asyncOp
}.

(** ** The ring

    A submission queue entry as the program fills it. *)
Inductive sqe_op : Type :=
| SqAccept (fd : Z)
| SqRecv (fd addr len : Z)
| SqRecvMsg (fd : Z) (hdr : option Msghdr)
| SqSend (fd addr len : Z)
| SqSendMsg (fd : Z) (hdr : option Msghdr)
| SqClose (fd : Z)
| SqMsgRing (ringFd : Z) (len data : Z).

Record sqe : Type := mkSqe { sq_op : sqe_op; sq_data : Z; sq_link : bool }.

(** A completion: the result, the user data and the flag [CQEFSockNonempty]. *)
Record cqe : Type := mkCqe { cqe_Res : Z; cqe_UserData : Z; cqe_nonempty : bool }.

(** ** What the event handler saw *)
Inductive callback : Type :=
| CbAccept (addr : nat)
| CbRead (addr : nat) (n : Z)
| CbWrite (addr : nat) (n : Z)
| CbClose (addr : nat) (err : option error).

(** ** The connection manager's data: [conn_manager.go] *)
Record connectionManager : Type := mkManager {
  cm_connections : gmap Z nat;
  cm_count : Z;
  cm_closing : bool;
  cm_releaseFdSet : gset Z;
  cm_keyPool : keyPool (api := lock_free_stack_api 0)
}.

(** ** The worker's own variables: [shutdown.go], [acceptor.go], [shard_worker.go],
    [consumer_worker.go] *)
Record workerVars : Type := mkVars {
  wv_accepting : bool;
  (** the raw address of the last accepted client, written by the kernel *)
  wv_clientAddr : list byte;
  wv_shutdowning : bool;
  wv_inProgress : bool;
  (** [ring.QueueExit] was called; how often [wg.Done] was called *)
  wv_ring_closed : bool;
  wv_done : nat;
  (** [consumer_worker.go]: the client addresses stored by the acceptor, and the queue
      of descriptors for kernels without ring messages *)
  wv_socketAddresses : gmap Z (option NetAddr);
  wv_connQueue : option (list Z);
  (** [looper.running] *)
  wv_running : bool
}.

(** ** The state *)
Record St : Type := mkSt {
  st_conns : gmap nat connection;
  st_new : nat;
  st_connPool : pool nat;
  st_rings : ringPool;
  st_world : World;
  st_slices : slicePool;
  (** the coming choices of [sync.Pool.Get] *)
  st_choices : list (option nat);
  (** the entries of the submission queue not yet submitted, and its size *)
  st_sq : list sqe;
  st_sq_size : Z;
  st_calls : trace;
  st_log : list callback;
  st_mgr : connectionManager;
  (** the queue of asynchronous operations and the goroutines that will fill it *)
  st_asyncQueue : list nat;
  st_asyncJobs : list (nat * Z);
  st_worker : workerVars
}.

(** ** The monad *)

Definition StateM (S A : Type) : Type := S -> outcome (A * S).

#[export] Instance StateM_ret S : MRet (StateM S) := fun A a s => Ret (a, s).
#[export] Instance StateM_bind S : MBind (StateM S) := fun A B f m s => '(a, s) ← m s; f a s.

Notation M := (StateM St).

Definition panic {A} (p : panic) : M A := fun _ => Panic p.
Definition lift {S A} (o : outcome A) : StateM S A := fun s => a ← o; Ret (a, s).
Definition get_state {S} : StateM S S := fun s => Ret (s, s).
Definition modify {S} (f : S -> S) : StateM S () := fun s => Ret ((), f s).

(** [if c { m }] *)
Definition when {S} (c : bool) (m : StateM S ()) : StateM S () := if c then m else mret ().

(** *** Field updates *)

Definition set_conns v s := mkSt v (st_new s) (st_connPool s) (st_rings s) (st_world s) (st_slices s) (st_choices s) (st_sq s) (st_sq_size s) (st_calls s) (st_log s) (st_mgr s) (st_asyncQueue s) (st_asyncJobs s) (st_worker s).
Definition set_new v s := mkSt (st_conns s) v (st_connPool s) (st_rings s) (st_world s) (st_slices s) (st_choices s) (st_sq s) (st_sq_size s) (st_calls s) (st_log s) (st_mgr s) (st_asyncQueue s) (st_asyncJobs s) (st_worker s).
Definition set_connPool v s := mkSt (st_conns s) (st_new s) v (st_rings s) (st_world s) (st_slices s) (st_choices s) (st_sq s) (st_sq_size s) (st_calls s) (st_log s) (st_mgr s) (st_asyncQueue s) (st_asyncJobs s) (st_worker s).
Definition set_rings v s := mkSt (st_conns s) (st_new s) (st_connPool s) v (st_world s) (st_slices s) (st_choices s) (st_sq s) (st_sq_size s) (st_calls s) (st_log s) (st_mgr s) (st_asyncQueue s) (st_asyncJobs s) (st_worker s).
Definition set_world v s := mkSt (st_conns s) (st_new s) (st_connPool s) (st_rings s) v (st_slices s) (st_choices s) (st_sq s) (st_sq_size s) (st_calls s) (st_log s) (st_mgr s) (st_asyncQueue s) (st_asyncJobs s) (st_worker s).
Definition set_slices v s := mkSt (st_conns s) (st_new s) (st_connPool s) (st_rings s) (st_world s) v (st_choices s) (st_sq s) (st_sq_size s) (st_calls s) (st_log s) (st_mgr s) (st_asyncQueue s) (st_asyncJobs s) (st_worker s).
Definition set_choices v s := mkSt (st_conns s) (st_new s) (st_connPool s) (st_rings s) (st_world s) (st_slices s) v (st_sq s) (st_sq_size s) (st_calls s) (st_log s) (st_mgr s) (st_asyncQueue s) (st_asyncJobs s) (st_worker s).
Definition set_sq v s := mkSt (st_conns s) (st_new s) (st_connPool s) (st_rings s) (st_world s) (st_slices s) (st_choices s) v (st_sq_size s) (st_calls s) (st_log s) (st_mgr s) (st_asyncQueue s) (st_asyncJobs s) (st_worker s).
Definition set_calls v s := mkSt (st_conns s) (st_new s) (st_connPool s) (st_rings s) (st_world s) (st_slices s) (st_choices s) (st_sq s) (st_sq_size s) v (st_log s) (st_mgr s) (st_asyncQueue s) (st_asyncJobs s) (st_worker s).
Definition set_log v s := mkSt (st_conns s) (st_new s) (st_connPool s) (st_rings s) (st_world s) (st_slices s) (st_choices s) (st_sq s) (st_sq_size s) (st_calls s) v (st_mgr s) (st_asyncQueue s) (st_asyncJobs s) (st_worker s).
Definition set_mgr v s := mkSt (st_conns s) (st_new s) (st_connPool s) (st_rings s) (st_world s) (st_slices s) (st_choices s) (st_sq s) (st_sq_size s) (st_calls s) (st_log s) v (st_asyncQueue s) (st_asyncJobs s) (st_worker s).
Definition set_asyncQueue v s := mkSt (st_conns s) (st_new s) (st_connPool s) (st_rings s) (st_world s) (st_slices s) (st_choices s) (st_sq s) (st_sq_size s) (st_calls s) (st_log s) (st_mgr s) v (st_asyncJobs s) (st_worker s).
Definition set_asyncJobs v s := mkSt (st_conns s) (st_new s) (st_connPool s) (st_rings s) (st_world s) (st_slices s) (st_choices s) (st_sq s) (st_sq_size s) (st_calls s) (st_log s) (st_mgr s) (st_asyncQueue s) v (st_worker s).
Definition set_worker v s := mkSt (st_conns s) (st_new s) (st_connPool s) (st_rings s) (st_world s) (st_slices s) (st_choices s) (st_sq s) (st_sq_size s) (st_calls s) (st_log s) (st_mgr s) (st_asyncQueue s) (st_asyncJobs s) v.

Definition with_fd v c := mkConn v (c_key c) (c_network c) (c_inbound c) (c_outbound c) (c_state c) (c_mode c) (c_closed c) (c_msgHdr c) (c_rawSockaddr c) (c_localAddr c) (c_remoteAddr c) (c_ctx c) (c_nextAsyncOp c).
Definition with_key v c := mkConn (c_fd c) v (c_network c) (c_inbound c) (c_outbound c) (c_state c) (c_mode c) (c_closed c) (c_msgHdr c) (c_rawSockaddr c) (c_localAddr c) (c_remoteAddr c) (c_ctx c) (c_nextAsyncOp c).
Definition with_network v c := mkConn (c_fd c) (c_key c) v (c_inbound c) (c_outbound c) (c_state c) (c_mode c) (c_closed c) (c_msgHdr c) (c_rawSockaddr c) (c_localAddr c) (c_remoteAddr c) (c_ctx c) (c_nextAsyncOp c).
Definition with_inbound v c := mkConn (c_fd c) (c_key c) (c_network c) v (c_outbound c) (c_state c) (c_mode c) (c_closed c) (c_msgHdr c) (c_rawSockaddr c) (c_localAddr c) (c_remoteAddr c) (c_ctx c) (c_nextAsyncOp c).
Definition with_outbound v c := mkConn (c_fd c) (c_key c) (c_network c) (c_inbound c) v (c_state c) (c_mode c) (c_closed c) (c_msgHdr c) (c_rawSockaddr c) (c_localAddr c) (c_remoteAddr c) (c_ctx c) (c_nextAsyncOp c).
Definition with_state v c := mkConn (c_fd c) (c_key c) (c_network c) (c_inbound c) (c_outbound c) v (c_mode c) (c_closed c) (c_msgHdr c) (c_rawSockaddr c) (c_localAddr c) (c_remoteAddr c) (c_ctx c) (c_nextAsyncOp c).
Definition with_mode v c := mkConn (c_fd c) (c_key c) (c_network c) (c_inbound c) (c_outbound c) (c_state c) v (c_closed c) (c_msgHdr c) (c_rawSockaddr c) (c_localAddr c) (c_remoteAddr c) (c_ctx c) (c_nextAsyncOp c).
Definition with_closed v c := mkConn (c_fd c) (c_key c) (c_network c) (c_inbound c) (c_outbound c) (c_state c) (c_mode c) v (c_msgHdr c) (c_rawSockaddr c) (c_localAddr c) (c_remoteAddr c) (c_ctx c) (c_nextAsyncOp c).
Definition with_msgHdr v c := mkConn (c_fd c) (c_key c) (c_network c) (c_inbound c) (c_outbound c) (c_state c) (c_mode c) (c_closed c) v (c_rawSockaddr c) (c_localAddr c) (c_remoteAddr c) (c_ctx c) (c_nextAsyncOp c).
Definition with_rawSockaddr v c := mkConn (c_fd c) (c_key c) (c_network c) (c_inbound c) (c_outbound c) (c_state c) (c_mode c) (c_closed c) (c_msgHdr c) v (c_localAddr c) (c_remoteAddr c) (c_ctx c) (c_nextAsyncOp c).
Definition with_localAddr v c := mkConn (c_fd c) (c_key c) (c_network c) (c_inbound c) (c_outbound c) (c_state c) (c_mode c) (c_closed c) (c_msgHdr c) (c_rawSockaddr c) v (c_remoteAddr c) (c_ctx c) (c_nextAsyncOp c).
Definition with_remoteAddr v c := mkConn (c_fd c) (c_key c) (c_network c) (c_inbound c) (c_outbound c) (c_state c) (c_mode c) (c_closed c) (c_msgHdr c) (c_rawSockaddr c) (c_localAddr c) v (c_ctx c) (c_nextAsyncOp c).
Definition with_ctx v c := mkConn (c_fd c) (c_key c) (c_network c) (c_inbound c) (c_outbound c) (c_state c) (c_mode c) (c_closed c) (c_msgHdr c) (c_rawSockaddr c) (c_localAddr c) (c_remoteAddr c) v (c_nextAsyncOp c).
Definition with_nextAsyncOp v c := mkConn (c_fd c) (c_key c) (c_network c) (c_inbound c) (c_outbound c) (c_state c) (c_mode c) (c_closed c) (c_msgHdr c) (c_rawSockaddr c) (c_localAddr c) (c_remoteAddr c) (c_ctx c) v.

(** *** Objects *)

(** Reading and changing the connection behind a pointer. *)
Definition load (a : nat) : M connection := fun s => c ← deref (st_conns s !! a); Ret (c, s).

Definition store (a : nat) (f : connection -> connection) : M () := fun s =>
  c ← deref (st_conns s !! a); Ret ((), set_conns (<[a := f c]> (st_conns s)) s).

(** The next choice of a [sync.Pool]. *)
Definition next_choice : M (option nat) := fun s =>
  Ret (default None (head (st_choices s)), set_choices (tail (st_choices s)) s).

(** [ring.GetSQE()] returns nil when the submission queue is full; otherwise the
    entry the caller fills joins the queue. *)
Definition sq_full (s : St) : bool := st_sq_size s <=? zlen (st_sq s).
Definition push_sqe (e : sqe) : M () := modify (fun s => set_sq (st_sq s ++ [e]) s).

Definition log_callback (cb : callback) : M () := modify (fun s => set_log (st_log s ++ [cb]) s).

(** ** Reasoning about computations

    [wp m Q s]: from [s] the computation [m] returns, and its result and final state
    satisfy [Q]. *)

Definition wp {S A} (m : StateM S A) (Q : A -> S -> Prop) (s : S) : Prop :=
  match m s with Ret (a, s') => Q a s' | Panic _ => False end.

Lemma wp_ret {S A} (a : A) (Q : A -> S -> Prop) s : Q a s -> wp (mret a) Q s.
Proof. done. Qed.

Lemma wp_bind {S A B} (m : StateM S A) (f : A -> StateM S B) Q s : wp m (fun a => wp (f a) Q) s -> wp (m ≫= f) Q s.
Proof. rewrite /wp /mbind /StateM_bind. by destruct (m s) as [[a s1]|]. Qed.

Lemma wp_unbind {S A B} (m : StateM S A) (f : A -> StateM S B) Q s : wp (m ≫= f) Q s -> wp m (fun a => wp (f a) Q) s.
Proof. rewrite /wp /mbind /StateM_bind. by destruct (m s) as [[a s1]|]. Qed.

Lemma wp_assoc {S A B C} (m : StateM S A) (f : A -> StateM S B) (g : B -> StateM S C) Q s :
  wp (m ≫= f) (fun b => wp (g b) Q) s -> wp (m ≫= fun a => f a ≫= g) Q s.
Proof. rewrite /wp /mbind /StateM_bind. destruct (m s) as [[a s1]|]; simpl; [|done]. by destruct (f a s1) as [[b s2]|]. Qed.

Lemma wp_mono {S A} (m : StateM S A) (Q R : A -> S -> Prop) s : wp m Q s -> (forall a s', Q a s' -> R a s') -> wp m R s.
Proof. rewrite /wp. destruct (m s) as [[a s1]|]; auto. Qed.

Lemma wp_lift {S A} (o : outcome A) (Q : A -> S -> Prop) s a : o = Ret a -> Q a s -> wp (lift o) Q s.
Proof. by intros ->. Qed.

Lemma wp_deref {S A} (o : option A) (Q : A -> S -> Prop) s a : o = Some a -> Q a s -> wp (lift (deref o)) Q s.
Proof. by intros ->. Qed.

Lemma wp_get_state {S} (Q : S -> S -> Prop) s : Q s s -> wp get_state Q s.
Proof. done. Qed.

Lemma wp_modify {S} f (Q : () -> S -> Prop) s : Q () (f s) -> wp (modify f) Q s.
Proof. done. Qed.

Lemma wp_next_choice Q s : (forall c, Q c (set_choices (tail (st_choices s)) s)) -> wp next_choice Q s.
Proof. intros HQ. apply HQ. Qed.

Lemma wp_load a Q s c : st_conns s !! a = Some c -> Q c s -> wp (load a) Q s.
Proof. by rewrite /wp /load => -> /=. Qed.

Lemma wp_store a f Q s c :
  st_conns s !! a = Some c -> Q () (set_conns (<[a := f c]> (st_conns s)) s) -> wp (store a f) Q s.
Proof. by rewrite /wp /store => -> /=. Qed.

Lemma wp_run {S A} (m : StateM S A) Q s : wp m Q s -> exists a s', m s = Ret (a, s') /\ Q a s'.
Proof. rewrite /wp. destruct (m s) as [[a s1]|]; [|done]. eauto. Qed.

Lemma wp_run_unit {S} (m : StateM S ()) (Q : S -> Prop) s : wp m (fun _ => Q) s -> exists s', m s = Ret ((), s') /\ Q s'.
Proof. intros ([] & s' & Hm & HQ)%wp_run. eauto. Qed.

Lemma wp_of_run {S A} (m : StateM S A) Q s a s' : m s = Ret (a, s') -> Q a s' -> wp m Q s.
Proof. by rewrite /wp => ->. Qed.

(** One step of the computation in the goal. *)
Ltac wp_step :=
  lazymatch goal with
  | |- wp (mbind _ _) _ _ => apply wp_bind
  | |- wp (mret _) _ _ => apply wp_ret
  | |- wp get_state _ _ => apply wp_get_state
  | |- wp (modify _) _ _ => apply wp_modify
  | |- wp (load _) _ _ => eapply wp_load; [eassumption|]
  | |- wp (store _ _) _ _ => eapply wp_store; [eassumption|]
  end.

Ltac wp_steps := repeat (wp_step; cbn beta).
