(* ===== verification/Conn.v ===== *)
(** * Conn: [conn.go] and [conn_pool.go]

    The methods of a connection.  A pointer to a connection is an address [a]; the
    methods of the [Conn] interface may be called by the event handler only while
    the connection is in user space, which [userOpAllowed] enforces. *)

From S2P Require Import Prelude Errors Float64 SyncPool VirtualMem MagicRing RingPool ByteSlicePool Sockaddr.
From S2P Require Import SocketOps GoState.
Local Open Scope string_scope.
Local Open Scope list_scope.
Local Open Scope Z_scope.

(** What the program runs on: the page size, the kernel's answers, [sort.Sort], the
    decoding of raw socket addresses, the host's interfaces and Go's map order. *)
Class Env : Type := {
  env_os :: Os;
  env_kernel :: Kernel;
  sort_Sort : list callSize -> list callSize;
  anyToSockaddr : list byte -> Sockaddr + error;
  InterfaceByIndex : Z -> option string;
  (** the order in which [range] visits the connections *)
  range_order : gmap Z nat -> list (Z * nat)
}.

Definition state_String (s : connectionState) : string :=
  match s with
  | connAccept => "accept" | connRead => "read" | connWrite => "write" | connClose => "close"
  | connInvalid => "invalid"
  end.

Definition connModeString (m : Z) : string :=
  if m =? kernelSpace then "kernelSpace" else if m =? userSpace then "userSpace" else "invalid".

Definition msgControlBufferSize : Z := 64.

(** [int(period.Seconds())] of a duration in nanoseconds. *)
Definition period_seconds (period : Z) : Z :=
  f64_to_int (f64_add (f64_of_int (Z.quot period 1000000000))
                      (f64_div (f64_of_int (Z.rem period 1000000000)) (f64_of_int 1000000000))).

Definition boolToInt (b : bool) : Z := if b then 1 else 0.

Section Conn.
Context {env : Env}.

(** ** Buffers *)

(** [ringbuffer.Get()] *)
Definition ring_get : M RingBuffer :=
  choice ← next_choice;
  s ← get_state;
  '(rb, p, wd) ← lift (ringbuffer_Get choice (st_rings s) (st_world s));
  _ ← modify (set_rings p);
  _ ← modify (set_world wd);
  mret rb.

(** [ringbuffer.Put(b)]; a nil buffer panics. *)
Definition ring_put (b : option RingBuffer) : M () :=
  b ← lift (deref b);
  s ← get_state;
  p ← lift (ringbuffer_Put sort_Sort b (st_rings s));
  modify (set_rings p).

(** A buffer operation that changes the buffer and the memory. *)
Definition on_inbound {A} (a : nat) (f : RingBuffer -> World -> outcome (A * RingBuffer * World)) : M A :=
  c ← load a;
  rb ← lift (deref (c_inbound c));
  s ← get_state;
  '(r, rb, wd) ← lift (f rb (st_world s));
  _ ← modify (set_world wd);
  _ ← store a (with_inbound (Some rb));
  mret r.

Definition on_outbound {A} (a : nat) (f : RingBuffer -> World -> outcome (A * RingBuffer * World)) : M A :=
  c ← load a;
  rb ← lift (deref (c_outbound c));
  s ← get_state;
  '(r, rb, wd) ← lift (f rb (st_world s));
  _ ← modify (set_world wd);
  _ ← store a (with_outbound (Some rb));
  mret r.

Definition outboundReadAddress (a : nat) : M Z :=
  c ← load a; rb ← lift (deref (c_outbound c)); lift (RingBuffer_ReadAddress rb).

Definition inboundWriteAddress (a : nat) : M Z :=
  c ← load a; rb ← lift (deref (c_inbound c)); lift (RingBuffer_WriteAddress rb).

Definition setKernelSpace (a : nat) : M () := store a (with_mode kernelSpace).
Definition setUserSpace (a : nat) : M () := store a (with_mode userSpace).

Definition conn_Context (a : nat) : M (option Z) := c ← load a; mret (c_ctx c).
Definition conn_SetContext (a : nat) (ctx : option Z) : M () := store a (with_ctx ctx).
Definition conn_LocalAddr (a : nat) : M (option NetAddr) := c ← load a; mret (c_localAddr c).
Definition conn_RemoteAddr (a : nat) : M (option NetAddr) := c ← load a; mret (c_remoteAddr c).
Definition conn_Fd (a : nat) : M Z := c ← load a; mret (c_fd c).

Definition userOpAllowed (a : nat) (name : string) : M (option error) :=
  c ← load a;
  if c_closed c then mret (Some ErrConnectionClosed)
  else if negb (c_mode c =? userSpace)
  then mret (Some (ErrorOpNotAvailableInMode name (connModeString (c_mode c))))
  else mret None.

(** The common shape of the user operations. *)
Definition guarded {A} (a : nat) (name : string) (fail : A) (op : M (A * option error)) : M (A * option error) :=
  err ← userOpAllowed a name;
  match err with
  | Some e => mret (fail, Some e)
  | None => op
  end.

(** ** Socket options *)

Definition sys_setter (f : trace -> option error * trace) : M (() * option error) :=
  s ← get_state;
  let '(err, tr) := f (st_calls s) in
  _ ← modify (set_calls tr);
  mret ((), err).

Definition conn_SetReadBuffer (a : nat) (bytes : Z) : M (() * option error) :=
  guarded a "setReadBuffer" () (c ← load a; sys_setter (SetRecvBuffer (c_fd c) bytes)).
Definition conn_SetWriteBuffer (a : nat) (bytes : Z) : M (() * option error) :=
  guarded a "setWriteBuffer" () (c ← load a; sys_setter (SetSendBuffer (c_fd c) bytes)).
Definition conn_SetLinger (a : nat) (sec : Z) : M (() * option error) :=
  guarded a "setLinger" () (c ← load a; sys_setter (SetLinger (c_fd c) sec)).
Definition conn_SetNoDelay (a : nat) (noDelay : bool) : M (() * option error) :=
  guarded a "setNoDelay" () (c ← load a; sys_setter (SetNoDelay (c_fd c) (boolToInt noDelay))).
Definition conn_SetKeepAlivePeriod (a : nat) (period : Z) : M (() * option error) :=
  guarded a "setKeepAlivePeriod" () (c ← load a; sys_setter (SetKeepAlivePeriod (c_fd c) (period_seconds period))).

(** ** Kernel completions *)

Definition onKernelRead (a : nat) (n : Z) : M () :=
  on_inbound a (fun rb wd => rb ← RingBuffer_AdvanceWrite rb n; Ret ((), rb, wd)).
Definition onKernelWrite (a : nat) (n : Z) : M () :=
  on_outbound a (fun rb wd => rb ← RingBuffer_AdvanceRead rb n; Ret ((), rb, wd)).

Definition isClosed (a : nat) : M bool := c ← load a; mret (c_closed c).

Definition conn_Close (a : nat) : M (option error) :=
  c ← load a;
  if c_network c =? udp then mret None
  else if c_closed c then mret (Some ErrConnectionAlreadyClosed)
  else _ ← store a (with_closed true); mret None.

(** ** Data *)

Definition conn_Next (a : nat) (n : Z) : M (list byte * option error) :=
  guarded a "next" []
    (on_inbound a (fun rb wd => '(bs, err, rb) ← RingBuffer_Next rb n; Ret ((bs, err), rb, wd))).

Definition conn_Discard (a : nat) (n : Z) : M (Z * option error) :=
  guarded a "discard" 0
    (on_inbound a (fun rb wd => '(k, rb) ← RingBuffer_Discard rb n; Ret ((k, None), rb, wd))).

Definition conn_Peek (a : nat) (n : Z) : M (list byte * option error) :=
  guarded a "peek" []
    (on_inbound a (fun rb wd => bs ← RingBuffer_Peek rb n; Ret ((bs, None), rb, wd))).

Definition conn_Read (a : nat) (buflen : Z) : M (list byte * option error) :=
  guarded a "read" []
    (on_inbound a (fun rb wd => '(bs, err, rb) ← RingBuffer_Read rb buflen; Ret ((bs, err), rb, wd))).

Definition conn_Write (a : nat) (buffer : list byte) : M (Z * option error) :=
  guarded a "write" 0
    (on_outbound a (fun rb wd => '(n, err, rb, wd) ← RingBuffer_Write rb buffer wd; Ret ((n, err), rb, wd))).

(** [ReadFrom] and [WriteTo] thread the reader or writer; [None] when the fuel of
    the loop is used up. *)
Definition conn_ReadFrom {R} (reader_Read : R -> Z -> Z * list byte * option error * R) (fuel : nat)
    (a : nat) (rd : R) : M (option (Z * option error * R)) :=
  err ← userOpAllowed a "readFrom";
  match err with
  | Some e => mret (Some (0, Some e, rd))
  | None =>
      on_outbound a (fun rb wd =>
        r ← RingBuffer_ReadFrom reader_Read fuel rb rd wd;
        match r with
        | None => Ret (None, rb, wd)
        | Some (n, err, rb, wd, rd) => Ret (Some (n, err, rd), rb, wd)
        end)
  end.

Definition conn_WriteTo {W} (writer_Write : W -> list byte -> Z * option error * W) (a : nat) (wr : W) :
    M (Z * option error * W) :=
  err ← userOpAllowed a "writeTo";
  match err with
  | Some e => mret (0, Some e, wr)
  | None =>
      on_inbound a (fun rb wd =>
        '(n, err, rb, wr) ← RingBuffer_WriteTo writer_Write rb wr; Ret ((n, err, wr), rb, wd))
  end.

Definition OutboundBuffered (a : nat) : M Z :=
  c ← load a; rb ← lift (deref (c_outbound c)); mret (RingBuffer_Buffered rb).
Definition InboundBuffered (a : nat) : M Z :=
  c ← load a; rb ← lift (deref (c_inbound c)); mret (RingBuffer_Buffered rb).

(** ** Datagram headers *)

Definition setMsgHeaderWrite (a : nat) : M () :=
  c ← load a;
  _ ← lift (deref (c_msgHdr c));
  base ← outboundReadAddress a;
  len ← OutboundBuffered a;
  store a (with_msgHdr (Some (mkMsghdr Outbound base len))).

Definition initMsgHeader (a : nat) : M () :=
  base ← inboundWriteAddress a;
  c ← load a;
  rb ← lift (deref (c_inbound c));
  choice ← next_choice;
  s ← get_state;
  '(ctl, ps) ← lift (byteslice_Get choice msgControlBufferSize (st_slices s));
  _ ← modify (set_slices ps);
  ctl ← lift (deref ctl);
  _ ← lift (go_index (slice_bytes ctl) 0);
  _ ← store a (with_msgHdr (Some (mkMsghdr Inbound base (RingBuffer_Cap rb))));
  store a (with_rawSockaddr (Some [])).

(** [c.fork(newConn, key, write)]: [new] takes over the buffers, the header and the
    sender's address; [a] gets fresh ones. *)
Definition conn_fork (a new : nat) (key : Z) (write : bool) : M () :=
  c ← load a;
  _ ← store new (fun n =>
        with_network udp (with_key key (with_fd (c_fd c) (with_state (c_state c)
          (with_rawSockaddr (c_rawSockaddr c) (with_msgHdr (c_msgHdr c)
            (with_outbound (c_outbound c) (with_inbound (c_inbound c) n))))))));
  raw ← lift (deref (c_rawSockaddr c));
  _ ← match anyToSockaddr raw with
      | inl sa =>
          c1 ← next_choice;
          c2 ← next_choice;
          s ← get_state;
          '(addr, ps) ← lift (SockaddrToUDPAddr InterfaceByIndex c1 c2 sa (st_slices s));
          _ ← modify (set_slices ps);
          store new (with_remoteAddr addr)
      | inr _ => mret ()
      end;
  _ ← when write (setMsgHeaderWrite new);
  rb ← ring_get;
  _ ← store a (with_inbound (Some rb));
  rb ← ring_get;
  _ ← store a (with_outbound (Some rb));
  initMsgHeader a.

(** ** [conn_pool.go] *)

Definition new_address : M nat := fun s => Ret (st_new s, set_new (S (st_new s)) s).

Definition newConnection : M nat :=
  inb ← ring_get;
  outb ← ring_get;
  a ← new_address;
  _ ← modify (fun s => set_conns (<[a := mkConn 0 0 0 (Some inb) (Some outb) connInvalid 0 false None None
                                        None None None noOp]> (st_conns s)) s);
  mret a.

Definition connectionPool_Get : M nat :=
  choice ← next_choice;
  s ← get_state;
  let '(conn, p) := pool_Get choice (st_connPool s) in
  _ ← modify (set_connPool p);
  match conn with
  | Some a =>
      inb ← ring_get;
      _ ← store a (with_inbound (Some inb));
      outb ← ring_get;
      _ ← store a (with_outbound (Some outb));
      mret a
  | None => newConnection
  end.

Definition connectionPool_Put (a : nat) : M () :=
  c ← load a;
  _ ← ring_put (c_inbound c);
  _ ← ring_put (c_outbound c);
  _ ← store a (fun c =>
        with_ctx None (with_network 0 (with_closed false (with_mode 0 (with_rawSockaddr None (with_msgHdr None
          (with_state connInvalid (with_key 0 (with_fd 0 (with_outbound None (with_inbound None c)))))))))));
  modify (fun s => set_connPool (pool_Put a (st_connPool s)) s).

Definition getConnection : M nat := connectionPool_Get.
Definition putConnection (a : nat) : M () := connectionPool_Put a.

End Conn.
