(* ===== verification/ConnSpec.v ===== *)
(** * ConnSpec: what a connection promises to an event handler

    An event handler is code that calls the methods of [Conn]: a program over the
    operations below.  The abstract connection is two byte queues and a flag; in
    user space every method acts on it, in kernel space none reaches the buffers. *)

From S2P Require Import Prelude Errors SyncPool VirtualMem MagicRing RingRefinement RingPool ByteSlicePool.
From S2P Require Import KeyPool Sockaddr SocketOps GoState Conn.
Local Open Scope string_scope.
Local Open Scope list_scope.
Local Open Scope Z_scope.

(** ** Handler programs *)

Inductive conn_op : Type :=
| URead (buflen : Z)
| UWrite (bs : list byte)
| UNext (n : Z)
| UPeek (n : Z)
| UDiscard (n : Z)
| UClose
| USetContext (ctx : option Z)
| UInboundBuffered
| UOutboundBuffered
| USetReadBuffer (bytes : Z)
| USetWriteBuffer (bytes : Z)
| USetLinger (sec : Z)
| USetNoDelay (b : bool)
| USetKeepAlivePeriod (period : Z).

Record conn_res : Type := mkRes { res_n : Z; res_bytes : list byte; res_err : option error }.

Section Handler.
Context {env : Env}.

Definition run_op (a : nat) (op : conn_op) : M conn_res :=
  match op with
  | URead n => '(bs, err) ← conn_Read a n; mret (mkRes (zlen bs) bs err)
  | UWrite bs => '(n, err) ← conn_Write a bs; mret (mkRes n [] err)
  | UNext n => '(bs, err) ← conn_Next a n; mret (mkRes (zlen bs) bs err)
  | UPeek n => '(bs, err) ← conn_Peek a n; mret (mkRes (zlen bs) bs err)
  | UDiscard n => '(n, err) ← conn_Discard a n; mret (mkRes n [] err)
  | UClose => err ← conn_Close a; mret (mkRes 0 [] err)
  | USetContext ctx => _ ← conn_SetContext a ctx; mret (mkRes 0 [] None)
  | UInboundBuffered => n ← InboundBuffered a; mret (mkRes n [] None)
  | UOutboundBuffered => n ← OutboundBuffered a; mret (mkRes n [] None)
  | USetReadBuffer n => '(_, err) ← conn_SetReadBuffer a n; mret (mkRes 0 [] err)
  | USetWriteBuffer n => '(_, err) ← conn_SetWriteBuffer a n; mret (mkRes 0 [] err)
  | USetLinger n => '(_, err) ← conn_SetLinger a n; mret (mkRes 0 [] err)
  | USetNoDelay b => '(_, err) ← conn_SetNoDelay a b; mret (mkRes 0 [] err)
  | USetKeepAlivePeriod n => '(_, err) ← conn_SetKeepAlivePeriod a n; mret (mkRes 0 [] err)
  end.

(** The handler's code may depend on every result it received, and may panic. *)
Inductive hprog : Type :=
| HRet
| HPanic (msg : string)
| HOp (op : conn_op) (k : conn_res -> hprog).

Fixpoint run_prog (a : nat) (p : hprog) : M () :=
  match p with
  | HRet => mret ()
  | HPanic msg => panic (PanicLog msg)
  | HOp op k => r ← run_op a op; run_prog a (k r)
  end.

End Handler.

(** A program that does not panic of its own accord. *)
Fixpoint calm (p : hprog) : Prop :=
  match p with HRet => True | HPanic _ => False | HOp op k => forall r, calm (k r) end.

(** ** The abstract connection *)

Record aconn : Type := mkA { a_in : list byte; a_out : list byte; a_closed : bool; a_ctx : option Z }.

(** The operation on the inbound or outbound queue a method performs. *)
Definition in_op (op : conn_op) : option ring_op :=
  match op with
  | URead n => Some (OpRead n) | UNext n => Some (OpNext n) | UPeek n => Some (OpPeek n)
  | UDiscard n => Some (OpDiscard n) | _ => None
  end.

Definition is_sockopt (op : conn_op) : bool :=
  match op with
  | USetReadBuffer _ | USetWriteBuffer _ | USetLinger _ | USetNoDelay _ | USetKeepAlivePeriod _ => true
  | _ => false
  end.

Definition is_guarded (op : conn_op) : bool :=
  match op with
  | UClose | USetContext _ | UInboundBuffered | UOutboundBuffered => false
  | _ => true
  end.

Inductive conn_spec (network : Z) (A : aconn) : conn_op -> conn_res -> aconn -> Prop :=
| cs_rejected op :
    a_closed A = true -> is_guarded op = true -> conn_spec network A op (mkRes 0 [] (Some ErrConnectionClosed)) A
| cs_in op rop out c :
    a_closed A = false -> in_op op = Some rop -> fifo_step (a_in A) rop out c ->
    conn_spec network A op (mkRes (out_n out) (out_bytes out) (out_err out)) (mkA c (a_out A) (a_closed A) (a_ctx A))
| cs_write bs out c :
    a_closed A = false -> fifo_step (a_out A) (OpWrite bs) out c ->
    conn_spec network A (UWrite bs) (mkRes (out_n out) [] (out_err out)) (mkA (a_in A) c (a_closed A) (a_ctx A))
| cs_close_udp : network = udp -> conn_spec network A UClose (mkRes 0 [] None) A
| cs_close_again :
    network <> udp -> a_closed A = true -> conn_spec network A UClose (mkRes 0 [] (Some ErrConnectionAlreadyClosed)) A
| cs_close :
    network <> udp -> a_closed A = false ->
    conn_spec network A UClose (mkRes 0 [] None) (mkA (a_in A) (a_out A) true (a_ctx A))
| cs_context ctx : conn_spec network A (USetContext ctx) (mkRes 0 [] None) (mkA (a_in A) (a_out A) (a_closed A) ctx)
| cs_inbound : conn_spec network A UInboundBuffered (mkRes (zlen (a_in A)) [] None) A
| cs_outbound : conn_spec network A UOutboundBuffered (mkRes (zlen (a_out A)) [] None) A
| cs_sockopt op err : a_closed A = false -> is_sockopt op = true -> conn_spec network A op (mkRes 0 [] err) A.

Definition conn_abs (c : connection) : aconn :=
  mkA (default [] (contents <$> c_inbound c)) (default [] (contents <$> c_outbound c)) (c_closed c) (c_ctx c).

(** A well-formed buffer with its memory. *)
Definition buffer_ok (rb : RingBuffer) : Prop := rb_ok rb /\ allocated rb.

(** A connection with both buffers in place. *)
Definition conn_ok (c : connection) : Prop :=
  exists inb outb, c_inbound c = Some inb /\ c_outbound c = Some outb /\ buffer_ok inb /\ buffer_ok outb.

(** The fields no user operation changes. *)
Definition same_identity (c c' : connection) : Prop :=
  c_fd c' = c_fd c /\ c_key c' = c_key c /\ c_network c' = c_network c /\ c_state c' = c_state c /\
  c_mode c' = c_mode c /\ c_msgHdr c' = c_msgHdr c /\ c_rawSockaddr c' = c_rawSockaddr c /\
  c_localAddr c' = c_localAddr c /\ c_remoteAddr c' = c_remoteAddr c /\ c_nextAsyncOp c' = c_nextAsyncOp c.

(** A user operation on [a] changes [a], the memory and the call trace only. *)
Definition user_frame (a : nat) (s s' : St) : Prop :=
  exists c wd tr, st_calls s `prefix_of` tr /\ s' = set_calls tr (set_world wd (set_conns (<[a := c]> (st_conns s)) s)).

(** The operations the buffers can serve (see [op_valid]). *)
Definition user_valid (A : aconn) (op : conn_op) : Prop :=
  match op with
  | UWrite bs => op_valid (a_out A) (OpWrite bs)
  | _ => match in_op op with Some rop => op_valid (a_in A) rop | None => True end
  end.

Section ConnProofs.
Context {env : Env}.

(** ** Rules for the building blocks of the methods *)

Lemma wp_on_inbound {A} a (f : RingBuffer -> World -> outcome (A * RingBuffer * World)) Q s c rb r rb' wd' :
  st_conns s !! a = Some c -> c_inbound c = Some rb -> f rb (st_world s) = Ret (r, rb', wd') ->
  Q r (set_world wd' (set_conns (<[a := with_inbound (Some rb') c]> (st_conns s)) s)) -> wp (on_inbound a f) Q s.
Proof.
  intros Hc Hrb Hf HQ. rewrite /on_inbound. wp_steps.
  eapply wp_deref; [done|]. wp_steps. eapply wp_lift; [done|]. cbn beta iota. wp_steps.
  exact HQ.
Qed.

Lemma wp_on_outbound {A} a (f : RingBuffer -> World -> outcome (A * RingBuffer * World)) Q s c rb r rb' wd' :
  st_conns s !! a = Some c -> c_outbound c = Some rb -> f rb (st_world s) = Ret (r, rb', wd') ->
  Q r (set_world wd' (set_conns (<[a := with_outbound (Some rb') c]> (st_conns s)) s)) -> wp (on_outbound a f) Q s.
Proof.
  intros Hc Hrb Hf HQ. rewrite /on_outbound. wp_steps.
  eapply wp_deref; [done|]. wp_steps. eapply wp_lift; [done|]. cbn beta iota. wp_steps.
  exact HQ.
Qed.

Lemma wp_guarded {A} a name (fail : A) op Q s c :
  st_conns s !! a = Some c -> c_closed c = false -> c_mode c = userSpace -> wp op Q s ->
  wp (guarded a name fail op) Q s.
Proof.
  intros Hc Hcl Hm Hop. rewrite /guarded /userOpAllowed. wp_steps. rewrite Hcl Hm /=. by wp_steps.
Qed.

Lemma wp_guarded_closed {A} a name (fail : A) op Q s c :
  st_conns s !! a = Some c -> c_closed c = true -> Q (fail, Some ErrConnectionClosed) s ->
  wp (guarded a name fail op) Q s.
Proof. intros Hc Hcl HQ. rewrite /guarded /userOpAllowed. wp_steps. rewrite Hcl. by wp_steps. Qed.

Lemma wp_guarded_kernel {A} a name (fail : A) op Q s c :
  st_conns s !! a = Some c -> c_closed c = false -> c_mode c <> userSpace ->
  Q (fail, Some (ErrorOpNotAvailableInMode name (connModeString (c_mode c)))) s ->
  wp (guarded a name fail op) Q s.
Proof.
  intros Hc Hcl Hm HQ. rewrite /guarded /userOpAllowed. wp_steps. rewrite Hcl.
  destruct (Z.eqb_spec (c_mode c) userSpace); [done|]. by wp_steps.
Qed.

Lemma wp_sys_setter (f : trace -> option error * trace) Q s :
  Q ((), (f (st_calls s)).1) (set_calls (f (st_calls s)).2 s) -> wp (sys_setter f) Q s.
Proof. intros HQ. rewrite /sys_setter. wp_steps. destruct (f (st_calls s)). by wp_steps. Qed.

(** System calls are appended to the trace. *)
Lemma sys_prefix name call tr : tr `prefix_of` (sys name call tr).2.
Proof. by eexists. Qed.

Lemma SetLinger_prefix fd sec tr : tr `prefix_of` (SetLinger fd sec tr).2.
Proof. rewrite /SetLinger. case_match; apply sys_prefix. Qed.

Lemma SetKeepAlivePeriod_prefix fd secs tr : tr `prefix_of` (SetKeepAlivePeriod fd secs tr).2.
Proof.
  rewrite /SetKeepAlivePeriod /sys. repeat case_match; simplify_eq/=; rewrite -?app_assoc; try done; by eexists.
Qed.

(** ** The refinement *)

(** The receiving methods are the operations of the inbound ring. *)
Lemma wp_in_op a op rop s c rb out rb' wd' Q :
  in_op op = Some rop -> st_conns s !! a = Some c -> c_closed c = false -> c_mode c = userSpace ->
  c_inbound c = Some rb -> ring_step rb (st_world s) rop = Ret (out, rb', wd') ->
  Q (mkRes (out_n out) (out_bytes out) (out_err out))
    (set_world wd' (set_conns (<[a := with_inbound (Some rb') c]> (st_conns s)) s)) ->
  wp (run_op a op) Q s.
Proof.
  intros Hop Hc Hcl Hm Hrb Hstep HQ. destruct op; simplify_eq/=; wp_step.
  - eapply wp_guarded; [done..|]. apply bind_Ret_inv in Hstep as ([[bs err] rb1] & Hr & Heq). injection Heq as <- <- <-.
    eapply wp_on_inbound; [done|done|by rewrite Hr|]. done.
  - eapply wp_guarded; [done..|]. apply bind_Ret_inv in Hstep as ([[bs err] rb1] & Hr & Heq). injection Heq as <- <- <-.
    eapply wp_on_inbound; [done|done|by rewrite Hr|]. done.
  - eapply wp_guarded; [done..|]. apply bind_Ret_inv in Hstep as (bs & Hr & Heq). injection Heq as <- <- <-.
    eapply wp_on_inbound; [done|done|by rewrite Hr|]. done.
  - eapply wp_guarded; [done..|]. apply bind_Ret_inv in Hstep as ([k rb1] & Hr & Heq). injection Heq as <- <- <-.
    eapply wp_on_inbound; [done|done|by rewrite Hr|]. done.
Qed.

Lemma user_frame_refl a s c : st_conns s !! a = Some c -> user_frame a s s.
Proof.
  intros Hc. exists c, (st_world s), (st_calls s). split; [done|]. rewrite /set_calls /set_world /set_conns /=.
  rewrite insert_id //. by destruct s.
Qed.

(** What the handler relies on while it runs. *)
Record user_ready (P : World -> Prop) (a : nat) (s : St) (c : connection) : Prop := {
  ur_conn : st_conns s !! a = Some c;
  ur_ok : conn_ok c;
  ur_mode : c_mode c = userSpace;
  ur_world : P (st_world s)
}.

Definition op_refines (P : World -> Prop) (a : nat) (s : St) (c : connection) (op : conn_op) : Prop :=
  wp (run_op a op) (fun r s' => exists c',
    user_ready P a s' c' /\ same_identity c c' /\ user_frame a s s' /\
    conn_spec (c_network c) (conn_abs c) op r (conn_abs c')) s.

(** A method that does not change the state. *)
Lemma op_pure P a s c op r :
  user_ready P a s c -> conn_spec (c_network c) (conn_abs c) op r (conn_abs c) ->
  wp (run_op a op) (fun r' s' => r' = r /\ s' = s) s -> op_refines P a s c op.
Proof.
  intros Hr Hspec Hwp. eapply wp_mono; [done|]. intros r' s' [-> ->]. exists c. split_and!; try done.
  by eapply user_frame_refl, Hr.
Qed.

Lemma in_op_vm op rop rb wd out rb' wd' :
  in_op op = Some rop -> ring_step rb wd rop = Ret (out, rb', wd') -> rb_vm rb' = rb_vm rb.
Proof.
  intros Hop Hst. destruct op; simplify_eq/=.
  - apply bind_Ret_inv in Hst as ([[bs err] rb1] & Hr & Heq). simplify_eq. by eapply Read_vm.
  - apply bind_Ret_inv in Hst as ([[bs err] rb1] & Hr & Heq). simplify_eq. by eapply Next_vm.
  - apply bind_Ret_inv in Hst as (bs & Hr & Heq). by simplify_eq.
  - apply bind_Ret_inv in Hst as ([k rb1] & Hr & Heq). simplify_eq. by eapply Discard_vm.
Qed.

Lemma op_in P `{!PoolPromise P} a s c op rop :
  user_ready P a s c -> c_closed c = false -> in_op op = Some rop -> op_valid (a_in (conn_abs c)) rop ->
  op_refines P a s c op.
Proof.
  intros [Hc (inb & outb & Hi & Ho & [Hin Hal] & Hout) Hm HP] Hcl Hop Hv.
  rewrite /conn_abs Hi /= in Hv. destruct (sim_step P inb (st_world s) rop Hin HP Hv) as (out & rb' & wd' & Hst & Hf & Hok' & HP').
  eapply wp_in_op; [done..|]. exists (with_inbound (Some rb') c). split_and!.
  - split; [by rewrite /= lookup_insert_eq|exists rb', outb|done|done].
    split_and!; try done. split; [done|]. by rewrite /allocated (in_op_vm _ _ _ _ _ _ _ Hop Hst).
  - done.
  - by eexists _, wd', (st_calls s).
  - rewrite /conn_abs /= Ho. eapply (cs_in _ (mkA _ _ _ _)); [done|done|]. by rewrite /= Hi.
Qed.

Lemma op_write P `{!PoolPromise P} a s c bs :
  user_ready P a s c -> c_closed c = false -> op_valid (a_out (conn_abs c)) (OpWrite bs) ->
  op_refines P a s c (UWrite bs).
Proof.
  intros [Hc (inb & outb & Hi & Ho & Hin & [Hout Hal]) Hm HP] Hcl Hv. rewrite /conn_abs Ho in Hv.
  destruct (sim_step P outb (st_world s) (OpWrite bs) Hout HP Hv) as (out & rb' & wd' & Hst & Hf & Hok' & HP').
  apply bind_Ret_inv in Hst as ([[[n err] rb1] wd1] & Hw & Heq). injection Heq as <- <- <-.
  rewrite /op_refines /=. wp_step. eapply wp_guarded; [done..|].
  eapply wp_on_outbound; [done|done|by rewrite Hw|]. wp_steps.
  exists (with_outbound (Some rb1) c). split_and!.
  - split; [by rewrite /= lookup_insert_eq|exists inb, rb1|done|done].
    split_and!; try done. split; [done|]. by eapply Write_allocated.
  - done.
  - by eexists _, wd1, (st_calls s).
  - rewrite /conn_abs /= Hi. eapply (cs_write _ (mkA _ _ _ _) bs (mkOut n [] err)); [done|]. by rewrite /= Ho.
Qed.

Lemma op_sockopt P a s c op :
  user_ready P a s c -> c_closed c = false -> is_sockopt op = true -> op_refines P a s c op.
Proof.
  intros Hr Hcl Hop. have [Hc Hok Hm HP] := Hr.
  have Hdone : forall (f : trace -> option error * trace), (forall tr, tr `prefix_of` (f tr).2) -> exists c',
      user_ready P a (set_calls (f (st_calls s)).2 s) c' /\ same_identity c c' /\
      user_frame a s (set_calls (f (st_calls s)).2 s) /\
      conn_spec (c_network c) (conn_abs c) op (mkRes 0 [] (f (st_calls s)).1) (conn_abs c').
  { intros f Hpre. exists c. split_and!; [by split|done| |by apply cs_sockopt].
    exists c, (st_world s), (f (st_calls s)).2. split; [done|]. by rewrite insert_id. }
  rewrite /op_refines. destruct op; try done; simpl; wp_step; (eapply wp_guarded; [done..|]); wp_steps;
    apply wp_sys_setter; wp_steps; apply (Hdone _); intros tr;
    first [apply sys_prefix|apply SetLinger_prefix|apply SetKeepAlivePeriod_prefix].
Qed.

Lemma op_rejected P a s c op :
  user_ready P a s c -> c_closed c = true -> is_guarded op = true -> op_refines P a s c op.
Proof.
  intros Hr Hcl Hop. have [Hc _ _ _] := Hr. eapply op_pure; [done|by apply cs_rejected|].
  destruct op; try done; simpl; wp_step; (eapply wp_guarded_closed; [done..|]); done.
Qed.

Lemma user_op_refines P `{!PoolPromise P} a s c op :
  user_ready P a s c -> user_valid (conn_abs c) op -> op_refines P a s c op.
Proof.
  intros Hr Hv. destruct Hr as [Hc (inb & outb & Hi & Ho & [Hin Hali] & [Hout Halo]) Hm HP] eqn:Hr0; clear Hr0.
  destruct (is_guarded op) eqn:Hg.
  { destruct (c_closed c) eqn:Hcl; [by apply op_rejected|].
    destruct (is_sockopt op) eqn:Hs; [by apply op_sockopt|].
    destruct op; try discriminate; cbn [user_valid in_op] in Hv;
      [| by apply (op_write P) |..]; (eapply (op_in P); [exact Hr|exact Hcl|reflexivity|exact Hv]). }
  destruct op; try done.
  - destruct (Z.eqb_spec (c_network c) udp) as [Hn|Hn].
    { eapply op_pure; [done|by apply cs_close_udp|]. rewrite /= /conn_Close. wp_steps. by rewrite Hn. }
    destruct (c_closed c) eqn:Hcl.
    + eapply op_pure; [done|by apply cs_close_again|]. rewrite /= /conn_Close. wp_steps.
      destruct (Z.eqb_spec (c_network c) udp); [done|]. by rewrite Hcl.
    + rewrite /op_refines /= /conn_Close. wp_steps. destruct (Z.eqb_spec (c_network c) udp); [done|]. rewrite Hcl.
      wp_steps. exists (with_closed true c). split_and!.
      * split; [by rewrite /= lookup_insert_eq|by exists inb, outb|done|done].
      * done.
      * by eexists _, (st_world s), (st_calls s).
      * have := cs_close (c_network c) (conn_abs c) Hn. rewrite /conn_abs /= Hcl. auto.
  - rewrite /op_refines /= /conn_SetContext. wp_steps. exists (with_ctx ctx c). split_and!.
    + split; [by rewrite /= lookup_insert_eq|by exists inb, outb|done|done].
    + done.
    + by eexists _, (st_world s), (st_calls s).
    + exact (cs_context (c_network c) (conn_abs c) ctx).
  - eapply op_pure; [done|apply cs_inbound|]. rewrite /= /InboundBuffered. wp_steps. eapply wp_deref; [done|]. wp_steps.
    by rewrite /conn_abs /= Hi /= zlen_contents.
  - eapply op_pure; [done|apply cs_outbound|]. rewrite /= /OutboundBuffered. wp_steps. eapply wp_deref; [done|]. wp_steps.
    by rewrite /conn_abs /= Ho /= zlen_contents.
Qed.

Lemma user_frame_trans a s1 s2 s3 : user_frame a s1 s2 -> user_frame a s2 s3 -> user_frame a s1 s3.
Proof.
  intros (c1 & w1 & t1 & Ht1 & ->) (c2 & w2 & t2 & Ht2 & ->). exists c2, w2, t2. split; [by etransitivity|].
  transitivity (set_calls t2 (set_world w2 (set_conns (<[a := c2]> (<[a := c1]> (st_conns s1))) s1))); [reflexivity|].
  have -> : <[a := c2]> (<[a := c1]> (st_conns s1)) = <[a := c2]> (st_conns s1) by apply insert_insert_eq.
  reflexivity.
Qed.

Lemma same_identity_trans c1 c2 c3 : same_identity c1 c2 -> same_identity c2 c3 -> same_identity c1 c3.
Proof. rewrite /same_identity. intros H1 H2. destruct_and!. split_and!; congruence. Qed.

(** An operation in kernel space: it may close the connection or set its context. *)
Lemma kernel_op a s c op :
  st_conns s !! a = Some c -> conn_ok c -> c_mode c <> userSpace ->
  wp (run_op a op) (fun r s' => exists c', s' = set_conns (<[a := c']> (st_conns s)) s /\
    c_inbound c' = c_inbound c /\ c_outbound c' = c_outbound c /\ same_identity c c' /\
    (is_guarded op = true -> c' = c /\ is_Some (res_err r))) s.
Proof.
  intros Hc (inb & outb & Hi & Ho & _) Hm.
  have Hsame : s = set_conns (<[a := c]> (st_conns s)) s by rewrite insert_id //; destruct s.
  destruct (is_guarded op) eqn:Hg.
  - destruct op; try done; simpl; wp_step;
      (destruct (c_closed c) eqn:Hcl; [eapply wp_guarded_closed; [done..|]|eapply wp_guarded_kernel; [done..|]]);
      wp_steps; exists c; (split; [done|]); (split; [done|]); (split; [done|]); (split; [done|]); intros _; (split; [done|]); by eexists.
  - destruct op; try done; simpl; rewrite ?/conn_Close ?/conn_SetContext ?/InboundBuffered ?/OutboundBuffered; wp_steps.
    + destruct (_ =? udp); [wp_steps; by exists c|]. destruct (c_closed c); wp_steps; [by exists c|].
      by exists (with_closed true c).
    + by exists (with_ctx ctx c).
    + eapply wp_deref; [done|]. wp_steps. by exists c.
    + eapply wp_deref; [done|]. wp_steps. by exists c.
Qed.

End ConnProofs.

(** ** Properties *)

(** The runs of a program on the abstract connection, and the programs whose
    operations the buffers can serve. *)
Inductive prog_spec (network : Z) : aconn -> hprog -> aconn -> Prop :=
| ps_ret A : prog_spec network A HRet A
| ps_op A op k r A1 A2 :
    conn_spec network A op r A1 -> prog_spec network A1 (k r) A2 -> prog_spec network A (HOp op k) A2.

Inductive prog_valid (network : Z) : aconn -> hprog -> Prop :=
| pv_ret A : prog_valid network A HRet
| pv_op A op k :
    user_valid A op -> (forall r A1, conn_spec network A op r A1 -> prog_valid network A1 (k r)) ->
    prog_valid network A (HOp op k).

(** The code of a handler, operation by operation. *)
Lemma run_prog_refines {env : Env} P `{!PoolPromise P} a s c prog :
  user_ready P a s c -> prog_valid (c_network c) (conn_abs c) prog ->
  wp (run_prog a prog) (fun _ s' => exists c', user_ready P a s' c' /\ same_identity c c' /\ user_frame a s s' /\
    prog_spec (c_network c) (conn_abs c) prog (conn_abs c')) s.
Proof.
  intros Hr Hv. remember (conn_abs c) as A eqn:HA. remember (c_network c) as net eqn:Hnet. revert s c Hr HA Hnet.
  induction Hv as [A|A op k Hop Hk IH]; intros s c Hr -> ->; simpl.
  - wp_steps. exists c. split_and!; [done|done|by eapply user_frame_refl, Hr|constructor].
  - wp_step. eapply wp_mono; [by apply (user_op_refines P)|]. intros r s1 (c1 & Hr1 & Hid & Hf & Hspec).
    have Hn : c_network c1 = c_network c by apply Hid.
    eapply wp_mono; [by eapply (IH r (conn_abs c1))|].
    intros [] s2 (c2 & Hr2 & Hid2 & Hf2 & Hspec2). exists c2.
    split_and!; [done|by eapply same_identity_trans|by eapply user_frame_trans|by econstructor].
Qed.



(** *** A concrete worker with one connection *)

Definition demo_env : Env := {|
  env_os := linux_x86_64;
  env_kernel := granting;
  sort_Sort := sort_desc;
  anyToSockaddr := fun _ => inl (SockaddrInet4 53 [x7f; x00; x00; x01]);
  InterfaceByIndex := fun _ => None;
  range_order := map_to_list
|}.

Definition demo_conn (mode : Z) : connection :=
  mkConn 7 7 tcp (Some page_buffer) (Some page_buffer) connRead mode false None None None None None noOp.

Definition demo_state (mode : Z) : St :=
  mkSt {[0%nat := demo_conn mode]} 1 NewPool (@NewRingBufferPool linux_x86_64) empty_world NewByteSlicePool [] [] 16 [] []
    (mkManager {[7 := 0%nat]} 1 false ∅ newKeyPool) [] [] (mkVars true [] false false false 0 ∅ None true).

Lemma demo_conn_ok mode : conn_ok (demo_conn mode).
Proof.
  exists page_buffer, page_buffer. split; [done|]. split; [done|].
  split; (split; [right; eexists; apply page_buffer_mapped|by eexists]).
Qed.

Lemma demo_ready : user_ready exact_world 0 (demo_state userSpace) (demo_conn userSpace).
Proof. split; [done|apply demo_conn_ok|done|apply empty_world_exact]. Qed.

Definition write_and_close : hprog := HOp (UWrite [x01; x02]) (fun _ => HOp UClose (fun _ => HRet)).

Lemma page_buffer_contents : contents page_buffer = [].
Proof. done. Qed.


