(* ===== verification/ConnManager.v ===== *)
(** * ConnManager: [conn_manager.go]

    The table of a worker's connections by key: the file descriptor for TCP, a key
    of the key pool for UDP.  Connections come from and go back to the connection
    pool of the process. *)

From S2P Require Import Prelude Errors SyncPool VirtualMem MagicRing RingRefinement RingPool ByteSlicePool.
From S2P Require Import KeyPool LockFreeStack Sockaddr SocketOps GoState Conn ConnSpec.
Local Open Scope Z_scope.

Section Manager.
Context {env : Env}.

Definition mod_mgr (f : connectionManager -> connectionManager) : M () := modify (fun s => set_mgr (f (st_mgr s)) s).

Definition put_conn (key : Z) (a : nat) (m : connectionManager) : connectionManager :=
  mkManager (<[key := a]> (cm_connections m)) (int32 (cm_count m + 1)) (cm_closing m) (cm_releaseFdSet m) (cm_keyPool m).

Definition set_keyPool (p : keyPool) (m : connectionManager) : connectionManager :=
  mkManager (cm_connections m) (cm_count m) (cm_closing m) (cm_releaseFdSet m) p.

Definition set_releaseFdSet (fds : gset Z) (m : connectionManager) : connectionManager :=
  mkManager (cm_connections m) (cm_count m) (cm_closing m) fds (cm_keyPool m).

Definition connectionManager_fork (conn : nat) (write : bool) : M nat :=
  s ← get_state;
  let '(key, p) := keyPool_get (cm_keyPool (st_mgr s)) in
  _ ← mod_mgr (set_keyPool p);
  let key := int64 key in
  forked ← getConnection;
  _ ← conn_fork conn forked key write;
  _ ← mod_mgr (put_conn key forked);
  mret forked.

Definition connectionManager_get (key fd : Z) : M nat :=
  s ← get_state;
  match cm_connections (st_mgr s) !! key with
  | Some conn => mret conn
  | None =>
      conn ← getConnection;
      _ ← store conn (with_fd fd);
      _ ← store conn (with_key key);
      _ ← mod_mgr (put_conn key conn);
      mret conn
  end.

Definition getFd (fd : Z) : M nat := connectionManager_get fd fd.

Definition release (key : Z) : M () :=
  s ← get_state;
  match cm_connections (st_mgr s) !! key with
  | None => mret ()
  | Some conn =>
      _ ← mod_mgr (fun m => mkManager (delete key (cm_connections m)) (int32 (cm_count m - 1)) (cm_closing m)
                              (cm_releaseFdSet m) (cm_keyPool m));
      _ ← putConnection conn;
      _ ← mod_mgr (fun m => set_releaseFdSet (cm_releaseFdSet m ∖ {[key]}) m);
      c ← load conn;
      mod_mgr (fun m => set_keyPool (keyPool_put (cm_keyPool m) (wrap_u 64 (c_key c))) m)
  end.

(** The loop of [close] over the connections. *)
Fixpoint close_loop (callback : nat -> M bool) (fdSkipped : Z) (l : list (Z * nat)) : M () :=
  match l with
  | [] => mret ()
  | (_, value) :: l =>
      c ← load value;
      _ ← (if c_fd c =? fdSkipped then mret ()
           else
             ok ← callback value;
             c ← load value;
             when ok (mod_mgr (fun m => set_releaseFdSet (cm_releaseFdSet m ∪ {[c_fd c]}) m)));
      close_loop callback fdSkipped l
  end.

Definition connectionManager_close (callback : nat -> M bool) (fdSkipped : Z) : M () :=
  _ ← mod_mgr (fun m => mkManager (cm_connections m) (cm_count m) true ∅ (cm_keyPool m));
  s ← get_state;
  close_loop callback fdSkipped (range_order (cm_connections (st_mgr s))).

Definition allClosed (m : connectionManager) : bool := cm_closing m && (size (cm_releaseFdSet m) =? 0)%nat.

Definition mgr_activeConnections (m : connectionManager) : Z := cm_count m.

Definition newConnectionManager : connectionManager := mkManager ∅ 0 false ∅ newKeyPool.

End Manager.

(** ** The invariant *)

(** The laws of the environment. *)
Class EnvLaws (env : Env) (P : World -> Prop) : Prop := {
  law_sort : sort_law sort_Sort;
  law_range m : range_order m ≡ₚ map_to_list m;
  law_sockaddr raw sa : anyToSockaddr raw = inl sa ->
    match sa with
    | SockaddrInet4 _ addr => length addr = 4%nat
    | SockaddrInet6 _ addr z => length addr = 16%nat /\ 0 <= z < 2 ^ 32
    | SockaddrUnix _ => True
    end;
  law_world :: @PoolPromise env_os P
}.

Definition mem_ok (P : World -> Prop) (s : St) : Prop :=
  P (st_world s) /\ ring_pool_ok (st_rings s) /\ slice_pool_ok (st_slices s).

(** A connection in the pool: its buffers are gone and its fields reset. *)
Definition pooled (c : connection) : Prop :=
  c_fd c = 0 /\ c_key c = 0 /\ c_network c = 0 /\ c_state c = connInvalid /\ c_mode c = 0 /\ c_closed c = false /\
  c_msgHdr c = None /\ c_rawSockaddr c = None /\ c_ctx c = None.

Record mgr_ok (P : World -> Prop) (s : St) : Prop := {
  mo_mem : mem_ok P s;
  mo_conn k a : cm_connections (st_mgr s) !! k = Some a -> exists c, st_conns s !! a = Some c /\ conn_ok c /\ c_key c = k;
  mo_pool a : a ∈ internalPool (st_connPool s) -> exists c, st_conns s !! a = Some c /\ pooled c;
  mo_pool_nodup : NoDup (internalPool (st_connPool s));
  mo_disjoint k a : cm_connections (st_mgr s) !! k = Some a -> a ∉ internalPool (st_connPool s);
  mo_new a : is_Some (st_conns s !! a) -> (a < st_new s)%nat;
  mo_count : cm_count (st_mgr s) = int32 (Z.of_nat (size (cm_connections (st_mgr s))));
  mo_keys : exists vs, seq_holds (kp_stack (cm_keyPool (st_mgr s))) vs /\ Forall (eq 0) vs
}.

(** A connection as [getConnection] hands it out. *)
Definition fresh_conn (c : connection) : Prop :=
  pooled c /\ exists inb outb, c_inbound c = Some inb /\ c_outbound c = Some outb /\ clean inb /\ clean outb.

Section ManagerProofs.
Context {env : Env} {P : World -> Prop} `{!EnvLaws env P}.

Lemma wp_ring_get s Q :
  mem_ok P s ->
  (forall rb p wd cs, clean rb -> mem_ok P (set_world wd (set_rings p (set_choices cs s))) ->
     Q rb (set_world wd (set_rings p (set_choices cs s)))) ->
  wp ring_get Q s.
Proof.
  intros (HP & Hr & Hs) HQ. rewrite /ring_get. wp_step. apply wp_next_choice. intros choice. wp_steps.
  destruct (ringPool_Get_ok P choice (st_rings s) (st_world s) Hr HP) as (rb & p & wd & Hget & Hclean & Hp & HP').
  eapply wp_lift; [exact Hget|]. cbn beta iota. wp_steps. by apply HQ.
Qed.

Lemma wp_ring_put s b Q :
  mem_ok P s -> buffer_ok b ->
  (forall p, mem_ok P (set_rings p s) -> Q () (set_rings p s)) -> wp (ring_put (Some b)) Q s.
Proof.
  intros (HP & Hr & Hs) [Hb Hal] HQ. rewrite /ring_put. wp_step. eapply wp_deref; [done|]. wp_steps.
  destruct (ringPool_Put_ok sort_Sort law_sort b (st_rings s) Hb Hal Hr) as (p & Hput & Hp).
  eapply wp_lift; [exact Hput|]. wp_steps. by apply HQ.
Qed.

(** What [getConnection] changes: the pools, the memory and the new connection. *)
Definition alloc_frame (a : nat) (c : connection) (s s' : St) : Prop :=
  exists n p rp wd cs, s' = set_conns (<[a := c]> (st_conns s))
    (set_new n (set_connPool p (set_world wd (set_rings rp (set_choices cs s))))) /\
    (a ∈ internalPool (st_connPool s) \/ a = st_new s) /\
    (st_new s <= n)%nat /\ (a < n)%nat /\
    (forall b, b ∈ internalPool p -> b ∈ internalPool (st_connPool s)) /\ NoDup (internalPool p) /\ a ∉ internalPool p.

Lemma wp_getConnection s Q :
  mgr_ok P s ->
  (forall a c s', alloc_frame a c s s' -> fresh_conn c -> mem_ok P s' -> Q a s') ->
  wp getConnection Q s.
Proof.
  intros Hok HQ. have [Hmem Hconn Hpool Hnd Hdis Hnew Hcount Hkeys] := Hok.
  rewrite /getConnection /connectionPool_Get. wp_step. apply wp_next_choice. intros choice. wp_steps. cbn [st_connPool set_choices].
  destruct (pool_Get choice (st_connPool s)) as [o p] eqn:Hget. destruct o as [a|].
  - have Hperm := pool_Get_Permutation _ _ _ _ Hget.
    have Ha : a ∈ internalPool (st_connPool s) by rewrite Hperm; left.
    have Hnd' : NoDup (a :: internalPool p) by rewrite -Hperm. apply NoDup_cons in Hnd' as [Hnin Hnd'].
    destruct (Hpool a Ha) as (c & Hc & Hpc). wp_steps.
    apply wp_ring_get; [done|]. intros inb rp wd cs Hinb Hmem1. wp_steps.
    apply wp_ring_get; [done|]. intros outb rp2 wd2 cs2 Houtb Hmem2. wp_steps.
    eapply wp_store; [by rewrite /= lookup_insert_eq|]. wp_steps.
    eapply (HQ a (with_outbound (Some outb) (with_inbound (Some inb) c))).
    + exists (st_new s), p, rp2, wd2, cs2. split_and!; try done.
      * by rewrite /set_conns /= insert_insert_eq.
      * by left.
      * apply Hnew. by eexists.
      * intros b Hb. rewrite Hperm. by right.
    + split; [exact Hpc|]. by exists inb, outb.
    + exact Hmem2.
  - have -> := pool_Get_None _ _ _ Hget. wp_steps. rewrite /newConnection.
    wp_step. apply wp_ring_get; [done|]. intros inb rp wd cs Hinb Hmem1.
    wp_step. apply wp_ring_get; [done|]. intros outb rp2 wd2 cs2 Houtb Hmem2.
    wp_step. rewrite {1}/wp /new_address. wp_steps.
    eapply (HQ (st_new s) (mkConn 0 0 0 (Some inb) (Some outb) connInvalid 0 false None None None None None noOp)).
    + exists (S (st_new s)), (st_connPool s), rp2, wd2, cs2. split_and!; try done; [by right|lia|lia|].
      intros Hin. destruct (Hpool _ Hin) as (c & Hc & _). have := Hnew (st_new s) ltac:(by eexists). lia.
    + split; [done|]. by exists inb, outb.
    + exact Hmem2.
Qed.

(** What the manager never touches. *)
Definition io_frame (s s' : St) : Prop :=
  st_sq s' = st_sq s /\ st_sq_size s' = st_sq_size s /\ st_calls s' = st_calls s /\ st_log s' = st_log s /\
  st_asyncQueue s' = st_asyncQueue s /\ st_asyncJobs s' = st_asyncJobs s /\ st_worker s' = st_worker s.

(** The manager after a new connection [a] was entered under a free key. *)
Lemma mgr_ok_enter s s1 a c0 c key :
  mgr_ok P s -> alloc_frame a c0 s s1 -> mem_ok P s1 -> cm_connections (st_mgr s) !! key = None ->
  conn_ok c -> c_key c = key ->
  mgr_ok P (set_mgr (put_conn key a (st_mgr s)) (set_conns (<[a := c]> (st_conns s1)) s1)).
Proof.
  intros [Hmem Hconn Hpool Hnd Hdis Hnew Hcount Hkeys] (n & p & rp & wd & cs & -> & Ha & Hn & Han & Hp & Hnd' & Hnin)
    Hmem1 Hfree Hc Hk.
  have Hmap : <[a := c]> (<[a := c0]> (st_conns s)) = <[a := c]> (st_conns s) by apply insert_insert_eq.
  have Hfreshk k b : cm_connections (st_mgr s) !! k = Some b -> b <> a.
  { intros Hb ->. destruct Ha as [Ha|Ha]; [by eapply Hdis|].
    destruct (Hconn _ _ Hb) as (c' & Hc' & _). have := Hnew a ltac:(by eexists). lia. }
  split; cbn [st_mgr set_mgr set_conns set_new set_connPool set_world set_rings set_choices st_conns st_connPool st_new
              cm_connections cm_count cm_keyPool put_conn]; rewrite ?Hmap.
  - exact Hmem1.
  - intros k b [[<- <-]|[Hne Hb]]%lookup_insert_Some; [exists c; by rewrite lookup_insert_eq|].
    destruct (Hconn _ _ Hb) as (c' & Hc' & Hok'). exists c'. rewrite lookup_insert_ne //. by apply not_eq_sym, (Hfreshk k).
  - intros b Hb. have Hne : a <> b by intros ->. rewrite lookup_insert_ne //. by apply Hpool, Hp.
  - exact Hnd'.
  - intros k b [[<- <-]|[Hne Hb]]%lookup_insert_Some; [done|]. intros Hin. by eapply Hdis, Hp.
  - intros b [c' [[<- _]|[_ Hb]]%lookup_insert_Some]; [done|]. have := Hnew b ltac:(by eexists). lia.
  - rewrite map_size_insert_None // Hcount wrap_s_add. f_equal. lia.
  - exact Hkeys.
Qed.

(** [get] of a known key. *)
Lemma wp_get_known s key fd a Q :
  cm_connections (st_mgr s) !! key = Some a -> Q a s -> wp (connectionManager_get key fd) Q s.
Proof. intros Ha HQ. rewrite /connectionManager_get. wp_steps. rewrite Ha. by wp_steps. Qed.

(** [get] of a new key: the connection comes clean from the pool. *)
Definition entered (key fd : Z) (a : nat) (s s' : St) : Prop :=
  mgr_ok P s' /\ io_frame s s' /\ (forall b, b <> a -> st_conns s' !! b = st_conns s !! b) /\
  (forall k, cm_connections (st_mgr s) !! k <> Some a) /\
  cm_connections (st_mgr s') = <[key := a]> (cm_connections (st_mgr s)) /\
  cm_closing (st_mgr s') = cm_closing (st_mgr s) /\ cm_releaseFdSet (st_mgr s') = cm_releaseFdSet (st_mgr s) /\
  cm_keyPool (st_mgr s') = cm_keyPool (st_mgr s) /\
  exists c, st_conns s' !! a = Some (with_key key (with_fd fd c)) /\ fresh_conn c.

Lemma fresh_conn_ok c : fresh_conn c -> conn_ok c.
Proof. intros (_ & inb & outb & Hi & Ho & (Hci & _ & Hai & _) & (Hco & _ & Hao & _)). by exists inb, outb. Qed.

Lemma alloc_frame_new s s1 a c k : mgr_ok P s -> alloc_frame a c s s1 -> cm_connections (st_mgr s) !! k <> Some a.
Proof.
  intros Hok (n & p & rp & wd & cs & _ & Ha & _) Hk. destruct Ha as [Ha|Ha]; [by eapply (mo_disjoint _ _ Hok)|].
  destruct (mo_conn _ _ Hok _ _ Hk) as (c' & Hc' & _). have := mo_new _ _ Hok a ltac:(by eexists). lia.
Qed.

Lemma wp_get_new s key fd Q :
  mgr_ok P s -> cm_connections (st_mgr s) !! key = None ->
  (forall a s', entered key fd a s s' -> Q a s') -> wp (connectionManager_get key fd) Q s.
Proof.
  intros Hok Hfree HQ. rewrite /connectionManager_get. wp_steps. rewrite Hfree. wp_steps.
  apply wp_getConnection; [done|]. intros a c s1 Hfr Hfresh Hmem1.
  have Hnk k := alloc_frame_new s s1 a c k Hok Hfr.
  have Hs1 := Hfr. destruct Hs1 as (n & p & rp & wd & cs & Hs1 & _).
  have Hc1 : st_conns s1 !! a = Some c by rewrite Hs1 /= lookup_insert_eq.
  have Hm1 : st_mgr s1 = st_mgr s by rewrite Hs1.
  wp_steps. eapply wp_store; [by rewrite /= lookup_insert_eq|]. rewrite /mod_mgr. wp_steps. apply HQ.
  set (c2 := with_key key (with_fd fd c)).
  have Heq : <[a := c2]> (<[a := with_fd fd c]> (st_conns s1)) = <[a := c2]> (st_conns s1) by apply insert_insert_eq.
  have Hok' := mgr_ok_enter s s1 a c c2 key Hok Hfr Hmem1 Hfree (fresh_conn_ok c Hfresh) eq_refl.
  rewrite /entered. cbn [st_mgr set_mgr set_conns st_conns]. rewrite Heq Hm1. split_and!; try done.
  - by rewrite Hs1.
  - intros b Hb. rewrite lookup_insert_ne // Hs1 /= lookup_insert_ne //.
  - exists c. by rewrite lookup_insert_eq.
Qed.

(** A connection as [putConnection] leaves it: reset, its addresses kept. *)
Definition reset_conn (c : connection) : connection :=
  with_ctx None (with_network 0 (with_closed false (with_mode 0 (with_rawSockaddr None (with_msgHdr None
    (with_state connInvalid (with_key 0 (with_fd 0 (with_outbound None (with_inbound None c)))))))))).

Lemma wp_putConnection s a c Q :
  mem_ok P s -> st_conns s !! a = Some c -> conn_ok c ->
  (forall rp, mem_ok P (set_rings rp s) ->
     Q () (set_connPool (pool_Put a (st_connPool s)) (set_conns (<[a := reset_conn c]> (st_conns s)) (set_rings rp s)))) ->
  wp (putConnection a) Q s.
Proof.
  intros Hmem Hc (inb & outb & Hi & Ho & Hib & Hob) HQ. rewrite /putConnection /connectionPool_Put. wp_steps.
  rewrite Hi Ho. apply wp_ring_put; [done..|]. intros p1 Hmem1. wp_steps.
  apply wp_ring_put; [done..|]. intros p2 Hmem2. wp_steps. apply (HQ p2). exact Hmem2.
Qed.

(** The manager after [release] of a known key. *)
Definition left_table (key : Z) (a : nat) (s s' : St) : Prop :=
  mgr_ok P s' /\ io_frame s s' /\ (forall b, b <> a -> st_conns s' !! b = st_conns s !! b) /\
  (reset_conn <$> st_conns s !! a) = st_conns s' !! a /\ a ∈ internalPool (st_connPool s') /\
  cm_connections (st_mgr s') = delete key (cm_connections (st_mgr s)) /\
  cm_closing (st_mgr s') = cm_closing (st_mgr s) /\
  cm_releaseFdSet (st_mgr s') = cm_releaseFdSet (st_mgr s) ∖ {[key]} /\
  cm_keyPool (st_mgr s') = keyPool_put (cm_keyPool (st_mgr s)) 0.

Lemma wp_release_known s key a Q :
  mgr_ok P s -> cm_connections (st_mgr s) !! key = Some a ->
  (forall s', left_table key a s s' -> Q () s') -> wp (release key) Q s.
Proof.
  intros Hok Ha HQ. have [Hmem Hconn Hpool Hnd Hdis Hnew Hcount Hkeys] := Hok.
  destruct (Hconn _ _ Ha) as (c & Hc & Hcok & Hck).
  rewrite /release /mod_mgr. wp_steps. rewrite Ha. wp_steps.
  eapply wp_putConnection; [exact Hmem|exact Hc|done|]. intros rp Hmem1. wp_steps.
  eapply wp_load; [by rewrite /= lookup_insert_eq|]. cbn beta. wp_steps. apply HQ.
  change (wrap_u 64 (c_key (reset_conn c))) with 0.
  split; [|split_and!; try done].
  2:{ intros b Hb. by rewrite /= lookup_insert_ne. }
  2:{ by rewrite /= Hc lookup_insert_eq. }
  2:{ by left. }
  split; cbn [st_mgr set_mgr set_conns set_connPool set_rings st_conns st_connPool st_new
              cm_connections cm_count cm_keyPool set_releaseFdSet set_keyPool pool_Put internalPool].
  - exact Hmem1.
  - intros k b [Hne Hb]%lookup_delete_Some. destruct (Hconn _ _ Hb) as (c' & Hc' & Hok' & Hk'). exists c'.
    rewrite lookup_insert_ne //. intros ->. apply Hne. congruence.
  - intros b [->|Hb]%elem_of_cons; [by exists (reset_conn c); rewrite lookup_insert_eq|].
    rewrite lookup_insert_ne; [|by apply Hpool]. intros ->. by eapply Hdis.
  - apply NoDup_cons. split; [by eapply Hdis|done].
  - intros k b [Hne Hb]%lookup_delete_Some [->|Hin]%elem_of_cons; [|by eapply Hdis].
    destruct (Hconn _ _ Hb) as (c' & Hc' & _ & Hk'). apply Hne. congruence.
  - intros b [c' [[<- _]|[_ Hb]]%lookup_insert_Some]; apply Hnew; by eexists.
  - rewrite map_size_delete_Some; [by eexists|]. rewrite Hcount /Z.sub wrap_s_add. f_equal.
    have : size (cm_connections (st_mgr s)) <> 0%nat by apply (map_size_ne_0_lookup_2 _ key); eexists. lia.
  - destruct Hkeys as (vs & Hvs & Hall). exists (0 :: vs). split; [by apply seq_Push_ok|]. by constructor.
Qed.

Lemma wp_release_unknown s key Q : cm_connections (st_mgr s) !! key = None -> Q () s -> wp (release key) Q s.
Proof. intros Hk HQ. rewrite /release. wp_steps. rewrite Hk. by wp_steps. Qed.

(** *** [fork] *)

Lemma buffer_addresses rb :
  buffer_ok rb -> RingBuffer_WriteAddress rb = Ret (rb_w rb) /\ RingBuffer_ReadAddress rb = Ret (rb_r rb).
Proof.
  intros [Hok Hal]. destruct (allocated_mapped rb Hok Hal) as [vm Hm]. have Hlen := mapped_len _ _ Hm.
  destruct Hm as [Hvm Hvok Hsz Hr Hw _].
  have Hidx i : 0 <= i < rb_Size rb -> exists b, go_index (vm_Buf vm) i = Ret b.
  { intros Hi. destruct (lookup_lt_is_Some_2 (vm_Buf vm) (Z.to_nat i)) as [b Hb].
    - rewrite /vm_Buf length_app. lia.
    - exists b. by apply go_index_ok; [lia|]. }
  destruct (Hidx _ Hw) as [bw Hbw], (Hidx _ Hr) as [br Hbr].
  by rewrite /RingBuffer_WriteAddress /RingBuffer_ReadAddress /rb_Buf Hvm /= Hbw Hbr.
Qed.

(** The address [SockaddrToUDPAddr] finds in the raw bytes the kernel wrote. *)
Definition sender_addr (raw : list byte) (old : option NetAddr) : option NetAddr :=
  match anyToSockaddr raw with
  | inl (SockaddrInet4 port addr) => Some (UDPAddr (ipv4InIPv6Prefix ++ addr) port "")
  | inl (SockaddrInet6 port addr z) =>
      Some (UDPAddr addr port (if z =? 0 then "" else default (pretty (Z.to_N z)) (InterfaceByIndex z)))
  | inl (SockaddrUnix _) => None
  | inr _ => old
  end.

Lemma SockaddrToUDPAddr_value c1 c2 raw sa old ps :
  slice_pool_ok ps -> anyToSockaddr raw = inl sa ->
  exists ps', SockaddrToUDPAddr InterfaceByIndex c1 c2 sa ps = Ret (sender_addr raw old, ps') /\ slice_pool_ok ps'.
Proof.
  intros Hok Hsa. pose proof (law_sockaddr (P := P) raw sa Hsa) as Hlaw. rewrite /sender_addr Hsa.
  destruct sa as [port addr|port addr z|name]; cbn [SockaddrToUDPAddr].
  - destruct (sockaddrInet4ToIP_ok c1 addr ps Hok Hlaw) as (ps' & -> & Hok'). by exists ps'.
  - destruct Hlaw as [Hl Hz].
    destruct (sockaddrInet6ToIPAndZone_ok InterfaceByIndex c1 c2 addr z ps Hok Hl Hz) as (ps' & -> & Hok'). by exists ps'.
  - by exists ps.
Qed.

(** The receive header [initMsgHeader] builds. *)
Definition recv_ready (c : connection) : connection :=
  with_rawSockaddr (Some []) (with_msgHdr (match c_inbound c with
    | Some inb => Some (mkMsghdr Inbound (rb_w inb) (RingBuffer_Cap inb)) | None => None end) c).

Lemma wp_initMsgHeader s a c Q :
  mem_ok P s -> st_conns s !! a = Some c -> conn_ok c ->
  (forall ps cs, mem_ok P (set_slices ps (set_choices cs s)) ->
     Q () (set_conns (<[a := recv_ready c]> (st_conns s)) (set_slices ps (set_choices cs s)))) ->
  wp (initMsgHeader a) Q s.
Proof.
  intros (HP & Hr & Hs) Hc (inb & outb & Hi & Ho & Hin & Hout) HQ. destruct (buffer_addresses inb Hin) as [Hw _].
  rewrite /initMsgHeader /inboundWriteAddress. wp_steps. eapply wp_deref; [done|]. eapply wp_lift; [done|]. wp_steps.
  eapply wp_deref; [done|]. wp_steps. apply wp_next_choice. intros choice. wp_steps.
  destruct (byteslice_Get_ok choice msgControlBufferSize (st_slices s) Hs) as (ctl & ps & Hget & Hps & Hctl & Hlen); [done|].
  eapply wp_lift; [exact Hget|]. cbn beta iota. wp_steps. eapply wp_deref; [done|]. wp_steps.
  have Hz := slice_bytes_len ctl Hctl. rewrite Hlen /msgControlBufferSize /zlen in Hz.
  destruct (lookup_lt_is_Some_2 (slice_bytes ctl) 0) as [b Hb]; [lia|].
  eapply wp_lift; [by apply go_index_ok|]. wp_steps. eapply wp_store; [by rewrite /= lookup_insert_eq|].
  have Heq : recv_ready c = with_rawSockaddr (Some []) (with_msgHdr (Some (mkMsghdr Inbound (rb_w inb) (RingBuffer_Cap inb))) c).
  { by rewrite /recv_ready Hi. }
  rewrite -Heq. have HQ1 := HQ ps (tail (st_choices s)) ltac:(by split_and!).
  rewrite /set_conns /= insert_insert_eq. exact HQ1.
Qed.

(** The connection that takes over the datagram, and the listening one after it. *)
Definition take_over (c n : connection) (raw : list byte) (key : Z) (write : bool) : connection :=
  let n := with_network udp (with_key key (with_fd (c_fd c) (with_state (c_state c)
             (with_rawSockaddr (c_rawSockaddr c) (with_msgHdr (c_msgHdr c)
               (with_outbound (c_outbound c) (with_inbound (c_inbound c) n))))))) in
  let n := with_remoteAddr (sender_addr raw (c_remoteAddr n)) n in
  if write then
    with_msgHdr (match c_outbound c with
      | Some outb => Some (mkMsghdr Outbound (rb_r outb) (RingBuffer_Buffered outb)) | None => None end) n
  else n.

Definition listening (c : connection) (inb outb : RingBuffer) : connection :=
  recv_ready (with_outbound (Some outb) (with_inbound (Some inb) c)).

Lemma wp_setMsgHeaderWrite s a c outb Q :
  st_conns s !! a = Some c -> c_outbound c = Some outb -> buffer_ok outb -> is_Some (c_msgHdr c) ->
  Q () (set_conns (<[a := with_msgHdr (Some (mkMsghdr Outbound (rb_r outb) (RingBuffer_Buffered outb))) c]> (st_conns s)) s) ->
  wp (setMsgHeaderWrite a) Q s.
Proof.
  intros Hc Ho Hok [h Hh] HQ. destruct (buffer_addresses outb Hok) as [_ Hr].
  rewrite /setMsgHeaderWrite /outboundReadAddress /OutboundBuffered. wp_steps. eapply wp_deref; [done|]. wp_steps.
  eapply wp_deref; [done|]. eapply wp_lift; [done|]. wp_steps. eapply wp_deref; [done|]. by wp_steps.
Qed.

Lemma wp_decode_sender s new n raw Q :
  mem_ok P s -> st_conns s !! new = Some n ->
  (forall ps cs, mem_ok P (set_slices ps (set_choices cs s)) ->
     Q () (set_conns (<[new := with_remoteAddr (sender_addr raw (c_remoteAddr n)) n]> (st_conns s))
            (set_slices ps (set_choices cs s)))) ->
  wp (match anyToSockaddr raw with
      | inl sa =>
          c1 ← next_choice;
          c2 ← next_choice;
          s ← get_state;
          '(addr, ps) ← lift (SockaddrToUDPAddr InterfaceByIndex c1 c2 sa (st_slices s));
          _ ← modify (set_slices ps);
          store new (with_remoteAddr addr)
      | inr _ => mret ()
      end) Q s.
Proof.
  intros (HP & Hr & Hs) Hn HQ. destruct (anyToSockaddr raw) as [sa|e] eqn:Hsa.
  - wp_step. apply wp_next_choice. intros c1. wp_step. apply wp_next_choice. intros c2. wp_steps.
    destruct (SockaddrToUDPAddr_value c1 c2 raw sa (c_remoteAddr n) (st_slices s) Hs Hsa) as (ps & Hval & Hps).
    eapply wp_lift; [exact Hval|]. cbn beta iota. wp_steps. apply (HQ ps (tail (tail (st_choices s)))). by split_and!.
  - wp_steps. have HQ1 := HQ (st_slices s) (st_choices s) ltac:(by split_and!). move: HQ1.
    have -> : with_remoteAddr (sender_addr raw (c_remoteAddr n)) n = n by rewrite /sender_addr Hsa; destruct n.
    rewrite insert_id //. by destruct s.
Qed.

Definition fork_mem (wd : World) (rp : ringPool) (ps : slicePool) (cs : list (option nat)) (s : St) : St :=
  set_world wd (set_rings rp (set_slices ps (set_choices cs s))).

Lemma wp_conn_fork s a new c n raw key write Q :
  mem_ok P s -> a <> new -> st_conns s !! a = Some c -> st_conns s !! new = Some n -> conn_ok c ->
  c_rawSockaddr c = Some raw -> is_Some (c_msgHdr c) ->
  (forall inb outb wd rp ps cs, clean inb -> clean outb -> mem_ok P (fork_mem wd rp ps cs s) ->
     Q () (set_conns (<[a := listening c inb outb]> (<[new := take_over c n raw key write]> (st_conns s)))
             (fork_mem wd rp ps cs s))) ->
  wp (conn_fork a new key write) Q s.
Proof.
  intros Hmem Hne Hc Hn (inb & outb & Hi & Ho & Hin & Hout) Hraw Hh HQ. rewrite /conn_fork. wp_steps.
  eapply wp_deref; [exact Hraw|]. wp_steps.
  set (n1 := with_network udp _). eapply (wp_decode_sender _ new n1); [done|by rewrite /= lookup_insert_eq|].
  intros ps cs Hmem1. wp_steps. set (n2 := with_remoteAddr _ n1).
  have Hwrite : wp (when write (setMsgHeaderWrite new)) (fun _ s' => s' =
      set_conns (<[new := take_over c n raw key write]> (st_conns s)) (set_slices ps (set_choices cs s)))
      (set_conns (<[new := n2]> (<[new := n1]> (st_conns s))) (set_slices ps (set_choices cs s))).
  { rewrite /when /take_over Ho. destruct write.
    - eapply (wp_setMsgHeaderWrite _ new n2 outb); [by rewrite /= lookup_insert_eq|done|done|done|].
      cbn [st_conns set_conns]. rewrite !insert_insert_eq /n2 /n1 Ho. reflexivity.
    - wp_steps. rewrite insert_insert_eq /n2 /n1 Ho. reflexivity. }
  eapply wp_mono; [exact Hwrite|]. intros [] s' ->. clear Hwrite. cbn beta. wp_step.
  apply wp_ring_get; [exact Hmem1|]. intros inb' rp1 wd1 cs1 Hinb' Hmem2. wp_steps.
  eapply wp_store; [by rewrite /= lookup_insert_ne //|]. wp_steps.
  apply wp_ring_get; [exact Hmem2|]. intros outb' rp2 wd2 cs2 Houtb' Hmem3. wp_steps.
  eapply wp_store; [by rewrite /= lookup_insert_eq|].
  destruct Hinb' as (Hb1 & ? & Hb2 & ?), Houtb' as (Hb3 & ? & Hb4 & ?).
  eapply wp_initMsgHeader; [exact Hmem3|by rewrite /= lookup_insert_eq|by exists inb', outb'|].
  intros ps2 cs3 Hmem4. have HQ1 := HQ inb' outb' wd2 rp2 ps2 cs3 ltac:(done) ltac:(done) Hmem4. move: HQ1.
  rewrite /listening. set (cm := recv_ready _). cbn [st_conns set_conns set_slices set_choices set_rings set_world].
  by rewrite !insert_insert_eq.
Qed.

(** The stack of returned keys holds only zeros, so every key is a fresh number. *)
Lemma keyPool_get_fresh (p : keyPool (api := lock_free_stack_api 0)) vs :
  seq_holds (kp_stack p) vs -> Forall (eq 0) vs -> 0 <= kp_nextKey p < 2 ^ 64 - 1 ->
  exists p', keyPool_get p = (kp_nextKey p, p') /\ kp_nextKey p' = kp_nextKey p + 1 /\
    exists vs', seq_holds (kp_stack p') vs' /\ Forall (eq 0) vs'.
Proof.
  intros Hvs H0 Hn. rewrite /keyPool_get /keyPool_pop.
  destruct (stk_Pop_ok (StackApi := lock_free_stack_api 0) _ _ Hvs) as [Hkey Hrest].
  destruct (stk_Pop (kp_stack p)) as [key st]. simpl in Hkey, Hrest.
  have -> : key = 0 by destruct vs as [|v vs]; [done|]; inversion H0; congruence.
  rewrite /= /keyPool_fresh /= !wrap_u_small; [lia..|]. eexists. split; [f_equal; lia|].
  split; [done|]. exists (tail vs). split; [done|]. by destruct H0.
Qed.

Lemma mgr_ok_keyPool s p :
  mgr_ok P s -> (exists vs, seq_holds (kp_stack p) vs /\ Forall (eq 0) vs) ->
  mgr_ok P (set_mgr (set_keyPool p (st_mgr s)) s).
Proof. intros [Hmem Hconn Hpool Hnd Hdis Hnew Hcount _] Hp. by split. Qed.

(** A managed connection that changes in place. *)
Lemma mgr_ok_update s s' k a c c' :
  mgr_ok P s -> cm_connections (st_mgr s) !! k = Some a -> st_conns s !! a = Some c ->
  st_conns s' = <[a := c']> (st_conns s) -> conn_ok c' -> c_key c' = c_key c ->
  st_mgr s' = st_mgr s -> st_connPool s' = st_connPool s -> st_new s' = st_new s -> mem_ok P s' -> mgr_ok P s'.
Proof.
  intros [Hmem Hconn Hpool Hnd Hdis Hnew Hcount Hkeys] Ha Hc Hcs Hok Hkey Hm Hcp Hnw Hmem'.
  destruct (Hconn _ _ Ha) as (c0 & Hc0 & _ & Hk0). simplify_eq.
  split; rewrite ?Hm ?Hcp ?Hnw ?Hcs; try done.
  - intros k b Hb. destruct (decide (b = a)) as [->|Hne].
    + exists c'. rewrite lookup_insert_eq. split; [done|]. split; [done|].
      destruct (Hconn _ _ Hb) as (c1 & Hc1 & _ & Hk1). congruence.
    + rewrite lookup_insert_ne; [done|]. by apply Hconn.
  - intros b Hb. rewrite lookup_insert_ne; [|by apply Hpool]. intros ->. by eapply Hdis.
  - intros b [c1 [[<- _]|[_ Hb]]%lookup_insert_Some]; apply Hnew; by eexists.
Qed.

(** The keys of a datagram worker: 1 and the numbers the key pool has given out. *)
Definition keys_below (m : connectionManager) : Prop :=
  2 <= kp_nextKey (cm_keyPool m) < 2 ^ 63 /\
  forall k, is_Some (cm_connections m !! k) -> 0 < k < kp_nextKey (cm_keyPool m).

Definition forked_from (k0 : Z) (a : nat) (c : connection) (raw : list byte) (write : bool) (new : nat) (s s' : St) : Prop :=
  let key := kp_nextKey (cm_keyPool (st_mgr s)) in
  mgr_ok P s' /\ io_frame s s' /\ a <> new /\ (forall b, b <> a -> b <> new -> st_conns s' !! b = st_conns s !! b) /\
  (forall k, cm_connections (st_mgr s) !! k <> Some new) /\
  cm_connections (st_mgr s') = <[key := new]> (cm_connections (st_mgr s)) /\
  cm_closing (st_mgr s') = cm_closing (st_mgr s) /\ cm_releaseFdSet (st_mgr s') = cm_releaseFdSet (st_mgr s) /\
  kp_nextKey (cm_keyPool (st_mgr s')) = key + 1 /\
  exists n inb outb, fresh_conn n /\ st_conns s' !! new = Some (take_over c n raw key write) /\
    st_conns s' !! a = Some (listening c inb outb) /\ clean inb /\ clean outb.

Lemma take_over_ok c n raw key write : conn_ok c -> conn_ok (take_over c n raw key write).
Proof. intros (inb & outb & Hi & Ho & Hin & Hout). exists inb, outb. rewrite /take_over Ho. by destruct write. Qed.

Lemma clean_buffer_ok rb : clean rb -> buffer_ok rb.
Proof. by intros (? & _ & ? & _). Qed.

Lemma wp_fork s k0 a c raw write Q :
  mgr_ok P s -> keys_below (st_mgr s) -> cm_connections (st_mgr s) !! k0 = Some a -> st_conns s !! a = Some c ->
  c_rawSockaddr c = Some raw -> is_Some (c_msgHdr c) ->
  (forall new s', forked_from k0 a c raw write new s s' -> Q new s') -> wp (connectionManager_fork a write) Q s.
Proof.
  intros Hok [Hnext Hbelow] Ha Hc Hraw Hh HQ. rewrite /connectionManager_fork /mod_mgr. wp_steps.
  destruct (mo_keys _ _ Hok) as (vs & Hvs & H0).
  destruct (keyPool_get_fresh _ _ Hvs H0) as (p & -> & Hp & Hp0); [lia|]. wp_steps.
  set (key := kp_nextKey (cm_keyPool (st_mgr s))) in *.
  have Hfree : cm_connections (st_mgr s) !! key = None.
  { destruct (cm_connections (st_mgr s) !! key) eqn:Hk; [|done]. have := Hbelow key ltac:(by eexists). lia. }
  rewrite (wrap_s_small 64 key); [lia..|]. set (s0 := set_mgr _ s). have Hok0 : mgr_ok P s0 by apply mgr_ok_keyPool.
  apply wp_getConnection; [done|]. intros new n s1 Hfr Hfresh Hmem1.
  have Hnk k := alloc_frame_new s0 s1 new n k Hok0 Hfr.
  have Hs1 := Hfr. destruct Hs1 as (nw & pl & rp & wd & cs & Hs1 & _).
  have Hane : a <> new by intros ->; apply (Hnk k0).
  destruct (mo_conn _ _ Hok _ _ Ha) as (c0 & Hc0 & Hcok & Hck).
  have Heq0 : c0 = c by congruence. rewrite Heq0 in Hcok Hck. clear c0 Hc0 Heq0. rewrite -Hck in Ha.
  have Hn1 : st_conns s1 !! new = Some n by rewrite Hs1 /= lookup_insert_eq.
  have Hc1 : st_conns s1 !! a = Some c by rewrite Hs1 /= lookup_insert_ne.
  wp_steps. apply (wp_conn_fork s1 a new c n raw (kp_nextKey (cm_keyPool (st_mgr s))) write); [done..|].
  intros inb outb wd2 rp2 ps2 cs2 Hinb Houtb Hmem2. wp_steps. apply HQ.
  have Hm1 : st_mgr s1 = st_mgr s0 by rewrite Hs1.
  have Hent := mgr_ok_enter s0 s1 new n (take_over c n raw key write) key Hok0 Hfr Hmem1 Hfree
                 (take_over_ok c n raw key write Hcok) ltac:(by rewrite /take_over; destruct write).
  rewrite /forked_from -/key. cbn [st_mgr set_mgr set_conns fork_mem set_world set_rings set_slices set_choices st_conns].
  rewrite Hm1. split_and!; try done.
  - eapply (mgr_ok_update _ _ (c_key c) a c (listening c inb outb)); [exact Hent|..|exact Hmem2]; try done.
    + rewrite /= lookup_insert_ne //. intros Heq. have := Hbelow (c_key c) ltac:(by eexists). lia.
    + by rewrite /= lookup_insert_ne.
    + exists inb, outb. split_and!; try done; by apply clean_buffer_ok.
  - by rewrite Hs1.
  - intros b Hb1 Hb2. rewrite !lookup_insert_ne // Hs1 /= lookup_insert_ne //.
  - exists n, inb, outb. split_and!; try done; [by rewrite lookup_insert_ne // lookup_insert_eq|by rewrite lookup_insert_eq].
Qed.

End ManagerProofs.

(** ** Properties *)

(** The calls a worker makes for its connections. *)
Inductive mgr_op : Type := MGet (key fd : Z) | MRelease (key : Z).

Fixpoint run_mgr_ops {env : Env} (ops : list mgr_op) : M () :=
  match ops with
  | [] => mret ()
  | MGet key fd :: ops => _ ← connectionManager_get key fd; run_mgr_ops ops
  | MRelease key :: ops => _ ← release key; run_mgr_ops ops
  end.

(** The table a worker relies on: a set of keys. *)
Definition table_step (keys : gset Z) (op : mgr_op) : gset Z :=
  match op with MGet key _ => {[key]} ∪ keys | MRelease key => keys ∖ {[key]} end.

Lemma mgr_ok_new P vars choices sq_size wd conns pool :
  P wd -> conns = ∅ -> internalPool pool = [] -> forall (os : Os),
  mgr_ok P (mkSt conns 0 pool (@NewRingBufferPool os) wd NewByteSlicePool choices [] sq_size [] [] newConnectionManager [] [] vars).
Proof.
  intros HP -> Hpool os. split; simpl; try done.
  - split_and!; [done|apply new_ring_pool_ok|apply slice_pool_new].
  - intros a. rewrite Hpool. by intros ?%not_elem_of_nil.
  - rewrite Hpool. constructor.
  - intros a [c Hc]. by rewrite lookup_empty in Hc.
  - exists []. split; [apply seq_new_ok|constructor].
Qed.

Lemma run_mgr_ops_ok {env : Env} P `{!EnvLaws env P} ops s :
  mgr_ok P s ->
  wp (run_mgr_ops ops) (fun _ s' => mgr_ok P s' /\ io_frame s s' /\
    dom (cm_connections (st_mgr s')) = foldl table_step (dom (cm_connections (st_mgr s))) ops) s.
Proof.
  revert s. induction ops as [|[key fd|key] ops IH]; intros s Hok; simpl; [by wp_steps|..]; wp_step.
  - destruct (cm_connections (st_mgr s) !! key) as [a|] eqn:Hk.
    + eapply wp_get_known; [done|]. cbn beta. eapply wp_mono; [by apply IH|]. intros _ s' (Hok' & Hf & Hd).
      split; [done|]. split; [done|]. rewrite Hd. f_equal. have : key ∈ dom (cm_connections (st_mgr s)) by apply elem_of_dom.
      set_solver.
    + eapply (wp_get_new (P := P)); [done..|]. intros a s1 (Hok1 & Hf1 & _ & _ & Hm1 & _).
      eapply wp_mono; [by apply IH|]. intros _ s' (Hok' & Hf & Hd). split; [done|]. split.
      * destruct Hf1 as (? & ? & ? & ? & ? & ? & ?), Hf as (? & ? & ? & ? & ? & ? & ?). split_and!; congruence.
      * by rewrite Hd Hm1 dom_insert_L.
  - destruct (cm_connections (st_mgr s) !! key) as [a|] eqn:Hk.
    + eapply (wp_release_known (P := P)); [done..|]. intros s1 (Hok1 & Hf1 & _ & _ & _ & Hm1 & _).
      eapply wp_mono; [by apply IH|]. intros _ s' (Hok' & Hf & Hd). split; [done|]. split.
      * destruct Hf1 as (? & ? & ? & ? & ? & ? & ?), Hf as (? & ? & ? & ? & ? & ? & ?). split_and!; congruence.
      * by rewrite Hd Hm1 dom_delete_L.
    + eapply wp_release_unknown; [done|]. cbn beta. eapply wp_mono; [by apply IH|]. intros _ s' (Hok' & Hf & Hd).
      split; [done|]. split; [done|]. rewrite Hd. f_equal.
      have : key ∉ dom (cm_connections (st_mgr s)) by apply not_elem_of_dom. set_solver.
Qed.

(** C11. The connection manager is a table of connections: no sequence of [get] and
    [release] panics, afterwards exactly the expected keys are present, the counter
    is their number, every entry is a connection of its own with both buffers in
    place and its key, and no connection is both in the table and in the pool. *)
Theorem manager_refines_table {env : Env} P `{!EnvLaws env P} ops s :
  mgr_ok P s ->
  wp (run_mgr_ops ops) (fun _ s' =>
    dom (cm_connections (st_mgr s')) = foldl table_step (dom (cm_connections (st_mgr s))) ops /\
    mgr_activeConnections (st_mgr s') = int32 (Z.of_nat (size (dom (cm_connections (st_mgr s'))))) /\
    (forall k a, cm_connections (st_mgr s') !! k = Some a ->
       a ∉ internalPool (st_connPool s') /\
       (exists c, st_conns s' !! a = Some c /\ conn_ok c /\ c_key c = k) /\
       forall k', cm_connections (st_mgr s') !! k' = Some a -> k' = k)) s.
Proof.
  intros Hok. eapply wp_mono; [by apply (run_mgr_ops_ok P)|]. intros _ s' (Hok' & _ & Hd).
  split; [done|]. split; [rewrite size_dom; apply (mo_count _ _ Hok')|]. intros k a Ha.
  split; [by eapply mo_disjoint|]. split; [by apply (mo_conn _ _ Hok')|]. intros k' Ha'.
  destruct (mo_conn _ _ Hok' _ _ Ha) as (c & Hc & _ & <-), (mo_conn _ _ Hok' _ _ Ha') as (c' & Hc' & _ & <-). congruence.
Qed.

(** A new connection inherits nothing: [get] of a key that is in the table
    returns its connection and changes nothing; of any other key it returns a
    connection no other key refers to, open, in kernel space, without context and
    with two empty buffers whose memory is zero, and the other connections stay as
    they are. *)
Theorem get_known_or_clean {env : Env} P `{!EnvLaws env P} key fd s :
  mgr_ok P s ->
  wp (connectionManager_get key fd) (fun a s' =>
    match cm_connections (st_mgr s) !! key with
    | Some b => a = b /\ s' = s
    | None =>
        (forall k, cm_connections (st_mgr s) !! k <> Some a) /\
        (forall b, b <> a -> st_conns s' !! b = st_conns s !! b) /\
        cm_connections (st_mgr s') !! key = Some a /\
        exists c inb outb, st_conns s' !! a = Some c /\ c_fd c = fd /\ c_key c = key /\ c_network c = tcp /\
          c_state c = connInvalid /\ c_mode c = kernelSpace /\ c_closed c = false /\ c_ctx c = None /\
          c_inbound c = Some inb /\ c_outbound c = Some outb /\ clean inb /\ clean outb
    end) s.
Proof.
  intros Hok. destruct (cm_connections (st_mgr s) !! key) as [b|] eqn:Hk; [by eapply wp_get_known|].
  eapply (wp_get_new (P := P)); [done..|]. intros a s' (_ & _ & Hb & Hnk & Hm & _ & _ & _ & c & Hc & Hfresh).
  destruct Hfresh as ((_ & _ & ? & ? & ? & ? & _ & _ & ?) & inb & outb & ? & ? & ? & ?).
  split; [done|]. split; [done|]. split; [by rewrite Hm lookup_insert_eq|].
  exists (with_key key (with_fd fd c)), inb, outb. by split_and!.
Qed.

(** A received datagram goes to a connection of its own: [fork] enters a new
    connection under a key no connection has, which holds the received bytes, the
    socket and the sender's address; the listening connection is left with two
    clean buffers and a receive header over its whole inbound buffer. *)
Theorem fork_hands_over_datagram {env : Env} P `{!EnvLaws env P} k0 a c raw inb0 s :
  mgr_ok P s -> keys_below (st_mgr s) -> cm_connections (st_mgr s) !! k0 = Some a -> st_conns s !! a = Some c ->
  c_rawSockaddr c = Some raw -> is_Some (c_msgHdr c) -> c_inbound c = Some inb0 ->
  wp (connectionManager_fork a true) (fun new s' => mgr_ok P s' /\ exists key n c' inb outb,
    cm_connections (st_mgr s) !! key = None /\
    cm_connections (st_mgr s') = <[key := new]> (cm_connections (st_mgr s)) /\
    st_conns s' !! new = Some n /\ st_conns s' !! a = Some c' /\
    c_inbound n = Some inb0 /\ c_fd n = c_fd c /\ c_key n = key /\ c_network n = udp /\
    (forall sa, anyToSockaddr raw = inl sa -> forall old, c_remoteAddr n = sender_addr raw old) /\
    c_inbound c' = Some inb /\ c_outbound c' = Some outb /\ clean inb /\ clean outb /\ c_key c' = k0 /\
    c_msgHdr c' = Some (mkMsghdr Inbound (rb_w inb) (rb_Size inb))) s.
Proof.
  intros Hok Hbelow Ha Hc Hraw Hh Hin. destruct (mo_conn _ _ Hok _ _ Ha) as (c0 & Hc0 & Hcok & Hk0). simplify_eq.
  eapply (wp_fork (P := P)); [done..|].
  intros new s' (Hok' & _ & Hne & _ & _ & Hm & _ & _ & _ & n & inb & outb & Hfresh & Hn & Ha' & Hci & Hco).
  split; [done|]. destruct Hcok as (i & o & _ & Ho & _).
  eexists _, _, _, inb, outb. split_and!; [|exact Hm|exact Hn|exact Ha'|..]; try done; try (by rewrite /take_over Ho).
  - destruct Hbelow as [_ Hb]. apply eq_None_not_Some. intros Hs. have := Hb _ Hs. lia.
  - intros sa Hsa old. by rewrite /take_over Ho /= /sender_addr Hsa.
Qed.

(** Keys are never used twice, and never given back: [release] of a datagram
    connection puts key 0 into the key pool, because the connection was reset
    before its key is read, so the next [fork] takes a new number although a key
    has become free. *)
Theorem released_key_lost {env : Env} P `{!EnvLaws env P} k a k0 a0 c raw s :
  mgr_ok P s -> keys_below (st_mgr s) ->
  cm_connections (st_mgr s) !! k = Some a -> k0 <> k ->
  cm_connections (st_mgr s) !! k0 = Some a0 -> st_conns s !! a0 = Some c ->
  c_rawSockaddr c = Some raw -> is_Some (c_msgHdr c) ->
  wp (_ ← release k; connectionManager_fork a0 true) (fun new s' =>
    cm_connections (st_mgr s') !! k = None /\
    cm_connections (st_mgr s') !! kp_nextKey (cm_keyPool (st_mgr s)) = Some new /\
    kp_nextKey (cm_keyPool (st_mgr s')) = kp_nextKey (cm_keyPool (st_mgr s)) + 1) s.
Proof.
  intros Hok [Hn Hbelow] Ha Hne Ha0 Hc Hraw Hh. wp_step. eapply (wp_release_known (P := P)); [done..|].
  intros s1 (Hok1 & _ & Hb & _ & _ & Hm & _ & _ & Hkp).
  have Hne' : a0 <> a.
  { intros ->. destruct (mo_conn _ _ Hok _ _ Ha) as (? & ? & _ & <-), (mo_conn _ _ Hok _ _ Ha0) as (? & ? & _ & <-). congruence. }
  have Hnext : kp_nextKey (cm_keyPool (st_mgr s1)) = kp_nextKey (cm_keyPool (st_mgr s)) by rewrite Hkp.
  eapply (wp_fork (P := P) s1 k0 a0 c); [done| |by rewrite Hm lookup_delete_ne|by rewrite Hb|done..|].
  { split; rewrite Hnext; [done|]. intros k1. rewrite Hm. intros [b [_ Hb1]%lookup_delete_Some]. apply Hbelow. by eexists. }
  intros new s' (_ & _ & _ & _ & _ & Hm' & _ & _ & Hnk & _). rewrite Hnk Hm' Hm Hnext. split_and!; try done.
  - rewrite lookup_insert_ne; [|apply lookup_delete_eq]. have := Hbelow k ltac:(by eexists). lia.
  - by rewrite lookup_insert_eq.
Qed.

(** *** A concrete datagram worker *)

#[export] Instance demo_env_laws : EnvLaws demo_env exact_world.
Proof.
  split; [apply sort_desc_law|done| |apply _].
  intros raw sa [= <-]. done.
Qed.

(** Connection [a] of the socket 7. *)
Definition datagram_conn (key : Z) : connection :=
  mkConn 7 key udp (Some page_buffer) (Some page_buffer) connRead kernelSpace false
    (Some (mkMsghdr Inbound 0 4096)) (Some [x01]) None None None noOp.

Definition datagram_state : St :=
  mkSt (<[0%nat := datagram_conn 1]> {[1%nat := datagram_conn 2]}) 2 NewPool (@NewRingBufferPool linux_x86_64) empty_world
    NewByteSlicePool [] [] 16 [] []
    (mkManager (<[1 := 0%nat]> {[2 := 1%nat]}) 2 false ∅ (mkKeyPool (stk_new (StackApi := lock_free_stack_api 0)) 3)) [] []
    (mkVars true [] false false false 0 ∅ None true).

Lemma datagram_conn_ok key : conn_ok (datagram_conn key).
Proof.
  exists page_buffer, page_buffer. split; [done|]. split; [done|].
  split; (split; [right; eexists; apply page_buffer_mapped|by eexists]).
Qed.

Lemma datagram_state_ok : mgr_ok exact_world datagram_state.
Proof.
  split; try done; cbn [datagram_state st_mgr cm_connections st_conns st_connPool internalPool NewPool st_new].
  - split_and!; [apply empty_world_exact|apply new_ring_pool_ok|apply slice_pool_new].
  - intros k a [[<- <-]|[_ [<- <-]%lookup_singleton_Some]]%lookup_insert_Some;
      (eexists; split; [reflexivity|]; split; [apply datagram_conn_ok|done]).
  - intros a ?%not_elem_of_nil. done.
  - constructor.
  - intros k a _ ?%not_elem_of_nil. done.
  - intros a [c [[<- _]|[_ [<- _]%lookup_singleton_Some]]%lookup_insert_Some]; lia.
  - exists []. split; [apply seq_new_ok|constructor].
Qed.

Lemma datagram_keys_below : keys_below (st_mgr datagram_state).
Proof.
  split; [simpl; lia|]. cbn [st_mgr datagram_state cm_connections]. intros k [a [[<- _]|[_ [<- _]%lookup_singleton_Some]]%lookup_insert_Some]; simpl; lia.
Qed.

Lemma manager_refines_table_witness :
  wp (@run_mgr_ops demo_env [MGet 9 7; MRelease 2; MGet 9 7; MRelease 5]) (fun _ s' =>
    dom (cm_connections (st_mgr s')) = foldl table_step (dom (cm_connections (st_mgr datagram_state)))
      [MGet 9 7; MRelease 2; MGet 9 7; MRelease 5] /\
    mgr_activeConnections (st_mgr s') = int32 (Z.of_nat (size (dom (cm_connections (st_mgr s'))))) /\
    (forall k a, cm_connections (st_mgr s') !! k = Some a ->
       a ∉ internalPool (st_connPool s') /\
       (exists c, st_conns s' !! a = Some c /\ conn_ok c /\ c_key c = k) /\
       forall k', cm_connections (st_mgr s') !! k' = Some a -> k' = k)) datagram_state.
Proof. apply (@manager_refines_table demo_env exact_world _). apply datagram_state_ok. Defined.

Lemma get_known_or_clean_witness :
  wp (@connectionManager_get demo_env 9 9) (fun a s' =>
    (forall k, cm_connections (st_mgr datagram_state) !! k <> Some a) /\
    (forall b, b <> a -> st_conns s' !! b = st_conns datagram_state !! b) /\
    cm_connections (st_mgr s') !! 9 = Some a /\
    exists c inb outb, st_conns s' !! a = Some c /\ c_fd c = 9 /\ c_key c = 9 /\ c_network c = tcp /\
      c_state c = connInvalid /\ c_mode c = kernelSpace /\ c_closed c = false /\ c_ctx c = None /\
      c_inbound c = Some inb /\ c_outbound c = Some outb /\ clean inb /\ clean outb) datagram_state.
Proof. exact (@get_known_or_clean demo_env exact_world _ 9 9 datagram_state datagram_state_ok). Defined.

Lemma fork_hands_over_datagram_witness :
  wp (@connectionManager_fork demo_env 0 true) (fun new s' => mgr_ok exact_world s' /\ exists key n c' inb outb,
    cm_connections (st_mgr datagram_state) !! key = None /\
    cm_connections (st_mgr s') = <[key := new]> (cm_connections (st_mgr datagram_state)) /\
    st_conns s' !! new = Some n /\ st_conns s' !! 0%nat = Some c' /\
    c_inbound n = Some page_buffer /\ c_fd n = 7 /\ c_key n = key /\ c_network n = udp /\
    (forall sa, @anyToSockaddr demo_env [x01] = inl sa -> forall old, c_remoteAddr n = @sender_addr demo_env [x01] old) /\
    c_inbound c' = Some inb /\ c_outbound c' = Some outb /\ clean inb /\ clean outb /\ c_key c' = 1 /\
    c_msgHdr c' = Some (mkMsghdr Inbound (rb_w inb) (rb_Size inb))) datagram_state.
Proof.
  apply (@fork_hands_over_datagram demo_env exact_world _ 1 0 (datagram_conn 1) [x01] page_buffer datagram_state); try done;
    [apply datagram_state_ok|apply datagram_keys_below].
Defined.

Lemma released_key_lost_witness :
  wp (_ ← @release demo_env 2; @connectionManager_fork demo_env 0 true) (fun new s' =>
    cm_connections (st_mgr s') !! 2 = None /\
    cm_connections (st_mgr s') !! 3 = Some new /\
    kp_nextKey (cm_keyPool (st_mgr s')) = 3 + 1) datagram_state.
Proof.
  apply (@released_key_lost demo_env exact_world _ 2 1 1 0 (datagram_conn 1) [x01] datagram_state); try done;
    [apply datagram_state_ok|apply datagram_keys_below].
Defined.
