(* ===== verification/Worker.v ===== *)
(** * Worker: [conn_closer.go], [read.go], [write.go], [acceptor.go], [worker.go],
    [shutdown.go], [read_write_worker.go]

    The requests a worker puts into the submission queue of its ring, and the part
    of the event handling the shard and the consumer workers share.  The event
    handler is user code: a function of the callbacks it has seen and of the current
    one, whose result is the program it runs on the connection it is given. *)

From S2P Require Import Prelude Errors SyncPool VirtualMem MagicRing RingPool ByteSlicePool KeyPool Flags.
From S2P Require Import Sockaddr SocketOps GoState Conn ConnSpec ConnManager.
Local Open Scope string_scope.
Local Open Scope list_scope.
Local Open Scope Z_scope.

(** The configuration of a worker, fixed when its loop starts. *)
Record workerConf : Type := mkConf {
  w_fd : Z;
  w_index : Z;
  w_sendRecvMsg : bool;
  w_asyncHandler : bool;
  w_cpuAffinity : bool;
  w_tcpKeepAlive : Z;
  w_localAddr : option NetAddr
}.

(** [EventHandler] *)
Definition EventHandler : Type := list callback -> callback -> hprog.

Definition SHUT_RDWR : Z := 2.

Section Requests.
Context {env : Env}.

(** ** [conn_closer.go] *)

(** The entry [addCloseRequest] fills. *)
Definition addCloseRequest (fd : Z) : M (option error) :=
  s ← get_state;
  if sq_full s then mret (Some ErrGettingSQE)
  else
    _ ← push_sqe (mkSqe (SqClose fd) (Z.lor closeConnFlag (uint64 fd)) false);
    mret None.

Definition addCloseConnRequest (a : nat) : M (option error) :=
  c ← load a;
  err ← addCloseRequest (c_fd c);
  match err with
  | Some e => mret (Some e)
  | None => _ ← store a (with_state connClose); mret None
  end.

Definition syscallCloseSocket (fd : Z) : M () :=
  _ ← sys_setter (sys "shutdown" (CShutdown fd SHUT_RDWR)); mret ().

(** ** [read.go], [write.go] *)

Definition addReadRequest (recvMsg : bool) (a : nat) : M (option error) :=
  s ← get_state;
  if sq_full s then mret (Some ErrGettingSQE)
  else
    _ ← on_inbound a (fun rb wd => '(rb, wd) ← RingBuffer_GrowIfUnsufficientFreeSpace rb wd; Ret ((), rb, wd));
    c ← load a;
    _ ← (if recvMsg then
           push_sqe (mkSqe (SqRecvMsg (c_fd c) (c_msgHdr c)) (Z.lor readDataFlag (uint64 (c_key c))) false)
         else
           addr ← inboundWriteAddress a;
           inb ← lift (deref (c_inbound c));
           push_sqe (mkSqe (SqRecv (c_fd c) addr (uint32 (RingBuffer_Available inb)))
                       (Z.lor readDataFlag (uint64 (c_fd c))) false));
    _ ← store a (with_state connRead);
    _ ← setKernelSpace a;
    mret None.

Definition addWriteRequest (sendMsg : bool) (a : nat) (link : bool) : M (option error) :=
  s ← get_state;
  if sq_full s then mret (Some ErrGettingSQE)
  else
    c ← load a;
    _ ← (if sendMsg then
           push_sqe (mkSqe (SqSendMsg (c_fd c) (c_msgHdr c)) (Z.lor writeDataFlag (uint64 (c_key c))) link)
         else
           addr ← outboundReadAddress a;
           outb ← lift (deref (c_outbound c));
           push_sqe (mkSqe (SqSend (c_fd c) addr (uint32 (RingBuffer_Buffered outb)))
                       (Z.lor writeDataFlag (uint64 (c_fd c))) link));
    _ ← store a (with_state connWrite);
    _ ← setKernelSpace a;
    mret None.

(** ** [acceptor.go] *)

Definition addAcceptRequest (fd : Z) : M (option error) :=
  s ← get_state;
  if sq_full s then mret (Some ErrGettingSQE)
  else
    _ ← push_sqe (mkSqe (SqAccept fd) (Z.lor acceptDataFlag (uint64 fd)) false);
    mret None.

Definition addAcceptConnRequest (fd : Z) : M (option error) :=
  err ← addAcceptRequest fd;
  match err with
  | Some e => mret (Some e)
  | None => conn ← getFd fd; _ ← store conn (with_state connAccept); mret None
  end.

Definition lastClientAddr : M (option NetAddr + error) :=
  s ← get_state;
  match anyToSockaddr (wv_clientAddr (st_worker s)) with
  | inr e => mret (inr e)
  | inl sa =>
      c1 ← next_choice;
      c2 ← next_choice;
      s ← get_state;
      '(addr, ps) ← lift (SockaddrToTCPOrUnixAddr InterfaceByIndex c1 c2 sa (st_slices s));
      _ ← modify (set_slices ps);
      mret (inl addr)
  end.

(** ** [shutdown.go] *)

Definition mod_vars (f : workerVars -> workerVars) : M () := modify (fun s => set_worker (f (st_worker s)) s).

Definition with_accepting b v := mkVars b (wv_clientAddr v) (wv_shutdowning v) (wv_inProgress v) (wv_ring_closed v) (wv_done v) (wv_socketAddresses v) (wv_connQueue v) (wv_running v).
Definition with_clientAddr r v := mkVars (wv_accepting v) r (wv_shutdowning v) (wv_inProgress v) (wv_ring_closed v) (wv_done v) (wv_socketAddresses v) (wv_connQueue v) (wv_running v).
Definition with_shutdowning b v := mkVars (wv_accepting v) (wv_clientAddr v) b (wv_inProgress v) (wv_ring_closed v) (wv_done v) (wv_socketAddresses v) (wv_connQueue v) (wv_running v).
Definition with_inProgress b v := mkVars (wv_accepting v) (wv_clientAddr v) (wv_shutdowning v) b (wv_ring_closed v) (wv_done v) (wv_socketAddresses v) (wv_connQueue v) (wv_running v).
Definition with_ring_closed b v := mkVars (wv_accepting v) (wv_clientAddr v) (wv_shutdowning v) (wv_inProgress v) b (wv_done v) (wv_socketAddresses v) (wv_connQueue v) (wv_running v).
Definition with_done n v := mkVars (wv_accepting v) (wv_clientAddr v) (wv_shutdowning v) (wv_inProgress v) (wv_ring_closed v) n (wv_socketAddresses v) (wv_connQueue v) (wv_running v).
Definition with_socketAddresses m v := mkVars (wv_accepting v) (wv_clientAddr v) (wv_shutdowning v) (wv_inProgress v) (wv_ring_closed v) (wv_done v) m (wv_connQueue v) (wv_running v).
Definition with_connQueue q v := mkVars (wv_accepting v) (wv_clientAddr v) (wv_shutdowning v) (wv_inProgress v) (wv_ring_closed v) (wv_done v) (wv_socketAddresses v) q (wv_running v).

Definition with_running b v := mkVars (wv_accepting v) (wv_clientAddr v) (wv_shutdowning v) (wv_inProgress v) (wv_ring_closed v) (wv_done v) (wv_socketAddresses v) (wv_connQueue v) b.

Definition set_accepting (b : bool) : M () := mod_vars (with_accepting b).

Definition markShutdownInProgress : M () := mod_vars (with_inProgress true).

Definition needToShutdown (v : workerVars) : bool := wv_shutdowning v && negb (wv_inProgress v).

(** [wg.Done] wakes the goroutine that called [shutdown]. *)
Definition notifyFinish : M () :=
  s ← get_state;
  when (wv_shutdowning (st_worker s)) (mod_vars (fun v => with_done (S (wv_done v)) v)).

(** The first statement of [shutdown]; the caller then waits for [notifyFinish]. *)
Definition shutdown_signal : M () := mod_vars (with_shutdowning true).

(** ** The kernel's writes

    A receive is given the free space of an inbound buffer, an accept the worker's
    [clientAddr]: the kernel writes there while the request is in flight. *)

Definition kernel_fill (a : nat) (data : list byte) : M () :=
  on_inbound a (fun rb wd =>
    vm ← deref (rb_vm rb);
    '(_, vm) ← vm_copy vm (rb_w rb) data;
    Ret ((), rb_set_vm rb vm, wd)).

(** *** What the acceptor does to a consumer *)

(** [socketAddresses.Store(fd, addr)] *)
Definition setSocketAddr (fd : Z) (addr : option NetAddr) : M () :=
  mod_vars (fun v => with_socketAddresses (<[fd := addr]> (wv_socketAddresses v)) v).

Definition addConnToQueue (fd : Z) : M (option error) :=
  s ← get_state;
  match wv_connQueue (st_worker s) with
  | None => mret (Some ErrConnectionQueueIsNil)
  | Some q => _ ← mod_vars (with_connQueue (Some (q ++ [fd]))); mret None
  end.

(** What changes in the memory of a worker while it waits for its ring: the kernel fills
    the buffers of requests, or the acceptor stores the address of a client and puts its
    descriptor into the consumer's queue when there is one. *)
Inductive kernel_write : Type :=
| KwInbound (a : nat) (data : list byte)
| KwClient (raw : list byte)
| KwHandover (fd : Z) (addr : option NetAddr) (queued : bool).

Definition kernel_store (kw : kernel_write) : M () :=
  match kw with
  | KwInbound a data => kernel_fill a data
  | KwClient raw => mod_vars (with_clientAddr raw)
  | KwHandover fd addr queued => _ ← setSocketAddr fd addr; when queued (_ ← addConnToQueue fd; mret ())
  end.

Fixpoint kernel_stores (l : list kernel_write) : M () :=
  match l with [] => mret () | kw :: l => _ ← kernel_store kw; kernel_stores l end.

(** ** [worker.go] *)

(** Whether the event is dropped; the skip checker only decides what is logged, but
    it may change the state. *)
Definition processEvent (cqe : cqe) (skipErrorChecker : Z -> M bool) : M bool :=
  if cqe_Res cqe <? 0 then _ ← skipErrorChecker (cqe_UserData cqe); mret true
  else mret (cqe_UserData cqe =? 0).

(** [close]: [ring.QueueExit()] *)
Definition worker_close : M () := mod_vars (with_ring_closed true).

End Requests.

(** ** [read_write_worker.go] *)

Section ReadWriteWorker.
Context {env : Env} (handler : EventHandler) (w : workerConf).

(** A callback of the event handler on connection [a]. *)
Definition run_handler (a : nat) (cb : callback) : M () :=
  s ← get_state;
  _ ← log_callback cb;
  run_prog a (handler (st_log s) cb).

Definition work (a : nat) (n : Z) : M () :=
  _ ← setUserSpace a;
  run_handler a (CbRead a n).

Definition writeData (a : nat) : M (option error) :=
  _ ← when (w_sendRecvMsg w) (setMsgHeaderWrite a);
  closed ← isClosed a;
  err ← addWriteRequest (w_sendRecvMsg w) a closed;
  match err with
  | Some e => mret (Some e)
  | None => if (closed : bool) then addCloseConnRequest a else mret None
  end.

(** The goroutine started for a received message. *)
Definition doAsyncWork (a : nat) (n : Z) : M () :=
  _ ← work a n;
  out ← OutboundBuffered a;
  closed ← isClosed a;
  _ ← store a (with_nextAsyncOp (if 0 <? out then writeOp else if (closed : bool) then closeOp else readOp));
  modify (fun s => set_asyncQueue (st_asyncQueue s ++ [a]) s).

(** One dequeued connection; an error is logged and the loop continues. *)
Definition handleAsyncOp (a : nat) : M () :=
  c ← load a;
  match c_nextAsyncOp c with
  | readOp => _ ← addReadRequest (w_sendRecvMsg w) a; mret ()
  | writeOp =>
      closed ← isClosed a;
      _ ← when (w_sendRecvMsg w) (setMsgHeaderWrite a);
      err ← addWriteRequest (w_sendRecvMsg w) a closed;
      match err with
      | Some _ => mret ()
      | None => when closed (_ ← addCloseConnRequest a; mret ())
      end
  | closeOp => _ ← addCloseConnRequest a; mret ()
  | noOp => mret ()
  end.

(** The loop over the queue; [None] when the fuel is used up before it is empty. *)
Fixpoint handleAsyncWrites (fuel : nat) : M (option ()) :=
  match fuel with
  | O => mret None
  | S fuel =>
      s ← get_state;
      match st_asyncQueue s with
      | [] => mret (Some ())
      | a :: q =>
          _ ← modify (set_asyncQueue q);
          _ ← handleAsyncOp a;
          handleAsyncWrites fuel
      end
  end.

Definition handleAsyncWritesIfEnabled (fuel : nat) : M (option ()) :=
  if w_asyncHandler w then handleAsyncWrites fuel else mret (Some ()).

Definition closeConn (a : nat) (syscallClose : bool) (err : option error) : M () :=
  c ← load a;
  _ ← when syscallClose (syscallCloseSocket (c_fd c));
  _ ← setUserSpace a;
  closed ← isClosed a;
  _ ← when (negb closed) (_ ← conn_Close a; mret ());
  _ ← run_handler a (CbClose a err);
  c ← load a;
  release (c_key c).

(** The request after the handler of [onRead] has run. *)
Definition read_tail (a : nat) : M (option error) :=
  out ← OutboundBuffered a;
  if 0 <? out then writeData a
  else
    closed ← isClosed a;
    if (closed : bool) then addCloseConnRequest a else addReadRequest (w_sendRecvMsg w) a.

(** The tail of [onRead]: run the handler now or in a goroutine. *)
Definition dispatch (a : nat) (n : Z) : M (option error) :=
  if w_asyncHandler w then
    _ ← modify (fun s => set_asyncJobs (st_asyncJobs s ++ [(a, n)]) s);
    mret None
  else
    _ ← work a n;
    read_tail a.

Definition onRead (cqe : cqe) (a : nat) : M (option error) :=
  if cqe_Res cqe <=? 0 then _ ← closeConn a true (Some IoEOF); mret None
  else
    let n := cqe_Res cqe in
    _ ← onKernelRead a n;
    r ← (if w_sendRecvMsg w then
           forked ← connectionManager_fork a true;
           _ ← store forked (with_localAddr (w_localAddr w));
           err ← addReadRequest (w_sendRecvMsg w) a;
           match err with Some e => mret (inr e) | None => mret (inl forked) end
         else mret (inl a));
    match r with
    | inr e => mret (Some e)
    | inl a =>
        closed ← isClosed a;
        if cqe_nonempty cqe && negb closed then addReadRequest (w_sendRecvMsg w) a
        else dispatch a n
    end.

Definition addNextRequest (a : nat) : M (option error) :=
  closed ← isClosed a;
  out ← OutboundBuffered a;
  if 0 <? out then
    err ← addWriteRequest (w_sendRecvMsg w) a closed;
    match err with
    | Some e => mret (Some (Wrap "add read() request error: " e))
    | None =>
        if (closed : bool) then
          err ← addCloseConnRequest a;
          mret (Wrap "add close() request error: " <$> err)
        else mret None
    end
  else if (closed : bool) then
    err ← addCloseConnRequest a;
    mret (Wrap "add close() request error: " <$> err)
  else
    err ← addReadRequest (w_sendRecvMsg w) a;
    mret (Wrap "add read() request error: " <$> err).

(** The bytes of a send have left: [OnWrite] after [n] bytes were sent. *)
Definition onWritten (a : nat) (n : Z) : M () :=
  _ ← onKernelWrite a n;
  _ ← setUserSpace a;
  run_handler a (CbWrite a n).

End ReadWriteWorker.
