(* ===== verification/WorkerSpec.v ===== *)
(** * WorkerSpec: what a worker asks the kernel to do next

    After every event a stream connection must have exactly one request chain in
    the ring, chosen by the bytes left to send and by whether the handler closed it:
    send what is buffered, then close if closed; otherwise close; otherwise receive.
    This file proves the rules of the requests and of the shared event code. *)

From S2P Require Import Prelude Errors SyncPool VirtualMem MagicRing RingRefinement RingPool ByteSlicePool.
From S2P Require Import KeyPool Flags Sockaddr SocketOps GoState Conn ConnSpec ConnManager Worker.
Local Open Scope Z_scope.

(** ** The abstract requests *)

Inductive areq : Type := ARecv | ASend (len : Z) (link : bool) | AClose.

Definition next_reqs (A : aconn) : list areq :=
  if 0 <? zlen (a_out A) then ASend (zlen (a_out A)) (a_closed A) :: (if a_closed A then [AClose] else [])
  else if a_closed A then [AClose] else [ARecv].

Definition next_state (A : aconn) : connectionState :=
  if a_closed A then connClose else if 0 <? zlen (a_out A) then connWrite else connRead.

(** The entry for a request: the right range of the right buffer, and user data that
    leads back to the connection. *)
Inductive sqe_for (c : connection) : areq -> sqe -> Prop :=
| sf_recv inb :
    c_inbound c = Some inb -> MinRead <= RingBuffer_Available inb ->
    sqe_for c ARecv (mkSqe (SqRecv (c_fd c) (rb_w inb) (uint32 (RingBuffer_Available inb)))
                       (Z.lor readDataFlag (uint64 (c_fd c))) false)
| sf_send outb len link :
    c_outbound c = Some outb -> len = RingBuffer_Buffered outb ->
    sqe_for c (ASend len link) (mkSqe (SqSend (c_fd c) (rb_r outb) (uint32 len))
                                  (Z.lor writeDataFlag (uint64 (c_fd c))) link)
| sf_close : sqe_for c AClose (mkSqe (SqClose (c_fd c)) (Z.lor closeConnFlag (uint64 (c_fd c))) false).

(** What an event of connection [a] may change, besides the tables. *)
Definition event_frame (a : nat) (s s' : St) : Prop :=
  exists c wd sq tr lg, st_calls s `prefix_of` tr /\
    s' = set_log lg (set_calls tr (set_sq sq (set_world wd (set_conns (<[a := c]> (st_conns s)) s)))).

Definition free_slots (s : St) : Z := st_sq_size s - zlen (st_sq s).

Lemma event_frame_trans a s1 s2 s3 : event_frame a s1 s2 -> event_frame a s2 s3 -> event_frame a s1 s3.
Proof.
  intros (c1 & w1 & q1 & t1 & l1 & Ht1 & ->) (c2 & w2 & q2 & t2 & l2 & Ht2 & ->). exists c2, w2, q2, t2, l2. split; [by etransitivity|].
  cbn [st_conns set_conns set_world set_sq set_calls set_log]. rewrite insert_insert_eq. reflexivity.
Qed.

Lemma event_frame_user a s s' : user_frame a s s' -> event_frame a s s'.
Proof. intros (c & wd & tr & Ht & ->). by exists c, wd, (st_sq s), tr, (st_log s). Qed.

Lemma event_frame_store a s c' : event_frame a s (set_conns (<[a := c']> (st_conns s)) s).
Proof. exists c', (st_world s), (st_sq s), (st_calls s), (st_log s). split; [done|]. by destruct s. Qed.

Lemma sq_full_false s : 0 < free_slots s -> sq_full s = false.
Proof. rewrite /free_slots /sq_full. intros. apply Z.leb_gt. lia. Qed.

Lemma sq_full_true s : free_slots s <= 0 -> sq_full s = true.
Proof. rewrite /free_slots /sq_full. intros. apply Z.leb_le. lia. Qed.

Section Rules.
Context {env : Env} {P : World -> Prop} `{!PoolPromise P}.

(** ** The rules of the requests *)

Definition read_sqe (recvMsg : bool) (c : connection) (inb : RingBuffer) : sqe :=
  if recvMsg then mkSqe (SqRecvMsg (c_fd c) (c_msgHdr c)) (Z.lor readDataFlag (uint64 (c_key c))) false
  else mkSqe (SqRecv (c_fd c) (rb_w inb) (uint32 (RingBuffer_Available inb))) (Z.lor readDataFlag (uint64 (c_fd c))) false.

Definition reading (c : connection) (inb : RingBuffer) : connection :=
  with_mode kernelSpace (with_state connRead (with_inbound (Some inb) c)).

(** The request with the buffer as it is after growing. *)
Lemma wp_addReadRequest_grown recvMsg a s c inb inb' wd Q :
  st_conns s !! a = Some c -> c_inbound c = Some inb -> 0 < free_slots s ->
  RingBuffer_GrowIfUnsufficientFreeSpace inb (st_world s) = Ret (inb', wd) -> buffer_ok inb' ->
  Q None (set_sq (st_sq s ++ [read_sqe recvMsg c inb']) (set_world wd (set_conns (<[a := reading c inb']> (st_conns s)) s))) ->
  wp (addReadRequest recvMsg a) Q s.
Proof.
  intros Hc Hi Hsq Hg Hbok HQ'. rewrite /addReadRequest. wp_steps. rewrite sq_full_false //. wp_step.
  destruct (buffer_addresses inb' Hbok) as [Hwa _].
  eapply wp_on_inbound; [done|done|by rewrite Hg|]. cbn beta. wp_step.
  eapply wp_load; [by rewrite /= lookup_insert_eq|]. cbn beta. wp_step.
  assert (Hpush : wp (if recvMsg then push_sqe (read_sqe true (with_inbound (Some inb') c) inb')
         else addr ← inboundWriteAddress a; inb ← lift (deref (c_inbound (with_inbound (Some inb') c)));
           push_sqe (mkSqe (SqRecv (c_fd c) addr (uint32 (RingBuffer_Available inb))) (Z.lor readDataFlag (uint64 (c_fd c))) false))
      (fun _ s' => s' = set_sq (st_sq s ++ [read_sqe recvMsg c inb'])
         (set_world wd (set_conns (<[a := with_inbound (Some inb') c]> (st_conns s)) s)))
      (set_world wd (set_conns (<[a := with_inbound (Some inb') c]> (st_conns s)) s))).
  { destruct recvMsg; [done|]. rewrite /inboundWriteAddress. wp_steps.
    eapply wp_load; [by rewrite /= lookup_insert_eq|]. wp_steps. eapply wp_deref; [done|]. eapply wp_lift; [done|]. wp_steps.
    by eapply wp_deref. }
  eapply wp_mono; [exact Hpush|]. intros _ s' ->. wp_step. eapply wp_store; [by rewrite /= lookup_insert_eq|]. wp_step.
  rewrite /setKernelSpace. eapply wp_store; [by rewrite /= lookup_insert_eq|]. wp_steps.
  move: HQ'. cbn [st_conns set_conns set_world set_sq]. rewrite !insert_insert_eq. auto.
Qed.

Lemma wp_addReadRequest recvMsg a s c inb Q :
  st_conns s !! a = Some c -> c_inbound c = Some inb -> buffer_ok inb -> P (st_world s) ->
  zlen (contents inb) + MinRead < 2 ^ 52 -> 0 < free_slots s ->
  (forall inb' wd, buffer_ok inb' -> contents inb' = contents inb -> MinRead <= RingBuffer_Available inb' -> P wd ->
     Q None (set_sq (st_sq s ++ [read_sqe recvMsg c inb']) (set_world wd (set_conns (<[a := reading c inb']> (st_conns s)) s)))) ->
  wp (addReadRequest recvMsg a) Q s.
Proof.
  intros Hc Hi [Hok Hal] HP Hlen Hsq HQ. rewrite zlen_contents // in Hlen. have Hb := Buffered_bounds inb Hok.
  destruct (GrowIfUnsufficientFreeSpace_ok inb (st_world s) Hok (promise_ok _ HP)) as (vm & inb' & wd & Hg & Hm & Hcont & Hav & _ & Hreach).
  { intros. apply (promise_can_grow P); [done|]. rewrite /MinRead in Hlen |- *. lia. }
  have Hbok : buffer_ok inb' by split; [by eapply mapped_rb_ok|by exists vm; apply Hm].
  eapply wp_addReadRequest_grown; [done..|]. apply HQ; try done. by eapply promise_reach.
Qed.

(** With room for a receive the buffer stays where it is. *)
Lemma wp_addReadRequest_room recvMsg a s c inb Q :
  st_conns s !! a = Some c -> c_inbound c = Some inb -> buffer_ok inb -> MinRead <= RingBuffer_Available inb -> 0 < free_slots s ->
  Q None (set_sq (st_sq s ++ [read_sqe recvMsg c inb]) (set_conns (<[a := reading c inb]> (st_conns s)) s)) ->
  wp (addReadRequest recvMsg a) Q s.
Proof.
  intros Hc Hi Hok Hav Hsq HQ. eapply (wp_addReadRequest_grown _ _ _ _ inb inb (st_world s)); try done.
  rewrite /RingBuffer_GrowIfUnsufficientFreeSpace. by destruct (Z.ltb_spec (RingBuffer_Available inb) MinRead); [lia|].
Qed.

Lemma wp_addReadRequest_full recvMsg a s Q :
  free_slots s <= 0 -> Q (Some ErrGettingSQE) s -> wp (addReadRequest recvMsg a) Q s.
Proof. intros Hf HQ. rewrite /addReadRequest. wp_steps. rewrite sq_full_true //. Qed.

Definition write_sqe (sendMsg : bool) (c : connection) (outb : RingBuffer) (link : bool) : sqe :=
  if sendMsg then mkSqe (SqSendMsg (c_fd c) (c_msgHdr c)) (Z.lor writeDataFlag (uint64 (c_key c))) link
  else mkSqe (SqSend (c_fd c) (rb_r outb) (uint32 (RingBuffer_Buffered outb))) (Z.lor writeDataFlag (uint64 (c_fd c))) link.

Definition writing (c : connection) : connection := with_mode kernelSpace (with_state connWrite c).

Lemma wp_addWriteRequest sendMsg a link s c outb Q :
  st_conns s !! a = Some c -> c_outbound c = Some outb -> buffer_ok outb -> 0 < free_slots s ->
  Q None (set_sq (st_sq s ++ [write_sqe sendMsg c outb link]) (set_conns (<[a := writing c]> (st_conns s)) s)) ->
  wp (addWriteRequest sendMsg a link) Q s.
Proof.
  intros Hc Ho Hok Hsq HQ. destruct (buffer_addresses outb Hok) as [_ Hra].
  rewrite /addWriteRequest. wp_steps. rewrite sq_full_false //. wp_steps.
  assert (Hpush : wp (if sendMsg then push_sqe (write_sqe true c outb link)
         else addr ← outboundReadAddress a; outb ← lift (deref (c_outbound c));
           push_sqe (mkSqe (SqSend (c_fd c) addr (uint32 (RingBuffer_Buffered outb))) (Z.lor writeDataFlag (uint64 (c_fd c))) link))
      (fun _ s' => s' = set_sq (st_sq s ++ [write_sqe sendMsg c outb link]) s) s).
  { destruct sendMsg; [done|]. rewrite /outboundReadAddress. wp_steps. eapply wp_deref; [done|]. eapply wp_lift; [done|]. wp_steps.
    by eapply wp_deref. }
  eapply wp_mono; [exact Hpush|]. intros _ s' ->. wp_steps.
  rewrite /setKernelSpace. eapply wp_store; [by rewrite /= lookup_insert_eq|]. wp_steps.
  move: HQ. cbn [st_conns set_conns set_world set_sq]. rewrite !insert_insert_eq. auto.
Qed.

Lemma wp_addWriteRequest_full sendMsg a link s Q :
  free_slots s <= 0 -> Q (Some ErrGettingSQE) s -> wp (addWriteRequest sendMsg a link) Q s.
Proof. intros Hf HQ. rewrite /addWriteRequest. wp_steps. rewrite sq_full_true //. Qed.

Definition close_sqe (c : connection) : sqe := mkSqe (SqClose (c_fd c)) (Z.lor closeConnFlag (uint64 (c_fd c))) false.

Lemma wp_addCloseConnRequest a s c Q :
  st_conns s !! a = Some c -> 0 < free_slots s ->
  Q None (set_sq (st_sq s ++ [close_sqe c]) (set_conns (<[a := with_state connClose c]> (st_conns s)) s)) ->
  wp (addCloseConnRequest a) Q s.
Proof.
  intros Hc Hsq HQ. rewrite /addCloseConnRequest /addCloseRequest /push_sqe. wp_steps. rewrite sq_full_false //. wp_steps. exact HQ.
Qed.

Lemma wp_addCloseConnRequest_full a s c Q :
  st_conns s !! a = Some c -> free_slots s <= 0 -> Q (Some ErrGettingSQE) s -> wp (addCloseConnRequest a) Q s.
Proof.
  intros Hc Hsq HQ. rewrite /addCloseConnRequest /addCloseRequest. wp_steps. by rewrite sq_full_true.
Qed.

(** ** One request chain per event *)

(** The addresses of the connection. *)
Definition same_peer (c c' : connection) : Prop := c_localAddr c' = c_localAddr c /\ c_remoteAddr c' = c_remoteAddr c.

(** The connection [c] has its next requests in the queue, and the handler can no
    longer touch its buffers. *)
Definition settled (a : nat) (c : connection) (s s' : St) : Prop :=
  exists c' sqes, st_conns s' !! a = Some c' /\ conn_ok c' /\ conn_abs c' = conn_abs c /\
    c_fd c' = c_fd c /\ c_key c' = c_key c /\ c_network c' = c_network c /\
    c_state c' = next_state (conn_abs c) /\ (c_closed c' = true \/ c_mode c' = kernelSpace) /\
    Forall2 (sqe_for c') (next_reqs (conn_abs c)) sqes /\ st_sq s' = st_sq s ++ sqes /\
    st_log s' = st_log s /\ event_frame a s s' /\ P (st_world s') /\ same_peer c c'.

Lemma settle_read a s c :
  st_conns s !! a = Some c -> conn_ok c -> P (st_world s) -> zlen (a_in (conn_abs c)) + MinRead < 2 ^ 52 ->
  0 < free_slots s -> a_out (conn_abs c) = [] -> c_closed c = false ->
  wp (addReadRequest false a) (fun r s' => r = None /\ settled a c s s') s.
Proof.
  intros Hc (inb & outb & Hi & Ho & Hin & Hout) HP Hlen Hsq Hempty Hcl.
  have HA : conn_abs c = mkA (contents inb) (contents outb) false (c_ctx c) by rewrite /conn_abs Hi Ho /= Hcl.
  rewrite HA /= in Hlen Hempty.
  eapply wp_addReadRequest; [done..|]. intros inb' wd Hin' Hcont Hav HP'. split; [done|].
  exists (reading c inb'), [read_sqe false c inb']. split_and!; try done.
  - by rewrite /= lookup_insert_eq.
  - by exists inb', outb.
  - by rewrite /conn_abs /= Ho Hi /= Hcont.
  - by rewrite HA /next_state /= Hempty.
  - by right.
  - rewrite HA /next_reqs /= Hempty /=. constructor; [|constructor]. by eapply (sf_recv (reading c inb')).
  - by exists (reading c inb'), wd, (st_sq s ++ [read_sqe false c inb']), (st_calls s), (st_log s).
Qed.

Lemma settle_close a s c :
  st_conns s !! a = Some c -> conn_ok c -> P (st_world s) -> 0 < free_slots s ->
  a_out (conn_abs c) = [] -> c_closed c = true ->
  wp (addCloseConnRequest a) (fun r s' => r = None /\ settled a c s s') s.
Proof.
  intros Hc Hok HP Hsq Hempty Hcl. eapply wp_addCloseConnRequest; [done..|]. split; [done|].
  exists (with_state connClose c), [close_sqe c]. split_and!; try done.
  - by rewrite /= lookup_insert_eq.
  - by rewrite /next_state /conn_abs /= Hcl.
  - by left.
  - rewrite /next_reqs Hempty /= Hcl. constructor; [apply (sf_close (with_state connClose c))|constructor].
  - by exists (with_state connClose c), (st_world s), (st_sq s ++ [close_sqe c]), (st_calls s), (st_log s).
Qed.

Lemma settle_write a s c :
  st_conns s !! a = Some c -> conn_ok c -> P (st_world s) -> 1 < free_slots s -> 0 < zlen (a_out (conn_abs c)) ->
  wp (addWriteRequest false a (c_closed c)) (fun err s1 => err = None /\
    if c_closed c then wp (addCloseConnRequest a) (fun r s' => r = None /\ settled a c s s') s1 else settled a c s s1) s.
Proof.
  intros Hc (inb & outb & Hi & Ho & Hin & Hout) HP Hsq Hpos.
  have HA : conn_abs c = mkA (contents inb) (contents outb) (c_closed c) (c_ctx c) by rewrite /conn_abs Hi Ho.
  have Hcond : (0 <? zlen (contents outb)) = true by rewrite HA /= in Hpos; by apply Z.ltb_lt.
  have Hlen : zlen (contents outb) = RingBuffer_Buffered outb by apply zlen_contents, Hout.
  eapply wp_addWriteRequest; [done..|lia|]. split; [done|].
  set (sq1 := st_sq s ++ [write_sqe false c outb (c_closed c)]).
  have Hsend : forall c1, c_fd c1 = c_fd c -> c_outbound c1 = Some outb ->
      sqe_for c1 (ASend (zlen (contents outb)) (c_closed c)) (write_sqe false c outb (c_closed c)).
  { intros c1 Hfd Ho1. rewrite /write_sqe -Hfd -Hlen. by econstructor. }
  destruct (c_closed c) eqn:Hcl.
  - eapply wp_addCloseConnRequest; [by rewrite /= lookup_insert_eq| |].
    { rewrite /free_slots /= zlen_app. change (zlen [_]) with 1. rewrite /free_slots in Hsq. lia. }
    split; [done|]. set (c' := with_state connClose (writing c)).
    exists c', [write_sqe false c outb true; close_sqe c']. split_and!; try done.
    + by rewrite /= lookup_insert_eq.
    + by exists inb, outb.
    + by rewrite /next_state HA.
    + by right.
    + rewrite HA /next_reqs /= Hcond. repeat constructor; by apply Hsend.
    + rewrite /= /sq1 -app_assoc. done.
    + exists c', (st_world s), (sq1 ++ [close_sqe c']), (st_calls s), (st_log s). split; [done|]. rewrite /= insert_insert_eq. reflexivity.
  - exists (writing c), [write_sqe false c outb false]. split_and!; try done.
    + by rewrite /= lookup_insert_eq.
    + by exists inb, outb.
    + by rewrite /next_state HA /= Hcond.
    + by right.
    + rewrite HA /next_reqs /= Hcond. repeat constructor; by apply Hsend.
    + by exists (writing c), (st_world s), sq1, (st_calls s), (st_log s).
Qed.

Lemma wp_OutboundBuffered a s c outb Q :
  st_conns s !! a = Some c -> c_outbound c = Some outb -> rb_ok outb -> Q (zlen (a_out (conn_abs c))) s ->
  wp (OutboundBuffered a) Q s.
Proof.
  intros Hc Ho Hok HQ. rewrite /OutboundBuffered. wp_steps. eapply wp_deref; [done|]. wp_steps. move: HQ.
  by rewrite /conn_abs Ho /= zlen_contents.
Qed.

Section Tails.
Context (w : workerConf) (Htcp : w_sendRecvMsg w = false).

Lemma settle_next a s c :
  st_conns s !! a = Some c -> conn_ok c -> P (st_world s) -> zlen (a_in (conn_abs c)) + MinRead < 2 ^ 52 ->
  1 < free_slots s -> wp (addNextRequest w a) (fun r s' => r = None /\ settled a c s s') s.
Proof.
  intros Hc Hok HP Hlen Hsq. destruct Hok as (inb & outb & Hi & Ho & Hin & Hout) eqn:Hok0; clear Hok0.
  rewrite /addNextRequest /isClosed Htcp. wp_steps. eapply wp_OutboundBuffered; [done|done|apply Hout|]. cbn beta.
  destruct (Z.ltb_spec 0 (zlen (a_out (conn_abs c)))) as [Hpos|Hz].
  { wp_step. eapply wp_mono; [by apply settle_write|]. intros err s1 [-> Hnext]. cbn beta iota.
    destruct (c_closed c); [|by wp_steps]. wp_step. eapply wp_mono; [exact Hnext|]. by intros r s' [-> Hs]. }
  have Hempty : a_out (conn_abs c) = [] by apply zlen_nil_inv; pose proof (zlen_nonneg (a_out (conn_abs c))); lia.
  destruct (c_closed c) eqn:Hcl; wp_step.
  - eapply wp_mono; [apply settle_close; (done || lia)|]. by intros r s' [-> Hs].
  - eapply wp_mono; [apply settle_read; (done || lia)|]. by intros r s' [-> Hs].
Qed.

Lemma settle_read_tail a s c :
  st_conns s !! a = Some c -> conn_ok c -> P (st_world s) -> zlen (a_in (conn_abs c)) + MinRead < 2 ^ 52 ->
  1 < free_slots s -> wp (read_tail w a) (fun r s' => r = None /\ settled a c s s') s.
Proof.
  intros Hc Hok HP Hlen Hsq. destruct Hok as (inb & outb & Hi & Ho & Hin & Hout) eqn:Hok0; clear Hok0.
  rewrite /read_tail /writeData /isClosed /when Htcp. wp_step. eapply wp_OutboundBuffered; [done|done|apply Hout|]. cbn beta.
  destruct (Z.ltb_spec 0 (zlen (a_out (conn_abs c)))) as [Hpos|Hz].
  { wp_steps. eapply wp_mono; [by apply settle_write|]. intros err s1 [-> Hnext]. cbn beta iota.
    by destruct (c_closed c); [|wp_steps]. }
  have Hempty : a_out (conn_abs c) = [] by apply zlen_nil_inv; pose proof (zlen_nonneg (a_out (conn_abs c))); lia.
  wp_steps. destruct (c_closed c) eqn:Hcl; [apply settle_close; (done || lia)|apply settle_read; (done || lia)].
Qed.

End Tails.

(** ** The handler *)

Section Handler.
Context (handler : EventHandler).

Lemma wp_run_handler a cb s c :
  user_ready P a s c -> prog_valid (c_network c) (conn_abs c) (handler (st_log s) cb) ->
  wp (run_handler handler a cb) (fun _ s' => exists c', user_ready P a s' c' /\ same_identity c c' /\
    event_frame a s s' /\ st_log s' = st_log s ++ [cb] /\ st_sq s' = st_sq s /\
    prog_spec (c_network c) (conn_abs c) (handler (st_log s) cb) (conn_abs c')) s.
Proof.
  intros Hr Hv. rewrite /run_handler /log_callback. wp_steps.
  eapply wp_mono; [eapply (run_prog_refines P a (set_log (st_log s ++ [cb]) s) c); [by destruct Hr; split|done]|].
  intros _ s' (c' & Hr' & Hid & (c1 & wd & tr & Ht & ->) & Hspec). exists c'. split_and!; try done.
  by exists c1, wd, (st_sq s), tr, (st_log s ++ [cb]).
Qed.

Lemma user_mode_ready a s c :
  st_conns s !! a = Some c -> conn_ok c -> P (st_world s) ->
  user_ready P a (set_conns (<[a := with_mode userSpace c]> (st_conns s)) s) (with_mode userSpace c).
Proof. intros Hc Hok HP. split; [by rewrite /= lookup_insert_eq|done|done|done]. Qed.

(** [setUserSpace] and a callback. *)
Lemma wp_callback a cb s c Q :
  st_conns s !! a = Some c -> conn_ok c -> P (st_world s) ->
  prog_valid (c_network c) (conn_abs c) (handler (st_log s) cb) ->
  (forall s' c', user_ready P a s' c' -> same_identity (with_mode userSpace c) c' -> event_frame a s s' ->
     st_log s' = st_log s ++ [cb] -> st_sq s' = st_sq s ->
     prog_spec (c_network c) (conn_abs c) (handler (st_log s) cb) (conn_abs c') -> Q () s') ->
  wp (_ ← setUserSpace a; run_handler handler a cb) Q s.
Proof.
  intros Hc Hok HP Hv HQ. rewrite {1}/setUserSpace. wp_steps.
  eapply wp_mono; [apply (wp_run_handler a cb _ (with_mode userSpace c)); [by apply user_mode_ready|done]|].
  intros [] s' (c' & Hr & Hid & Hf & Hl & Hsq & Hspec). apply (HQ s' c'); try done.
  eapply event_frame_trans; [apply event_frame_store|exact Hf].
Qed.

End Handler.

(** Handlers only consume received bytes. *)
Lemma in_op_shrinks c op rop out c' :
  in_op op = Some rop -> fifo_step c rop out c' -> zlen c' <= zlen c.
Proof. intros Hop Hf. rewrite /zlen. destruct op; simplify_eq/=; inversion Hf; subst; rewrite ?length_drop /=; lia. Qed.

Lemma conn_spec_in network A op r A' : conn_spec network A op r A' -> zlen (a_in A') <= zlen (a_in A).
Proof.
  intros Hs. inversion Hs; subst; simpl; try lia.
  by eapply in_op_shrinks.
Qed.

Lemma prog_spec_in network A p A' : prog_spec network A p A' -> zlen (a_in A') <= zlen (a_in A).
Proof. induction 1 as [|A op k r A1 A2 Hop _ IH]; [done|]. have := conn_spec_in _ _ _ _ _ Hop. lia. Qed.

End Rules.
