(* ===== verification/Looper.v ===== *)
(** * Looper: [looper.go], [linux_tuning.go]

    The event loop of a worker.  What the ring does in one round is an input of the
    round: the error of [SubmitAndWaitTimeout], the entries it leaves in the
    submission queue, what the kernel has written into the memory of requests in
    flight, the completions [PeekBatchCQE] finds, and whether another goroutine asked
    for the shutdown while the loop waited.  The loop runs on any
    state that contains the state of a worker: the acceptor's state also has its
    balancer and its consumers. *)

From S2P Require Import Prelude Errors Config SocketOps Submitter GoState Conn Worker.
Local Open Scope string_scope.
Local Open Scope list_scope.
Local Open Scope Z_scope.

(** ** [linux_tuning.go] *)

(** What the worker asks of the host: its process id and [runtime.NumCPU()]. *)
Record Host : Type := mkHost { h_pid : Z; h_numCPU : Z }.

(** [CPUSet.Set] on an empty set: nothing when the processor is out of range. *)
Definition CPU_SETSIZE : Z := 1024.
Definition cpu_mask (cpu : Z) : list Z := if (0 <=? cpu) && (cpu <? CPU_SETSIZE) then [cpu] else [].

Section Tuning.
Context {env : Env} (host : Host).

Definition setProcessPriority : M (option error) :=
  '(_, err) ← sys_setter (sys "setpriority" (CSetpriority PRIO_PROCESS (h_pid host) (- 19)));
  mret err.

Definition setCPUAffinity (index : Z) : M (option error) :=
  cpuIndex ← lift (go_rem index (h_numCPU host));
  '(_, err) ← sys_setter (sys "sched_setaffinity" (CSchedSetaffinity 0 (cpu_mask cpuIndex)));
  mret (err ≫= fun e => Wrap "SchedSetaffinity: " <$> errors_AsSyscall e).

End Tuning.

(** ** [looper.go] *)

(** A state that contains the state of a worker. *)
Class HasWorker (S : Type) : Type := in_worker : forall A, M A -> StateM S A.
Arguments in_worker {_ _ _} _.

#[export] Instance has_worker_self : HasWorker St := fun A m => m.

(** One round of the ring. *)
Record ring_round : Type :=
  mkRound { rr_err : option error; rr_left : list sqe; rr_mem : list kernel_write; rr_cqes : list cqe; rr_stop : bool }.

(** How a round of the loop ends. *)
Inductive loop_result : Type :=
| LoopContinue (s : batchSubmitter)
| LoopReturn (err : option error)
| LoopBlocked.

Section Loop.
Context {env : Env} {S : Type} `{!HasWorker S}.

(** The functions a worker installs; a shutdown handler that blocks forever returns
    [None]. *)
Record looper : Type := mkLooper {
  cpuAffinity : bool;
  processPriority : bool;
  maxCQEvents : Z;
  prepareHandler : StateM S (option error);
  shutdownHandler : StateM S (option bool);
  loopFinisher : StateM S ();
  loopFinishCondition : StateM S bool
}.

Definition eventProcessor : Type := cqe -> StateM S (option error).

(** The completions of a round, and how many were taken. *)
Fixpoint process_cqes (process : eventProcessor) (l : list cqe) (i : Z) : StateM S (Z * option error) :=
  match l with
  | [] => mret (i, None)
  | e :: l =>
      err ← process e;
      match err with
      | Some err => mret (uint32 (i + 1), Some err)
      | None => process_cqes process l (uint32 (i + 1))
      end
  end.

(** The end of a round. *)
Definition finish_round (l : looper) (sub : batchSubmitter) : StateM S loop_result :=
  _ ← loopFinisher l;
  stop ← loopFinishCondition l;
  mret (if (stop : bool) then LoopReturn None else LoopContinue sub).

(** One round of [innerLoop]. *)
Definition loop_round (l : looper) (process : eventProcessor) (sub : batchSubmitter) (rd : ring_round) : StateM S loop_result :=
  continueLoop ← shutdownHandler l;
  match continueLoop with
  | None => mret LoopBlocked
  | Some false => mret (LoopReturn None)
  | Some true =>
    '(err, sub) ← lift (submit sub (rr_err rd));
    _ ← in_worker (modify (set_sq (rr_left rd)));
    _ ← in_worker (kernel_stores (rr_mem rd));
    _ ← in_worker (when (rr_stop rd) shutdown_signal);
    match err with
    | Some e => if errors_Is e ErrSkippable then finish_round l sub else mret (LoopReturn (Some e))
    | None =>
        let cqes := take (Z.to_nat (maxCQEvents l)) (rr_cqes rd) in
        '(n, err) ← process_cqes process cqes 0;
        sub ← lift (advance sub n);
        match err with
        | Some e => mret (LoopReturn (Some e))
        | None => finish_round l sub
        end
    end
  end.

(** [innerLoop] against the rounds of the ring; [None] when the loop blocks or
    the rounds end before it returns. *)
Fixpoint innerLoop (l : looper) (process : eventProcessor) (sub : batchSubmitter) (rounds : list ring_round) :
    StateM S (option (option error)) :=
  match rounds with
  | [] => mret None
  | rd :: rounds =>
      r ← loop_round l process sub rd;
      match r with
      | LoopReturn err => mret (Some err)
      | LoopContinue sub => innerLoop l process sub rounds
      | LoopBlocked => mret None
      end
  end.

(** [startLoop(index, eventProcessor)]; the start listener tells the server that the
    worker runs. *)
Definition startLoop (host : Host) (l : looper) (index : Z) (process : eventProcessor) (rounds : list ring_round) :
    StateM S (option (option error)) :=
  err ← (if processPriority l then in_worker (setProcessPriority host) else mret None);
  match err with
  | Some e => mret (Some (Some e))
  | None =>
      err ← (if cpuAffinity l then in_worker (setCPUAffinity host index) else mret None);
      match err with
      | Some e => mret (Some (Some e))
      | None =>
          err ← prepareHandler l;
          match err with
          | Some e => mret (Some (Some e))
          | None =>
              _ ← in_worker (mod_vars (with_running true));
              sub ← lift newBatchSubmitter;
              innerLoop l process sub rounds
          end
      end
  end.

End Loop.
Arguments looper : clear implicits.
