(* ===== verification/ConsumerWorker.v ===== *)
(** * ConsumerWorker: [consumer_worker.go]

    A worker of the reactor: it serves the connections the acceptor hands over, by a
    message on its ring or through a queue, together with the client's address. *)

From S2P Require Import Prelude Errors SyncPool VirtualMem MagicRing RingRefinement RingPool ByteSlicePool.
From S2P Require Import KeyPool Flags Submitter Sockaddr SocketOps GoState Conn ConnSpec ConnManager Worker.
From S2P Require Import Looper.
Local Open Scope string_scope.
Local Open Scope list_scope.
Local Open Scope Z_scope.

Definition Stderr : Z := 2.

Section ConsumerWorker.
Context {env : Env} (handler : EventHandler) (w : workerConf).

Definition closeAllConns : M () :=
  connectionManager_close
    (fun conn => err ← addCloseConnRequest conn; mret (match err with None => true | Some _ => false end)) (- 1).

Definition consumer_activeConnections (m : connectionManager) : Z := mgr_activeConnections m.

Definition consumer_handleConn (a : nat) (cqe : cqe) : M () :=
  c ← load a;
  err ← match c_state c with
        | connRead => onRead handler w cqe a
        | connWrite =>
            _ ← onWritten handler a (cqe_Res cqe);
            addNextRequest w a
        | connClose =>
            _ ← (if has_flag (cqe_UserData cqe) closeConnFlag then closeConn handler a false None
                 else if has_flag (cqe_UserData cqe) writeDataFlag then onWritten handler a (cqe_Res cqe)
                 else mret ());
            mret None
        | state => mret (Some (ErrorUnknownConnectionState (state_num state)))
        end;
  match err with
  | Some e => closeConn handler a true (Some e)
  | None => mret ()
  end.

(** The address the acceptor stored for the descriptor, if any. *)
Definition take_address (fd : Z) (conn : nat) : M () :=
  s ← get_state;
  match wv_socketAddresses (st_worker s) !! fd with
  | Some remoteAddr =>
      _ ← store conn (with_remoteAddr remoteAddr);
      mod_vars (fun v => with_socketAddresses (delete fd (wv_socketAddresses v)) v)
  | None => mret ()
  end.

Definition handleNewConn (fd : Z) : M (option error) :=
  conn ← getFd fd;
  _ ← store conn (with_fd fd);
  _ ← store conn (with_localAddr (w_localAddr w));
  _ ← take_address fd conn;
  _ ← setUserSpace conn;
  _ ← run_handler handler conn (CbAccept conn);
  addNextRequest w conn.

(** [None] when the fuel is used up before the queue is empty; an error is logged. *)
Fixpoint getConnsFromQueue (fuel : nat) : M (option ()) :=
  match fuel with
  | O => mret None
  | S fuel =>
      s ← get_state;
      match wv_connQueue (st_worker s) with
      | None => lift (Panic PanicNil)
      | Some [] => mret (Some ())
      | Some (fd :: q) =>
          _ ← mod_vars (with_connQueue (Some q));
          _ ← handleNewConn fd;
          getConnsFromQueue fuel
      end
  end.

Definition handleJobsInQueues (fuel : nat) : M () :=
  s ← get_state;
  _ ← (match wv_connQueue (st_worker s) with
       | Some _ => _ ← getConnsFromQueue fuel; mret ()
       | None => mret ()
       end);
  _ ← handleAsyncWritesIfEnabled w fuel;
  mret ().

Definition consumer_shutdownHandler : M (option bool) :=
  s ← get_state;
  _ ← when (needToShutdown (st_worker s)) (_ ← closeAllConns; markShutdownInProgress);
  mret (Some true).

Definition consumer_loopFinishCondition : M bool :=
  s ← get_state;
  if allClosed (st_mgr s) then _ ← worker_close; _ ← notifyFinish; mret true else mret false.

(** The event processor of [loop]; looking a connection up enters it in the table when
    it is not there. *)
Definition consumer_event (cqe : cqe) : M (option error) :=
  exit ← processEvent cqe (fun userData =>
           _ ← connectionManager_get (int64 (key_of userData)) 0; mret false);
  if (exit : bool) then mret None
  else if has_flag (cqe_UserData cqe) addConnFlag then handleNewConn (cqe_Res cqe)
  else
    let fileDescriptor := int64 (key_of (cqe_UserData cqe)) in
    if fileDescriptor <? Stderr then mret None
    else
      conn ← getFd fileDescriptor;
      _ ← consumer_handleConn conn cqe;
      mret None.

Definition consumer_looper (fuel : nat) (maxCQEvents : Z) : looper St := {|
  cpuAffinity := w_cpuAffinity w;
  processPriority := false;
  maxCQEvents := maxCQEvents;
  prepareHandler := mret None;
  shutdownHandler := consumer_shutdownHandler;
  loopFinisher := handleJobsInQueues fuel;
  loopFinishCondition := consumer_loopFinishCondition
|}.

(** [loop(_)] *)
Definition consumer_loop (host : Host) (fuel : nat) (maxCQEvents : Z) (rounds : list ring_round) :
    M (option (option error)) :=
  startLoop host (consumer_looper fuel maxCQEvents) (w_index w) consumer_event rounds.

End ConsumerWorker.
