(* ===== verification/AcceptorWorker.v ===== *)
(** * AcceptorWorker: [acceptor_worker.go]

    The acceptor of the reactor owns the listening socket.  It hands every accepted
    descriptor, with the client's address, to the consumer its balancer chooses.
    The state of the reactor is the acceptor's own state and its balancer, which
    holds the consumers with their states: the program reaches a consumer from the
    acceptor only through the balancer. *)

From S2P Require Import Prelude Errors SyncPool VirtualMem MagicRing RingRefinement RingPool ByteSlicePool.
From S2P Require Import KeyPool Flags Submitter LoadBalancer Sockaddr SocketOps GoState Conn ConnSpec ConnManager.
From S2P Require Import Worker Looper ConsumerWorker.
Local Open Scope string_scope.
Local Open Scope list_scope.
Local Open Scope Z_scope.

(** A consumer worker: its configuration, the descriptor of its ring and its state. *)
Record consumer : Type := mkConsumer { co_conf : workerConf; co_ringFd : Z; co_st : St }.

Definition with_index (i : Z) (w : workerConf) : workerConf :=
  mkConf (w_fd w) i (w_sendRecvMsg w) (w_asyncHandler w) (w_cpuAffinity w) (w_tcpKeepAlive w) (w_localAddr w).

#[export] Instance consumer_worker : Consumer consumer := {
  setIndex c i := mkConsumer (with_index i (co_conf c)) (co_ringFd c) (co_st c);
  activeConnections c := consumer_activeConnections (st_mgr (co_st c))
}.

Definition co_index (c : consumer) : Z := w_index (co_conf c).

Record reactor : Type := mkReactor { r_acceptor : St; r_balancer : @loadBalancer consumer }.

#[export] Instance reactor_worker : HasWorker reactor := fun A m r =>
  '(a, s) ← m (r_acceptor r); Ret (a, mkReactor s (r_balancer r)).

(** The consumers of the balancer, updated in place. *)
Definition with_workers (f : list consumer -> list consumer) (lb : @loadBalancer consumer) : @loadBalancer consumer :=
  let upd b := mkBalancer (f (lb_workers b)) (lb_size b) in
  match lb with
  | roundRobinLoadBalancer b i => roundRobinLoadBalancer (upd b) i
  | leastConnectionsLoadBalancer b => leastConnectionsLoadBalancer (upd b)
  | sourceIPHashLoadBalancer b => sourceIPHashLoadBalancer (upd b)
  end.

(** A method of the consumer with index [i]. *)
Definition on_consumer {A} (i : Z) (m : M A) : StateM reactor A := fun r =>
  c ← go_index (lb_workers (generic (r_balancer r))) i;
  '(a, s) ← m (co_st c);
  let c := mkConsumer (co_conf c) (co_ringFd c) s in
  Ret (a, mkReactor (r_acceptor r) (with_workers (fun ws => <[Z.to_nat i := c]> ws) (r_balancer r))).

Section AcceptorWorker.
Context {env : Env} (w : workerConf).
(** [net.Addr.String]. *)
Variable addr_String : NetAddr -> string.
(** [features.ringsMessaging]: ring messages are supported. *)
Variable ringsMessaging : bool.

Definition addConnViaRing (worker : consumer) (fileDescriptor : Z) : StateM reactor (option error) :=
  in_worker (
    s ← get_state;
    if sq_full s then mret (Some ErrGettingSQE)
    else
      _ ← push_sqe (mkSqe (SqMsgRing (co_ringFd worker) (uint32 fileDescriptor) addConnFlag) addConnFlag false);
      mret None).

Definition addConnViaQueue (worker : consumer) (fileDescriptor : Z) : StateM reactor (option error) :=
  err ← on_consumer (co_index worker) (addConnToQueue fileDescriptor);
  mret (Wrap "error adding connection to queue: " <$> err).

(** The method [newAcceptorWorker] installs. *)
Definition addConnMethod : consumer -> Z -> StateM reactor (option error) :=
  if ringsMessaging then addConnViaRing else addConnViaQueue.

Definition registerConsumer (c : consumer) : StateM reactor () :=
  modify (fun r => mkReactor (r_acceptor r) (register (r_balancer r) c)).

(** [loadBalancer.next(clientAddr)]; only the hash of the address looks at it. *)
Definition next_consumer (clientAddr : option NetAddr) : StateM reactor consumer := fun r =>
  addr ← match clientAddr, r_balancer r with
         | Some a, _ => Ret (addr_String a)
         | None, sourceIPHashLoadBalancer _ => Panic PanicNil
         | None, _ => Ret ""
         end;
  '(c, lb) ← next (r_balancer r) addr;
  Ret (c, mkReactor (r_acceptor r) lb).

(** [shutdown] of a consumer blocks the caller until the consumer's goroutine has
    called [notifyFinish]: [waits c] is the consumer at that point, [None] when it
    never gets there. *)
Definition shutdown_consumer (waits : consumer -> option consumer) (c : consumer) : option consumer :=
  waits (mkConsumer (co_conf c) (co_ringFd c)
           (set_worker (with_shutdowning true (st_worker (co_st c))) (co_st c))).

(** The callback of [forEach]: its state is the list of consumers and whether the
    acceptor is blocked. *)
Definition shutdown_callback (waits : consumer -> option consumer) (s : bool * list consumer) (c : consumer) :
    option error * (bool * list consumer) :=
  let '(blocked, ws) := s in
  if (blocked : bool) then (None, s)
  else
    match shutdown_consumer waits c with
    | Some c' => (None, (false, <[Z.to_nat (co_index c) := c']> ws))
    | None =>
        let c' := mkConsumer (co_conf c) (co_ringFd c) (set_worker (with_shutdowning true (st_worker (co_st c))) (co_st c)) in
        (None, (true, <[Z.to_nat (co_index c) := c']> ws))
    end.

(** [None] when the acceptor blocks. *)
Definition closeRingAndConsumers (waits : consumer -> option consumer) : StateM reactor (option ()) :=
  _ ← in_worker (_ ← syscallCloseSocket (w_fd w); set_accepting false);
  r ← get_state;
  let '(_, (blocked, ws)) := forEach (shutdown_callback waits) (false, lb_workers (generic (r_balancer r))) (r_balancer r) in
  _ ← modify (fun r => mkReactor (r_acceptor r) (with_workers (fun _ => ws) (r_balancer r)));
  mret (if (blocked : bool) then None else Some ()).

(** [prepareHandler] *)
Definition acceptor_prepare : M (option error) :=
  err ← addAcceptRequest (w_fd w);
  _ ← (match err with None => set_accepting true | Some _ => mret () end);
  mret err.

(** The keep-alive period of an accepted connection. *)
Definition acceptor_keepAlive (fd : Z) : M (option error) :=
  if 0 <? w_tcpKeepAlive w then
    '(_, err) ← sys_setter (SetKeepAlivePeriod fd (period_seconds (w_tcpKeepAlive w)));
    mret (Wrap ("fd: " +:+ pretty fd +:+ ", setting tcpKeepAlive error: ") <$> err)
  else mret None.

(** An accepted descriptor goes to the next consumer. *)
Definition forward (fd : Z) (clientAddr : option NetAddr) : StateM reactor (option error) :=
  nextConsumer ← next_consumer clientAddr;
  _ ← on_consumer (co_index nextConsumer) (setSocketAddr fd clientAddr);
  err ← addConnMethod nextConsumer fd;
  match err with
  | Some _ => _ ← in_worker (syscallCloseSocket fd); mret None
  | None => mret None
  end.

(** The event processor of [loop]. *)
Definition acceptor_event (cqe : cqe) : StateM reactor (option error) :=
  if has_flag (cqe_UserData cqe) addConnFlag then mret None
  else
    err ← in_worker (addAcceptRequest (w_fd w));
    match err with
    | Some e => mret (Some e)
    | None =>
        exit ← in_worker (processEvent cqe (fun _ => s ← get_state; mret (negb (wv_accepting (st_worker s)))));
        if (exit : bool) then mret None
        else
          err ← in_worker (acceptor_keepAlive (cqe_Res cqe));
          match err with
          | Some e => mret (Some e)
          | None =>
              clientAddr ← in_worker lastClientAddr;
              match clientAddr with
              | inr _ => _ ← in_worker (syscallCloseSocket (cqe_Res cqe)); mret None
              | inl addr => forward (cqe_Res cqe) addr
              end
          end
    end.

Definition acceptor_shutdownHandler (waits : consumer -> option consumer) : StateM reactor (option bool) :=
  r ← get_state;
  if needToShutdown (st_worker (r_acceptor r)) then
    closed ← closeRingAndConsumers waits;
    match closed with
    | None => mret None
    | Some _ => _ ← in_worker markShutdownInProgress; mret (Some false)
    end
  else mret (Some true).

Definition acceptor_looper (priority : bool) (waits : consumer -> option consumer) (maxCQEvents : Z) : looper reactor := {|
  cpuAffinity := w_cpuAffinity w;
  processPriority := priority;
  maxCQEvents := maxCQEvents;
  prepareHandler := in_worker acceptor_prepare;
  shutdownHandler := acceptor_shutdownHandler waits;
  loopFinisher := mret ();
  loopFinishCondition := mret false
|}.

(** [loop(fd)] *)
Definition acceptor_loop (host : Host) (priority : bool) (waits : consumer -> option consumer) (maxCQEvents : Z)
    (rounds : list ring_round) : StateM reactor (option (option error)) :=
  r ← startLoop host (acceptor_looper priority waits maxCQEvents) 0 acceptor_event rounds;
  match r with
  | None => mret None
  | Some err => _ ← in_worker (_ ← worker_close; notifyFinish); mret (Some err)
  end.

End AcceptorWorker.
