(* ===== verification/StreamSpec.v ===== *)
(** * StreamSpec: stream connections of a worker

    The shard and the consumer worker serve a stream connection the same way.  The
    class [StreamWorker] states what the proofs need of an event processor: an event
    of a known connection reaches the code the two workers share.  Everything about
    the life of a connection between its accept and its close is proved against the
    class; [ShardSpec] and [ReactorSpec] provide the instances. *)

From S2P Require Import Prelude Errors SyncPool VirtualMem MagicRing RingRefinement RingPool ByteSlicePool.
From S2P Require Import KeyPool Flags Submitter Sockaddr SocketOps GoState Conn ConnSpec ConnManager Worker.
From S2P Require Import WorkerSpec Looper ConsumerWorker.
Local Open Scope Z_scope.

(** An event of the connection with descriptor [fd] is handled on that connection by
    the code the consumer runs; [lo] is the first descriptor the worker accepts. *)
Class StreamWorker {env : Env} (handler : EventHandler) (w : workerConf) (lo : Z) (event : cqe -> M (option error)) : Prop :=
  stream_event fd a c res flag nonempty s Q :
    is_flag flag -> flag <> addConnFlag -> lo <= fd -> 0 <= fd < 2 ^ 31 -> 0 <= res ->
    cm_connections (st_mgr s) !! fd = Some a -> st_conns s !! a = Some c -> c_state c <> connAccept ->
    wp (consumer_handleConn handler w a (mkCqe res (Z.lor flag (uint64 fd)) nonempty)) (fun _ s' => Q None s') s ->
    wp (event (mkCqe res (Z.lor flag (uint64 fd)) nonempty)) Q s.

(** The user data of a request: never 0, and its key is the descriptor. *)
Lemma key_data flag key :
  is_flag flag -> 0 <= key < 2 ^ 59 ->
  (Z.lor flag (uint64 key) =? 0) = false /\ int64 (key_of (Z.lor flag (uint64 key))) = key /\
  (forall g, is_flag g -> has_flag (Z.lor flag (uint64 key)) g = bool_decide (flag = g)).
Proof.
  intros Hflag Hfd. have -> : uint64 key = key by apply wrap_u_small; lia.
  have Hkey : key_of (Z.lor flag key) = key by apply key_of_flag.
  have Hf g : is_flag g -> has_flag (Z.lor flag key) g = bool_decide (flag = g) by intros Hg; apply has_flag_key.
  split; [|split; [rewrite Hkey wrap_s_small; lia|done]].
  apply Z.eqb_neq. intros H0. specialize (Hf flag Hflag). rewrite H0 /has_flag Z.land_0_l bool_decide_true // in Hf.
Qed.

Lemma event_data flag fd :
  is_flag flag -> 0 <= fd < 2 ^ 31 ->
  (Z.lor flag (uint64 fd) =? 0) = false /\ int64 (key_of (Z.lor flag (uint64 fd))) = fd /\
  (forall g, is_flag g -> has_flag (Z.lor flag (uint64 fd)) g = bool_decide (flag = g)).
Proof. intros Hflag Hfd. apply key_data; [done|lia]. Qed.

(** A connection after received bytes, and after sent ones. *)
Definition recv_abs (A : aconn) (d : list byte) : aconn := mkA (a_in A ++ d) (a_out A) (a_closed A) (a_ctx A).
Definition sent_abs (A : aconn) (n : Z) : aconn := mkA (a_in A) (drop (Z.to_nat n) (a_out A)) (a_closed A) (a_ctx A).

Section StreamProofs.
Context {env : Env} {P : World -> Prop} `{!EnvLaws env P}.
Context (handler : EventHandler) (w : workerConf).


(** A connection of the worker. *)
Record managed (key : Z) (a : nat) (c : connection) (s : St) : Prop := {
  sc_mgr : mgr_ok P s;
  sc_key : cm_connections (st_mgr s) !! key = Some a;
  sc_conn : st_conns s !! a = Some c
}.

(** A stream connection: its key is its descriptor. *)
Record stream_conn (fd : Z) (a : nat) (c : connection) (s : St) : Prop := {
  sc_managed : managed fd a c s;
  sc_fd : c_fd c = fd;
  sc_range : 0 <= fd < 2 ^ 31
}.

Lemma managed_ok key a c s : managed key a c s -> conn_ok c /\ c_key c = key.
Proof.
  intros [Hok Hk Hc]. destruct (mo_conn _ _ Hok _ _ Hk) as (c0 & Hc0 & Hco & <-).
  have -> : c = c0 by congruence. done.
Qed.

Lemma mgr_ok_event_frame s s' key a c c' :
  managed key a c s -> event_frame a s s' -> st_conns s' !! a = Some c' -> conn_ok c' -> c_key c' = c_key c ->
  P (st_world s') -> mgr_ok P s'.
Proof.
  intros [Hm Hk Hc] (c1 & wd & sq & tr & lg & _ & ->) Hc' Hok Hkey HP.
  rewrite /= lookup_insert_eq in Hc'. injection Hc' as ->.
  eapply (mgr_ok_update s _ key a c c'); try done. destruct (mo_mem _ _ Hm) as (_ & Hr & Hs). by split_and!.
Qed.

Lemma same_peer_trans c1 c2 c3 : same_peer c1 c2 -> same_peer c2 c3 -> same_peer c1 c3.
Proof. intros [] []. split; congruence. Qed.

(** The connection after its event: the handler saw [cb] with the connection in the
    state [A0], and what it left decides the requests. *)
Definition served (fd : Z) (a : nat) (c : connection) (cb : callback) (A0 : aconn) (s s' : St) : Prop :=
  mgr_ok P s' /\ st_mgr s' = st_mgr s /\ st_log s' = st_log s ++ [cb] /\ st_sq_size s' = st_sq_size s /\
  st_worker s' = st_worker s /\ (forall b, b <> a -> st_conns s' !! b = st_conns s !! b) /\
  exists A' c' sqes, prog_spec (c_network c) A0 (handler (st_log s) cb) A' /\
    st_conns s' !! a = Some c' /\ conn_abs c' = A' /\ c_fd c' = fd /\ c_key c' = fd /\
    c_network c' = c_network c /\ same_peer c c' /\ c_state c' = next_state A' /\
    (c_closed c' = true \/ c_mode c' = kernelSpace) /\
    st_sq s' = st_sq s ++ sqes /\ Forall2 (sqe_for c') (next_reqs A') sqes /\
    Forall (fun e => key_of (sq_data e) = fd) sqes.

Lemma sqe_for_key c r e : sqe_for c r e -> 0 <= c_fd c < 2 ^ 31 -> key_of (sq_data e) = c_fd c.
Proof.
  intros He Hr. have Hu : uint64 (c_fd c) = c_fd c by apply wrap_u_small; lia.
  destruct He; cbn [sq_data]; rewrite Hu; (apply key_of_flag; [constructor|lia]).
Qed.

Lemma served_settled fd a c cb A0 s s1 c1 s2 :
  stream_conn fd a c s -> user_ready P a s1 c1 -> c_fd c1 = fd -> c_key c1 = fd -> c_network c1 = c_network c -> same_peer c c1 -> event_frame a s s1 ->
  st_log s1 = st_log s ++ [cb] -> st_sq s1 = st_sq s ->
  prog_spec (c_network c) A0 (handler (st_log s) cb) (conn_abs c1) -> settled (P := P) a c1 s1 s2 ->
  served fd a c cb A0 s s2.
Proof.
  intros Hsc Hr Hfd Hkey Hnet Hp Hf Hl Hsq Hspec (c2 & sqes & Hc2 & Hok2 & HA & Hfd2 & Hkey2 & Hnet2 & Hst & Hm & Hall & Hsq2 & Hl2 & Hf2 & HP2 & Hp2).
  have Hman := sc_managed _ _ _ _ Hsc. have [_ Hck] := managed_ok _ _ _ _ Hman. have Hrange := sc_range _ _ _ _ Hsc.
  have Hf12 := event_frame_trans _ _ _ _ Hf Hf2.
  split; [eapply (mgr_ok_event_frame s s2 fd a c c2); try done; congruence|].
  destruct Hf12 as (cx & wd & sq & tr & lg & _ & Hs2).
  split; [by rewrite Hs2|]. split; [by rewrite Hl2|]. split; [by rewrite Hs2|]. split; [by rewrite Hs2|].
  split; [intros b Hb; by rewrite Hs2 /= lookup_insert_ne|].
  exists (conn_abs c1), c2, sqes. split_and!; try done; try congruence; [by eapply same_peer_trans|].
  eapply Forall2_Forall_r; [exact Hall|]. apply Forall_true. intros r e He. rewrite (sqe_for_key _ _ _ He); [|congruence].
  rewrite Hfd2 Hfd. done.
Qed.

(** ** Received bytes *)

(** The kernel has stored [data] in the free space: what [AdvanceWrite] will expose. *)
Definition prefilled (inb : RingBuffer) (data : list byte) : Prop :=
  exists inb2, RingBuffer_AdvanceWrite inb (zlen data) = Ret inb2 /\ buffer_ok inb2 /\ contents inb2 = contents inb ++ data.

Lemma wp_kernel_fill a data s c inb Q :
  st_conns s !! a = Some c -> c_inbound c = Some inb -> buffer_ok inb -> zlen data <= RingBuffer_Available inb ->
  (forall vm', let inb' := rb_set_vm inb vm' in buffer_ok inb' -> contents inb' = contents inb -> prefilled inb' data ->
     Q () (set_conns (<[a := with_inbound (Some inb') c]> (st_conns s)) s)) ->
  wp (kernel_fill a data) Q s.
Proof.
  intros Hc Hi [Hok Hal] Hlen HQ. destruct (allocated_mapped inb Hok Hal) as [vm Hm].
  destruct (AdvanceWrite_ok vm inb data Hm Hlen) as (vm' & inb2 & Hcopy & Hadv & Hm2 & Hcont).
  destruct (store_keeps vm inb data vm' Hm Hlen Hcopy) as [Hm' Hc'].
  eapply wp_on_inbound; [done|done|by rewrite (mapped_vm _ _ Hm) /= Hcopy|].
  apply (HQ vm'); [split; [by eapply mapped_rb_ok|by exists vm']|done|].
  exists inb2. rewrite Hc'. split_and!; [done|split; [by eapply mapped_rb_ok|by exists vm'; apply Hm2]|done].
Qed.

(** ** The end of a connection *)

Definition released (key : Z) (a : nat) (c : connection) (syscallClose : bool) (cb : callback) (s s' : St) : Prop :=
  mgr_ok P s' /\ st_log s' = st_log s ++ [cb] /\ st_sq s' = st_sq s /\
  (st_calls s ++ (if syscallClose then [CShutdown (c_fd c) SHUT_RDWR] else [])) `prefix_of` st_calls s' /\
  cm_connections (st_mgr s') = delete key (cm_connections (st_mgr s)) /\
  cm_releaseFdSet (st_mgr s') = cm_releaseFdSet (st_mgr s) ∖ {[key]} /\ cm_closing (st_mgr s') = cm_closing (st_mgr s) /\
  a ∈ internalPool (st_connPool s') /\ (forall b, b <> a -> st_conns s' !! b = st_conns s !! b) /\
  st_worker s' = st_worker s /\ st_sq_size s' = st_sq_size s.

(** The connection as [OnClose] sees it. *)
Definition closing_abs (c : connection) : aconn :=
  mkA (a_in (conn_abs c)) (a_out (conn_abs c)) (c_closed c || negb (c_network c =? udp)) (c_ctx c).

(** [if !conn.isClosed() { conn.Close() }] *)
Lemma wp_close_once a c s :
  st_conns s !! a = Some c ->
  wp (when (negb (c_closed c)) (_ ← conn_Close a; mret ())) (fun _ s' =>
    s' = set_conns (<[a := with_closed (c_closed c || negb (c_network c =? udp)) c]> (st_conns s)) s) s.
Proof.
  intros Hc. have Hsame b : c_closed c = b -> set_conns (<[a := with_closed b c]> (st_conns s)) s = s.
  { intros Hb. have -> : with_closed b c = c by rewrite -Hb; destruct c. rewrite insert_id //. by destruct s. }
  rewrite /when /conn_Close. destruct (c_closed c) eqn:Hcl; cbn [negb orb]; [wp_steps; by rewrite Hsame|].
  wp_steps. destruct (c_network c =? udp); cbn [negb]; [wp_steps; by rewrite Hsame|].
  rewrite Hcl. by wp_steps.
Qed.

Lemma wp_closeConn key a c syscallClose err s Q :
  managed key a c s -> prog_valid (c_network c) (closing_abs c) (handler (st_log s) (CbClose a err)) ->
  (forall s', released key a c syscallClose (CbClose a err) s s' -> Q () s') ->
  wp (closeConn handler a syscallClose err) Q s.
Proof.
  intros Hman Hv HQ. have [Hcok Hkey] := managed_ok _ _ _ _ Hman. have [Hm Hk Hc] := Hman.
  rewrite /closeConn. wp_steps.
  set (tr := st_calls s ++ (if syscallClose then [CShutdown (c_fd c) SHUT_RDWR] else [])).
  assert (Hsys : wp (when syscallClose (syscallCloseSocket (c_fd c))) (fun _ s1 => s1 = set_calls tr s) s).
  { rewrite /when /tr. destruct syscallClose; [|wp_steps; rewrite app_nil_r; by destruct s].
    rewrite /syscallCloseSocket. wp_step. apply wp_sys_setter. by wp_steps. }
  eapply wp_mono; [exact Hsys|]. intros [] s1 ->. clear Hsys. cbn beta. rewrite /setUserSpace /isClosed. wp_steps.
  eapply wp_load; [by rewrite /= lookup_insert_eq|]. wp_steps. cbn [c_closed with_mode].
  set (cu := with_mode userSpace c). set (cc := with_closed (c_closed c || negb (c_network c =? udp)) cu).
  set (s2 := set_conns (<[a := cc]> (st_conns s)) (set_calls tr s)).
  eapply wp_mono; [by apply (wp_close_once a cu); rewrite /= lookup_insert_eq|].
  intros [] s' ->. cbn [st_conns set_conns set_calls]. rewrite insert_insert_eq. wp_step. fold s2.
  have Hready : user_ready P a s2 cc.
  { split; [by rewrite /= lookup_insert_eq|exact Hcok|done|apply (mo_mem _ _ Hm)]. }
  eapply wp_mono; [apply (wp_run_handler (P := P) handler a (CbClose a err) s2 cc Hready); exact Hv|].
  intros [] s3 (c3 & [Hc3 Hok3 _ HP3] & (_ & Hkey3 & _) & Hf3 & Hl3 & Hsq3 & _). wp_step.
  eapply wp_load; [exact Hc3|]. cbn beta. rewrite Hkey3. change (c_key cc) with (c_key c). rewrite Hkey.
  have Hpre : tr `prefix_of` st_calls s3 by destruct Hf3 as (? & ? & ? & ? & ? & Hp & ->); exact Hp.
  have Hf : event_frame a s s3.
  { eapply event_frame_trans; [|exact Hf3]. exists cc, (st_world s), (st_sq s), tr, (st_log s). split; [by eexists|done]. }
  have Hm3 : mgr_ok P s3 by eapply (mgr_ok_event_frame s s3 key a c c3).
  destruct Hf as (cx & wd & sq & tr3 & lg & _ & Hs3).
  eapply (wp_release_known (P := P) s3 key a); [done|by rewrite Hs3|].
  intros s4 (Hm4 & (Hsq4 & Hsz4 & Hcl & Hl4 & _ & _ & Hw4) & Hb4 & _ & Hpool4 & Hmap4 & Hcl4 & Hrel4 & _). apply HQ.
  split_and!; try done; [by rewrite Hl4 Hl3|by rewrite Hsq4 Hsq3|by rewrite Hcl|by rewrite Hmap4 Hs3|by rewrite Hrel4 Hs3|by rewrite Hcl4 Hs3| |by rewrite Hw4 Hs3|by rewrite Hsz4 Hs3].
  intros b Hb. by rewrite Hb4 // Hs3 /= lookup_insert_ne.
Qed.

(** ** Shutdown *)

Lemma mgr_ok_releaseFdSet s closing fds :
  mgr_ok P s -> mgr_ok P (set_mgr (mkManager (cm_connections (st_mgr s)) (cm_count (st_mgr s)) closing fds (cm_keyPool (st_mgr s))) s).
Proof. intros [Hmem Hconn Hpool Hnd Hdis Hnew Hcount Hkeys]. by split. Qed.

(** The close requests of a shutdown. *)
Definition close_entry (fd : Z) : sqe := mkSqe (SqClose fd) (Z.lor closeConnFlag (uint64 fd)) false.
Definition others (fd : Z) (keys : list Z) : list Z := filter (fun k => k <> fd) keys.

#[export] Instance others_perm fd : Proper ((≡ₚ) ==> (≡ₚ)) (others fd).
Proof. intros l1 l2 Hl. by rewrite /others Hl. Qed.

(** Every key is a descriptor. *)
Definition stream_table (s : St) : Prop :=
  forall k a c, cm_connections (st_mgr s) !! k = Some a -> st_conns s !! a = Some c -> c_fd c = k.

Definition close_one (conn : nat) : M bool :=
  err ← addCloseConnRequest conn; mret (match err with None => true | Some _ => false end).

(** What the loop does for the connections in [l]; [f k] is the descriptor of the
    connection with key [k]. *)
Definition loop_closed (f : Z -> Z) (fd : Z) (l : list (Z * nat)) (s s' : St) : Prop :=
  mgr_ok P s' /\ cm_connections (st_mgr s') = cm_connections (st_mgr s) /\ cm_closing (st_mgr s') = cm_closing (st_mgr s) /\
  st_worker s' = st_worker s /\ st_calls s' = st_calls s /\ st_log s' = st_log s /\
  st_sq s' = st_sq s ++ (close_entry <$> others fd (f <$> l.*1)) /\
  cm_releaseFdSet (st_mgr s') = cm_releaseFdSet (st_mgr s) ∪ list_to_set (others fd (f <$> l.*1)) /\
  (forall a, a ∉ l.*2 -> st_conns s' !! a = st_conns s !! a) /\
  (forall k a c, (k, a) ∈ l -> f k <> fd -> st_conns s !! a = Some c -> st_conns s' !! a = Some (with_state connClose c)).

Lemma close_loop_ok f fd l s :
  mgr_ok P s -> (forall k a, (k, a) ∈ l -> cm_connections (st_mgr s) !! k = Some a) -> NoDup l.*2 ->
  (forall k a c, (k, a) ∈ l -> st_conns s !! a = Some c -> c_fd c = f k) -> zlen l <= free_slots s ->
  wp (close_loop close_one fd l) (fun _ s' => loop_closed f fd l s s') s.
Proof.
  revert s. induction l as [|[k a] l IH]; intros s Hm Hin Hnd Hfd Hsq; simpl.
  { wp_steps. rewrite /loop_closed /= app_nil_r union_empty_r_L. split_and!; try done. intros k a c Hk. by apply not_elem_of_nil in Hk. }
  have Hk : cm_connections (st_mgr s) !! k = Some a by apply Hin; left.
  destruct (mo_conn _ _ Hm _ _ Hk) as (c & Hc & Hok & Hck). have Hfdc : c_fd c = f k by apply (Hfd k a); [left|].
  apply NoDup_cons in Hnd as [Hnin Hnd]. have Hz : zlen ((k, a) :: l) = zlen l + 1 by rewrite /zlen /=; lia. rewrite Hz in Hsq. have Hz0 := zlen_nonneg l.
  have Hin' : forall k' a', (k', a') ∈ l -> cm_connections (st_mgr s) !! k' = Some a' by intros; apply Hin; right.
  have Hnel k' a' : (k', a') ∈ l -> a' <> a.
  { intros Hl ->. apply Hnin. apply list_elem_of_fmap. by exists (k', a). }
  wp_steps. rewrite Hfdc. destruct (Z.eqb_spec (f k) fd) as [Heq|Hne].
  - wp_steps. eapply wp_mono; [apply IH; try done; [|lia]|].
    { intros k' a' c' Hl. apply Hfd. by right. }
    intros _ s' (Hm' & Hcm & Hcl & Hw & Hca & Hl & Hq & Hrel & Hoth & Hst).
    have Hsame : others fd (f k :: (f <$> l.*1)) = others fd (f <$> l.*1) by rewrite /others filter_cons_False; [tauto|].
    rewrite /loop_closed. cbn [fmap list_fmap]. rewrite Hsame. split_and!; try done.
    + intros b [_ Hb]%not_elem_of_cons. by apply Hoth.
    + intros k' a' c' [[= -> ->]|Hl']%elem_of_cons Hk' Hc'; [done|]. by eapply Hst.
  - wp_step. rewrite /close_one. wp_step. eapply wp_addCloseConnRequest; [done|lia|]. cbn beta iota. wp_steps.
    eapply wp_load; [by rewrite /= lookup_insert_eq|]. cbn [when]. rewrite /mod_mgr. wp_steps. cbn [c_fd with_state]. rewrite Hfdc.
    set (s2 := set_mgr _ _). have Hm2 : mgr_ok P s2.
    { apply mgr_ok_releaseFdSet. eapply (mgr_ok_update s _ k a c (with_state connClose c)); try done. apply (mo_mem _ _ Hm). }
    eapply wp_mono; [apply (IH s2); try done|].
    + intros k' a' c' Hl. rewrite /= lookup_insert_ne; [by apply not_eq_sym, (Hnel k')|]. apply Hfd. by right.
    + rewrite /free_slots /= zlen_app. change (zlen [_]) with 1. rewrite /free_slots in Hsq. lia.
    + intros _ s' (Hm' & Hcm & Hcl & Hw & Hca & Hl & Hq & Hrel & Hoth & Hst).
      have Hsame : others fd (f k :: (f <$> l.*1)) = f k :: others fd (f <$> l.*1) by rewrite /others filter_cons_True.
      rewrite /loop_closed. cbn [fmap list_fmap]. rewrite Hsame. split_and!; try done.
      * rewrite Hq /= -app_assoc /close_sqe Hfdc. done.
      * rewrite Hrel /=. set_solver.
      * intros b [Hb1 Hb2]%not_elem_of_cons. rewrite Hoth // /= lookup_insert_ne //.
      * intros k' a' c' [[= -> ->]|Hl']%elem_of_cons Hk' Hc'.
        -- rewrite Hoth // /= lookup_insert_eq. congruence.
        -- eapply Hst; [done..|]. rewrite /= lookup_insert_ne //. by apply not_eq_sym, (Hnel k').
Qed.

(** The connections of the manager are closed: one close request for every descriptor
    but the skipped one. *)
Definition all_closing (f : Z -> Z) (fd : Z) (s s' : St) : Prop :=
  let fds := others fd (f <$> (map_to_list (cm_connections (st_mgr s))).*1) in
  mgr_ok P s' /\ cm_connections (st_mgr s') = cm_connections (st_mgr s) /\ cm_closing (st_mgr s') = true /\
  st_worker s' = st_worker s /\ st_calls s' = st_calls s /\ st_log s' = st_log s /\
  cm_releaseFdSet (st_mgr s') = list_to_set fds /\
  (exists l, l ≡ₚ fds /\ st_sq s' = st_sq s ++ (close_entry <$> l)) /\
  (forall k a c, cm_connections (st_mgr s) !! k = Some a -> f k <> fd -> st_conns s !! a = Some c ->
     st_conns s' !! a = Some (with_state connClose c)).

Lemma wp_manager_close f fd s :
  mgr_ok P s ->
  (forall k a c, cm_connections (st_mgr s) !! k = Some a -> st_conns s !! a = Some c -> c_fd c = f k) ->
  Z.of_nat (size (cm_connections (st_mgr s))) <= free_slots s ->
  wp (connectionManager_close close_one fd) (fun _ s' => all_closing f fd s s') s.
Proof.
  intros Hm Htab Hsq. rewrite /connectionManager_close /mod_mgr. wp_steps.
  set (m := cm_connections (st_mgr s)) in *. set (s1 := set_mgr _ _).
  pose proof (law_range (P := P) m) as Hperm.
  have Hin k a : (k, a) ∈ range_order m <-> m !! k = Some a by rewrite Hperm elem_of_map_to_list.
  eapply wp_mono; [apply (close_loop_ok f fd (range_order m) s1)|].
  - apply (mgr_ok_releaseFdSet s true ∅ Hm).
  - intros k a Hk. by apply Hin.
  - apply NoDup_fmap_2_strong; [|rewrite Hperm; apply NoDup_map_to_list].
    intros [k1 a1] [k2 a2] H1%Hin H2%Hin Heq. simpl in Heq. subst a2.
    destruct (mo_conn _ _ Hm _ _ H1) as (c1 & Hc1 & _ & <-), (mo_conn _ _ Hm _ _ H2) as (c2 & Hc2 & _ & <-). congruence.
  - intros k a c Hk Hc. apply (Htab k a); [by apply Hin|done].
  - change (free_slots s1) with (free_slots s). rewrite /zlen Hperm length_map_to_list. done.
  - intros _ s' (Hm' & Hcm & Hcl & Hw & Hca & Hl & Hq & Hrel & _ & Hst).
    have Hfds : others fd (f <$> (range_order m).*1) ≡ₚ others fd (f <$> (map_to_list m).*1) by rewrite Hperm.
    rewrite /all_closing. split_and!; try done.
    + rewrite Hrel /= union_empty_l_L. by rewrite Hfds.
    + by exists (others fd (f <$> (range_order m).*1)).
    + intros k a c Hk. apply Hst. by apply Hin.
Qed.

(** The address [SockaddrToTCPOrUnixAddr] finds in the raw client address. *)
Definition client_addr (raw : list byte) : option NetAddr + error :=
  match anyToSockaddr raw with
  | inl (SockaddrInet4 port addr) => inl (Some (TCPAddr (ipv4InIPv6Prefix ++ addr) port ""))
  | inl (SockaddrInet6 port addr z) =>
      inl (Some (TCPAddr addr port (if z =? 0 then "" else default (pretty (Z.to_N z)) (InterfaceByIndex z))))
  | inl (SockaddrUnix name) => inl (Some (UnixAddr name "unix"))
  | inr e => inr e
  end.

Lemma wp_lastClientAddr s Q :
  mem_ok P s ->
  (forall ps cs, mem_ok P (set_slices ps (set_choices cs s)) ->
     Q (client_addr (wv_clientAddr (st_worker s))) (set_slices ps (set_choices cs s))) ->
  wp lastClientAddr Q s.
Proof.
  intros (HP & Hr & Hs) HQ. rewrite /lastClientAddr. wp_steps. set (raw := wv_clientAddr (st_worker s)) in *.
  destruct (anyToSockaddr raw) as [sa|e] eqn:Hsa.
  - pose proof (law_sockaddr (P := P) raw sa Hsa) as Hlaw.
    wp_step. apply wp_next_choice. intros c1. wp_step. apply wp_next_choice. intros c2. wp_steps.
    assert (exists ps, SockaddrToTCPOrUnixAddr InterfaceByIndex c1 c2 sa (st_slices s) =
      Ret (match client_addr raw with inl a => a | inr _ => None end, ps) /\ slice_pool_ok ps /\
      exists a, client_addr raw = inl a) as (ps & Hval & Hps & addr & Ha).
    { rewrite /client_addr Hsa. destruct sa as [port addr|port addr z|name]; cbn [SockaddrToTCPOrUnixAddr].
      - destruct (sockaddrInet4ToIP_ok c1 addr (st_slices s) Hs Hlaw) as (ps & -> & Hok'). exists ps. split_and!; eauto.
      - destruct Hlaw as [Hl Hz].
        destruct (sockaddrInet6ToIPAndZone_ok InterfaceByIndex c1 c2 addr z (st_slices s) Hs Hl Hz) as (ps & -> & Hok').
        exists ps. split_and!; eauto.
      - exists (st_slices s). split_and!; eauto. }
    rewrite Ha in Hval. eapply wp_lift; [exact Hval|]. cbn beta iota. wp_steps. rewrite -Ha.
    apply (HQ ps (tail (tail (st_choices s)))). by split_and!.
  - wp_steps. have HQ1 := HQ (st_slices s) (st_choices s) ltac:(by split_and!). move: HQ1.
    rewrite /client_addr Hsa. by destruct s.
Qed.

(** ** New connections *)

Definition empty_abs : aconn := mkA [] [] false None.

(** The connection [b] of a new descriptor, as the handler gets it. *)
Record new_conn (fd : Z) (b : nat) (c : connection) (s : St) : Prop := {
  nc_managed : managed fd b c s;
  nc_abs : conn_abs c = empty_abs;
  nc_fd : c_fd c = fd;
  nc_network : c_network c = tcp
}.

(** A connection just taken from the pool, with its descriptor and addresses set. *)
Lemma new_conn_fresh fd b c0 loc rem s s' :
  let c := with_remoteAddr rem (with_localAddr loc (with_fd fd (with_key fd (with_fd fd c0)))) in
  fresh_conn c0 -> cm_connections (st_mgr s) !! fd = Some b -> st_conns s !! b = Some (with_key fd (with_fd fd c0)) -> mgr_ok P s ->
  st_conns s' = <[b := c]> (st_conns s) -> st_mgr s' = st_mgr s -> st_connPool s' = st_connPool s -> st_new s' = st_new s ->
  mem_ok P s' -> new_conn fd b c s'.
Proof.
  intros c ((Hf0 & Hk0 & Hn0 & Hst0 & Hmode0 & Hcl0 & Hh0 & Hraw0 & Hctx0) & inb & outb & Hi & Ho & Hin & Hout) Hk Hc Hm Hcs Hmgr Hcp Hnw Hmem.
  destruct Hin as (Hib & Hic & Hia & _), Hout as (Hob & Hoc & Hoa & _).
  split; [|by rewrite /c /conn_abs /= Hi Ho /= Hic Hoc Hcl0 Hctx0|done|done].
  split; [|by rewrite Hmgr|by rewrite Hcs lookup_insert_eq].
  eapply (mgr_ok_update s _ fd b (with_key fd (with_fd fd c0)) c); try done. by exists inb, outb.
Qed.

(** [OnAccept] has run and the first requests are queued. *)
Definition new_served (fd : Z) (b : nat) (c : connection) (s s' : St) : Prop :=
  mgr_ok P s' /\ st_mgr s' = st_mgr s /\ st_worker s' = st_worker s /\ st_log s' = st_log s ++ [CbAccept b] /\
  st_sq_size s' = st_sq_size s /\ (forall b', b' <> b -> st_conns s' !! b' = st_conns s !! b') /\
  exists c' sqes, st_conns s' !! b = Some c' /\ c_fd c' = fd /\ c_network c' = tcp /\ same_peer c c' /\
    c_state c' = next_state (conn_abs c') /\ (c_closed c' = true \/ c_mode c' = kernelSpace) /\
    prog_spec tcp empty_abs (handler (st_log s) (CbAccept b)) (conn_abs c') /\
    st_sq s' = st_sq s ++ sqes /\ Forall2 (sqe_for c') (next_reqs (conn_abs c')) sqes.

Lemma wp_new_served fd b c s :
  w_sendRecvMsg w = false -> new_conn fd b c s -> 1 < free_slots s ->
  prog_valid tcp empty_abs (handler (st_log s) (CbAccept b)) ->
  wp (_ ← setUserSpace b; _ ← run_handler handler b (CbAccept b); addNextRequest w b)
     (fun r s' => r = None /\ new_served fd b c s s') s.
Proof.
  intros Htcp [Hman HA Hfd Hnet] Hsq Hv. have [Hok Hkey] := managed_ok _ _ _ _ Hman. have [Hm Hk Hc] := Hman.
  apply wp_assoc. eapply (wp_callback (P := P) handler b (CbAccept b) s c); [done|done|apply (mo_mem _ _ Hm)|by rewrite Hnet HA|].
  intros s3 c3 Hr3 (Hfd3 & Hkey3 & Hnet3 & _ & _ & _ & _ & Hloc3 & Hrem3 & _) Hf3 Hl3 Hq3 Hspec3. have [Hc3 Hok3 _ HP3] := Hr3.
  cbn [c_fd c_key c_network c_localAddr c_remoteAddr with_mode] in Hfd3, Hkey3, Hnet3, Hloc3, Hrem3. rewrite Hnet HA in Hspec3.
  have Hlen3 : zlen (a_in (conn_abs c3)) <= 0 by apply (prog_spec_in _ _ _ _ Hspec3).
  have Hfree3 : 1 < free_slots s3.
  { rewrite /free_slots Hq3. by destruct Hf3 as (? & ? & ? & ? & ? & _ & ->). }
  cbn beta. eapply wp_mono; [eapply (settle_next (P := P) w Htcp b s3 c3); [done..|rewrite /MinRead; lia|done]|].
  intros r s4 [-> (c4 & sqes & Hc4 & Hok4 & HA4 & Hfd4 & Hkey4 & Hnet4 & Hst4 & Hmode4 & Hall & Hq4 & Hl4 & Hf4 & HP4 & Hp4)].
  split; [done|]. have Hf := event_frame_trans _ _ _ _ Hf3 Hf4.
  split; [eapply (mgr_ok_event_frame s s4 fd b c c4); try done; congruence|].
  destruct Hf as (? & ? & ? & ? & ? & _ & Hs4). split; [by rewrite Hs4|]. split; [by rewrite Hs4|]. split; [congruence|].
  split; [by rewrite Hs4|]. split; [intros b' Hb'; by rewrite Hs4 /= lookup_insert_ne|].
  exists c4, sqes. rewrite HA4. destruct Hp4. split_and!; try done; try congruence. split; congruence.
Qed.

Context (lo : Z) (event : cqe -> M (option error)) `{!StreamWorker handler w lo event}.
Context (Htcp : w_sendRecvMsg w = false).


(** The code [m] handles the receive of [data] up to the dispatch of its handler; [more]
    says that the socket has more data. *)
Definition reaches_dispatch (m : M (option error)) (fd : Z) (a : nat) (c : connection) (data : list byte) (more : bool) (s : St) : Prop :=
  forall Q, (forall s2 c2, st_conns s2 !! a = Some c2 -> conn_ok c2 -> P (st_world s2) -> conn_abs c2 = recv_abs (conn_abs c) data ->
     c_fd c2 = fd -> c_key c2 = fd -> c_network c2 = c_network c -> same_peer c c2 -> event_frame a s s2 ->
     st_log s2 = st_log s -> st_sq s2 = st_sq s ->
     wp (if more && negb (c_closed c) then addReadRequest false a else dispatch handler w a (zlen data))
        (fun err => wp (match err with Some e => closeConn handler a true (Some e) | None => mret () end) (fun _ s' => Q None s')) s2) ->
  wp m Q s.

(** The event after the kernel has stored the data. *)
Lemma event_reaches fd a c inb data more s :
  lo <= fd -> stream_conn fd a c s -> c_state c = connRead -> c_inbound c = Some inb -> 0 < zlen data -> prefilled inb data ->
  reaches_dispatch (event (mkCqe (zlen data) (Z.lor readDataFlag (uint64 fd)) more)) fd a c data more s.
Proof.
  intros Hlo Hsc Hst Hi Hdata (inb2 & Hadv & Hin2 & Hcont) Q HQ. have [Hman Hfd Hrange] := Hsc.
  have [Hcok Hkey] := managed_ok _ _ _ _ Hman. have [Hm Hk Hc] := Hman. destruct Hcok as (inb1 & outb & Hi1 & Ho & Hin & Hout).
  rewrite Hi in Hi1. injection Hi1 as <-. eapply (stream_event _ a c); [constructor|by vm_compute|done|done|lia|done|done|by rewrite Hst|].
  rewrite /consumer_handleConn. wp_steps. rewrite Hst. rewrite /onRead /isClosed. cbn [cqe_Res cqe_nonempty].
  destruct (Z.leb_spec (zlen data) 0); [lia|]. rewrite Htcp. wp_step. eapply wp_on_inbound; [done|done|by rewrite Hadv|]. wp_steps.
  eapply wp_load; [by rewrite /= lookup_insert_eq|]. wp_steps. cbn [c_closed with_inbound].
  set (c2 := with_inbound (Some inb2) c). set (s2 := set_world _ _).
  have H2 := HQ s2 c2. cbn [c_closed] in H2. apply H2; try done.
  - by rewrite /= lookup_insert_eq.
  - by exists inb2, outb.
  - apply (mo_mem _ _ Hm).
  - by rewrite /recv_abs /conn_abs /= Ho Hi /= Hcont.
  - by exists c2, (st_world s), (st_sq s), (st_calls s), (st_log s).
Qed.

(** The kernel stores the data just before the event. *)
Lemma fill_reaches fd a c inb data s :
  lo <= fd -> stream_conn fd a c s -> c_state c = connRead -> c_inbound c = Some inb ->
  0 < zlen data <= RingBuffer_Available inb ->
  reaches_dispatch (_ ← kernel_fill a data; event (mkCqe (zlen data) (Z.lor readDataFlag (uint64 fd)) false)) fd a c data false s.
Proof.
  intros Hlo [Hman Hfd Hrange] Hst Hi Hdata Q HQ. have [Hcok Hkey] := managed_ok _ _ _ _ Hman. have [Hm Hk Hc] := Hman.
  destruct Hcok as (inb1 & outb & Hi1 & Ho & Hin & Hout). rewrite Hi in Hi1. injection Hi1 as <-.
  wp_step. eapply wp_kernel_fill; [done..|lia|]. intros vm' inb' Hin' Hc' Hpre. set (c1 := with_inbound (Some inb') c).
  have HA : conn_abs c1 = conn_abs c by rewrite /conn_abs /= Ho Hi /= Hc'.
  have Hf : event_frame a s (set_conns (<[a := c1]> (st_conns s)) s) by apply event_frame_store.
  apply (event_reaches fd a c1 inb'); try done; [|lia|].
  { split; [|done|done]. split; [|done|by rewrite /= lookup_insert_eq].
    eapply (mgr_ok_event_frame s _ fd a c c1 Hman Hf); [by rewrite /= lookup_insert_eq|by exists inb', outb|done|apply (mo_mem _ _ Hm)]. }
  intros s2 c2 Hc2 Hok2 HP2 HA2 Hfd2 Hkey2 Hnet2 Hp2 Hf2. rewrite HA in HA2. apply (HQ s2 c2); try done.
  by eapply event_frame_trans.
Qed.

Context (Hsync : w_asyncHandler w = false).

(** A receive up to the point where the handler has run. *)
Lemma wp_stream_read_until m fd a c data s Q :
  reaches_dispatch m fd a c data false s ->
  let A0 := recv_abs (conn_abs c) data in
  prog_valid (c_network c) A0 (handler (st_log s) (CbRead a (zlen data))) ->
  (forall s' c', user_ready P a s' c' -> c_fd c' = fd -> c_key c' = fd -> c_network c' = c_network c -> same_peer c c' -> event_frame a s s' ->
     st_log s' = st_log s ++ [CbRead a (zlen data)] -> st_sq s' = st_sq s ->
     prog_spec (c_network c) A0 (handler (st_log s) (CbRead a (zlen data))) (conn_abs c') ->
     wp (read_tail w a) (fun err => wp (match err with Some e => closeConn handler a true (Some e) | None => mret () end)
                                     (fun _ s' => Q None s')) s') ->
  wp m Q s.
Proof.
  intros Hm A0 Hv HQ. apply Hm.
  intros s2 c2 Hc2 Hok2 HP2 HA0 Hfd2 Hkey2 Hnet2 Hp2 Hf2 Hl2 Hsq2. cbn [andb]. rewrite /dispatch Hsync.
  wp_step. apply (wp_callback (P := P) handler a _ s2 c2); [done|done|done|by rewrite HA0 Hnet2 Hl2|].
  intros s3 c3 Hr3 (Hfd3 & Hkey3 & Hnet3 & _ & _ & _ & _ & Hloc3 & Hrem3 & _) Hf3 Hl3 Hsq3 Hspec3. rewrite HA0 Hnet2 Hl2 in Hspec3.
  eapply (HQ s3 c3); try done; try (rewrite ?Hfd3 ?Hkey3 ?Hnet3 ?Hl3 ?Hsq3; cbn [c_fd c_key c_network with_mode]; congruence).
  - eapply same_peer_trans; [exact Hp2|]. by split; rewrite ?Hloc3 ?Hrem3.
  - by eapply event_frame_trans.
Qed.

Lemma wp_stream_read m fd a c data s :
  stream_conn fd a c s -> reaches_dispatch m fd a c data false s ->
  zlen (a_in (conn_abs c)) + zlen data + MinRead < 2 ^ 52 -> 1 < free_slots s ->
  let A0 := recv_abs (conn_abs c) data in
  prog_valid (c_network c) A0 (handler (st_log s) (CbRead a (zlen data))) ->
  wp m (fun r s' => r = None /\ served fd a c (CbRead a (zlen data)) A0 s s') s.
Proof.
  intros Hsc Hm Hbound Hsq A0 Hv. eapply wp_stream_read_until; [done..|].
  intros s3 c3 Hr3 Hfd3 Hkey3 Hnet3 Hp3 Hf3 Hl3 Hsq3 Hspec3. have [Hc3 Hok3 _ HP3] := Hr3.
  have Hlen3 : zlen (a_in (conn_abs c3)) <= zlen (a_in (conn_abs c)) + zlen data.
  { etransitivity; [by eapply prog_spec_in|]. by rewrite /= zlen_app. }
  have Hfree3 : free_slots s3 = free_slots s.
  { rewrite /free_slots Hsq3. destruct Hf3 as (? & ? & ? & ? & ? & ? & ->). done. }
  eapply wp_mono; [eapply (settle_read_tail (P := P) w Htcp a s3 c3); [done..|lia|lia]|].
  intros r s4 [-> Hset]. wp_steps. split; [done|]. by eapply (served_settled _ _ _ _ _ s s3 c3).
Qed.

(** A receive while the socket has more data: the bytes are kept, the handler is not
    called, and the next receive is queued. *)
Lemma wp_stream_more m fd a c data s :
  reaches_dispatch m fd a c data true s -> c_closed c = false -> a_out (conn_abs c) = [] ->
  zlen (a_in (conn_abs c)) + zlen data + MinRead < 2 ^ 52 -> 1 < free_slots s ->
  wp m (fun r s' => r = None /\ exists s2 c2, settled (P := P) a c2 s2 s' /\ conn_abs c2 = recv_abs (conn_abs c) data /\
    c_fd c2 = fd /\ c_key c2 = fd /\ c_network c2 = c_network c /\ same_peer c c2 /\ event_frame a s s2 /\
    st_log s2 = st_log s /\ st_sq s2 = st_sq s) s.
Proof.
  intros Hm Hcl Hout Hbound Hsq. apply Hm. intros s2 c2 Hc2 Hok2 HP2 HA2 Hfd2 Hkey2 Hnet2 Hp2 Hf2 Hl2 Hsq2. rewrite Hcl. cbn [andb negb].
  eapply wp_mono; [apply (settle_read (P := P) a s2 c2); try done|].
  - rewrite HA2 /recv_abs. cbn [a_in]. rewrite zlen_app. lia.
  - rewrite /free_slots Hsq2. destruct Hf2 as (? & ? & ? & ? & ? & ? & ->). rewrite /free_slots in Hsq. simpl. lia.
  - by rewrite HA2.
  - have : a_closed (conn_abs c2) = a_closed (conn_abs c) by rewrite HA2. by rewrite /= Hcl.
  - intros r s' [-> Hs]. wp_steps. split; [done|]. exists s2, c2. by split_and!.
Qed.

(** ** Sent bytes *)

(** The callback after [n] bytes were sent. *)
Lemma wp_onWritten key a c outb n s Q :
  managed key a c s -> c_outbound c = Some outb -> 0 <= n <= RingBuffer_Buffered outb ->
  let A := conn_abs c in let A0 := mkA (a_in A) (drop (Z.to_nat n) (a_out A)) (a_closed A) (a_ctx A) in
  prog_valid (c_network c) A0 (handler (st_log s) (CbWrite a n)) ->
  (forall s' c', user_ready P a s' c' -> c_fd c' = c_fd c -> c_key c' = key -> c_network c' = c_network c -> c_state c' = c_state c -> same_peer c c' -> event_frame a s s' ->
     st_log s' = st_log s ++ [CbWrite a n] -> st_sq s' = st_sq s ->
     prog_spec (c_network c) A0 (handler (st_log s) (CbWrite a n)) (conn_abs c') -> Q () s') ->
  wp (onWritten handler a n) Q s.
Proof.
  intros Hman Ho Hn A A0 Hv HQ. have [Hcok Hkey] := managed_ok _ _ _ _ Hman.
  have [Hm Hk Hc] := Hman. destruct Hcok as (inb & outb1 & Hi & Ho1 & Hin & [Hout Hal]). simplify_eq.
  destruct (AdvanceRead_ok outb n Hout Hn) as (outb' & Hadv & Hok' & Hcont).
  have Hal' : allocated outb' by rewrite /allocated (AdvanceRead_vm _ _ _ Hadv).
  rewrite /onWritten. wp_step. eapply wp_on_outbound; [done|done|by rewrite Hadv|].
  set (c2 := with_outbound (Some outb') c). set (s2 := set_world _ _).
  have HA0 : conn_abs c2 = A0 by rewrite /A0 /A /conn_abs /= Ho Hi /= Hcont.
  apply (wp_callback (P := P) handler a _ s2 c2); [by rewrite /= lookup_insert_eq|by exists inb, outb'|apply (mo_mem _ _ Hm)|by rewrite HA0|].
  intros s3 c3 Hr3 (Hfd3 & Hkey3 & Hnet3 & Hst3 & _ & _ & _ & Hloc3 & Hrem3 & _) Hf3 Hl3 Hsq3 Hspec3. rewrite HA0 in Hspec3.
  apply (HQ s3 c3); try done; try (by rewrite ?Hfd3 ?Hkey3 ?Hnet3 ?Hst3).
  eapply event_frame_trans; [|exact Hf3]. by exists c2, (st_world s), (st_sq s), (st_calls s), (st_log s).
Qed.

Lemma wp_stream_write fd a c outb n s :
  lo <= fd -> stream_conn fd a c s -> c_state c = connWrite -> c_outbound c = Some outb -> 0 <= n <= RingBuffer_Buffered outb ->
  zlen (a_in (conn_abs c)) + MinRead < 2 ^ 52 -> 1 < free_slots s ->
  let A := conn_abs c in let A0 := mkA (a_in A) (drop (Z.to_nat n) (a_out A)) (a_closed A) (a_ctx A) in
  prog_valid (c_network c) A0 (handler (st_log s) (CbWrite a n)) ->
  wp (event (mkCqe n (Z.lor writeDataFlag (uint64 fd)) false))
     (fun r s' => r = None /\ served fd a c (CbWrite a n) A0 s s') s.
Proof.
  intros Hlo Hsc Hst Ho Hn Hbound Hsq A A0 Hv. have [[Hm Hk Hc] Hfd Hrange] := Hsc.
  eapply (stream_event fd a c); [constructor|by vm_compute|done|done|lia|done|done|by rewrite Hst|].
  rewrite /consumer_handleConn. wp_steps. rewrite Hst. cbn [cqe_Res]. wp_step. eapply wp_onWritten; [apply Hsc|done..|].
  intros s3 c3 Hr3 Hfd3 Hkey3 Hnet3 _ Hp3 Hf3 Hl3 Hsq3 Hspec3. have [Hc3 Hok3 _ HP3] := Hr3.
  rewrite Hfd in Hfd3. have Hlen3 : zlen (a_in (conn_abs c3)) <= zlen (a_in A) by apply (prog_spec_in _ _ _ _ Hspec3).
  have Hfree3 : free_slots s3 = free_slots s.
  { rewrite /free_slots Hsq3. destruct Hf3 as (? & ? & ? & ? & ? & ? & ->). done. }
  eapply wp_mono; [eapply (settle_next (P := P) w Htcp a s3 c3); [done..|rewrite -/A in Hbound; lia|lia]|].
  intros r s4 [-> Hset]. wp_steps. split; [done|]. by eapply (served_settled _ _ _ _ _ s s3 c3).
Qed.

(** ** Sessions *)

(** A completion of the pending request: [data] has arrived, or [n] bytes left. *)
Inductive kevent : Type := KRecv (data : list byte) | KSent (n : Z).

(** The ring takes the queued entries, serves the pending request and hands its
    completion to the worker; a receive stores as much as its range can hold. *)
Definition complete (fd : Z) (a : nat) (ev : kevent) : M (option error) :=
  _ ← modify (set_sq []);
  match ev with
  | KRecv data =>
      c ← load a;
      inb ← lift (deref (c_inbound c));
      let data := take (Z.to_nat (RingBuffer_Available inb)) data in
      _ ← kernel_fill a data;
      event (mkCqe (zlen data) (Z.lor readDataFlag (uint64 fd)) false)
  | KSent n => event (mkCqe n (Z.lor writeDataFlag (uint64 fd)) false)
  end.

Fixpoint run_session (fd : Z) (a : nat) (evs : list kevent) : M () :=
  match evs with
  | [] => mret ()
  | ev :: evs => _ ← complete fd a ev; run_session fd a evs
  end.

(** How much of [data] one receive can take: all of it up to [MinRead]. *)
Definition fits (data : list byte) (n : Z) : Prop := 0 < n <= zlen data /\ Z.min (zlen data) MinRead <= n.

(** The session as the handler sees it: the bytes of the peer in order, and the
    acknowledgement of the bytes it wrote; [ins] are the messages received, [outs] the
    bytes the kernel took. *)
Inductive session (network : Z) (a : nat) :
    list callback -> aconn -> list kevent -> list callback -> aconn -> list (list byte) -> list byte -> Prop :=
| ses_nil log A : session network a log A [] log A [] []
| ses_recv log A data n evs A1 log' A' ins outs :
    fits data n ->
    prog_spec network (recv_abs A (take (Z.to_nat n) data)) (handler log (CbRead a n)) A1 ->
    session network a (log ++ [CbRead a n]) A1 evs log' A' ins outs ->
    session network a log A (KRecv data :: evs) log' A' (take (Z.to_nat n) data :: ins) outs
| ses_sent log A n evs A1 log' A' ins outs :
    0 <= n <= zlen (a_out A) ->
    prog_spec network (sent_abs A n) (handler log (CbWrite a n)) A1 ->
    session network a (log ++ [CbWrite a n]) A1 evs log' A' ins outs ->
    session network a log A (KSent n :: evs) log' A' ins (take (Z.to_nat n) (a_out A) ++ outs).

(** Completions that answer the pending request, and handlers that use the buffers
    within their bounds. *)
Inductive session_valid (network : Z) (a : nat) : list callback -> aconn -> list kevent -> Prop :=
| sv_nil log A : session_valid network a log A []
| sv_recv log A data evs :
    next_state A = connRead -> 0 < zlen data -> zlen (a_in A) + zlen data + MinRead < 2 ^ 52 ->
    (forall n, fits data n ->
       prog_valid network (recv_abs A (take (Z.to_nat n) data)) (handler log (CbRead a n))) ->
    (forall n A1, fits data n ->
       prog_spec network (recv_abs A (take (Z.to_nat n) data)) (handler log (CbRead a n)) A1 ->
       session_valid network a (log ++ [CbRead a n]) A1 evs) ->
    session_valid network a log A (KRecv data :: evs)
| sv_sent log A n evs :
    next_state A = connWrite -> 0 <= n <= zlen (a_out A) -> zlen (a_in A) + MinRead < 2 ^ 52 ->
    prog_valid network (sent_abs A n) (handler log (CbWrite a n)) ->
    (forall A1, prog_spec network (sent_abs A n) (handler log (CbWrite a n)) A1 ->
       session_valid network a (log ++ [CbWrite a n]) A1 evs) ->
    session_valid network a log A (KSent n :: evs).

(** The connection between two events: its requests are exactly the ones its data
    asks for. *)
Record resting (fd : Z) (a : nat) (c : connection) (s : St) : Prop := {
  rest_stream : stream_conn fd a c s;
  rest_state : c_state c = next_state (conn_abs c);
  rest_slots : 2 <= st_sq_size s;
  rest_room inb : next_state (conn_abs c) = connRead -> c_inbound c = Some inb -> MinRead <= RingBuffer_Available inb
}.

Lemma next_reqs_read A : next_state A = connRead -> next_reqs A = [ARecv].
Proof. rewrite /next_state /next_reqs. by destruct (a_closed A), (0 <? zlen (a_out A)). Qed.

Lemma resting_submit fd a c s : resting fd a c s -> resting fd a c (set_sq [] s) /\ 1 < free_slots (set_sq [] s).
Proof.
  intros [[[Hm Hk Hc] Hfd Hr] Hst Hsz Hroom]. split; [|rewrite /free_slots /= /zlen /=; lia].
  do 3 (split; try done). by destruct Hm; split.
Qed.

Lemma served_resting fd a c cb A0 s s' :
  stream_conn fd a c s -> 2 <= st_sq_size s -> served fd a c cb A0 (set_sq [] s) s' ->
  exists c', resting fd a c' s' /\ c_network c' = c_network c /\ st_log s' = st_log s ++ [cb] /\
    prog_spec (c_network c) A0 (handler (st_log s) cb) (conn_abs c') /\
    (c_closed c' = true \/ c_mode c' = kernelSpace) /\ Forall2 (sqe_for c') (next_reqs (conn_abs c')) (st_sq s').
Proof.
  intros [[Hm Hk Hc] Hfd Hr] Hsz (Hm' & Hmgr & Hl & Hsize & _ & _ & A' & c' & sqes & Hspec & Hc' & HA & Hfd' & Hkey' & Hnet' & _ & Hst' & Hmode & Hsq & Hall & _).
  exists c'. rewrite Hsq HA. split_and!; try done. split; [|by rewrite HA|by rewrite Hsize|].
  - split; [|done|done]. split; [done|by rewrite Hmgr|done].
  - intros inb Hnext Hi. rewrite HA in Hnext. rewrite (next_reqs_read _ Hnext) in Hall.
    inversion Hall as [|r e rs es He _]; subst. inversion He; simplify_eq. done.
Qed.

(** One completion of a session. *)
Definition answered (network : Z) (fd : Z) (a : nat) (cb : callback) (A0 : aconn) (s s' : St) : Prop :=
  exists c', resting fd a c' s' /\ c_network c' = network /\ st_log s' = st_log s ++ [cb] /\
    prog_spec network A0 (handler (st_log s) cb) (conn_abs c') /\
    (c_closed c' = true \/ c_mode c' = kernelSpace) /\ Forall2 (sqe_for c') (next_reqs (conn_abs c')) (st_sq s').

Lemma wp_complete_recv fd a c data s :
  lo <= fd -> resting fd a c s -> next_state (conn_abs c) = connRead -> 0 < zlen data ->
  zlen (a_in (conn_abs c)) + zlen data + MinRead < 2 ^ 52 ->
  (forall n, fits data n ->
     prog_valid (c_network c) (recv_abs (conn_abs c) (take (Z.to_nat n) data)) (handler (st_log s) (CbRead a n))) ->
  wp (complete fd a (KRecv data)) (fun _ s' => exists n, fits data n /\
    answered (c_network c) fd a (CbRead a n) (recv_abs (conn_abs c) (take (Z.to_nat n) data)) s s') s.
Proof.
  intros Hlo Hrest Hnext Hpos Hbound Hv. have [Hsc Hst Hsz Hroom] := Hrest.
  destruct (resting_submit _ _ _ _ Hrest) as [[Hsc0 _ _ _] Hslots]. have [Hman _ _] := Hsc.
  have [Hcok _] := managed_ok _ _ _ _ Hman. destruct Hcok as (inb & outb & Hi & Ho & Hin & Hout).
  have Hav := Hroom inb Hnext Hi. rewrite /complete. wp_steps. eapply wp_load; [apply Hman|]. wp_steps.
  eapply wp_deref; [done|]. cbn beta. set (d := take _ data).
  have Hd : zlen d = Z.min (RingBuffer_Available inb) (zlen data).
  { rewrite /d /zlen length_take. rewrite /MinRead /zlen in Hav |- *. lia. }
  have Hdt : take (Z.to_nat (zlen d)) data = d.
  { rewrite Hd /d. destruct (decide (RingBuffer_Available inb <= zlen data)).
    - by rewrite Z.min_l.
    - rewrite Z.min_r; [lia|]. rewrite !take_ge //; rewrite /zlen in n |- *; lia. }
  have Hn : 0 < zlen d <= zlen data by rewrite /MinRead in Hav; lia.
  have Hfits : fits data (zlen d) by split; [done|lia].
  specialize (Hv (zlen d) Hfits). rewrite Hdt in Hv.
  eapply wp_mono; [eapply (wp_stream_read _ fd a c d (set_sq [] s)); try done; [|lia]|].
  { apply (fill_reaches fd a c inb); try done; [by rewrite Hst Hnext|lia]. }
  intros r s' [_ Hserved]. exists (zlen d). split; [done|]. rewrite Hdt.
  apply (served_resting _ _ _ _ _ _ _ Hsc Hsz Hserved).
Qed.

Lemma wp_complete_sent fd a c n s :
  lo <= fd -> resting fd a c s -> next_state (conn_abs c) = connWrite -> 0 <= n <= zlen (a_out (conn_abs c)) ->
  zlen (a_in (conn_abs c)) + MinRead < 2 ^ 52 ->
  prog_valid (c_network c) (sent_abs (conn_abs c) n) (handler (st_log s) (CbWrite a n)) ->
  wp (complete fd a (KSent n)) (fun _ s' => answered (c_network c) fd a (CbWrite a n) (sent_abs (conn_abs c) n) s s') s.
Proof.
  intros Hlo Hrest Hnext Hn Hbound Hv. have [Hsc Hst Hsz Hroom] := Hrest.
  destruct (resting_submit _ _ _ _ Hrest) as [[Hsc0 _ _ _] Hslots]. have [Hman _ _] := Hsc.
  have [Hcok _] := managed_ok _ _ _ _ Hman. destruct Hcok as (inb & outb & Hi & Ho & Hin & Hout).
  rewrite /complete. wp_steps.
  have HoutA : zlen (a_out (conn_abs c)) = RingBuffer_Buffered outb by rewrite /conn_abs Ho /= zlen_contents //; apply Hout.
  rewrite HoutA in Hn.
  eapply wp_mono; [eapply (wp_stream_write fd a c outb n (set_sq [] s)); try done; by rewrite Hst Hnext|].
  intros r s' [_ Hserved]. apply (served_resting _ _ _ _ _ _ _ Hsc Hsz Hserved).
Qed.

(** The requests in the ring are the ones the connection needs. *)
Definition requests_pending (c : connection) (s : St) : Prop :=
  (c_closed c = true \/ c_mode c = kernelSpace) /\ Forall2 (sqe_for c) (next_reqs (conn_abs c)) (st_sq s).

Lemma run_session_ok fd a c evs s :
  lo <= fd -> resting fd a c s -> session_valid (c_network c) a (st_log s) (conn_abs c) evs ->
  wp (run_session fd a evs) (fun _ s' => exists c' ins outs, resting fd a c' s' /\ c_network c' = c_network c /\
    session (c_network c) a (st_log s) (conn_abs c) evs (st_log s') (conn_abs c') ins outs /\
    match evs with [] => c' = c /\ s' = s | _ => requests_pending c' s' end) s.
Proof.
  intros Hlo Hrest Hv. remember (st_log s) as log eqn:Hlog. remember (conn_abs c) as A eqn:HA.
  remember (c_network c) as net eqn:Hnet. revert s c Hrest Hlog HA Hnet.
  induction Hv as [log A|log A data evs Hnext Hpos Hb Hpv Hk IH|log A n evs Hnext Hn Hb Hpv Hk IH];
    intros s c Hrest -> -> ->; simpl.
  - wp_steps. exists c, [], []. split_and!; try done. constructor.
  - wp_step. eapply wp_mono; [apply (wp_complete_recv fd a c data s); try done|].
    intros _ s1 (n & Hn & c1 & Hr1 & Hnet1 & Hl1 & Hsp1 & Hq1).
    eapply wp_mono; [by eapply (IH n (conn_abs c1))|].
    intros [] s2 (c2 & ins & outs & Hr2 & Hnet2 & Hses & Hq2). eexists c2, _, _. split_and!; [done|done| |].
    + by econstructor.
    + destruct evs; [|done]. by destruct Hq2 as [-> ->].
  - wp_step. eapply wp_mono; [by apply (wp_complete_sent fd a c n s)|].
    intros _ s1 (c1 & Hr1 & Hnet1 & Hl1 & Hsp1 & Hq1).
    eapply wp_mono; [by eapply (IH (conn_abs c1))|].
    intros [] s2 (c2 & ins & outs & Hr2 & Hnet2 & Hses & Hq2). eexists c2, _, _. split_and!; [done|done| |].
    + by econstructor.
    + destruct evs; [|done]. by destruct Hq2 as [-> ->].
Qed.

End StreamProofs.

(** *** A concrete stream worker *)

Definition demo_worker : workerConf := mkConf 5 0 false false false 0 None.

Definition stream_state (state : connectionState) (slots : Z) : St :=
  mkSt (<[0%nat := mkConn 5 5 tcp (Some page_buffer) (Some page_buffer) connAccept kernelSpace false None None None None None noOp]>
         {[1%nat := mkConn 7 7 tcp (Some page_buffer) (Some page_buffer) state kernelSpace false None None None None None noOp]})
    2 NewPool (@NewRingBufferPool linux_x86_64) empty_world NewByteSlicePool [] [] slots [] []
    (mkManager (<[5 := 0%nat]> {[7 := 1%nat]}) 2 false ∅ newKeyPool) [] [] (mkVars true [] false false false 0 ∅ None true).

Definition demo_listener : connection :=
  mkConn 5 5 tcp (Some page_buffer) (Some page_buffer) connAccept kernelSpace false None None None None None noOp.
Definition demo_stream (state : connectionState) : connection :=
  mkConn 7 7 tcp (Some page_buffer) (Some page_buffer) state kernelSpace false None None None None None noOp.

Lemma page_buffer_ok : buffer_ok page_buffer.
Proof. split; [right; eexists; apply page_buffer_mapped|by eexists]. Qed.

Lemma stream_state_ok state slots : mgr_ok exact_world (stream_state state slots).
Proof.
  split; try done; cbn [stream_state st_mgr cm_connections st_conns st_connPool internalPool NewPool st_new].
  - split_and!; [apply empty_world_exact|apply new_ring_pool_ok|apply slice_pool_new].
  - intros k a [[<- <-]|[_ [<- <-]%lookup_singleton_Some]]%lookup_insert_Some;
      (eexists; split; [reflexivity|]; split; [|done]; by exists page_buffer, page_buffer; split_and!; try apply page_buffer_ok).
  - intros a ?%not_elem_of_nil. done.
  - constructor.
  - intros k a _ ?%not_elem_of_nil. done.
  - intros a [c [[<- _]|[_ [<- _]%lookup_singleton_Some]]%lookup_insert_Some]; lia.
  - exists []. split; [apply seq_new_ok|constructor].
Qed.

Lemma stream_state_table state slots : stream_table (stream_state state slots).
Proof.
  intros k a c. cbn [stream_state st_mgr cm_connections st_conns].
  intros [[<- <-]|[_ [<- <-]%lookup_singleton_Some]]%lookup_insert_Some [= <-]; done.
Qed.

Lemma demo_stream_conn state slots : stream_conn (P := exact_world) 7 1 (demo_stream state) (stream_state state slots).
Proof. split; [split; [apply stream_state_ok|done|done]|done|simpl; lia]. Qed.

Lemma demo_managed state slots : managed (P := exact_world) 5 0 demo_listener (stream_state state slots).
Proof. split; [apply stream_state_ok|done|done]. Qed.

Lemma demo_abs state : conn_abs (demo_stream state) = mkA [] [] false None.
Proof. done. Qed.

(** A handler that answers every message with two bytes, and one that also closes. *)
Definition answer_handler : EventHandler := fun _ cb =>
  match cb with CbRead _ _ => HOp (UWrite [x01; x02]) (fun _ => HRet) | _ => HRet end.
Definition close_handler : EventHandler := fun _ cb =>
  match cb with CbRead _ _ => write_and_close | _ => HRet end.

Lemma write_spec network A bs r A' :
  a_closed A = false -> conn_spec network A (UWrite bs) r A' -> A' = mkA (a_in A) (a_out A ++ bs) false (a_ctx A).
Proof.
  intros Hcl Hs. inversion Hs; simplify_eq/=; try congruence.
  match goal with H : fifo_step _ (OpWrite _) _ _ |- _ => inversion H; subst end. by rewrite Hcl.
Qed.

Lemma answer_spec network log a n A A' :
  a_closed A = false -> prog_spec network A (answer_handler log (CbRead a n)) A' ->
  A' = mkA (a_in A) (a_out A ++ [x01; x02]) false (a_ctx A).
Proof. intros Hcl Hs. inversion Hs as [|? ? ? r A1 ? Hw Hs1]; subst. inversion Hs1; subst. by eapply write_spec. Qed.

