(* ===== verification/ShardWorker.v ===== *)
(** * ShardWorker: [shard_worker.go]

    A worker that accepts connections (or receives datagrams) on its own socket and
    serves them on its own ring. *)

From S2P Require Import Prelude Errors SyncPool VirtualMem MagicRing RingRefinement RingPool ByteSlicePool.
From S2P Require Import KeyPool Flags Submitter Sockaddr SocketOps GoState Conn ConnSpec ConnManager Worker.
From S2P Require Import Looper.
Local Open Scope string_scope.
Local Open Scope list_scope.
Local Open Scope Z_scope.

Definition SO_INCOMING_CPU : Z := 49.

Section ShardWorker.
Context {env : Env} (handler : EventHandler) (w : workerConf).

(** [connectionProtocol := !config.sendRecvMsg] *)
Definition connectionProtocol : bool := negb (w_sendRecvMsg w).

(** [unix.SetsockoptInt] *)
Definition sys_SetsockoptInt (fd level opt value : Z) (tr : trace) : option error * trace :=
  let c := CSetsockoptInt fd level opt value in
  let e := k_call tr c in (if e =? 0 then None else Some (Errno e), tr ++ [c]).

(** The socket options of an accepted connection. *)
Definition accept_options (fd : Z) : M (option error) :=
  '(_, err) ← (if w_cpuAffinity w
               then sys_setter (sys_SetsockoptInt fd SOL_SOCKET SO_INCOMING_CPU (w_index w + 1))
               else mret ((), None));
  match err with
  | Some e => mret (Some (Wrap ("fd: " +:+ pretty fd +:+ ", setting SO_INCOMING_CPU error: ") e))
  | None =>
      '(_, err) ← (if 0 <? w_tcpKeepAlive w
                   then sys_setter (SetKeepAlivePeriod fd (period_seconds (w_tcpKeepAlive w)))
                   else mret ((), None));
      mret (Wrap ("fd: " +:+ pretty fd +:+ ", setting tcpKeepAlive error: ") <$> err)
  end.

(** The connection of an accepted descriptor. *)
Definition accept_conn (fileDescriptor : Z) : M nat :=
  conn ← getFd fileDescriptor;
  _ ← store conn (with_fd fileDescriptor);
  _ ← store conn (with_localAddr (w_localAddr w));
  clientAddr ← lastClientAddr;
  _ ← match clientAddr with inl addr => store conn (with_remoteAddr addr) | inr _ => mret () end;
  mret conn.

Definition onAccept (cqe : cqe) : M (option error) :=
  err ← addAcceptConnRequest (w_fd w);
  match err with
  | Some e => _ ← set_accepting false; mret (Some (Wrap "add accept() request error: " e))
  | None =>
      let fileDescriptor := cqe_Res cqe in
      conn ← accept_conn fileDescriptor;
      err ← accept_options fileDescriptor;
      match err with
      | Some e => mret (Some e)
      | None =>
          _ ← setUserSpace conn;
          _ ← run_handler handler conn (CbAccept conn);
          addNextRequest w conn
      end
  end.

Definition stopAccept : M () := syscallCloseSocket (w_fd w).

Definition shard_activeConnections (m : connectionManager) : Z := mgr_activeConnections m - 1.

Definition handleConn (a : nat) (cqe : cqe) : M () :=
  c ← load a;
  err ← match c_state c with
        | connAccept => onAccept cqe
        | connRead => onRead handler w cqe a
        | connWrite =>
            if negb connectionProtocol && (c_key c =? 1) then mret None
            else
              _ ← onWritten handler a (cqe_Res cqe);
              if w_sendRecvMsg w then c ← load a; _ ← release (c_key c); mret None
              else addNextRequest w a
        | connClose =>
            _ ← (if has_flag (cqe_UserData cqe) closeConnFlag then closeConn handler a false None
                 else if has_flag (cqe_UserData cqe) writeDataFlag then onWritten handler a (cqe_Res cqe)
                 else mret ());
            mret None
        | connInvalid => mret (Some (ErrorUnknownConnectionState (state_num connInvalid)))
        end;
  match err with
  | Some e => closeConn handler a true (Some e)
  | None => mret ()
  end.

(** [prepareHandler] *)
Definition shard_prepare : M (option error) :=
  if connectionProtocol then
    err ← addAcceptConnRequest (w_fd w);
    _ ← (match err with None => set_accepting true | Some _ => mret () end);
    mret err
  else
    conn ← connectionManager_get 1 (w_fd w);
    _ ← store conn (with_fd (w_fd w));
    _ ← initMsgHeader conn;
    addReadRequest (w_sendRecvMsg w) conn.

Definition closeAllConnsAndRings : M () :=
  _ ← set_accepting false;
  _ ← syscallCloseSocket (w_fd w);
  connectionManager_close
    (fun conn => err ← addCloseConnRequest conn; mret (match err with None => true | Some _ => false end)) (w_fd w).

Definition shard_shutdownHandler : M (option bool) :=
  s ← get_state;
  _ ← when (needToShutdown (st_worker s)) (_ ← closeAllConnsAndRings; markShutdownInProgress);
  mret (Some true).

Definition shard_finished (s : St) : bool :=
  allClosed (st_mgr s) ||
  (connectionProtocol && negb (wv_accepting (st_worker s)) && (shard_activeConnections (st_mgr s) =? 0)).

Definition shard_loopFinishCondition : M bool :=
  s ← get_state;
  if shard_finished s then _ ← worker_close; _ ← notifyFinish; mret true else mret false.

(** The event processor of [loop]. *)
Definition shard_event (cqe : cqe) : M (option error) :=
  exit ← processEvent cqe (fun userData =>
           s ← get_state;
           mret ((key_of userData =? uint64 (w_fd w)) && negb (wv_accepting (st_worker s))));
  if (exit : bool) then mret None
  else
    let key := int64 (key_of (cqe_UserData cqe)) in
    let connFd := if connectionProtocol then key else w_fd w in
    conn ← connectionManager_get key connFd;
    _ ← handleConn conn cqe;
    mret None.

Definition shard_looper (fuel : nat) (maxCQEvents : Z) : looper St := {|
  cpuAffinity := w_cpuAffinity w;
  processPriority := false;
  maxCQEvents := maxCQEvents;
  prepareHandler := shard_prepare;
  shutdownHandler := shard_shutdownHandler;
  loopFinisher := _ ← handleAsyncWritesIfEnabled w fuel; mret ();
  loopFinishCondition := shard_loopFinishCondition
|}.

(** [loop(fd)] *)
Definition shard_loop (host : Host) (fuel : nat) (maxCQEvents : Z) (rounds : list ring_round) : M (option (option error)) :=
  r ← startLoop host (shard_looper fuel maxCQEvents) (w_index w) shard_event rounds;
  match r with
  | None => mret None
  | Some err => _ ← stopAccept; mret (Some err)
  end.

End ShardWorker.
