(* ===== verification/ShardSpec.v ===== *)
(** * ShardSpec: correctness of the shard worker

    Each completion of a stream connection runs the right callback on the right
    connection and queues exactly one next request chain; a connection whose close
    completes, or whose peer is gone, is reported once and released. *)

From S2P Require Import Prelude Errors SyncPool VirtualMem MagicRing RingRefinement RingPool ByteSlicePool.
From S2P Require Import KeyPool Flags Submitter Sockaddr SocketOps GoState Conn ConnSpec ConnManager Worker.
From S2P Require Import WorkerSpec Looper ConsumerWorker StreamSpec ShardWorker.
Local Open Scope Z_scope.

Section ShardProofs.
Context {env : Env} {P : World -> Prop} `{!EnvLaws env P}.
Context (handler : EventHandler) (w : workerConf).

(** An event of a known connection reaches [handleConn]. *)
Lemma wp_shard_key_event key a res flag nonempty s Q :
  is_flag flag -> 0 <= key < 2 ^ 59 -> 0 <= res -> cm_connections (st_mgr s) !! key = Some a ->
  wp (handleConn handler w a (mkCqe res (Z.lor flag (uint64 key)) nonempty)) (fun _ s' => Q None s') s ->
  wp (shard_event handler w (mkCqe res (Z.lor flag (uint64 key)) nonempty)) Q s.
Proof.
  intros Hflag Hfd Hres Hk HQ. destruct (key_data flag key Hflag Hfd) as (Hne & Hkey & _).
  rewrite /shard_event /processEvent. cbn [cqe_Res cqe_UserData]. destruct (Z.ltb_spec res 0); [lia|]. wp_steps.
  rewrite Hne Hkey. wp_step. eapply wp_get_known; [done|]. wp_step.
  eapply wp_mono; [exact HQ|]. intros [] s' Hs'. by wp_steps.
Qed.

Lemma wp_shard_event fd a res flag nonempty s Q :
  is_flag flag -> 0 <= fd < 2 ^ 31 -> 0 <= res -> cm_connections (st_mgr s) !! fd = Some a ->
  wp (handleConn handler w a (mkCqe res (Z.lor flag (uint64 fd)) nonempty)) (fun _ s' => Q None s') s ->
  wp (shard_event handler w (mkCqe res (Z.lor flag (uint64 fd)) nonempty)) Q s.
Proof. intros Hflag Hfd. apply wp_shard_key_event; [done|lia]. Qed.

(** On a stream connection the shard worker does what the consumer does. *)
Lemma handleConn_stream a c cqe s :
  w_sendRecvMsg w = false -> st_conns s !! a = Some c -> c_state c <> connAccept ->
  handleConn handler w a cqe s = consumer_handleConn handler w a cqe s.
Proof.
  intros Htcp Hc Hst. rewrite /handleConn /consumer_handleConn /connectionProtocol Htcp /mbind /StateM_bind /load Hc. cbn [deref negb andb outcome_bind mbind].
  by destruct (c_state c).
Qed.

Lemma shard_stream_worker : w_sendRecvMsg w = false -> StreamWorker handler w 0 (shard_event handler w).
Proof.
  intros Htcp fd a c res flag nonempty s Q Hflag _ _ Hfd Hres Hk Hc Hst HQ. eapply wp_shard_event; [done..|].
  rewrite /wp (handleConn_stream a c) //.
Qed.

(** ** Accepted connections *)

Definition accept_sqe (fd : Z) : sqe := mkSqe (SqAccept fd) (Z.lor acceptDataFlag (uint64 fd)) false.

Lemma wp_addAcceptConnRequest fd al cl s Q :
  cm_connections (st_mgr s) !! fd = Some al -> st_conns s !! al = Some cl -> 0 < free_slots s ->
  Q None (set_conns (<[al := with_state connAccept cl]> (st_conns s)) (set_sq (st_sq s ++ [accept_sqe fd]) s)) ->
  wp (addAcceptConnRequest fd) Q s.
Proof.
  intros Hk Hc Hsq HQ. rewrite /addAcceptConnRequest /addAcceptRequest /push_sqe. wp_steps.
  rewrite sq_full_false //. wp_steps. eapply wp_get_known; [done|]. wp_steps. exact HQ.
Qed.

Context (Htcp : w_sendRecvMsg w = false).

(** The connection [b] of a freshly accepted descriptor, as the handler gets it. *)
Record accepted (fd : Z) (b : nat) (c : connection) (s s' : St) : Prop := {
  acc_conn : new_conn (P := P) fd b c s';
  acc_local : c_localAddr c = w_localAddr w;
  acc_remote addr : client_addr (wv_clientAddr (st_worker s)) = inl addr -> c_remoteAddr c = addr;
  acc_new k : cm_connections (st_mgr s) !! k <> Some b;
  acc_others b' : b' <> b -> st_conns s' !! b' = st_conns s !! b';
  acc_table : cm_connections (st_mgr s') = <[fd := b]> (cm_connections (st_mgr s));
  acc_closing : cm_closing (st_mgr s') = cm_closing (st_mgr s);
  acc_frame : io_frame s s'
}.

Lemma wp_accept_conn fd s Q :
  mgr_ok P s -> cm_connections (st_mgr s) !! fd = None ->
  (forall b c s', accepted fd b c s s' -> Q b s') -> wp (accept_conn w fd) Q s.
Proof.
  intros Hm Hfree HQ. rewrite /accept_conn /getFd. wp_step. eapply (wp_get_new (P := P)); [done..|].
  intros b s1 (Hm1 & Hio1 & Hb1 & Hnew & Hmap1 & Hcl1 & _ & _ & c0 & Hc0 & Hfresh).
  wp_steps. eapply wp_store; [by rewrite /= lookup_insert_eq|]. cbn beta. wp_steps.
  set (c1 := with_localAddr (w_localAddr w) _). set (s2 := set_conns _ (set_conns _ s1)).
  have Hc2 : st_conns s2 !! b = Some c1 by rewrite /= lookup_insert_eq.
  have Hw : st_worker s2 = st_worker s by apply Hio1.
  apply (wp_lastClientAddr (P := P)); [apply (mo_mem _ _ Hm1)|]. intros ps cs Hmem3. rewrite Hw.
  set (s3 := set_slices ps (set_choices cs s2)).
  set (c3 := match client_addr (wv_clientAddr (st_worker s)) with inl addr => with_remoteAddr addr c1 | inr _ => c1 end).
  assert (Hstore : wp (match client_addr (wv_clientAddr (st_worker s)) with
                       | inl addr => store b (with_remoteAddr addr) | inr _ => mret () end)
            (fun _ s' => s' = set_conns (<[b := c3]> (st_conns s1)) s3) s3).
  { rewrite /c3. destruct (client_addr _) as [addr|e].
    - eapply wp_store; [exact Hc2|]. cbn [st_conns s3 s2 set_conns set_slices set_choices]. by rewrite !insert_insert_eq.
    - wp_steps. rewrite /s3 /s2 /set_slices /set_choices /set_conns /= !insert_insert_eq. reflexivity. }
  wp_step. eapply wp_mono; [exact Hstore|]. intros [] s4 ->. wp_steps. apply (HQ b c3).
  have Hc3 : c3 = with_remoteAddr (c_remoteAddr c3) (with_localAddr (w_localAddr w) (with_fd fd (with_key fd (with_fd fd c0)))).
  { rewrite /c3 /c1. by destruct (client_addr _), c0. }
  split; try done.
  - rewrite Hc3. eapply (new_conn_fresh (P := P) fd b c0 _ _ s1); [exact Hfresh|by rewrite Hmap1 lookup_insert_eq|exact Hc0|exact Hm1| |done..].
    by rewrite -Hc3.
  - by rewrite Hc3.
  - intros addr Haddr. by rewrite /c3 Haddr.
  - intros b' Hb'. rewrite /= lookup_insert_ne //. by apply Hb1.
Qed.

(** The listening connection after its accept request was queued again. *)
Lemma listener_rearmed al cl s :
  managed (P := P) (w_fd w) al cl s ->
  managed (P := P) (w_fd w) al (with_state connAccept cl)
    (set_conns (<[al := with_state connAccept cl]> (st_conns s)) (set_sq (st_sq s ++ [accept_sqe (w_fd w)]) s)).
Proof.
  intros Hman. have [Hok Hkey] := managed_ok _ _ _ _ Hman. have [Hm Hk Hc] := Hman.
  split; [|done|by rewrite /= lookup_insert_eq].
  eapply (mgr_ok_update s _ (w_fd w) al cl); try done. apply (mo_mem _ _ Hm).
Qed.

(** The state after [onAccept]: the connection [b] was handed to the handler with the
    client's address. *)
Definition accept_served (fd : Z) (s s' : St) : Prop :=
  exists b c s1, new_conn (P := P) fd b c s1 /\ new_served (P := P) handler fd b c s1 s' /\
    c_localAddr c = w_localAddr w /\
    (forall addr, client_addr (wv_clientAddr (st_worker s)) = inl addr -> c_remoteAddr c = addr) /\
    (forall k, cm_connections (st_mgr s) !! k <> Some b) /\
    cm_connections (st_mgr s1) = <[fd := b]> (cm_connections (st_mgr s)) /\
    st_log s1 = st_log s /\ st_sq s1 = st_sq s ++ [accept_sqe (w_fd w)] /\
    st_sq_size s1 = st_sq_size s /\ st_worker s1 = st_worker s /\ cm_closing (st_mgr s1) = cm_closing (st_mgr s) /\
    (exists al cl, cm_connections (st_mgr s) !! w_fd w = Some al /\ st_conns s !! al = Some cl /\ b <> al /\
       st_conns s1 !! al = Some (with_state connAccept cl) /\
       forall b', b' <> b -> b' <> al -> st_conns s1 !! b' = st_conns s !! b').

Lemma wp_onAccept fd al cl nonempty data s :
  managed (P := P) (w_fd w) al cl s -> cm_connections (st_mgr s) !! fd = None -> 2 < free_slots s ->
  w_cpuAffinity w = false -> w_tcpKeepAlive w <= 0 ->
  (forall b, prog_valid tcp empty_abs (handler (st_log s) (CbAccept b))) ->
  wp (onAccept handler w (mkCqe fd data nonempty)) (fun r s' => r = None /\ accept_served fd s s') s.
Proof.
  intros Hman Hfree Hsq Haff Hka Hv. have [Hm Hk Hc] := Hman.
  rewrite /onAccept. wp_step. eapply wp_addAcceptConnRequest; [done|done|lia|].
  set (s1 := set_conns _ _). have Hman1 : managed (P := P) (w_fd w) al (with_state connAccept cl) s1 by apply listener_rearmed.
  cbn beta iota. cbn [cqe_Res]. wp_step. apply wp_accept_conn; [apply Hman1|done|]. intros b c s2 [Hnew Hloc Hrem Hfresh Hoth Htab Hclo Hio].
  destruct Hio as (Hq2 & Hqs2 & _ & Hl2 & _ & _ & Hw2).
  rewrite /accept_options Haff. wp_steps. destruct (Z.ltb_spec 0 (w_tcpKeepAlive w)); [lia|]. wp_steps. cbn [fmap option_fmap option_map].
  eapply wp_mono; [eapply (wp_new_served (P := P) handler w fd b c s2 Htcp Hnew)|].
  - rewrite /free_slots Hq2 Hqs2 /= zlen_app. change (zlen [_]) with 1. rewrite /free_slots in Hsq. lia.
  - rewrite Hl2. apply Hv.
  - intros r s3 [-> Hserved]. split; [done|]. exists b, c, s2. split_and!; try done.
    have Hne : b <> al by intros ->; apply (Hfresh (w_fd w)). exists al, cl. split_and!; try done.
    + rewrite Hoth; [done|]. by rewrite /= lookup_insert_eq.
    + intros b' Hb1 Hb2. rewrite Hoth // /= lookup_insert_ne //.
Qed.

Lemma wp_onAccept_fails fd al cl nonempty data s Q :
  managed (P := P) (w_fd w) al cl s -> cm_connections (st_mgr s) !! fd = None -> 0 < free_slots s ->
  w_cpuAffinity w = false -> 0 < w_tcpKeepAlive w ->
  (forall tr, exists e, (SetKeepAlivePeriod fd (period_seconds (w_tcpKeepAlive w)) tr).1 = Some e) ->
  (forall e b s', managed (P := P) (w_fd w) al (with_state connAccept cl) s' -> al <> b ->
     cm_connections (st_mgr s') = <[fd := b]> (cm_connections (st_mgr s)) ->
     st_sq s' = st_sq s ++ [accept_sqe (w_fd w)] -> st_log s' = st_log s -> Q (Some e) s') ->
  wp (onAccept handler w (mkCqe fd data nonempty)) Q s.
Proof.
  intros Hman Hfree Hsq Haff Hka Hfail HQ. have [Hm Hk Hc] := Hman.
  rewrite /onAccept. wp_step. eapply wp_addAcceptConnRequest; [done|done|lia|].
  set (s1 := set_conns _ _). have Hman1 : managed (P := P) (w_fd w) al (with_state connAccept cl) s1 by apply listener_rearmed.
  cbn beta iota. cbn [cqe_Res]. wp_step. apply wp_accept_conn; [apply Hman1|done|]. intros b c s2 Hacc.
  destruct Hacc as [[Hman2 _ _ _] _ _ Hnew2 Hoth2 Htab2 _ (Hq2 & _ & _ & Hl2 & _)].
  have Hne : al <> b by intros ->; apply (Hnew2 (w_fd w)).
  have Hnk : w_fd w <> fd by intros Heq; rewrite Heq Hfree in Hk.
  rewrite /accept_options Haff. wp_steps. destruct (Z.ltb_spec 0 (w_tcpKeepAlive w)); [|lia].
  apply wp_sys_setter. destruct (Hfail (st_calls s2)) as [e He]. rewrite He. cbn beta iota. wp_steps. cbn [fmap option_fmap option_map].
  wp_steps. eapply HQ; [|exact Hne|exact Htab2|exact Hq2|exact Hl2].
  split; [destruct Hman2 as [[] _ _]; by split|by rewrite /= Htab2 lookup_insert_ne|].
  cbn [st_conns set_calls]. rewrite Hoth2 //. by rewrite /= lookup_insert_eq.
Qed.

(** ** The end of a stream *)

Lemma wp_shard_closed fd a c s :
  stream_conn (P := P) fd a c s -> c_state c = connClose ->
  (forall err, prog_valid (c_network c) (closing_abs c) (handler (st_log s) (CbClose a err))) ->
  wp (shard_event handler w (mkCqe 0 (Z.lor closeConnFlag (uint64 fd)) false)) (fun r s' => r = None /\
    released (P := P) fd a c false (CbClose a None) s s') s.
Proof.
  intros [Hman Hfd Hrange] Hst Hv. have [Hm Hk Hc] := Hman. eapply wp_shard_event; [constructor|done|done|done|].
  destruct (event_data closeConnFlag fd ltac:(constructor) Hrange) as (_ & _ & Hflag).
  rewrite /handleConn. wp_steps. rewrite Hst. cbn [cqe_UserData]. rewrite Hflag; [constructor|]. rewrite bool_decide_true //. wp_steps.
  eapply (wp_closeConn (P := P)); [done|apply Hv|]. intros s' Hrel. by wp_steps.
Qed.

Lemma wp_shard_eof fd a c s :
  stream_conn (P := P) fd a c s -> c_state c = connRead ->
  (forall err, prog_valid (c_network c) (closing_abs c) (handler (st_log s) (CbClose a err))) ->
  wp (shard_event handler w (mkCqe 0 (Z.lor readDataFlag (uint64 fd)) false)) (fun r s' => r = None /\
    released (P := P) fd a c true (CbClose a (Some IoEOF)) s s') s.
Proof.
  intros [Hman Hfd Hrange] Hst Hv. have [Hm Hk Hc] := Hman. eapply wp_shard_event; [constructor|done|done|done|].
  rewrite /handleConn. wp_steps. rewrite Hst /onRead. cbn [cqe_Res]. change (0 <=? 0) with true. cbn iota. wp_steps.
  eapply (wp_closeConn (P := P)); [done|apply Hv|]. intros s' Hrel. by wp_steps.
Qed.

(** The last send of a connection that is closing: no request follows. *)
Lemma wp_shard_last fd a c outb n s Q :
  stream_conn (P := P) fd a c s -> c_state c = connClose -> c_outbound c = Some outb -> 0 <= n <= RingBuffer_Buffered outb ->
  prog_valid (c_network c) (sent_abs (conn_abs c) n) (handler (st_log s) (CbWrite a n)) ->
  (forall s' c', user_ready P a s' c' -> c_fd c' = fd -> c_key c' = fd -> c_network c' = c_network c -> c_state c' = c_state c ->
     same_peer c c' -> event_frame a s s' -> st_log s' = st_log s ++ [CbWrite a n] -> st_sq s' = st_sq s ->
     prog_spec (c_network c) (sent_abs (conn_abs c) n) (handler (st_log s) (CbWrite a n)) (conn_abs c') -> Q None s') ->
  wp (shard_event handler w (mkCqe n (Z.lor writeDataFlag (uint64 fd)) false)) Q s.
Proof.
  intros Hsc Hst Ho Hn Hv HQ. have [[Hm Hk Hc] Hfd Hrange] := Hsc. eapply wp_shard_event; [constructor|done|lia|done|].
  destruct (event_data writeDataFlag fd ltac:(constructor) Hrange) as (_ & _ & Hflag).
  rewrite /handleConn. wp_steps. rewrite Hst. cbn [cqe_UserData cqe_Res]. rewrite !Hflag; [constructor..|].
  rewrite bool_decide_false // bool_decide_true //. wp_steps. eapply (wp_onWritten (P := P)); [apply Hsc|done..|].
  intros s' c' Hr' Hfd' Hkey' Hnet' Hst' Hp' Hf' Hl' Hq' Hspec'. wp_steps. rewrite Hfd in Hfd'. by apply (HQ s' c').
Qed.

(** A failed request is dropped. *)
Lemma wp_shard_failed data errno nonempty s Q :
  0 < errno -> Q None s -> wp (shard_event handler w (mkCqe (- errno) data nonempty)) Q s.
Proof. intros Herr HQ. rewrite /shard_event /processEvent. cbn [cqe_Res]. destruct (Z.ltb_spec (- errno) 0); [|lia]. by wp_steps. Qed.

(** A completed accept. *)
Lemma wp_shard_accept fd al cl nonempty s :
  managed (P := P) (w_fd w) al cl s -> c_state cl = connAccept -> 0 <= w_fd w < 2 ^ 31 ->
  0 <= fd -> cm_connections (st_mgr s) !! fd = None -> 2 < free_slots s ->
  w_cpuAffinity w = false -> w_tcpKeepAlive w <= 0 ->
  (forall b, prog_valid tcp empty_abs (handler (st_log s) (CbAccept b))) ->
  wp (shard_event handler w (mkCqe fd (Z.lor acceptDataFlag (uint64 (w_fd w))) nonempty))
     (fun r s' => r = None /\ accept_served fd s s') s.
Proof.
  intros Hman Hst Hrange Hfd Hfree Hsq Haff Hka Hv. have [Hm Hk Hc] := Hman.
  eapply wp_shard_event; [constructor|done|done|done|]. rewrite /handleConn. wp_steps. rewrite Hst.
  eapply wp_mono; [by apply (wp_onAccept fd al cl)|]. intros r s' [-> Hs]. by wp_steps.
Qed.

End ShardProofs.

(** ** Properties *)

(** A stream connection of a shard worker is served like a session with its peer:
    for every sequence of completions of its pending requests, the handler sees the
    bytes of the peer in order and without loss and the acknowledgements of its own
    bytes, nothing panics, and after every completion the ring holds exactly one
    chain of requests for the connection, chosen by what the handler left: send the
    buffered bytes (then close, if closed), or close, or receive; while they are
    pending the handler can touch no buffer. *)
Theorem shard_session_refines {env : Env} P `{!EnvLaws env P} handler w fd a c evs s :
  w_sendRecvMsg w = false -> w_asyncHandler w = false ->
  resting (P := P) fd a c s -> session_valid handler (c_network c) a (st_log s) (conn_abs c) evs ->
  wp (run_session (shard_event handler w) fd a evs) (fun _ s' => exists c' ins outs, resting (P := P) fd a c' s' /\
    session handler (c_network c) a (st_log s) (conn_abs c) evs (st_log s') (conn_abs c') ins outs /\
    (evs <> [] -> requests_pending c' s' /\ Forall (fun e => key_of (sq_data e) = fd) (st_sq s'))) s.
Proof.
  intros Htcp Hsync Hrest Hv. have Hsw := shard_stream_worker handler w Htcp.
  eapply wp_mono; [apply (run_session_ok (P := P) handler w 0); try done; apply Hrest|].
  intros _ s' (c' & ins & outs & Hr' & _ & Hses & Hp). exists c', ins, outs. split_and!; try done. intros Hne. destruct evs as [|ev evs]; [done|].
  split; [done|]. destruct Hp as [_ Hall]. destruct Hr' as [[_ Hfd Hrange] _ _ _].
  eapply Forall2_Forall_r; [exact Hall|]. apply Forall_true. intros r e He. rewrite (sqe_for_key _ _ _ He) Hfd //.
Qed.

(** A connection ends exactly once: when its close request completes, or when the
    peer has shut the stream down, [OnClose] is called once, on a closed connection,
    and the connection leaves the table for the pool; no request is queued for it and
    the other connections are untouched. *)
Theorem stream_close_released {env : Env} P `{!EnvLaws env P} handler w fd a c s :
  stream_conn (P := P) fd a c s -> w_sendRecvMsg w = false ->
  (forall err, prog_valid (c_network c) (closing_abs c) (handler (st_log s) (CbClose a err))) ->
  (c_state c = connClose ->
   wp (shard_event handler w (mkCqe 0 (Z.lor closeConnFlag (uint64 fd)) false)) (fun r s' => r = None /\
     released (P := P) fd a c false (CbClose a None) s s') s) /\
  (c_state c = connRead ->
   wp (shard_event handler w (mkCqe 0 (Z.lor readDataFlag (uint64 fd)) false)) (fun r s' => r = None /\
     released (P := P) fd a c true (CbClose a (Some IoEOF)) s s') s).
Proof.
  intros Hsc _ Hv. split; intros Hst; [by apply wp_shard_closed|by apply wp_shard_eof].
Qed.

(** A failed request ends a connection silently: when a receive or a send of a
    connection completes with an error, such as a reset by the peer, the event is
    dropped; the handler hears nothing, the socket stays open, no request is
    queued and the connection stays in the table although it will have no other
    event. *)
Theorem failed_request_leaks {env : Env} P `{!EnvLaws env P} handler w fd a c s flag errno :
  stream_conn (P := P) fd a c s -> 0 < errno ->
  wp (shard_event handler w (mkCqe (- errno) (Z.lor flag (uint64 fd)) false)) (fun r s' =>
    r = None /\ cm_connections (st_mgr s') !! fd = Some a /\ st_conns s' !! a = Some c /\
    st_log s' = st_log s /\ st_sq s' = st_sq s /\ st_calls s' = st_calls s) s.
Proof.
  intros [[Hm Hk Hc] Hfd Hrange] Herr. by apply wp_shard_failed.
Qed.

(** A full ring lets the kernel send from a recycled buffer: when one entry is
    left and the handler has written and closed, the send is queued, the linked
    close is not, and the connection is released at once, its outbound buffer going
    back to the pool while the queued send still points into it. *)
Theorem full_ring_recycles_buffer {env : Env} P `{!EnvLaws env P} handler w fd a c inb data s :
  w_sendRecvMsg w = false -> w_asyncHandler w = false ->
  stream_conn (P := P) fd a c s -> c_state c = connRead -> c_inbound c = Some inb ->
  0 < zlen data <= RingBuffer_Available inb -> free_slots s = 1 ->
  let A0 := recv_abs (conn_abs c) data in
  let cb := CbRead a (zlen data) in
  prog_valid (c_network c) A0 (handler (st_log s) cb) ->
  (forall A', prog_spec (c_network c) A0 (handler (st_log s) cb) A' ->
     a_closed A' = true /\ 0 < zlen (a_out A') /\
     prog_valid (c_network c) A' (handler (st_log s ++ [cb]) (CbClose a (Some ErrGettingSQE)))) ->
  wp (_ ← kernel_fill a data; shard_event handler w (mkCqe (zlen data) (Z.lor readDataFlag (uint64 fd)) false))
     (fun _ s' => cm_connections (st_mgr s') !! fd = None /\ a ∈ internalPool (st_connPool s') /\
        st_log s' = st_log s ++ [cb; CbClose a (Some ErrGettingSQE)] /\
        exists addr len, st_sq s' = st_sq s ++ [mkSqe (SqSend fd addr len) (Z.lor writeDataFlag (uint64 fd)) true]) s.
Proof.
  intros Htcp Hsync Hsc Hst Hi Hdata Hsq A0 cb Hv Hafter. have Hsw := shard_stream_worker handler w Htcp.
  eapply (wp_stream_read_until (P := P) handler w Hsync _ fd a c data);
    [by apply (fill_reaches (P := P) handler w 0 _ Htcp fd a c inb); try done; apply Hsc|done|].
  intros s3 c3 Hr3 Hfd3 Hkey3 Hnet3 _ Hf3 Hl3 Hsq3 Hspec3. have [Hc3 Hok3 _ HP3] := Hr3.
  destruct (Hafter _ Hspec3) as (Hcl & Hout & Hvclose). have Hcl3 : c_closed c3 = true by [].
  have Hfree3 : free_slots s3 = 1.
  { rewrite -Hsq /free_slots Hsq3. destruct Hf3 as (? & ? & ? & ? & ? & ? & ->). done. }
  destruct Hok3 as (inb3 & outb3 & Hi3 & Ho3 & Hin3 & Hout3) eqn:Hok30; clear Hok30.
  rewrite /read_tail /writeData /isClosed /when Htcp. wp_step. eapply wp_OutboundBuffered; [done|done|apply Hout3|]. cbn beta.
  destruct (Z.ltb_spec 0 (zlen (a_out (conn_abs c3)))); [|lia]. wp_steps. rewrite Hcl3.
  eapply wp_addWriteRequest; [done|done|done|lia|]. cbn beta iota. set (s4 := set_sq _ _).
  eapply wp_addCloseConnRequest_full; [by rewrite /= lookup_insert_eq| |].
  { rewrite /free_slots /= zlen_app. change (zlen [_]) with 1. rewrite /free_slots in Hfree3. lia. }
  cbn beta iota. have [Hman Hfd Hrange] := Hsc. have [_ Hkey] := managed_ok _ _ _ _ Hman. have [Hm Hk Hc] := Hman.
  have Hf4 : event_frame a s s4.
  { eapply event_frame_trans; [exact Hf3|]. by exists (writing c3), (st_world s3), (st_sq s3 ++ [write_sqe false c3 outb3 true]), (st_calls s3), (st_log s3). }
  have Hm4 : mgr_ok P s4.
  { eapply (mgr_ok_event_frame s s4 fd a c (writing c3)); try done; [by rewrite /= lookup_insert_eq|by rewrite Hkey]. }
  have Hmgr3 : st_mgr s3 = st_mgr s by destruct Hf3 as (? & ? & ? & ? & ? & ? & ->).
  eapply (wp_closeConn (P := P) handler fd a (writing c3)).
  - split; [done|by rewrite /= Hmgr3|by rewrite /= lookup_insert_eq].
  - have -> : closing_abs (writing c3) = conn_abs c3 by rewrite /closing_abs /= Hcl3 /conn_abs /= Hcl3.
    rewrite /= Hl3 Hnet3. exact Hvclose.
  - intros s5 (_ & Hl5 & Hsq5 & _ & Hmap5 & _ & _ & Hpool5 & _). split_and!; [by rewrite Hmap5 lookup_delete_eq|done|..].
    + by rewrite Hl5 /= Hl3 -app_assoc.
    + exists (rb_r outb3), (uint32 (RingBuffer_Buffered outb3)). by rewrite Hsq5 /= Hsq3 /write_sqe Hfd3.
Qed.

(** An empty datagram stops a datagram worker: it completes with 0, which is
    taken for the end of a stream, so the worker shuts its own socket down, reports
    the listening connection as closed and releases it, and queues no receive. *)
Theorem empty_datagram_stops_worker {env : Env} P `{!EnvLaws env P} handler w a c s :
  managed (P := P) 1 a c s -> c_state c = connRead -> c_fd c = w_fd w -> w_sendRecvMsg w = true ->
  prog_valid (c_network c) (closing_abs c) (handler (st_log s) (CbClose a (Some IoEOF))) ->
  wp (shard_event handler w (mkCqe 0 (Z.lor readDataFlag (uint64 (c_key c))) false)) (fun r s' =>
    r = None /\ CShutdown (w_fd w) SHUT_RDWR ∈ st_calls s' /\ cm_connections (st_mgr s') !! 1 = None /\
    st_log s' = st_log s ++ [CbClose a (Some IoEOF)] /\ st_sq s' = st_sq s) s.
Proof.
  intros Hman Hst Hfd Hudp Hv. have [Hm Hk Hc] := Hman. have [_ Hkey] := managed_ok _ _ _ _ Hman. rewrite Hkey.
  eapply wp_shard_event; [constructor|lia|done|done|]. rewrite /handleConn. wp_steps. rewrite Hst /onRead. cbn [cqe_Res]. change (0 <=? 0) with true. cbn iota. wp_steps.
  eapply (wp_closeConn (P := P)); [done|done|].
  intros s' (_ & Hl & Hsq & Hcalls & Hmap & _). wp_steps. split_and!; try done.
  - rewrite -Hfd. destruct Hcalls as [rest ->]. apply elem_of_app. left. apply elem_of_app. right. by left.
  - by rewrite Hmap lookup_delete_eq.
Qed.

(** An accepted connection is served: the accept request is queued again, a
    connection nothing else refers to is entered under the new descriptor, the
    handler gets it open and empty with the client's address, and its first
    requests are the ones the handler's writes and close ask for. *)
Theorem accepted_connection_served {env : Env} P `{!EnvLaws env P} handler w fd al cl nonempty s :
  w_sendRecvMsg w = false -> w_cpuAffinity w = false -> w_tcpKeepAlive w <= 0 ->
  managed (P := P) (w_fd w) al cl s -> c_state cl = connAccept -> 0 <= w_fd w < 2 ^ 31 ->
  0 <= fd -> cm_connections (st_mgr s) !! fd = None -> 2 < free_slots s ->
  (forall b, prog_valid tcp empty_abs (handler (st_log s) (CbAccept b))) ->
  wp (shard_event handler w (mkCqe fd (Z.lor acceptDataFlag (uint64 (w_fd w))) nonempty))
     (fun r s' => r = None /\ accept_served (P := P) handler w fd s s') s.
Proof.
  intros. by eapply (wp_shard_accept (P := P) handler w).
Qed.

(** An accepted connection that cannot be configured takes the listener down: when
    [SetKeepAlivePeriod] fails on the new descriptor, the error is handled as one of
    the listening connection, which is shut down, reported as closed and released;
    the accepted connection stays in the table without any request. *)
Theorem accept_failure_stops_listener {env : Env} P `{!EnvLaws env P} handler w fd al cl nonempty s :
  w_sendRecvMsg w = false -> w_cpuAffinity w = false -> 0 < w_tcpKeepAlive w ->
  (forall tr, exists e, (SetKeepAlivePeriod fd (period_seconds (w_tcpKeepAlive w)) tr).1 = Some e) ->
  managed (P := P) (w_fd w) al cl s -> c_state cl = connAccept -> c_fd cl = w_fd w -> 0 <= w_fd w < 2 ^ 31 ->
  0 <= fd -> cm_connections (st_mgr s) !! fd = None -> 0 < free_slots s ->
  (forall err, prog_valid (c_network cl) (closing_abs cl) (handler (st_log s) (CbClose al err))) ->
  wp (shard_event handler w (mkCqe fd (Z.lor acceptDataFlag (uint64 (w_fd w))) nonempty))
     (fun r s' => r = None /\ cm_connections (st_mgr s') !! w_fd w = None /\
        CShutdown (w_fd w) SHUT_RDWR ∈ st_calls s' /\ (exists b, cm_connections (st_mgr s') !! fd = Some b) /\
        st_sq s' = st_sq s ++ [accept_sqe (w_fd w)]) s.
Proof.
  intros Htcp Haff Hka Hfail Hman Hst Hfdl Hrange Hfd Hfree Hsq Hv. have [Hm Hk Hc] := Hman.
  have Hne : w_fd w <> fd by intros Heq; rewrite Heq Hfree in Hk.
  eapply wp_shard_event; [constructor|done|done|done|]. rewrite /handleConn. wp_steps. rewrite Hst.
  eapply (wp_onAccept_fails (P := P)); [done..|]. intros e b s1 Hman1 Hab Htab Hq Hl. cbn beta iota.
  eapply (wp_closeConn (P := P)); [done|rewrite Hl; apply (Hv (Some e))|].
  intros s' (_ & _ & Hsq' & Hcalls & Hmap & _). split; [done|]. split; [by rewrite Hmap lookup_delete_eq|]. split.
  - rewrite -Hfdl. destruct Hcalls as [rest ->]. apply elem_of_app. left. apply elem_of_app. right. by left.
  - split; [|by rewrite Hsq' Hq]. exists b. rewrite Hmap lookup_delete_ne // Htab lookup_insert_eq //.
Qed.

(** Shutdown reaches every connection: with enough free entries the worker stops
    accepting, shuts its listening socket down and queues one close request for every
    other connection; the loop then waits for exactly these descriptors. *)
Lemma wp_close_all {env : Env} P `{!EnvLaws env P} w s :
  mgr_ok P s -> stream_table s -> Z.of_nat (size (cm_connections (st_mgr s))) <= free_slots s ->
  wp (closeAllConnsAndRings w) (fun _ s' =>
    mgr_ok P s' /\ st_worker s' = with_accepting false (st_worker s) /\ st_calls s' = st_calls s ++ [CShutdown (w_fd w) SHUT_RDWR] /\
    st_log s' = st_log s /\ cm_connections (st_mgr s') = cm_connections (st_mgr s) /\ cm_closing (st_mgr s') = true /\
    cm_releaseFdSet (st_mgr s') = dom (cm_connections (st_mgr s)) ∖ {[w_fd w]} /\
    (exists fds, st_sq s' = st_sq s ++ (close_entry <$> fds) /\ fds ≡ₚ elements (dom (cm_connections (st_mgr s)) ∖ {[w_fd w]})) /\
    (forall k a c, cm_connections (st_mgr s) !! k = Some a -> k <> w_fd w -> st_conns s !! a = Some c ->
       st_conns s' !! a = Some (with_state connClose c))) s.
Proof.
  intros Hm Htab Hsq. rewrite /closeAllConnsAndRings /set_accepting /mod_vars /syscallCloseSocket. wp_steps.
  apply wp_sys_setter. wp_steps. set (s1 := set_calls _ _).
  eapply wp_mono; [apply (wp_manager_close (P := P) id (w_fd w) s1); try done; by destruct Hm; split|].
  intros _ s' (Hm' & Hcm & Hcl & Hw & Hca & Hl & Hrel & (fds & Hfds & Hq) & Hst). rewrite list_fmap_id in Hrel, Hfds.
  set (m := cm_connections (st_mgr s)) in *. change (cm_connections (st_mgr s1)) with m in Hrel, Hfds.
  have Helems : list_to_set (others (w_fd w) (map_to_list m).*1) = dom m ∖ {[w_fd w]}.
  { apply set_eq. intros k. rewrite elem_of_list_to_set list_elem_of_filter elem_of_difference elem_of_singleton.
    rewrite list_elem_of_fmap elem_of_dom. split.
    - intros [Hne ([k' a] & -> & Ha%elem_of_map_to_list)]. split; [by eexists|done].
    - intros [[a Ha] Hne]. split; [done|]. exists (k, a). split; [done|]. by apply elem_of_map_to_list. }
  split_and!; try done.
  - by rewrite Hrel Helems.
  - exists fds. split; [done|]. rewrite Hfds -Helems elements_list_to_set //. apply NoDup_filter, NoDup_fst_map_to_list.
Qed.

Lemma shard_session_refines_witness :
  wp (run_session (@shard_event demo_env answer_handler demo_worker) 7 1 [KRecv [x05]; KSent 2]) (fun _ s' => exists c' ins outs,
    resting (P := exact_world) 7 1 c' s' /\
    session answer_handler tcp 1 [] (mkA [] [] false None) [KRecv [x05]; KSent 2] (st_log s') (conn_abs c') ins outs /\
    ([KRecv [x05]; KSent 2] <> [] -> requests_pending c' s' /\ Forall (fun e => key_of (sq_data e) = 7) (st_sq s')))
    (stream_state connRead 16).
Proof.
  apply (@shard_session_refines demo_env exact_world _ answer_handler demo_worker 7 1 (demo_stream connRead)); [done|done| |].
  - split; [apply demo_stream_conn|done|simpl; lia|]. intros inb _ [= <-]. done.
  - rewrite demo_abs. apply sv_recv; [done|done|done| |].
    + intros n Hn. apply pv_op; [done|]. intros. apply pv_ret.
    + intros n A1 Hn Hs. apply answer_spec in Hs; [|done]. subst A1. simpl.
      apply sv_sent; [done|done| |apply pv_ret|intros; apply sv_nil]. simpl. rewrite /zlen length_take /=. rewrite /MinRead. lia.
Defined.

Lemma stream_close_released_witness :
  wp (@shard_event demo_env answer_handler demo_worker (mkCqe 0 (Z.lor closeConnFlag (uint64 7)) false))
    (fun r s' => r = None /\ released (P := exact_world) 7 1 (demo_stream connClose) false (CbClose 1 None) (stream_state connClose 16) s')
    (stream_state connClose 16).
Proof.
  refine (proj1 (@stream_close_released demo_env exact_world _ answer_handler demo_worker 7 1 (demo_stream connClose)
    (stream_state connClose 16) _ _ _) _); [apply demo_stream_conn|done|intros; apply pv_ret|done].
Defined.

Lemma failed_request_leaks_witness :
  wp (@shard_event demo_env answer_handler demo_worker (mkCqe (- 104) (Z.lor readDataFlag (uint64 7)) false)) (fun r s' =>
    r = None /\ cm_connections (st_mgr s') !! 7 = Some 1%nat /\ st_conns s' !! 1%nat = Some (demo_stream connRead) /\
    st_log s' = [] /\ st_sq s' = [] /\ st_calls s' = []) (stream_state connRead 16).
Proof.
  apply (@failed_request_leaks demo_env exact_world _ answer_handler demo_worker 7 1 (demo_stream connRead)
    (stream_state connRead 16) readDataFlag 104); [apply demo_stream_conn|done].
Defined.

Lemma full_ring_recycles_buffer_witness :
  wp (_ ← kernel_fill 1 [x05]; @shard_event demo_env close_handler demo_worker (mkCqe (zlen [x05]) (Z.lor readDataFlag (uint64 7)) false))
    (fun _ s' => cm_connections (st_mgr s') !! 7 = None /\ 1%nat ∈ internalPool (st_connPool s') /\
        st_log s' = [] ++ [CbRead 1 (zlen [x05]); CbClose 1 (Some ErrGettingSQE)] /\
        exists addr len, st_sq s' = [] ++ [mkSqe (SqSend 7 addr len) (Z.lor writeDataFlag (uint64 7)) true]) (stream_state connRead 1).
Proof.
  apply (@full_ring_recycles_buffer demo_env exact_world _ close_handler demo_worker 7 1 (demo_stream connRead) page_buffer [x05]
    (stream_state connRead 1)); [done|done|apply demo_stream_conn|done|done|done|done| |].
  - rewrite demo_abs. apply pv_op; [done|]. intros. apply pv_op; [done|]. intros. apply pv_ret.
  - rewrite demo_abs. intros A' Hs. inversion Hs as [|? ? ? r A1 ? Hw Hs1]; subst. apply write_spec in Hw; [|done]. subst A1.
    inversion Hs1 as [|? ? ? r2 A2 ? Hcl Hs2]; subst. inversion Hs2; subst.
    inversion Hcl; simplify_eq/=; split_and!; try done; apply pv_ret.
Defined.

Lemma empty_datagram_stops_worker_witness :
  wp (@shard_event demo_env answer_handler (mkConf 7 0 true false false 0 None)
        (mkCqe 0 (Z.lor readDataFlag (uint64 (c_key (datagram_conn 1)))) false)) (fun r s' =>
    r = None /\ CShutdown 7 SHUT_RDWR ∈ st_calls s' /\ cm_connections (st_mgr s') !! 1 = None /\
    st_log s' = [] ++ [CbClose 0 (Some IoEOF)] /\ st_sq s' = []) datagram_state.
Proof.
  apply (@empty_datagram_stops_worker demo_env exact_world _ answer_handler (mkConf 7 0 true false false 0 None) 0 (datagram_conn 1)
    datagram_state); [|done|done|done|apply pv_ret].
  split; [apply datagram_state_ok|done|done].
Defined.

Lemma accepted_connection_served_witness :
  wp (@shard_event demo_env answer_handler demo_worker (mkCqe 9 (Z.lor acceptDataFlag (uint64 5)) false))
     (fun r s' => r = None /\ accept_served (env := demo_env) (P := exact_world) answer_handler demo_worker 9 (stream_state connRead 16) s')
     (stream_state connRead 16).
Proof.
  apply (@accepted_connection_served demo_env exact_world _ answer_handler demo_worker 9 0 demo_listener);
    [done|done|simpl; lia|apply demo_managed|done|simpl; lia|lia|done|done|intros; apply pv_ret].
Defined.

(** A kernel that refuses every socket option. *)
Definition refusing_env : Env := {|
  env_os := linux_x86_64;
  env_kernel := {| k_socket := fun _ _ _ _ => inr 22; k_call := fun _ _ => 22 |};
  sort_Sort := sort_desc;
  anyToSockaddr := fun _ => inr ErrNotSupported;
  InterfaceByIndex := fun _ => None;
  range_order := map_to_list
|}.

#[export] Instance refusing_env_laws : EnvLaws refusing_env exact_world.
Proof. split; [apply sort_desc_law|done|done|apply _]. Qed.

Lemma refusing_keepalive tr :
  exists e, (@SetKeepAlivePeriod (@env_kernel refusing_env) 9 (period_seconds 10000000000) tr).1 = Some e.
Proof. eexists. rewrite /SetKeepAlivePeriod. have -> : (period_seconds 10000000000 <=? 0) = false by vm_compute. reflexivity. Qed.

Lemma accept_failure_stops_listener_witness :
  wp (@shard_event refusing_env answer_handler (mkConf 5 0 false false false 10000000000 None)
        (mkCqe 9 (Z.lor acceptDataFlag (uint64 5)) false))
     (fun r s' => r = None /\ cm_connections (st_mgr s') !! 5 = None /\
        CShutdown 5 SHUT_RDWR ∈ st_calls s' /\ (exists b, cm_connections (st_mgr s') !! 9 = Some b) /\
        st_sq s' = [] ++ [accept_sqe 5]) (stream_state connRead 16).
Proof.
  apply (@accept_failure_stops_listener refusing_env exact_world _ answer_handler (mkConf 5 0 false false false 10000000000 None) 9 0
    demo_listener false (stream_state connRead 16)); [done|done|simpl; lia| |apply demo_managed|done|done|simpl; lia|lia|done|done|intros; apply pv_ret].
  apply refusing_keepalive.
Defined.
