(* ===== verification/RingContract.v ===== *)
(** * RingContract: what a worker may expect of its ring

    The io_uring instance of a worker is an input of its loop.  This file states the
    documented behaviour of the ring that the theorems on whole loops rely on:
    linked entries form a chain and complete in order; a completion carries the user
    data of its entry and an answer that fits the operation; received bytes are in
    the buffer of the request before its completion is seen; an accepted descriptor is
    not open.  Chains complete in any order, entries may fail, and rounds may be
    interrupted.  Nothing is said about when a request completes. *)

From S2P Require Import Prelude Errors SyncPool VirtualMem MagicRing RingRefinement RingPool ByteSlicePool.
From S2P Require Import KeyPool Flags Submitter Sockaddr SocketOps GoState Conn ConnSpec ConnManager Worker.
From S2P Require Import Looper.
Local Open Scope Z_scope.

(** ** Chains of entries *)

Fixpoint split_chains (l : list sqe) : list (list sqe) :=
  match l with
  | [] => []
  | e :: l =>
      if sq_link e then match split_chains l with [] => [[e]] | ch :: chs => (e :: ch) :: chs end
      else [e] :: split_chains l
  end.

(** The last entry is not linked to one that is still to come. *)
Definition ends (l : list sqe) : Prop := match last l with Some e => sq_link e = false | None => True end.

Lemma split_chains_app l k : ends l -> split_chains (l ++ k) = split_chains l ++ split_chains k.
Proof.
  induction l as [|e l IH]; [done|]. intros He. cbn [app split_chains]. destruct (sq_link e) eqn:Hl.
  - destruct l as [|e2 l]; [by rewrite /ends /= Hl in He|]. rewrite IH; [exact He|].
    cbn [split_chains]. destruct (sq_link e2); [|done]. by destruct (split_chains l).
  - destruct l as [|e2 l]; [done|]. by rewrite IH.
Qed.

Lemma ends_app l k : ends l -> ends k -> ends (l ++ k).
Proof. destruct k as [|e k]; [by rewrite app_nil_r|]. intros _. by rewrite /ends last_app_cons. Qed.

(** ** The kernel *)

(** The requests in flight, and the open descriptors of the process. *)
Record kernel : Type := mkKernel { k_chains : list (list sqe); k_open : gset Z }.

(** How a request ends: a client with its raw address, bytes stored in the inbound
    buffer of connection [a] (and whether more are waiting), the end of the stream, a
    number of sent bytes, a closed descriptor, or an error. *)
Inductive answer : Type :=
| AnsAccept (fd : Z) (raw : list byte)
| AnsRecv (a : nat) (data : list byte) (more : bool)
| AnsEof
| AnsSent (n : Z)
| AnsClosed
| AnsError (errno : Z).

Definition answers (op : gset Z) (r : sqe_op) (ans : answer) : Prop :=
  match ans, r with
  | AnsAccept fd _, SqAccept _ => 0 <= fd < 2 ^ 31 /\ fd ∉ op
  | AnsRecv _ data _, SqRecv _ _ len => 0 < zlen data <= len
  | AnsEof, SqRecv _ _ _ => True
  | AnsSent n, SqSend _ _ len => 0 <= n <= len
  | AnsClosed, SqClose fd => fd ∈ op
  | AnsError errno, _ => 0 < errno
  | _, _ => False
  end.

Definition opens (op : gset Z) (r : sqe_op) (ans : answer) : gset Z :=
  match ans, r with
  | AnsAccept fd _, _ => op ∪ {[fd]}
  | AnsClosed, SqClose fd => op ∖ {[fd]}
  | _, _ => op
  end.

Definition ans_res (ans : answer) : Z :=
  match ans with
  | AnsAccept fd _ => fd
  | AnsRecv _ data _ => zlen data
  | AnsEof | AnsClosed => 0
  | AnsSent n => n
  | AnsError errno => - errno
  end.

Definition ans_more (ans : answer) : bool := match ans with AnsRecv _ _ more => more | _ => false end.

Definition cqe_of (x : sqe * answer) : cqe := mkCqe (ans_res x.2) (sq_data x.1) (ans_more x.2).

Definition writes_of (x : sqe * answer) : list kernel_write :=
  match x.2 with
  | AnsAccept _ raw => [KwClient raw]
  | AnsRecv a data _ => [KwInbound a data]
  | _ => []
  end.

(** What is left of a chain. *)
Definition chain_rest (ch : list sqe) : list (list sqe) := match ch with [] => [] | _ => [ch] end.

(** The first entry of some chain completes. *)
Inductive kernel_step : kernel -> sqe * answer -> kernel -> Prop :=
| ks_answer K e rest chains ans :
    k_chains K ≡ₚ (e :: rest) :: chains -> answers (k_open K) (sq_op e) ans ->
    kernel_step K (e, ans) (mkKernel (chain_rest rest ++ chains) (opens (k_open K) (sq_op e) ans)).

Inductive kernel_steps : kernel -> list (sqe * answer) -> kernel -> Prop :=
| kss_nil K : kernel_steps K [] K
| kss_cons K x K1 l K2 : kernel_step K x K1 -> kernel_steps K1 l K2 -> kernel_steps K (x :: l) K2.

(** A round: the kernel takes the queue and answers some requests, and the shutdown may
    be asked for meanwhile; or the call is interrupted, with the queue taken or left. *)
Inductive kround : Type :=
| KAnswers (stop : bool) (l : list (sqe * answer))
| KInterrupted (err : error) (kept : list sqe).

Definition round_of (kr : kround) : ring_round :=
  match kr with
  | KAnswers stop l => mkRound None [] (l ≫= writes_of) (cqe_of <$> l) stop
  | KInterrupted err kept => mkRound (Some err) kept [] [] false
  end.

Definition interrupted (err : error) : bool :=
  errors_Is err (Errno EAGAIN) || errors_Is err (Errno EINTR) || errors_Is err (Errno ETIME).

Definition submitted (K : kernel) (sq : list sqe) : kernel := mkKernel (k_chains K ++ split_chains sq) (k_open K).

(** The buffer of a receive is the one of the connection that asked for it. *)
Definition owned (s : St) (x : sqe * answer) : Prop :=
  match x.2 with
  | AnsRecv a _ _ => cm_connections (st_mgr s) !! key_of (sq_data x.1) = Some a
  | _ => True
  end.

(** The kernel [K] may do the round [kr] on the worker state [s] and become [K']. *)
Inductive round_allowed (K : kernel) (s : St) : kround -> kernel -> Prop :=
| ra_answers stop l K' :
    kernel_steps (submitted K (st_sq s)) l K' -> Forall (owned s) l -> round_allowed K s (KAnswers stop l) K'
| ra_taken err : interrupted err = true -> round_allowed K s (KInterrupted err []) (submitted K (st_sq s))
| ra_left err : interrupted err = true -> round_allowed K s (KInterrupted err (st_sq s)) K.

(** ** Chains by key

    When no two chains belong to the same descriptor, the chains in flight and in the
    queue are a map. *)

Definition chain_map (chains : list (list sqe)) (q : gmap Z (list sqe)) : Prop :=
  chains ≡ₚ (map_to_list q).*2 /\ forall fd ch e, q !! fd = Some ch -> e ∈ ch -> key_of (sq_data e) = fd.

Lemma chain_map_perm chains chains' q : chains ≡ₚ chains' -> chain_map chains q -> chain_map chains' q.
Proof. intros Hp [Hq Hk]. split; [by rewrite -Hp|done]. Qed.

Lemma chain_map_take ch chains q :
  chain_map (ch :: chains) q -> ch <> [] -> exists fd, q !! fd = Some ch /\ chain_map chains (delete fd q).
Proof.
  intros [Hp Hk] Hne. have Hin : ch ∈ (map_to_list q).*2 by rewrite -Hp; left.
  apply list_elem_of_fmap in Hin as ([fd ch'] & -> & Hin%elem_of_map_to_list). exists fd. split; [done|]. split.
  - have Hd := map_to_list_delete q fd ch' Hin. rewrite -Hd /= in Hp. by apply Permutation_cons_inv in Hp.
  - intros fd' ch e [_ Hq]%lookup_delete_Some. by apply Hk.
Qed.

Lemma chain_map_add ch chains q fd :
  chain_map chains q -> q !! fd = None -> (forall e, e ∈ ch -> key_of (sq_data e) = fd) ->
  chain_map (ch :: chains) (<[fd := ch]> q).
Proof.
  intros [Hp Hk] Hfd He. split; [by rewrite map_to_list_insert //= Hp|].
  intros fd' ch' e [[<- <-]|[_ Hq]]%lookup_insert_Some; [by apply He|by eapply Hk].
Qed.

(** The first entry of a chain completes; [o] is what its descriptor has afterwards. *)
Definition set_chain (fd : Z) (o : option (list sqe)) (q : gmap Z (list sqe)) : gmap Z (list sqe) :=
  match o with Some ch => <[fd := ch]> q | None => delete fd q end.

Lemma set_chain_eq fd o q : set_chain fd o q !! fd = o.
Proof. destruct o; [apply lookup_insert_eq|apply lookup_delete_eq]. Qed.

Lemma set_chain_ne fd fd' o q : fd' <> fd -> set_chain fd o q !! fd' = q !! fd'.
Proof. intros. destruct o; [by apply lookup_insert_ne|by apply lookup_delete_ne]. Qed.

Lemma chain_map_first e rest chains q :
  chain_map ((e :: rest) :: chains) q ->
  let fd := key_of (sq_data e) in q !! fd = Some (e :: rest) /\ chain_map chains (delete fd q).
Proof.
  intros Hq fd. have [_ Hk] := Hq. destruct (chain_map_take _ _ _ Hq) as (fd' & Hfd & Hd); [done|].
  have <- : fd' = fd by symmetry; apply (Hk fd' (e :: rest)); [done|by left]. done.
Qed.

Lemma chain_map_set fd o chains q :
  chain_map chains (delete fd q) -> (forall ch e, o = Some ch -> e ∈ ch -> key_of (sq_data e) = fd) ->
  chain_map (option_list o ++ chains) (set_chain fd o q).
Proof.
  intros Hd Ho. destruct o as [ch|]; [|done]. rewrite /= -insert_delete_eq.
  apply chain_map_add; [done|apply lookup_delete_eq|]. intros e. by apply (Ho ch).
Qed.

(** The same steps without the descriptors: every answer takes the first entry of a
    chain. *)
Inductive chain_steps : list (list sqe) -> list (sqe * answer) -> Prop :=
| cst_nil chains : chain_steps chains []
| cst_cons chains e rest others ans op l :
    chains ≡ₚ (e :: rest) :: others -> answers op (sq_op e) ans -> chain_steps (chain_rest rest ++ others) l ->
    chain_steps chains ((e, ans) :: l).

Lemma kernel_chain_steps K l K' : kernel_steps K l K' -> chain_steps (k_chains K) l.
Proof.
  induction 1 as [K|K x K1 l K2 Hs Hss IH]; [constructor|]. inversion Hs as [? e rest chains ans Hp Ha]; subst. by econstructor.
Qed.

(** Later answers are for entries still in flight. *)
Lemma chain_steps_in chains l x :
  chain_steps chains l -> x ∈ l -> (exists op, answers op (sq_op x.1) x.2) /\ exists ch, ch ∈ chains /\ x.1 ∈ ch.
Proof.
  induction 1 as [chains|chains e rest others ans op l Hp Ha Hss IH]; [by intros ?%elem_of_nil|]. intros [->|Hx]%elem_of_cons.
  - split; [by exists op|]. exists (e :: rest). split; [rewrite Hp; by left|by left].
  - destruct (IH Hx) as (Hop & ch & Hch & Hin). split; [done|]. rewrite elem_of_app in Hch. destruct Hch as [Hch|Hch].
    + destruct rest as [|e2 rest]; [by apply elem_of_nil in Hch|]. apply list_elem_of_singleton in Hch as ->.
      exists (e :: e2 :: rest). split; [rewrite Hp; by left|by right].
    + exists ch. split; [rewrite Hp; by right|done].
Qed.

Lemma chain_map_lookup chains q ch : chain_map chains q -> ch ∈ chains -> exists fd, q !! fd = Some ch.
Proof. intros [Hp _] Hin. rewrite Hp in Hin. apply list_elem_of_fmap in Hin as ([fd ch'] & -> & Hin%elem_of_map_to_list). by exists fd. Qed.
