(* ===== verification/TableSpec.v ===== *)
(** * TableSpec: a shard worker as a server of many connections

    The abstract server is a table of connections by descriptor: for each the address
    of the peer, what is received and not yet read, what is written and not yet sent,
    and the requests the kernel still has to answer.  This file gives its steps, one for
    each answer of the kernel, and proves that the event processor of a shard worker
    performs exactly these steps, whatever the other connections do. *)

From S2P Require Import Prelude Errors SyncPool VirtualMem MagicRing RingRefinement RingPool ByteSlicePool.
From S2P Require Import KeyPool Flags Submitter Sockaddr SocketOps GoState Conn ConnSpec ConnManager Worker.
From S2P Require Import WorkerSpec Looper ConsumerWorker StreamSpec ShardWorker ShardSpec RingContract.
Local Open Scope Z_scope.

(** ** The abstract server *)

Record entry : Type := mkEntry { en_addr : nat; en_peer : option NetAddr; en_conn : aconn; en_pend : list areq }.

Record server : Type := mkServer { sv_log : list callback; sv_listening : bool; sv_conns : gmap Z entry }.

Section Steps.
Context {env : Env} (handler : EventHandler) (lfd : Z).

(** The handler of connection [fd] ran on [cb] with the data [A0] and left [A]. *)
Definition called (T : server) (fd : Z) (e : entry) (cb : callback) (A : aconn) (pend : list areq) : server :=
  mkServer (sv_log T ++ [cb]) (sv_listening T) (<[fd := mkEntry (en_addr e) (en_peer e) A pend]> (sv_conns T)).

(** The connection [fd] is gone. *)
Definition gone (T : server) (fd : Z) (e : entry) (err : option error) : server :=
  mkServer (sv_log T ++ [CbClose (en_addr e) err]) (sv_listening T) (delete fd (sv_conns T)).

Inductive serve (T : server) : Z * answer -> server -> Prop :=
| sv_accept fd raw b peer A :
    sv_listening T = true -> sv_conns T !! fd = None -> fd <> lfd ->
    (forall k e, sv_conns T !! k = Some e -> en_addr e <> b) ->
    (forall addr, client_addr raw = inl addr -> peer = addr) ->
    prog_spec tcp empty_abs (handler (sv_log T) (CbAccept b)) A ->
    serve T (lfd, AnsAccept fd raw)
      (mkServer (sv_log T ++ [CbAccept b]) true (<[fd := mkEntry b peer A (next_reqs A)]> (sv_conns T)))
| sv_recv fd e data A :
    sv_conns T !! fd = Some e -> en_pend e = [ARecv] ->
    prog_spec tcp (recv_abs (en_conn e) data) (handler (sv_log T) (CbRead (en_addr e) (zlen data))) A ->
    serve T (fd, AnsRecv (en_addr e) data false) (called T fd e (CbRead (en_addr e) (zlen data)) A (next_reqs A))
| sv_more fd e data :
    sv_conns T !! fd = Some e -> en_pend e = [ARecv] ->
    serve T (fd, AnsRecv (en_addr e) data true)
      (mkServer (sv_log T) (sv_listening T)
         (<[fd := mkEntry (en_addr e) (en_peer e) (recv_abs (en_conn e) data) [ARecv]]> (sv_conns T)))
| sv_eof fd e :
    sv_conns T !! fd = Some e -> en_pend e = [ARecv] -> serve T (fd, AnsEof) (gone T fd e (Some IoEOF))
| sv_sent fd e len n A :
    sv_conns T !! fd = Some e -> en_pend e = [ASend len false] -> 0 <= n <= len ->
    prog_spec tcp (sent_abs (en_conn e) n) (handler (sv_log T) (CbWrite (en_addr e) n)) A ->
    serve T (fd, AnsSent n) (called T fd e (CbWrite (en_addr e) n) A (next_reqs A))
| sv_last fd e len n A :
    sv_conns T !! fd = Some e -> en_pend e = [ASend len true; AClose] -> 0 <= n <= len ->
    prog_spec tcp (sent_abs (en_conn e) n) (handler (sv_log T) (CbWrite (en_addr e) n)) A ->
    serve T (fd, AnsSent n) (called T fd e (CbWrite (en_addr e) n) A [AClose])
| sv_closed fd e :
    sv_conns T !! fd = Some e -> en_pend e = [AClose] -> serve T (fd, AnsClosed) (gone T fd e None)
| sv_failed fd e r rs errno :
    sv_conns T !! fd = Some e -> en_pend e = r :: rs ->
    serve T (fd, AnsError errno)
      (mkServer (sv_log T) (sv_listening T) (<[fd := mkEntry (en_addr e) (en_peer e) (en_conn e) rs]> (sv_conns T)))
| sv_deaf errno :
    sv_listening T = true -> serve T (lfd, AnsError errno) (mkServer (sv_log T) false (sv_conns T)).

Inductive serves : server -> list (Z * answer) -> server -> Prop :=
| svs_nil T : serves T [] T
| svs_cons T x T1 l T2 : serve T x T1 -> serves T1 l T2 -> serves T (x :: l) T2.

(** The handler keeps to the bounds of the buffers in the step [x]. *)
Definition step_valid (T : server) (x : Z * answer) : Prop :=
  match x.2 with
  | AnsAccept _ _ => forall b, prog_valid tcp empty_abs (handler (sv_log T) (CbAccept b))
  | AnsRecv a data more => forall e, sv_conns T !! x.1 = Some e ->
      zlen (a_in (en_conn e)) + zlen data + MinRead < 2 ^ 52 /\
      (more = false -> prog_valid tcp (recv_abs (en_conn e) data) (handler (sv_log T) (CbRead a (zlen data))))
  | AnsSent n => forall e, sv_conns T !! x.1 = Some e ->
      zlen (a_in (en_conn e)) + MinRead < 2 ^ 52 /\
      prog_valid tcp (sent_abs (en_conn e) n) (handler (sv_log T) (CbWrite (en_addr e) n))
  | AnsEof | AnsClosed => forall e err, sv_conns T !! x.1 = Some e ->
      prog_valid tcp (mkA (a_in (en_conn e)) (a_out (en_conn e)) true (a_ctx (en_conn e)))
        (handler (sv_log T) (CbClose (en_addr e) err))
  | AnsError _ => True
  end.

Fixpoint trace_valid (T : server) (l : list (Z * answer)) : Prop :=
  match l with [] => True | x :: l => step_valid T x /\ forall T', serve T x T' -> trace_valid T' l end.

End Steps.

(** ** The relation *)

(** The requests of a connection: those its data asks for, the close that is left of
    them, or none after a failure. *)
Inductive pend_ok (A : aconn) : list areq -> connectionState -> Prop :=
| po_next : pend_ok A (next_reqs A) (next_state A)
| po_closing : pend_ok A [AClose] connClose
| po_failed st : pend_ok A [] st.

(** The chain [o] of the requests [pend]. *)
Definition chain_for (c : connection) (pend : list areq) (o : option (list sqe)) : Prop :=
  match pend with [] => o = None | _ => exists ch, o = Some ch /\ Forall2 (sqe_for c) pend ch end.

Record entry_ok (fd : Z) (e : entry) (c : connection) : Prop := {
  eo_fd : c_fd c = fd;
  eo_range : 0 <= fd < 2 ^ 31;
  eo_network : c_network c = tcp;
  eo_abs : conn_abs c = en_conn e;
  eo_peer : c_remoteAddr c = en_peer e;
  eo_pend : pend_ok (en_conn e) (en_pend e) (c_state c)
}.

(** What the kernel has written for an answer the worker has not seen yet. *)
Definition filled (s : St) (x : sqe * answer) : Prop :=
  match x.2 with
  | AnsRecv a data _ => cm_connections (st_mgr s) !! key_of (sq_data x.1) = Some a /\
      exists c inb, st_conns s !! a = Some c /\ c_inbound c = Some inb /\ prefilled inb data
  | AnsAccept _ raw => wv_clientAddr (st_worker s) = raw
  | _ => True
  end.

Definition serving (listening : bool) (v : workerVars) : Prop :=
  (listening = true -> wv_accepting v = true) /\ wv_inProgress v = false /\ wv_done v = 0%nat.

Section Relation.
Context {P : World -> Prop} (lis : option Z).

(** The table of the connection manager: the connections of the server and, when the
    worker accepts clients itself, the listener. *)
Definition listener_ok (s : St) (T : server) : Prop :=
  match lis with
  | Some lfd => exists al cl, cm_connections (st_mgr s) = <[lfd := al]> (en_addr <$> sv_conns T) /\
      st_conns s !! al = Some cl /\ c_state cl = connAccept /\ c_fd cl = lfd
  | None => cm_connections (st_mgr s) = en_addr <$> sv_conns T
  end.

(** The listener and the table. *)
Record table_ok (s : St) (T : server) : Prop := {
  to_mgr : mgr_ok P s;
  to_log : st_log s = sv_log T;
  to_range lfd : lis = Some lfd -> 0 <= lfd < 2 ^ 31;
  to_free lfd : lis = Some lfd -> sv_conns T !! lfd = None;
  to_listener : listener_ok s T;
  to_entry fd e : sv_conns T !! fd = Some e -> exists c, st_conns s !! en_addr e = Some c /\ entry_ok fd e c;
  to_serving : serving (bool_decide (is_Some lis)) (st_worker s) /\ cm_closing (st_mgr s) = false
}.

(** The requests in flight and in the queue, by descriptor. *)
Record chains_ok (K : kernel) (s : St) (T : server) (q : gmap Z (list sqe)) : Prop := {
  co_map : chain_map (k_chains K ++ split_chains (st_sq s)) q;
  co_ends : ends (st_sq s);
  co_listener lfd : lis = Some lfd -> q !! lfd = (if sv_listening T then Some [accept_sqe lfd] else None);
  co_entry fd e c : sv_conns T !! fd = Some e -> st_conns s !! en_addr e = Some c -> chain_for c (en_pend e) (q !! fd);
  co_none fd : lis <> Some fd -> sv_conns T !! fd = None -> q !! fd = None;
  co_open : (forall lfd, lis = Some lfd -> lfd ∈ k_open K) /\ forall fd, is_Some (sv_conns T !! fd) -> fd ∈ k_open K
}.

(** The worker in state [s] with the kernel [K] is the server [T]; the answers [l] have
    been given and not been seen. *)
Definition table_rel (K : kernel) (l : list (sqe * answer)) (s : St) (T : server) : Prop :=
  table_ok s T /\ (exists q, chains_ok K s T q) /\ Forall (filled s) l.

End Relation.
Arguments table_ok P lis s T : clear implicits.
Arguments table_rel P lis K l s T : clear implicits.

(** ** Requests and chains *)

(** The entries of the next requests are one chain. *)
Lemma next_chain c A sqes :
  Forall2 (sqe_for c) (next_reqs A) sqes -> split_chains sqes = [sqes] /\ ends sqes /\ next_reqs A <> [].
Proof.
  rewrite /next_reqs. destruct (0 <? zlen (a_out A)), (a_closed A); intros H;
    repeat match goal with H : Forall2 _ (_ :: _) _ |- _ => inversion H; clear H; subst | H : Forall2 _ [] _ |- _ => inversion H; clear H; subst end;
    repeat match goal with H : sqe_for _ _ _ |- _ => inversion H; clear H; subst end; done.
Qed.

(** After the first request at most a close is left. *)
Lemma pend_rest A pend st r rs : pend_ok A pend st -> pend = r :: rs -> rs = [] \/ (rs = [AClose] /\ st = connClose).
Proof.
  intros Hp Heq. destruct Hp as [| |st]; [|by simplify_eq; left|done].
  move: Heq. rewrite /next_reqs /next_state. destruct (0 <? zlen (a_out A)), (a_closed A); intros [= <- <-]; auto.
Qed.

Lemma sqe_for_with_inbound c inb inb' r e :
  c_inbound c = Some inb -> rb_w inb' = rb_w inb -> RingBuffer_Available inb' = RingBuffer_Available inb ->
  sqe_for c r e -> sqe_for (with_inbound (Some inb') c) r e.
Proof.
  intros Hi Hw Hav He. inversion He; subst; simplify_eq.
  - rewrite -Hw -Hav. by apply (sf_recv (with_inbound (Some inb') c)); [|rewrite Hav].
  - by apply (sf_send (with_inbound (Some inb') c)).
  - apply (sf_close (with_inbound (Some inb') c)).
Qed.

(** ** Keeping the relation *)

Section Keep.
Context {env : Env} {P : World -> Prop} `{!EnvLaws env P} (lis : option Z).

Lemma table_addr s T fd e :
  table_ok P lis s T -> sv_conns T !! fd = Some e -> lis <> Some fd /\ cm_connections (st_mgr s) !! fd = Some (en_addr e).
Proof.
  intros [_ _ _ Hfree Hal _ _] He. have Hne : lis <> Some fd by intros Heq; rewrite (Hfree fd Heq) in He.
  split; [done|]. rewrite /listener_ok in Hal. destruct lis as [lfd|]; [destruct Hal as (al & cl & -> & _)|rewrite Hal].
  - rewrite lookup_insert_ne ?lookup_fmap ?He //. congruence.
  - by rewrite lookup_fmap He.
Qed.

Lemma table_inj s k1 k2 a :
  mgr_ok P s -> cm_connections (st_mgr s) !! k1 = Some a -> cm_connections (st_mgr s) !! k2 = Some a -> k1 = k2.
Proof.
  intros Hm H1 H2. destruct (mo_conn _ _ Hm _ _ H1) as (c1 & Hc1 & _ & <-), (mo_conn _ _ Hm _ _ H2) as (c2 & Hc2 & _ & <-). congruence.
Qed.

(** A connection of the table, as the stream proofs see it. *)
Lemma table_stream s T fd e :
  table_ok P lis s T -> sv_conns T !! fd = Some e ->
  exists c, stream_conn (P := P) fd (en_addr e) c s /\ entry_ok fd e c.
Proof.
  intros HT He. destruct (table_addr _ _ _ _ HT He) as [_ Hk]. have [Hm _ _ _ _ Hent _] := HT.
  destruct (Hent _ _ He) as (c & Hc & Heo). exists c. split; [|done]. split; [by split|apply Heo|apply Heo].
Qed.

(** The event changed the connection [fd] only, or removed it. *)
Lemma table_keep s s' T T' fd e :
  table_ok P lis s T -> sv_conns T !! fd = Some e ->
  mgr_ok P s' -> st_worker s' = st_worker s -> cm_closing (st_mgr s') = cm_closing (st_mgr s) ->
  (forall b, b <> en_addr e -> st_conns s' !! b = st_conns s !! b) ->
  st_log s' = sv_log T' -> (forall k, k <> fd -> sv_conns T' !! k = sv_conns T !! k) ->
  match sv_conns T' !! fd with
  | Some e' => en_addr e' = en_addr e /\ st_mgr s' = st_mgr s /\
      exists c', st_conns s' !! en_addr e = Some c' /\ entry_ok fd e' c'
  | None => cm_connections (st_mgr s') = delete fd (cm_connections (st_mgr s))
  end -> table_ok P lis s' T'.
Proof.
  intros HT He Hm' Hw Hcl Hoth Hlog Hne Hfd. destruct (table_addr _ _ _ _ HT He) as [Hlfd Hk].
  destruct HT as [Hm Hl Hr Hfree Hlis Hent [Hsv Hclo]] eqn:HT0; clear HT0.
  have Hinj k a : cm_connections (st_mgr s) !! k = Some a -> k <> fd -> a <> en_addr e.
  { intros Hka Hkne ->. by apply Hkne, (table_inj s k fd (en_addr e)). }
  have Haddr : en_addr <$> sv_conns T' = match sv_conns T' !! fd with Some _ => en_addr <$> sv_conns T | None => delete fd (en_addr <$> sv_conns T) end.
  { apply map_eq. intros k. destruct (decide (k = fd)) as [->|Hkne].
    - destruct (sv_conns T' !! fd) as [e'|] eqn:HT'; rewrite ?lookup_delete_eq !lookup_fmap HT' //= He /=. by destruct Hfd as [-> _].
    - rewrite lookup_fmap Hne //. destruct (sv_conns T' !! fd); rewrite ?lookup_delete_ne // lookup_fmap //. }
  have Hcm' : cm_connections (st_mgr s') = match sv_conns T' !! fd with Some _ => cm_connections (st_mgr s) | None => delete fd (cm_connections (st_mgr s)) end.
  { destruct (sv_conns T' !! fd); [by destruct Hfd as (_ & -> & _)|done]. }
  split; [done|done|done|intros lfd Hlf; rewrite Hne; [by intros ->|by apply Hfree]|..].
  - rewrite /listener_ok Hcm' Haddr in Hlis |- *. destruct lis as [lfd|]; [|by rewrite Hlis].
    destruct Hlis as (al & cl & Hcm & Hal & Hst & Hlf). have Hne' : fd <> lfd by congruence.
    exists al, cl. rewrite Hoth; [apply (Hinj lfd); [by rewrite Hcm lookup_insert_eq|by apply not_eq_sym]|]. split_and!; [|done..].
    rewrite Hcm. destruct (sv_conns T' !! fd); [done|]. by rewrite delete_insert_ne // not_eq_sym.
  - intros k e1 Hk1. destruct (decide (k = fd)) as [->|Hkne].
    + rewrite Hk1 in Hfd. destruct Hfd as (Ha & _ & c' & Hc' & Heo). exists c'. by rewrite Ha.
    + rewrite Hne // in Hk1. destruct (Hent _ _ Hk1) as (c & Hc & Heo). exists c. rewrite Hoth //.
      apply (Hinj k); [by apply (table_addr _ _ _ _ HT Hk1)|done].
  - by rewrite Hw Hcl.
Qed.

(** Its chain is now [o]. *)
Lemma chains_keep K op chains s s' T T' q fd e o sqes :
  table_ok P lis s T -> sv_conns T !! fd = Some e -> chains_ok lis K s T q ->
  chain_map (chains ++ split_chains (st_sq s)) (delete fd q) ->
  st_sq s' = st_sq s ++ sqes -> ends sqes -> sv_listening T' = sv_listening T ->
  (forall b, b <> en_addr e -> st_conns s' !! b = st_conns s !! b) ->
  (forall k, k <> fd -> sv_conns T' !! k = sv_conns T !! k) ->
  (forall ch x, o = Some ch -> x ∈ ch -> key_of (sq_data x) = fd) ->
  match sv_conns T' !! fd with
  | Some e' => en_addr e' = en_addr e /\ fd ∈ op /\ exists c', st_conns s' !! en_addr e = Some c' /\ chain_for c' (en_pend e') o
  | None => o = None
  end ->
  (forall k, k <> fd -> k ∈ k_open K -> k ∈ op) ->
  forall chains', chains' ++ split_chains sqes ≡ₚ option_list o ++ chains ->
  chains_ok lis (mkKernel chains' op) s' T' (set_chain fd o q).
Proof.
  intros HT He [Hmap Hends Hlis Hent Hnone Hopen] Hd Hsq Hes Hli Hoth Hne Hkey Hfd Hop chains' Hperm.
  destruct (table_addr _ _ _ _ HT He) as [Hlfd Hk]. split; cbn [k_chains k_open].
  - rewrite Hsq split_chains_app //. eapply chain_map_perm; [|by apply chain_map_set; [exact Hd|exact Hkey]].
    rewrite app_assoc -Hperm -!app_assoc. f_equiv. apply Permutation_app_comm.
  - rewrite Hsq. by apply ends_app.
  - intros lfd Hlf. rewrite set_chain_ne ?Hli; [by intros ->|by apply Hlis].
  - intros k e1 c Hk1 Hc1. destruct (decide (k = fd)) as [->|Hkne].
    + rewrite set_chain_eq. rewrite Hk1 in Hfd. destruct Hfd as (Ha & _ & c' & Hc' & Hch). by simplify_eq/=; rewrite Ha Hc' in Hc1; simplify_eq.
    + rewrite set_chain_ne //. rewrite Hne // in Hk1. apply (Hent k e1 c Hk1). rewrite -Hoth //.
      intros Ha. apply Hkne. apply (table_inj s k fd (en_addr e)); [apply HT| |done]. rewrite -Ha. by apply (table_addr _ _ _ _ HT Hk1).
  - intros k Hk1 Hk2. destruct (decide (k = fd)) as [->|]; [rewrite set_chain_eq; by rewrite Hk2 in Hfd|].
    rewrite set_chain_ne //. apply Hnone; [done|]. by rewrite -Hne.
  - destruct Hopen as [Hol Hof]. split; [intros lfd Hlf; apply Hop; [by intros ->|by apply Hol]|]. intros k Hk1. destruct (decide (k = fd)) as [->|].
    + destruct Hk1 as [e1 Hk1]. rewrite Hk1 in Hfd. apply Hfd.
    + apply Hop; [done|]. apply Hof. by rewrite -Hne.
Qed.

(** The answers for other connections are where the kernel stored them. *)
Lemma filled_keep s s' fd a l :
  mgr_ok P s -> cm_connections (st_mgr s) !! fd = Some a ->
  (forall x a' data more, x ∈ l -> x.2 = AnsRecv a' data more -> key_of (sq_data x.1) <> fd) ->
  (forall k, k <> fd -> is_Some (cm_connections (st_mgr s) !! k) -> cm_connections (st_mgr s') !! k = cm_connections (st_mgr s) !! k) ->
  (forall k b, k <> fd -> cm_connections (st_mgr s) !! k = Some b -> st_conns s' !! b = st_conns s !! b) ->
  st_worker s' = st_worker s -> Forall (filled s) l -> Forall (filled s') l.
Proof.
  intros Hm Ha Hl Hcm Hoth Hw Hf. apply Forall_forall. intros x Hx. have Hfx := proj1 (Forall_forall _ _) Hf x Hx.
  rewrite /filled in Hfx |- *. destruct (x.2) as [fd' raw|a' data more| | | |] eqn:Hx2; try done; [by rewrite Hw|].
  destruct Hfx as (Hka & c & inb & Hc & Hi & Hp). have Hne := Hl _ _ _ _ Hx Hx2.
  split; [by rewrite Hcm|]. exists c, inb. split_and!; try done. by rewrite (Hoth (key_of (sq_data x.1))).
Qed.

(** The connection [fd] is about to see the answer to its first request [r]. *)
Record at_head (K K1 : kernel) (l : list (sqe * answer)) (s : St) (T : server) (fd : Z) (en : entry) (c : connection)
    (r : areq) (rs : list areq) (e : sqe) (ans : answer) : Prop := {
  ah_table : table_ok P lis s T;
  ah_entry : sv_conns T !! fd = Some en;
  ah_stream : stream_conn (P := P) fd (en_addr en) c s;
  ah_ok : entry_ok fd en c;
  ah_pend : en_pend en = r :: rs;
  ah_sqe : sqe_for c r e;
  ah_filled : Forall (filled s) l;
  ah_answer : answers (k_open K) (sq_op e) ans;
  ah_open : k_open K1 = opens (k_open K) (sq_op e) ans;
  ah_steps : chain_steps (k_chains K1) l;
  ah_chains : exists q rest chains, chains_ok lis K s T q /\ Forall2 (sqe_for c) rs rest /\
    k_chains K1 = chain_rest rest ++ chains /\ chain_map (chains ++ split_chains (st_sq s)) (delete fd q)
}.

(** The worker is about to see the answer to its accept request. *)
Record at_listener (lfd : Z) (K K1 : kernel) (l : list (sqe * answer)) (s : St) (T : server) (e : sqe) (ans : answer) : Prop := {
  al_here : lis = Some lfd;
  al_table : table_ok P lis s T;
  al_sqe : e = accept_sqe lfd;
  al_listening : sv_listening T = true;
  al_filled : Forall (filled s) l;
  al_answer : answers (k_open K) (sq_op e) ans;
  al_open : k_open K1 = opens (k_open K) (sq_op e) ans;
  al_steps : chain_steps (k_chains K1) l;
  al_chains : exists q, chains_ok lis K s T q /\ chain_map (k_chains K1 ++ split_chains (st_sq s)) (delete lfd q)
}.

(** The first answer is for the accept request or for a connection of the table. *)
Lemma table_head K K1 e ans l s T :
  table_rel P lis K ((e, ans) :: l) s T -> kernel_step K (e, ans) K1 -> chain_steps (k_chains K1) l ->
  let fd := key_of (sq_data e) in
  (lis = Some fd /\ at_listener fd K K1 l s T e ans) \/
  exists en c r rs, at_head K K1 l s T fd en c r rs e ans.
Proof.
  intros (HT & (q & Hq) & [_ Hf]%Forall_cons) Hs Hss fd. inversion Hs as [? ? rest chains ? Hp Ha]; subst.
  have Hq0 := Hq. destruct Hq0 as [Hmap _ Hlis Hent Hnone _].
  have Hperm : k_chains K ++ split_chains (st_sq s) ≡ₚ (e :: rest) :: chains ++ split_chains (st_sq s) by rewrite Hp.
  destruct (chain_map_first _ _ _ _ (chain_map_perm _ _ _ Hperm Hmap)) as [Hfd Hd]. fold fd in Hfd, Hd.
  destruct (decide (lis = Some fd)) as [Heq|Hne].
  { left. split; [done|]. rewrite (Hlis _ Heq) in Hfd. destruct (sv_listening T) eqn:Hli; [|done].
    injection Hfd as He <-. split; try done. by exists q. }
  right. destruct (sv_conns T !! fd) as [en|] eqn:Hen; [|by rewrite Hnone in Hfd].
  destruct (table_stream _ _ _ _ HT Hen) as (c & Hsc & Heo).
  have Hch := Hent fd en c Hen ltac:(apply Hsc). rewrite Hfd in Hch.
  destruct (en_pend en) as [|r rs] eqn:Hpend; [done|]. destruct Hch as (ch & [= <-] & Hall).
  apply Forall2_cons_inv_l in Hall as (e1 & rest1 & Hr & Hrs & [= <- <-]).
  exists en, c, r, rs. split; try done. by exists q, rest, chains.
Qed.

Lemma at_head_rest K K1 l s T fd en c r rs e ans : at_head K K1 l s T fd en c r rs e ans -> rs = [] \/ (rs = [AClose] /\ c_state c = connClose).
Proof. intros [_ _ _ Heo Hpend _ _ _ _ _ _]. exact (pend_rest _ _ _ _ _ (eo_pend _ _ _ Heo) Hpend). Qed.

(** No receive of [fd] has been answered besides. *)
Lemma at_head_later K K1 l s T fd en c r rs e ans x a data more :
  at_head K K1 l s T fd en c r rs e ans -> x ∈ l -> x.2 = AnsRecv a data more -> key_of (sq_data x.1) <> fd.
Proof.
  intros Hah Hx Hx2 Hkey. have Hrs := at_head_rest _ _ _ _ _ _ _ _ _ _ _ _ Hah.
  destruct Hah as [_ _ _ _ _ _ _ _ _ Hss (q & rest & chains & Hq & Hrest & HK1 & Hd)].
  destruct (chain_steps_in _ _ _ Hss Hx) as ((op & Hop) & ch & Hch & Hin). rewrite HK1 elem_of_app in Hch. rewrite Hx2 in Hop.
  destruct Hch as [Hch|Hch].
  - destruct Hrs as [->|[-> _]]; [by inversion Hrest; subst; apply elem_of_nil in Hch|].
    inversion Hrest as [|? ? ? ? He Hn]; subst. inversion Hn; subst. apply list_elem_of_singleton in Hch as ->.
    apply list_elem_of_singleton in Hin. rewrite Hin in Hop. clear Hin. inversion He; subst. done.
  - destruct (chain_map_lookup _ _ ch Hd) as [fd' Hfd']; [by apply elem_of_app; left|].
    have Hk' := proj2 Hd _ _ _ Hfd' Hin. apply lookup_delete_Some in Hfd' as [Hne _]. congruence.
Qed.

(** The relation after the event of [fd]: the requests [sqes] were queued. *)
Lemma rel_keep K op chains1 l s s' T T' fd en c r rs e ans o sqes :
  at_head K (mkKernel chains1 op) l s T fd en c r rs e ans ->
  mgr_ok P s' -> st_worker s' = st_worker s -> cm_closing (st_mgr s') = cm_closing (st_mgr s) ->
  (forall b, b <> en_addr en -> st_conns s' !! b = st_conns s !! b) ->
  st_log s' = sv_log T' -> sv_listening T' = sv_listening T -> (forall k, k <> fd -> sv_conns T' !! k = sv_conns T !! k) ->
  st_sq s' = st_sq s ++ sqes -> ends sqes -> (forall k, k <> fd -> k ∈ k_open K -> k ∈ op) ->
  (forall ch x, o = Some ch -> x ∈ ch -> key_of (sq_data x) = fd) ->
  (forall rest, Forall2 (sqe_for c) rs rest -> chain_rest rest ++ split_chains sqes ≡ₚ option_list o) ->
  match sv_conns T' !! fd with
  | Some e' => en_addr e' = en_addr en /\ st_mgr s' = st_mgr s /\ (fd ∈ k_open K -> fd ∈ op) /\
      exists c', st_conns s' !! en_addr en = Some c' /\ entry_ok fd e' c' /\ chain_for c' (en_pend e') o
  | None => o = None /\ cm_connections (st_mgr s') = delete fd (cm_connections (st_mgr s))
  end -> table_rel P lis (mkKernel chains1 op) l s' T'.
Proof.
  intros Hah Hm' Hw Hcl Hoth Hlog Hli Hne Hsq Hes Hop Hkeys Hperm Hfd. have Hlater := at_head_later _ _ _ _ _ _ _ _ _ _ _ _ _ _ _ _ Hah.
  destruct Hah as [HT Hen Hsc Heo Hpend Hsqe Hf _ _ Hss (q & rest & chains & Hq & Hrest & HK1 & Hd)]. simpl in HK1. subst chains1.
  have [Hlfd Hk] := table_addr _ _ _ _ HT Hen. have Hm := to_mgr _ _ _ HT.
  have Hcmk : forall k, k <> fd -> cm_connections (st_mgr s') !! k = cm_connections (st_mgr s) !! k.
  { intros k Hkne. destruct (sv_conns T' !! fd); [by destruct Hfd as (_ & -> & _)|]. destruct Hfd as [_ ->]. by rewrite lookup_delete_ne. }
  split_and!.
  - eapply (table_keep s s' T T' fd en); try done. destruct (sv_conns T' !! fd); [|apply Hfd].
    destruct Hfd as (Ha & Hmgr & _ & c' & Hc' & Heo' & _). split_and!; try done. by exists c'.
  - exists (set_chain fd o q). eapply (chains_keep K op chains s s' T T' q fd en o sqes); try done.
    + destruct (sv_conns T' !! fd); [|apply Hfd]. destruct Hfd as (Ha & _ & Hin & c' & Hc' & _ & Hch). split_and!; try done; [|by exists c'].
      apply Hin. by apply (co_open _ _ _ _ _ Hq).
    + rewrite -(Hperm rest Hrest) -!app_assoc. f_equiv. apply Permutation_app_comm.
  - eapply (filled_keep s s' fd (en_addr en)); try done; [intros k Hkne _; by apply Hcmk|].
    intros k b Hkne Hkb. apply Hoth. intros ->. by apply Hkne, (table_inj s k fd (en_addr en)).
Qed.

Lemma at_listener_later lfd K K1 l s T e ans x : at_listener lfd K K1 l s T e ans -> x ∈ l -> key_of (sq_data x.1) <> lfd.
Proof.
  intros [_ _ _ _ _ _ _ Hss (q & Hq & Hd)] Hx Hkey. destruct (chain_steps_in _ _ _ Hss Hx) as (_ & ch & Hch & Hin).
  destruct (chain_map_lookup _ _ ch Hd) as [fd' Hfd']; [by apply elem_of_app; left|].
  have Hk' := proj2 Hd _ _ _ Hfd' Hin. apply lookup_delete_Some in Hfd' as [Hne _]. congruence.
Qed.

(** The accept request failed: the worker is the same, without an accept request. *)
Lemma deaf_rel lfd K K1 l s T e errno :
  at_listener lfd K K1 l s T e (AnsError errno) -> table_rel P lis K1 l s (mkServer (sv_log T) false (sv_conns T)).
Proof.
  intros [Hlf HT _ _ Hf _ Hop _ (q & [Hmap Hends Hlis Hent Hnone Hopen] & Hd)]. split_and!; [by destruct HT; split| |done].
  exists (delete lfd q). split; try done.
  - intros lfd' Hlf'. have -> : lfd' = lfd by congruence. by rewrite lookup_delete_eq.
  - intros fd en c Hen Hc. have [Hne _] := table_addr _ _ _ _ HT Hen. rewrite lookup_delete_ne; [congruence|]. by apply Hent.
  - intros fd Hne Hno. rewrite lookup_delete_ne; [congruence|]. by apply Hnone.
  - by rewrite Hop.
Qed.

End Keep.

(** ** The steps *)

(** What the state of a connection says about its first request. *)
Lemma pend_recv A rs st : pend_ok A (ARecv :: rs) st -> rs = [] /\ st = connRead /\ a_closed A = false /\ a_out A = [].
Proof.
  intros Hp. inversion Hp as [Heq| |]. move: Heq. rewrite /next_reqs /next_state.
  destruct (Z.ltb_spec 0 (zlen (a_out A))), (a_closed A); intros [= <-]. split_and!; try done. apply zlen_nil_inv.
  have := zlen_nonneg (a_out A). lia.
Qed.

Lemma pend_send A len link rs st :
  pend_ok A (ASend len link :: rs) st ->
  len = zlen (a_out A) /\ (link = false /\ rs = [] /\ st = connWrite \/ link = true /\ rs = [AClose] /\ st = connClose).
Proof.
  intros Hp. inversion Hp as [Heq| |]. move: Heq. rewrite /next_reqs /next_state.
  destruct (0 <? zlen (a_out A)), (a_closed A); intros [= <- <- <-]; auto.
Qed.

Lemma pend_close A rs st : pend_ok A (AClose :: rs) st -> rs = [] /\ st = connClose.
Proof.
  intros Hp. inversion Hp as [Heq| |]; [|done]. move: Heq. rewrite /next_reqs /next_state.
  destruct (0 <? zlen (a_out A)), (a_closed A); intros [= <-]; auto.
Qed.

Lemma next_chain_keys c A sqes fd :
  Forall2 (sqe_for c) (next_reqs A) sqes -> c_fd c = fd -> 0 <= fd < 2 ^ 31 -> forall e, e ∈ sqes -> key_of (sq_data e) = fd.
Proof.
  intros Hall Hfd Hr e He. apply list_elem_of_lookup_1 in He as [i Hi]. destruct (Forall2_lookup_r _ _ _ _ _ Hall Hi) as (r & _ & Hs).
  rewrite (sqe_for_key _ _ _ Hs); congruence.
Qed.

Lemma next_chain_short c A sqes : Forall2 (sqe_for c) (next_reqs A) sqes -> zlen sqes <= 2.
Proof.
  intros Hall. rewrite /zlen -(Forall2_length _ _ _ Hall) /next_reqs. destruct (0 <? zlen (a_out A)), (a_closed A); simpl; lia.
Qed.

Section Serve.
Context {env : Env} {P : World -> Prop} `{!EnvLaws env P} (handler : EventHandler) (w : workerConf) (lis : option Z).
Notation lfd := (w_fd w).

(** The event of the answer [x] made the step [x] of the server. *)
Definition stepped (K1 : kernel) (l : list (sqe * answer)) (T : server) (x : Z * answer) (s s' : St) : Prop :=
  exists T', serve handler lfd T x T' /\ table_rel P lis K1 l s' T' /\ st_worker s' = st_worker s /\
    st_sq_size s' = st_sq_size s /\ free_slots s <= free_slots s' + 3.

(** The queue after the event. *)
Lemma free_slots_app s s' sqes :
  st_sq s' = st_sq s ++ sqes -> st_sq_size s' = st_sq_size s -> zlen sqes <= 3 -> free_slots s <= free_slots s' + 3.
Proof. rewrite /free_slots => -> ->. rewrite zlen_app. lia. Qed.

(** A connection that was served is again an entry of the table. *)
Lemma served_rel K K1 l s s' T fd en c r e ans cb A0 :
  at_head (P := P) lis K K1 l s T fd en c r [] e ans -> k_open K1 = k_open K ->
  served (P := P) handler fd (en_addr en) c cb A0 s s' ->
  exists A, prog_spec tcp A0 (handler (sv_log T) cb) A /\ table_rel P lis K1 l s' (called T fd en cb A (next_reqs A)) /\
    st_worker s' = st_worker s /\ st_sq_size s' = st_sq_size s /\ free_slots s <= free_slots s' + 3.
Proof.
  intros Hah Hop (Hm' & Hmgr & Hl & Hsz & Hw & Hoth & A & c' & sqes & Hspec & Hc' & HA & Hfd' & Hkey' & Hnet' & [_ Hrem] & Hst' & _ & Hsq & Hall & _).
  have [HT _ _ [Hfd Hr Hnet Habs Hpeer _] _ _ _ _ _ _ _] := Hah. rewrite Hnet (to_log _ _ _ HT) in Hspec.
  destruct (next_chain _ _ _ Hall) as (Hsplit & Hends & Hne). exists A. split; [done|].
  split; [|split; [done|split; [done|eapply free_slots_app; [done|done|]; have := next_chain_short _ _ _ Hall; lia]]].
  destruct K1 as [chains1 op]. simpl in Hop. subst op.
  eapply (rel_keep (P := P) lis K (k_open K) chains1 l s s' T _ fd en c r [] e ans (Some sqes) sqes Hah); try done.
  - by rewrite Hmgr.
  - by rewrite Hl (to_log _ _ _ HT).
  - intros k Hk. by rewrite lookup_insert_ne.
  - intros ch x [= <-]. by eapply next_chain_keys.
  - intros rest Hrest. inversion Hrest; subst. by rewrite Hsplit.
  - rewrite lookup_insert_eq. split_and!; try done. exists c'. split_and!; try done.
    + split; try done; [by rewrite Hnet'|by rewrite /= Hrem|]. rewrite Hst'. apply po_next.
    + rewrite /chain_for /=. destruct (next_reqs A) eqn:Hn; [done|]. by exists sqes.
Qed.

(** A connection that is gone. *)
Lemma released_rel K K1 l s s' T fd en c r e ans sys err :
  at_head (P := P) lis K K1 l s T fd en c r [] e ans -> (forall k, k <> fd -> k ∈ k_open K -> k ∈ k_open K1) ->
  released (P := P) fd (en_addr en) c sys (CbClose (en_addr en) err) s s' ->
  table_rel P lis K1 l s' (gone T fd en err) /\ st_worker s' = st_worker s /\ st_sq_size s' = st_sq_size s /\ free_slots s <= free_slots s' + 3.
Proof.
  intros Hah Hop (Hm' & Hl & Hsq & _ & Hcm & _ & Hcl & _ & Hoth & Hw & Hsz).
  have HT := ah_table _ _ _ _ _ _ _ _ _ _ _ _ _ Hah. have Hsq' : st_sq s' = st_sq s ++ [] by rewrite app_nil_r.
  split; [|split; [done|split; [done|by eapply free_slots_app]]]. destruct K1 as [chains1 op].
  eapply (rel_keep (P := P) lis K op chains1 l s s' T _ fd en c r [] e ans None [] Hah); try done.
  - by rewrite Hl (to_log _ _ _ HT).
  - intros k Hk. by rewrite lookup_delete_ne.
  - intros rest Hrest. by inversion Hrest; subst.
  - by rewrite lookup_delete_eq.
Qed.

(** The state of the connection says which entry the event has. *)
Lemma at_head_room K K1 l s T fd en c rs e ans :
  at_head (P := P) lis K K1 l s T fd en c ARecv rs e ans ->
  rs = [] /\ c_state c = connRead /\ c_closed c = false /\ a_out (conn_abs c) = [] /\
  sq_data e = Z.lor readDataFlag (uint64 fd).
Proof.
  intros [_ _ _ [Hfd _ _ Habs _ Hp] Hpend Hsqe _ _ _ _ _]. rewrite Hpend in Hp. destruct (pend_recv _ _ _ Hp) as (-> & Hst & Hcl & Hout).
  rewrite -Habs in Hcl, Hout. inversion Hsqe; subst. by split_and!.
Qed.

(** Bytes were received without a call of the handler. *)
Lemma more_rel K K1 l s s' T fd en c e ans s2 c2 data :
  at_head (P := P) lis K K1 l s T fd en c ARecv [] e ans -> k_open K1 = k_open K ->
  settled (P := P) (en_addr en) c2 s2 s' -> conn_abs c2 = recv_abs (conn_abs c) data ->
  c_fd c2 = fd -> c_key c2 = fd -> c_network c2 = c_network c -> same_peer c c2 -> event_frame (en_addr en) s s2 ->
  st_log s2 = st_log s -> st_sq s2 = st_sq s ->
  table_rel P lis K1 l s' (mkServer (sv_log T) (sv_listening T)
      (<[fd := mkEntry (en_addr en) (en_peer en) (recv_abs (en_conn en) data) [ARecv]]> (sv_conns T))) /\
  st_worker s' = st_worker s /\ st_sq_size s' = st_sq_size s /\ free_slots s <= free_slots s' + 3.
Proof.
  intros Hah Hop (c' & sqes & Hc' & Hok' & HA' & Hfd' & Hkey' & Hnet' & Hst' & _ & Hall & Hq' & Hl' & Hf' & HP' & Hp') HA2 Hfd2 Hkey2 Hnet2 Hp2 Hf2 Hl2 Hq2.
  destruct (at_head_room _ _ _ _ _ _ _ _ _ _ _ Hah) as (_ & _ & Hcl & Hout & _).
  have [HT Hen Hsc [Hfd Hr Hnet Habs Hpeer _] _ _ _ _ _ _ _] := Hah. have Hf := event_frame_trans _ _ _ _ Hf2 Hf'.
  have [Hman _ _] := Hsc. have [_ Hkey] := managed_ok _ _ _ _ Hman.
  have Hm' : mgr_ok P s' by eapply (mgr_ok_event_frame s s' fd (en_addr en) c c'); try done; congruence.
  have Hnext : next_reqs (conn_abs c2) = [ARecv] /\ next_state (conn_abs c2) = connRead.
  { have Hcl2 : a_closed (conn_abs c) = false by exact Hcl. rewrite HA2 /next_reqs /next_state /recv_abs. cbn [a_out a_closed]. by rewrite Hout Hcl2. }
  destruct Hnext as [Hreq Hns]. destruct (next_chain _ _ _ Hall) as (Hsplit & Hends & _).
  have [_ Hrem] := same_peer_trans _ _ _ Hp2 Hp'. have Hlog : st_log s' = sv_log T by rewrite Hl' Hl2; apply HT.
  destruct Hf as (cx & wx & qx & tx & lx & _ & Hs'). have Hsq : st_sq s' = st_sq s ++ sqes by rewrite Hq' Hq2.
  split; [|split; [by rewrite Hs'|split; [by rewrite Hs'|eapply free_slots_app; [done|by rewrite Hs'|have := next_chain_short _ _ _ Hall; lia]]]].
  destruct K1 as [chains1 op]. simpl in Hop. subst op.
  eapply (rel_keep (P := P) lis K (k_open K) chains1 l s s' T _ fd en c ARecv [] e ans (Some sqes) sqes Hah); try done.
  - by rewrite Hs'.
  - by rewrite Hs'.
  - intros b Hb. by rewrite Hs' /= lookup_insert_ne.
  - intros k Hk. by rewrite lookup_insert_ne.
  - intros ch x [= <-]. eapply next_chain_keys; [done|congruence|done].
  - intros rest Hrest. inversion Hrest; subst. by rewrite Hsplit.
  - rewrite lookup_insert_eq. split_and!; try done; [by rewrite Hs'|]. exists c'. rewrite Hreq in Hall. split_and!; [done| |by exists sqes].
    split; try done; [congruence|congruence|by rewrite HA' HA2 Habs|by rewrite Hrem|]. simpl. rewrite Hst' -Habs -HA2 -Hreq. apply po_next.
Qed.

(** What is left of the chain after its first request. *)
Definition rest_chain (c : connection) (rs : list areq) : option (list sqe) :=
  match rs with [] => None | _ => Some [close_sqe c] end.

Lemma rest_chain_perm c rs rest :
  rs = [] \/ (rs = [AClose] /\ c_state c = connClose) -> Forall2 (sqe_for c) rs rest ->
  chain_rest rest ++ split_chains [] ≡ₚ option_list (rest_chain c rs).
Proof.
  intros [->|[-> _]] Hall; [by inversion Hall; subst|]. inversion Hall as [|? ? ? ? He Hn]; subst. inversion Hn; subst. by inversion He; subst.
Qed.

Lemma rest_chain_keys c rs fd :
  c_fd c = fd -> 0 <= fd < 2 ^ 31 -> forall ch x, rest_chain c rs = Some ch -> x ∈ ch -> key_of (sq_data x) = fd.
Proof.
  intros Hfd Hr ch x Hch Hx. destruct rs; [done|]. injection Hch as <-. apply list_elem_of_singleton in Hx as ->.
  rewrite (sqe_for_key c AClose); [apply (sf_close c)|congruence|done].
Qed.

(** The last bytes of a closing connection were sent. *)
Lemma last_rel K K1 l s s' T fd en c len e n c' :
  at_head (P := P) lis K K1 l s T fd en c (ASend len true) [AClose] e (AnsSent n) -> k_open K1 = k_open K ->
  user_ready P (en_addr en) s' c' -> c_fd c' = fd -> c_key c' = fd -> c_network c' = c_network c -> c_state c' = c_state c -> c_state c = connClose ->
  same_peer c c' -> event_frame (en_addr en) s s' -> st_log s' = st_log s ++ [CbWrite (en_addr en) n] -> st_sq s' = st_sq s ->
  table_rel P lis K1 l s' (called T fd en (CbWrite (en_addr en) n) (conn_abs c') [AClose]) /\
  st_worker s' = st_worker s /\ st_sq_size s' = st_sq_size s /\ free_slots s <= free_slots s' + 3.
Proof.
  intros Hah Hop [Hc' Hok' _ HP'] Hfd' Hkey' Hnet' Hst' Hst [_ Hrem] Hf Hl Hq.
  have [HT Hen Hsc [Hfd Hr Hnet Habs Hpeer _] _ _ _ _ _ _ _] := Hah. have [Hman _ _] := Hsc. have [_ Hkey] := managed_ok _ _ _ _ Hman.
  have Hm' : mgr_ok P s' by eapply (mgr_ok_event_frame s s' fd (en_addr en) c c'); try done; congruence.
  have Hsq : st_sq s' = st_sq s ++ [] by rewrite app_nil_r.
  destruct Hf as (cx & wx & qx & tx & lx & _ & Hs'). split; [|split; [by rewrite Hs'|split; [by rewrite Hs'|eapply free_slots_app; [done|by rewrite Hs'|done]]]].
  destruct K1 as [chains1 op]. simpl in Hop. subst op.
  eapply (rel_keep (P := P) lis K (k_open K) chains1 l s s' T _ fd en c _ [AClose] e _ (rest_chain c [AClose]) [] Hah); try done.
  - by rewrite Hs'.
  - by rewrite Hs'.
  - intros b Hb. by rewrite Hs' /= lookup_insert_ne.
  - by rewrite Hl (to_log _ _ _ HT).
  - intros k Hk. by rewrite lookup_insert_ne.
  - by apply rest_chain_keys.
  - intros rest. apply rest_chain_perm. by right.
  - rewrite lookup_insert_eq. split_and!; try done; [by rewrite Hs'|]. exists c'. split_and!; [done| |].
    + split; try done; [congruence|by rewrite /= Hrem|]. simpl. rewrite Hst' Hst. apply po_closing.
    + exists [close_sqe c]. split; [done|]. constructor; [|constructor]. rewrite /close_sqe Hfd -Hfd'. apply (sf_close c').
Qed.

(** A failed request leaves the connection as it was, with what is left of its chain. *)
Lemma step_failed K K1 l s T fd en c r rs e errno :
  at_head (P := P) lis K K1 l s T fd en c r rs e (AnsError errno) ->
  wp (shard_event handler w (cqe_of (e, AnsError errno))) (fun r s' => r = None /\ stepped K1 l T (fd, AnsError errno) s s') s.
Proof.
  intros Hah. have Hrs := at_head_rest _ _ _ _ _ _ _ _ _ _ _ _ _ Hah.
  have [HT Hen Hsc [Hfd Hr Hnet Habs Hpeer Hp] Hpend _ _ Hans Hop _ _] := Hah. rewrite /cqe_of /=.
  apply wp_shard_failed; [exact Hans|]. split; [done|]. eexists. split; [by eapply sv_failed|].
  split; [|split; [done|split; [done|lia]]]. destruct K1 as [chains1 op]. simpl in Hop. subst op.
  eapply (rel_keep (P := P) lis K _ chains1 l s s T _ fd en c r rs e _ (rest_chain c rs) [] Hah); try done.
  - apply HT.
  - by rewrite (to_log _ _ _ HT).
  - intros k Hk. by rewrite lookup_insert_ne.
  - by rewrite app_nil_r.
  - by apply rest_chain_keys.
  - intros rest. by apply rest_chain_perm.
  - rewrite lookup_insert_eq. split_and!; try done. exists c. split_and!; [apply Hsc| |].
    + split; try done. cbn [en_conn en_pend]. destruct Hrs as [->|[-> Hst]]; [apply po_failed|rewrite Hst; apply po_closing].
    + destruct Hrs as [->|[-> Hst]]; [done|]. exists [close_sqe c]. split; [done|]. constructor; [apply (sf_close c)|constructor].
Qed.

(** The new connection of an accepted client. *)
Definition new_entry (b : nat) (c : connection) : entry := mkEntry b (c_remoteAddr c) (conn_abs c) (next_reqs (conn_abs c)).

Definition with_new (T : server) (fd : Z) (b : nat) (c : connection) : server :=
  mkServer (sv_log T ++ [CbAccept b]) (sv_listening T) (<[fd := new_entry b c]> (sv_conns T)).

(** The connections of the table are as they were, and [b] is not one of them. *)
Definition others_kept (T : server) (b : nat) (s s' : St) : Prop :=
  forall k e, sv_conns T !! k = Some e -> en_addr e <> b /\ st_conns s' !! en_addr e = st_conns s !! en_addr e.

Lemma new_table s s' T fd b c' :
  table_ok P lis s T -> lis <> Some fd -> mgr_ok P s' -> st_log s' = st_log s ++ [CbAccept b] -> listener_ok lis s' (with_new T fd b c') ->
  others_kept T b s s' -> st_conns s' !! b = Some c' -> entry_ok fd (new_entry b c') c' ->
  serving (bool_decide (is_Some lis)) (st_worker s') -> cm_closing (st_mgr s') = cm_closing (st_mgr s) ->
  table_ok P lis s' (with_new T fd b c').
Proof.
  intros [Hm Hlog Hrl Hfree Hal Hent [Hsv Hclo]] Hne Hm' Hl' Hal' Hold Hc' Heo Hsv' Hcl'. split; try done.
  - by rewrite Hl' Hlog.
  - intros lfd Hlf. rewrite /= lookup_insert_ne; [congruence|]. by apply Hfree.
  - intros k e. cbn [sv_conns with_new]. intros [[<- <-]|[Hkne Hk]]%lookup_insert_Some; [by exists c'|].
    destruct (Hent _ _ Hk) as (c0 & Hc0 & Heo0). exists c0. by rewrite (proj2 (Hold _ _ Hk)).
  - by rewrite Hcl'.
Qed.

Lemma new_chains K op s s' T fd b c' sqes q :
  table_ok P lis s T -> chains_ok lis K s T q -> sv_conns T !! fd = None -> lis <> Some fd -> 0 <= fd < 2 ^ 31 ->
  others_kept T b s s' -> st_conns s' !! b = Some c' -> c_fd c' = fd -> Forall2 (sqe_for c') (next_reqs (conn_abs c')) sqes ->
  st_sq s' = st_sq s ++ sqes -> (forall k, k ∈ k_open K -> k ∈ op) -> fd ∈ op ->
  chains_ok lis (mkKernel (k_chains K) op) s' (with_new T fd b c') (<[fd := sqes]> q).
Proof.
  intros HT [Hmap Hes Hlis Hent Hnone [Hol Hof]] Hno Hne Hr Hold Hc' Hfd' Hall Hsq Hop Hfd.
  destruct (next_chain _ _ _ Hall) as (Hsplit & Hends & Hnn). split; cbn [sv_conns sv_listening with_new k_chains k_open].
  - rewrite Hsq. eapply chain_map_perm; [|apply (chain_map_add sqes _ _ fd Hmap); [by apply Hnone|by eapply next_chain_keys]].
    rewrite split_chains_app // Hsplit app_assoc. by rewrite (Permutation_app_comm _ [_]).
  - rewrite Hsq. by apply ends_app.
  - intros lfd Hlf. rewrite lookup_insert_ne; [congruence|]. by apply Hlis.
  - intros k e c [[<- <-]|[Hkne Hk]]%lookup_insert_Some Hc.
    + rewrite lookup_insert_eq /chain_for. cbn [en_pend en_addr new_entry] in Hc |- *. rewrite Hc' in Hc. injection Hc as <-.
      destruct (next_reqs (conn_abs c')); [done|]. by exists sqes.
    + rewrite lookup_insert_ne //. apply Hent; [done|]. by rewrite -(proj2 (Hold _ _ Hk)).
  - intros k Hk1 [Hk2 Hk3]%lookup_insert_None. rewrite lookup_insert_ne //. by apply Hnone.
  - split; [intros lfd Hlf; by apply Hop, Hol|]. intros k [<-|[_ Hk]]%lookup_insert_is_Some; [done|]. by apply Hop, Hof.
Qed.

Context (Htcp : w_sendRecvMsg w = false) (Hsync : w_asyncHandler w = false).

Lemma step_recv K K1 l s T fd en c rs e a data more :
  at_head (P := P) lis K K1 l s T fd en c ARecv rs e (AnsRecv a data more) -> filled s (e, AnsRecv a data more) ->
  key_of (sq_data e) = fd -> step_valid handler T (fd, AnsRecv a data more) -> 2 < free_slots s ->
  wp (shard_event handler w (cqe_of (e, AnsRecv a data more))) (fun r s' => r = None /\ stepped K1 l T (fd, AnsRecv a data more) s s') s.
Proof.
  intros Hah (Hka & c1 & inb & Hc1 & Hi & Hpre) Hkey Hv Hsq. destruct (at_head_room _ _ _ _ _ _ _ _ _ _ _ Hah) as (-> & Hst & Hcl & Hout & Hdata).
  have [HT Hen Hsc [Hfd Hr Hnet Habs Hpeer _] Hpend Hsqe Hf Hans Hop Hss Hch] := Hah. cbn [fst] in Hka. rewrite Hkey in Hka.
  have [_ Hk] := table_addr _ _ _ _ _ HT Hen. rewrite Hk in Hka. injection Hka as <-.
  have [[_ _ Hc] _ _] := Hsc. rewrite Hc in Hc1. injection Hc1 as <-.
  destruct (Hv en Hen) as [Hbound Hpv]. have Hpos : 0 < zlen data by inversion Hsqe; subst; apply Hans.
  have Hsw := shard_stream_worker handler w Htcp. have Hopen : k_open K1 = k_open K by rewrite Hop; destruct (sq_op e).
  rewrite /cqe_of /= Hdata. pose proof (event_reaches (P := P) handler w 0 (shard_event handler w) Htcp fd (en_addr en) c inb data more s ltac:(lia) Hsc Hst Hi Hpos Hpre) as Hreach.
  rewrite -Habs in Hbound. destruct more.
  - eapply wp_mono; [eapply (wp_stream_more (P := P) handler w); [exact Hreach|done|done|done|lia]|].
    intros r0 s' [-> (s2 & c2 & Hset & HA2 & Hfd2 & Hkey2 & Hnet2 & Hp2 & Hf2 & Hl2 & Hq2)]. split; [done|].
    eexists. split; [by apply sv_more|]. by eapply more_rel.
  - eapply wp_mono; [eapply (wp_stream_read (P := P) handler w Htcp Hsync); [exact Hsc|exact Hreach|done|lia|]|].
    { rewrite Hnet Habs (to_log _ _ _ HT). by apply Hpv. }
    intros r0 s' [-> Hserved]. split; [done|]. destruct (served_rel _ _ _ _ _ _ _ _ _ _ _ _ _ _ Hah Hopen Hserved) as (A & Hspec & Hrel).
    eexists. split; [by apply sv_recv; [..|rewrite -Habs; exact Hspec]|]. exact Hrel.
Qed.

(** [OnClose] may run on the connection. *)
Lemma close_valid T fd en c s ans :
  table_ok P lis s T -> entry_ok fd en c -> sv_conns T !! fd = Some en -> ans = AnsEof \/ ans = AnsClosed ->
  step_valid handler T (fd, ans) ->
  forall err, prog_valid (c_network c) (closing_abs c) (handler (st_log s) (CbClose (en_addr en) err)).
Proof.
  intros HT [_ _ Hnet Habs _ _] Hen Hans Hv err. rewrite (to_log _ _ _ HT) /closing_abs Hnet.
  have -> : c_closed c || negb (tcp =? udp) = true by rewrite orb_true_r.
  have -> : c_ctx c = a_ctx (conn_abs c) by []. rewrite Habs. destruct Hans as [-> | ->]; by apply (Hv en).
Qed.

Lemma step_eof K K1 l s T fd en c rs e :
  at_head (P := P) lis K K1 l s T fd en c ARecv rs e AnsEof -> step_valid handler T (fd, AnsEof) ->
  wp (shard_event handler w (cqe_of (e, AnsEof))) (fun r s' => r = None /\ stepped K1 l T (fd, AnsEof) s s') s.
Proof.
  intros Hah Hv. destruct (at_head_room _ _ _ _ _ _ _ _ _ _ _ Hah) as (-> & Hst & _ & _ & Hdata).
  have [HT Hen Hsc Heo Hpend _ _ _ Hop _ _] := Hah. rewrite /cqe_of /= Hdata.
  eapply wp_mono; [eapply (wp_shard_eof (P := P)); [exact Hsc|done|by eapply close_valid; [..|left|]]|].
  intros r0 s' [-> Hrel]. split; [done|]. eexists. split; [by apply sv_eof|]. eapply released_rel; [done| |done].
  intros k _. rewrite Hop. by destruct (sq_op e).
Qed.

Lemma step_closed K K1 l s T fd en c rs e :
  at_head (P := P) lis K K1 l s T fd en c AClose rs e AnsClosed -> step_valid handler T (fd, AnsClosed) ->
  wp (shard_event handler w (cqe_of (e, AnsClosed))) (fun r s' => r = None /\ stepped K1 l T (fd, AnsClosed) s s') s.
Proof.
  intros Hah Hv. have [HT Hen Hsc Heo Hpend Hsqe _ _ Hop _ _] := Hah. have [Hfd _ _ _ _ Hp] := Heo. rewrite Hpend in Hp.
  destruct (pend_close _ _ _ Hp) as [-> Hst]. inversion Hsqe; subst e. rewrite /cqe_of /= Hfd.
  eapply wp_mono; [eapply (wp_shard_closed (P := P)); [exact Hsc|done|by eapply close_valid; [..|right|]]|].
  intros r0 s' [-> Hrel]. split; [done|]. eexists. split; [by apply sv_closed|]. eapply released_rel; [done| |done].
  intros k Hk Hin. rewrite Hop /= Hfd. set_solver.
Qed.

(** The bytes of a send. *)
Lemma at_head_send K K1 l s T fd en c len link rs e n :
  at_head (P := P) lis K K1 l s T fd en c (ASend len link) rs e (AnsSent n) ->
  sq_data e = Z.lor writeDataFlag (uint64 fd) /\ k_open K1 = k_open K /\ len = zlen (a_out (en_conn en)) /\ 0 <= n <= len /\
  (exists outb, c_outbound c = Some outb /\ RingBuffer_Buffered outb = len) /\
  (link = false /\ rs = [] /\ c_state c = connWrite \/ link = true /\ rs = [AClose] /\ c_state c = connClose).
Proof.
  intros [HT Hen [Hman _ _] [Hfd _ _ Habs _ Hp] Hpend Hsqe _ Hans Hop _ _]. rewrite Hpend in Hp.
  destruct (pend_send _ _ _ _ _ Hp) as [Hlen Hcase]. have [Hok _] := managed_ok _ _ _ _ Hman.
  destruct Hok as (inb & outb1 & Hi & Ho & Hin & Hout). inversion Hsqe as [|outb len' link' Ho' Hl|]; subst. rewrite Ho in Ho'. injection Ho' as <-.
  have Hle : uint32 (zlen (a_out (en_conn en))) <= zlen (a_out (en_conn en)).
  { apply Z.mod_le; [apply zlen_nonneg|lia]. }
  simpl in Hans. split_and!; try done; try lia. by exists outb1.
Qed.

Lemma step_sent K K1 l s T fd en c len link rs e n :
  at_head (P := P) lis K K1 l s T fd en c (ASend len link) rs e (AnsSent n) -> step_valid handler T (fd, AnsSent n) -> 2 < free_slots s ->
  wp (shard_event handler w (cqe_of (e, AnsSent n))) (fun r s' => r = None /\ stepped K1 l T (fd, AnsSent n) s s') s.
Proof.
  intros Hah Hv Hsq. destruct (at_head_send _ _ _ _ _ _ _ _ _ _ _ _ _ Hah) as (Hdata & Hop & Hlen & Hn & (outb & Ho & Hb) & Hcase).
  have [HT Hen Hsc [_ _ Hnet Habs _ _] Hpend _ _ _ _ _ _] := Hah. destruct (Hv en Hen) as [Hbound Hpv].
  rewrite -(to_log _ _ _ HT) -Habs -{1}Hnet in Hpv. rewrite -Habs in Hbound. rewrite /cqe_of /= Hdata. have Hsw := shard_stream_worker handler w Htcp.
  destruct Hcase as [(-> & -> & Hst)|(-> & -> & Hst)].
  - eapply wp_mono; [eapply (wp_stream_write (P := P) handler w 0 _ Htcp fd _ c outb n); try done; [apply Hsc|lia|lia]|].
    intros r0 s' [-> Hserved]. split; [done|]. destruct (served_rel _ _ _ _ _ _ _ _ _ _ _ _ _ _ Hah Hop Hserved) as (A & Hspec & Hrel).
    rewrite Habs in Hspec. eexists. split; [by eapply sv_sent|]. exact Hrel.
  - eapply (wp_shard_last (P := P)); [done..|lia|done|]. intros s' c' Hr' Hfd' Hkey' Hnet' Hst' Hp' Hf' Hl' Hq' Hspec'. split; [done|].
    rewrite Hnet (to_log _ _ _ HT) Habs in Hspec'. eexists. split; [by eapply sv_last|]. by eapply last_rel.
Qed.

(** One completion of a connection is one step of the server. *)
Lemma step_head K K1 l s T fd en c r rs e ans :
  at_head (P := P) lis K K1 l s T fd en c r rs e ans -> filled s (e, ans) -> key_of (sq_data e) = fd ->
  step_valid handler T (fd, ans) -> 2 < free_slots s ->
  wp (shard_event handler w (cqe_of (e, ans))) (fun r s' => r = None /\ stepped K1 l T (fd, ans) s s') s.
Proof.
  intros Hah Hfill Hkey Hv Hsq. have Hans := ah_answer _ _ _ _ _ _ _ _ _ _ _ _ _ Hah. have Hsqe := ah_sqe _ _ _ _ _ _ _ _ _ _ _ _ _ Hah.
  destruct ans as [fd' raw|a data more| |n| |errno]; [..|by eapply step_failed].
  all: inversion Hsqe as [inb Hi Hav|outb len link Ho Hlen|]; subst e r; try done.
  - by eapply step_recv.
  - by eapply step_eof.
  - by eapply step_sent.
  - by eapply step_closed.
Qed.

End Serve.

(** ** The listener *)

Section Listener.
Context {env : Env} {P : World -> Prop} `{!EnvLaws env P} (handler : EventHandler) (w : workerConf).
Notation lfd := (w_fd w).
Notation lis := (Some lfd).

Lemma accept_table s s' T fd :
  table_ok P lis s T -> sv_conns T !! fd = None -> fd <> lfd -> 0 <= fd < 2 ^ 31 -> accept_served (P := P) handler w fd s s' ->
  exists b c' sqes, table_ok P lis s' (with_new T fd b c') /\ others_kept T b s s' /\
    (forall addr, client_addr (wv_clientAddr (st_worker s)) = inl addr -> c_remoteAddr c' = addr) /\
    prog_spec tcp empty_abs (handler (sv_log T) (CbAccept b)) (conn_abs c') /\ st_conns s' !! b = Some c' /\ c_fd c' = fd /\
    Forall2 (sqe_for c') (next_reqs (conn_abs c')) sqes /\ st_sq s' = st_sq s ++ [accept_sqe lfd] ++ sqes /\
    st_sq_size s' = st_sq_size s /\ st_worker s' = st_worker s /\ cm_connections (st_mgr s') = <[fd := b]> (cm_connections (st_mgr s)).
Proof.
  intros HT Hno Hne Hr (b & c & s1 & Hnew & Hns & Hloc & Hrem & Hfresh & Hcm1 & Hl1 & Hq1 & Hsz1 & Hw1 & Hcl1 & al & cl & Hkl & Hcl & Hbal & Hal1 & Hoth1).
  destruct Hns as (Hm' & Hmgr' & Hw' & Hl' & Hsz' & Hoth' & c' & sqes & Hc' & Hfd' & Hnet' & [_ Hp'] & Hst' & _ & Hspec & Hq' & Hall).
  rewrite Hl1 (to_log _ _ _ HT) in Hspec. exists b, c', sqes.
  have Hen : others_kept T b s s'.
  { intros k e Hke. have [Hkne Hk] := table_addr _ _ _ _ _ HT Hke. have Hb : en_addr e <> b by intros Heq; apply (Hfresh k); rewrite Hk Heq.
    split; [done|]. rewrite Hoth' // Hoth1 //. intros Heq. apply Hkne. f_equal. symmetry. apply (table_inj (P := P) s k lfd al); [apply HT|by rewrite Hk Heq|done]. }
  split_and!; try done.
  - have [Hsv _] := to_serving _ _ _ HT. eapply new_table; [exact HT|congruence|done|by rewrite Hl' Hl1| |done|done| |by rewrite Hw' Hw1|by rewrite Hmgr' Hcl1].
    + destruct (to_listener _ _ _ HT) as (al0 & cl0 & Hcm & Hal & Hst & Hlf). exists al0, (with_state connAccept cl).
      have Heq : al0 = al by rewrite Hcm lookup_insert_eq in Hkl; simplify_eq. subst al0.
      split_and!; [|by rewrite Hoth' // not_eq_sym|done|simpl; congruence]. rewrite Hmgr' Hcm1 Hcm /= fmap_insert /=. by rewrite insert_insert_ne.
    + split; try done. rewrite Hst'. apply po_next.
  - intros addr Ha. rewrite Hp'. by apply Hrem.
  - by rewrite Hq' Hq1 -app_assoc.
  - by rewrite Hsz' Hsz1.
  - by rewrite Hw' Hw1.
  - by rewrite Hmgr' Hcm1.
Qed.

(** The accept request is in the queue again. *)
Lemma relisten_chains K K1 s T q :
  table_ok P lis s T -> chains_ok lis K s T q -> sv_listening T = true ->
  chain_map (k_chains K1 ++ split_chains (st_sq s)) (delete lfd q) -> (forall k, k ∈ k_open K -> k ∈ k_open K1) ->
  chains_ok lis K1 (set_sq (st_sq s ++ [accept_sqe lfd]) s) T (<[lfd := [accept_sqe lfd]]> (delete lfd q)).
Proof.
  intros HT [Hmap Hes Hlis Hent Hnone [Hol Hof]] Hlt Hd Hop. have Hr0 := to_range _ _ _ HT lfd eq_refl.
  have Hacc : chain_map ([accept_sqe lfd] :: k_chains K1 ++ split_chains (st_sq s)) (<[lfd := [accept_sqe lfd]]> (delete lfd q)).
  { apply chain_map_add; [done|apply lookup_delete_eq|]. intros e ->%list_elem_of_singleton. cbn [sq_data accept_sqe].
    have -> : uint64 lfd = lfd by apply wrap_u_small; lia. apply key_of_flag; [constructor|lia]. }
  split; cbn [st_sq set_sq st_conns].
  - eapply chain_map_perm; [|exact Hacc]. rewrite split_chains_app //= app_assoc. by rewrite (Permutation_app_comm _ [_]).
  - by apply ends_app.
  - intros lfd' [= <-]. by rewrite lookup_insert_eq Hlt.
  - intros k e c Hk Hc. have [Hne _] := table_addr _ _ _ _ _ HT Hk. rewrite lookup_insert_ne ?lookup_delete_ne; [congruence..|]. by apply Hent.
  - intros k Hk Hno. rewrite lookup_insert_ne ?lookup_delete_ne; [congruence..|]. by apply Hnone.
  - split; [intros k Hk; by apply Hop, Hol|intros k Hk; by apply Hop, Hof].
Qed.

Context (Htcp : w_sendRecvMsg w = false) (Hsync : w_asyncHandler w = false).

(** A client was accepted. *)
Lemma step_accept K K1 l s T e fd raw :
  at_listener (P := P) lis lfd K K1 l s T e (AnsAccept fd raw) -> filled s (e, AnsAccept fd raw) ->
  w_cpuAffinity w = false -> w_tcpKeepAlive w <= 0 -> step_valid handler T (lfd, AnsAccept fd raw) -> 2 < free_slots s ->
  wp (shard_event handler w (cqe_of (e, AnsAccept fd raw))) (fun r s' => r = None /\ stepped (P := P) handler w lis K1 l T (lfd, AnsAccept fd raw) s s') s.
Proof.
  intros Hal Hraw Haff Hka Hv Hsq. have Hlater := at_listener_later (P := P) lis _ _ _ _ _ _ _ _ _ Hal.
  destruct Hal as [_ HT -> Hlis Hf [Hr Hfresh] Hop Hss (q & Hq & Hd)]. destruct (co_open _ _ _ _ _ Hq) as [Holfd Hoent].
  have Hne : fd <> lfd by intros ->; apply Hfresh, Holfd. have Hno : sv_conns T !! fd = None.
  { destruct (sv_conns T !! fd) eqn:Heq; [|done]. destruct Hfresh. by apply Hoent; eexists. }
  destruct (to_listener _ _ _ HT) as (al & cl & Hcm & Hcl & Hst & _). have Hk : cm_connections (st_mgr s) !! lfd = Some al by rewrite Hcm lookup_insert_eq.
  have Hfree : cm_connections (st_mgr s) !! fd = None by rewrite Hcm lookup_insert_ne ?lookup_fmap ?Hno // not_eq_sym.
  rewrite /cqe_of /accept_sqe /=. eapply wp_mono; [eapply (wp_shard_accept (P := P) handler w Htcp fd al cl); try done|].
  { split; [apply HT|done|done]. } { by apply HT. } { lia. } { rewrite (to_log _ _ _ HT). apply Hv. }
  intros r0 s' [-> Hacc]. split; [done|].
  destruct (accept_table s s' T fd HT Hno Hne Hr Hacc) as (b & c' & sqes & HT' & Hent' & Hrem & Hspec & Hc' & Hfd' & Hall & Hsq' & Hsz & Hw & Hcm').
  destruct (next_chain _ _ _ Hall) as (Hsplit & Hends & Hnn). have Hshort := next_chain_short _ _ _ Hall.
  eexists. split; [eapply (sv_accept handler lfd T fd raw b (c_remoteAddr c') (conn_abs c')); try done|].
  { intros k e Hke. by apply (Hent' k e). } { intros addr. rewrite -Hraw. apply Hrem. }
  have Heq : with_new T fd b c' = mkServer (sv_log T ++ [CbAccept b]) true (<[fd := new_entry b c']> (sv_conns T)) by rewrite /with_new Hlis.
  rewrite -/(new_entry b c') -Heq. split; [|split; [done|split; [done|eapply free_slots_app; [done|done|rewrite zlen_app; change (zlen [_]) with 1; lia]]]].
  split_and!; [exact HT'| |].
  - eexists. have -> : K1 = mkKernel (k_chains K1) (k_open K1) by destruct K1.
    eapply (new_chains _ K1 _ (set_sq (st_sq s ++ [accept_sqe lfd]) s)); try done.
    + destruct HT as [Hm' ? ? ? ? ? ?]; split; try done. by destruct Hm'; split.
    + eapply relisten_chains; try done. rewrite Hop. set_solver.
    + congruence.
    + by rewrite Hsq' /= -app_assoc.
    + rewrite Hop. set_solver.
  - eapply (filled_keep (P := P) s s' lfd al); try done; [apply HT|intros; by apply Hlater| |].
    + intros k Hkne [b' Hb']. rewrite Hcm' lookup_insert_ne //. by intros ->; congruence.
    + intros k b' Hkne Hb'. rewrite Hcm lookup_insert_ne // lookup_fmap in Hb'.
      destruct (sv_conns T !! k) as [e|] eqn:Hke; [|done]. injection Hb' as <-. by apply (Hent' k e).
Qed.

(** One completion is one step of the server. *)
Lemma table_step K K1 e ans l s T :
  w_cpuAffinity w = false -> w_tcpKeepAlive w <= 0 ->
  table_rel P lis K ((e, ans) :: l) s T -> kernel_step K (e, ans) K1 -> chain_steps (k_chains K1) l ->
  step_valid handler T (key_of (sq_data e), ans) -> 2 < free_slots s ->
  wp (shard_event handler w (cqe_of (e, ans))) (fun r s' => r = None /\ stepped (P := P) handler w lis K1 l T (key_of (sq_data e), ans) s s') s.
Proof.
  intros Haff Hka Hrel Hs Hss Hv Hsq. have Hfill : filled s (e, ans) by destruct Hrel as (_ & _ & [Hx _]%Forall_cons).
  destruct (table_head _ _ _ _ _ _ _ _ Hrel Hs Hss) as [[Hkey Hal]|(en & c & r & rs & Hah)].
  - injection Hkey as Hkey. rewrite -Hkey in Hv, Hal |- *. have Hans := al_answer _ _ _ _ _ _ _ _ _ Hal. have He := al_sqe _ _ _ _ _ _ _ _ _ Hal. rewrite He in Hans.
    destruct ans as [fd raw| | | | |errno]; try done; [by apply (step_accept K K1)|].
    apply wp_shard_failed; [exact Hans|]. split; [done|]. eexists. split; [by apply sv_deaf, Hal|]. split; [by eapply deaf_rel|]. split; [done|]. split; [done|lia].
  - by eapply step_head.
Qed.

End Listener.
