(* ===== verification/LoopSpec.v ===== *)
(** * LoopSpec: whole rounds and whole loops of a shard worker

    The event loop of [looper.go] with the functions a shard worker installs, run
    against any ring that keeps the contract of [RingContract].  In every round the
    kernel takes the queue, stores what it received, and completes any number of
    requests of any connections; the loop then does what the abstract server of
    [TableSpec] does on these answers in their order. *)

From S2P Require Import Prelude Errors SyncPool VirtualMem MagicRing RingRefinement RingPool ByteSlicePool.
From S2P Require Import KeyPool Flags Submitter Sockaddr SocketOps GoState Conn ConnSpec ConnManager Worker.
From S2P Require Import WorkerSpec Looper ConsumerWorker StreamSpec ShardWorker ShardSpec RingContract TableSpec.
Local Open Scope Z_scope.

Definition event_of (x : sqe * answer) : Z * answer := (key_of (sq_data x.1), x.2).

Definition answers_of (kr : kround) : list (sqe * answer) :=
  match kr with KAnswers _ l => l | KInterrupted _ _ => [] end.

(** The answers that come with data in the worker's memory. *)
Definition writing (x : sqe * answer) : Prop :=
  match x.2 with AnsAccept _ _ | AnsRecv _ _ _ => True | _ => False end.

#[export] Instance writing_dec x : Decision (writing x).
Proof. rewrite /writing. destruct (x.2); apply _. Defined.

(** Accepts and receives are not chained to other requests. *)
Definition lonely (q : gmap Z (list sqe)) : Prop :=
  forall fd ch e ans op, q !! fd = Some ch -> e ∈ ch -> answers op (sq_op e) ans -> writing (e, ans) -> ch = [e].

(** No connection gets data twice in one round. *)
Lemma writes_distinct chains l ext q :
  chain_map (chains ++ ext) q -> lonely q -> chain_steps chains l ->
  NoDup ((fun x => key_of (sq_data x.1)) <$> filter writing l).
Proof.
  intros Hq Hlone Hss. revert q Hq Hlone. induction Hss as [chains|chains e rest others ans op0 l Hp Ha Hss IH]; intros q Hq Hlone; [constructor|].
  have Hperm : chains ++ ext ≡ₚ (e :: rest) :: others ++ ext by rewrite Hp.
  destruct (chain_map_first _ _ _ _ (chain_map_perm _ _ _ Hperm Hq)) as [Hfd Hd]. set (fd := key_of (sq_data e)) in *.
  set (o := match rest with [] => None | _ => Some rest end).
  have Ho : chain_rest rest = option_list o by destruct rest. have Hq0 := proj2 Hq.
  have Hq1 : chain_map ((chain_rest rest ++ others) ++ ext) (set_chain fd o q).
  { rewrite Ho -app_assoc. apply chain_map_set; [done|]. intros ch y Hch Hy. apply (Hq0 fd (e :: rest)); [done|].
    destruct rest; [done|]. injection Hch as <-. by right. }
  have Hlone1 : lonely (set_chain fd o q).
  { intros k ch y a op Hk Hy Hans Hw. destruct (decide (k = fd)) as [->|Hne].
    - rewrite set_chain_eq in Hk. have := Hlone fd (e :: rest) y a op Hfd. destruct rest; [done|]. injection Hk as <-. intros H. by discriminate (H ltac:(by right) Hans Hw).
    - rewrite set_chain_ne // in Hk. by eapply Hlone. }
  specialize (IH _ Hq1 Hlone1). destruct (decide (writing (e, ans))) as [Hw|Hw]; [|by rewrite filter_cons_False].
  rewrite filter_cons_True //=. constructor; [|done]. fold fd. intros (y & Hy & [_ Hin]%list_elem_of_filter)%list_elem_of_fmap.
  have Hr : e :: rest = [e] by eapply Hlone; [done|by left|done|done]. injection Hr as ->.
  destruct (chain_steps_in _ _ _ Hss Hin) as (_ & ch & Hch & Hych). cbn [chain_rest app] in Hch.
  destruct (chain_map_lookup _ _ ch Hd) as [k Hk]; [by apply elem_of_app; left|].
  have Hky := proj2 Hd _ _ _ Hk Hych. apply lookup_delete_Some in Hk as [Hne _]. congruence.
Qed.

(** A receive or an accept in flight. *)
Lemma writing_sqe c A pend st ch e ans op :
  pend_ok A pend st -> Forall2 (sqe_for c) pend ch -> e ∈ ch -> answers op (sq_op e) ans -> writing (e, ans) ->
  ch = [e] /\ sqe_for c ARecv e /\ exists a data more, ans = AnsRecv a data more.
Proof.
  intros Hp Hall He Hans Hw. apply list_elem_of_lookup_1 in He as [i Hi]. destruct (Forall2_lookup_r _ _ _ _ _ Hall Hi) as (r & Hr & Hs).
  have Hrecv : r = ARecv /\ exists a data more, ans = AnsRecv a data more.
  { inversion Hs; subst; destruct ans; try done. split; [done|]. by eexists _, _, _. }
  destruct Hrecv as [-> Hex]. have Hone : pend = [ARecv].
  { inversion Hp; subst; [|by destruct i as [|[]]|done]. move: Hr. rewrite /next_reqs.
    destruct (0 <? zlen (a_out A)), (a_closed A), i as [|[|]]; by intros [=]. }
  subst pend. inversion Hall as [|? ? ? ? ? Hn]; subst. inversion Hn; subst. destruct i as [|]; [|done]. by injection Hi as <-.
Qed.

(** ** What the kernel stores *)

Section Stores.
Context {env : Env} {P : World -> Prop} `{!EnvLaws env P} (lis : option Z).

Lemma table_lonely K s T q : table_ok P lis s T -> chains_ok lis K s T q -> lonely q.
Proof.
  intros HT [_ _ Hlis Hent Hnone _] fd ch e ans op Hq He Hans Hw. destruct (decide (lis = Some fd)) as [Hlf|Hne].
  { rewrite (Hlis _ Hlf) in Hq. destruct (sv_listening T); [|done]. injection Hq as <-. by apply list_elem_of_singleton in He as ->. }
  destruct (sv_conns T !! fd) as [en|] eqn:Hen; [|by rewrite Hnone in Hq].
  destruct (to_entry _ _ _ HT _ _ Hen) as (c & Hc & Heo). have Hch := Hent _ _ _ Hen Hc. rewrite Hq in Hch.
  have Hp := eo_pend _ _ _ Heo. destruct (en_pend en) as [|r rs]; [done|]. destruct Hch as (ch' & [= <-] & Hall).
  by eapply writing_sqe.
Qed.

(** The receive of an answer in flight belongs to a connection with room for it. *)
Lemma answered_recv K s T q l e a data more :
  table_ok P lis s T -> chains_ok lis K s T q -> chain_steps (k_chains K) l -> (e, AnsRecv a data more) ∈ l ->
  exists en c inb, sv_conns T !! key_of (sq_data e) = Some en /\ st_conns s !! en_addr en = Some c /\
    entry_ok (key_of (sq_data e)) en c /\ c_inbound c = Some inb /\ zlen data <= RingBuffer_Available inb.
Proof.
  intros HT [Hmap _ Hlis Hent Hnone _] Hss Hx. destruct (chain_steps_in _ _ _ Hss Hx) as ((op & Hans) & ch & Hch & He).
  cbn [fst snd] in He, Hans. destruct (chain_map_lookup _ _ ch Hmap) as [fd Hq]; [by apply elem_of_app; left|].
  have -> : key_of (sq_data e) = fd by apply (proj2 Hmap _ _ _ Hq He). destruct (decide (lis = Some fd)) as [Hlf|Hne].
  { rewrite (Hlis _ Hlf) in Hq. destruct (sv_listening T); [|done]. injection Hq as <-. by apply list_elem_of_singleton in He as ->. }
  destruct (sv_conns T !! fd) as [en|] eqn:Hen; [|by rewrite Hnone in Hq].
  destruct (to_entry _ _ _ HT _ _ Hen) as (c & Hc & Heo). have Hcf := Hent _ _ _ Hen Hc. rewrite Hq in Hcf.
  have Hp := eo_pend _ _ _ Heo. destruct (en_pend en) as [|r rs]; [done|]. destruct Hcf as (ch' & [= <-] & Hall).
  destruct (writing_sqe _ _ _ _ _ _ _ _ Hp Hall He Hans) as (_ & Hs & _); [done|].
  inversion Hs as [inb Hi Hav| |]; subst e. exists en, c, inb. split_and!; try done. simpl in Hans.
  have : uint32 (RingBuffer_Available inb) <= RingBuffer_Available inb by apply Z.mod_le; rewrite /MinRead in Hav; lia. lia.
Qed.

(** The kernel stores the data of one answer. *)
Definition keys_distinct (l : list (sqe * answer)) : Prop := NoDup ((fun x => key_of (sq_data x.1)) <$> filter writing l).

Definition same_io (s s' : St) : Prop :=
  st_mgr s' = st_mgr s /\ st_sq s' = st_sq s /\ st_sq_size s' = st_sq_size s /\
  wv_shutdowning (st_worker s') = wv_shutdowning (st_worker s) /\
  wv_socketAddresses (st_worker s') = wv_socketAddresses (st_worker s) /\ wv_connQueue (st_worker s') = wv_connQueue (st_worker s).

Lemma store_recv K pre s T q en c inb e a data more Q :
  table_ok P lis s T -> chains_ok lis K s T q -> Forall (filled s) pre ->
  sv_conns T !! key_of (sq_data e) = Some en -> cm_connections (st_mgr s) !! key_of (sq_data e) = Some a ->
  st_conns s !! en_addr en = Some c -> entry_ok (key_of (sq_data e)) en c -> c_inbound c = Some inb -> zlen data <= RingBuffer_Available inb ->
  (forall x, x ∈ pre -> writing x -> key_of (sq_data x.1) <> key_of (sq_data e)) ->
  (forall s', table_rel P lis K (pre ++ [(e, AnsRecv a data more)]) s' T -> same_io s s' -> Q () s') ->
  wp (kernel_fill a data) Q s.
Proof.
  set (fd := key_of (sq_data e)). intros HT Hq Hf Hen Ha Hc Heo Hi Hlen Hpre HQ. have [Hlfd Hk] := table_addr _ _ _ _ _ HT Hen.
  rewrite Hk in Ha. injection Ha as <-. have [Hm _ _ _ _ _ _] := HT. destruct (mo_conn _ _ Hm _ _ Hk) as (c0 & Hc0 & Hok & Hkey).
  rewrite Hc in Hc0. injection Hc0 as <-. destruct Hok as (inb0 & outb & Hi0 & Ho & Hin & Hout). rewrite Hi in Hi0. injection Hi0 as <-.
  eapply (wp_kernel_fill); [done..|]. intros vm' inb' Hin' Hcont Hfill. set (c' := with_inbound (Some inb') c). set (s' := set_conns _ s).
  have Hoth b : b <> en_addr en -> st_conns s' !! b = st_conns s !! b by intros; rewrite /= lookup_insert_ne.
  have Hc' : st_conns s' !! en_addr en = Some c' by rewrite /= lookup_insert_eq.
  have Hm' : mgr_ok P s'.
  { eapply (mgr_ok_update s _ fd (en_addr en) c c'); try done; [by exists inb', outb|apply (mo_mem _ _ Hm)]. }
  have Heo' : entry_ok fd en c'.
  { destruct Heo. split; try done. by rewrite -eo_abs /conn_abs /= Hi Ho /= Hcont. }
  apply (HQ s'); [|done]. split_and!.
  - eapply (table_keep (P := P) lis s s' T T fd en); try done; [by rewrite (to_log _ _ _ HT)|]. rewrite Hen. split_and!; try done. by exists c'.
  - exists q. destruct Hq as [Hmap Hends Hlis Hent Hnone Hopen]. split; try done. intros k en1 c1 Hk1 Hc1.
    destruct (decide (k = fd)) as [->|Hne].
    + rewrite Hen in Hk1. injection Hk1 as <-. rewrite Hc' in Hc1. injection Hc1 as <-. have Hch := Hent _ _ _ Hen Hc.
      destruct (en_pend en) as [|r rs]; [done|]. destruct Hch as (ch & Hqch & Hall). exists ch. split; [done|].
      eapply Forall2_impl; [exact Hall|]. intros r0 e0. by eapply sqe_for_with_inbound.
    + apply Hent; [done|]. rewrite -(Hoth (en_addr en1)) //. intros Heq. apply Hne, (table_inj (P := P) s k fd (en_addr en)); [done| |done].
      rewrite -Heq. by apply (table_addr _ _ _ _ _ HT Hk1).
  - apply Forall_app. split; [|constructor; [|constructor]].
    + eapply (filled_keep (P := P) s s' fd (en_addr en)); try done.
      * intros x a' d' m' Hx Hx2. apply Hpre; [done|]. by rewrite /writing Hx2.
      * intros k b Hkne Hb. apply Hoth. intros ->. by apply Hkne, (table_inj (P := P) s k fd (en_addr en)).
    + split; [done|]. by exists c', inb'.
Qed.

Lemma store_client K pre s T e fd raw Q :
  table_rel P lis K pre s T -> (forall x, x ∈ pre -> writing x -> lis <> Some (key_of (sq_data x.1))) ->
  (forall x fd' raw', x ∈ pre -> x.2 = AnsAccept fd' raw' -> lis = Some (key_of (sq_data x.1))) ->
  (forall s', table_rel P lis K (pre ++ [(e, AnsAccept fd raw)]) s' T -> same_io s s' -> Q () s') ->
  wp (mod_vars (with_clientAddr raw)) Q s.
Proof.
  intros (HT & (q & Hq) & Hf) Hpre Hlis HQ. rewrite /mod_vars. wp_steps. apply HQ; [|done]. split_and!.
  - destruct HT as [Hm Hl Hr Hfree Hal Hent Hsv]. split; try done. by destruct Hm; split.
  - exists q. by destruct Hq; split.
  - apply Forall_app. split; [|by constructor]. apply Forall_forall. intros x Hx. have Hfx := proj1 (Forall_forall _ _) Hf x Hx.
    rewrite /filled in Hfx |- *. destruct (x.2) as [fd' raw'| | | | |] eqn:Hx2; try done.
    destruct (Hpre x Hx); [by rewrite /writing Hx2|]. by eapply Hlis.
Qed.

(** The kernel stores the data of the answers of a round. *)
Lemma accept_key K s T q l x fd raw :
  table_ok P lis s T -> chains_ok lis K s T q -> chain_steps (k_chains K) l -> x ∈ l -> x.2 = AnsAccept fd raw -> lis = Some (key_of (sq_data x.1)).
Proof.
  intros HT [Hmap _ Hlis Hent Hnone _] Hss Hx Hx2. destruct (chain_steps_in _ _ _ Hss Hx) as ((op & Hans) & ch & Hch & He).
  destruct (chain_map_lookup _ _ ch Hmap) as [k Hq]; [by apply elem_of_app; left|].
  have -> : key_of (sq_data x.1) = k by apply (proj2 Hmap _ _ _ Hq He). destruct (decide (lis = Some k)) as [Hlf|Hne]; [done|].
  destruct (sv_conns T !! k) as [en|] eqn:Hen; [|by rewrite Hnone in Hq].
  destruct (to_entry _ _ _ HT _ _ Hen) as (c & Hc & Heo). have Hcf := Hent _ _ _ Hen Hc. rewrite Hq in Hcf.
  have Hp := eo_pend _ _ _ Heo. destruct (en_pend en) as [|r rs]; [done|]. destruct Hcf as (ch' & [= <-] & Hall).
  destruct (writing_sqe _ _ _ _ _ _ _ _ Hp Hall He Hans) as (_ & _ & ? & ? & ? & Heq); [by rewrite /writing /= Hx2|]. congruence.
Qed.

Lemma distinct_keys pre x post y :
  keys_distinct (pre ++ x :: post) -> writing x -> y ∈ pre -> writing y -> key_of (sq_data y.1) <> key_of (sq_data x.1).
Proof.
  rewrite /keys_distinct filter_app fmap_app. intros (_ & Hd & _)%NoDup_app Hx Hy Hwy Heq.
  apply (Hd (key_of (sq_data y.1))).
  - apply list_elem_of_fmap. exists y. split; [done|]. by apply list_elem_of_filter.
  - apply list_elem_of_fmap. exists x. split; [done|]. apply list_elem_of_filter. split; [done|]. by left.
Qed.

Lemma stores_app l1 l2 s Q :
  wp (kernel_stores l1) (fun _ => wp (kernel_stores l2) Q) s -> wp (kernel_stores (l1 ++ l2)) Q s.
Proof.
  revert s. induction l1 as [|k l1 IH]; intros s; [done|]. cbn [app kernel_stores].
  intros H%wp_unbind. wp_step. eapply wp_mono; [exact H|]. intros [] s1 H1. by apply IH.
Qed.

Lemma stores_ok K pre post s T :
  table_rel P lis K pre s T -> chain_steps (k_chains K) (pre ++ post) -> keys_distinct (pre ++ post) -> Forall (owned s) post ->
  wp (kernel_stores (post ≫= writes_of)) (fun _ s' => table_rel P lis K (pre ++ post) s' T /\ same_io s s') s.
Proof.
  revert pre s. induction post as [|[e ans] post IH]; intros pre s Hrel Hss Hd Hown.
  { rewrite app_nil_r. by wp_steps. }
  apply Forall_cons in Hown as [Ho Hown]. have [HT [[q Hq] Hf]] := Hrel. change ((e, ans) :: post ≫= writes_of) with (writes_of (e, ans) ++ (post ≫= writes_of)).
  apply stores_app. have Hx : (e, ans) ∈ pre ++ (e, ans) :: post by apply elem_of_app; right; left.
  have Hnext s1 : table_rel P lis K (pre ++ [(e, ans)]) s1 T -> same_io s s1 ->
    wp (kernel_stores (post ≫= writes_of)) (fun _ s' => table_rel P lis K (pre ++ (e, ans) :: post) s' T /\ same_io s s') s1.
  { intros Hr1 (Hmgr & Hsq & Hsz & Hsd & Had & Hcq). rewrite cons_middle app_assoc in Hss, Hd |- *. eapply wp_mono; [apply (IH _ s1 Hr1 Hss Hd)|].
    - eapply Forall_impl; [exact Hown|]. intros y. by rewrite /owned Hmgr.
    - intros [] s2 (Hr2 & Hm2 & Hq2 & Hz2 & Hd2 & Ha2 & Hc2). split; [done|]. split_and!; congruence. }
  have Hsilent : ~ writing (e, ans) -> wp (mret ()) (fun _ => wp (kernel_stores (post ≫= writes_of))
      (fun _ s' => table_rel P lis K (pre ++ (e, ans) :: post) s' T /\ same_io s s')) s.
  { intros Hw. wp_steps. apply Hnext; [|done]. split_and!; [done|by exists q|]. apply Forall_app. split; [done|].
    constructor; [|constructor]. by destruct ans; try (destruct Hw; done). }
  destruct ans as [fd raw|a data more| |n| |errno]; cbn [writes_of snd kernel_stores kernel_store];
    try (by apply Hsilent; rewrite /writing /=; tauto).
  - have Hkey := accept_key _ _ _ _ _ _ _ _ HT Hq Hss Hx eq_refl. cbn [fst] in Hkey. wp_step. eapply store_client; [exact Hrel| | |].
    + intros y Hy Hwy. rewrite Hkey. intros [= Heq]. by apply (distinct_keys _ _ _ _ Hd) in Hwy.
    + intros y fd' raw' Hy. eapply accept_key; [done..|]. by apply elem_of_app; left.
    + intros s1 Hr1 Hio. wp_steps. by apply Hnext.
  - destruct (answered_recv _ _ _ _ _ _ _ _ _ HT Hq Hss Hx) as (en & c & inb & Hen & Hc & Heo & Hi & Hlen).
    wp_step. eapply (store_recv K pre s T q en c inb e); try done.
    intros y Hy Hwy. by apply (distinct_keys _ _ _ _ Hd).
Qed.

(** The queue is submitted. *)
Lemma rel_submit K s T : table_rel P lis K [] s T -> table_rel P lis (submitted K (st_sq s)) [] (set_sq [] s) T.
Proof.
  intros (HT & (q & [Hmap Hends Hlis Hent Hnone Hopen]) & _). split_and!; [|exists q; split; try done|constructor].
  - destruct HT as [Hm Hl Hr Hfree Hal Hent' Hsv]. split; try done. by destruct Hm; split.
  - by rewrite /= app_nil_r.
Qed.

End Stores.

(** ** A round *)

Section Rounds.
Context {env : Env} {P : World -> Prop} `{!EnvLaws env P} (handler : EventHandler) (w : workerConf).
Notation lfd := (w_fd w).
Notation lis := (Some lfd).

Context (Htcp : w_sendRecvMsg w = false) (Hsync : w_asyncHandler w = false).
Context (Haff : w_cpuAffinity w = false) (Hka : w_tcpKeepAlive w <= 0).

(** An open descriptor without a connection: nothing will close it. *)
Definition leaked (K : kernel) (T : server) (fd : Z) : Prop := fd ∈ k_open K /\ fd <> lfd /\ sv_conns T !! fd = None.

(** What a list of answers does to the descriptors and to the accept request. *)
Definition ledger (K K' : kernel) (T T' : server) (l : list (Z * answer)) : Prop :=
  (forall fd, leaked K T fd \/ (fd, AnsEof) ∈ l -> leaked K' T' fd) /\
  (sv_listening T = false \/ (exists errno, (lfd, AnsError errno) ∈ l) -> sv_listening T' = false).

Lemma ledger_nil K K' T : k_open K' = k_open K -> ledger K K' T T [].
Proof.
  intros Ho. split; [rewrite /leaked Ho; by intros fd [Hl|?%elem_of_nil]|]. by intros [Hl|[errno ?%elem_of_nil]].
Qed.

Lemma ledger_app K K1 K2 T T1 T2 l1 l2 : ledger K K1 T T1 l1 -> ledger K1 K2 T1 T2 l2 -> ledger K K2 T T2 (l1 ++ l2).
Proof.
  intros [Hf1 Hl1] [Hf2 Hl2]. split.
  - intros fd [Hl|[Hl|Hl]%elem_of_app]; apply Hf2; [left; apply Hf1; by left|left; apply Hf1; by right|by right].
  - intros [Hl|(errno & [Hl|Hl]%elem_of_app)]; apply Hl2;
      [left; apply Hl1; by left|left; apply Hl1; right; by exists errno|right; by exists errno].
Qed.

Lemma ledger_step K K1 e ans T T1 l s :
  table_rel P lis K ((e, ans) :: l) s T -> kernel_step K (e, ans) K1 -> chain_steps (k_chains K1) l ->
  serve handler lfd T (event_of (e, ans)) T1 -> ledger K K1 T T1 [event_of (e, ans)].
Proof.
  intros Hrel Hs Hss Hsv. have HT := proj1 Hrel. inversion Hs as [? ? rest chains ? Hp Hans]; subst.
  have Hclose : ans = AnsClosed -> sq_op e = SqClose (key_of (sq_data e)).
  { intros ->. destruct (table_head _ _ _ _ _ _ _ _ Hrel Hs Hss) as [[_ Hal]|(en & c & r & rs & Hah)].
    - have He := al_sqe _ _ _ _ _ _ _ _ _ Hal. by rewrite He in Hans.
    - have Hsqe := ah_sqe _ _ _ _ _ _ _ _ _ _ _ _ _ Hah. have Hfd := eo_fd _ _ _ (ah_ok _ _ _ _ _ _ _ _ _ _ _ _ _ Hah).
      inversion Hsqe; subst e; try done. by rewrite -Hfd. }
  have Hopen : forall fd en, sv_conns T !! fd = Some en -> fd ∈ k_open K.
  { intros fd en Hen. destruct Hrel as (_ & (q & Hq) & _). apply (co_open _ _ _ _ _ Hq). by eexists. }
  rewrite /event_of /= in Hsv |- *. split.
  - intros fd [(Ho & Hne & Hno)|Heq%list_elem_of_singleton]; rewrite /leaked /=.
    + inversion Hsv; subst; cbn [opens sv_conns called gone]; split_and!; try done; try set_solver.
      all: try (rewrite lookup_insert_ne //; congruence). all: try (by destruct (sq_op e)). all: try (by apply lookup_delete_None; auto).
      * rewrite lookup_insert_ne //. intros ->. by destruct (sq_op e); try done; destruct Hans.
      * rewrite Hclose //. cbn [opens]. apply elem_of_difference. split; [done|]. intros ->%elem_of_singleton. congruence.
    + injection Heq as -> <-. inversion Hsv as [| | |fd0 en Hen Hpend| | | | |]; subst. split_and!; [by eapply Hopen| |by rewrite /= lookup_delete_eq].
      intros Heq. destruct (table_addr _ _ _ _ _ HT Hen). congruence.
  - intros [Hl|(errno & Heq%list_elem_of_singleton)]; [inversion Hsv; subst; simpl; congruence|]. injection Heq as Hk <-.
    inversion Hsv as [| | | | | | |fd0 en r rs errno' Hen Hpend|]; subst; [|done]. destruct (table_addr _ _ _ _ _ HT Hen). congruence.
Qed.

(** An interrupted call is not an error of the loop. *)
Lemma submit_interrupted sub err e sub' : interrupted err = true -> submit sub (Some err) = Ret (e, sub') -> e = Some ErrSkippable.
Proof.
  rewrite /interrupted /submit. intros ->. destruct (waitForIndex sub =? 0); [by intros [= <- <-]|].
  destruct (go_index waitForArray _); [|done]. by intros [= <- <-].
Qed.

(** The completions of a round. *)
Lemma process_ok K K' l s T i :
  table_rel P lis K l s T -> kernel_steps K l K' -> trace_valid handler lfd T (event_of <$> l) -> 3 * zlen l <= free_slots s ->
  wp (process_cqes (shard_event handler w) (cqe_of <$> l) i) (fun r s' => r.2 = None /\ st_sq_size s' = st_sq_size s /\ st_worker s' = st_worker s /\
    free_slots s <= free_slots s' + 3 * zlen l /\
    exists T', serves handler lfd T (event_of <$> l) T' /\ table_rel P lis K' [] s' T' /\ ledger K K' T T' (event_of <$> l)) s.
Proof.
  revert K s T i. induction l as [|[e ans] l IH]; intros K s T i Hrel Hss Hv Hsq.
  { inversion Hss; subst. wp_steps. split_and!; try done; [rewrite /zlen /=; lia|]. exists T. split_and!; [apply svs_nil|done|by apply ledger_nil]. }
  inversion Hss as [|? ? K1 ? ? Hs Hss1]; subst. destruct Hv as [Hv Hv1].
  have Hz : zlen ((e, ans) :: l) = zlen l + 1 by rewrite /zlen /=; lia. rewrite Hz in Hsq. have Hz0 := zlen_nonneg l.
  cbn [fmap list_fmap process_cqes]. wp_step.
  eapply wp_mono; [apply (table_step (P := P) handler w Htcp Hsync K K1 e ans l s T); try done; [by eapply kernel_chain_steps|lia]|].
  intros r s1 [-> (T1 & Hsv & Hrel1 & Hw & Hsz & Hfree)]. cbn beta iota.
  eapply wp_mono; [apply (IH K1 s1 T1 _ Hrel1 Hss1); [by apply Hv1|lia]|].
  intros r s2 (Hr & Hsz2 & Hw2 & Hfree2 & T2 & Hsvs & Hrel2 & Hled). split_and!; [done|congruence|congruence|lia|]. exists T2. split_and!; [by econstructor|done|].
  eapply (ledger_app _ _ _ _ _ _ [_]); [|exact Hled]. eapply ledger_step; [done|done|by eapply kernel_chain_steps|done].
Qed.

Section LoopRounds.
Context (fuel : nat) (maxCQ : Z).
Notation looper := (shard_looper w fuel maxCQ).

(** Nothing stops the loop while it serves. *)
Lemma shutdown_handler_serving s : wv_shutdowning (st_worker s) = false -> shutdownHandler looper s = Ret (Some true, s).
Proof.
  intros Hsd. cbn [shutdownHandler shard_looper]. rewrite /shard_shutdownHandler /needToShutdown /mbind /StateM_bind /get_state /=. by rewrite Hsd.
Qed.

Lemma finish_round_serving s T sub Q : table_ok P lis s T -> Q (LoopContinue sub) s -> wp (finish_round looper sub) Q s.
Proof.
  intros HT HQ. destruct (to_serving _ _ _ HT) as [[Hacc _] Hcl]. specialize (Hacc eq_refl).
  rewrite /finish_round. cbn [loopFinisher loopFinishCondition shard_looper]. rewrite /handleAsyncWritesIfEnabled Hsync. wp_steps.
  rewrite /shard_loopFinishCondition /shard_finished /allClosed. wp_steps. rewrite Hcl Hacc. cbn [andb negb orb].
  have -> : connectionProtocol w && false && (shard_activeConnections (st_mgr s) =? 0) = false by rewrite andb_false_r. by wp_steps.
Qed.

(** What a round asks of the configuration: the completion batch and the queue are
    large enough for its answers. *)
Definition round_fits (size : Z) (kr : kround) : Prop := zlen (answers_of kr) <= maxCQ /\ 3 * zlen (answers_of kr) <= size.

Definition stops (kr : kround) : bool := match kr with KAnswers stop _ => stop | KInterrupted _ _ => false end.

(** The flag of the shutdown. *)
Lemma rel_stop K l s T (stop : bool) : table_rel P lis K l s T ->
  wp (when stop shutdown_signal) (fun _ s' => table_rel P lis K l s' T /\ st_sq s' = st_sq s /\ st_sq_size s' = st_sq_size s /\
    wv_shutdowning (st_worker s') = (stop || wv_shutdowning (st_worker s))) s.
Proof.
  intros Hrel. destruct stop; [|by wp_steps]. rewrite /shutdown_signal /mod_vars. wp_steps. split; [|done].
  destruct Hrel as (HT & (q & Hq) & Hf). split_and!; [|exists q; by destruct Hq; split|].
  - destruct HT as [Hm Hl Hr Hfree Hal Hent Hsv]. split; try done. by destruct Hm; split.
  - eapply Forall_impl; [exact Hf|]. intros x. rewrite /filled. by destruct (x.2).
Qed.

Lemma round_ok K K' kr s T sub :
  table_rel P lis K [] s T -> wv_shutdowning (st_worker s) = false -> round_allowed K s kr K' -> submitter_ok sub -> round_fits (st_sq_size s) kr ->
  trace_valid handler lfd T (event_of <$> answers_of kr) ->
  wp (loop_round looper (shard_event handler w) sub (round_of kr)) (fun r s' => st_sq_size s' = st_sq_size s /\
    wv_shutdowning (st_worker s') = stops kr /\ (stops kr = true -> st_sq_size s <= free_slots s' + 3 * zlen (answers_of kr)) /\
    exists sub' T', r = LoopContinue sub' /\ submitter_ok sub' /\ serves handler lfd T (event_of <$> answers_of kr) T' /\
      table_rel P lis K' [] s' T' /\ ledger K K' T T' (event_of <$> answers_of kr)) s.
Proof.
  intros Hrel Hsd Hall Hsub [Hmax Hsize] Hv. have HT := proj1 Hrel. rewrite /loop_round. wp_step.
  eapply wp_of_run; [by apply shutdown_handler_serving|]. cbn beta iota.
  wp_step. have Hrel1 := rel_submit _ _ _ _ Hrel. destruct Hall as [stop l K' Hss Hown|err Herr|err Herr];
    cbn [round_of rr_err rr_left rr_mem rr_cqes rr_stop stops answers_of fmap list_fmap] in *.
  - eapply wp_lift; [done|]. cbn beta iota. wp_steps. rewrite /in_worker /has_worker_self. wp_steps.
    destruct Hrel1 as (HT1 & (q & Hq1) & Hf1) eqn:Hr1; clear Hr1.
    have Hd : keys_distinct l by eapply (writes_distinct (k_chains (submitted K (st_sq s))) l); [apply Hq1|by eapply table_lonely|by eapply kernel_chain_steps].
    eapply wp_mono; [apply (stores_ok _ _ [] l _ T Hrel1 (kernel_chain_steps _ _ _ Hss) Hd Hown)|]. intros [] s1 (Hrel2 & Hmgr & Hsq & Hsz & Hsd1 & _). cbn beta.
    wp_step. eapply wp_mono; [apply (rel_stop _ _ _ _ stop Hrel2)|]. intros [] s1' (Hrel3 & Hsq3 & Hsz3 & Hsd3). cbn beta.
    have -> : take (Z.to_nat maxCQ) (cqe_of <$> l) = cqe_of <$> l by apply take_ge; rewrite length_fmap; rewrite /zlen in Hmax; lia.
    wp_step. eapply wp_mono; [apply (process_ok _ K' l s1' T 0 Hrel3 Hss Hv)|].
    { rewrite /free_slots Hsz3 Hsq3 Hsz Hsq /= /zlen /= in Hsize |- *. rewrite /zlen in Hsize. lia. }
    intros [n r] s2 (Hr & Hsz2 & Hw2 & Hfree2 & T' & Hsvs & Hrel' & Hled). cbn [snd] in Hr. subst r. cbn beta iota. destruct (advance_ok sub n Hsub) as (sub' & Hadv & Hsub' & _).
    wp_step. eapply wp_lift; [exact Hadv|]. cbn beta iota. eapply finish_round_serving; [apply Hrel'|]. split; [by rewrite Hsz2 Hsz3 Hsz|].
    split; [by rewrite Hw2 Hsd3 Hsd1 /= Hsd orb_false_r|]. split; [|by exists sub', T'].
    intros _. rewrite {1}/free_slots Hsz3 Hsq3 Hsz Hsq in Hfree2. change (zlen (st_sq (set_sq [] s))) with 0 in Hfree2. simpl in Hfree2. lia.
  - destruct (submit_ok sub (Some err) Hsub) as (e & sub' & Hs & Hsub' & _). eapply wp_lift; [exact Hs|].
    have -> : e = Some ErrSkippable by eapply submit_interrupted. cbn beta iota. wp_steps. rewrite /in_worker /has_worker_self. wp_steps. cbn [kernel_stores when errors_Is]. wp_steps.
    eapply finish_round_serving; [apply Hrel1|]. do 3 (split; [done|]). exists sub', T. split_and!; [done|done|apply svs_nil|done|by apply ledger_nil].
  - destruct (submit_ok sub (Some err) Hsub) as (e & sub' & Hs & Hsub' & _). eapply wp_lift; [exact Hs|].
    have -> : e = Some ErrSkippable by eapply submit_interrupted. cbn beta iota. wp_steps. rewrite /in_worker /has_worker_self. wp_steps. cbn [kernel_stores when errors_Is]. wp_steps.
    have -> : set_sq (st_sq s) s = s by destruct s.
    eapply finish_round_serving; [exact HT|]. do 3 (split; [done|]). exists sub', T. split_and!; [done|done|apply svs_nil|done|by apply ledger_nil].
Qed.

(** ** The loop *)

(** In every round the ring keeps its contract, given the entries the loop has queued
    when it waits; [K2] is the kernel at the end. *)
Inductive allowed : kernel -> batchSubmitter -> St -> list kround -> kernel -> Prop :=
| al_nil K sub s : allowed K sub s [] K
| al_cons K sub s kr krs K1 K2 :
    (forall s0, shutdownHandler looper s = Ret (Some true, s0) -> round_allowed K s0 kr K1) ->
    (forall sub' s', loop_round looper (shard_event handler w) sub (round_of kr) s = Ret (LoopContinue sub', s') ->
       allowed K1 sub' s' krs K2) ->
    allowed K sub s (kr :: krs) K2.

Lemma allowed_nil K sub s K' : allowed K sub s [] K' -> K = K'.
Proof. intros H. by inversion H. Qed.

Definition events (krs : list kround) : list (Z * answer) := krs ≫= fun kr => event_of <$> answers_of kr.

Lemma serves_app T l1 T1 l2 T2 : serves handler lfd T l1 T1 -> serves handler lfd T1 l2 T2 -> serves handler lfd T (l1 ++ l2) T2.
Proof. induction 1 as [|T x T0 l T1 Hs Hss IH]; [done|]. intros H2. simpl. econstructor; [exact Hs|]. by apply IH. Qed.

Lemma trace_valid_app T l1 l2 :
  trace_valid handler lfd T (l1 ++ l2) ->
  trace_valid handler lfd T l1 /\ forall T1, serves handler lfd T l1 T1 -> trace_valid handler lfd T1 l2.
Proof.
  revert T. induction l1 as [|x l1 IH]; intros T Hv; [split; [done|]; intros T1 Hs; by inversion Hs; subst|].
  destruct Hv as [Hx Hv]. split.
  - split; [done|]. intros T' Hs. by apply IH, Hv.
  - intros T1 Hs. inversion Hs as [|? ? T0 ? ? Hx0 Hs0]; subst. by apply (proj2 (IH T0 (Hv T0 Hx0))).
Qed.

(** The loop over rounds without a shutdown, followed by any other rounds. *)
Lemma loop_ok K K2 krs rest s T sub Q :
  table_rel P lis K [] s T -> wv_shutdowning (st_worker s) = false -> submitter_ok sub -> allowed K sub s (krs ++ rest) K2 ->
  Forall (round_fits (st_sq_size s)) krs -> Forall (fun kr => stops kr = false) krs -> trace_valid handler lfd T (events krs) ->
  (forall K' sub' s' T', serves handler lfd T (events krs) T' -> table_rel P lis K' [] s' T' -> ledger K K' T T' (events krs) ->
     wv_shutdowning (st_worker s') = false -> st_sq_size s' = st_sq_size s -> submitter_ok sub' -> allowed K' sub' s' rest K2 ->
     wp (innerLoop looper (shard_event handler w) sub' (round_of <$> rest)) Q s') ->
  wp (innerLoop looper (shard_event handler w) sub (round_of <$> (krs ++ rest))) Q s.
Proof.
  revert K s T sub. induction krs as [|kr krs IH]; intros K s T sub Hrel Hsd Hsub Hall Hfits Hns Hv HQ.
  { apply (HQ K sub s T); try done; [apply svs_nil|by apply ledger_nil]. }
  apply Forall_cons in Hfits as [Hfit Hfits]. apply Forall_cons in Hns as [Hst Hns]. destruct (trace_valid_app _ _ _ Hv) as [Hv1 Hv2].
  inversion Hall as [|? ? ? ? ? K1 ? Hra Hnext]; subst. specialize (Hra _ (shutdown_handler_serving s Hsd)). cbn [app fmap list_fmap innerLoop].
  destruct (wp_run _ _ _ (round_ok _ _ _ _ _ _ Hrel Hsd Hra Hsub Hfit Hv1)) as (r & s1 & Hrun & Hsz & Hsd1 & _ & sub1 & T1 & -> & Hsub1 & Hsv1 & Hrel1 & Hled1).
  wp_step. eapply wp_of_run; [exact Hrun|]. cbn beta iota. rewrite Hst in Hsd1.
  apply (IH K1 s1 T1); try done; [by apply Hnext|by rewrite Hsz|by apply Hv2|].
  intros K' sub' s' T' Hsv' Hrel' Hled' Hsd' Hsz'. apply (HQ K' sub' s' T'); try done; [by eapply serves_app|by eapply ledger_app|congruence].
Qed.

End LoopRounds.

End Rounds.
