(* ===== verification/ShutdownSpec.v ===== *)
(** * ShutdownSpec: how the loop of a shard worker ends

    When the shutdown is asked for, the next round of the loop closes every connection;
    from then on the loop runs until the kernel has closed them all, and returns.  The
    abstract side is a table of the connections that are still open; sends that were in
    flight complete, received bytes are ignored, requests fail.  The contract of the
    ring is that of [RingContract]. *)

From S2P Require Import Prelude Errors SyncPool VirtualMem MagicRing RingRefinement RingPool ByteSlicePool.
From S2P Require Import KeyPool Flags Submitter Sockaddr SocketOps GoState Conn ConnSpec ConnManager Worker.
From S2P Require Import WorkerSpec Looper ConsumerWorker StreamSpec ShardWorker ShardSpec RingContract TableSpec LoopSpec.
Local Open Scope Z_scope.

(** ** The abstract side *)

(** The connections that are being closed: address and data by descriptor. *)
Record closer : Type := mkCloser { cr_log : list callback; cr_conns : gmap Z (nat * aconn) }.

(** Answers without effect on a connection that is being closed. *)
Definition ignored (ans : answer) : bool :=
  match ans with AnsRecv _ _ _ | AnsEof | AnsError _ => true | _ => false end.

Section Steps.
Context (handler : EventHandler).

Inductive close_serve (C : closer) : Z * answer -> closer -> Prop :=
| cs_closed fd a A :
    cr_conns C !! fd = Some (a, A) ->
    close_serve C (fd, AnsClosed) (mkCloser (cr_log C ++ [CbClose a None]) (delete fd (cr_conns C)))
| cs_sent fd a A n A' :
    cr_conns C !! fd = Some (a, A) -> 0 <= n <= zlen (a_out A) ->
    prog_spec tcp (sent_abs A n) (handler (cr_log C) (CbWrite a n)) A' ->
    close_serve C (fd, AnsSent n) (mkCloser (cr_log C ++ [CbWrite a n]) (<[fd := (a, A')]> (cr_conns C)))
| cs_ignored fd ans : ignored ans = true -> close_serve C (fd, ans) C.

Inductive close_serves : closer -> list (Z * answer) -> closer -> Prop :=
| css_nil C : close_serves C [] C
| css_cons C x C1 l C2 : close_serve C x C1 -> close_serves C1 l C2 -> close_serves C (x :: l) C2.

(** The handler keeps to the bounds; the requests of a descriptor that was closed do
    nothing but fail. *)
Definition close_valid (C : closer) (x : Z * answer) : Prop :=
  match x.2 with
  | AnsRecv _ _ _ | AnsEof => is_Some (cr_conns C !! x.1)
  | AnsSent n => exists a A, cr_conns C !! x.1 = Some (a, A) /\ prog_valid tcp (sent_abs A n) (handler (cr_log C) (CbWrite a n))
  | AnsClosed => forall a A err, cr_conns C !! x.1 = Some (a, A) ->
      prog_valid tcp (mkA (a_in A) (a_out A) true (a_ctx A)) (handler (cr_log C) (CbClose a err))
  | AnsAccept _ _ | AnsError _ => True
  end.

Fixpoint close_trace_valid (C : closer) (l : list (Z * answer)) : Prop :=
  match l with [] => True | x :: l => close_valid C x /\ forall C', close_serve C x C' -> close_trace_valid C' l end.

Lemma close_serves_app C l1 C1 l2 C2 : close_serves C l1 C1 -> close_serves C1 l2 C2 -> close_serves C (l1 ++ l2) C2.
Proof. induction 1 as [|C x C0 l C1 Hs Hss IH]; [done|]. intros H2. simpl. econstructor; [exact Hs|]. by apply IH. Qed.

Lemma close_trace_valid_app C l1 l2 :
  close_trace_valid C (l1 ++ l2) -> close_trace_valid C l1 /\ forall C1, close_serves C l1 C1 -> close_trace_valid C1 l2.
Proof.
  revert C. induction l1 as [|x l1 IH]; intros C Hv; [split; [done|]; intros C1 Hs; by inversion Hs; subst|].
  destruct Hv as [Hx Hv]. split.
  - split; [done|]. intros C' Hs. by apply IH, Hv.
  - intros C1 Hs. inversion Hs as [|? ? C0 ? ? Hx0 Hs0]; subst. by apply (proj2 (IH C0 (Hv C0 Hx0))).
Qed.

Definition is_close (cb : callback) : bool := match cb with CbClose _ _ => true | _ => false end.

(** The ends told to the handler are those of the connections that are gone. *)
Lemma close_serves_log C l C' : close_serves C l C' ->
  exists cbs, cr_log C' = cr_log C ++ cbs /\
    (filter is_close cbs) ++ ((fun x => CbClose x.1 None) <$> (map_to_list (cr_conns C')).*2) ≡ₚ
    (fun x => CbClose x.1 None) <$> (map_to_list (cr_conns C)).*2.
Proof.
  induction 1 as [C|C x C1 l C2 Hs Hss (cbs & Hl & Hp)]; [exists []; by rewrite app_nil_r|].
  inversion Hs as [fd a A Hfd|fd a A n A' Hfd Hn Hspec|fd ans Hig]; subst; cbn [cr_log cr_conns] in *.
  - exists (CbClose a None :: cbs). split; [by rewrite Hl -app_assoc|]. rewrite filter_cons_True //= Hp.
    by rewrite -(map_to_list_delete (cr_conns C) fd (a, A)).
  - exists (CbWrite a n :: cbs). split; [by rewrite Hl -app_assoc|]. rewrite filter_cons_False; [by intros []|]. rewrite Hp.
    rewrite -(map_to_list_delete (cr_conns C) fd (a, A)) // -insert_delete_eq map_to_list_insert ?lookup_delete_eq //.
  - by exists cbs.
Qed.

Lemma close_serves_dom C l C' : close_serves C l C' -> dom (cr_conns C') ⊆ dom (cr_conns C).
Proof.
  induction 1 as [|C x C1 l C2 Hs Hss IH]; [done|]. etransitivity; [exact IH|].
  inversion Hs as [fd a A Hfd|fd a A n A' Hfd Hn Hspec|]; subst; cbn [cr_conns]; [set_solver| |done].
  rewrite dom_insert_L. apply elem_of_dom_2 in Hfd. set_solver.
Qed.

End Steps.

(** ** Entries in flight *)

Definition nonclose (e : sqe) : bool := match sq_op e with SqClose _ => false | _ => true end.

Definition entry_key (e : sqe) : Z := key_of (sq_data e).

Lemma concat_split l : concat (split_chains l) = l.
Proof.
  induction l as [|e l IH]; [done|]. cbn [split_chains]. destruct (sq_link e).
  - rewrite -{2}IH. by destruct (split_chains l).
  - by rewrite /= IH.
Qed.

(** The step takes one entry away. *)
Lemma kernel_step_entries K e ans K1 :
  kernel_step K (e, ans) K1 ->
  concat (k_chains K) ≡ₚ e :: concat (k_chains K1) /\ answers (k_open K) (sq_op e) ans /\ k_open K1 = opens (k_open K) (sq_op e) ans.
Proof.
  intros Hs. inversion Hs as [? ? rest chains ? Hp Ha]; subst. cbn [k_chains k_open]. split; [|done].
  rewrite Hp concat_app. simpl. f_equiv. f_equiv. by destruct rest; rewrite /= ?app_nil_r.
Qed.

(** A list of at most one element for each element of another. *)
Lemma bind_sublist {A B} (f : A -> list B) (g : A -> B) l : Forall (fun x => f x = [] \/ f x = [g x]) l -> (l ≫= f) `sublist_of` (g <$> l).
Proof.
  induction 1 as [|x l Hx _ IH]; [done|]. rewrite bind_cons fmap_cons. destruct Hx as [->| ->].
  - by apply sublist_cons.
  - by apply sublist_skip.
Qed.

(** A set of descriptors has at most 2^31 elements. *)
Lemma fd_set_size (D : gset Z) n : 0 <= n -> (forall k, k ∈ D -> 0 <= k < n) -> Z.of_nat (size D) <= n.
Proof.
  intros Hn HD. have Hsub : D ⊆ list_to_set (seqZ 0 n).
  { intros k Hk. apply elem_of_list_to_set, elem_of_seqZ. have := HD k Hk. lia. }
  apply subseteq_size in Hsub. rewrite size_list_to_set in Hsub; [apply NoDup_seqZ|]. rewrite length_seqZ in Hsub. lia.
Qed.

Lemma int32_not_one n : 1 <= n <= 2 ^ 31 -> int32 (n + 1) <> 1.
Proof.
  intros Hn. rewrite /wrap_s. change (2 ^ (32 - 1)) with 2147483648. change (2 ^ 32) with 4294967296. change (2 ^ 31) with 2147483648 in Hn.
  have := Z.div_mod (n + 1 + 2147483648) 4294967296. have := Z.mod_pos_bound (n + 1 + 2147483648) 4294967296. lia.
Qed.

Section Shutdown.
Context {env : Env} {P : World -> Prop} `{!EnvLaws env P} (handler : EventHandler) (w : workerConf).
Context (Htcp : w_sendRecvMsg w = false) (Hsync : w_asyncHandler w = false).
Notation lfd := (w_fd w).

(** An entry in flight or in the queue: a close of a connection that is left or was
    closed, or a request that its connection still knows. *)
Definition entry_known (K : kernel) (s : St) (C : closer) (e : sqe) : Prop :=
  (exists k, e = close_entry k /\ 0 <= k < 2 ^ 31 /\ (is_Some (cr_conns C !! k) \/ k ∉ k_open K)) \/
  (nonclose e = true /\ (entry_key e = lfd -> e = accept_sqe lfd) /\
   forall a A c, cr_conns C !! entry_key e = Some (a, A) -> st_conns s !! a = Some c -> exists r, sqe_for c r e).

(** The worker in state [s] with the kernel [K] closes the connections of [C]. *)
Record closing_rel (K : kernel) (s : St) (C : closer) : Prop := {
  cl_mgr : mgr_ok P s;
  cl_closing : cm_closing (st_mgr s) = true;
  cl_vars : wv_accepting (st_worker s) = false /\ wv_shutdowning (st_worker s) = true /\ wv_inProgress (st_worker s) = true;
  cl_log : st_log s = cr_log C;
  cl_left : cm_releaseFdSet (st_mgr s) = dom (cr_conns C);
  cl_free : cr_conns C !! lfd = None;
  cl_table : exists al, cm_connections (st_mgr s) = <[lfd := al]> (fst <$> cr_conns C);
  cl_conn fd a A : cr_conns C !! fd = Some (a, A) -> 0 <= fd < 2 ^ 31 /\ fd ∈ k_open K /\
    exists c, st_conns s !! a = Some c /\ c_fd c = fd /\ c_state c = connClose /\ c_network c = tcp /\ conn_abs c = A;
  cl_known e : e ∈ concat (k_chains K) ++ st_sq s -> entry_known K s C e;
  cl_once : NoDup (entry_key <$> filter nonclose (concat (k_chains K) ++ st_sq s))
}.

Lemma closing_addr K s C fd a A :
  closing_rel K s C -> cr_conns C !! fd = Some (a, A) -> fd <> lfd /\ cm_connections (st_mgr s) !! fd = Some a.
Proof.
  intros Hcl HC. have Hne : fd <> lfd by intros ->; rewrite (cl_free _ _ _ Hcl) in HC. split; [done|].
  destruct (cl_table _ _ _ Hcl) as (al & ->). by rewrite lookup_insert_ne // lookup_fmap HC.
Qed.

Lemma closing_stream K s C fd a A :
  closing_rel K s C -> cr_conns C !! fd = Some (a, A) ->
  exists c, stream_conn (P := P) fd a c s /\ c_state c = connClose /\ c_network c = tcp /\ conn_abs c = A.
Proof.
  intros Hcl HC. destruct (cl_conn _ _ _ Hcl _ _ _ HC) as (Hr & _ & c & Hc & Hfd & Hst & Hnet & Habs). exists c. split; [|done].
  split; [|done|done]. split; [apply Hcl|by eapply closing_addr|done].
Qed.

Lemma closing_inj K s C k1 k2 a A1 A2 :
  closing_rel K s C -> cr_conns C !! k1 = Some (a, A1) -> cr_conns C !! k2 = Some (a, A2) -> k1 = k2.
Proof. intros Hcl H1 H2. eapply (table_inj (P := P) s); [apply Hcl|by eapply closing_addr|by eapply closing_addr]. Qed.

(** An entry completes without effect on the worker. *)
Lemma closing_skip K K1 e s C :
  closing_rel K s C -> concat (k_chains K) ≡ₚ e :: concat (k_chains K1) -> k_open K1 = k_open K -> closing_rel K1 s C.
Proof.
  intros [Hm Hc0 Hv Hl Hleft Hfree Htab Hconn Hkn Honce] Hp Ho. split; rewrite ?Ho //.
  - intros x Hx. have Hx' : x ∈ concat (k_chains K) ++ st_sq s by rewrite Hp; right.
    destruct (Hkn _ Hx') as [(k & Hk & Hr & Hor)|Hk]; [left|right; done]. exists k. by rewrite Ho.
  - rewrite Hp -app_comm_cons filter_cons in Honce. destruct (decide _); [by apply NoDup_cons in Honce as [_ ?]|done].
Qed.

(** One connection changes or goes; its own requests that are left are closes. *)
Lemma closing_keep K K1 e s s' C fd a A o log :
  closing_rel K s C -> cr_conns C !! fd = Some (a, A) -> concat (k_chains K) ≡ₚ e :: concat (k_chains K1) -> entry_key e = fd ->
  (o = None \/ nonclose e = true /\ k_open K1 = k_open K) -> (o = None -> k_open K1 = k_open K ∖ {[fd]}) ->
  mgr_ok P s' -> st_worker s' = st_worker s -> st_sq s' = st_sq s -> cm_closing (st_mgr s') = cm_closing (st_mgr s) -> st_log s' = log ->
  (forall b, b <> a -> st_conns s' !! b = st_conns s !! b) ->
  match o with
  | Some A' => st_mgr s' = st_mgr s /\ exists c, st_conns s' !! a = Some c /\ c_fd c = fd /\ c_state c = connClose /\ c_network c = tcp /\ conn_abs c = A'
  | None => cm_connections (st_mgr s') = delete fd (cm_connections (st_mgr s)) /\ cm_releaseFdSet (st_mgr s') = cm_releaseFdSet (st_mgr s) ∖ {[fd]}
  end ->
  closing_rel K1 s' (mkCloser log (match o with Some A' => <[fd := (a, A')]> (cr_conns C) | None => delete fd (cr_conns C) end)).
Proof.
  intros Hcl HC Hp He Hop Hop2 Hm' Hw Hsq Hclo Hlog Hoth Ho. have Hinj k A1 A2 := closing_inj K s C k fd a A1 A2 Hcl.
  destruct (closing_addr _ _ _ _ _ _ Hcl HC) as [Hlfd _]. have [Hm Hc0 Hv Hl Hleft Hfree [al Htab] Hconn Hkn Honce] := Hcl.
  have Honce1 := closing_skip K (mkKernel (k_chains K1) (k_open K)) e s C Hcl Hp eq_refl. have {Honce1} Honce1 := cl_once _ _ _ Honce1.
  set (m := match o with Some A' => _ | None => _ end). have Hm_ne k : k <> fd -> m !! k = cr_conns C !! k.
  { intros Hk. rewrite /m. destruct o; [by rewrite lookup_insert_ne|by rewrite lookup_delete_ne]. }
  have Hopen k : k <> fd -> k ∈ k_open K <-> k ∈ k_open K1.
  { intros Hk. destruct Hop as [->|[_ ->]]; [|done]. rewrite (Hop2 eq_refl). set_solver. }
  split; rewrite ?Hw ?Hclo //; cbn [cr_log cr_conns].
  - rewrite /m. destruct o as [A'|]; [destruct Ho as [-> _]|destruct Ho as [_ ->]]; rewrite Hleft.
    + rewrite dom_insert_L. apply elem_of_dom_2 in HC. set_solver.
    + by rewrite dom_delete_L.
  - by rewrite Hm_ne // not_eq_sym.
  - exists al. rewrite /m. destruct o as [A'|]; [destruct Ho as [-> _]|destruct Ho as [-> _]]; rewrite Htab.
    + f_equal. rewrite fmap_insert insert_id //. by rewrite lookup_fmap HC.
    + by rewrite delete_insert_ne // fmap_delete.
  - intros k b B Hk. destruct (decide (k = fd)) as [->|Hne].
    + rewrite /m in Hk. destruct o as [A'|]; [|by rewrite lookup_delete_eq in Hk]. rewrite lookup_insert_eq in Hk. injection Hk as <- <-.
      destruct Hop as [|[_ ->]]; [done|]. destruct (Hconn _ _ _ HC) as (Hr & Hin & _). split_and!; try done; try lia. apply Ho.
    + rewrite Hm_ne // in Hk. destruct (Hconn _ _ _ Hk) as (Hr & Hin & c & Hc & Hrest). split; [done|]. split; [by apply Hopen|].
      exists c. rewrite Hoth //. intros ->. by eapply Hne, Hinj.
  - intros x Hx. rewrite Hsq in Hx. have Hx' : x ∈ concat (k_chains K) ++ st_sq s by rewrite Hp; right.
    destruct (Hkn _ Hx') as [(k & -> & Hr & Hor)|(Hnc & Hkl & Hfor)].
    + left. exists k. split; [done|]. split; [done|]. destruct (decide (k = fd)) as [->|Hne].
      * rewrite /m. destruct o as [A'|]; [left; rewrite lookup_insert_eq; by eexists|right; rewrite (Hop2 eq_refl); set_solver].
      * destruct Hor as [Hor|Hor]; [left; by rewrite Hm_ne|right; by rewrite -Hopen].
    + right. split_and!; try done. intros b B c Hb Hc. destruct (decide (entry_key x = fd)) as [Heq|Hne].
      * destruct Hop as [->|[Hnce _]]; [by rewrite /m Heq lookup_delete_eq in Hb|]. exfalso.
        rewrite Hp -app_comm_cons filter_cons_True ?Hnce // fmap_cons He in Honce. apply NoDup_cons in Honce as [Hnin _]. apply Hnin.
        apply list_elem_of_fmap. exists x. split; [done|]. apply list_elem_of_filter. by rewrite Hnc.
      * rewrite Hm_ne // in Hb. apply (Hfor b B); [done|]. rewrite -Hoth //. intros ->. by eapply Hne, Hinj.
  - by rewrite Hsq.
Qed.

(** ** Events *)

(** A closing connection takes no notice of received bytes. *)
Lemma wp_shard_quiet fd a c res nonempty s Q :
  stream_conn (P := P) fd a c s -> c_state c = connClose -> 0 <= res -> Q None s ->
  wp (shard_event handler w (mkCqe res (Z.lor readDataFlag (uint64 fd)) nonempty)) Q s.
Proof.
  intros [[Hm Hk Hc] Hfd Hr] Hst Hres HQ. eapply wp_shard_event; [constructor|done|done|done|].
  destruct (event_data readDataFlag fd ltac:(constructor) Hr) as (_ & _ & Hflag).
  rewrite /handleConn. wp_steps. rewrite Hst. cbn [cqe_UserData]. rewrite !Hflag; [constructor|constructor|]. by rewrite !bool_decide_false.
Qed.

Definition no_accept (x : sqe * answer) : Prop := match x.2 with AnsAccept _ _ => False | _ => True end.

(** What one answer does. *)
Definition close_step (K1 : kernel) (C : closer) (x : Z * answer) (s s' : St) : Prop :=
  st_worker s' = st_worker s /\ exists C', close_serve handler C x C' /\ closing_rel K1 s' C'.

(** The request of a connection that is left. *)
Lemma closing_request K e s C a A :
  closing_rel K s C -> e ∈ concat (k_chains K) -> nonclose e = true -> cr_conns C !! entry_key e = Some (a, A) ->
  exists c r, stream_conn (P := P) (entry_key e) a c s /\ c_state c = connClose /\ c_network c = tcp /\ conn_abs c = A /\ sqe_for c r e.
Proof.
  intros Hcl He Hnc HC. destruct (closing_stream _ _ _ _ _ _ Hcl HC) as (c & Hsc & Hst & Hnet & Habs).
  destruct (cl_known _ _ _ Hcl e) as [(k & -> & _)|(_ & _ & Hfor)]; [by apply elem_of_app; left|done|].
  destruct (Hfor a A c HC) as [r Hr]; [apply Hsc|]. by exists c, r.
Qed.

Lemma closing_recv K K1 e ans s C :
  closing_rel K s C -> kernel_step K (e, ans) K1 -> ans = AnsEof \/ (exists a data more, ans = AnsRecv a data more) -> is_Some (cr_conns C !! entry_key e) ->
  wp (shard_event handler w (cqe_of (e, ans))) (fun r s' => r = None /\ close_step K1 C (entry_key e, ans) s s') s.
Proof.
  intros Hcl Hs Hans [[a A] HC]. destruct (kernel_step_entries _ _ _ _ Hs) as (Hp & Ha & Ho).
  have Hin : e ∈ concat (k_chains K) by rewrite Hp; left.
  assert (exists k o len, sq_op e = SqRecv k o len) as (k & o & len & Hop).
  { destruct Hans as [->|(a0 & d & m & ->)]; destruct (sq_op e); try done; by eexists _, _, _. }
  destruct (closing_request _ _ _ _ _ _ Hcl Hin ltac:(by rewrite /nonclose Hop) HC) as (c & r & Hsc & Hst & Hnet & Habs & Hsq).
  have Hdata : sq_data e = Z.lor readDataFlag (uint64 (entry_key e)).
  { have Hfd := sc_fd _ _ _ _ Hsc. revert Hfd. generalize (entry_key e). intros fd <-. by inversion Hsq; subst. }
  have Ho' : k_open K1 = k_open K by rewrite Ho; destruct Hans as [->|(a0 & d & m & ->)]; rewrite Hop.
  rewrite /cqe_of /= Hdata. eapply wp_shard_quiet; [exact Hsc|done| |].
  { destruct Hans as [->|(a0 & d & m & ->)]; [done|apply zlen_nonneg]. }
  split; [done|]. split; [done|]. exists C. split; [|by eapply closing_skip].
  apply cs_ignored. by destruct Hans as [->|(a0 & d & m & ->)].
Qed.

Lemma closing_sent K K1 e n s C :
  closing_rel K s C -> kernel_step K (e, AnsSent n) K1 -> close_valid handler C (entry_key e, AnsSent n) ->
  wp (shard_event handler w (cqe_of (e, AnsSent n))) (fun r s' => r = None /\ close_step K1 C (entry_key e, AnsSent n) s s') s.
Proof.
  intros Hcl Hs (a & A & HC & Hv). destruct (kernel_step_entries _ _ _ _ Hs) as (Hp & Ha & Ho). cbn [fst] in HC.
  have Hin : e ∈ concat (k_chains K) by rewrite Hp; left. have Hnc : nonclose e = true by rewrite /nonclose; destruct (sq_op e).
  destruct (closing_request _ _ _ _ _ _ Hcl Hin Hnc HC) as (c & r & Hsc & Hst & Hnet & Habs & Hsq).
  destruct Hsc as [Hman Hfd Hr] eqn:Hsc0; clear Hsc0. have [Hok Hkey] := managed_ok _ _ _ _ Hman.
  assert (exists outb, c_outbound c = Some outb /\ 0 <= n <= RingBuffer_Buffered outb /\ sq_data e = Z.lor writeDataFlag (uint64 (entry_key e))) as (outb & Hob & Hn & Hdata).
  { revert Hfd Ha. generalize (entry_key e). intros fd <- Ha. destruct Hok as (inb & outb & Hi & Hob & Hin' & Hout).
    inversion Hsq as [|outb' len link Ho' Hl|]; subst e; try done. exists outb. rewrite Hob in Ho'. injection Ho' as <-. split_and!; try done; [apply Ha|].
    simpl in Ha. have : uint32 len <= len by apply Z.mod_le; [|lia]; subst len; apply Buffered_bounds, Hout. lia. }
  have Ho' : k_open K1 = k_open K by rewrite Ho; destruct (sq_op e).
  rewrite /cqe_of /= Hdata. rewrite -(cl_log _ _ _ Hcl) -Habs -{1}Hnet in Hv.
  eapply (wp_shard_last (P := P)); [exact Hsc|done|done|lia|exact Hv|].
  intros s' c' [Hc' Hok' _ HP'] Hfd' Hkey' Hnet' Hst' _ Hf Hl Hq Hspec. split; [done|].
  have Hm' : mgr_ok P s' by eapply (mgr_ok_event_frame s s' _ a c c'); try done; congruence.
  destruct Hf as (cx & wx & qx & tx & lx & _ & Hs'). split; [by rewrite Hs'|].
  rewrite Hnet (cl_log _ _ _ Hcl) Habs in Hspec. eexists. split; [eapply cs_sent; [done| |exact Hspec]|].
  { rewrite -Habs /conn_abs Hob /=. destruct Hok as (_ & outb1 & _ & Hob1 & _ & Hout). rewrite Hob in Hob1. injection Hob1 as <-.
    rewrite zlen_contents //. apply Hout. }
  apply (closing_keep K K1 e s s' C (entry_key e) a A (Some (conn_abs c'))); try done; [by right|by rewrite Hs'|by rewrite Hs'| | |].
  - by rewrite Hl (cl_log _ _ _ Hcl).
  - intros b Hb. by rewrite Hs' /= lookup_insert_ne.
  - split; [by rewrite Hs'|]. exists c'. split_and!; congruence.
Qed.

Lemma closing_closed K K1 e s C :
  closing_rel K s C -> kernel_step K (e, AnsClosed) K1 -> close_valid handler C (entry_key e, AnsClosed) ->
  wp (shard_event handler w (cqe_of (e, AnsClosed))) (fun r s' => r = None /\ close_step K1 C (entry_key e, AnsClosed) s s') s.
Proof.
  intros Hcl Hs Hv. destruct (kernel_step_entries _ _ _ _ Hs) as (Hp & Ha & Ho).
  have Hin : e ∈ concat (k_chains K) ++ st_sq s by apply elem_of_app; left; rewrite Hp; left.
  destruct (cl_known _ _ _ Hcl e Hin) as [(k & -> & Hr & Hor)|(Hnc & _)]; [|by rewrite /nonclose in Hnc; destruct (sq_op e)].
  have Hkey : entry_key (close_entry k) = k.
  { rewrite /entry_key /=. have -> : uint64 k = k by apply wrap_u_small; lia. apply key_of_flag; [constructor|lia]. }
  rewrite Hkey in Hv |- *. destruct Hor as [[[a A] HC]|Hno]; [|done].
  destruct (closing_stream _ _ _ _ _ _ Hcl HC) as (c & Hsc & Hst & Hnet & Habs).
  eapply wp_mono; [eapply (wp_shard_closed (P := P)); [exact Hsc|done|]|].
  { intros err. have Hv1 := Hv a A err HC. rewrite -(cl_log _ _ _ Hcl) -Habs in Hv1. by rewrite /closing_abs Hnet orb_true_r. }
  intros r s' [-> (Hm' & Hl & Hsq & _ & Hcm & Hrel & Hclo & _ & Hoth & Hw & _)]. split; [done|]. split; [done|].
  eexists. split; [by apply (cs_closed _ _ k a A)|]. apply (closing_keep K K1 (close_entry k) s s' C k a A None); try done.
  - by left.
  - by rewrite Hl (cl_log _ _ _ Hcl).
Qed.

Lemma closing_step K K1 e ans s C :
  closing_rel K s C -> kernel_step K (e, ans) K1 -> no_accept (e, ans) -> close_valid handler C (entry_key e, ans) ->
  wp (shard_event handler w (cqe_of (e, ans))) (fun r s' => r = None /\ close_step K1 C (entry_key e, ans) s s') s.
Proof.
  intros Hcl Hs Hna Hv. destruct ans as [|a d m| | | |errno]; [done|..].
  - eapply closing_recv; [done|done| |done]. right. by eexists _, _, _.
  - eapply closing_recv; [done|done| |done]. by left.
  - by eapply closing_sent.
  - by eapply closing_closed.
  - destruct (kernel_step_entries _ _ _ _ Hs) as (Hp & Ha & Ho). apply wp_shard_failed; [exact Ha|]. split; [done|]. split; [done|].
    exists C. split; [by apply cs_ignored|]. eapply closing_skip; [done..|]. by rewrite Ho; destruct (sq_op e).
Qed.

Lemma closing_process K K' l s C i :
  closing_rel K s C -> kernel_steps K l K' -> Forall no_accept l -> close_trace_valid handler C (event_of <$> l) ->
  wp (process_cqes (shard_event handler w) (cqe_of <$> l) i) (fun r s' => r.2 = None /\ st_worker s' = st_worker s /\
    exists C', close_serves handler C (event_of <$> l) C' /\ closing_rel K' s' C') s.
Proof.
  revert K s C i. induction l as [|[e ans] l IH]; intros K s C i Hcl Hss Hna Hv.
  { inversion Hss; subst. wp_steps. split_and!; try done. exists C. split; [apply css_nil|done]. }
  inversion Hss as [|? ? K1 ? ? Hs Hss1]; subst. apply Forall_cons in Hna as [Hx Hna]. destruct Hv as [Hv Hv1].
  cbn [fmap list_fmap process_cqes]. wp_step. eapply wp_mono; [by apply (closing_step K K1)|].
  intros r s1 (-> & Hw1 & C1 & Hc1 & Hcl1). cbn beta iota. eapply wp_mono; [apply (IH K1 s1 C1); try done; by apply Hv1|].
  intros r s2 (Hr & Hw2 & C2 & Hc2 & Hcl2). split_and!; [done|congruence|]. exists C2. split; [|done]. by econstructor.
Qed.

(** ** The kernel's writes *)

Lemma closing_fill K op s C e a data more Q :
  closing_rel K s C -> e ∈ concat (k_chains K) -> answers op (sq_op e) (AnsRecv a data more) -> owned s (e, AnsRecv a data more) ->
  (forall s', closing_rel K s' C -> st_mgr s' = st_mgr s -> st_worker s' = st_worker s -> Q () s') ->
  wp (kernel_fill a data) Q s.
Proof.
  intros Hcl Hin Hans Hown HQ. have Hin' : e ∈ concat (k_chains K) ++ st_sq s by apply elem_of_app; left.
  have Hnc : nonclose e = true by rewrite /nonclose; destruct (sq_op e).
  assert (exists A, cr_conns C !! entry_key e = Some (a, A)) as (A & HC).
  { destruct (cl_known _ _ _ Hcl e Hin') as [(k & -> & _)|(_ & Hl & _)]; [done|]. destruct (cl_table _ _ _ Hcl) as (al & Htab).
    rewrite /owned /= Htab -/(entry_key e) in Hown. apply lookup_insert_Some in Hown as [[Heq _]|[_ Hown]].
    - by rewrite Hl in Hans.
    - apply lookup_fmap_Some in Hown as ([a' A] & <- & HA). by exists A. }
  destruct (closing_request _ _ _ _ _ _ Hcl Hin Hnc HC) as (c & r & [Hman Hfd Hr] & Hst & Hnet & Habs & Hsq).
  destruct (managed_ok _ _ _ _ Hman) as [(inb & outb & Hi & Hob & Hinb & Hout) Hkey]. have [Hm Hk Hc] := Hman.
  have Hlen : zlen data <= RingBuffer_Available inb.
  { inversion Hsq as [inb0 Hi0 Hav| |]; subst e; try done. rewrite Hi in Hi0. injection Hi0 as <-. simpl in Hans.
    have : uint32 (RingBuffer_Available inb) <= RingBuffer_Available inb by apply Z.mod_le; rewrite /MinRead in Hav; lia. lia. }
  eapply (wp_kernel_fill); [done..|]. intros vm' inb' Hin2 Hcont _. apply HQ; [|done|done]. set (c' := with_inbound (Some inb') c).
  have [_ Hc0 Hv Hl Hleft Hfree Htab Hconn Hkn Honce] := Hcl. split; try done.
  - eapply (mgr_ok_update s _ (entry_key e) a c c'); try done; [by exists inb', outb|apply (mo_mem _ _ Hm)].
  - intros k b B Hb. destruct (Hconn _ _ _ Hb) as (Hrk & Hok & c1 & Hc1 & Hf1 & Hs1 & Hn1 & Ha1). split; [done|]. split; [done|].
    destruct (decide (b = a)) as [->|Hne]; [|exists c1; by rewrite /= lookup_insert_ne].
    rewrite Hc in Hc1. injection Hc1 as <-. exists c'. rewrite /= lookup_insert_eq. split_and!; try done.
    by rewrite -Ha1 /conn_abs /= Hi Hob /= Hcont.
  - intros x Hx. destruct (Hkn x Hx) as [|(Hncx & Hkl & Hfor)]; [by left|right]. split_and!; try done. intros b B c1 Hb Hc1.
    destruct (decide (b = a)) as [->|Hne]; [|rewrite /= lookup_insert_ne // in Hc1; by apply (Hfor b B)].
    rewrite /= lookup_insert_eq in Hc1. injection Hc1 as <-. destruct (Hfor _ _ _ Hb Hc) as [r1 Hr1]. exists r1. by eapply sqe_for_with_inbound.
Qed.

Lemma closing_stores K l s C :
  closing_rel K s C -> Forall (owned s) l -> Forall no_accept l ->
  (forall x, x ∈ l -> (exists op, answers op (sq_op x.1) x.2) /\ x.1 ∈ concat (k_chains K)) ->
  wp (kernel_stores (l ≫= writes_of)) (fun _ s' => closing_rel K s' C /\ st_worker s' = st_worker s) s.
Proof.
  revert s. induction l as [|[e ans] l IH]; intros s Hcl Hown Hna Hin; [by wp_steps|].
  apply Forall_cons in Hown as [Ho Hown]. apply Forall_cons in Hna as [Hn Hna]. destruct (Hin (e, ans)) as [(op & Hans) Hine]; [by left|].
  have Hin1 : forall x, x ∈ l -> (exists op, answers op (sq_op x.1) x.2) /\ x.1 ∈ concat (k_chains K) by intros; apply Hin; right.
  change ((e, ans) :: l ≫= writes_of) with (writes_of (e, ans) ++ (l ≫= writes_of)).
  apply stores_app. destruct ans as [|a d m| | | |]; [done|..]; cbn [writes_of snd kernel_stores]; try (wp_steps; by apply IH).
  wp_step. cbn [kernel_store]. eapply closing_fill; [done..|]. intros s1 Hcl1 Hm1 Hw1. wp_steps.
  eapply wp_mono; [apply (IH s1 Hcl1); try done|].
  - eapply Forall_impl; [exact Hown|]. intros y. by rewrite /owned Hm1.
  - intros _ s2 [Hcl2 Hw2]. split; [done|congruence].
Qed.

Section ClosingLoop.
Context (fuel : nat) (maxCQ : Z).
Notation looper := (shard_looper w fuel maxCQ).

(** The loop ends when no connection is left. *)
Definition finished (s s' : St) : Prop :=
  wv_ring_closed (st_worker s') = true /\ wv_done (st_worker s') = S (wv_done (st_worker s)) /\
  dom (cm_connections (st_mgr s')) = {[lfd]} /\ st_log s' = st_log s.

Lemma closing_finish K s C sub :
  closing_rel K s C ->
  wp (finish_round looper sub) (fun r s' =>
    if decide (cr_conns C = ∅) then r = LoopReturn None /\ finished s s' else r = LoopContinue sub /\ s' = s) s.
Proof.
  intros [Hm Hc0 (Hacc & Hsd & Hip) Hl Hleft Hfree (al & Htab) Hconn _ _].
  rewrite /finish_round. cbn [loopFinisher loopFinishCondition shard_looper]. rewrite /handleAsyncWritesIfEnabled Hsync. wp_steps.
  rewrite /shard_loopFinishCondition. wp_steps. have Hfin : shard_finished w s = bool_decide (cr_conns C = ∅).
  { rewrite /shard_finished /allClosed Hc0 Hacc Hleft /connectionProtocol Htcp /shard_activeConnections /mgr_activeConnections. cbn [negb andb].
    rewrite size_dom. case_bool_decide as He; [by rewrite He map_size_empty|]. apply orb_false_intro; [by apply Nat.eqb_neq; rewrite map_size_empty_iff|].
    apply Z.eqb_neq. rewrite (mo_count _ _ Hm) Htab map_size_insert lookup_fmap Hfree /= map_size_fmap.
    have Hpos : (size (cr_conns C) <> 0)%nat by rewrite map_size_empty_iff. have Hle : Z.of_nat (size (dom (cr_conns C))) <= 2 ^ 31.
    { apply fd_set_size; [lia|]. intros k [[a A] Hk]%elem_of_dom. apply (Hconn _ _ _ Hk). }
    rewrite size_dom in Hle. move: Hpos Hle. generalize (size (cr_conns C)) => n Hpos Hle.
    have Hn : 1 <= Z.of_nat n <= 2 ^ 31 by lia. have := int32_not_one (Z.of_nat n) Hn. rewrite Nat2Z.inj_succ -Z.add_1_r. lia. }
  rewrite Hfin. destruct (decide (cr_conns C = ∅)) as [He|He]; [rewrite bool_decide_true //|by rewrite bool_decide_false //; wp_steps].
  rewrite /worker_close /notifyFinish /mod_vars /when. wp_steps. cbn [wv_shutdowning st_worker set_worker with_ring_closed]. rewrite Hsd. wp_steps.
  split; [done|]. split_and!; try done. cbn [st_mgr set_worker]. by rewrite Htab He fmap_empty dom_insert_L dom_empty_L union_empty_r_L.
Qed.

(** A round while the worker closes: no client is accepted. *)
Definition closing_round (kr : kround) : Prop := Forall no_accept (answers_of kr) /\ zlen (answers_of kr) <= maxCQ.

Lemma closing_handler K s C : closing_rel K s C -> shutdownHandler looper s = Ret (Some true, s).
Proof.
  intros Hcl. destruct (cl_vars _ _ _ Hcl) as (_ & _ & Hip). cbn [shutdownHandler shard_looper].
  rewrite /shard_shutdownHandler /needToShutdown /mbind /StateM_bind /get_state /=. by rewrite Hip andb_false_r.
Qed.

(** The queue and the flags do not matter to the connections. *)
Lemma closing_same K K' s s' C :
  closing_rel K s C -> concat (k_chains K') ++ st_sq s' = concat (k_chains K) ++ st_sq s -> k_open K' = k_open K ->
  mgr_ok P s' -> st_mgr s' = st_mgr s -> st_conns s' = st_conns s -> st_log s' = st_log s ->
  wv_accepting (st_worker s') = false /\ wv_shutdowning (st_worker s') = true /\ wv_inProgress (st_worker s') = true -> closing_rel K' s' C.
Proof.
  intros [Hm Hc0 Hv Hl Hleft Hfree Htab Hconn Hkn Honce] Hent Ho Hm' Hmgr Hcon Hlog Hv'.
  split; rewrite ?Hmgr ?Hlog ?Hent ?Ho //; [by rewrite Hcon|]. intros e He. destruct (Hkn e He) as [(k & Hk)|Hk]; [left; exists k; by rewrite Ho|right].
  by rewrite Hcon.
Qed.

Lemma closing_submit K s C : closing_rel K s C -> closing_rel (submitted K (st_sq s)) (set_sq [] s) C.
Proof.
  intros Hcl. apply (closing_same K _ s); try done; [|by destruct (cl_mgr _ _ _ Hcl); split|apply Hcl].
  cbn [submitted k_chains st_sq set_sq]. by rewrite concat_app concat_split app_nil_r.
Qed.

Lemma closing_signal K s C (stop : bool) : closing_rel K s C ->
  wp (when stop shutdown_signal) (fun _ s' => closing_rel K s' C /\ wv_done (st_worker s') = wv_done (st_worker s)) s.
Proof.
  intros Hcl. destruct stop; [|by wp_steps]. rewrite /shutdown_signal /mod_vars. wp_steps. split; [|done].
  apply (closing_same K K s); try done; [by destruct (cl_mgr _ _ _ Hcl); split|]. destruct (cl_vars _ _ _ Hcl) as (? & _ & ?). done.
Qed.

(** The answers [l] are served; the loop returns if every connection is closed. *)
Definition closes (K : kernel) (s : St) (C : closer) (l : list (Z * answer)) (r : loop_result) (s' : St) : Prop :=
  exists C' s1, close_serves handler C l C' /\ closing_rel K s1 C' /\ wv_done (st_worker s1) = wv_done (st_worker s) /\
    if decide (cr_conns C' = ∅) then r = LoopReturn None /\ finished s1 s'
    else exists sub', r = LoopContinue sub' /\ submitter_ok sub' /\ s1 = s'.

Lemma closing_finish_round K s0 s C C' l sub :
  close_serves handler C l C' -> closing_rel K s C' -> wv_done (st_worker s) = wv_done (st_worker s0) -> submitter_ok sub ->
  wp (finish_round looper sub) (fun r s' => closes K s0 C l r s') s.
Proof.
  intros Hc Hcl Hd Hsub. eapply wp_mono; [by apply (closing_finish K)|]. intros r s' Hs. exists C', s. split_and!; try done.
  destruct (decide _); [done|]. destruct Hs as [-> ->]. by exists sub.
Qed.

Lemma closing_loop_round K K' kr s C sub :
  closing_rel K s C -> round_allowed K s kr K' -> submitter_ok sub -> closing_round kr -> close_trace_valid handler C (event_of <$> answers_of kr) ->
  wp (loop_round looper (shard_event handler w) sub (round_of kr)) (fun r s' => closes K' s C (event_of <$> answers_of kr) r s') s.
Proof.
  intros Hcl Hra Hsub [Hna Hmax] Hv. rewrite /loop_round. wp_step. eapply wp_of_run; [by eapply closing_handler|]. cbn beta iota. wp_step.
  have Hcl1 := closing_submit _ _ _ Hcl. destruct Hra as [stop l K' Hss Hown|err Herr|err Herr];
    cbn [round_of rr_err rr_left rr_mem rr_cqes rr_stop answers_of fmap list_fmap] in *.
  - eapply wp_lift; [done|]. cbn beta iota. wp_steps. rewrite /in_worker /has_worker_self. wp_steps.
    eapply wp_mono; [apply (closing_stores _ l _ C Hcl1 Hown Hna)|].
    { intros x Hx. destruct (chain_steps_in _ _ _ (kernel_chain_steps _ _ _ Hss) Hx) as (Hop & ch & Hch & Hin). split; [done|]. apply list_elem_of_In, in_concat.
      exists ch. split; by apply list_elem_of_In. }
    intros [] s1 [Hcl2 Hw1]. cbn beta. wp_step. eapply wp_mono; [apply (closing_signal _ _ C stop Hcl2)|]. intros [] s2 [Hcl3 Hd2]. cbn beta.
    have -> : take (Z.to_nat maxCQ) (cqe_of <$> l) = cqe_of <$> l by apply take_ge; rewrite length_fmap; rewrite /zlen in Hmax; lia.
    wp_step. eapply wp_mono; [by apply (closing_process _ K' l s2 C 0 Hcl3 Hss)|]. intros [n r] s3 (Hr & Hw3 & C' & Hc' & Hcl'). cbn [snd] in Hr. subst r. cbn beta iota.
    destruct (advance_ok sub n Hsub) as (sub' & Hadv & Hsub' & _). wp_step. eapply wp_lift; [exact Hadv|]. cbn beta iota.
    eapply closing_finish_round; [done..| |done]. by rewrite Hw3 Hd2 Hw1.
  - destruct (submit_ok sub (Some err) Hsub) as (e & sub' & Hs & Hsub' & _). eapply wp_lift; [exact Hs|].
    have -> : e = Some ErrSkippable by eapply submit_interrupted. cbn beta iota. wp_steps. rewrite /in_worker /has_worker_self. wp_steps. cbn [kernel_stores when errors_Is]. wp_steps.
    eapply closing_finish_round; [apply css_nil|exact Hcl1|done|done].
  - destruct (submit_ok sub (Some err) Hsub) as (e & sub' & Hs & Hsub' & _). eapply wp_lift; [exact Hs|].
    have -> : e = Some ErrSkippable by eapply submit_interrupted. cbn beta iota. wp_steps. rewrite /in_worker /has_worker_self. wp_steps. cbn [kernel_stores when errors_Is]. wp_steps.
    have -> : set_sq (st_sq s) s = s by destruct s. eapply closing_finish_round; [apply css_nil|exact Hcl|done|done].
Qed.

(** ** The loop until it returns *)

(** Everything is closed, and the loop has returned, after the answers [l]. *)
Definition all_closed (s : St) (C : closer) (l : list (Z * answer)) (s' : St) : Prop :=
  exists C' s1, close_serves handler C l C' /\ cr_conns C' = ∅ /\ st_log s1 = cr_log C' /\
    wv_done (st_worker s1) = wv_done (st_worker s) /\ finished s1 s'.

Lemma closing_loop K K2 krs s C sub :
  closing_rel K s C -> submitter_ok sub -> allowed handler w fuel maxCQ K sub s krs K2 -> Forall closing_round krs ->
  close_trace_valid handler C (events krs) -> krs <> [] -> dom (cr_conns C) ∩ k_open K2 = ∅ ->
  wp (innerLoop looper (shard_event handler w) sub (round_of <$> krs)) (fun r s' => r = Some None /\
    exists l, l `prefix_of` events krs /\ all_closed s C l s') s.
Proof.
  revert K s C sub. induction krs as [|kr krs IH]; intros K s C sub Hcl Hsub Hall Hrounds Hv Hne Hend; [done|].
  apply Forall_cons in Hrounds as [Hkr Hrounds]. inversion Hall as [|? ? ? ? ? K1 ? Hra Hnext]; subst.
  destruct (close_trace_valid_app _ _ _ _ Hv) as [Hv1 Hv2].
  specialize (Hra _ (closing_handler _ _ _ Hcl)). cbn [fmap list_fmap innerLoop]. wp_step.
  destruct (wp_run _ _ _ (closing_loop_round _ _ _ _ _ _ Hcl Hra Hsub Hkr Hv1)) as (r & s1 & Hrun & C' & s2 & Hc & Hcl1 & Hd & Hres).
  eapply wp_of_run; [exact Hrun|]. change (events (kr :: krs)) with ((event_of <$> answers_of kr) ++ events krs).
  destruct (decide (cr_conns C' = ∅)) as [He|He].
  { destruct Hres as [-> Hf]. wp_steps. split; [done|]. exists (event_of <$> answers_of kr). split; [by eexists|].
    exists C', s2. split_and!; try done. apply Hcl1. }
  destruct Hres as (sub1 & -> & Hsub1 & ->). cbn beta iota. specialize (Hnext _ _ Hrun). have Hdom := close_serves_dom _ _ _ _ Hc.
  have Hend1 : dom (cr_conns C') ∩ k_open K2 = ∅ by set_solver.
  have Hne1 : krs <> [].
  { intros ->. apply allowed_nil in Hnext as ->. destruct (map_choose _ He) as (k & [a A] & Hk).
    destruct (cl_conn _ _ _ Hcl1 _ _ _ Hk) as (_ & Ho & _). apply elem_of_dom_2 in Hk. set_solver. }
  eapply wp_mono; [by apply (IH K1 s1 C' sub1); try done; apply Hv2|]. intros r s3 [-> (l & Hl & C2 & s4 & Hc2 & He2 & Hlg & Hd2 & Hf)]. split; [done|].
  exists ((event_of <$> answers_of kr) ++ l). split; [by apply prefix_app|]. exists C2, s4. split_and!; try done; [by eapply close_serves_app|congruence].
Qed.

(** Every key of the table is the descriptor of its connection. *)
Lemma table_stream_table s T : table_ok P (Some lfd) s T -> stream_table s.
Proof.
  intros [Hm Hlog Hr Hfree (al & cl & Hcm & Hal & Hst & Hlf) Hent _] k a c Hk Hc.
  rewrite Hcm in Hk. apply lookup_insert_Some in Hk as [[<- <-]|[Hne Hk]]; [by rewrite Hal in Hc; injection Hc as <-|].
  rewrite lookup_fmap in Hk. destruct (sv_conns T !! k) as [e|] eqn:He; [|done]. injection Hk as <-.
  destruct (Hent _ _ He) as (c1 & Hc1 & Heo). rewrite Hc in Hc1. injection Hc1 as <-. apply Heo.
Qed.

(** A chain has at most one request that is not a close. *)
Lemma chain_once c A pend st ch :
  pend_ok A pend st -> Forall2 (sqe_for c) pend ch -> filter nonclose ch = [] \/ exists e, e ∈ ch /\ filter nonclose ch = [e].
Proof.
  intros Hp Hall. destruct pend as [|r rs]; [inversion Hall; by left|]. have Hrs := pend_rest _ _ _ _ _ Hp eq_refl.
  inversion Hall as [|? e ? rest Hr Hrest]; subst. assert (Hnone : filter nonclose rest = []).
  { destruct Hrs as [->|[-> _]]; inversion Hrest as [|? ? ? ? Hc Hn]; subst; [done|]. inversion Hn; subst. by inversion Hc; subst. }
  rewrite filter_cons Hnone. destruct (decide _); [right|by left]. exists e. split; [by left|done].
Qed.

Lemma filter_concat (L : list (Z * list sqe)) :
  entry_key <$> filter nonclose (concat L.*2) = L ≫= (fun x => entry_key <$> filter nonclose x.2).
Proof. induction L as [|[fd ch] L IH]; [done|]. by rewrite bind_cons fmap_cons /= filter_app fmap_app IH. Qed.

Lemma table_once K s T q :
  table_ok P (Some lfd) s T -> chains_ok (Some lfd) K s T q -> NoDup (entry_key <$> filter nonclose (concat (k_chains K) ++ st_sq s)).
Proof.
  intros HT [[Hmap Hkeys] _ Hlis Hent Hnone _]. rewrite -(concat_split (st_sq s)) -concat_app Hmap filter_concat.
  eapply sublist_NoDup; [apply (NoDup_fst_map_to_list q)|]. apply bind_sublist, Forall_forall. intros [fd ch] Hin%elem_of_map_to_list. cbn [fst snd].
  have Hone e : e ∈ ch -> filter nonclose ch = [e] -> entry_key <$> filter nonclose ch = [fd] by intros He ->; rewrite /= /entry_key (Hkeys fd ch).
  destruct (decide (fd = lfd)) as [->|Hne].
  { rewrite (Hlis _ eq_refl) in Hin. destruct (sv_listening T); [|done]. injection Hin as <-. right. apply (Hone (accept_sqe lfd)); [by left|done]. }
  destruct (sv_conns T !! fd) as [en|] eqn:Hen; [|rewrite Hnone in Hin; [congruence|done|done]].
  destruct (to_entry _ _ _ HT _ _ Hen) as (c & Hc & Heo). have Hcf := Hent _ _ _ Hen Hc. rewrite /chain_for Hin in Hcf.
  have Hp := eo_pend _ _ _ Heo. destruct (en_pend en) as [|r rs]; [done|]. destruct Hcf as (ch' & [= <-] & Hall).
  destruct (chain_once _ _ _ _ _ Hp Hall) as [->|(e & He & Hf)]; [by left|right]. by apply (Hone e).
Qed.

(** The requests in flight and in the queue are those of the connections. *)
Lemma table_known K s T q e :
  table_ok P (Some lfd) s T -> chains_ok (Some lfd) K s T q -> e ∈ concat (k_chains K) ++ st_sq s ->
  (exists k, e = close_entry k /\ 0 <= k < 2 ^ 31 /\ is_Some (sv_conns T !! k)) \/
  (nonclose e = true /\ (entry_key e = lfd -> e = accept_sqe lfd) /\
   forall en c, sv_conns T !! entry_key e = Some en -> st_conns s !! en_addr en = Some c -> exists r, sqe_for c r e).
Proof.
  intros HT Hq Hin. rewrite -(concat_split (st_sq s)) -concat_app in Hin. apply list_elem_of_In, in_concat in Hin as (ch & Hch%list_elem_of_In & Hech%list_elem_of_In).
  destruct (chain_map_lookup _ _ _ (co_map _ _ _ _ _ Hq) Hch) as (fd & Hfd). have Hkey : entry_key e = fd by apply (proj2 (co_map _ _ _ _ _ Hq) fd ch).
  destruct (decide (fd = lfd)) as [->|Hne].
  { rewrite (co_listener _ _ _ _ _ Hq lfd eq_refl) in Hfd. destruct (sv_listening T); [|done]. injection Hfd as <-. apply list_elem_of_singleton in Hech as ->.
    right. split_and!; try done. intros en c. by rewrite Hkey (to_free _ _ _ HT lfd eq_refl). }
  destruct (sv_conns T !! fd) as [en|] eqn:Hen; [|rewrite (co_none _ _ _ _ _ Hq) in Hfd; [congruence|done|done]].
  destruct (to_entry _ _ _ HT _ _ Hen) as (c & Hc & Heo). have Hcf := co_entry _ _ _ _ _ Hq _ _ _ Hen Hc.
  rewrite /chain_for Hfd in Hcf. destruct (en_pend en) as [|r rs]; [done|]. destruct Hcf as (ch' & [= <-] & Hall).
  apply list_elem_of_lookup in Hech as (i & Hi). destruct (Forall2_lookup_r _ _ _ _ _ Hall Hi) as (r0 & _ & Hsq).
  have Hfor : forall en0 c0, sv_conns T !! entry_key e = Some en0 -> st_conns s !! en_addr en0 = Some c0 -> exists r, sqe_for c0 r e.
  { intros en0 c0 Hen0 Hc0. rewrite Hkey Hen in Hen0. injection Hen0 as <-. rewrite Hc in Hc0. injection Hc0 as <-. by exists r0. }
  destruct (nonclose e) eqn:Hnc; [right; split_and!; try done; congruence|left].
  inversion Hsq; subst e; try done. exists fd. rewrite (eo_fd _ _ _ Heo). split_and!; [done|apply Heo..|by eexists].
Qed.

(** The connections of the server when the shutdown begins. *)
Definition closer_of (T : server) : closer := mkCloser (sv_log T) ((fun e => (en_addr e, en_conn e)) <$> sv_conns T).

Lemma closer_lookup T fd a A : cr_conns (closer_of T) !! fd = Some (a, A) -> exists en, sv_conns T !! fd = Some en /\ a = en_addr en /\ A = en_conn en.
Proof. rewrite lookup_fmap. destruct (sv_conns T !! fd) as [en|]; [|done]. intros [= <- <-]. by exists en. Qed.

(** The end of every connection has been told once. *)
Lemma all_told T l C :
  close_serves handler (closer_of T) l C -> cr_conns C = ∅ ->
  exists cbs, cr_log C = sv_log T ++ cbs /\ filter is_close cbs ≡ₚ (fun x => CbClose (en_addr x.2) None) <$> map_to_list (sv_conns T).
Proof.
  intros Hc He. destruct (close_serves_log _ _ _ _ Hc) as (cbs & Hl & Hp). exists cbs. split; [done|].
  rewrite He map_to_list_empty app_nil_r in Hp. rewrite Hp /= map_to_list_fmap -!list_fmap_compose. done.
Qed.

Lemma closing_entries K s s0 T q fds :
  table_ok P (Some lfd) s T -> chains_ok (Some lfd) K s T q -> st_sq s0 = st_sq s ++ (close_entry <$> fds) -> fds ≡ₚ elements (dom (sv_conns T)) ->
  (forall fd en c, sv_conns T !! fd = Some en -> st_conns s !! en_addr en = Some c -> st_conns s0 !! en_addr en = Some (with_state connClose c)) ->
  (forall e, e ∈ concat (k_chains K) ++ st_sq s0 -> entry_known K s0 (closer_of T) e) /\
  NoDup (entry_key <$> filter nonclose (concat (k_chains K) ++ st_sq s0)).
Proof.
  intros HT Hq Hsq Hfds Hcs. rewrite Hsq app_assoc. split.
  - intros e [Hin|Hin]%elem_of_app.
    + destruct (table_known _ _ _ _ _ HT Hq Hin) as [(k & -> & Hr & Hk)|(Hnc & Hkl & Hfor)]; [left|right].
      * exists k. split; [done|]. split; [done|]. left. cbn [closer_of cr_conns]. rewrite lookup_fmap. by apply fmap_is_Some.
      * split_and!; try done. intros a A c0 HC Hc0. destruct (closer_lookup _ _ _ _ HC) as (en & Hen & -> & ->).
        destruct (to_entry _ _ _ HT _ _ Hen) as (c & Hc & _). rewrite (Hcs _ _ _ Hen Hc) in Hc0. injection Hc0 as <-.
        destruct (Hfor _ _ Hen Hc) as [r Hr]. exists r. inversion Hr; subst; by [apply (sf_recv (with_state connClose c))|apply (sf_send (with_state connClose c))|apply (sf_close (with_state connClose c))].
    + apply list_elem_of_fmap in Hin as (fd & -> & Hin). left. exists fd. rewrite Hfds elem_of_elements elem_of_dom in Hin. split; [done|].
      destruct Hin as [en Hen]. destruct (to_entry _ _ _ HT _ _ Hen) as (c & _ & Heo). split; [apply Heo|]. left. rewrite lookup_fmap Hen. by eexists.
  - rewrite filter_app fmap_app. have -> : filter nonclose (close_entry <$> fds) = []; [|rewrite app_nil_r; by eapply table_once].
    clear. induction fds as [|fd fds IH]; [done|]. rewrite fmap_cons filter_cons_False //. by intros [].
Qed.

(** The shutdown has been asked for: the round begins with closing everything. *)
Lemma closing_begins K s T :
  table_rel P (Some lfd) K [] s T -> wv_shutdowning (st_worker s) = true -> Z.of_nat (size (cm_connections (st_mgr s))) <= free_slots s ->
  exists s0, shutdownHandler looper s = Ret (Some true, s0) /\ closing_rel K s0 (closer_of T) /\ wv_done (st_worker s0) = 0%nat.
Proof.
  intros (HT & (q & Hq) & _) Hsd Hroom. cbn [shutdownHandler shard_looper].
  assert (Hwp : wp (shard_shutdownHandler w) (fun r s0 => r = Some true /\ closing_rel K s0 (closer_of T) /\ wv_done (st_worker s0) = 0%nat) s);
    [|destruct (wp_run _ _ _ Hwp) as (r & s0 & Hrun & -> & Hs0); by exists s0].
  have Hst := table_stream_table _ _ HT. have Hstr fd e := table_stream (P := P) (Some lfd) s T fd e HT. have Hents s0 fds := closing_entries K s s0 T q fds HT Hq.
  have Hdom fd : is_Some (sv_conns T !! fd) -> fd ∈ k_open K by apply (co_open _ _ _ _ _ Hq).
  destruct HT as [Hm Hlog Hr Hfree (al & cl & Hcm & _) _ [(Hacc & Hip & Hdone) Hclo]]. specialize (Hfree lfd eq_refl).
  have Hdt : dom (cm_connections (st_mgr s)) ∖ {[lfd]} = dom (sv_conns T).
  { rewrite Hcm dom_insert_L dom_fmap_L. apply not_elem_of_dom in Hfree. set_solver. }
  rewrite /shard_shutdownHandler /needToShutdown. wp_steps. rewrite Hsd Hip. cbn [andb negb when].
  wp_step. eapply wp_mono; [by apply (wp_close_all P w s Hm Hst Hroom)|].
  intros _ s2 (Hm2 & Hw2 & _ & Hl2 & Hcm2 & Hcl2 & Hrel & (fds & Hsq & Hfds) & Hcs). rewrite Hdt in Hrel, Hfds.
  rewrite /markShutdownInProgress /mod_vars. wp_steps. split; [done|]. split; [|by cbn [st_worker set_worker]; rewrite Hw2]. set (s3 := set_worker _ s2).
  have Hcs3 : forall fd en c, sv_conns T !! fd = Some en -> st_conns s !! en_addr en = Some c -> st_conns s3 !! en_addr en = Some (with_state connClose c).
  { intros fd en c Hen. have Hne : fd <> lfd by intros ->; congruence. apply (Hcs fd); [|done]. by rewrite Hcm lookup_insert_ne // lookup_fmap Hen. }
  destruct (Hents s3 fds Hsq Hfds Hcs3) as [Hkn Honce]. split; try done.
  - by destruct Hm2; split.
  - by rewrite /= Hw2.
  - by rewrite /= Hl2.
  - by rewrite /= Hrel dom_fmap_L.
  - by rewrite /= lookup_fmap Hfree.
  - exists al. rewrite /= Hcm2 Hcm -map_fmap_compose. done.
  - intros fd a A HC. destruct (closer_lookup _ _ _ _ HC) as (en & Hen & -> & ->). destruct (Hstr _ _ Hen) as (c & [[_ Hk Hc] Hf Hrg] & Heo).
    split; [done|]. split; [by apply Hdom; eexists|]. exists (with_state connClose c). split; [by apply (Hcs3 fd)|]. split_and!; try done; apply Heo.
Qed.

Lemma same_start {A B} (m : StateM St A) (f : A -> StateM St B) s s0 : m s = m s0 -> (m ≫= f) s = (m ≫= f) s0.
Proof. rewrite /mbind /StateM_bind. by intros ->. Qed.

(** A round that starts with the shutdown goes on as one that starts after it. *)
Lemma round_after s s0 sub rd :
  shutdownHandler looper s = Ret (Some true, s0) -> shutdownHandler looper s0 = Ret (Some true, s0) ->
  loop_round looper (shard_event handler w) sub rd s = loop_round looper (shard_event handler w) sub rd s0.
Proof. intros H1 H2. apply same_start. by rewrite H1 H2. Qed.

Lemma inner_after s s0 sub rds :
  rds <> [] -> shutdownHandler looper s = Ret (Some true, s0) -> shutdownHandler looper s0 = Ret (Some true, s0) ->
  innerLoop looper (shard_event handler w) sub rds s = innerLoop looper (shard_event handler w) sub rds s0.
Proof. intros Hne H1 H2. destruct rds as [|rd rds]; [done|]. cbn [innerLoop]. apply same_start. by apply round_after. Qed.

Lemma allowed_after K sub s s0 krs K' :
  shutdownHandler looper s = Ret (Some true, s0) -> shutdownHandler looper s0 = Ret (Some true, s0) ->
  allowed handler w fuel maxCQ K sub s krs K' -> allowed handler w fuel maxCQ K sub s0 krs K'.
Proof.
  intros H1 H2 Hall. inversion Hall as [|? ? ? kr krs' K1 ? Hra Hnext]; subst; [apply al_nil|]. eapply al_cons.
  - intros s1. rewrite H2. intros [= <-]. by apply Hra.
  - intros sub' s'. rewrite -(round_after s s0) //. apply Hnext.
Qed.

(** From the round in which the shutdown is asked for to the end of the loop. *)
Lemma stopping_loop K K2 krs s T sub :
  table_rel P (Some lfd) K [] s T -> wv_shutdowning (st_worker s) = true -> Z.of_nat (size (cm_connections (st_mgr s))) <= free_slots s ->
  submitter_ok sub -> allowed handler w fuel maxCQ K sub s krs K2 -> Forall closing_round krs -> close_trace_valid handler (closer_of T) (events krs) ->
  krs <> [] -> dom (sv_conns T) ∩ k_open K2 = ∅ ->
  wp (innerLoop looper (shard_event handler w) sub (round_of <$> krs)) (fun r s' => r = Some None /\
    wv_ring_closed (st_worker s') = true /\ wv_done (st_worker s') = 1%nat /\ dom (cm_connections (st_mgr s')) = {[lfd]} /\
    exists l C, l `prefix_of` events krs /\ close_serves handler (closer_of T) l C /\ cr_conns C = ∅ /\ st_log s' = cr_log C) s.
Proof.
  intros Hrel Hsd Hroom Hsub Hall Hcr Hv Hne Hend. destruct (closing_begins _ _ _ Hrel Hsd Hroom) as (s0 & Hh & Hcl & Hd0).
  have Hh0 := closing_handler _ _ _ Hcl. have Hall0 := allowed_after _ _ _ _ _ _ Hh Hh0 Hall.
  have Hwp := closing_loop K K2 krs s0 _ sub Hcl Hsub Hall0 Hcr Hv Hne ltac:(by rewrite /= dom_fmap_L).
  destruct (wp_run _ _ _ Hwp) as (r & s' & Hrun & -> & l & Hl & C & s1 & Hc & He & Hlg & Hd & Hrc & Hdn & Hdom & Hlog).
  eapply wp_of_run; [rewrite (inner_after s s0) //; by destruct krs|]. split_and!; try done; [by rewrite Hdn Hd Hd0|].
  exists l, C. split_and!; try done. by rewrite Hlog Hlg.
Qed.

End ClosingLoop.

End Shutdown.

(** A request that completes after its connection was closed reaches a connection that
    never was: [get] makes a new one for the descriptor, which is shut down although it
    may belong to somebody else by now, and the handler is told the end of a connection
    it has not seen. *)
Theorem late_completion_phantom {env : Env} P `{!EnvLaws env P} handler w fd flag res nonempty s :
  w_sendRecvMsg w = false -> mgr_ok P s -> is_flag flag -> 0 <= fd < 2 ^ 31 -> 0 <= res -> cm_connections (st_mgr s) !! fd = None ->
  (forall b err, prog_valid 0 (mkA [] [] true None) (handler (st_log s) (CbClose b err))) ->
  wp (shard_event handler w (mkCqe res (Z.lor flag (uint64 fd)) nonempty)) (fun r s' => r = None /\ exists b,
    (forall k, cm_connections (st_mgr s) !! k <> Some b) /\ st_log s' = st_log s ++ [CbClose b (Some (ErrorUnknownConnectionState (state_num connInvalid)))] /\
    CShutdown fd SHUT_RDWR ∈ st_calls s' /\ cm_connections (st_mgr s') = cm_connections (st_mgr s)) s.
Proof.
  intros Htcp Hm Hflag Hfd Hres Hno Hv. destruct (event_data flag fd Hflag Hfd) as (Hne & Hkey & _).
  rewrite /shard_event /processEvent. cbn [cqe_Res cqe_UserData]. destruct (Z.ltb_spec res 0); [lia|]. wp_steps.
  rewrite Hne Hkey /connectionProtocol Htcp. cbn [negb]. wp_step. eapply (wp_get_new (P := P)); [done..|].
  intros a s1 (Hm1 & (Hq1 & Hz1 & Hca1 & Hl1 & _) & _ & Hnew & Hcm1 & _ & _ & _ & c & Hc & (Hcf & Hck & Hcn & Hcs & Hcmo & Hcc & _ & _ & Hctx) & inb & outb & Hi & Ho & Hci & Hco).
  set (c1 := with_key fd (with_fd fd c)) in *. have Hman : managed (P := P) fd a c1 s1 by split; [done|by rewrite Hcm1 lookup_insert_eq|done].
  have Habs : closing_abs c1 = mkA [] [] true None.
  { rewrite /closing_abs /conn_abs /= Hi Ho Hcc Hcn Hctx /=. destruct Hci as (_ & Hi0 & _), Hco as (_ & Ho0 & _). by rewrite Hi0 Ho0. }
  rewrite /handleConn. wp_steps. cbn [c_state c1 with_key with_fd]. rewrite Hcs. wp_steps.
  eapply (wp_closeConn (P := P)); [exact Hman|rewrite Habs Hl1; cbn [c_network c1 with_key with_fd]; rewrite Hcn; apply Hv|].
  intros s' (_ & Hl & _ & Hcalls & Hcm & _). wp_steps. split; [done|]. exists a. split_and!; [done|by rewrite Hl Hl1| |].
  - destruct Hcalls as [rest ->]. apply elem_of_app. left. apply elem_of_app. right. by left.
  - by rewrite Hcm Hcm1 delete_insert_id.
Qed.

Lemma late_completion_phantom_witness :
  wp (@shard_event demo_env answer_handler demo_worker (mkCqe 3 (Z.lor readDataFlag (uint64 9)) false)) (fun r s' => r = None /\ exists b,
    (forall k, cm_connections (st_mgr (stream_state connRead 16)) !! k <> Some b) /\
    st_log s' = [] ++ [CbClose b (Some (ErrorUnknownConnectionState (state_num connInvalid)))] /\
    CShutdown 9 SHUT_RDWR ∈ st_calls s' /\ cm_connections (st_mgr s') = cm_connections (st_mgr (stream_state connRead 16))) (stream_state connRead 16).
Proof.
  apply (@late_completion_phantom demo_env exact_world _ answer_handler demo_worker 9 readDataFlag 3 false (stream_state connRead 16));
    [done|apply stream_state_ok|constructor|lia|lia|done|intros; apply pv_ret].
Defined.
