(* ===== verification/DatagramSpec.v ===== *)
(** * DatagramSpec: datagram workers

    A datagram is handled on a connection of its own, forked from the listening
    connection; the socket's receive request is queued again before the handler
    runs. *)

From S2P Require Import Prelude Errors SyncPool VirtualMem MagicRing RingRefinement RingPool ByteSlicePool.
From S2P Require Import KeyPool Flags Submitter Sockaddr SocketOps GoState Conn ConnSpec ConnManager Worker.
From S2P Require Import WorkerSpec Looper ConsumerWorker StreamSpec ShardWorker ShardSpec.
Local Open Scope Z_scope.

(** [Close] does nothing on a datagram connection. *)
Lemma prog_spec_udp_closed A p A' : prog_spec udp A p A' -> a_closed A' = a_closed A.
Proof.
  induction 1 as [|A op k r A1 A' Hs _ IH]; [done|]. rewrite IH. by inversion Hs; simplify_eq/=.
Qed.

(** The request for the connection of a datagram: the answer, or a receive. *)
Definition reply_sqe (n : connection) (outb : RingBuffer) (fork_hdr : option Msghdr) : sqe :=
  if 0 <? zlen (a_out (conn_abs n))
  then mkSqe (SqSendMsg (c_fd n) (Some (mkMsghdr Outbound (rb_r outb) (RingBuffer_Buffered outb)))) (Z.lor writeDataFlag (uint64 (c_key n))) false
  else mkSqe (SqRecvMsg (c_fd n) fork_hdr) (Z.lor readDataFlag (uint64 (c_key n))) false.

Section DatagramProofs.
Context {env : Env} {P : World -> Prop} `{!EnvLaws env P}.
Context (handler : EventHandler) (w : workerConf) (Hudp : w_sendRecvMsg w = true) (Hsync : w_asyncHandler w = false).

(** The end of the handler's turn. *)
Lemma wp_datagram_tail new s n outb hdr Q :
  user_ready P new s n -> c_closed n = false -> c_msgHdr n = Some hdr -> c_outbound n = Some outb ->
  zlen (a_in (conn_abs n)) + MinRead < 2 ^ 52 -> 0 < free_slots s ->
  (forall s' n', st_conns s' !! new = Some n' -> conn_abs n' = conn_abs n -> c_network n' = c_network n -> c_key n' = c_key n -> c_fd n' = c_fd n -> c_outbound n' = c_outbound n ->
     c_remoteAddr n' = c_remoteAddr n -> c_state n' = (if 0 <? zlen (a_out (conn_abs n)) then connWrite else connRead) -> conn_ok n' ->
     event_frame new s s' -> P (st_world s') -> st_log s' = st_log s -> st_sq s' = st_sq s ++ [reply_sqe n outb (Some hdr)] -> Q None s') ->
  wp (read_tail w new) Q s.
Proof.
  intros [Hn Hok _ HP] Hcl Hh Ho Hlen Hsq HQ. destruct Hok as (inb & outb1 & Hi & Ho1 & Hin & Hout) eqn:Hok0; clear Hok0.
  rewrite Ho in Ho1. injection Ho1 as <-. have HA : conn_abs n = mkA (contents inb) (contents outb) (c_closed n) (c_ctx n) by rewrite /conn_abs Hi Ho.
  destruct (buffer_addresses outb Hout) as [_ Hra].
  rewrite /read_tail /writeData /isClosed /when Hudp. wp_step. eapply wp_OutboundBuffered; [done|done|apply Hout|]. cbn beta.
  have Hbuf : zlen (a_out (conn_abs n)) = RingBuffer_Buffered outb by rewrite HA /= zlen_contents //; apply Hout.
  rewrite /reply_sqe in HQ. destruct (Z.ltb_spec 0 (zlen (a_out (conn_abs n)))) as [Hpos|Hz].
  - rewrite /setMsgHeaderWrite /outboundReadAddress. wp_steps. eapply wp_deref; [done|]. wp_steps. eapply wp_deref; [done|].
    eapply wp_lift; [done|]. wp_step. eapply wp_OutboundBuffered; [done|done|apply Hout|]. rewrite Hbuf. wp_steps.
    eapply wp_load; [by rewrite /= lookup_insert_eq|]. wp_steps. cbn [c_closed with_msgHdr]. rewrite Hcl.
    eapply wp_addWriteRequest; [by rewrite /= lookup_insert_eq|done|done|done|]. wp_steps.
    cbn [st_conns set_conns]. rewrite insert_insert_eq.
    eapply HQ; cbn [st_conns set_conns set_sq]; try (by rewrite lookup_insert_eq); try (by exists inb, outb); try done.
    + set (n' := writing _). exists n', (st_world s), (st_sq s ++ [write_sqe true (with_msgHdr (Some (mkMsghdr Outbound (rb_r outb) (RingBuffer_Buffered outb))) n) outb false]), (st_calls s), (st_log s).
      split; [done|]. by destruct s.
  - wp_steps. rewrite Hcl. eapply (wp_addReadRequest (P := P)); [done|done|done|done|by rewrite HA in Hlen|done|].
    intros inb' wd Hin' Hcont _ HPw. eapply HQ; cbn [st_conns set_conns set_sq set_world]; try (by rewrite lookup_insert_eq); try done.
    + by rewrite HA /conn_abs /= Ho Hcont.
    + by exists inb', outb.
    + set (n' := reading _ _). exists n', wd, (st_sq s ++ [read_sqe true n inb']), (st_calls s), (st_log s). split; [done|]. by destruct s.
    + by rewrite /read_sqe Hh.
Qed.

(** The listening connection: its receive header is the free space of its inbound
    buffer, which is empty. *)
Record main_ok (c : connection) (inb : RingBuffer) : Prop := {
  ma_state : c_state c = connRead;
  ma_inbound : c_inbound c = Some inb;
  ma_room : RingBuffer_Available inb = RingBuffer_Cap inb /\ MinRead <= RingBuffer_Available inb;
  ma_abs : conn_abs c = mkA [] [] false (c_ctx c);
  ma_hdr : c_msgHdr c = Some (mkMsghdr Inbound (rb_w inb) (RingBuffer_Cap inb));
  ma_raw : is_Some (c_rawSockaddr c)
}.

(** The listening connection hands the datagram over and listens again. *)
Definition handed_over (a : nat) (c : connection) (raw data : list byte) (new : nat) (n : connection) (s s' : St) : Prop :=
  let key := kp_nextKey (cm_keyPool (st_mgr s)) in
  managed (P := P) key new n s' /\ a <> new /\ (forall k, cm_connections (st_mgr s) !! k <> Some new) /\
  cm_connections (st_mgr s') = <[key := new]> (cm_connections (st_mgr s)) /\ kp_nextKey (cm_keyPool (st_mgr s')) = key + 1 /\
  (forall b, b <> a -> b <> new -> st_conns s' !! b = st_conns s !! b) /\
  conn_abs n = mkA data [] false None /\ c_network n = udp /\ c_fd n = c_fd c /\ (exists old, c_remoteAddr n = sender_addr raw old) /\
  (exists base, c_msgHdr n = Some (mkMsghdr Outbound base 0)) /\
  st_log s' = st_log s /\ st_sq_size s' = st_sq_size s /\
  exists c' inb, st_conns s' !! a = Some c' /\ main_ok c' inb /\ c_fd c' = c_fd c /\
    st_sq s' = st_sq s ++ [mkSqe (SqRecvMsg (c_fd c) (c_msgHdr c')) (Z.lor readDataFlag (uint64 (c_key c))) false].

Lemma wp_hand_over a c raw data s Q :
  managed (P := P) 1 a c s -> keys_below (st_mgr s) -> c_rawSockaddr c = Some raw -> is_Some (c_msgHdr c) ->
  a_in (conn_abs c) = data -> a_out (conn_abs c) = [] -> c_closed c = false -> c_state c = connRead -> 0 < free_slots s ->
  (forall new n s', handed_over a c raw data new n s s' -> Q (inl new) s') ->
  wp (forked ← connectionManager_fork a true;
      _ ← store forked (with_localAddr (w_localAddr w));
      err ← addReadRequest true a;
      match err with Some e => mret (inr e) | None => mret (inl forked) end) Q s.
Proof.
  intros Hman Hkeys Hraw Hh Hin Hout Hcl Hst Hsq HQ. have [Hm Hk Hc] := Hman. have [Hcok Hkey] := managed_ok _ _ _ _ Hman.
  destruct Hcok as (inb0 & outb0 & Hi0 & Ho0 & Hin0 & Hout0). rewrite /conn_abs Hi0 Ho0 /= in Hin Hout.
  wp_step. eapply (wp_fork (P := P)); [done..|].
  intros new s1 (Hm1 & (Hsq1 & Hsz1 & _ & Hl1 & _) & Hne & Hoth1 & Hnew1 & Hmap1 & _ & _ & Hnext1 & n & inb & outb & Hfr & Hn & Ha & Hci & Hco).
  wp_steps.
  set (n1 := with_localAddr (w_localAddr w) (take_over c n raw (kp_nextKey (cm_keyPool (st_mgr s))) true)). have [Hcap Hroom] := clean_room _ Hci.
  eapply (wp_addReadRequest_room true a _ (listening c inb outb) inb);
    [by rewrite /= lookup_insert_ne|done|by apply clean_buffer_ok|done|by rewrite /free_slots /= Hsz1 Hsq1|].
  wp_steps. apply (HQ new n1). set (c' := reading (listening c inb outb) inb).
  have Hk1 : cm_connections (st_mgr s1) !! 1 = Some a.
  { rewrite Hmap1 lookup_insert_ne //. destruct Hkeys as [? _]. lia. }
  have Hm2 : mgr_ok P (set_conns (<[new := n1]> (st_conns s1)) s1).
  { eapply (mgr_ok_update s1 _ (kp_nextKey (cm_keyPool (st_mgr s))) new _ n1 Hm1); [by rewrite Hmap1 lookup_insert_eq|done|done| |done..|apply (mo_mem _ _ Hm1)].
    exists inb0, outb0. rewrite /n1 /take_over Ho0. by split_and!. }
  destruct Hci as (Hci0 & Hci1 & Hci2 & _), Hco as (Hco0 & Hco1 & Hco2 & _). split_and!; try done.
  - split; cbn [st_mgr set_sq set_conns st_conns]; [|by rewrite Hmap1 lookup_insert_eq|by rewrite lookup_insert_ne // lookup_insert_eq].
    eapply (mgr_ok_event_frame _ _ 1 a (listening c inb outb) c'); [split; [exact Hm2|done|by rewrite /= lookup_insert_ne]| |by rewrite /= lookup_insert_eq| |done|apply (mo_mem _ _ Hm1)].
    + exists c', (st_world s1), (st_sq s1 ++ [read_sqe true (listening c inb outb) inb]), (st_calls s1), (st_log s1). split; [done|]. by destruct s1.
    + by exists inb, outb.
  - intros b Hb1 Hb2. rewrite /= !lookup_insert_ne //. by apply Hoth1.
  - rewrite /conn_abs /n1 /take_over Ho0 /= Hi0 /= Hin Hout. destruct Hfr as ((_ & _ & _ & _ & _ & -> & _ & _ & ->) & _). done.
  - exists (c_remoteAddr n). by rewrite /n1 /take_over Ho0.
  - exists (rb_r outb0). rewrite /n1 /take_over Ho0 /=. do 2 f_equal. rewrite -zlen_contents; [apply Hout0|]. by rewrite Hout.
  - exists c', inb. rewrite /= lookup_insert_eq. split_and!; try done; [|by rewrite Hsq1].
    split; try done. by rewrite /c' /conn_abs /= Hci1 Hco1 Hcl.
Qed.

(** The handler's turn on the connection of the datagram. *)
Lemma wp_datagram_handled key data new n base s Q :
  managed (P := P) key new n s -> conn_abs n = mkA data [] false None -> c_network n = udp ->
  c_msgHdr n = Some (mkMsghdr Outbound base 0) -> zlen data + MinRead < 2 ^ 52 -> 0 < free_slots s ->
  prog_valid udp (mkA data [] false None) (handler (st_log s) (CbRead new (zlen data))) ->
  (forall s' n' outb, managed (P := P) key new n' s' -> c_fd n' = c_fd n -> c_network n' = udp -> st_mgr s' = st_mgr s ->
     (forall b, b <> new -> st_conns s' !! b = st_conns s !! b) -> st_sq_size s' = st_sq_size s -> c_remoteAddr n' = c_remoteAddr n ->
     c_state n' = (if 0 <? zlen (a_out (conn_abs n')) then connWrite else connRead) ->
     st_log s' = st_log s ++ [CbRead new (zlen data)] -> c_outbound n' = Some outb ->
     prog_spec udp (mkA data [] false None) (handler (st_log s) (CbRead new (zlen data))) (conn_abs n') ->
     st_sq s' = st_sq s ++ [reply_sqe n' outb (Some (mkMsghdr Outbound base 0))] -> Q None s') ->
  wp (dispatch handler w new (zlen data)) Q s.
Proof.
  intros Hman HA Hnet Hh Hbig Hsq Hv HQ. have [Hm Hk Hn] := Hman. have [Hok _] := managed_ok _ _ _ _ Hman.
  rewrite /dispatch Hsync /work. wp_step. eapply (wp_callback (P := P)); [done|done|apply (mo_mem _ _ Hm)|by rewrite Hnet HA|].
  intros s1 n1 Hr1 (Hfd1 & Hkey1 & Hnet1 & _ & _ & Hh1 & _ & _ & Hrem1 & _) Hf1 Hl1 Hsq1 Hspec. rewrite Hnet HA in Hspec.
  have Hcl : a_closed (conn_abs n1) = false by apply prog_spec_udp_closed in Hspec.
  have Hin1 : zlen (a_in (conn_abs n1)) <= zlen data := prog_spec_in _ _ _ _ Hspec. have [Hn1 Hok1 _ _] := Hr1. destruct Hok1 as (inb1 & outb1 & Hi1 & Ho1 & _).
  eapply (wp_datagram_tail new s1 n1 outb1 (mkMsghdr Outbound base 0)); [done|exact Hcl|by rewrite Hh1|done|lia| |].
  { destruct Hf1 as (? & ? & ? & ? & ? & _ & ->). rewrite /free_slots /= in Hsq1 |- *. by rewrite Hsq1. }
  intros s2 n2 Hn2 HA2 Hnet2 Hkey2 Hfd2 Ho2 Hrem2 Hst2 Hok2 Hf2 HP2 Hl2 Hsq2.
  have Hf : event_frame new s s2 by eapply event_frame_trans.
  have Hmgr : st_mgr s2 = st_mgr s by destruct Hf as (? & ? & ? & ? & ? & _ & ->).
  apply (HQ s2 n2 outb1); try done.
  - split; [|by rewrite Hmgr|done]. eapply (mgr_ok_event_frame _ _ key new n n2 Hman Hf); try done. by rewrite Hkey2 Hkey1.
  - by rewrite Hfd2 Hfd1.
  - by rewrite Hnet2 Hnet1.
  - intros b Hb. destruct Hf as (? & ? & ? & ? & ? & _ & ->). by rewrite /= lookup_insert_ne.
  - by destruct Hf as (? & ? & ? & ? & ? & _ & ->).
  - by rewrite Hrem2 Hrem1.
  - by rewrite HA2.
  - by rewrite Hl2.
  - by rewrite Ho2.
  - by rewrite HA2.
  - rewrite Hsq2 Hsq1. do 2 f_equal. by rewrite /reply_sqe HA2 Hfd2 Hkey2.
Qed.

(** The connection of a datagram is left to wait for more: the handler is not called. *)
Lemma wp_datagram_waits key data new n base s Q :
  managed (P := P) key new n s -> conn_abs n = mkA data [] false None -> c_network n = udp ->
  c_msgHdr n = Some (mkMsghdr Outbound base 0) -> zlen data + MinRead < 2 ^ 52 -> 0 < free_slots s ->
  (forall s' n' outb, managed (P := P) key new n' s' -> c_fd n' = c_fd n -> c_network n' = udp -> st_mgr s' = st_mgr s ->
     (forall b, b <> new -> st_conns s' !! b = st_conns s !! b) -> st_sq_size s' = st_sq_size s -> c_remoteAddr n' = c_remoteAddr n ->
     c_state n' = connRead -> st_log s' = st_log s -> c_outbound n' = Some outb -> conn_abs n' = conn_abs n ->
     st_sq s' = st_sq s ++ [reply_sqe n' outb (Some (mkMsghdr Outbound base 0))] -> Q None s') ->
  wp (addReadRequest true new) Q s.
Proof.
  intros Hman HA Hnet Hh Hbig Hsq HQ. have [Hm Hk Hn] := Hman. have [Hok Hkey] := managed_ok _ _ _ _ Hman.
  destruct Hok as (inb & outb & Hi & Ho & Hin & Hout). have HA0 := HA. rewrite /conn_abs Hi Ho /= in HA0. injection HA0 as Hci Hco Hcl _.
  eapply (wp_addReadRequest (P := P)); [done|done|done|apply (mo_mem _ _ Hm)|by rewrite Hci|done|]. intros inb' wd Hin' Hcont _ HPw.
  set (n' := reading n inb'). set (s' := set_sq _ _).
  have Habs : conn_abs n' = conn_abs n by rewrite /conn_abs /= Hi Ho Hcont.
  have Hf : event_frame new s s' by exists n', wd, (st_sq s ++ [read_sqe true n inb']), (st_calls s), (st_log s); split; [done|]; by destruct s.
  apply (HQ s' n' outb); try done.
  - split; [|done|by rewrite /= lookup_insert_eq].
    eapply (mgr_ok_event_frame _ _ key new n n' Hman Hf); [by rewrite /= lookup_insert_eq|by exists inb', outb|done|done].
  - intros b Hb. by rewrite /= lookup_insert_ne.
  - by rewrite /= /reply_sqe Habs HA /= /read_sqe Hh.
Qed.

(** What the handler is told of a datagram and makes of it, when the completion says
    [more] datagrams are waiting and when it does not. *)
Definition told (more : bool) (b : nat) (n : Z) : list callback := if more then [] else [CbRead b n].
Definition turned (more : bool) (log : list callback) (b : nat) (data : list byte) (A : aconn) : Prop :=
  let A0 := mkA data [] false None in
  if more then A = A0 else prog_spec udp A0 (handler log (CbRead b (zlen data))) A.

Lemma wp_datagram_turn more key data new n base s Q :
  managed (P := P) key new n s -> conn_abs n = mkA data [] false None -> c_network n = udp ->
  c_msgHdr n = Some (mkMsghdr Outbound base 0) -> zlen data + MinRead < 2 ^ 52 -> 0 < free_slots s ->
  (more = false -> forall b, prog_valid udp (mkA data [] false None) (handler (st_log s) (CbRead b (zlen data)))) ->
  (forall s' n' outb, managed (P := P) key new n' s' -> c_fd n' = c_fd n -> c_network n' = udp -> st_mgr s' = st_mgr s ->
     (forall b, b <> new -> st_conns s' !! b = st_conns s !! b) -> st_sq_size s' = st_sq_size s -> c_remoteAddr n' = c_remoteAddr n ->
     c_state n' = (if 0 <? zlen (a_out (conn_abs n')) then connWrite else connRead) ->
     st_log s' = st_log s ++ told more new (zlen data) -> c_outbound n' = Some outb -> turned more (st_log s) new data (conn_abs n') ->
     st_sq s' = st_sq s ++ [reply_sqe n' outb (Some (mkMsghdr Outbound base 0))] -> Q None s') ->
  wp (if more then addReadRequest true new else dispatch handler w new (zlen data)) Q s.
Proof.
  intros Hman HA Hnet Hh Hbig Hsq Hv HQ. destruct more.
  - eapply wp_datagram_waits; [done..|]. intros s' n' outb Hm' Hfd Hnet' Hmgr Hoth Hsz Hrem Hst Hl Ho Habs Hq.
    eapply HQ; try done; rewrite ?Habs ?HA ?app_nil_r //. 
  - eapply wp_datagram_handled; [done..|by apply Hv|]. done.
Qed.

(** The kernel stores a datagram where the header says, with the address of its sender. *)
Definition kernel_recvmsg (a : nat) (raw data : list byte) : M () :=
  c ← load a;
  inb ← lift (deref (c_inbound c));
  match c_msgHdr c with
  | Some (mkMsghdr Inbound base len) =>
      if (base =? rb_w inb) && (zlen data <=? len) then _ ← store a (with_rawSockaddr (Some raw)); kernel_fill a data
      else lift (Panic PanicBounds)
  | _ => lift (Panic PanicBounds)
  end.

(** After a datagram: the socket listens again, and the datagram has a connection. *)
Record datagram_done (more : bool) (a : nat) (c : connection) (raw data : list byte) (key : Z) (new : nat) (n c' : connection) (s s' : St) : Prop := {
  dd_mgr : mgr_ok P s';
  dd_key : key = kp_nextKey (cm_keyPool (st_mgr s)) /\ kp_nextKey (cm_keyPool (st_mgr s')) = key + 1;
  dd_table : cm_connections (st_mgr s') = <[key := new]> (cm_connections (st_mgr s));
  dd_new k : cm_connections (st_mgr s) !! k <> Some new;
  dd_others b : b <> a -> b <> new -> st_conns s' !! b = st_conns s !! b;
  dd_main : st_conns s' !! a = Some c' /\ c_fd c' = c_fd c /\ exists inb, main_ok c' inb;
  dd_conn : st_conns s' !! new = Some n /\ c_key n = key /\ c_fd n = c_fd c /\ c_network n = udp;
  dd_sender : exists old, c_remoteAddr n = sender_addr raw old;
  dd_state : c_state n = (if 0 <? zlen (a_out (conn_abs n)) then connWrite else connRead);
  dd_log : st_log s' = st_log s ++ told more new (zlen data);
  dd_spec : turned more (st_log s) new data (conn_abs n);
  dd_size : st_sq_size s' = st_sq_size s;
  dd_queue : exists base outb, c_outbound n = Some outb /\
    st_sq s' = st_sq s ++ [mkSqe (SqRecvMsg (c_fd c) (c_msgHdr c')) (Z.lor readDataFlag (uint64 1)) false;
                           reply_sqe n outb (Some (mkMsghdr Outbound base 0))]
}.

Lemma wp_datagram more a c inb raw data s Q :
  managed (P := P) 1 a c s -> keys_below (st_mgr s) -> main_ok c inb -> 0 < zlen data <= RingBuffer_Cap inb ->
  zlen data + MinRead < 2 ^ 52 -> 1 < free_slots s ->
  (more = false -> forall b, prog_valid udp (mkA data [] false None) (handler (st_log s) (CbRead b (zlen data)))) ->
  (forall key new n c' s', datagram_done more a c raw data key new n c' s s' -> Q None s') ->
  wp (_ ← kernel_recvmsg a raw data; shard_event handler w (mkCqe (zlen data) (Z.lor readDataFlag (uint64 1)) more)) Q s.
Proof.
  intros Hman Hkeys [Hst Hi [Hcap Hroom] HA Hh Hraw] Hlen Hbig Hsq Hv HQ. have [Hm Hk Hc] := Hman. have [Hcok Hkey] := managed_ok _ _ _ _ Hman.
  destruct Hcok as (inb1 & outb & Hi1 & Ho & Hin & Hout). rewrite Hi in Hi1. injection Hi1 as <-.
  rewrite /conn_abs Hi Ho /= in HA. injection HA as Hci Hco Hcl. rewrite -Hcap in Hlen.
  rewrite /kernel_recvmsg. wp_steps. eapply wp_deref; [done|]. rewrite Hh Z.eqb_refl -Hcap. destruct (Z.leb_spec (zlen data) (RingBuffer_Available inb)); [|lia].
  cbn [andb]. wp_steps. set (c1 := with_rawSockaddr (Some raw) c).
  eapply (wp_kernel_fill a data _ c1 inb); [by rewrite /= lookup_insert_eq|done|done|lia|]. intros vm' inb' _ Hc' (inb2 & Hadv & Hin2 & Hcont). rewrite Hc' in Hcont.
  eapply wp_shard_event; [constructor|lia|lia|done|]. rewrite /handleConn. wp_step. eapply wp_load; [by rewrite /= lookup_insert_eq|].
  cbn beta. cbn [c_state with_inbound with_rawSockaddr c1]. rewrite Hst. wp_step. rewrite /onRead. cbn [cqe_Res cqe_nonempty].
  destruct (Z.leb_spec (zlen data) 0); [lia|]. rewrite Hudp.
  wp_step. eapply wp_on_inbound; [by rewrite /= lookup_insert_eq|done|by rewrite Hadv|]. wp_step. rewrite /=.
  set (c2 := with_inbound (Some inb2) (with_inbound (Some inb') c1)). set (s2 := set_world _ _).
  have Hf2 : event_frame a s s2.
  { exists c2, (st_world s), (st_sq s), (st_calls s), (st_log s). split; [done|]. rewrite /s2 /set_conns /= !insert_insert_eq. by destruct s. }
  have Hm2 : managed (P := P) 1 a c2 s2.
  { split; [|done|by rewrite /= lookup_insert_eq]. eapply (mgr_ok_event_frame _ _ 1 a c c2 Hman Hf2); [by rewrite /= lookup_insert_eq|by exists inb2, outb|done|apply (mo_mem _ _ Hm)]. }
  eapply (wp_hand_over a c2 raw data s2); [done|done|done|by rewrite /= Hh; eexists|by rewrite /conn_abs /= Hcont Hci|by rewrite /conn_abs /= Ho|done|done|simpl; rewrite /free_slots in Hsq |- *; simpl; lia|].
  intros new n s3 (Hm3 & Hne & Hnew & Hmap3 & Hnext3 & Hoth3 & HA3 & Hnet3 & Hfd3 & (old & Hrem3) & (base & Hh3) & Hl3 & Hsz3 & c3 & inb3 & Hc3 & Hmain & Hfdc3 & Hsq3).
  cbn beta iota. have [_ _ Hn3] := Hm3. rewrite /isClosed. wp_steps. have Hcl3 : c_closed n = false by move: (f_equal a_closed HA3).
  rewrite Hcl3 andb_true_r. eapply wp_datagram_turn; [done|done|done|done|done| |by rewrite Hl3|].
  { rewrite /free_slots Hsz3 Hsq3 zlen_app. change (zlen [_]) with 1. rewrite /free_slots in Hsq. simpl. lia. }
  intros s4 n4 outb4 Hm4 Hfd4 Hnet4 Hmgr4 Hoth4 Hsz4 Hrem4 Hst4 Hl4 Ho4 Hspec4 Hsq4. have [_ Hkey4] := managed_ok _ _ _ _ Hm4. have [Hmok4 _ Hn4] := Hm4.
  wp_steps. apply (HQ (kp_nextKey (cm_keyPool (st_mgr s))) new n4 c3). split; try done.
  - split; [done|]. by rewrite Hmgr4 Hnext3.
  - by rewrite Hmgr4 Hmap3.
  - intros b Hb1 Hb2. rewrite Hoth4 // Hoth3 // /= !lookup_insert_ne //.
  - rewrite Hoth4 //. split; [done|]. split; [by rewrite Hfdc3|by exists inb3].
  - split_and!; try done. by rewrite Hfd4 Hfd3.
  - exists old. by rewrite Hrem4.
  - by rewrite Hl4 Hl3.
  - by rewrite Hl3 in Hspec4.
  - by rewrite Hsz4 Hsz3.
  - exists base, outb4. split; [done|]. by rewrite Hsq4 Hsq3 -app_assoc /= Hkey.
Qed.

End DatagramProofs.

(** A datagram is answered on a connection of its own.  The receive request of the
    socket is queued again first; the handler finds exactly the received bytes under
    a key no connection had; its answer is queued as one message.  A handler that
    writes nothing leaves its connection listening too, with an empty buffer: the
    last request is a receive into a header of length 0. *)
Theorem datagram_served {env : Env} P `{!EnvLaws env P} handler w a c inb raw data s :
  w_sendRecvMsg w = true -> w_asyncHandler w = false ->
  managed (P := P) 1 a c s -> keys_below (st_mgr s) -> main_ok c inb ->
  0 < zlen data <= RingBuffer_Cap inb -> zlen data + MinRead < 2 ^ 52 -> 1 < free_slots s ->
  (forall b, prog_valid udp (mkA data [] false None) (handler (st_log s) (CbRead b (zlen data)))) ->
  wp (_ ← kernel_recvmsg a raw data; shard_event handler w (mkCqe (zlen data) (Z.lor readDataFlag (uint64 1)) false))
    (fun r s' => r = None /\ exists key new n c', datagram_done (P := P) handler false a c raw data key new n c' s s') s.
Proof.
  intros Hudp Hsync Hman Hkeys Hmain Hlen Hbig Hsq Hv. eapply (wp_datagram (P := P)); [done..|].
  intros key new n c' s' Hd. split; [done|]. by exists key, new, n, c'.
Qed.

Lemma datagram_served_witness :
  wp (_ ← kernel_recvmsg 0 [x01] [x05]; @shard_event demo_env answer_handler (mkConf 7 0 true false false 0 None)
        (mkCqe (zlen [x05]) (Z.lor readDataFlag (uint64 1)) false))
    (fun r s' => r = None /\ exists key new n c', @datagram_done demo_env exact_world answer_handler false 0 (datagram_conn 1) [x01] [x05] key new n c' datagram_state s') datagram_state.
Proof.
  apply (@datagram_served demo_env exact_world _ answer_handler (mkConf 7 0 true false false 0 None) 0 (datagram_conn 1) page_buffer [x01] [x05] datagram_state);
    [done|done|split; [apply datagram_state_ok|done|done]|apply datagram_keys_below| |done|done|done|].
  - by split; try done.
  - intros b. apply pv_op; [done|]. intros. apply pv_ret.
Defined.
