(* ===== verification/DatagramSession.v ===== *)
(** * DatagramSession: a datagram worker over many datagrams

    The abstract server is a set of connections, by key: for each its address, the
    sender, the data, and whether its answer is being sent.  The worker's events refine
    its steps: a datagram is handled on a connection of its own, and the connection is
    gone when its answer was sent.  A datagram that is not answered, or whose completion
    says that more datagrams are waiting (the handler is not called then), leaves its
    connection behind with a receive request of length 0. *)

From S2P Require Import Prelude Errors SyncPool VirtualMem MagicRing RingRefinement RingPool ByteSlicePool.
From S2P Require Import KeyPool Flags Submitter Sockaddr SocketOps GoState Conn ConnSpec ConnManager Worker.
From S2P Require Import WorkerSpec Looper ConsumerWorker StreamSpec ShardWorker ShardSpec DatagramSpec.
Local Open Scope Z_scope.

(** ** The abstract server *)

Record reply : Type := mkReply { re_addr : nat; re_to : option NetAddr; re_conn : aconn; re_sending : bool }.
Record dserver : Type := mkDserver { ds_log : list callback; ds_next : Z; ds_replies : gmap Z reply }.

(** A datagram with the raw address of its sender, and whether more are waiting; or the
    completion of an answer. *)
Inductive devent : Type := DRecv (raw data : list byte) (more : bool) | DSent (key n : Z).

Section Steps.
Context {env : Env} (handler : EventHandler) (fd : Z).

(** The entries an event queues: a receive for the socket and the answer as one message. *)
Definition recv_entry (e : sqe) : Prop :=
  exists base len, MinRead <= len /\ e = mkSqe (SqRecvMsg fd (Some (mkMsghdr Inbound base len))) (Z.lor readDataFlag (uint64 1)) false.
Definition send_entry (key len : Z) (e : sqe) : Prop :=
  exists base, e = mkSqe (SqSendMsg fd (Some (mkMsghdr Outbound base len))) (Z.lor writeDataFlag (uint64 key)) false.

Definition idle_entry (key : Z) (e : sqe) : Prop :=
  exists base, e = mkSqe (SqRecvMsg fd (Some (mkMsghdr Outbound base 0))) (Z.lor readDataFlag (uint64 key)) false.

(** The connection of the datagram has something to send. *)
Definition answered (A : aconn) : bool := 0 <? zlen (a_out A).
Definition reply_entry (key : Z) (A : aconn) (e : sqe) : Prop :=
  if answered A then send_entry key (zlen (a_out A)) e else idle_entry key e.

Inductive dserve (D : dserver) : devent -> list sqe -> dserver -> Prop :=
| dv_recv raw data n a old A e1 e2 :
    ds_replies D !! ds_next D = None -> (forall k r, ds_replies D !! k = Some r -> re_addr r <> a) -> fits data n ->
    prog_spec udp (mkA (take (Z.to_nat n) data) [] false None) (handler (ds_log D) (CbRead a n)) A ->
    recv_entry e1 -> reply_entry (ds_next D) A e2 ->
    dserve D (DRecv raw data false) [e1; e2]
      (mkDserver (ds_log D ++ [CbRead a n]) (ds_next D + 1)
         (<[ds_next D := mkReply a (sender_addr raw old) A (answered A)]> (ds_replies D)))
| dv_waits raw data n a old e1 e2 :
    ds_replies D !! ds_next D = None -> (forall k r, ds_replies D !! k = Some r -> re_addr r <> a) -> fits data n ->
    recv_entry e1 -> idle_entry (ds_next D) e2 ->
    dserve D (DRecv raw data true) [e1; e2]
      (mkDserver (ds_log D) (ds_next D + 1)
         (<[ds_next D := mkReply a (sender_addr raw old) (mkA (take (Z.to_nat n) data) [] false None) false]> (ds_replies D)))
| dv_sent key r n A :
    ds_replies D !! key = Some r -> re_sending r = true -> 0 <= n <= zlen (a_out (re_conn r)) ->
    prog_spec udp (sent_abs (re_conn r) n) (handler (ds_log D) (CbWrite (re_addr r) n)) A ->
    dserve D (DSent key n) [] (mkDserver (ds_log D ++ [CbWrite (re_addr r) n]) (ds_next D) (delete key (ds_replies D))).

Inductive dserves : dserver -> list devent -> list (list sqe) -> dserver -> Prop :=
| dvs_nil D : dserves D [] [] D
| dvs_cons D ev es D1 evs ess D2 : dserve D ev es D1 -> dserves D1 evs ess D2 -> dserves D (ev :: evs) (es :: ess) D2.

(** The handler keeps to the bounds; no datagram is empty; completions are for answers
    that are being sent. *)
Definition dvalid (D : dserver) (ev : devent) : Prop :=
  match ev with
  | DRecv raw data more => 0 < zlen data /\ zlen data + MinRead < 2 ^ 52 /\ (more = false -> forall n b, fits data n ->
      prog_valid udp (mkA (take (Z.to_nat n) data) [] false None) (handler (ds_log D) (CbRead b n)))
  | DSent key n => exists r, ds_replies D !! key = Some r /\ re_sending r = true /\ 0 <= n <= zlen (a_out (re_conn r)) /\
      prog_valid udp (sent_abs (re_conn r) n) (handler (ds_log D) (CbWrite (re_addr r) n))
  end.

Fixpoint dtrace_valid (D : dserver) (evs : list devent) : Prop :=
  match evs with [] => True | ev :: evs => dvalid D ev /\ forall es D', dserve D ev es D' -> dtrace_valid D' evs end.

End Steps.

(** ** The worker *)

Section Sessions.
Context {env : Env} {P : World -> Prop} `{!EnvLaws env P}.
Context (handler : EventHandler) (w : workerConf) (Hudp : w_sendRecvMsg w = true) (Hsync : w_asyncHandler w = false).

(** The ring takes the queued entries and completes a request; a datagram that is too
    long for its buffer is cut.  The result is what the event queued. *)
Definition datagram_event (a : nat) (ev : devent) : M (list sqe) :=
  _ ← modify (set_sq []);
  _ ← match ev with
      | DRecv raw data more =>
          c ← load a;
          inb ← lift (deref (c_inbound c));
          let data := take (Z.to_nat (RingBuffer_Cap inb)) data in
          _ ← kernel_recvmsg a raw data;
          shard_event handler w (mkCqe (zlen data) (Z.lor readDataFlag (uint64 1)) more)
      | DSent key n => shard_event handler w (mkCqe n (Z.lor writeDataFlag (uint64 key)) false)
      end;
  s ← get_state;
  mret (st_sq s).

Fixpoint run_datagrams (a : nat) (evs : list devent) : M (list (list sqe)) :=
  match evs with
  | [] => mret []
  | ev :: evs => es ← datagram_event a ev; ess ← run_datagrams a evs; mret (es :: ess)
  end.

(** The worker with listening connection [a] on the socket [fd] is the server [D]. *)
Record dgram_rel (fd : Z) (a : nat) (s : St) (D : dserver) : Prop := {
  dr_mgr : mgr_ok P s;
  dr_keys : keys_below (st_mgr s);
  dr_next : kp_nextKey (cm_keyPool (st_mgr s)) = ds_next D;
  dr_log : st_log s = ds_log D;
  dr_main : exists c inb, st_conns s !! a = Some c /\ main_ok c inb /\ c_fd c = fd;
  dr_table : cm_connections (st_mgr s) = <[1 := a]> (re_addr <$> ds_replies D);
  dr_one : ds_replies D !! 1 = None;
  dr_room : 2 <= st_sq_size s;
  dr_reply k r : ds_replies D !! k = Some r -> exists n, st_conns s !! re_addr r = Some n /\ c_network n = udp /\
    c_state n = (if re_sending r then connWrite else connRead) /\ conn_abs n = re_conn r /\ c_remoteAddr n = re_to r
}.

Lemma dgram_addr fd a s D k r :
  dgram_rel fd a s D -> ds_replies D !! k = Some r -> k <> 1 /\ cm_connections (st_mgr s) !! k = Some (re_addr r).
Proof.
  intros Hr Hk. have Hne : k <> 1 by intros ->; rewrite (dr_one _ _ _ _ Hr) in Hk. split; [done|].
  by rewrite (dr_table _ _ _ _ Hr) lookup_insert_ne // lookup_fmap Hk.
Qed.

Lemma key_inj s k1 k2 a :
  mgr_ok P s -> cm_connections (st_mgr s) !! k1 = Some a -> cm_connections (st_mgr s) !! k2 = Some a -> k1 = k2.
Proof.
  intros Hm H1 H2. destruct (mo_conn _ _ Hm _ _ H1) as (c1 & Hc1 & _ & <-), (mo_conn _ _ Hm _ _ H2) as (c2 & Hc2 & _ & <-). congruence.
Qed.

Lemma dgram_submit fd a s D : dgram_rel fd a s D -> dgram_rel fd a (set_sq [] s) D /\ 1 < free_slots (set_sq [] s).
Proof.
  intros [Hm Hk Hnk Hl Hmain Htab Hone Hroom Hrep]. split; [|rewrite /free_slots /= /zlen /=; lia]. split; try done. by destruct Hm; split.
Qed.

(** A datagram arrives. *)
Lemma dgram_recv fd a s D raw data more :
  dgram_rel fd a s D -> dvalid handler D (DRecv raw data more) -> ds_next D + 1 < 2 ^ 63 ->
  wp (datagram_event a (DRecv raw data more)) (fun es s' => exists D', dserve handler fd D (DRecv raw data more) es D' /\ dgram_rel fd a s' D') s.
Proof.
  intros Hr0 (Hpos & Hbig & Hv) Hnext. destruct (dgram_submit _ _ _ _ Hr0) as [Hr Hsq].
  rewrite /datagram_event. wp_step. wp_step. set (s0 := set_sq [] s) in *.
  destruct Hr as [Hm Hkeys Hkn Hl (c & inb & Hc & Hmain & Hfd) Htab Hone Hroom Hrep] eqn:Hr1; clear Hr1. have [Hst Hi [Hcap Hav] _ _ _] := Hmain.
  wp_step. wp_step. eapply wp_load; [done|]. wp_steps. eapply wp_deref; [done|]. cbn beta. set (d := take _ data).
  have Hd : zlen d = Z.min (RingBuffer_Cap inb) (zlen data) by rewrite /d /zlen length_take; rewrite /MinRead /zlen in Hav Hcap |- *; lia.
  have Hdt : take (Z.to_nat (zlen d)) data = d.
  { rewrite Hd /d. destruct (decide (RingBuffer_Cap inb <= zlen data)); [by rewrite Z.min_l|].
    rewrite Z.min_r; [lia|]. rewrite !take_ge //; rewrite /zlen in n |- *; lia. }
  have Hfits : fits data (zlen d) by rewrite /fits /MinRead in Hav |- *; lia.
  have Hk1 : cm_connections (st_mgr s0) !! 1 = Some a by rewrite Htab lookup_insert_eq.
  have Hfree : ds_replies D !! ds_next D = None.
  { destruct (ds_replies D !! ds_next D) as [r|] eqn:Hr1; [|done]. destruct (dgram_addr _ _ _ _ _ _ Hr Hr1) as [_ Hk]. have := proj2 Hkeys (ds_next D) ltac:(by eexists). lia. }
  eapply (wp_datagram (P := P) handler w Hudp Hsync more a c inb raw d s0); [by split|done|done|rewrite /MinRead in Hav; lia|lia|done| |].
  { intros Hmore b. rewrite Hl -{1}Hdt. by apply Hv. }
  intros key new n c' s' [Hm' [Hkey Hnx] Htab' Hnew Hoth (Hc' & Hfd' & inb' & Hmain') (Hn & Hnk & Hnf & Hnn) (old & Hrem) Hns Hl' Hspec Hsz (base & outb & Ho & Hq)].
  rewrite Hkn in Hkey. symmetry in Hkey. destruct Hkey. rewrite Hl in Hspec, Hl'. cbn beta. wp_steps.
  have Hkne : ds_next D <> 1 by have := proj1 Hkeys; lia.
  have Hra k r : ds_replies D !! k = Some r -> re_addr r <> new.
  { intros Hk Heq. apply (Hnew k). rewrite -Heq. by apply (dgram_addr _ _ _ _ _ _ Hr Hk). }
  have He1 : recv_entry fd (mkSqe (SqRecvMsg (c_fd c) (c_msgHdr c')) (Z.lor readDataFlag (uint64 1)) false).
  { rewrite (ma_hdr _ _ Hmain') Hfd. exists (rb_w inb'), (RingBuffer_Cap inb'). split; [|done]. destruct (ma_room _ _ Hmain') as [<- ?]. done. }
  have He2 : reply_entry fd (ds_next D) (conn_abs n) (reply_sqe n outb (Some (mkMsghdr Outbound base 0))).
  { rewrite /reply_entry /answered /reply_sqe Hnk Hnf Hfd. destruct (0 <? zlen (a_out (conn_abs n))); [|by exists base].
    exists (rb_r outb). do 3 f_equal. have Hman : managed (P := P) (ds_next D) new n s' by split; [done|by rewrite Htab' lookup_insert_eq|done].
    have [Hok _] := managed_ok _ _ _ _ Hman. destruct Hok as (i1 & o1 & Hi1 & Ho1 & _ & Hob & _). rewrite Ho in Ho1. injection Ho1 as <-.
    rewrite /conn_abs Hi1 Ho /= zlen_contents //. }
  exists (mkDserver (st_log s') (ds_next D + 1) (<[ds_next D := mkReply new (sender_addr raw old) (conn_abs n) (answered (conn_abs n))]> (ds_replies D))). split.
  - rewrite Hq Hl' /=. destruct more; simpl in Hspec.
    + rewrite /told app_nil_r Hspec. rewrite Hspec in He2. rewrite -Hdt. by eapply dv_waits.
    + eapply (dv_recv handler fd D raw data (zlen d) new old (conn_abs n)); try done. by rewrite Hdt.
  - split; cbn [ds_log ds_replies]; try done.
    + destruct Hkeys as [Hn0 Hb]. rewrite Hkn in Hn0, Hb. split; [lia|]. intros k Hk. rewrite Htab' in Hk. rewrite Hnx.
      apply lookup_insert_is_Some in Hk as [<-|[_ Hk]]; [lia|]. have := Hb k Hk. lia.
    + exists c', inb'. by rewrite Hfd'.
    + rewrite Htab' Htab fmap_insert insert_insert_ne //.
    + by rewrite lookup_insert_ne.
    + by rewrite Hsz.
    + intros k r [[<- <-]|[Hne Hk]]%lookup_insert_Some; [by exists n|]. destruct (Hrep _ _ Hk) as (n1 & Hn1 & Hrest). exists n1. split; [|done].
      rewrite Hoth //; [|by apply (Hra k)]. intros Heq. destruct (dgram_addr _ _ _ _ _ _ Hr Hk) as [Hk1' Hka]. apply Hk1', (key_inj s0 k 1 a); [done|by rewrite -Heq|done].
Qed.

(** An answer was sent: the handler is told, and the connection is gone. *)
Lemma dgram_sent fd a s D key n :
  dgram_rel fd a s D -> dvalid handler D (DSent key n) -> ds_next D <= 2 ^ 59 ->
  wp (datagram_event a (DSent key n)) (fun es s' => exists D', dserve handler fd D (DSent key n) es D' /\ dgram_rel fd a s' D') s.
Proof.
  intros Hr0 (r & Hk & Hsend & Hn & Hv) Hlt. destruct (dgram_submit _ _ _ _ Hr0) as [Hr Hsq].
  rewrite /datagram_event. wp_step. wp_step. set (s0 := set_sq [] s) in *. destruct (dgram_addr _ _ _ _ _ _ Hr Hk) as [Hk1 Hka].
  destruct Hr as [Hm Hkeys Hkn Hl (c & inb & Hc & Hmain & Hfd) Htab Hone Hroom Hrep] eqn:Hr1; clear Hr1.
  destruct (Hrep _ _ Hk) as (cn & Hcn & Hnet & Hst & Habs & Hto). rewrite Hsend in Hst. have Hkr := proj2 Hkeys key ltac:(by eexists).
  have Hman : managed (P := P) key (re_addr r) cn s0 by split. have [Hok Hckey] := managed_ok _ _ _ _ Hman.
  destruct Hok as (i1 & outb & Hi1 & Ho & _ & Hob & Hal). have Hbuf : zlen (a_out (re_conn r)) = RingBuffer_Buffered outb by rewrite -Habs /conn_abs Hi1 Ho /= zlen_contents.
  wp_step. eapply wp_shard_key_event; [constructor| |lia|done|].
  { lia. }
  rewrite /handleConn. wp_step. eapply wp_load; [done|]. cbn beta. rewrite Hst.
  have Hk1b : (c_key cn =? 1) = false by apply Z.eqb_neq; congruence. rewrite /connectionProtocol Hudp Hk1b. cbn [negb andb cqe_Res]. wp_step. wp_step.
  eapply (wp_onWritten (P := P)); [exact Hman|exact Ho|by rewrite -Hbuf|by rewrite Habs Hnet Hl|].
  intros s1 c1 [Hc1 Hok1 _ HP1] Hfd1 Hkey1 Hnet1 Hst1 _ Hf1 Hl1 Hq1 Hspec. rewrite Habs Hnet Hl in Hspec.
  have Hm1 : mgr_ok P s1 by eapply (mgr_ok_event_frame s0 s1 key (re_addr r) cn c1); try done; congruence.
  destruct Hf1 as (cx & wx & qx & tx & lx & _ & Hs1). have Hmgr1 : st_mgr s1 = st_mgr s0 by rewrite Hs1.
  wp_steps. rewrite Hkey1. eapply (wp_release_known (P := P)); [done|by rewrite Hmgr1|].
  intros s2 (Hm2 & (Hq2 & Hz2 & _ & Hl2 & _) & Hoth2 & _ & _ & Hcm2 & _ & _ & Hkp2). wp_steps.
  have Hq : st_sq s2 = [] by rewrite Hq2 Hq1. have Hkeys2 : kp_nextKey (cm_keyPool (st_mgr s2)) = kp_nextKey (cm_keyPool (st_mgr s0)) by rewrite Hkp2 Hmgr1.
  have Hoth k b : k <> key -> cm_connections (st_mgr s0) !! k = Some b -> st_conns s2 !! b = st_conns s0 !! b.
  { intros Hne Hb. have Hbr : b <> re_addr r by intros ->; apply Hne, (key_inj s0 k key (re_addr r)). by rewrite Hoth2 // Hs1 /= lookup_insert_ne. }
  rewrite Hq. eexists. split; [by eapply (dv_sent handler fd D key r n)|]. split; cbn [ds_log ds_replies]; try done.
  - destruct Hkeys as [Hn0 Hb]. rewrite /keys_below Hkeys2. split; [done|]. intros k Hk2. apply Hb. rewrite Hcm2 Hmgr1 in Hk2.
    by apply lookup_delete_is_Some in Hk2 as [_ ?].
  - by rewrite Hkeys2.
  - by rewrite Hl2 Hl1 Hl.
  - exists c, inb. rewrite (Hoth 1) //. by rewrite Htab lookup_insert_eq.
  - rewrite Hcm2 Hmgr1 Htab delete_insert_ne // fmap_delete //.
  - by rewrite lookup_delete_ne.
  - by rewrite Hz2 Hs1.
  - intros k r1 [Hne Hk2]%lookup_delete_Some. destruct (Hrep _ _ Hk2) as (n1 & Hn1 & Hrest). exists n1. split; [|done].
    rewrite (Hoth k) //. by eapply (dgram_addr fd a s0 D).
Qed.

Lemma run_datagrams_ok fd a s D evs :
  dgram_rel fd a s D -> dtrace_valid handler fd D evs -> ds_next D + zlen evs < 2 ^ 59 ->
  wp (run_datagrams a evs) (fun ess s' => exists D', dserves handler fd D evs ess D' /\ dgram_rel fd a s' D') s.
Proof.
  revert s D. induction evs as [|ev evs IH]; intros s D Hr Hv Hnext; [wp_steps; exists D; split; [constructor|done]|].
  destruct Hv as [Hv Hv1]. have Hz : zlen (ev :: evs) = zlen evs + 1 by rewrite /zlen /=; lia.
  have Hz0 := zlen_nonneg evs. rewrite Hz in Hnext. cbn [run_datagrams]. wp_step.
  have Hstep : wp (datagram_event a ev) (fun es s' => exists D', dserve handler fd D ev es D' /\ dgram_rel fd a s' D') s.
  { destruct ev as [raw data more|key n]; [apply dgram_recv; [done|done|lia]|apply dgram_sent; [done|done|lia]]. }
  eapply wp_mono; [exact Hstep|]. intros es s1 (D1 & Hs1 & Hr1). cbn beta. wp_step.
  have Hn1 : ds_next D1 <= ds_next D + 1 by inversion Hs1; subst; simpl; lia.
  eapply wp_mono; [apply (IH s1 D1); [done|by eapply Hv1|lia]|]. intros ess s2 (D2 & Hs2 & Hr2). wp_steps.
  exists D2. split; [by econstructor|done].
Qed.

End Sessions.

(** C7. A datagram worker handles every datagram on a connection of its own: for any
    sequence of non-empty datagrams, answered or not, whose completions say that more are
    waiting or not, and of completed answers, with any number of connections under way,
    the worker does exactly the steps of the abstract server.  A datagram reaches the
    handler on a new connection with the address of its sender and nothing but its bytes,
    cut to the length of the buffer, unless its completion says that more are
    waiting: then the handler is not called.  The socket's receive is queued again with a
    header that describes a free buffer, an answer is queued as one message of
    exactly the bytes written, and its connection is gone when it was sent; every other
    connection is left with a receive of length 0.  Conditions: handlers run in the loop,
    do not panic and keep buffers below [2^52] bytes; fewer than [2^59] keys; the memory
    pool answers a request with nil or a memory of the size asked for.  Not covered: empty
    datagrams ([empty_datagram_stops_worker]) and completions of the receives of length 0
    ([idle_receive_shuts_socket]). *)
Theorem datagram_session_refines {env : Env} P `{!EnvLaws env P} handler w fd a s D evs :
  w_sendRecvMsg w = true -> w_asyncHandler w = false -> dgram_rel (P := P) fd a s D -> dtrace_valid handler fd D evs ->
  ds_next D + zlen evs < 2 ^ 59 ->
  wp (run_datagrams handler w a evs) (fun ess s' => exists D', dserves handler fd D evs ess D' /\ dgram_rel (P := P) fd a s' D') s.
Proof. intros Hudp Hsync Hr Hv Hn. by apply (run_datagrams_ok (P := P)). Qed.

(** *** A worker with two answers under way *)

Definition dgram_state : St :=
  mkSt {[0%nat := datagram_conn 1]} 1 NewPool (@NewRingBufferPool linux_x86_64) empty_world
    NewByteSlicePool [] [] 16 [] []
    (mkManager {[1 := 0%nat]} 1 false ∅ (mkKeyPool (stk_new (StackApi := lock_free_stack_api 0)) 2)) [] []
    (mkVars true [] false false false 0 ∅ None true).

Lemma dgram_state_rel : dgram_rel (P := exact_world) 7 0 dgram_state (mkDserver [] 2 ∅).
Proof.
  split; try done.
  - split; try done; cbn [dgram_state st_mgr cm_connections st_conns st_connPool internalPool NewPool st_new].
    + split_and!; [apply empty_world_exact|apply new_ring_pool_ok|apply slice_pool_new].
    + intros k a [<- <-]%lookup_singleton_Some. exists (datagram_conn 1). split; [done|]. split; [apply datagram_conn_ok|done].
    + intros a ?%not_elem_of_nil. done.
    + constructor.
    + intros k a _ ?%not_elem_of_nil. done.
    + intros a [c [<- _]%lookup_singleton_Some]. lia.
    + exists []. split; [apply seq_new_ok|constructor].
  - split; [simpl; lia|]. cbn [st_mgr dgram_state cm_connections]. intros k [a [<- _]%lookup_singleton_Some]; simpl; lia.
  - exists (datagram_conn 1), page_buffer. split; [done|]. by split; try done.
Qed.

Lemma answer_dvalid D raw data more : 0 < zlen data -> zlen data + MinRead < 2 ^ 52 -> dvalid answer_handler D (DRecv raw data more).
Proof. intros H1 H2. split; [done|]. split; [done|]. intros _ n b Hn. apply pv_op; [done|]. intros. apply pv_ret. Qed.

(** The second datagram of three is not the last that waits. *)
Definition demo_datagrams : list devent :=
  [DRecv [x01] [x05] false; DRecv [x01] [x06] true; DRecv [x01] [x07] false; DSent 2 2; DSent 4 2].

Lemma datagram_session_refines_witness :
  wp (@run_datagrams demo_env answer_handler (mkConf 7 0 true false false 0 None) 0 demo_datagrams)
    (fun ess s' => exists D', @dserves demo_env answer_handler 7 (mkDserver [] 2 ∅) demo_datagrams ess D' /\ dgram_rel (P := exact_world) 7 0 s' D') dgram_state.
Proof.
  apply (@datagram_session_refines demo_env exact_world _ answer_handler (mkConf 7 0 true false false 0 None) 7 0 dgram_state
           (mkDserver [] 2 ∅)); [done|done|apply dgram_state_rel| |done].
  split; [exact (answer_dvalid (mkDserver [] 2 ∅) [x01] [x05] false eq_refl eq_refl)|]. intros es1 D1 Hd1. inversion Hd1 as [? ? n1 a1 old1 A1 ? ? _ _ _ Hs1| |]; subst. clear Hd1.
  apply answer_spec in Hs1; [|done]. subst A1. simpl.
  split; [exact (answer_dvalid (mkDserver [] 2 ∅) [x01] [x06] true eq_refl eq_refl)|]. intros es2 D2 Hd2. inversion Hd2; subst. clear Hd2. simpl.
  split; [exact (answer_dvalid (mkDserver [] 2 ∅) [x01] [x07] false eq_refl eq_refl)|]. intros es3 D3 Hd3. inversion Hd3 as [? ? n3 a3 old3 A3 ? ? _ _ _ Hs3| |]; subst. clear Hd3.
  apply answer_spec in Hs3; [|done]. subst A3. simpl.
  split; [eexists; split; [reflexivity|]; split; [done|]; split; [done|apply pv_ret]|]. intros es4 D4 Hd4. inversion Hd4; subst. simpl.
  split; [|done]. eexists. split; [reflexivity|]. split; [done|]. split; [done|apply pv_ret].
Defined.

(** The connection of a datagram that was left waiting, and the completion of its
    receive. *)
Definition idle_run : outcome (option error * St) :=
  (_ ← @run_datagrams demo_env answer_handler (mkConf 7 0 true false false 0 None) 0 [DRecv [x01] [x06] true];
   @shard_event demo_env answer_handler (mkConf 7 0 true false false 0 None) (mkCqe 0 (Z.lor readDataFlag (uint64 2)) false)) dgram_state.

(** The connection a datagram was left on still has a receive, of length 0, for the socket
    of the worker: the next datagram that completes it is lost, and the worker closes
    the connection like a stream that has ended, which shuts down the socket all its
    clients share. *)
Theorem idle_receive_shuts_socket :
  match idle_run with
  | Ret (r, s') => r = None /\ st_log s' = [CbClose 1 (Some IoEOF)] /\ CShutdown 7 SHUT_RDWR ∈ st_calls s'
  | Panic _ => False
  end.
Proof.
  have H : (match idle_run with Ret (None, s') => Some (st_log s', st_calls s') | _ => None end)
    = Some ([CbClose 1 (Some IoEOF)], [CShutdown 7 SHUT_RDWR]) by vm_compute; reflexivity.
  destruct idle_run as [[[e|] s']|]; [discriminate|injection H as -> ->|discriminate]. split; [done|]. split; [done|by left].
Qed.
