(* ===== verification/AsyncSpec.v ===== *)
(** * AsyncSpec: handlers in goroutines

    With [asyncHandler] a received message is handled in a goroutine, which leaves the
    connection in a queue; the worker's loop then makes the request the handler's
    result asks for.  The connection ends up as if the handler had run at once. *)

From S2P Require Import Prelude Errors SyncPool VirtualMem MagicRing RingRefinement RingPool ByteSlicePool.
From S2P Require Import KeyPool Flags Submitter Sockaddr SocketOps GoState Conn ConnSpec ConnManager Worker.
From S2P Require Import WorkerSpec Looper ConsumerWorker StreamSpec ShardWorker ShardSpec.
Local Open Scope Z_scope.

(** The operation [doAsyncWork] chooses. *)
Definition async_op (A : aconn) : asyncOp :=
  if 0 <? zlen (a_out A) then writeOp else if a_closed A then closeOp else readOp.

(** The goroutine of the first job runs. *)
Definition run_job {env : Env} (handler : EventHandler) : M () :=
  s ← get_state;
  match st_asyncJobs s with
  | [] => mret ()
  | (a, n) :: jobs => _ ← modify (set_asyncJobs jobs); doAsyncWork handler a n
  end.

Section AsyncProofs.
Context {env : Env} {P : World -> Prop} `{!EnvLaws env P}.
Context (handler : EventHandler) (w : workerConf) (Htcp : w_sendRecvMsg w = false).

(** The loop queues the same requests as the synchronous path. *)
Lemma settle_async a s c :
  st_conns s !! a = Some c -> conn_ok c -> P (st_world s) -> c_nextAsyncOp c = async_op (conn_abs c) ->
  zlen (a_in (conn_abs c)) + MinRead < 2 ^ 52 -> 1 < free_slots s ->
  wp (handleAsyncOp w a) (fun _ s' => settled (P := P) a c s s') s.
Proof.
  intros Hc Hok HP Hop Hlen Hsq. rewrite /handleAsyncOp /isClosed /when Htcp. wp_steps. rewrite Hop /async_op.
  destruct (Z.ltb_spec 0 (zlen (a_out (conn_abs c)))) as [Hpos|Hz].
  { wp_steps. eapply wp_mono; [by apply (settle_write (P := P))|]. intros err s1 [-> Hnext]. cbn beta iota.
    destruct (c_closed c); [|by wp_steps]. wp_step. eapply wp_mono; [exact Hnext|]. intros r s2 [-> Hs]. by wp_steps. }
  have Hempty : a_out (conn_abs c) = [] by apply zlen_nil_inv; pose proof (zlen_nonneg (a_out (conn_abs c))); lia.
  change (a_closed (conn_abs c)) with (c_closed c). destruct (c_closed c) eqn:Hcl; wp_step.
  - eapply wp_mono; [apply (settle_close (P := P)); (done || lia)|]. intros r s' [-> Hs]. by wp_steps.
  - eapply wp_mono; [apply (settle_read (P := P)); (done || lia)|]. intros r s' [-> Hs]. by wp_steps.
Qed.

(** The goroutine: the handler has run, and the connection is in the queue. *)
Lemma wp_doAsyncWork a n s c Q :
  st_conns s !! a = Some c -> conn_ok c -> P (st_world s) ->
  prog_valid (c_network c) (conn_abs c) (handler (st_log s) (CbRead a n)) ->
  (forall s3 c3, user_ready P a s3 c3 -> same_identity (with_mode userSpace c) c3 -> event_frame a s s3 ->
     st_log s3 = st_log s ++ [CbRead a n] -> st_sq s3 = st_sq s ->
     prog_spec (c_network c) (conn_abs c) (handler (st_log s) (CbRead a n)) (conn_abs c3) ->
     Q () (set_asyncQueue (st_asyncQueue s3 ++ [a])
             (set_conns (<[a := with_nextAsyncOp (async_op (conn_abs c3)) c3]> (st_conns s3)) s3))) ->
  wp (doAsyncWork handler a n) Q s.
Proof.
  intros Hc Hok HP Hv HQ. rewrite /doAsyncWork /work. wp_step.
  apply (wp_callback (P := P) handler a (CbRead a n) s c); [done..|]. intros s3 c3 Hr3 Hid Hf3 Hl3 Hq3 Hspec3.
  have [Hc3 Hok3 _ HP3] := Hr3. destruct Hok3 as (inb & outb & Hi & Ho & Hin & Hout). rewrite /isClosed. wp_step.
  eapply wp_OutboundBuffered; [done|done|apply Hout|]. wp_steps. by apply (HQ s3 c3).
Qed.

(** *** The queue *)

(** A connection the goroutine has left. *)
Record async_ready (s : St) (a : nat) (c : connection) : Prop := {
  ar_conn : st_conns s !! a = Some c;
  ar_ok : conn_ok c;
  ar_op : c_nextAsyncOp c = async_op (conn_abs c);
  ar_len : zlen (a_in (conn_abs c)) + MinRead < 2 ^ 52
}.

(** What the loop leaves of a connection. *)
Definition async_settled (c c' : connection) (sqes : list sqe) : Prop :=
  conn_abs c' = conn_abs c /\ c_fd c' = c_fd c /\ c_state c' = next_state (conn_abs c) /\
  Forall2 (sqe_for c') (next_reqs (conn_abs c)) sqes.

Lemma next_reqs_length A : (length (next_reqs A) <= 2)%nat.
Proof. rewrite /next_reqs. destruct (0 <? zlen (a_out A)), (a_closed A); simpl; lia. Qed.

Lemma handleAsyncWrites_ok q cs fuel s :
  st_asyncQueue s = q -> NoDup q -> Forall2 (async_ready s) q cs -> P (st_world s) ->
  (length q < fuel)%nat -> 2 * zlen q <= free_slots s ->
  wp (handleAsyncWrites w fuel) (fun r s' => r = Some () /\ st_asyncQueue s' = [] /\ st_log s' = st_log s /\
    exists sqes, st_sq s' = st_sq s ++ concat sqes /\
      Forall2 (fun '(a, c) l => exists c', st_conns s' !! a = Some c' /\ async_settled c c' l) (zip q cs) sqes /\
      (forall b, b ∉ q -> st_conns s' !! b = st_conns s !! b)) s.
Proof.
  revert cs fuel s. induction q as [|a q IH]; intros cs fuel s Hq Hnd Hall HP Hfuel Hsq;
    (destruct fuel as [|fuel]; [simpl in Hfuel; lia|]); cbn [handleAsyncWrites]; wp_steps; rewrite Hq.
  { wp_steps. split_and!; try done. exists []. rewrite app_nil_r. split_and!; [done|constructor|done]. }
  apply Forall2_cons_inv_l in Hall as (c & cs' & [Hc Hok Hop Hlen] & Hall & ->).
  apply NoDup_cons in Hnd as [Hnin Hnd]. have Hz : zlen (a :: q) = zlen q + 1 by rewrite /zlen /=; lia. have Hz0 := zlen_nonneg q.
  wp_steps. eapply wp_mono; [apply (settle_async a (set_asyncQueue q s) c); try done; rewrite /free_slots /=; rewrite /free_slots in Hsq; lia|].
  intros [] s1 (c1 & l & Hc1 & Hok1 & HA1 & Hfd1 & _ & _ & Hst1 & _ & Hreq & Hq1 & Hl1 & Hf1 & HP1 & _).
  destruct Hf1 as (c1' & wd & sq & tr & lg & _ & Hs1).
  have Hother b : b <> a -> st_conns s1 !! b = st_conns s !! b by intros Hb; rewrite Hs1 /= lookup_insert_ne.
  eapply wp_mono; [apply (IH cs' fuel s1)|].
  - by rewrite Hs1.
  - done.
  - apply Forall2_same_length_lookup_2; [by eapply Forall2_length|]. intros i b cb Hb Hcbi.
    destruct (Forall2_lookup_lr _ _ _ _ _ _ Hall Hb Hcbi) as [Hcb Hokb Hopb Hlenb]. split; try done.
    rewrite Hother //. intros ->. apply Hnin. by eapply list_elem_of_lookup_2.
  - done.
  - simpl in Hfuel. lia.
  - rewrite /free_slots Hq1 /= zlen_app. have Hll := Forall2_length _ _ _ Hreq. have Hl2 := next_reqs_length (conn_abs c).
    rewrite Hs1. cbn [st_sq_size set_log set_calls set_sq set_world set_conns set_asyncQueue]. rewrite /free_slots /zlen /= in Hsq |- *. lia.
  - intros r s2 (-> & Hq2 & Hl2 & sqes & Hsq2 & Hall2 & Hoth2). split_and!; try done; [by rewrite Hl2 Hl1|].
    exists (l :: sqes). cbn [concat zip]. split_and!.
    + by rewrite Hsq2 Hq1 /= -app_assoc.
    + constructor; [|done]. exists c1. by rewrite Hoth2.
    + intros b [Hb1 Hb2]%not_elem_of_cons. rewrite Hoth2 // Hother //.
Qed.

End AsyncProofs.

(** ** Properties *)

(** C20. The queue of asynchronous results is drained: when every queued connection was
    left by its goroutine and the ring has two free entries for each, the loop ends, the
    queue is empty, and the ring holds, in the order of the queue, the requests each
    handler's result asks for. *)
Theorem async_queue_drained {env : Env} P `{!EnvLaws env P} w cs s :
  w_sendRecvMsg w = false -> w_asyncHandler w = true -> NoDup (st_asyncQueue s) ->
  Forall2 (async_ready s) (st_asyncQueue s) cs -> P (st_world s) -> 2 * zlen (st_asyncQueue s) <= free_slots s ->
  wp (handleAsyncWritesIfEnabled w (S (length (st_asyncQueue s)))) (fun r s' =>
    r = Some () /\ st_asyncQueue s' = [] /\ st_log s' = st_log s /\
    exists sqes, st_sq s' = st_sq s ++ concat sqes /\
      Forall2 (fun '(a, c) l => exists c', st_conns s' !! a = Some c' /\ async_settled c c' l) (zip (st_asyncQueue s) cs) sqes /\
      (forall b, b ∉ st_asyncQueue s -> st_conns s' !! b = st_conns s !! b)) s.
Proof.
  intros Htcp Hasync Hnd Hall HP Hsq. rewrite /handleAsyncWritesIfEnabled Hasync.
  apply (handleAsyncWrites_ok (P := P) w Htcp); [done..|lia|done].
Qed.


Definition async_worker : workerConf := mkConf 5 0 false true false 0 None.

(** The goroutine has left connection 1 in the queue. *)
Definition left_conn : connection := with_nextAsyncOp readOp (demo_stream connRead).
Definition queued_state : St :=
  set_asyncQueue [1%nat] (set_conns (<[1%nat := left_conn]> (st_conns (stream_state connRead 16))) (stream_state connRead 16)).

Lemma left_ready : async_ready queued_state 1 left_conn.
Proof. split; [done|by exists page_buffer, page_buffer; split_and!; try apply page_buffer_ok|done|done]. Qed.

Lemma async_queue_drained_witness :
  wp (@handleAsyncWritesIfEnabled demo_env async_worker 2) (fun r s' =>
    r = Some () /\ st_asyncQueue s' = [] /\ st_log s' = [] /\
    exists sqes, st_sq s' = [] ++ concat sqes /\
      Forall2 (fun '(a, c) l => exists c', st_conns s' !! a = Some c' /\ async_settled c c' l) [(1%nat, left_conn)] sqes /\
      (forall b, b ∉ [1%nat] -> st_conns s' !! b = st_conns queued_state !! b)) queued_state.
Proof.
  apply (@async_queue_drained demo_env exact_world _ async_worker [left_conn] queued_state);
    [done|done|apply NoDup_singleton|constructor; [apply left_ready|constructor]|apply empty_world_exact|done].
Defined.

