(* ===== verification/ReactorSpec.v ===== *)
(** * ReactorSpec: correctness of the reactor

    The consumer serves stream connections like the shard worker ([StreamWorker]),
    and a descriptor the acceptor hands over reaches exactly the consumer its balancer
    chose, with the client's address. *)

From S2P Require Import Prelude Errors SyncPool VirtualMem MagicRing RingRefinement RingPool ByteSlicePool.
From S2P Require Import KeyPool Flags Submitter LoadBalancer Sockaddr SocketOps GoState Conn ConnSpec ConnManager.
From S2P Require Import Worker WorkerSpec Looper ConsumerWorker AcceptorWorker StreamSpec ShardWorker ShardSpec.
Local Open Scope Z_scope.

Section ConsumerProofs.
Context {env : Env} {P : World -> Prop} `{!EnvLaws env P}.
Context (handler : EventHandler) (w : workerConf).

(** An event of a known connection, as an equation. *)
Lemma consumer_event_known fd a res flag nonempty s :
  is_flag flag -> flag <> addConnFlag -> Stderr <= fd < 2 ^ 31 -> 0 <= res -> cm_connections (st_mgr s) !! fd = Some a ->
  let e := mkCqe res (Z.lor flag (uint64 fd)) nonempty in
  consumer_event handler w e s = (_ ← consumer_handleConn handler w a e; mret None) s.
Proof.
  intros Hflag Hadd Hfd Hres Hk e. destruct (event_data flag fd Hflag) as (Hne & Hkey & Hhas); [rewrite /Stderr in Hfd; lia|].
  rewrite /consumer_event /processEvent /getFd /connectionManager_get. cbn [e cqe_Res cqe_UserData].
  destruct (Z.ltb_spec res 0); [lia|]. rewrite Hne Hkey (Hhas addConnFlag) ?bool_decide_false //; [constructor|].
  destruct (Z.ltb_spec fd Stderr); [lia|]. rewrite /mbind /StateM_bind /get_state /mret /StateM_ret.
  cbn [mbind outcome_bind]. by rewrite Hk.
Qed.

(** Both kinds of workers have the same event of a known stream connection. *)
Lemma stream_event_same fd a c res flag nonempty s :
  w_sendRecvMsg w = false -> is_flag flag -> flag <> addConnFlag -> Stderr <= fd < 2 ^ 31 -> 0 <= res ->
  cm_connections (st_mgr s) !! fd = Some a -> st_conns s !! a = Some c -> c_state c <> connAccept ->
  shard_event handler w (mkCqe res (Z.lor flag (uint64 fd)) nonempty) s =
  consumer_event handler w (mkCqe res (Z.lor flag (uint64 fd)) nonempty) s.
Proof.
  intros Htcp Hflag Hadd Hfd Hres Hk Hc Hst. rewrite (consumer_event_known fd a) //.
  destruct (event_data flag fd Hflag) as (Hne & Hkey & _); [rewrite /Stderr in Hfd; lia|].
  rewrite /shard_event /processEvent /connectionManager_get. cbn [cqe_Res cqe_UserData].
  destruct (Z.ltb_spec res 0); [lia|]. rewrite Hne Hkey /mbind /StateM_bind /get_state /mret /StateM_ret.
  cbn [mbind outcome_bind]. rewrite Hk. cbn [mbind outcome_bind]. by rewrite (handleConn_stream handler w a c).
Qed.

(** A failed request of a known connection is dropped. *)
Lemma consumer_event_failed fd a errno flag nonempty s :
  is_flag flag -> 0 <= fd < 2 ^ 31 -> 0 < errno -> cm_connections (st_mgr s) !! fd = Some a ->
  consumer_event handler w (mkCqe (- errno) (Z.lor flag (uint64 fd)) nonempty) s = Ret (None, s).
Proof.
  intros Hflag Hfd Herr Hk. destruct (event_data flag fd Hflag Hfd) as (Hne & Hkey & _).
  rewrite /consumer_event /processEvent /connectionManager_get. cbn [cqe_Res cqe_UserData].
  destruct (Z.ltb_spec (- errno) 0); [|lia]. rewrite Hkey /mbind /StateM_bind /get_state /mret /StateM_ret.
  cbn [mbind outcome_bind]. by rewrite Hk.
Qed.

#[export] Instance consumer_stream_worker : StreamWorker handler w Stderr (consumer_event handler w).
Proof.
  intros fd a c res flag nonempty s Q Hflag Hadd Hlo Hfd Hres Hk Hc Hst HQ.
  rewrite /wp (consumer_event_known fd a) //; [lia|]. rewrite -/(wp _ Q s). wp_step.
  eapply wp_mono; [exact HQ|]. intros [] s' Hs'. by wp_steps.
Qed.

(** ** New connections *)

(** A descriptor with its stored address: the connection the handler gets, and what is
    left in the table of addresses. *)
Record taken (fd : Z) (addr : option NetAddr) (b : nat) (c : connection) (s s1 : St) : Prop := {
  tk_conn : new_conn (P := P) fd b c s1;
  tk_local : c_localAddr c = w_localAddr w;
  tk_remote : c_remoteAddr c = addr;
  tk_new k : cm_connections (st_mgr s) !! k <> Some b;
  tk_table : cm_connections (st_mgr s1) = <[fd := b]> (cm_connections (st_mgr s));
  tk_vars : st_worker s1 = with_socketAddresses (delete fd (wv_socketAddresses (st_worker s))) (st_worker s);
  tk_log : st_log s1 = st_log s;
  tk_sq : st_sq s1 = st_sq s /\ st_sq_size s1 = st_sq_size s;
  tk_others b' : b' <> b -> st_conns s1 !! b' = st_conns s !! b';
  tk_closing : cm_closing (st_mgr s1) = cm_closing (st_mgr s)
}.

Definition newly_served (fd : Z) (addr : option NetAddr) (s s' : St) : Prop :=
  exists b c s1, taken fd addr b c s s1 /\ new_served (P := P) handler fd b c s1 s'.

(** [handleNewConn] up to the callback. *)
Lemma wp_handleNewConn_until fd addr s Q :
  mgr_ok P s -> cm_connections (st_mgr s) !! fd = None -> wv_socketAddresses (st_worker s) !! fd = Some addr ->
  (forall b c s1, taken fd addr b c s s1 ->
     wp (_ ← setUserSpace b; _ ← run_handler handler b (CbAccept b); addNextRequest w b) Q s1) ->
  wp (handleNewConn handler w fd) Q s.
Proof.
  intros Hm Hfree Haddr HQ. rewrite /handleNewConn /getFd. wp_step. eapply (wp_get_new (P := P)); [done..|].
  intros b s1 (Hm1 & Hio1 & Hb1 & Hnew & Hmap1 & Hcl1 & _ & _ & c0 & Hc0 & Hfresh).
  wp_steps. eapply wp_store; [by rewrite /= lookup_insert_eq|]. cbn beta.
  rewrite /take_address /mod_vars. wp_steps. cbn [st_worker set_conns].
  destruct Hio1 as (Hq1 & Hqs1 & _ & Hl1 & _ & _ & Hw1). rewrite Hw1 Haddr.
  wp_steps. eapply wp_store; [by rewrite /= lookup_insert_eq|]. cbn beta. wp_steps.
  set (c := with_remoteAddr addr _). set (s2 := set_worker _ _).
  apply wp_unbind, (HQ b c). have Hw2 : st_worker s2 = with_socketAddresses (delete fd (wv_socketAddresses (st_worker s))) (st_worker s).
  { by rewrite /s2 /= Hw1. }
  have Hs2 : st_conns s2 = <[b := c]> (st_conns s1) by rewrite /s2 /= !insert_insert_eq.
  split; try done.
  - eapply (new_conn_fresh (P := P) fd b c0 _ _ s1); [exact Hfresh|by rewrite Hmap1 lookup_insert_eq|exact Hc0|exact Hm1|exact Hs2|done..|apply (mo_mem _ _ Hm1)].
  - intros b' Hb'. by rewrite Hs2 lookup_insert_ne // Hb1.
Qed.

Lemma wp_handleNewConn fd addr s :
  w_sendRecvMsg w = false -> mgr_ok P s -> cm_connections (st_mgr s) !! fd = None ->
  wv_socketAddresses (st_worker s) !! fd = Some addr -> 1 < free_slots s ->
  (forall b, prog_valid tcp empty_abs (handler (st_log s) (CbAccept b))) ->
  wp (handleNewConn handler w fd) (fun r s' => r = None /\ newly_served fd addr s s') s.
Proof.
  intros Htcp Hm Hfree Haddr Hsq Hv. eapply wp_handleNewConn_until; [done..|]. intros b c s1 Htk.
  have [Hnew _ _ _ _ _ Hl [Hq Hqs] _ _] := Htk. eapply wp_mono; [eapply (wp_new_served (P := P) handler w fd b c s1 Htcp Hnew)|].
  - by rewrite /free_slots Hq Hqs.
  - rewrite Hl. apply Hv.
  - intros r s' [-> Hs']. split; [done|]. by exists b, c, s1.
Qed.

(** No entry is left for the next request. *)
Lemma wp_addNextRequest_full a c s Q :
  st_conns s !! a = Some c -> conn_ok c -> free_slots s <= 0 ->
  (forall msg, Q (Some (Wrap msg ErrGettingSQE)) s) -> wp (addNextRequest w a) Q s.
Proof.
  intros Hc (inb & outb & Hi & Ho & Hin & Hout) Hsq HQ. rewrite /addNextRequest /isClosed. wp_steps.
  eapply wp_OutboundBuffered; [done|done|apply Hout|]. cbn beta.
  destruct (0 <? zlen (a_out (conn_abs c))).
  - wp_step. apply wp_addWriteRequest_full; [done|]. wp_steps. apply HQ.
  - destruct (c_closed c); wp_step; [eapply wp_addCloseConnRequest_full; [done..|]|apply wp_addReadRequest_full; [done|]]; wp_steps; apply HQ.
Qed.

(** The message of the acceptor. *)
Lemma consumer_event_add fd nonempty s :
  0 <= fd -> consumer_event handler w (mkCqe fd addConnFlag nonempty) s = handleNewConn handler w fd s.
Proof. intros Hfd. rewrite /consumer_event /processEvent. cbn [cqe_Res cqe_UserData]. by destruct (Z.ltb_spec fd 0); [lia|]. Qed.

End ConsumerProofs.

Section AcceptorProofs.
Context {env : Env} {P : World -> Prop} `{!EnvLaws env P}.
Context (handler : EventHandler) (w : workerConf) (addr_String : NetAddr -> string).

Notation workers r := (lb_workers (generic (r_balancer r))).

(** ** Rules for the reactor's state *)

Lemma wp_in_worker {A} (m : M A) Q (r : reactor) :
  wp m (fun a s => Q a (mkReactor s (r_balancer r))) (r_acceptor r) -> wp (in_worker m) Q r.
Proof. rewrite /wp /in_worker /reactor_worker. by destruct (m (r_acceptor r)) as [[a s]|]. Qed.

Lemma with_workers_workers f lb : lb_workers (generic (with_workers f lb)) = f (lb_workers (generic lb)).
Proof. by destruct lb. Qed.

Lemma wp_on_consumer {A} i (m : M A) Q (r : reactor) c :
  workers r !! i = Some c ->
  wp m (fun a s => Q a (mkReactor (r_acceptor r) (with_workers (fun ws => <[i := mkConsumer (co_conf c) (co_ringFd c) s]> ws) (r_balancer r))))
    (co_st c) ->
  wp (on_consumer (Z.of_nat i) m) Q r.
Proof.
  intros Hc. rewrite /wp /on_consumer (go_index_ok _ _ c); [lia|by rewrite Nat2Z.id|]. rewrite bind_Ret Nat2Z.id.
  by destruct (m (co_st c)) as [[a s]|].
Qed.

(** The consumers are registered under their indices, each with its own ring. *)
Record reactor_ok (r : reactor) : Prop := {
  ro_balancer : balancer_ok (r_balancer r);
  ro_index i c : workers r !! i = Some c -> co_index c = Z.of_nat i;
  ro_rings : NoDup (co_ringFd <$> workers r);
  ro_some : workers r <> []
}.

(** The accept request is queued again. *)
Lemma wp_addAcceptRequest fd s Q :
  0 < free_slots s -> Q None (set_sq (st_sq s ++ [accept_sqe fd]) s) -> wp (addAcceptRequest fd) Q s.
Proof. intros Hsq HQ. rewrite /addAcceptRequest /push_sqe. wp_steps. rewrite sq_full_false; [done|]. wp_steps. exact HQ. Qed.

(** An accepted descriptor up to the use of its address. *)
Lemma wp_acceptor_event_addr via fd nonempty r Q :
  w_tcpKeepAlive w <= 0 -> 0 <= w_fd w < 2 ^ 31 -> 0 <= fd -> mem_ok P (r_acceptor r) -> 0 < free_slots (r_acceptor r) ->
  (forall s, st_sq s = st_sq (r_acceptor r) ++ [accept_sqe (w_fd w)] -> st_sq_size s = st_sq_size (r_acceptor r) ->
     st_worker s = st_worker (r_acceptor r) -> mem_ok P s ->
     wp (match client_addr (wv_clientAddr (st_worker (r_acceptor r))) with
         | inr _ => _ ← in_worker (syscallCloseSocket fd); mret None
         | inl addr => forward addr_String via fd addr
         end) Q (mkReactor s (r_balancer r))) ->
  wp (acceptor_event w addr_String via (mkCqe fd (Z.lor acceptDataFlag (uint64 (w_fd w))) nonempty)) Q r.
Proof.
  intros Hka Hwfd Hfd Hmem Hsq HQ.
  destruct (event_data acceptDataFlag (w_fd w) ltac:(constructor) Hwfd) as (Hne & _ & Hhas).
  rewrite /acceptor_event. cbn [cqe_Res cqe_UserData].
  rewrite (Hhas addConnFlag ltac:(constructor)) bool_decide_false; [by vm_compute|].
  wp_step. apply wp_in_worker, wp_addAcceptRequest; [done|]. wp_step. apply wp_in_worker.
  rewrite /processEvent. cbn [cqe_Res cqe_UserData]. destruct (Z.ltb_spec fd 0); [lia|]. rewrite Hne. wp_steps.
  apply wp_in_worker. rewrite /acceptor_keepAlive. destruct (Z.ltb_spec 0 (w_tcpKeepAlive w)); [lia|]. wp_steps.
  apply wp_in_worker, (wp_lastClientAddr (P := P)); [done|]. intros ps cs Hmem'. cbn [r_acceptor st_worker set_sq].
  by apply HQ.
Qed.

(** An accepted descriptor up to the choice of its consumer. *)
Lemma wp_acceptor_event_until via fd addr nonempty r Q :
  w_tcpKeepAlive w <= 0 -> 0 <= w_fd w < 2 ^ 31 -> 0 <= fd -> mem_ok P (r_acceptor r) -> 0 < free_slots (r_acceptor r) ->
  client_addr (wv_clientAddr (st_worker (r_acceptor r))) = inl addr ->
  (forall s, st_sq s = st_sq (r_acceptor r) ++ [accept_sqe (w_fd w)] -> st_sq_size s = st_sq_size (r_acceptor r) ->
     st_worker s = st_worker (r_acceptor r) -> mem_ok P s -> wp (forward addr_String via fd addr) Q (mkReactor s (r_balancer r))) ->
  wp (acceptor_event w addr_String via (mkCqe fd (Z.lor acceptDataFlag (uint64 (w_fd w))) nonempty)) Q r.
Proof. intros Hka Hwfd Hfd Hmem Hsq Haddr HQ. apply wp_acceptor_event_addr; [done..|]. by rewrite Haddr. Qed.

(** A failed accept: the request is queued again, and nothing else happens. *)
Lemma wp_acceptor_event_failed via errno nonempty r Q :
  0 <= w_fd w < 2 ^ 31 -> 0 < errno -> 0 < free_slots (r_acceptor r) ->
  Q None (mkReactor (set_sq (st_sq (r_acceptor r) ++ [accept_sqe (w_fd w)]) (r_acceptor r)) (r_balancer r)) ->
  wp (acceptor_event w addr_String via (mkCqe (- errno) (Z.lor acceptDataFlag (uint64 (w_fd w))) nonempty)) Q r.
Proof.
  intros Hwfd Herr Hsq HQ. destruct (event_data acceptDataFlag (w_fd w) ltac:(constructor) Hwfd) as (Hne & _ & Hhas).
  rewrite /acceptor_event. cbn [cqe_Res cqe_UserData].
  rewrite (Hhas addConnFlag ltac:(constructor)) bool_decide_false; [by vm_compute|].
  wp_step. apply wp_in_worker, wp_addAcceptRequest; [done|]. wp_step. apply wp_in_worker.
  rewrite /processEvent. cbn [cqe_Res cqe_UserData]. destruct (Z.ltb_spec (- errno) 0); [|lia]. by wp_steps.
Qed.

(** ** Handing a descriptor over *)

(** The consumer once the client's address is stored. *)
Definition with_address (fd : Z) (addr : option NetAddr) (c : consumer) : consumer :=
  mkConsumer (co_conf c) (co_ringFd c)
    (set_worker (with_socketAddresses (<[fd := addr]> (wv_socketAddresses (st_worker (co_st c)))) (st_worker (co_st c))) (co_st c)).

Definition message_sqe (c : consumer) (fd : Z) : sqe := mkSqe (SqMsgRing (co_ringFd c) (uint32 fd) addConnFlag) addConnFlag false.

(** The consumer the balancer chooses for the address. *)
Definition chosen (r : reactor) (addr : NetAddr) (i : nat) (c : consumer) (lb' : @loadBalancer consumer) : Prop :=
  next (r_balancer r) (addr_String addr) = Ret (c, lb') /\ workers r !! i = Some c /\ generic lb' = generic (r_balancer r).

Lemma wp_next_consumer addr r Q :
  reactor_ok r -> (forall i c lb', chosen r addr i c lb' -> co_index c = Z.of_nat i -> Q c (mkReactor (r_acceptor r) lb')) ->
  wp (next_consumer addr_String (Some addr)) Q r.
Proof.
  intros [Hb Hi _ Hne] HQ. destruct (next_in (r_balancer r) (addr_String addr) Hb Hne) as (i & c & lb' & Hnext & Hc & Hg & _).
  rewrite /wp /next_consumer bind_Ret Hnext bind_Ret. apply (HQ i c lb'); [by split_and!|by apply Hi].
Qed.

Lemma wp_forward_ring fd addr r Q :
  reactor_ok r -> 0 < free_slots (r_acceptor r) ->
  (forall i c lb', chosen r addr i c lb' ->
     Q None (mkReactor (set_sq (st_sq (r_acceptor r) ++ [message_sqe c fd]) (r_acceptor r))
               (with_workers (fun ws => <[i := with_address fd (Some addr) c]> ws) lb'))) ->
  wp (forward addr_String true fd (Some addr)) Q r.
Proof.
  intros Hr Hsq HQ. rewrite /forward. wp_step. apply wp_next_consumer; [done|]. intros i c lb' Hch Hidx.
  have [Hnext [Hc Hg]] := Hch. rewrite Hidx. wp_step. eapply (wp_on_consumer i _ _ _ c); [by rewrite /= Hg|].
  rewrite /setSocketAddr /mod_vars. wp_steps. apply wp_in_worker. rewrite /push_sqe. wp_steps.
  rewrite sq_full_false; [done|]. wp_steps. by apply HQ.
Qed.

(** The kernel's side of a ring message: its length is the result and its data the
    user data of a completion on the ring it names. *)
Definition ring_message (e : sqe) : option (Z * cqe) :=
  match sq_op e with SqMsgRing ringFd len data => Some (ringFd, mkCqe (int32 len) data false) | _ => None end.

Definition deliver (e : sqe) : StateM reactor (option error) :=
  r ← get_state;
  match ring_message e with
  | Some (ringFd, cqe) =>
      match list_find (fun c => co_ringFd c = ringFd) (workers r) with
      | Some (i, c) => on_consumer (Z.of_nat i) (consumer_event handler (co_conf c) cqe)
      | None => mret None
      end
  | None => mret None
  end.

(** The acceptor's event, and the completion of the last request it queued. *)
Definition accept_and_deliver (cqe : cqe) : StateM reactor (option error) :=
  err ← acceptor_event w addr_String true cqe;
  r ← get_state;
  match err, last (st_sq (r_acceptor r)) with
  | None, Some e => deliver e
  | _, _ => mret err
  end.

Lemma find_ring r i c :
  NoDup (co_ringFd <$> workers r) -> workers r !! i = Some c ->
  list_find (fun c' => co_ringFd c' = co_ringFd c) (workers r) = Some (i, c).
Proof.
  intros Hnd Hc. apply list_find_Some. split_and!; [done|done|]. intros j c' Hj Hlt Heq.
  have : j = i; [|lia]. eapply (NoDup_lookup _ _ _ (co_ringFd c) Hnd); by rewrite list_lookup_fmap ?Hj ?Hc /= ?Heq.
Qed.

(** What a consumer needs to take a descriptor. *)
Record can_take (fd : Z) (c : consumer) : Prop := {
  ct_mgr : mgr_ok P (co_st c);
  ct_free : cm_connections (st_mgr (co_st c)) !! fd = None;
  ct_slots : 1 < free_slots (co_st c);
  ct_stream : w_sendRecvMsg (co_conf c) = false;
  ct_valid b : prog_valid tcp empty_abs (handler (st_log (co_st c)) (CbAccept b))
}.

(** The chosen consumer has served the descriptor with the client's address; no other
    consumer has changed. *)
Definition handed_over (fd : Z) (addr : NetAddr) (r r' : reactor) : Prop :=
  exists i c lb' c', chosen r addr i c lb' /\ workers r' = <[i := c']> (workers r) /\
    co_conf c' = co_conf c /\
    newly_served (P := P) handler (co_conf c) fd (Some addr) (co_st (with_address fd (Some addr) c)) (co_st c').

Lemma mgr_ok_vars s v : mgr_ok P s -> mgr_ok P (set_worker v s).
Proof. intros []. by split. Qed.

Lemma wp_deliver fd addr i c r s lb' :
  reactor_ok r -> chosen r addr i c lb' -> can_take fd c -> 0 <= fd < 2 ^ 31 ->
  wp (deliver (message_sqe c fd)) (fun err r' => err = None /\ handed_over fd addr r r' /\ r_acceptor r' = s)
     (mkReactor s (with_workers (fun ws => <[i := with_address fd (Some addr) c]> ws) lb')).
Proof.
  intros Hr Hch [Hm Hfree Hsq Htcp Hv] Hfd. have [Hnext [Hc Hg]] := Hch. have Hlt := lookup_lt_Some _ _ _ Hc.
  rewrite /deliver /ring_message. cbn [message_sqe sq_op]. wp_steps. set (r1 := mkReactor _ _).
  have Hws : workers r1 = <[i := with_address fd (Some addr) c]> (workers r) by rewrite /r1 /= with_workers_workers Hg.
  have Hc1 : workers r1 !! i = Some (with_address fd (Some addr) c) by rewrite Hws list_lookup_insert_eq.
  have -> : int32 (uint32 fd) = fd by rewrite wrap_u_small ?wrap_s_small; lia.
  rewrite (find_ring r1 i (with_address fd (Some addr) c)) //.
  { rewrite Hws list_fmap_insert /= list_insert_id; [by rewrite list_lookup_fmap Hc|]. apply (ro_rings _ Hr). }
  eapply wp_on_consumer; [done|]. rewrite /wp consumer_event_add; [lia|].
  change (co_conf (with_address fd (Some addr) c)) with (co_conf c).
  eapply wp_mono; [apply (wp_handleNewConn (P := P) handler (co_conf c) fd (Some addr)); try done|].
  - by apply mgr_ok_vars.
  - by rewrite /= lookup_insert_eq.
  - intros err s' [-> Hserved]. split; [done|]. split; [|done]. exists i, c, lb', (mkConsumer (co_conf c) (co_ringFd c) s'). split_and!; try done.
    by rewrite /= with_workers_workers Hws list_insert_insert_eq.
Qed.

(** ** Shutdown *)

(** A consumer told to shut down. *)
Definition told (c : consumer) : consumer :=
  mkConsumer (co_conf c) (co_ringFd c) (set_worker (with_shutdowning true (st_worker (co_st c))) (co_st c)).

Lemma shutdown_blocked waits ws l : forEach_loop (shutdown_callback waits) (true, ws) l = (None, (true, ws)).
Proof. by induction l. Qed.

(** The loop over the consumers [l] at the positions after [pre]. *)
Lemma shutdown_loop waits pre l :
  (forall i c, l !! i = Some c -> co_index c = Z.of_nat (length pre + i)) ->
  (exists l', forEach_loop (shutdown_callback waits) (false, pre ++ l) l = (None, (false, pre ++ l')) /\
     Forall2 (fun c c' => waits (told c) = Some c') l l') \/
  (exists l1 c l2 l1', l = l1 ++ c :: l2 /\ waits (told c) = None /\
     forEach_loop (shutdown_callback waits) (false, pre ++ l) l = (None, (true, pre ++ l1' ++ told c :: l2)) /\
     Forall2 (fun c c' => waits (told c) = Some c') l1 l1').
Proof.
  revert pre. induction l as [|c l IH]; intros pre Hidx; [left; by exists []|].
  have Hi : Z.to_nat (co_index c) = length pre by rewrite (Hidx 0%nat c) //; lia.
  have Hset c' : <[length pre := c']> (pre ++ c :: l) = (pre ++ [c']) ++ l by rewrite insert_app_r_alt // Nat.sub_diag -app_assoc.
  simpl. rewrite /shutdown_consumer -/(told c). destruct (waits (told c)) as [c'|] eqn:Hw; rewrite Hi Hset.
  - destruct (IH (pre ++ [c'])) as [(l' & -> & Hall)|(l1 & c1 & l2 & l1' & -> & Hn & -> & Hall)].
    + intros i c0 Hc0. rewrite (Hidx (S i) c0) // length_app /=. lia.
    + left. exists (c' :: l'). rewrite -app_assoc. split; [done|by constructor].
    + right. exists (c :: l1), c1, l2, (c' :: l1'). rewrite -app_assoc. split_and!; try done. by constructor.
  - rewrite shutdown_blocked. right. exists [], c, l, []. rewrite -app_assoc. by split_and!.
Qed.

End AcceptorProofs.

(** ** Properties *)

(** The reactor hands a connection over to exactly one consumer: when a client has
    been accepted, the acceptor queues the next accept request, its balancer chooses a
    consumer, and the ring message makes that consumer enter the descriptor in its
    table, with the client's address, call [OnAccept] and queue the requests the
    handler asked for; the other consumers do not change. *)
Theorem reactor_handover {env : Env} P `{!EnvLaws env P} handler w addr_String fd addr nonempty r :
  reactor_ok r -> w_tcpKeepAlive w <= 0 -> 0 <= w_fd w < 2 ^ 31 -> 0 <= fd < 2 ^ 31 ->
  mem_ok P (r_acceptor r) -> 1 < free_slots (r_acceptor r) ->
  client_addr (wv_clientAddr (st_worker (r_acceptor r))) = inl (Some addr) ->
  (forall i c lb', chosen addr_String r addr i c lb' -> can_take (P := P) handler fd c) ->
  wp (accept_and_deliver handler w addr_String (mkCqe fd (Z.lor acceptDataFlag (uint64 (w_fd w))) nonempty))
     (fun err r' => err = None /\ handed_over (P := P) handler addr_String fd addr r r' /\
        exists c, st_sq (r_acceptor r') = st_sq (r_acceptor r) ++ [accept_sqe (w_fd w); message_sqe c fd]) r.
Proof.
  intros Hr Hka Hwfd Hfd Hmem Hsq Haddr Htake. rewrite /accept_and_deliver. wp_step.
  eapply (wp_acceptor_event_until (P := P)); [done|done|lia|done|lia|done|]. intros s1 Hq1 Hqs1 _ _.
  have Hr1 : reactor_ok (mkReactor s1 (r_balancer r)) by destruct Hr; split.
  apply wp_forward_ring; [done| |].
  { rewrite /free_slots /= Hq1 Hqs1 zlen_app. change (zlen [_]) with 1. rewrite /free_slots in Hsq. lia. }
  intros i c lb' Hch. wp_steps. cbn [r_acceptor st_sq set_sq]. rewrite last_snoc.
  eapply wp_mono; [eapply (wp_deliver (P := P) handler addr_String fd addr i c r); [done|exact Hch|by eapply Htake|done]|].
  intros err r' (-> & Hover & ->). split; [done|]. split; [done|]. exists c. by rewrite /= Hq1 -app_assoc.
Qed.

(** C12. The two kinds of workers serve a stream connection identically: on an event with a
    result that is no error, of a connection both have in their tables, the shard worker
    and the consumer worker with the same configuration and handler make the same changes.
    The descriptor is at least 2: the consumer drops the completions of descriptors 0 and
    1, the shard worker does not. *)
Theorem shard_consumer_same {env : Env} handler w fd a c res flag nonempty s :
  w_sendRecvMsg w = false -> is_flag flag -> flag <> addConnFlag -> Stderr <= fd < 2 ^ 31 -> 0 <= res ->
  cm_connections (st_mgr s) !! fd = Some a -> st_conns s !! a = Some c -> c_state c <> connAccept ->
  shard_event handler w (mkCqe res (Z.lor flag (uint64 fd)) nonempty) s =
  consumer_event handler w (mkCqe res (Z.lor flag (uint64 fd)) nonempty) s.
Proof.
  intros Htcp Hflag Hadd Hfd Hres Hk Hc Hst. by apply (stream_event_same _ _ _ a c).
Qed.

(** A consumer dies when its submission queue is full at the moment a connection is
    handed over: [OnAccept] is called, no request can be queued, and the event
    processor fails, so that the loop drops the other completions of the round and
    returns. *)
Theorem full_ring_kills_consumer {env : Env} P `{!EnvLaws env P} handler w fd addr nonempty rest s :
  mgr_ok P s -> cm_connections (st_mgr s) !! fd = None -> wv_socketAddresses (st_worker s) !! fd = Some addr ->
  0 <= fd -> free_slots s <= 0 ->
  (forall b, prog_valid tcp empty_abs (handler (st_log s) (CbAccept b))) ->
  wp (process_cqes (consumer_event handler w) (mkCqe fd addConnFlag nonempty :: rest) 0)
     (fun r s' => (exists msg, r = (1, Some (Wrap msg ErrGettingSQE))) /\
        exists b, cm_connections (st_mgr s') = <[fd := b]> (cm_connections (st_mgr s)) /\
          st_log s' = st_log s ++ [CbAccept b] /\ st_sq s' = st_sq s) s.
Proof.
  intros Hm Hfree Haddr Hfd Hsq Hv. cbn [process_cqes]. wp_step. rewrite /wp consumer_event_add //.
  eapply (wp_handleNewConn_until (P := P)); [done..|]. intros b c s1 [[Hman HA Hfdc Hnet] _ _ _ Htab _ Hl [Hq Hqs] _ _].
  have [Hok Hkey] := managed_ok _ _ _ _ Hman. have [Hm1 Hk1 Hc1] := Hman.
  apply wp_assoc. eapply (wp_callback (P := P) handler b (CbAccept b) s1 c); [done|done|apply (mo_mem _ _ Hm1)|by rewrite Hnet HA Hl|].
  intros s3 c3 [Hc3 Hok3 _ HP3] _ Hf3 Hl3 Hq3 Hspec3. destruct Hf3 as (? & ? & ? & ? & ? & _ & Hs3).
  cbn beta. eapply wp_addNextRequest_full; [done|done| |].
  { rewrite /free_slots Hq3 Hs3 /= Hq Hqs. done. }
  intros msg. wp_steps. split; [by eexists|]. exists b. split_and!; [by rewrite Hs3 /= Htab|by rewrite Hl3 Hl|by rewrite Hq3 Hq].
Qed.

(** The acceptor ends when a client's socket cannot be configured: if
    [SetKeepAlivePeriod] fails on an accepted descriptor, for instance because the
    client has already gone, the event processor fails, and with it the loop; the
    descriptor is neither closed nor handed to a consumer. *)
Theorem keepalive_failure_ends_acceptor {env : Env} w addr_String via fd nonempty rest r :
  0 < w_tcpKeepAlive w -> 0 <= w_fd w < 2 ^ 31 -> 0 <= fd -> 0 < free_slots (r_acceptor r) ->
  (forall tr, exists e, (SetKeepAlivePeriod fd (period_seconds (w_tcpKeepAlive w)) tr).1 = Some e) ->
  wp (process_cqes (acceptor_event w addr_String via) (mkCqe fd (Z.lor acceptDataFlag (uint64 (w_fd w))) nonempty :: rest) 0)
     (fun res r' => (exists msg e, res = (1, Some (Wrap msg e))) /\ r_balancer r' = r_balancer r /\
        st_sq (r_acceptor r') = st_sq (r_acceptor r) ++ [accept_sqe (w_fd w)] /\
        st_calls (r_acceptor r') = (SetKeepAlivePeriod fd (period_seconds (w_tcpKeepAlive w)) (st_calls (r_acceptor r))).2) r.
Proof.
  intros Hka Hwfd Hfd Hsq Hfail.
  destruct (event_data acceptDataFlag (w_fd w) ltac:(constructor) Hwfd) as (Hne & _ & Hhas).
  cbn [process_cqes]. wp_step. rewrite /acceptor_event. cbn [cqe_Res cqe_UserData].
  rewrite (Hhas addConnFlag ltac:(constructor)) bool_decide_false; [by vm_compute|].
  wp_step. apply wp_in_worker, wp_addAcceptRequest; [done|]. wp_step. apply wp_in_worker.
  rewrite /processEvent. cbn [cqe_Res cqe_UserData]. destruct (Z.ltb_spec fd 0); [lia|]. rewrite Hne. wp_steps.
  apply wp_in_worker. rewrite /acceptor_keepAlive. destruct (Z.ltb_spec 0 (w_tcpKeepAlive w)); [|lia]. wp_step.
  apply wp_sys_setter. destruct (Hfail (st_calls (r_acceptor r))) as [e He].
  cbn [r_acceptor st_calls set_sq]. rewrite He. cbn beta iota. wp_steps. cbn [fmap option_fmap option_map]. wp_steps.
  split; [by eexists _, e|]. by split_and!.
Qed.

(** The acceptor shuts its consumers down one after the other, in the order of
    their registration: it shuts the listening socket first; if every consumer finishes,
    all of them have been told to shut down; a consumer that never finishes blocks the
    acceptor, and the consumers after it are not told. *)
Theorem shutdown_consumers_in_order {env : Env} w waits r :
  reactor_ok r ->
  let ws := lb_workers (generic (r_balancer r)) in
  wp (closeRingAndConsumers w waits) (fun done r' =>
    let ws' := lb_workers (generic (r_balancer r')) in
    CShutdown (w_fd w) SHUT_RDWR ∈ st_calls (r_acceptor r') /\ wv_accepting (st_worker (r_acceptor r')) = false /\
    length ws' = length ws /\
    match done with
    | Some _ => forall i c, ws !! i = Some c -> exists c', waits (told c) = Some c' /\ ws' !! i = Some c'
    | None => exists k c, ws !! k = Some c /\ waits (told c) = None /\ ws' !! k = Some (told c) /\
        (forall i c, (i < k)%nat -> ws !! i = Some c -> exists c', waits (told c) = Some c' /\ ws' !! i = Some c') /\
        (forall i, (k < i)%nat -> ws' !! i = ws !! i)
    end) r.
Proof.
  intros [_ Hidx _ _] ws. rewrite /closeRingAndConsumers. wp_step. apply wp_in_worker.
  rewrite /syscallCloseSocket /set_accepting /mod_vars. wp_step. wp_step. apply wp_sys_setter. wp_steps. cbn [r_balancer]. rewrite /forEach -/ws.
  destruct (shutdown_loop waits [] ws) as [(l' & Hrun & Hall)|(l1 & c & l2 & l1' & Hws & Hnone & Hrun & Hall)]; [done| |];
    rewrite Hrun; wp_steps; cbn zeta; rewrite with_workers_workers; (split; [apply elem_of_app; right; by left|]; split; [done|]).
  - split; [by rewrite (Forall2_length _ _ _ Hall)|]. intros i c Hi.
    destruct (Forall2_lookup_l _ _ _ _ _ Hall Hi) as (c' & Hi' & Hw). by exists c'.
  - have Hlen := Forall2_length _ _ _ Hall. split; [by rewrite Hws /= !length_app /= Hlen|]. exists (length l1), c.
    rewrite Hws /= Hlen. split_and!; [by rewrite -Hlen list_lookup_middle|done|by rewrite list_lookup_middle| |].
    + intros i c0 Hlt Hi. rewrite lookup_app_l in Hi; [lia|]. destruct (Forall2_lookup_l _ _ _ _ _ Hall Hi) as (c' & Hi' & Hw).
      exists c'. split; [done|]. by apply lookup_app_l_Some.
    + intros i Hlt. rewrite !lookup_app_r; [lia..|]. rewrite Hlen. by destruct (i - length l1')%nat eqn:Heq; [lia|].
Qed.

(** *** A concrete reactor: two consumers behind a round-robin balancer. *)

Definition demo_consumer (ringFd slots : Z) : consumer := mkConsumer demo_worker ringFd (stream_state connRead slots).

Definition demo_reactor (slots : Z) : reactor :=
  mkReactor (stream_state connRead slots)
    (register_all newRoundRobinLoadBalancer [demo_consumer 20 16; demo_consumer 21 16]).

Definition demo_string (a : NetAddr) : string := "127.0.0.1:53".

Definition demo_client : NetAddr := TCPAddr (ipv4InIPv6Prefix ++ [x7f; x00; x00; x01]) 53 "".

Lemma demo_workers slots i c :
  lb_workers (generic (r_balancer (demo_reactor slots))) !! i = Some c ->
  (i = 0%nat /\ c = setIndex (demo_consumer 20 16) 0) \/ (i = 1%nat /\ c = setIndex (demo_consumer 21 16) 1).
Proof. destruct i as [|[|i]]; intros [= <-]; auto. Qed.

Lemma demo_reactor_ok slots : reactor_ok (demo_reactor slots).
Proof.
  split; [by apply register_all_ok, (create_ok RoundRobin)| | |done].
  - intros i c [[-> ->]|[-> ->]]%demo_workers; done.
  - apply NoDup_ListNoDup. repeat constructor; set_solver.
Qed.

Lemma demo_can_take slots i c : lb_workers (generic (r_balancer (demo_reactor slots))) !! i = Some c -> can_take (P := exact_world) answer_handler 9 c.
Proof. intros [[-> ->]|[-> ->]]%demo_workers; (split; [apply stream_state_ok|done|done|done|intros; apply pv_ret]). Qed.

Lemma reactor_handover_witness :
  wp (@accept_and_deliver demo_env answer_handler demo_worker demo_string (mkCqe 9 (Z.lor acceptDataFlag (uint64 5)) false))
     (fun err r' => err = None /\ handed_over (P := exact_world) answer_handler demo_string 9 demo_client (demo_reactor 16) r' /\
        exists c, st_sq (r_acceptor r') = [] ++ [accept_sqe 5; message_sqe c 9]) (demo_reactor 16).
Proof.
  apply (@reactor_handover demo_env exact_world _ answer_handler demo_worker demo_string 9 demo_client false (demo_reactor 16));
    [apply demo_reactor_ok|done|simpl; lia|lia|apply (mo_mem _ _ (stream_state_ok connRead 16))|done|done|].
  intros i c lb' (_ & Hc & _). by eapply demo_can_take.
Defined.

Lemma shard_consumer_same_witness :
  @shard_event demo_env answer_handler demo_worker (mkCqe 0 (Z.lor closeConnFlag (uint64 7)) false) (stream_state connClose 16) =
  @consumer_event demo_env answer_handler demo_worker (mkCqe 0 (Z.lor closeConnFlag (uint64 7)) false) (stream_state connClose 16).
Proof.
  apply (@shard_consumer_same demo_env answer_handler demo_worker 7 1 (demo_stream connClose));
    [done|constructor|by vm_compute|rewrite /Stderr; lia|done|done|done|done].
Defined.

(** The consumer's state with the address of descriptor 9 and no free entry. *)
Definition full_state : St :=
  set_worker (with_socketAddresses {[9 := Some demo_client]} (st_worker (stream_state connRead 0))) (stream_state connRead 0).

Lemma full_ring_kills_consumer_witness :
  wp (process_cqes (@consumer_event demo_env answer_handler demo_worker) [mkCqe 9 addConnFlag false] 0)
     (fun r s' => (exists msg, r = (1, Some (Wrap msg ErrGettingSQE))) /\
        exists b, cm_connections (st_mgr s') = <[9 := b]> (cm_connections (st_mgr full_state)) /\
          st_log s' = [] ++ [CbAccept b] /\ st_sq s' = []) full_state.
Proof.
  apply (@full_ring_kills_consumer demo_env exact_world _ answer_handler demo_worker 9 (Some demo_client) false [] full_state);
    [apply mgr_ok_vars, stream_state_ok|done|done|done|done|intros; apply pv_ret].
Defined.

Lemma keepalive_failure_ends_acceptor_witness :
  wp (process_cqes (@acceptor_event refusing_env (mkConf 5 0 false false false 10000000000 None) demo_string true)
        [mkCqe 9 (Z.lor acceptDataFlag (uint64 5)) false] 0)
     (fun res r' => (exists msg e, res = (1, Some (Wrap msg e))) /\ r_balancer r' = r_balancer (demo_reactor 16) /\
        st_sq (r_acceptor r') = [] ++ [accept_sqe 5] /\
        st_calls (r_acceptor r') = (@SetKeepAlivePeriod (@env_kernel refusing_env) 9 (period_seconds 10000000000) []).2) (demo_reactor 16).
Proof.
  apply (@keepalive_failure_ends_acceptor refusing_env (mkConf 5 0 false false false 10000000000 None) demo_string true 9 false []
    (demo_reactor 16)); [done|simpl; lia|done|done|]. apply refusing_keepalive.
Defined.

(** The second consumer never finishes. *)
Definition second_hangs (c : consumer) : option consumer := if co_ringFd c =? 20 then Some c else None.

Lemma shutdown_consumers_in_order_witness :
  let ws := lb_workers (generic (r_balancer (demo_reactor 16))) in
  wp (@closeRingAndConsumers demo_env demo_worker second_hangs) (fun done r' =>
    let ws' := lb_workers (generic (r_balancer r')) in
    CShutdown 5 SHUT_RDWR ∈ st_calls (r_acceptor r') /\ wv_accepting (st_worker (r_acceptor r')) = false /\
    length ws' = length ws /\
    match done with
    | Some _ => forall i c, ws !! i = Some c -> exists c', second_hangs (told c) = Some c' /\ ws' !! i = Some c'
    | None => exists k c, ws !! k = Some c /\ second_hangs (told c) = None /\ ws' !! k = Some (told c) /\
        (forall i c, (i < k)%nat -> ws !! i = Some c -> exists c', second_hangs (told c) = Some c' /\ ws' !! i = Some c') /\
        (forall i, (k < i)%nat -> ws' !! i = ws !! i)
    end) (demo_reactor 16).
Proof. apply (@shutdown_consumers_in_order demo_env demo_worker second_hangs (demo_reactor 16)), demo_reactor_ok. Defined.
