(* ===== verification/LateError.v ===== *)
(** * LateError: a consumer that waits for descriptor 0 never finishes

    The error filter of [consumer_worker.go] enters a connection without a descriptor for
    an error that comes after its connection was released.  The shutdown then waits for
    descriptor 0, whose completions the event processor drops.  [quiet] operations leave
    the table, the pool and the keys of the connections alone; the only operation that
    takes a descriptor out of [releaseFdSet] is [release], and no event of a consumer
    releases key 0, so that nothing the loop may still see ends it. *)

From S2P Require Import Prelude Errors SyncPool VirtualMem MagicRing RingRefinement RingPool ByteSlicePool.
From S2P Require Import KeyPool Flags Submitter Sockaddr SocketOps GoState Conn ConnSpec ConnManager Worker WorkerSpec.
From S2P Require Import Looper StreamSpec ConsumerWorker ReactorSpec.
Local Open Scope string_scope.
Local Open Scope list_scope.
Local Open Scope Z_scope.

(** ** Operations that leave the table alone *)

(** The keys of the connections. *)
Definition keys (s : St) : gmap nat Z := c_key <$> st_conns s.

(** What the shutdown of a consumer depends on. *)
Definition table_view (s : St) :=
  (st_mgr s, st_connPool s, st_new s, keys s, wv_inProgress (st_worker s), wv_done (st_worker s)).

(** However the operation ends, the table is as before. *)
Definition quiet {A} (m : M A) : Prop := forall s v s', m s = Ret (v, s') -> table_view s' = table_view s.

Lemma run_bind {A B} (m : M A) (f : A -> M B) s v s' :
  (m ≫= f) s = Ret (v, s') -> exists a s1, m s = Ret (a, s1) /\ f a s1 = Ret (v, s').
Proof. rewrite /mbind /StateM_bind. destruct (m s) as [[a s1]|]; [|done]. eauto. Qed.

Lemma quiet_bind {A B} (m : M A) (f : A -> M B) : quiet m -> (forall a, quiet (f a)) -> quiet (m ≫= f).
Proof. intros Hm Hf s v s' (a & s1 & H1%Hm & H2%Hf)%run_bind. by rewrite H2. Qed.

Lemma quiet_ret {A} (v : A) : quiet (mret v).
Proof. by intros s w s' [= <- <-]. Qed.

Lemma quiet_lift {A} (o : outcome A) : quiet (lift o).
Proof. intros s v s'. rewrite /lift. destruct o; by intros [= <- <-]. Qed.

Lemma quiet_get_state : quiet get_state.
Proof. by intros s w s' [= <- <-]. Qed.

Lemma quiet_modify (f : St -> St) : (forall s, table_view (f s) = table_view s) -> quiet (modify f).
Proof. intros Hf s w s' [= <- <-]. apply Hf. Qed.

Lemma quiet_next_choice : quiet next_choice.
Proof. by intros s w s' [= <- <-]. Qed.

Lemma quiet_panic {A} p : quiet (@panic A p).
Proof. done. Qed.

Lemma quiet_load a : quiet (load a).
Proof. intros s w s'. rewrite /load. destruct (st_conns s !! a); by intros [= <- <-]. Qed.

Lemma keys_store a c f m : m !! a = Some c -> c_key (f c) = c_key c -> c_key <$> <[a := f c]> m = (c_key <$> m : gmap nat Z).
Proof. intros Ha Hf. rewrite fmap_insert insert_id // lookup_fmap Ha /= Hf. done. Qed.

Lemma quiet_store a f : (forall c, c_key (f c) = c_key c) -> quiet (store a f).
Proof.
  intros Hf s w s'. rewrite /store. destruct (st_conns s !! a) as [c|] eqn:Ha; intros [= <- <-].
  by rewrite /table_view /keys /= (keys_store a c).
Qed.

Create HintDb quiet.
#[export] Hint Resolve quiet_ret quiet_lift quiet_get_state quiet_next_choice quiet_panic quiet_load : quiet.

(** Goes through the statements of an operation. *)
Ltac quiet_steps :=
  repeat (cbn beta iota;
    match goal with
    | |- forall _, quiet _ => intros ?
    | |- quiet (mbind _ _) => apply quiet_bind
    | |- quiet (modify _) => apply quiet_modify; by intros ?
    | |- quiet (store _ _) => apply quiet_store; by intros ?
    | |- quiet (match ?x with _ => _ end) => destruct x
    | |- quiet (when ?b _) => rewrite /when
    | |- quiet _ => solve [auto with quiet nocore]
    end).

Section Quiet.
Context {env : Env}.

Lemma quiet_mod_vars f : (forall v, wv_inProgress (f v) = wv_inProgress v /\ wv_done (f v) = wv_done v) -> quiet (mod_vars f).
Proof. intros Hf. apply quiet_modify. intros s. destruct (Hf (st_worker s)) as [H1 H2]. by rewrite /table_view /= H1 H2. Qed.

Lemma quiet_on_inbound {A} a (f : RingBuffer -> World -> outcome (A * RingBuffer * World)) : quiet (on_inbound a f).
Proof. rewrite /on_inbound. quiet_steps. Qed.

Lemma quiet_on_outbound {A} a (f : RingBuffer -> World -> outcome (A * RingBuffer * World)) : quiet (on_outbound a f).
Proof. rewrite /on_outbound. quiet_steps. Qed.

Lemma quiet_sys_setter f : quiet (sys_setter f).
Proof. rewrite /sys_setter. quiet_steps. Qed.

Lemma quiet_userOpAllowed a name : quiet (userOpAllowed a name).
Proof. rewrite /userOpAllowed. quiet_steps. Qed.

Hint Resolve quiet_on_inbound quiet_on_outbound quiet_sys_setter quiet_userOpAllowed : quiet.

Lemma quiet_guarded {A} a name (fail : A) op : quiet op -> quiet (guarded a name fail op).
Proof. intros Hop. rewrite /guarded. quiet_steps. Qed.

(** The code of an event handler. *)
Lemma quiet_run_op a op : quiet (run_op a op).
Proof.
  destruct op; rewrite /run_op; apply quiet_bind; try (by quiet_steps);
    rewrite /conn_Read /conn_Write /conn_Next /conn_Peek /conn_Discard /conn_Close /conn_SetContext /InboundBuffered /OutboundBuffered
      /conn_SetReadBuffer /conn_SetWriteBuffer /conn_SetLinger /conn_SetNoDelay /conn_SetKeepAlivePeriod;
    try apply quiet_guarded; quiet_steps.
Qed.

Lemma quiet_run_prog a p : quiet (run_prog a p).
Proof. induction p as [|msg|op k IH]; simpl; [apply quiet_ret|apply quiet_panic|]. apply quiet_bind; [apply quiet_run_op|exact IH]. Qed.

Hint Resolve quiet_run_prog : quiet.

Lemma quiet_run_handler handler a cb : quiet (run_handler handler a cb).
Proof. rewrite /run_handler /log_callback. quiet_steps. Qed.

(** The requests. *)
Lemma quiet_addCloseConnRequest a : quiet (addCloseConnRequest a).
Proof. rewrite /addCloseConnRequest /addCloseRequest /push_sqe. quiet_steps. Qed.

Lemma quiet_addReadRequest b a : quiet (addReadRequest b a).
Proof. rewrite /addReadRequest /inboundWriteAddress /push_sqe /setKernelSpace. quiet_steps. Qed.

Lemma quiet_addWriteRequest b a link : quiet (addWriteRequest b a link).
Proof. rewrite /addWriteRequest /outboundReadAddress /push_sqe /setKernelSpace. quiet_steps. Qed.

Hint Resolve quiet_run_handler quiet_addCloseConnRequest quiet_addReadRequest quiet_addWriteRequest : quiet.

Lemma quiet_addNextRequest w a : quiet (addNextRequest w a).
Proof. rewrite /addNextRequest /isClosed /OutboundBuffered. quiet_steps. Qed.

Lemma quiet_dispatch handler w a n : quiet (dispatch handler w a n).
Proof.
  rewrite /dispatch /work /read_tail /writeData /setMsgHeaderWrite /setUserSpace /isClosed /OutboundBuffered /outboundReadAddress.
  quiet_steps.
Qed.

Lemma quiet_onWritten handler a n : quiet (onWritten handler a n).
Proof. rewrite /onWritten /onKernelWrite /setUserSpace. quiet_steps. Qed.

Lemma quiet_handleAsyncWritesIfEnabled w fuel : quiet (handleAsyncWritesIfEnabled w fuel).
Proof.
  rewrite /handleAsyncWritesIfEnabled. case_match; [|apply quiet_ret]. induction fuel as [|fuel IH]; simpl; [apply quiet_ret|].
  rewrite /handleAsyncOp /setMsgHeaderWrite /isClosed /OutboundBuffered /outboundReadAddress. quiet_steps.
Qed.

(** What the kernel and the acceptor write while the worker waits. *)
Lemma quiet_kernel_stores l : quiet (kernel_stores l).
Proof.
  induction l as [|kw l IH]; simpl; [apply quiet_ret|]. apply quiet_bind; [|done].
  destruct kw; simpl; rewrite /kernel_fill /setSocketAddr /addConnToQueue; quiet_steps; by apply quiet_mod_vars.
Qed.

End Quiet.

#[export] Hint Resolve quiet_run_handler quiet_addCloseConnRequest quiet_addReadRequest quiet_addWriteRequest quiet_addNextRequest
  quiet_dispatch quiet_onWritten quiet_handleAsyncWritesIfEnabled quiet_kernel_stores quiet_on_inbound quiet_sys_setter : quiet.

(** ** The invariant *)

(** The consumer is shutting down and waits for descriptor 0. *)
Record undrained (s : St) : Prop := {
  ud_waits : 0 ∈ cm_releaseFdSet (st_mgr s);
  ud_progress : wv_inProgress (st_worker s) = true;
  ud_conn k a : cm_connections (st_mgr s) !! k = Some a -> keys s !! a = Some k;
  ud_disjoint k a : cm_connections (st_mgr s) !! k = Some a -> a ∉ internalPool (st_connPool s);
  ud_nodup : NoDup (internalPool (st_connPool s));
  ud_pool a : a ∈ internalPool (st_connPool s) -> is_Some (keys s !! a);
  ud_new a : is_Some (keys s !! a) -> (a < st_new s)%nat
}.

Lemma undrained_view s s' : table_view s' = table_view s -> undrained s -> undrained s'.
Proof. intros [= Hm Hp Hn Hk Hi Hd] [H1 H2 H3 H4 H5 H6 H7]. split; rewrite ?Hm ?Hp ?Hn ?Hk ?Hi; done. Qed.

Lemma quiet_undrained {A} (m : M A) s v s' : quiet m -> m s = Ret (v, s') -> undrained s -> undrained s'.
Proof. intros Hm Hr%Hm. by apply undrained_view. Qed.

Lemma undrained_waits s : undrained s -> allClosed (st_mgr s) = false.
Proof.
  intros Hu. rewrite /allClosed. destruct (Nat.eqb_spec (size (cm_releaseFdSet (st_mgr s))) 0) as [He|]; [|by rewrite andb_false_r].
  apply size_empty_inv in He. have := ud_waits _ Hu. set_solver.
Qed.

(** The consumer keeps waiting, and nobody is told that it has finished. *)
Definition waits_on (s s' : St) : Prop := undrained s' /\ wv_done (st_worker s') = wv_done (st_worker s).

#[export] Instance waits_on_trans : Transitive waits_on.
Proof. intros s1 s2 s3 [_ H1] [H2 H3]. split; [done|]. by rewrite H3. Qed.

Lemma quiet_waits {A} (m : M A) s v s' : quiet m -> m s = Ret (v, s') -> undrained s -> waits_on s s'.
Proof. intros Hm Hr Hu. split; [by eapply quiet_undrained|]. apply Hm in Hr. by injection Hr. Qed.

Section Waiting.
Context {env : Env}.

Lemma quiet_ring_get : quiet ring_get.
Proof. rewrite /ring_get. quiet_steps. Qed.

Lemma quiet_ring_put b : quiet (ring_put b).
Proof. rewrite /ring_put. quiet_steps. Qed.

Hint Resolve quiet_ring_get quiet_ring_put : quiet.

(** A connection taken from the pool, or a new one. *)
Record taken (a : nat) (s s' : St) : Prop := {
  tk_mgr : st_mgr s' = st_mgr s;
  tk_progress : wv_inProgress (st_worker s') = wv_inProgress (st_worker s);
  tk_done : wv_done (st_worker s') = wv_done (st_worker s);
  tk_pool : exists l, internalPool (st_connPool s) ≡ₚ l ++ internalPool (st_connPool s') /\
    (l = [a] \/ (l = [] /\ a = st_new s));
  tk_new : st_new s' = (if decide (a = st_new s) then S (st_new s) else st_new s);
  tk_keys : keys s' = keys s \/ (a = st_new s /\ keys s' = <[a := 0]> (keys s))
}.

Lemma getConnection_taken s a s' : undrained s -> getConnection s = Ret (a, s') -> taken a s s'.
Proof.
  intros Hu. rewrite /getConnection /connectionPool_Get. intros (choice & s1 & H1%quiet_next_choice & Hr)%run_bind.
  apply run_bind in Hr as (s2 & s3 & [= <- <-] & Hr). cbn beta in Hr. destruct (pool_Get choice (st_connPool s1)) as [o p] eqn:Hget.
  apply run_bind in Hr as (u & s3 & [= _ <-] & Hr). injection H1 as Hm Hp Hn Hk Hi Hd.
  destruct o as [b|].
  - have Hperm := pool_Get_Permutation _ _ _ _ Hget.
    have Hb : quiet (inb ← ring_get; _ ← store b (with_inbound (Some inb)); outb ← ring_get; _ ← store b (with_outbound (Some outb)); mret b)
      by quiet_steps.
    have Hab : a = b.
    { apply run_bind in Hr as (? & ? & _ & Hr). apply run_bind in Hr as (? & ? & _ & Hr). apply run_bind in Hr as (? & ? & _ & Hr).
      apply run_bind in Hr as (? & ? & _ & Hr). by injection Hr. }
    subst b. apply Hb in Hr. injection Hr as Hm' Hp' Hn' Hk' Hi' Hd'.
    have Hlt : (a < st_new s)%nat. { apply (ud_new _ Hu), (ud_pool _ Hu). rewrite -Hp Hperm. by left. }
    split; rewrite ?Hm' ?Hp' ?Hn' ?Hk' ?Hi' ?Hd'; cbn; try congruence.
    + exists [a]. rewrite -Hp Hperm. split; [done|by left].
    + rewrite decide_False; [lia|congruence].
    + left. exact Hk.
  - have Hpe := pool_Get_None _ _ _ Hget. subst p. rewrite /newConnection in Hr.
    apply run_bind in Hr as (inb & s4 & H4%quiet_ring_get & Hr). apply run_bind in Hr as (outb & s5 & H5%quiet_ring_get & Hr).
    apply run_bind in Hr as (b & s6 & [= <- <-] & Hr). apply run_bind in Hr as (u' & s7 & [= <- <-] & [= <- <-]).
    injection H4 as Hm4 Hp4 Hn4 Hk4 Hi4 Hd4. injection H5 as Hm5 Hp5 Hn5 Hk5 Hi5 Hd5. cbn in *.
    have Hnew : st_new s5 = st_new s by congruence.
    split; cbn; try congruence.
    + exists []. split; [|by right]. simpl. by rewrite Hp5 Hp4 Hp.
    + rewrite decide_True //. by rewrite Hnew.
    + right. split; [done|]. rewrite /keys /= fmap_insert /=. f_equal. rewrite /keys in Hk4 Hk5 Hk. by rewrite Hk5 Hk4.
Qed.

(** Looking a connection up, entering it if it is not there. *)
Lemma get_waits k fd s a s' :
  undrained s -> connectionManager_get k fd s = Ret (a, s') -> waits_on s s' /\ keys s' !! a = Some k.
Proof.
  intros Hu. rewrite /connectionManager_get. intros (s0 & s2 & [= <- <-] & Hr)%run_bind.
  destruct (cm_connections (st_mgr s) !! k) as [b|] eqn:Hk.
  { injection Hr as -> ->. split; [split; done|]. by apply (ud_conn _ Hu). }
  apply run_bind in Hr as (b & s2 & Hg%getConnection_taken & Hr); [|done].
  apply run_bind in Hr as (u & s3 & H3%quiet_store & Hr); [|done]. apply run_bind in Hr as (u' & s4 & H4 & Hr).
  apply run_bind in Hr as (u'' & s5 & [= _ <-] & [= <- <-]).
  rewrite /store in H4. destruct (st_conns s3 !! b) as [c|] eqn:Hc; simpl in H4; [|done]. injection H4 as _ <-.
  injection H3 as Hm3 Hp3 Hn3 Hk3 Hi3 Hd3.
  destruct Hg as [Hm Hi Hd (l & Hl & Hcase) Hn Hkeys]. destruct Hu as [U1 U2 U3 U4 U5 U6 U7].
  have Hks : keys s3 = keys s \/ keys s3 = <[b := 0]> (keys s) by rewrite Hk3; destruct Hkeys as [->|[_ ->]]; auto.
  have Hnew x : x = st_new s -> keys s !! x = None.
  { intros ->. destruct (keys s !! st_new s) eqn:E; [|done]. have := U7 _ (mk_is_Some _ _ E). lia. }
  have Hb k' : cm_connections (st_mgr s) !! k' <> Some b.
  { intros Hk'. destruct Hcase as [->|[-> Hb]]; [apply (U4 _ _ Hk'); rewrite Hl; by left|].
    have := U3 _ _ Hk'. by rewrite Hnew. }
  have Hkb x : x <> b -> (<[b := k]> (keys s3)) !! x = keys s !! x.
  { intros Hx. rewrite lookup_insert_ne //. destruct Hks as [->| ->]; [done|by rewrite lookup_insert_ne]. }
  have Hbn : b ∉ internalPool (st_connPool s2).
  { destruct Hcase as [->|[-> Hb']]; [rewrite Hl in U5; by apply NoDup_cons in U5 as [? _]|].
    intros Hin. have [x Hx] : is_Some (keys s !! b) by apply U6; rewrite Hl. by rewrite Hnew in Hx. }
  have Hkey : keys (set_mgr (put_conn k b (st_mgr s3)) (set_conns (<[b := with_key k c]> (st_conns s3)) s3)) = <[b := k]> (keys s3)
    by rewrite /keys /= fmap_insert.
  split; [split|]; [split|..]; rewrite ?Hkey; cbn [set_mgr set_conns put_conn st_mgr st_connPool st_new st_worker cm_releaseFdSet cm_connections].
  - by rewrite Hm3 Hm.
  - by rewrite Hi3 Hi.
  - rewrite Hm3 Hm. intros k' a'. rewrite lookup_insert_Some. intros [[<- <-]|[_ Hk']]; [by rewrite lookup_insert_eq|].
    rewrite Hkb; [|by apply U3]. intros ->. by apply (Hb k').
  - rewrite Hm3 Hm Hp3. intros k' a'. rewrite lookup_insert_Some. intros [[<- <-]|[_ Hk']]; [done|].
    intros Hin. apply (U4 _ _ Hk'). rewrite Hl. apply elem_of_app. by right.
  - rewrite Hp3. rewrite Hl in U5. by apply NoDup_app in U5 as (_ & _ & ?).
  - rewrite Hp3. intros x Hx. rewrite Hkb; [by intros ->|]. apply U6. rewrite Hl. apply elem_of_app. by right.
  - rewrite Hn3 Hn. intros x Hx. destruct (decide (x = b)) as [->|Hne].
    + case_decide; [lia|]. destruct Hcase as [->|[_ ?]]; [|done]. apply U7, U6. rewrite Hl. by left.
    + rewrite Hkb // in Hx. apply U7 in Hx. case_decide; lia.
  - by rewrite Hd3 Hd.
  - by rewrite lookup_insert_eq.
Qed.

(** Giving a connection back to the pool. *)
Lemma putConnection_view b s v s' :
  putConnection b s = Ret (v, s') ->
  st_mgr s' = st_mgr s /\ st_new s' = st_new s /\ keys s' = <[b := 0]> (keys s) /\
  internalPool (st_connPool s') = b :: internalPool (st_connPool s) /\
  wv_inProgress (st_worker s') = wv_inProgress (st_worker s) /\ wv_done (st_worker s') = wv_done (st_worker s).
Proof.
  rewrite /putConnection /connectionPool_Put. intros (c & s1 & H1%quiet_load & Hr)%run_bind.
  apply run_bind in Hr as (u & s2 & H2%quiet_ring_put & Hr). apply run_bind in Hr as (u' & s3 & H3%quiet_ring_put & Hr).
  apply run_bind in Hr as (u'' & s4 & H4 & [= _ <-]). rewrite /store in H4.
  destruct (st_conns s3 !! b) as [c'|]; simpl in H4; [|done]. injection H4 as _ <-.
  have H : table_view s3 = table_view s by congruence. injection H as Hm Hp Hn Hk Hi Hd.
  rewrite /keys /= fmap_insert. rewrite /keys in Hk. rewrite Hk /=. split_and!; congruence.
Qed.

(** Releasing another key than 0 leaves descriptor 0 waited for. *)
Lemma release_waits k s v s' : undrained s -> k <> 0 -> release k s = Ret (v, s') -> waits_on s s'.
Proof.
  intros Hu Hk0. rewrite /release. intros (s0 & s1 & [= <- <-] & Hr)%run_bind.
  destruct (cm_connections (st_mgr s) !! k) as [b|] eqn:Hk; [|by injection Hr as _ <-].
  apply run_bind in Hr as (u & s1 & [= _ <-] & Hr). apply run_bind in Hr as (u1 & s2 & H2%putConnection_view & Hr).
  apply run_bind in Hr as (u2 & s3 & [= _ <-] & Hr). apply run_bind in Hr as (c & s4 & H4%quiet_load & [= _ <-]).
  destruct H2 as (Hm & Hn & Hks & Hp & Hi & Hd). injection H4 as Hm4 Hp4 Hn4 Hk4 Hi4 Hd4. cbn in Hm, Hn, Hp, Hi, Hd.
  destruct Hu as [U1 U2 U3 U4 U5 U6 U7].
  have Hb k' : k' <> k -> cm_connections (st_mgr s) !! k' <> Some b.
  { intros Hne Hk'%U3. apply U3 in Hk. rewrite Hk in Hk'. congruence. }
  change (keys (set_mgr _ s2)) with (keys s2) in Hk4. rewrite Hks in Hk4. change (keys (set_mgr _ s)) with (keys s) in Hk4.
  split; [split|]; cbn [mod_mgr modify set_mgr set_keyPool set_releaseFdSet st_mgr st_connPool st_new st_worker cm_releaseFdSet cm_connections].
  - rewrite Hm4. cbn. rewrite Hm. cbn. set_solver.
  - by rewrite Hi4 /= Hi.
  - rewrite Hm4. cbn. rewrite Hm. cbn. intros k' a' [Hne Hk']%lookup_delete_Some. change (c_key <$> _) with (keys s4).
    rewrite Hk4 lookup_insert_ne; [|by apply U3]. intros <-. by apply (Hb k').
  - rewrite Hm4 Hp4. cbn. rewrite Hm Hp. cbn. intros k' a' [Hne Hk']%lookup_delete_Some. apply not_elem_of_cons.
    split; [|by eapply U4]. intros ->. by apply (Hb k').
  - rewrite Hp4. cbn. rewrite Hp. apply NoDup_cons. split; [by eapply U4|done].
  - rewrite Hp4. cbn. rewrite Hp. change (c_key <$> _) with (keys s4). rewrite Hk4. intros x Hx.
    destruct (decide (x = b)) as [->|Hne]; [by rewrite lookup_insert_eq|]. rewrite lookup_insert_ne //. apply U6. set_solver.
  - change (keys _) with (keys s4). rewrite Hk4 Hn4. cbn. rewrite Hn. intros x.
    destruct (decide (x = b)) as [->|Hne]; [|rewrite lookup_insert_ne //; by apply U7]. intros _. apply U7. rewrite (U3 _ _ Hk). by eexists.
  - by rewrite Hd4 /= Hd.
Qed.

Context (handler : EventHandler) (w : workerConf).

Lemma view_key s s' a : table_view s' = table_view s -> keys s' !! a = keys s !! a.
Proof. by intros [= _ _ _ -> _ _]. Qed.

Lemma closeConn_waits a b err s v s' k :
  undrained s -> keys s !! a = Some k -> k <> 0 -> closeConn handler a b err s = Ret (v, s') -> waits_on s s'.
Proof.
  intros Hu Hk Hk0. rewrite /closeConn /syscallCloseSocket /setUserSpace /isClosed. intros (c & s1 & H1%quiet_load & Hr)%run_bind.
  apply run_bind in Hr as (u & s2 & H2 & Hr). apply run_bind in Hr as (u1 & s3 & H3%quiet_store & Hr); [|done].
  apply run_bind in Hr as (cl & s4 & H4 & Hr). apply run_bind in Hr as (u2 & s5 & H5 & Hr).
  apply run_bind in Hr as (u3 & s6 & H6%quiet_run_handler & Hr). apply run_bind in Hr as (c' & s7 & H7 & Hr).
  have {}H2 : table_view s2 = table_view s1. { revert H2. match goal with |- ?m _ = _ -> _ => have Hq : quiet m by quiet_steps end. apply Hq. }
  have {}H4 : table_view s4 = table_view s3. { revert H4. match goal with |- ?m _ = _ -> _ => have Hq : quiet m by quiet_steps end. apply Hq. }
  have {}H5 : table_view s5 = table_view s4.
  { revert H5. match goal with |- ?m _ = _ -> _ => have Hq : quiet m by rewrite /conn_Close; quiet_steps end. apply Hq. }
  have H : table_view s6 = table_view s by congruence.
  rewrite /load in H7. destruct (st_conns s6 !! a) as [c6|] eqn:Hc; simpl in H7; [|done]. injection H7 as <- <-.
  have Hkey : c_key c6 = k. { have := view_key s s6 a H. rewrite Hk /keys lookup_fmap Hc /=. by intros [= ->]. }
  have Hd : wv_done (st_worker s6) = wv_done (st_worker s) by injection H.
  rewrite Hkey in Hr. destruct (release_waits _ _ _ _ (undrained_view _ _ H Hu) Hk0 Hr) as [Hu' Hd']. split; [done|congruence].
Qed.

(** An operation after which the key of the connection is what it was. *)
Lemma quiet_key {A} (m : M A) s v s' a k :
  quiet m -> m s = Ret (v, s') -> undrained s -> keys s !! a = Some k -> waits_on s s' /\ keys s' !! a = Some k.
Proof. intros Hm Hr Hu Hk. split; [by eapply quiet_waits|]. rewrite -Hk. apply view_key. by eapply Hm. Qed.

(** The body of [handleConn] before its error is reported. *)
Lemma onRead_waits cqe a s v s' k :
  w_sendRecvMsg w = false -> undrained s -> keys s !! a = Some k -> k <> 0 -> onRead handler w cqe a s = Ret (v, s') ->
  waits_on s s' /\ (v <> None -> keys s' !! a = Some k).
Proof.
  intros Htcp Hu Hk Hk0. rewrite /onRead Htcp. case_match.
  - intros (u & s1 & Hr & [= <- <-])%run_bind. split; [by eapply closeConn_waits|done].
  - intros Hr. match type of Hr with ?m _ = _ => have Hq : quiet m by rewrite /onKernelRead /isClosed; quiet_steps end.
    destruct (quiet_key _ _ _ _ a k Hq Hr Hu Hk). by split.
Qed.

Lemma handleConn_waits a cqe s v s' k :
  w_sendRecvMsg w = false -> undrained s -> keys s !! a = Some k -> k <> 0 ->
  consumer_handleConn handler w a cqe s = Ret (v, s') -> waits_on s s'.
Proof.
  intros Htcp Hu Hk Hk0. rewrite /consumer_handleConn. intros (c & s1 & H1 & Hr)%run_bind.
  destruct (quiet_key _ _ _ _ a k (quiet_load a) H1 Hu Hk) as [Hw1 Hk1]. apply run_bind in Hr as (err & s2 & H2 & Hr).
  have [Hw2 Hk2] : waits_on s1 s2 /\ (err <> None -> keys s2 !! a = Some k).
  { destruct (c_state c).
    - destruct (quiet_key _ _ _ _ a k (quiet_ret _) H2 (proj1 Hw1) Hk1). by split.
    - destruct (quiet_key _ _ _ _ a k (quiet_ret _) H2 (proj1 Hw1) Hk1). by split.
    - by eapply onRead_waits; [|apply Hw1|..].
    - match type of H2 with ?m _ = _ => have Hq : quiet m by quiet_steps end.
      destruct (quiet_key _ _ _ _ a k Hq H2 (proj1 Hw1) Hk1). by split.
    - apply run_bind in H2 as (u & s3 & H3 & [= <- <-]). split; [|done]. case_match; [by eapply closeConn_waits; [apply Hw1|..]|].
      eapply quiet_waits; [|exact H3|apply Hw1]. quiet_steps. }
  etransitivity; [exact Hw1|]. etransitivity; [exact Hw2|]. destruct err as [e|].
  - eapply closeConn_waits; [apply Hw2|by apply Hk2|done|done].
  - injection Hr as _ <-. split; [apply Hw2|done].
Qed.

Lemma handleNewConn_waits fd s v s' : undrained s -> handleNewConn handler w fd s = Ret (v, s') -> waits_on s s'.
Proof.
  intros Hu. rewrite /handleNewConn. intros (a & s1 & H1 & Hr)%run_bind. destruct (get_waits _ _ _ _ _ Hu H1) as [Hw _].
  etransitivity; [exact Hw|]. eapply quiet_waits; [|exact Hr|apply Hw]. rewrite /take_address /setUserSpace. quiet_steps. by apply quiet_mod_vars.
Qed.

(** No completion of any kind ends the wait for descriptor 0. *)
Lemma event_waits cqe s v s' : w_sendRecvMsg w = false -> undrained s -> consumer_event handler w cqe s = Ret (v, s') -> waits_on s s'.
Proof.
  intros Htcp Hu. rewrite /consumer_event. intros (exit & s1 & H1 & Hr)%run_bind.
  have Hw1 : waits_on s s1.
  { rewrite /processEvent in H1. case_match; [|by injection H1 as _ <-]. apply run_bind in H1 as (u & s2 & H2 & [= _ <-]).
    apply run_bind in H2 as (a & s3 & H3 & [= _ <-]). by eapply get_waits. }
  etransitivity; [exact Hw1|]. destruct exit; [injection Hr as _ <-; split; [apply Hw1|done]|].
  case_match; [by eapply handleNewConn_waits; [apply Hw1|]|]. case_match eqn:Hfd; [injection Hr as _ <-; split; [apply Hw1|done]|].
  apply Z.ltb_ge in Hfd. apply run_bind in Hr as (a & s2 & H2 & Hr). destruct (get_waits _ _ _ _ _ (proj1 Hw1) H2) as [Hw2 Hk].
  apply run_bind in Hr as (u & s3 & H3 & [= _ <-]). etransitivity; [exact Hw2|].
  eapply handleConn_waits; [done|apply Hw2|exact Hk|rewrite /Stderr in Hfd; lia|exact H3].
Qed.

Lemma process_waits l i s v s' :
  w_sendRecvMsg w = false -> undrained s -> process_cqes (consumer_event handler w) l i s = Ret (v, s') -> waits_on s s'.
Proof.
  intros Htcp. revert i s. induction l as [|e l IH]; intros i s Hu; simpl; [by intros [= _ <-]|].
  intros (err & s1 & H1 & Hr)%run_bind. have Hw := event_waits _ _ _ _ Htcp Hu H1. etransitivity; [exact Hw|].
  destruct err; [injection Hr as _ <-; split; [apply Hw|done]|]. by eapply IH; [apply Hw|].
Qed.

Lemma queue_waits fuel s v s' : undrained s -> getConnsFromQueue handler w fuel s = Ret (v, s') -> waits_on s s'.
Proof.
  revert s. induction fuel as [|fuel IH]; intros s Hu; simpl; [by intros [= _ <-]|]. intros (s0 & s1 & [= <- <-] & Hr)%run_bind.
  destruct (wv_connQueue (st_worker s)) as [[|fd q]|]; [by injection Hr as _ <-| |done].
  apply run_bind in Hr as (u & s1 & H1 & Hr). apply run_bind in Hr as (err & s2 & H2 & Hr).
  have Hw1 : waits_on s s1 by eapply quiet_waits; [|exact H1|done]; apply quiet_mod_vars.
  have Hw2 := handleNewConn_waits _ _ _ _ (proj1 Hw1) H2.
  etransitivity; [exact Hw1|]. etransitivity; [exact Hw2|]. by eapply IH; [apply Hw2|].
Qed.

Lemma jobs_wait fuel s v s' : undrained s -> handleJobsInQueues handler w fuel s = Ret (v, s') -> waits_on s s'.
Proof.
  intros Hu. rewrite /handleJobsInQueues. intros (s0 & s1 & [= <- <-] & Hr)%run_bind. apply run_bind in Hr as (u & s1 & H1 & Hr).
  apply run_bind in Hr as (u' & s2 & H2 & [= _ <-]).
  have Hw1 : waits_on s s1.
  { case_match; [|by injection H1 as _ <-]. apply run_bind in H1 as (u1 & s3 & H3 & [= _ <-]). by eapply queue_waits. }
  etransitivity; [exact Hw1|]. eapply quiet_waits; [|exact H2|apply Hw1]. quiet_steps.
Qed.

(** The end of a round: the loop goes on. *)
Lemma finish_waits fuel maxCQ sub s v s' :
  undrained s -> finish_round (consumer_looper handler w fuel maxCQ) sub s = Ret (v, s') -> waits_on s s' /\ v = LoopContinue sub.
Proof.
  intros Hu. rewrite /finish_round. intros (u & s1 & H1 & Hr)%run_bind. have Hw := jobs_wait _ _ _ _ Hu H1.
  apply run_bind in Hr as (stop & s2 & H2 & [= <- <-]). cbn [consumer_looper loopFinishCondition] in H2.
  rewrite /consumer_loopFinishCondition in H2. apply run_bind in H2 as (s3 & s4 & [= <- <-] & H2).
  rewrite (undrained_waits _ (proj1 Hw)) in H2. by injection H2 as <- <-.
Qed.

(** A round of the loop: it continues, or a completion has failed and it returns an error. *)
Lemma round_waits fuel maxCQ sub rd s v s' :
  w_sendRecvMsg w = false -> undrained s ->
  loop_round (consumer_looper handler w fuel maxCQ) (consumer_event handler w) sub rd s = Ret (v, s') ->
  waits_on s s' /\ match v with LoopReturn err => err <> None | _ => True end.
Proof.
  intros Htcp Hu. rewrite /loop_round. intros (cont & s1 & H1 & Hr)%run_bind.
  cbn [consumer_looper shutdownHandler] in H1. rewrite /consumer_shutdownHandler in H1. apply run_bind in H1 as (s0 & s2 & [= <- <-] & H1).
  rewrite /needToShutdown (ud_progress _ Hu) andb_false_r in H1. injection H1 as <- <-.
  apply run_bind in Hr as ([err sub'] & s1 & H1%quiet_lift & Hr). cbn iota in Hr.
  apply run_bind in Hr as (u & s2 & H2 & Hr). apply run_bind in Hr as (u1 & s3 & H3 & Hr). apply run_bind in Hr as (u2 & s4 & H4 & Hr).
  have {}H2 : table_view s2 = table_view s1 by injection H2 as _ <-.
  apply quiet_kernel_stores in H3. have {}H4 : table_view s4 = table_view s3.
  { revert H4. rewrite /when. destruct (rr_stop rd); [|by intros [= _ <-]]. by apply quiet_mod_vars. }
  have Hv : table_view s4 = table_view s by congruence.
  have Hw : waits_on s s4 by split; [by eapply undrained_view|injection Hv].
  destruct err as [e|].
  - destruct (errors_Is e ErrSkippable); [|injection Hr as <- <-; by split].
    destruct (finish_waits _ _ _ _ _ _ (proj1 Hw) Hr) as [Hw' ->]. split; [by etransitivity|done].
  - apply run_bind in Hr as ([n err] & s5 & H5 & Hr). have Hw5 := process_waits _ _ _ _ _ Htcp (proj1 Hw) H5. cbn iota in Hr.
    apply run_bind in Hr as (sub2 & s6 & H6%quiet_lift & Hr).
    have Hw6 : waits_on s s6.
    { etransitivity; [exact Hw|]. etransitivity; [exact Hw5|]. split; [eapply undrained_view; [exact H6|apply Hw5]|by injection H6]. }
    destruct err as [e|]; [injection Hr as <- <-; by split|].
    destruct (finish_waits _ _ _ _ _ _ (proj1 Hw6) Hr) as [Hw' ->]. split; [by etransitivity|done].
Qed.

(** Whatever the ring does in the coming rounds, the loop does not finish its shutdown. *)
Lemma loop_waits fuel maxCQ rounds sub s r s' :
  w_sendRecvMsg w = false -> undrained s ->
  innerLoop (consumer_looper handler w fuel maxCQ) (consumer_event handler w) sub rounds s = Ret (r, s') ->
  waits_on s s' /\ r <> Some None.
Proof.
  intros Htcp. revert sub s. induction rounds as [|rd rounds IH]; intros sub s Hu; simpl; [by intros [= <- <-]|].
  intros (v & s1 & H1 & Hr)%run_bind. destruct (round_waits _ _ _ _ _ _ _ Htcp Hu H1) as [Hw Hv]. destruct v as [sub'|err|].
  - destruct (IH _ _ (proj1 Hw) Hr) as [Hw' Hn]. split; [by etransitivity|done].
  - injection Hr as <- <-. split; [done|]. by intros [= ->].
  - by injection Hr as <- <-.
Qed.

End Waiting.

(** ** Properties *)

(** A state of a worker that waits, from the invariant of its table. *)
Lemma undrained_intro {env : Env} P s :
  mgr_ok P s -> 0 ∈ cm_releaseFdSet (st_mgr s) -> wv_inProgress (st_worker s) = true -> undrained s.
Proof.
  intros [_ Hc Hp Hnd Hdis Hnew _ _] H0 Hi. split; try done.
  - intros k a (c & Ha & _ & <-)%Hc. by rewrite /keys lookup_fmap Ha.
  - intros a (c & Ha & _)%Hp. rewrite /keys lookup_fmap Ha. by eexists.
  - intros a [k Ha]. rewrite /keys lookup_fmap in Ha. apply Hnew. destruct (st_conns s !! a); [by eexists|done].
Qed.

(** C39. An error of a connection the consumer no longer has keeps the consumer from ever
    finishing its shutdown. Reporting the error enters a connection without a descriptor
    under the old key; the shutdown, asked for after it, then waits for descriptor 0 and
    queues a close request for it; and whatever the ring answers in any number of later
    rounds, the close of descriptor 0 included, as long as nothing panics, the loop does
    not return in order (it goes on, or ends with an error), descriptor 0 is still waited
    for, and [notifyFinish] is never called, so that the goroutine in [shutdown] is not
    woken. Conditions: a consumer of stream connections, with a well-formed table whose
    keys are the descriptors, no shutdown begun before, and room in the submission queue
    for a close request of each connection. *)
Theorem late_error_blocks_shutdown {env : Env} P `{!EnvLaws env P} handler w k flag errno nonempty s :
  w_sendRecvMsg w = false -> wv_inProgress (st_worker s) = false ->
  mgr_ok P s -> stream_table s -> cm_connections (st_mgr s) !! k = None -> 0 <= k < 2 ^ 31 -> is_flag flag -> 0 < errno ->
  Z.of_nat (size (cm_connections (st_mgr s))) < free_slots s ->
  wp (_ ← consumer_event handler w (mkCqe (- errno) (Z.lor flag (uint64 k)) nonempty);
      _ ← shutdown_signal;
      consumer_shutdownHandler)
     (fun _ s1 => close_entry 0 ∈ st_sq s1 /\ st_log s1 = st_log s /\
        forall fuel maxCQ sub rounds r s2,
          innerLoop (consumer_looper handler w fuel maxCQ) (consumer_event handler w) sub rounds s1 = Ret (r, s2) ->
          r <> Some None /\ 0 ∈ cm_releaseFdSet (st_mgr s2) /\ wv_done (st_worker s2) = wv_done (st_worker s)) s.
Proof.
  intros Htcp Hpr Hm Htab Hfree Hk Hflag Herr Hsq. destruct (event_data flag k Hflag Hk) as (_ & Hkey & _).
  wp_step. rewrite {1}/consumer_event /processEvent. cbn [cqe_Res cqe_UserData]. destruct (Z.ltb_spec (- errno) 0); [|lia].
  rewrite Hkey. wp_steps. eapply (wp_get_new (P := P)); [done..|].
  intros a s1 (Hm1 & (Hq1 & Hqs1 & _ & Hl1 & _ & _ & Hwv) & Hb1 & Hnew & Hmap1 & _ & _ & _ & c0 & Hc0 & _). wp_steps.
  rewrite /shutdown_signal /mod_vars /consumer_shutdownHandler. wp_steps.
  rewrite /needToShutdown. cbn [set_worker st_worker with_shutdowning wv_shutdowning wv_inProgress].
  rewrite Hwv Hpr. cbn [andb negb when]. wp_steps.
  set (s1' := set_worker _ s1). have Hm1' : mgr_ok P s1' by apply mgr_ok_vars.
  set (f := fun k' : Z => if k' =? k then 0 else k').
  eapply wp_mono; [apply (wp_manager_close (P := P) f (- 1) s1' Hm1')|].
  - rewrite [st_mgr _]/= Hmap1. intros k' a' c'. rewrite lookup_insert_Some /f. intros [[<- <-]|[Hne Hk']] Hc'; cbn in Hc'.
    + rewrite Z.eqb_refl. rewrite Hc0 in Hc'. by injection Hc' as <-.
    + destruct (Z.eqb_spec k' k); [done|]. apply (Htab k' a'); [done|]. rewrite -Hb1 //. intros ->. by apply (Hnew k').
  - rewrite [st_mgr _]/= Hmap1 map_size_insert_None // /free_slots /= Hq1 Hqs1. rewrite /free_slots in Hsq. lia.
  - intros _ s2 (Hm2 & _ & _ & Hw2 & _ & Hl2 & Hrel2 & (l & Hperm & Hq2) & _).
    have H0 : 0 ∈ others (- 1) (f <$> (map_to_list (cm_connections (st_mgr s1'))).*1).
    { apply list_elem_of_filter. split; [done|]. apply list_elem_of_fmap. exists k. rewrite /f Z.eqb_refl. split; [done|].
      apply list_elem_of_fmap. exists (k, a). split; [done|]. by rewrite elem_of_map_to_list [st_mgr _]/= Hmap1 lookup_insert_eq. }
    rewrite /markShutdownInProgress /mod_vars. wp_steps.
    have Hu : undrained (set_worker (with_inProgress true (st_worker s2)) s2).
    { apply (undrained_intro P); [by apply mgr_ok_vars| |done]. cbn. by rewrite Hrel2 elem_of_list_to_set. }
    cbn [set_worker st_sq st_log]. split_and!; [|by rewrite Hl2|].
    + rewrite Hq2. apply elem_of_app. right. apply list_elem_of_fmap. exists 0. split; [done|]. by rewrite Hperm.
    + intros fuel maxCQ sub rounds r s3 Hr. destruct (loop_waits _ _ _ _ _ _ _ _ _ Htcp Hu Hr) as [[Hu3 Hd] Hn].
      split_and!; [done|apply Hu3|]. rewrite Hd. cbn. by rewrite Hw2.
Qed.

Lemma late_error_blocks_shutdown_witness :
  wp (_ ← @consumer_event demo_env answer_handler demo_worker (mkCqe (- 104) (Z.lor writeDataFlag (uint64 9)) false);
      _ ← shutdown_signal;
      @consumer_shutdownHandler demo_env)
     (fun _ s1 => close_entry 0 ∈ st_sq s1 /\ st_log s1 = [] /\
        forall fuel maxCQ sub rounds r s2,
          innerLoop (@consumer_looper demo_env answer_handler demo_worker fuel maxCQ)
            (@consumer_event demo_env answer_handler demo_worker) sub rounds s1 = Ret (r, s2) ->
          r <> Some None /\ 0 ∈ cm_releaseFdSet (st_mgr s2) /\ wv_done (st_worker s2) = 0%nat)
     (stream_state connRead 16).
Proof.
  apply (@late_error_blocks_shutdown demo_env exact_world _ answer_handler demo_worker 9 writeDataFlag 104 false
    (stream_state connRead 16)); [done|done|apply stream_state_ok|apply stream_state_table|done|lia|constructor|done|done].
Defined.

(** All closes complete in the first of two rounds, that of descriptor 0 too, a second shutdown is
    asked for, and the loop goes on: the descriptors it waits for are 0 alone. *)
Definition closed_rounds : list ring_round :=
  [mkRound None [] []
     [mkCqe 0 (Z.lor closeConnFlag (uint64 5)) false; mkCqe 0 (Z.lor closeConnFlag (uint64 7)) false; mkCqe 0 (Z.lor closeConnFlag (uint64 0)) false] true;
   mkRound None [] [] [] false].

Example late_error_keeps_running :
  match (_ ← @consumer_event demo_env answer_handler demo_worker (mkCqe (- 104) (Z.lor writeDataFlag (uint64 9)) false);
         _ ← shutdown_signal;
         _ ← @consumer_shutdownHandler demo_env;
         sub ← lift newBatchSubmitter;
         innerLoop (@consumer_looper demo_env answer_handler demo_worker 5 16)
           (@consumer_event demo_env answer_handler demo_worker) sub closed_rounds) (stream_state connRead 16) with
  | Ret (r, s) => r = None /\ elements (cm_releaseFdSet (st_mgr s)) = [0]
  | Panic _ => False
  end.
Proof. vm_compute. by split. Qed.
