(* ===== verification/Server.v ===== *)
(** * Server: [server.go], [gain.go], [compatibility.go] and the worker constructors

    What [start] builds from a configuration: the listeners, and either the acceptor
    with its consumers behind a balancer or one shard worker per listener.  The
    goroutines are in [Startup] and [Engine]. *)

From S2P Require Import Prelude Errors SyncPool VirtualMem MagicRing RingRefinement RingPool ByteSlicePool Config.
From S2P Require Import KeyPool Flags Submitter LoadBalancer Sockaddr SocketOps GoState Conn ConnSpec ConnManager.
From S2P Require Import Worker WorkerSpec Looper ConsumerWorker AcceptorWorker StreamSpec ShardWorker ReactorSpec.
Local Open Scope string_scope.
Local Open Scope list_scope.
Local Open Scope Z_scope.

Record supportedFeatures : Type := mkFeatures { ringsMessaging : bool }.

(** [goPoolMaxWorkers], [goPoolMaxCapacity] *)
Definition goPoolMaxWorkers : Z := 4096.
Definition goPoolMaxCapacity : Z := 4096.

Section Server.
Context {env : Env}.

(** What the host answers: [giouring.CreateRing] for the [n]-th ring gives the ring's
    descriptor and the size of its submission queue; the memory of the process and
    the choices of its pools when a worker is created. *)
Context (CreateRing : nat -> Z -> (Z * Z) + error) (world : World) (choices : list (option nat)).

(** The state of a new worker. *)
Definition new_state (sqSize : Z) (connQueue : option (list Z)) : St :=
  mkSt ∅ 0 NewPool NewRingBufferPool world NewByteSlicePool choices [] sqSize [] [] newConnectionManager [] []
    (mkVars false [] false false false 0 ∅ connQueue false).

Definition newConsumerWorker (nth : nat) (index : Z) (localAddr : option NetAddr) (config : Config)
    (features : supportedFeatures) : consumer + error :=
  match CreateRing nth (uint32 (MaxSQEntries config)) with
  | inr e => inr (Wrap "creating ring error: " e)
  | inl (ringFd, sqSize) =>
      inl (mkConsumer (mkConf 0 index false (AsyncHandler config) (CPUAffinity config) 0 localAddr) ringFd
             (new_state sqSize (if ringsMessaging features then None else Some [])))
  end.

Record shard : Type := mkShard { sh_conf : workerConf; sh_ringFd : Z; sh_st : St }.

(** The worker listens on the descriptor its [loop] is given. *)
Definition newShardWorker (nth : nat) (index fd : Z) (localAddr : option NetAddr) (config : Config) (sendRecvMsg : bool) :
    shard + error :=
  match CreateRing nth (uint32 (MaxSQEntries config)) with
  | inr e => inr (Wrap "creating ring error: " e)
  | inl (ringFd, sqSize) =>
      inl (mkShard (mkConf fd index sendRecvMsg (AsyncHandler config) (CPUAffinity config) (TCPKeepAlive config) localAddr)
             ringFd (new_state sqSize None))
  end.

(** The configuration of the acceptor, and its state and balancer. *)
Definition newAcceptorWorker (nth : nat) (fd : Z) (lb : @loadBalancer consumer) (config : Config) :
    (workerConf * reactor) + error :=
  match CreateRing nth (uint32 (MaxSQEntries config)) with
  | inr e => inr (Wrap "creating ring error: " e)
  | inl (ringFd, sqSize) =>
      inl (mkConf fd 0 false false (CPUAffinity config) (TCPKeepAlive config) None,
           mkReactor (new_state sqSize None) lb)
  end.

(** The loop of [startReactor] that creates and registers the consumers. *)
Fixpoint add_consumers (n : nat) (i : Z) (localAddr : option NetAddr) (config : Config) (features : supportedFeatures)
    (r : reactor) : reactor + error :=
  match n with
  | O => inl r
  | S n =>
      match newConsumerWorker (Z.to_nat i + 1) (i + 1) localAddr config features with
      | inr e => inr e
      | inl c =>
          add_consumers n (i + 1) localAddr config features (mkReactor (r_acceptor r) (register (r_balancer r) c))
      end
  end.

(** [startReactor] up to the start of the goroutines. *)
Definition startReactor (fd : Z) (localAddr : option NetAddr) (config : Config) (features : supportedFeatures) :
    (workerConf * reactor) + error :=
  match createLoadBalancer (LoadBalancing_ config) with
  | inr e => inr e
  | inl lb =>
      match newAcceptorWorker 0 fd lb config with
      | inr e => inr e
      | inl (w, r) =>
          match add_consumers (Z.to_nat (Workers config)) 0 localAddr config features r with
          | inr e => inr e
          | inl r => inl (w, r)
          end
      end
  end.

(** [startSocketSharding] up to the start of the goroutines: one worker per listener. *)
Fixpoint startSocketSharding (i : nat) (listeners : list (Z * option NetAddr)) (config : Config) (protocol : string) :
    list shard + error :=
  match listeners with
  | [] => inl []
  | (fd, addr) :: listeners =>
      match newShardWorker i (Z.of_nat i) fd addr config (bool_decide (protocol = UDP)) with
      | inr e => inr e
      | inl s =>
          match startSocketSharding (S i) listeners config protocol with
          | inr e => inr e
          | inl l => inl (s :: l)
          end
      end
  end.

(** [listener.addr] *)
Definition listener_addr (ln : listener) : option NetAddr :=
  match ln_addr ln with
  | None => None
  | Some a =>
      Some (if decide (ln_network ln = UDP) then UDPAddr (ra_IP a) (ra_Port a) (ra_Zone a)
            else TCPAddr (ra_IP a) (ra_Port a) (ra_Zone a))
  end.

Inductive built : Type :=
| BuiltReactor (w : workerConf) (r : reactor)
| BuiltShards (l : list shard).

Context (backlog : Z) (InterfaceByName : string -> option Z).
Context (ResolveTCPAddr ResolveUDPAddr : string -> string -> resolved + error).
Context (Assemble : list bpf_instruction -> Z + error) (NumCPU : Z).

Definition listen (network address : string) (config : Config) (tr : trace) : (listener + error) * trace :=
  let '(ln, err, tr) := initListener backlog InterfaceByName ResolveTCPAddr ResolveUDPAddr Assemble NumCPU network address config tr in
  (match err with Some e => inr e | None => inl ln end, tr).

(** The listeners of the shard workers. *)
Fixpoint listen_all (n : nat) (network address : string) (config : Config) (tr : trace) :
    (list (Z * option NetAddr) + error) * trace :=
  match n with
  | O => (inl [], tr)
  | S n =>
      let '(ln, tr) := listen network address config tr in
      match ln with
      | inr e => (inr e, tr)
      | inl ln =>
          let '(rest, tr) := listen_all n network address config tr in
          (match rest with inr e => inr e | inl l => inl ((ln_fd ln, listener_addr ln) :: l) end, tr)
      end
  end.

(** [config.Architecture == SocketSharding || e.network == gainNet.UDP] *)
Definition use_sharding (config : Config) (network : string) : bool :=
  match Architecture config with SocketSharding => true | _ => bool_decide (network = UDP) end.

(** The part of [start] from [parseProtoAddr] on. *)
Definition start_workers (address : string) (config : Config) (features : supportedFeatures) (tr : trace) :
    outcome ((built + error) * trace) :=
  '(network, address) ← parseProtoAddr address;
  if use_sharding config network then
    if Workers config <? 0 then Panic PanicBounds
    else
      let '(ls, tr) := listen_all (Z.to_nat (Workers config)) network address config tr in
      Ret (match ls with
           | inr e => inr e
           | inl ls => match startSocketSharding 0 ls config network with inr e => inr e | inl l => inl (BuiltShards l) end
           end, tr)
  else
    let '(ln, tr) := listen network address config tr in
    Ret (match ln with
         | inr e => inr e
         | inl ln =>
             match startReactor (ln_fd ln) (listener_addr ln) config features with
             | inr e => inr e
             | inl (w, r) => inl (BuiltReactor w r)
             end
         end, tr).

(** [ActiveConnections]: the sum over the workers in any order. *)
Definition worker_connections (b : built) : list Z :=
  match b with
  | BuiltReactor _ r => (fun c => consumer_activeConnections (st_mgr (co_st c))) <$> lb_workers (generic (r_balancer r))
  | BuiltShards l => (fun s => shard_activeConnections (st_mgr (sh_st s))) <$> l
  end.

Definition ActiveConnections (b : built) : Z := foldl Z.add 0 (worker_connections b).

End Server.

(** [gain.go]: [DefaultEventHandler] does nothing. *)
Definition DefaultEventHandler : EventHandler := fun _ _ => HRet.
