(* ===== verification/ServerSpec.v ===== *)
(** * ServerSpec: the server engine

    What [start] builds is ready to serve.  The engine itself is a set of goroutines
    that meet at two unbuffered channels; its runs are the paths of a step relation
    over the goroutines' program counters. *)

From S2P Require Import Prelude Errors SyncPool VirtualMem MagicRing RingRefinement RingPool ByteSlicePool Config.
From S2P Require Import KeyPool Flags Submitter LoadBalancer Sockaddr SocketOps GoState Conn ConnSpec ConnManager.
From S2P Require Import Worker WorkerSpec Looper ConsumerWorker AcceptorWorker StreamSpec ShardWorker ReactorSpec Server.
Local Open Scope string_scope.
Local Open Scope list_scope.
Local Open Scope Z_scope.

(** ** What [start] builds *)

Section Build.
Context {env : Env} {P : World -> Prop} `{!EnvLaws env P}.
Context (handler : EventHandler).
Context (CreateRing : nat -> Z -> (Z * Z) + error) (world : World) (choices : list (option nat)) (Hworld : P world).

Notation workers r := (lb_workers (generic (r_balancer r))).

Lemma mgr_ok_new_state sqSize q : mgr_ok P (new_state world choices sqSize q).
Proof.
  split; try done.
  - split_and!; [done|apply new_ring_pool_ok|apply slice_pool_new].
  - intros a ?%not_elem_of_nil. done.
  - constructor.
  - intros a [c Hc]. done.
  - exists []. split; [apply seq_new_ok|constructor].
Qed.

(** The rings the kernel grants: each with its own descriptor and at least two
    entries. *)
Definition rings_granted : Prop :=
  (forall n entries, exists ringFd sqSize, CreateRing n entries = inl (ringFd, sqSize) /\ 1 < sqSize) /\
  (forall n m entries fd size1 size2, CreateRing n entries = inl (fd, size1) -> CreateRing m entries = inl (fd, size2) -> n = m).

(** The consumers created so far. *)
Definition built_ok (config : Config) (features : supportedFeatures) (i : Z) (r : reactor) : Prop :=
  balancer_ok (r_balancer r) /\ lb_size (generic (r_balancer r)) = i /\
  (forall k c, workers r !! k = Some c -> co_index c = Z.of_nat k /\
     (exists size, CreateRing (k + 1) (uint32 (MaxSQEntries config)) = inl (co_ringFd c, size)) /\
     wv_connQueue (st_worker (co_st c)) = (if ringsMessaging features then None else Some []) /\
     forall fd, (forall b, prog_valid tcp empty_abs (handler [] (CbAccept b))) -> can_take (P := P) handler fd c).

Lemma register_workers (lb : @loadBalancer consumer) c :
  lb_workers (generic (register lb c)) = lb_workers (generic lb) ++ [setIndex c (lb_size (generic lb))].
Proof. by destruct lb. Qed.

Lemma register_size (lb : @loadBalancer consumer) c : lb_size (generic (register lb c)) = lb_size (generic lb) + 1.
Proof. by destruct lb. Qed.

Lemma add_consumers_ok n i addr config features r :
  rings_granted -> 0 <= i -> built_ok config features i r ->
  exists r', add_consumers CreateRing world choices n i addr config features r = inl r' /\
    r_acceptor r' = r_acceptor r /\ built_ok config features (i + Z.of_nat n) r'.
Proof.
  intros [Hrings Hinj]. revert i r. induction n as [|n IH]; intros i r Hi Hr; cbn [add_consumers].
  { exists r. by rewrite Z.add_0_r. }
  rewrite /newConsumerWorker. destruct (Hrings (Z.to_nat i + 1)%nat (uint32 (MaxSQEntries config))) as (fd & size & Hring & Hsize).
  rewrite Hring. set (c := mkConsumer _ _ _). destruct Hr as (Hb & Hs & Hc).
  destruct (IH (i + 1) (mkReactor (r_acceptor r) (register (r_balancer r) c))) as (r' & -> & Hacc & Hr'); [lia| |].
  - split; [by apply register_ok|]. split; [by rewrite /= register_size Hs|].
    intros k c'. cbn [r_balancer]. rewrite register_workers Hs. have [Hlen _] := Hb. rewrite Hs /zlen in Hlen.
    intros [Hk|[Hge Hk]]%lookup_app_Some; [by apply Hc|].
    apply list_lookup_singleton_Some in Hk as [Hk <-]. split; [cbn; lia|]. split.
    + exists size. rewrite -Hring. do 2 f_equal. lia.
    + split; [done|]. intros fd' Hv. split; [apply mgr_ok_new_state|done| |done|apply Hv]. rewrite /free_slots /= /zlen /=. lia.
  - exists r'. split; [done|]. split; [done|]. by replace (i + Z.of_nat (S n)) with (i + 1 + Z.of_nat n) by lia.
Qed.

End Build.

(** ** Properties *)

Section Ready.
Context {env : Env} {P : World -> Prop} `{!EnvLaws env P} (handler : EventHandler).
Context (CreateRing : nat -> Z -> (Z * Z) + error) (world : World) (choices : list (option nat)).

(** The reactor as it is built. *)
Lemma reactor_ready fd addr config features :
  P world -> 0 < Workers config -> rings_granted CreateRing -> (forall n, LoadBalancing_ config <> OtherBalancing n) ->
  exists r size, startReactor CreateRing world choices fd addr config features =
      inl (mkConf fd 0 false false (CPUAffinity config) (TCPKeepAlive config) None, r) /\
    reactor_ok r /\ zlen (lb_workers (generic (r_balancer r))) = Workers config /\
    r_acceptor r = new_state world choices size None /\ 1 < size /\
    forall k c, lb_workers (generic (r_balancer r)) !! k = Some c ->
      wv_connQueue (st_worker (co_st c)) = (if ringsMessaging features then None else Some []) /\
      forall fd', (forall b, prog_valid tcp empty_abs (handler [] (CbAccept b))) -> can_take (P := P) handler fd' c.
Proof.
  intros HP Hn Hrings Hlb. rewrite /startReactor /newAcceptorWorker.
  destruct (createLoadBalancer (LoadBalancing_ config)) as [lb|e] eqn:Hcreate.
  2: { destruct (LoadBalancing_ config) as [| | |k] eqn:Hk; try done. by destruct (Hlb k). }
  destruct (proj1 Hrings 0%nat (uint32 (MaxSQEntries config))) as (ringFd & size & -> & Hsize).
  set (r0 := mkReactor _ lb). have Hb0 := create_ok _ _ Hcreate.
  have Hempty : lb_workers (generic lb) = [] by destruct (LoadBalancing_ config); simplify_eq/=.
  destruct (add_consumers_ok (P := P) handler CreateRing world choices HP (Z.to_nat (Workers config)) 0 addr config features r0)
    as (r & -> & Hacc & Hb & Hs & Hc); [done|done| |].
  { split; [done|]. split; [by rewrite (proj1 Hb0) /= Hempty|]. intros k c. by rewrite /= Hempty. }
  exists r, size. split; [done|].
  have Hlen : zlen (lb_workers (generic (r_balancer r))) = Workers config by rewrite -(proj1 Hb) Hs; lia.
  split_and!; [|done|done|lia|].
  - split; [done|intros i c Hi; by apply Hc| |].
    + apply NoDup_alt. intros i j f. rewrite !list_lookup_fmap.
      destruct (lb_workers (generic (r_balancer r)) !! i) as [c1|] eqn:H1, (lb_workers (generic (r_balancer r)) !! j) as [c2|] eqn:H2; try done.
      intros [= <-] [= Heq]. destruct (Hc _ _ H1) as (_ & [s1 Hr1] & _), (Hc _ _ H2) as (_ & [s2 Hr2] & _). rewrite Heq in Hr2.
      have := proj2 Hrings _ _ _ _ _ _ Hr1 Hr2. lia.
    + intros Hnil. rewrite Hnil /zlen /= in Hlen. lia.
  - intros k c Hk. destruct (Hc k c Hk) as (_ & _ & Hq & Hct). by split.
Qed.

End Ready.

(** C23. A started reactor is ready: from every configuration with at least one worker and
    a known way of balancing, when the kernel grants the rings, [startReactor] builds an
    acceptor on the listening descriptor and that many consumers, registered under their
    indices, each on its own ring, with an empty table, able to take any descriptor. *)
Theorem reactor_starts_ready {env : Env} P `{!EnvLaws env P} handler CreateRing world choices fd addr config features :
  P world -> 0 < Workers config -> rings_granted CreateRing ->
  (forall n, LoadBalancing_ config <> OtherBalancing n) ->
  (forall b, prog_valid tcp empty_abs (handler [] (CbAccept b))) ->
  exists w r, startReactor CreateRing world choices fd addr config features = inl (w, r) /\ w_fd w = fd /\
    reactor_ok r /\ zlen (lb_workers (generic (r_balancer r))) = Workers config /\
    mem_ok P (r_acceptor r) /\ 1 < free_slots (r_acceptor r) /\
    (forall k c fd', lb_workers (generic (r_balancer r)) !! k = Some c -> can_take (P := P) handler fd' c).
Proof.
  intros HP Hn Hrings Hlb Hv. destruct (reactor_ready (P := P) handler CreateRing world choices fd addr config features HP Hn Hrings Hlb)
    as (r & size & Hs & Hr & Hlen & Hacc & Hsize & Hc).
  eexists _, r. split; [exact Hs|]. split; [done|]. split; [done|]. split; [done|]. rewrite Hacc. split; [|split].
  - apply (mo_mem _ _ (mgr_ok_new_state (P := P) world choices HP size None)).
  - rewrite /free_slots /= /zlen /=. lia.
  - intros k c fd' Hk. by apply (Hc k c).
Qed.

(** *** A concrete server *)

Definition demo_config : Config :=
  mkConfig Reactor false false false false 2 false RoundRobin 0 0 0 ErrorLevel false 16384 16384.

Definition demo_rings (n : nat) (_ : Z) : (Z * Z) + error := inl (20 + Z.of_nat n, 16).

Lemma demo_rings_granted : rings_granted demo_rings.
Proof. split; [intros n entries; eexists _, _; split; [done|lia]|]. intros n m entries fd s1 s2 [= <- <-] [= H _]. lia. Qed.

Lemma reactor_starts_ready_witness :
  exists w r, @startReactor demo_env demo_rings empty_world [] 5 None demo_config (mkFeatures true) = inl (w, r) /\ w_fd w = 5 /\
    reactor_ok r /\ zlen (lb_workers (generic (r_balancer r))) = 2 /\
    mem_ok exact_world (r_acceptor r) /\ 1 < free_slots (r_acceptor r) /\
    (forall k c fd', lb_workers (generic (r_balancer r)) !! k = Some c -> can_take (P := exact_world) answer_handler fd' c).
Proof.
  apply (@reactor_starts_ready demo_env exact_world _ answer_handler demo_rings empty_world [] 5 None demo_config (mkFeatures true));
    [apply empty_world_exact|simpl; lia|apply demo_rings_granted|done|intros; apply pv_ret].
Defined.

Definition demo_shard : shard :=
  mkShard (mkConf 5 0 false false false 0 None) 20 (@new_state demo_env empty_world [] 16 None).

(** ** The protocol *)

Lemma sharding_protocol {env : Env} CreateRing world choices protocol config i ls l s :
  startSocketSharding CreateRing world choices i ls config protocol = inl l -> s ∈ l ->
  w_sendRecvMsg (sh_conf s) = bool_decide (protocol = UDP).
Proof.
  revert i l. induction ls as [|[fd addr] ls IH]; intros i l; cbn [startSocketSharding].
  { intros [= <-] ?%not_elem_of_nil. done. }
  rewrite /newShardWorker. destruct (CreateRing i _) as [[ringFd size]|e]; [|done].
  destruct (startSocketSharding _ _ _ (S i) ls config protocol) as [l1|e] eqn:Hl; [|done].
  intros [= <-] [->|Hs]%elem_of_cons; [done|by eapply IH].
Qed.

(** The name of the network decides how a socket is served, not its kind: a server
    on [udp] runs datagram workers whatever the architecture; on [udp4] or [udp6],
    which also listen on a datagram socket, it builds a reactor that accepts
    connections, or shard workers that treat the socket as a stream listener. *)
Theorem udp_version_served_as_stream {env : Env} CreateRing world choices config i ls l s network :
  network = UDP \/ network = UDP4 \/ network = UDP6 ->
  (use_sharding config network = true <-> network = UDP \/ Architecture config = SocketSharding) /\
  (startSocketSharding CreateRing world choices i ls config network = inl l -> s ∈ l ->
     w_sendRecvMsg (sh_conf s) = true <-> network = UDP).
Proof.
  intros Hnet. split.
  - rewrite /use_sharding. destruct (Architecture config); rewrite ?bool_decide_eq_true; naive_solver.
  - intros Hl Hs. rewrite (sharding_protocol _ _ _ _ _ _ _ _ _ Hl Hs) bool_decide_eq_true. done.
Qed.

Lemma udp_version_served_as_stream_witness :
  (use_sharding demo_config UDP4 = true <-> UDP4 = UDP \/ Architecture demo_config = SocketSharding) /\
  (@startSocketSharding demo_env demo_rings empty_world [] 0 [(5, None)] demo_config UDP4 = inl [demo_shard] ->
     demo_shard ∈ [demo_shard] -> w_sendRecvMsg (sh_conf demo_shard) = true <-> UDP4 = UDP).
Proof.
  apply (@udp_version_served_as_stream demo_env demo_rings empty_world [] demo_config 0 [(5, None)] [demo_shard] demo_shard UDP4). by right; left.
Defined.
