(* ===== verification/ShardLoop.v ===== *)
(** * ShardLoop: the life of a shard worker

    From its construction by [newShardWorker] over any number of rounds of its loop:
    the theorems on the abstract server ([TableSpec], [LoopSpec]) for the worker that
    [startSocketSharding] starts. *)

From S2P Require Import Prelude Errors SyncPool VirtualMem MagicRing RingRefinement RingPool ByteSlicePool Config.
From S2P Require Import KeyPool Flags Submitter LoadBalancer Sockaddr SocketOps GoState Conn ConnSpec ConnManager.
From S2P Require Import Worker WorkerSpec Looper ConsumerWorker AcceptorWorker StreamSpec ShardWorker ShardSpec ReactorSpec.
From S2P Require Import RingContract TableSpec LoopSpec ShutdownSpec Server ServerSpec.
Local Open Scope Z_scope.

(** A worker that has not accepted yet, and the kernel with its listening socket. *)
Definition new_server : server := mkServer [] true ∅.
Definition new_kernel (lfd : Z) : kernel := mkKernel [] {[lfd]}.

(** ** The start *)

Section Boot.
Context {env : Env} {P : World -> Prop} `{!EnvLaws env P} (w : workerConf).
Context (Htcp : w_sendRecvMsg w = false).
Notation lfd := (w_fd w).

(** The state of a worker before its loop. *)
Record fresh_worker (s : St) : Prop := {
  fw_mgr : mgr_ok P s;
  fw_table : cm_connections (st_mgr s) = ∅ /\ cm_closing (st_mgr s) = false;
  fw_queue : st_sq s = [] /\ st_log s = [];
  fw_room : 0 < st_sq_size s;
  fw_vars : wv_shutdowning (st_worker s) = false /\ wv_inProgress (st_worker s) = false /\ wv_done (st_worker s) = 0%nat
}.

(** [prepareHandler]: the listener is entered and its accept request queued. *)
Lemma boot_ok s :
  fresh_worker s -> 0 <= lfd < 2 ^ 31 ->
  wp (shard_prepare w) (fun r s' => r = None /\ table_rel P (Some lfd) (new_kernel lfd) [] s' new_server /\ st_sq_size s' = st_sq_size s /\
    wv_shutdowning (st_worker s') = false) s.
Proof.
  intros [Hm [Hcm Hclo] [Hsq Hlog] Hroom (Hsd & Hip & Hdn)] Hr. rewrite /shard_prepare /connectionProtocol Htcp. cbn [negb].
  rewrite /addAcceptConnRequest /addAcceptRequest /push_sqe. wp_steps.
  rewrite sq_full_false; [rewrite /free_slots Hsq /zlen /=; lia|]. wp_steps. set (s1 := set_sq _ s).
  have Hm1 : mgr_ok P s1 by destruct Hm; split. rewrite /getFd. eapply (wp_get_new (P := P)); [exact Hm1|by rewrite /= Hcm|].
  intros a s2 (Hm2 & (Hq2 & Hz2 & _ & Hl2 & _ & _ & Hw2) & _ & _ & Hmap2 & Hcl2 & _ & _ & c & Hc & Hfresh). wp_steps.
  rewrite /set_accepting /mod_vars. wp_steps. split; [done|]. set (s3 := set_worker _ _).
  have Hq3 : st_sq s3 = [accept_sqe lfd] by rewrite /= Hq2 /= Hsq. have Hm3 : mgr_ok P s3.
  { have Hk2 : cm_connections (st_mgr s2) !! lfd = Some a by rewrite Hmap2 lookup_insert_eq.
    have Hm2' : mgr_ok P (set_conns (<[a := with_state connAccept (with_key lfd (with_fd lfd c))]> (st_conns s2)) s2); [|by destruct Hm2'; split].
    eapply (mgr_ok_update s2 _ lfd a (with_key lfd (with_fd lfd c))); try done; [by apply fresh_conn_ok in Hfresh|apply (mo_mem _ _ Hm2)]. }
  split; [|split; [by rewrite /= Hz2|by rewrite /= Hw2]]. split_and!; [|exists {[lfd := [accept_sqe lfd]]}|constructor].
  - split; try done.
    + by rewrite /= Hl2 /= Hlog.
    + by intros lfd' [= <-].
    + exists a, (with_state connAccept (with_key lfd (with_fd lfd c))). rewrite /= lookup_insert_eq Hmap2 /= Hcm. by rewrite fmap_empty.
    + split; [|by rewrite /= Hcl2]. split; [done|by rewrite /= Hw2].
  - split; cbn [k_chains new_kernel app].
    + rewrite Hq3 /=. split; [by rewrite map_to_list_singleton|]. intros fd ch e [<- <-]%lookup_singleton_Some ->%list_elem_of_singleton.
      cbn [sq_data accept_sqe]. have -> : uint64 lfd = lfd by apply wrap_u_small; lia. apply key_of_flag; [constructor|lia].
    + by rewrite Hq3.
    + intros lfd' [= <-]. by rewrite lookup_singleton_eq.
    + intros fd e c0. cbn [sv_conns new_server]. by rewrite lookup_empty.
    + intros fd Hne _. rewrite lookup_singleton_ne //. congruence.
    + split; [intros lfd' [= <-]; change (lfd ∈ ({[lfd]} : gset Z)); set_solver|]. intros fd. cbn [sv_conns new_server]. by rewrite lookup_empty => -[].
Qed.

End Boot.

(** ** Theorems *)

Section Life.
Context {env : Env} {P : World -> Prop} `{!EnvLaws env P} (handler : EventHandler).
Context (CreateRing : nat -> Z -> (Z * Z) + error) (world : World) (choices : list (option nat)) (Hworld : P world).

(** What the theorems assume of a worker: a stream worker built by the server, with the
    default socket options and handlers that run in the loop. *)
Definition plain_config (config : Config) : Prop :=
  AsyncHandler config = false /\ CPUAffinity config = false /\ TCPKeepAlive config <= 0.

Definition built (nth : nat) (index fd : Z) (addr : option NetAddr) (config : Config) (sh : shard) : Prop :=
  newShardWorker CreateRing world choices nth index fd addr config false = inl sh /\ plain_config config /\
  0 <= fd < 2 ^ 31 /\ 0 < st_sq_size (sh_st sh).

Lemma built_fresh nth index fd addr config sh :
  built nth index fd addr config sh ->
  fresh_worker (P := P) (sh_st sh) /\ w_fd (sh_conf sh) = fd /\ w_sendRecvMsg (sh_conf sh) = false /\ w_asyncHandler (sh_conf sh) = false /\
  w_cpuAffinity (sh_conf sh) = false /\ w_tcpKeepAlive (sh_conf sh) <= 0.
Proof.
  intros (Hnew & (Has & Haff & Hka) & Hr & Hroom). rewrite /newShardWorker in Hnew. destruct (CreateRing nth _) as [[ringFd sz]|]; [|done].
  injection Hnew as <-. split_and!; try done. split; try done. by apply mgr_ok_new_state.
Qed.

(** The ring keeps its contract in the rounds of the worker's loop. *)
Definition ring_rounds (sh : shard) (fuel : nat) (maxCQ : Z) (krs : list kround) (K' : kernel) : Prop :=
  forall s1, shard_prepare (sh_conf sh) (sh_st sh) = Ret (None, s1) ->
    allowed handler (sh_conf sh) fuel maxCQ (new_kernel (w_fd (sh_conf sh))) (mkSubmitter 0 1)
      (set_worker (with_running true (st_worker s1)) s1) krs K'.

(** A run of the worker's loop without a shutdown. *)
Definition ring_run (sh : shard) (fuel : nat) (maxCQ : Z) (krs : list kround) (K' : kernel) : Prop :=
  Forall (round_fits maxCQ (st_sq_size (sh_st sh))) krs /\ Forall (fun kr => stops kr = false) krs /\ ring_rounds sh fuel maxCQ krs K'.

(** The worker serves the rounds [krs]; [rest] comes after them. *)
Lemma life_then nth index fd addr config sh host fuel maxCQ krs rest K' (Q : option (option error) -> St -> Prop) :
  built nth index fd addr config sh -> Forall (round_fits maxCQ (st_sq_size (sh_st sh))) krs -> Forall (fun kr => stops kr = false) krs ->
  ring_rounds sh fuel maxCQ (krs ++ rest) K' -> trace_valid handler fd new_server (events krs) ->
  (forall K1 sub s T', serves handler fd new_server (events krs) T' -> table_rel P (Some (w_fd (sh_conf sh))) K1 [] s T' ->
     ledger (sh_conf sh) (new_kernel fd) K1 new_server T' (events krs) -> wv_shutdowning (st_worker s) = false ->
     st_sq_size s = st_sq_size (sh_st sh) -> submitter_ok sub -> allowed handler (sh_conf sh) fuel maxCQ K1 sub s rest K' ->
     wp (innerLoop (shard_looper (sh_conf sh) fuel maxCQ) (shard_event handler (sh_conf sh)) sub (round_of <$> rest)) (fun r =>
       wp (match r with None => mret None | Some err => _ ← stopAccept (sh_conf sh); mret (Some err) end) Q) s) ->
  wp (shard_loop handler (sh_conf sh) host fuel maxCQ (round_of <$> (krs ++ rest))) Q (sh_st sh).
Proof.
  intros Hb Hfits Hns Hall Hv HQ. destruct (built_fresh _ _ _ _ _ _ Hb) as (Hf & Hfd & Htcp & Hsync & Haff & Hka). destruct Hb as (_ & _ & Hr & _).
  rewrite /shard_loop /startLoop. cbn [processPriority cpuAffinity prepareHandler shard_looper]. rewrite Haff. wp_steps.
  destruct (wp_run _ _ _ (boot_ok (P := P) (sh_conf sh) Htcp (sh_st sh) Hf ltac:(by rewrite Hfd))) as (r & s1 & Hrun & -> & Hrel & Hsz & Hsd).
  eapply wp_of_run; [exact Hrun|]. cbn beta iota. rewrite /in_worker /has_worker_self /mod_vars. wp_steps. eapply wp_lift; [done|]. cbn beta.
  specialize (Hall _ Hrun). rewrite Hfd in Hall Hrel. set (s2 := set_worker _ s1).
  have Hrel2 : table_rel P (Some (w_fd (sh_conf sh))) (new_kernel fd) [] s2 new_server.
  { rewrite Hfd. destruct Hrel as (HT & (q & Hq) & _). split_and!; [|exists q; by destruct Hq; split|constructor].
    destruct HT as [Hm Hl Hr' Hfree Hal Hent [Hsv Hcl]]. split; try done. by destruct Hm; split. }
  have Hsub : submitter_ok (mkSubmitter 0 1) by split; [simpl; lia|done].
  eapply (loop_ok (P := P) handler (sh_conf sh) Htcp Hsync Haff Hka fuel maxCQ (new_kernel fd) K' krs rest s2 new_server (mkSubmitter 0 1)); try done;
    [by rewrite /= Hsz|by rewrite Hfd|].
  intros K1 sub1 s3 T' Hsv Hrel' Hled Hsd3 Hsz3. rewrite Hfd in Hsv. apply (HQ K1 sub1 s3 T'); try done. by rewrite Hsz3 /= Hsz.
Qed.

Lemma life_ok nth index fd addr config sh host fuel maxCQ krs K' :
  built nth index fd addr config sh -> ring_run sh fuel maxCQ krs K' -> trace_valid handler fd new_server (events krs) ->
  wp (shard_loop handler (sh_conf sh) host fuel maxCQ (round_of <$> krs)) (fun r s' => r = None /\ exists T',
    serves handler fd new_server (events krs) T' /\ table_rel P (Some (w_fd (sh_conf sh))) K' [] s' T' /\
    ledger (sh_conf sh) (new_kernel fd) K' new_server T' (events krs)) (sh_st sh).
Proof.
  intros Hb (Hfits & Hns & Hall) Hv. have Hlife := life_then _ _ _ _ _ _ host fuel maxCQ krs [] K'. rewrite app_nil_r in Hlife.
  eapply Hlife; try done. intros K1 sub1 s3 T' Hsv Hrel' Hled _ _ _ ->%allowed_nil. wp_steps. split; [done|]. by exists T'.
Qed.

End Life.

(** C1. A shard worker is a server: from its construction on, for every sequence of rounds
    in which the ring keeps its contract, with any number of connections whose requests
    complete in any order, fail, or are cut off by an interrupted wait, the loop neither
    panics nor stops, and does exactly the steps of the abstract server on these answers:
    each client gets a connection of its own with its address, the handler sees the bytes
    of each connection in their order and the acknowledgement of its own, and after every
    event the connection has the one chain of requests that its data and its state ask for.
    Conditions: a stream worker without keep-alive, CPU affinity and asynchronous handlers;
    no shutdown is asked for; a round brings at most as many completions as the batch takes
    and a third of the submission queue; the handler does not panic, asks for non-negative
    lengths and keeps its buffers below 2^52 bytes; [sync.Pool] answers a request for
    memory with nil or with memory of the size asked for ([pool_reuse_breaks_fifo] shows
    the other case) and the kernel grants allocations. *)
Theorem shard_worker_serves {env : Env} P `{!EnvLaws env P} handler CreateRing world choices nth index fd addr config sh host fuel maxCQ krs K' :
  P world -> built CreateRing world choices nth index fd addr config sh -> ring_run handler sh fuel maxCQ krs K' ->
  trace_valid handler fd new_server (events krs) ->
  wp (shard_loop handler (sh_conf sh) host fuel maxCQ (round_of <$> krs)) (fun r s' => r = None /\ exists T',
    serves handler fd new_server (events krs) T' /\ table_rel P (Some (w_fd (sh_conf sh))) K' [] s' T') (sh_st sh).
Proof.
  intros HP Hb Hrun Hv. eapply wp_mono; [by eapply (life_ok (P := P))|]. intros r s' [-> (T' & Hsv & Hrel & _)]. split; [done|]. by exists T'.
Qed.

(** No request of the descriptor is in flight or in the queue. *)
Definition no_request (K : kernel) (s : St) (fd : Z) : Prop :=
  forall e, e ∈ concat (k_chains K ++ split_chains (st_sq s)) -> key_of (sq_data e) <> fd.

Lemma chain_none_no_request lis K s T q fd : chains_ok lis K s T q -> q !! fd = None -> no_request K s fd.
Proof.
  intros [Hmap _ _ _ _ _] Hno e (ch & Hin & Hch)%list_elem_of_In%in_concat Hkey.
  apply list_elem_of_In in Hin, Hch. destruct (chain_map_lookup _ _ ch Hmap Hin) as [k Hk]. have := proj2 Hmap _ _ _ Hk Hch. congruence.
Qed.

(** C37. A peer that closes its connection costs the server a descriptor: when a receive
    reports the end of the stream, the worker shuts the socket down but never closes it; at
    the end of the run, however long, the descriptor is still open, belongs to no
    connection, and no request for it is in flight or queued. The runs are those of
    [shard_worker_serves], under its conditions. *)
Theorem peer_close_leaks_descriptor {env : Env} P `{!EnvLaws env P} handler CreateRing world choices nth index fd addr config sh host fuel maxCQ krs K' fd' :
  P world -> built CreateRing world choices nth index fd addr config sh -> ring_run handler sh fuel maxCQ krs K' ->
  trace_valid handler fd new_server (events krs) -> (fd', AnsEof) ∈ events krs ->
  wp (shard_loop handler (sh_conf sh) host fuel maxCQ (round_of <$> krs)) (fun r s' => r = None /\
    fd' ∈ k_open K' /\ cm_connections (st_mgr s') !! fd' = None /\ no_request K' s' fd') (sh_st sh).
Proof.
  intros HP Hb Hrun Hv Hin. destruct (built_fresh (P := P) _ _ _ HP _ _ _ _ _ _ Hb) as (_ & Hfd & _).
  eapply wp_mono; [by eapply (life_ok (P := P))|]. intros r s' [-> (T' & _ & (HT & (q & Hq) & _) & [Hled _])]. split; [done|].
  destruct (Hled fd' (or_intror Hin)) as (Ho & Hne & Hno). split; [done|]. split.
  - destruct (to_listener _ _ _ HT) as (al & cl & -> & _). by rewrite lookup_insert_ne ?lookup_fmap ?Hno // not_eq_sym.
  - eapply chain_none_no_request; [exact Hq|]. apply (co_none _ _ _ _ _ Hq); [congruence|done].
Qed.

(** C38. One failed accept makes a shard worker deaf: when its accept request completes
    with an error, such as too many open files or a connection the client has aborted, the
    event is dropped and no accept request is ever queued again, although the worker still
    counts as accepting and its loop goes on. The runs are those of [shard_worker_serves],
    under its conditions. *)
Theorem failed_accept_deafens {env : Env} P `{!EnvLaws env P} handler CreateRing world choices nth index fd addr config sh host fuel maxCQ krs K' errno :
  P world -> built CreateRing world choices nth index fd addr config sh -> ring_run handler sh fuel maxCQ krs K' ->
  trace_valid handler fd new_server (events krs) -> (fd, AnsError errno) ∈ events krs ->
  wp (shard_loop handler (sh_conf sh) host fuel maxCQ (round_of <$> krs)) (fun r s' => r = None /\
    no_request K' s' fd /\ wv_accepting (st_worker s') = true) (sh_st sh).
Proof.
  intros HP Hb Hrun Hv Hin. destruct (built_fresh (P := P) _ _ _ HP _ _ _ _ _ _ Hb) as (_ & Hfd & _).
  eapply wp_mono; [by eapply (life_ok (P := P))|]. intros r s' [-> (T' & _ & (HT & (q & Hq) & _) & [_ Hled])]. split; [done|].
  have Hdeaf : sv_listening T' = false by apply Hled; right; exists errno; rewrite Hfd. split; [|by apply (to_serving _ _ _ HT)].
  eapply chain_none_no_request; [exact Hq|]. have Hl := co_listener _ _ _ _ _ Hq _ eq_refl. by rewrite Hdeaf Hfd in Hl.
Qed.

(** A run that ends: the shutdown is asked for in the round of the answers [l]; in the
    rounds [krs2] after it the kernel closes every connection.  The submission queue has
    room for a close request of each.  While the worker closes no client is accepted, and
    the requests of a descriptor that was closed fail. *)
Record shutdown_run {env : Env} (handler : EventHandler) (sh : shard) (fuel : nat) (maxCQ : Z) (krs : list kround) (l : list (sqe * answer))
    (krs2 : list kround) (K2 : kernel) : Prop := {
  sr_fits : Forall (round_fits maxCQ (st_sq_size (sh_st sh))) (krs ++ [KAnswers true l]);
  sr_serving : Forall (fun kr => stops kr = false) krs;
  sr_rounds : ring_rounds handler sh fuel maxCQ (krs ++ KAnswers true l :: krs2) K2;
  sr_valid : trace_valid handler (w_fd (sh_conf sh)) new_server (events (krs ++ [KAnswers true l]));
  sr_closing : Forall (closing_round maxCQ) krs2 /\ krs2 <> [];
  sr_closed T' : serves handler (w_fd (sh_conf sh)) new_server (events (krs ++ [KAnswers true l])) T' ->
    dom (sv_conns T') ∩ k_open K2 = ∅ /\ 3 * zlen l + Z.of_nat (size (sv_conns T')) + 1 <= st_sq_size (sh_st sh) /\
    close_trace_valid handler (closer_of T') (events krs2)
}.

(** C3. The shutdown of a shard worker completes: once it is asked for, the worker closes
    all connections it serves at the end of the round, and when the kernel has closed them,
    in any order and over any number of rounds, with other requests of connections not yet
    closed completing or failing in between, the loop returns without an error: its ring is
    closed, the goroutine waiting in [shutdown] is woken once, no connection is left beside
    the listener, and the handler has been told the end of every connection exactly once,
    after everything it was told before. Conditions: those of [shard_worker_serves] up to
    the shutdown; while the worker closes no accept completes, and the requests of a
    descriptor that was closed do nothing but fail ([late_accept_abandoned] and
    [late_completion_phantom] show what the code does otherwise); the submission queue has
    room for a close request of each connection; the kernel closes every connection. *)
Theorem shutdown_completes {env : Env} P `{!EnvLaws env P} handler CreateRing world choices nth index fd addr config sh host fuel maxCQ krs l krs2 K2 :
  P world -> built CreateRing world choices nth index fd addr config sh -> shutdown_run handler sh fuel maxCQ krs l krs2 K2 ->
  wp (shard_loop handler (sh_conf sh) host fuel maxCQ (round_of <$> (krs ++ KAnswers true l :: krs2))) (fun r s' => r = Some None /\
    wv_ring_closed (st_worker s') = true /\ wv_done (st_worker s') = 1%nat /\ dom (cm_connections (st_mgr s')) = {[fd]} /\
    exists T' l2 C cbs, serves handler fd new_server (events (krs ++ [KAnswers true l])) T' /\
      l2 `prefix_of` events krs2 /\ close_serves handler (closer_of T') l2 C /\ st_log s' = cr_log C /\ cr_log C = sv_log T' ++ cbs /\
      filter is_close cbs ≡ₚ (fun x => CbClose (en_addr x.2) None) <$> map_to_list (sv_conns T')) (sh_st sh).
Proof.
  intros HP Hb [Hfits Hns Hall Hv [Hcr Hne] Hcl]. destruct (built_fresh (P := P) _ _ _ HP _ _ _ _ _ _ Hb) as (_ & Hfd & Htcp & Hsync & Haff & Hka).
  subst fd. rewrite {1}/events bind_app -/(events krs) in Hv. setoid_rewrite bind_app in Hcl. apply Forall_app in Hfits as [Hf1 [Hf2 _]%Forall_cons].
  destruct (trace_valid_app handler (sh_conf sh) _ _ _ Hv) as [Hv1 Hv2].
  eapply (life_then (P := P)); try done. intros K1 sub s T1 Hsv1 Hrel1 _ Hsd1 Hsz1 Hsub Hall1.
  inversion Hall1 as [|? ? ? ? ? K3 ? Hra Hnext]; subst. specialize (Hra _ (shutdown_handler_serving (sh_conf sh) fuel maxCQ s Hsd1)).
  have Hv3 := Hv2 _ Hsv1. have Hone : events [KAnswers true l] = event_of <$> l by apply app_nil_r.
  rewrite -/(events [KAnswers true l]) Hone in Hv3. rewrite -Hsz1 in Hf2.
  destruct (wp_run _ _ _ (round_ok (P := P) handler (sh_conf sh) Htcp Hsync Haff Hka fuel maxCQ K1 K3 (KAnswers true l) s T1 sub Hrel1 Hsd1 Hra Hsub Hf2 Hv3))
    as (r & s2 & Hrun & Hsz2 & Hsd2 & Hroom & sub2 & T2 & -> & Hsub2 & Hsv2 & Hrel2 & _).
  have Hsv := serves_app handler (sh_conf sh) _ _ _ _ _ Hsv1 Hsv2. rewrite -Hone in Hsv. destruct (Hcl _ Hsv) as (Hclosed & Hsize & Hcv).
  cbn [fmap list_fmap innerLoop]. wp_step. eapply wp_of_run; [exact Hrun|]. cbn beta iota.
  eapply wp_mono; [apply (stopping_loop (P := P) handler (sh_conf sh) Htcp Hsync fuel maxCQ K3 K2 krs2 s2 T2 sub2); try done; [|by apply Hnext]|].
  - destruct (to_listener _ _ _ (proj1 Hrel2)) as (al & clc & Hcm & _). specialize (Hroom eq_refl). cbn [answers_of] in Hroom.
    rewrite Hcm map_size_insert lookup_fmap (to_free _ _ _ (proj1 Hrel2) _ eq_refl) /= map_size_fmap. lia.
  - intros r s3 (-> & Hrc & Hdn & Hdom & l2 & C & Hl2 & Hc & He & Hlog). rewrite /stopAccept /syscallCloseSocket. wp_steps. apply wp_sys_setter. wp_steps.
    split_and!; try done. destruct (all_told _ _ _ _ Hc He) as (cbs & Hcbs & Hp). exists T2, l2, C, cbs. split_and!; try done.
    rewrite /events bind_app. exact Hsv.
Qed.

(** *** A concrete run *)

Definition st_of {A} (m : M A) (s : St) : St := match m s with Ret (_, s) => s | Panic _ => s end.

Section DemoRun.
Existing Instance demo_env.

Definition demo_first : St :=
  let s := st_of (shard_prepare (sh_conf demo_shard)) (sh_st demo_shard) in set_worker (with_running true (st_worker s)) s.

Definition demo_after (kr : kround) (s : St) : St :=
  st_of (loop_round (shard_looper (sh_conf demo_shard) 0 16) (shard_event answer_handler (sh_conf demo_shard)) (mkSubmitter 0 1) (round_of kr)) s.

Definition demo_recv : sqe := mkSqe (SqRecv 9 0 4096) (Z.lor readDataFlag (uint64 9)) false.
Definition demo_recv2 : sqe := mkSqe (SqRecv 9 1 4095) (Z.lor readDataFlag (uint64 9)) false.
Definition demo_send : sqe := mkSqe (SqSend 9 0 2) (Z.lor writeDataFlag (uint64 9)) false.

(** A client is accepted, sends a byte while the next accept fails, gets its answer and
    closes. *)
Definition demo_round (n : nat) : kround :=
  match n with
  | 0%nat => KAnswers false [(accept_sqe 5, AnsAccept 9 [])]
  | 1%nat => KAnswers false [(demo_recv, AnsRecv 1 [x05] false); (accept_sqe 5, AnsError 103)]
  | 2%nat => KAnswers false [(demo_send, AnsSent 2)]
  | _ => KAnswers false [(demo_recv2, AnsEof)]
  end.

Definition demo_krs : list kround := demo_round <$> seq 0 4.

Definition demo_kernel : kernel := mkKernel [] ({[5]} ∪ {[9]}).

Fixpoint demo_state (n : nat) : St :=
  match n with O => demo_first | S n => demo_after (demo_round n) (demo_state n) end.

Lemma demo_step n : (n < 4)%nat ->
  loop_round (shard_looper (sh_conf demo_shard) 0 16) (shard_event answer_handler (sh_conf demo_shard)) (mkSubmitter 0 1)
    (round_of (demo_round n)) (demo_state n) = Ret (LoopContinue (mkSubmitter 0 1), demo_state (S n)).
Proof. intros Hn. destruct n as [|[|[|[|n]]]]; [vm_compute; reflexivity..|lia]. Qed.

Lemma demo_queue :
  st_sq (demo_state 0) = [accept_sqe 5] /\ st_sq (demo_state 1) = [accept_sqe 5; demo_recv] /\
  st_sq (demo_state 2) = [demo_send] /\ st_sq (demo_state 3) = [demo_recv2] /\
  cm_connections (st_mgr (demo_state 1)) !! key_of (sq_data demo_recv) = Some 1%nat.
Proof. split_and!; vm_compute; reflexivity. Qed.

Lemma demo_serving n : (n < 4)%nat ->
  shutdownHandler (shard_looper (sh_conf demo_shard) 0 16) (demo_state n) = Ret (Some true, demo_state n).
Proof. intros Hn. destruct n as [|[|[|[|n]]]]; [vm_compute; reflexivity..|lia]. Qed.

Lemma allowed_cons K kr krs K1 K2 sub s sub' s' :
  shutdownHandler (shard_looper (sh_conf demo_shard) 0 16) s = Ret (Some true, s) -> round_allowed K s kr K1 ->
  loop_round (shard_looper (sh_conf demo_shard) 0 16) (shard_event answer_handler (sh_conf demo_shard)) sub (round_of kr) s = Ret (LoopContinue sub', s') ->
  allowed answer_handler (sh_conf demo_shard) 0 16 K1 sub' s' krs K2 ->
  allowed answer_handler (sh_conf demo_shard) 0 16 K sub s (kr :: krs) K2.
Proof.
  intros Hsd Hra Hrun Hall. eapply al_cons; [intros s0; rewrite Hsd; by intros [= <-]|]. intros sub1 s1 Hrun1. rewrite Hrun in Hrun1. by injection Hrun1 as <- <-.
Qed.

Lemma allowed_last K kr K1 sub s s0 :
  shutdownHandler (shard_looper (sh_conf demo_shard) 0 16) s = Ret (Some true, s0) -> round_allowed K s0 kr K1 ->
  (forall sub' s', loop_round (shard_looper (sh_conf demo_shard) 0 16) (shard_event answer_handler (sh_conf demo_shard)) sub (round_of kr) s =
     Ret (LoopContinue sub', s') -> False) ->
  allowed answer_handler (sh_conf demo_shard) 0 16 K sub s [kr] K1.
Proof. intros Hsd Hra Hend. eapply al_cons; [intros s1; rewrite Hsd; by intros [= <-]|]. intros sub1 s1 Hrun. by destruct (Hend _ _ Hrun). Qed.

(** A single entry completes. *)
Lemma one_answer K s e ans chains :
  k_chains K ++ split_chains (st_sq s) = [e] :: chains -> answers (k_open K) (sq_op e) ans -> owned s (e, ans) ->
  round_allowed K s (KAnswers false [(e, ans)]) (mkKernel chains (opens (k_open K) (sq_op e) ans)).
Proof.
  intros Hc Hans Ho. apply ra_answers; [|by constructor]. eapply kss_cons; [|apply kss_nil].
  apply (ks_answer (submitted K (st_sq s)) e [] chains ans); [|done]. by rewrite /= Hc.
Qed.

Lemma demo_fresh_fd : answers (k_open (new_kernel 5)) (SqAccept 5) (AnsAccept 9 []).
Proof. split; [lia|]. change (9 ∉ ({[5]} : gset Z)). set_solver. Qed.

Lemma demo_allowed : allowed answer_handler (sh_conf demo_shard) 0 16 (new_kernel 5) (mkSubmitter 0 1) (demo_state 0) demo_krs demo_kernel.
Proof.
  destruct demo_queue as (Hq0 & Hq1 & Hq2 & Hq3 & Hcm). change demo_krs with [demo_round 0; demo_round 1; demo_round 2; demo_round 3].
  eapply (allowed_cons _ (demo_round 0) _ demo_kernel _ (mkSubmitter 0 1) (demo_state 0) (mkSubmitter 0 1) (demo_state 1)); [exact (demo_serving 0 ltac:(lia))| |by apply (demo_step 0); lia|].
  { apply (one_answer (new_kernel 5) (demo_state 0) (accept_sqe 5) (AnsAccept 9 []) []); [by rewrite Hq0|exact demo_fresh_fd|exact I]. }
  eapply (allowed_cons _ (demo_round 1) _ demo_kernel _ (mkSubmitter 0 1) (demo_state 1) (mkSubmitter 0 1) (demo_state 2)); [exact (demo_serving 1 ltac:(lia))| |by apply (demo_step 1); lia|].
  { apply ra_answers; [|constructor; [exact Hcm|constructor; [exact I|constructor]]].
    eapply (kss_cons _ _ (mkKernel [[accept_sqe 5]] (k_open demo_kernel))); [|eapply kss_cons; [|apply kss_nil]].
    - apply (ks_answer (submitted demo_kernel (st_sq (demo_state 1))) demo_recv [] [[accept_sqe 5]]); [|split; [reflexivity|vm_compute; congruence]].
      rewrite Hq1. apply Permutation_swap.
    - apply (ks_answer (mkKernel [[accept_sqe 5]] (k_open demo_kernel)) (accept_sqe 5) [] []); [reflexivity|]. exact eq_refl. }
  eapply (allowed_cons _ (demo_round 2) _ demo_kernel _ (mkSubmitter 0 1) (demo_state 2) (mkSubmitter 0 1) (demo_state 3)); [exact (demo_serving 2 ltac:(lia))| |by apply (demo_step 2); lia|].
  { apply (one_answer demo_kernel (demo_state 2) demo_send (AnsSent 2) []); [by rewrite Hq2|split; vm_compute; congruence|exact I]. }
  eapply (allowed_cons _ (demo_round 3) _ demo_kernel _ (mkSubmitter 0 1) (demo_state 3) (mkSubmitter 0 1) (demo_state 4)); [exact (demo_serving 3 ltac:(lia))| |by apply (demo_step 3); lia|apply al_nil].
  apply (one_answer demo_kernel (demo_state 3) demo_recv2 AnsEof []); [by rewrite Hq3|exact I|exact I].
Qed.

Lemma demo_built : built demo_rings empty_world [] 0 0 5 None demo_config demo_shard.
Proof. split_and!; try done; try (simpl; lia). Qed.

Lemma demo_ring_run : ring_run answer_handler demo_shard 0 16 demo_krs demo_kernel.
Proof.
  split; [repeat constructor; rewrite /zlen /=; lia|]. split; [by repeat constructor|]. intros s1 Hs1. have Hd := demo_allowed.
  have Heq : demo_first = set_worker (with_running true (st_worker s1)) s1 by rewrite /demo_first /st_of Hs1. by rewrite -Heq.
Qed.

Lemma demo_trace_valid : trace_valid answer_handler 5 new_server (events demo_krs).
Proof.
  change (events demo_krs) with [(5, AnsAccept 9 []); (9, AnsRecv 1 [x05] false); (5, AnsError 103); (9, AnsSent 2); (9, AnsEof)].
  split; [intros b; apply pv_ret|]. intros T1 H1. inversion H1 as [? ? b peer A Hlis Hno Hne Hb Hpeer Hspec| | | | | | | |]; subst.
  inversion Hspec; subst. clear H1. split.
  { intros e [= <-]. split; [done|]. intros _. apply pv_op; [done|]. intros. apply pv_ret. }
  intros T2 H2. inversion H2 as [|? e ? A Hen Hp Hs2| | | | | | |]; subst. injection Hen as <-. apply answer_spec in Hs2; [|done]. subst A. clear H2.
  split; [done|]. intros T3 H3. inversion H3 as [| | | | | | |? e ? ? ? Hen|]; subst; [done|]. clear H3. split.
  { intros e [= <-]. split; [done|apply pv_ret]. }
  intros T4 H4. inversion H4 as [| | | |? e ? ? A Hen4 Hp4 Hn Hs4|? e ? ? A Hen4 Hp4| | |]; subst; injection Hen4 as <-; [|done]. inversion Hs4; subst. clear H4.
  split; [|done]. intros e err [= <-]. apply pv_ret.
Qed.

(** The client's byte arrives, the shutdown is asked for, the answer is sent and the
    kernel closes the connection. *)
Definition demo_asked : list (sqe * answer) := [(demo_recv, AnsRecv 1 [x05] false)].
Definition demo_last : kround := KAnswers false [(demo_send, AnsSent 2); (close_entry 9, AnsClosed)].
Definition demo_closed : kernel := mkKernel [[accept_sqe 5]] (k_open demo_kernel ∖ {[9]}).

Definition demo_stopping : St := demo_after (KAnswers true demo_asked) (demo_state 1).
Definition demo_shut : St := st_of (shutdownHandler (shard_looper (sh_conf demo_shard) 0 16)) demo_stopping.

Lemma demo_shut_step :
  loop_round (shard_looper (sh_conf demo_shard) 0 16) (shard_event answer_handler (sh_conf demo_shard)) (mkSubmitter 0 1)
    (round_of (KAnswers true demo_asked)) (demo_state 1) = Ret (LoopContinue (mkSubmitter 0 1), demo_stopping) /\
  shutdownHandler (shard_looper (sh_conf demo_shard) 0 16) demo_stopping = Ret (Some true, demo_shut) /\
  st_sq demo_shut = [demo_send; close_entry 9] /\
  forall sub' s', loop_round (shard_looper (sh_conf demo_shard) 0 16) (shard_event answer_handler (sh_conf demo_shard)) (mkSubmitter 0 1)
    (round_of demo_last) demo_stopping = Ret (LoopContinue sub', s') -> False.
Proof. do 3 (split; [vm_compute; reflexivity|]). intros sub' s'. vm_compute. discriminate. Qed.

Lemma demo_shut_allowed :
  allowed answer_handler (sh_conf demo_shard) 0 16 (new_kernel 5) (mkSubmitter 0 1) (demo_state 0)
    ([demo_round 0] ++ KAnswers true demo_asked :: [demo_last]) demo_closed.
Proof.
  destruct demo_queue as (Hq0 & Hq1 & _ & _ & Hcm). destruct demo_shut_step as (Hrun & Hsh & Hq & Hend).
  eapply (allowed_cons _ (demo_round 0) _ demo_kernel _ (mkSubmitter 0 1) (demo_state 0) (mkSubmitter 0 1) (demo_state 1)); [exact (demo_serving 0 ltac:(lia))| |by apply (demo_step 0); lia|].
  { apply (one_answer (new_kernel 5) (demo_state 0) (accept_sqe 5) (AnsAccept 9 []) []); [by rewrite Hq0|exact demo_fresh_fd|exact I]. }
  eapply (allowed_cons _ (KAnswers true demo_asked) _ (mkKernel [[accept_sqe 5]] (k_open demo_kernel)) _ (mkSubmitter 0 1) (demo_state 1) (mkSubmitter 0 1) demo_stopping);
    [exact (demo_serving 1 ltac:(lia))| |exact Hrun|].
  { apply ra_answers; [|constructor; [exact Hcm|constructor]]. eapply kss_cons; [|apply kss_nil].
    apply (ks_answer (submitted demo_kernel (st_sq (demo_state 1))) demo_recv [] [[accept_sqe 5]]); [|split; [reflexivity|vm_compute; congruence]].
    rewrite Hq1. apply Permutation_swap. }
  apply (allowed_last _ demo_last demo_closed (mkSubmitter 0 1) demo_stopping demo_shut Hsh); [|exact Hend].
  apply ra_answers; [|constructor; [exact I|constructor; [exact I|constructor]]].
  eapply (kss_cons _ _ (mkKernel [[accept_sqe 5]; [close_entry 9]] (k_open demo_kernel))); [|eapply kss_cons; [|apply kss_nil]].
  - apply (ks_answer (submitted (mkKernel [[accept_sqe 5]] (k_open demo_kernel)) (st_sq demo_shut)) demo_send [] [[accept_sqe 5]; [close_entry 9]]);
      [|split; vm_compute; congruence]. rewrite Hq. apply Permutation_swap.
  - apply (ks_answer (mkKernel [[accept_sqe 5]; [close_entry 9]] (k_open demo_kernel)) (close_entry 9) [] [[accept_sqe 5]]); [apply Permutation_swap|].
    change (9 ∈ ({[5]} ∪ {[9]} : gset Z)). set_solver.
Qed.

Lemma demo_shut_trace T1 T2 :
  serve answer_handler 5 new_server (5, AnsAccept 9 []) T1 -> serve answer_handler 5 T1 (9, AnsRecv 1 [x05] false) T2 ->
  dom (sv_conns T2) = {[9]} /\ size (sv_conns T2) = 1%nat /\ close_trace_valid answer_handler (closer_of T2) (events [demo_last]).
Proof.
  intros H1 H2. inversion H1 as [? ? b peer A Hlis Hno Hne Hb Hpeer Hspec| | | | | | | |]; subst.
  inversion H2 as [|? e ? A2 Hen Hp Hs2| | | | | | |]; subst. have Hd : dom (sv_conns (called (mkServer (sv_log new_server ++ [CbAccept b]) true
    (<[9 := mkEntry b peer A (next_reqs A)]> (sv_conns new_server))) 9 e (CbRead (en_addr e) (zlen [x05])) A2 (next_reqs A2))) = {[9]}.
  { cbn [called sv_conns new_server]. rewrite !dom_insert_L dom_empty_L. clear. set_solver. }
  split; [exact Hd|]. split; [by rewrite -size_dom Hd size_singleton|].
  split; [eexists _, _; split; [reflexivity|apply pv_ret]|]. intros C' _. split; [|done]. intros a0 A0 err0 _. apply pv_ret.
Qed.

Lemma demo_shutdown_run : shutdown_run answer_handler demo_shard 0 16 [demo_round 0] demo_asked [demo_last] demo_closed.
Proof.
  split.
  - repeat constructor; rewrite /zlen /=; lia.
  - by repeat constructor.
  - intros s1 Hs1. have Hd := demo_shut_allowed. have Heq : demo_first = set_worker (with_running true (st_worker s1)) s1 by rewrite /demo_first /st_of Hs1. by rewrite -Heq.
  - destruct demo_trace_valid as [Hv1 Hv2]. split; [exact Hv1|]. intros T1 H1. destruct (Hv2 T1 H1) as [Hv3 _]. by split.
  - split; [|done]. repeat constructor. rewrite /zlen /=. lia.
  - intros T' Hs. inversion Hs as [|? ? T1 ? ? H1 Hs1]; subst. inversion Hs1 as [|? ? T2 ? ? H2 Hs2]; subst. inversion Hs2; subst.
    destruct (demo_shut_trace _ _ H1 H2) as (-> & -> & Hct). split; [|split; [rewrite /zlen /=; lia|exact Hct]].
    change (({[9]} : gset Z) ∩ (({[5]} ∪ {[9]}) ∖ {[9]}) = ∅). clear. set_solver.
Qed.

(** A client accepted in the round in which the worker stops is abandoned: it is entered
    and told to the handler, but the loop waits only for the connections it had closed
    before, and returns; the handler is never told its end. *)
Theorem late_accept_abandoned :
  exists s', shard_loop answer_handler (sh_conf demo_shard) (mkHost 1 4) 0 16
      (round_of <$> [KAnswers true []; KAnswers false [(accept_sqe 5, AnsAccept 9 [])]]) (sh_st demo_shard) = Ret (Some None, s') /\
    st_log s' = [CbAccept 1] /\ cm_connections (st_mgr s') !! 9 = Some 1%nat /\ wv_done (st_worker s') = 1%nat.
Proof. eexists. split; [vm_compute; reflexivity|]. split_and!; vm_compute; reflexivity. Qed.

End DemoRun.

Lemma shard_worker_serves_witness :
  wp (@shard_loop demo_env answer_handler (sh_conf demo_shard) (mkHost 1 4) 0 16 (round_of <$> demo_krs)) (fun r s' => r = None /\ exists T',
    @serves demo_env answer_handler 5 new_server (events demo_krs) T' /\ table_rel exact_world (Some (w_fd (sh_conf demo_shard))) demo_kernel [] s' T') (sh_st demo_shard).
Proof.
  apply (@shard_worker_serves demo_env exact_world _ answer_handler demo_rings empty_world [] 0 0 5 None demo_config demo_shard (mkHost 1 4) 0 16 demo_krs demo_kernel);
    [apply empty_world_exact|apply demo_built|apply demo_ring_run|apply demo_trace_valid].
Defined.

Lemma peer_close_leaks_descriptor_witness :
  wp (@shard_loop demo_env answer_handler (sh_conf demo_shard) (mkHost 1 4) 0 16 (round_of <$> demo_krs)) (fun r s' => r = None /\
    9 ∈ k_open demo_kernel /\ cm_connections (st_mgr s') !! 9 = None /\ no_request demo_kernel s' 9) (sh_st demo_shard).
Proof.
  apply (@peer_close_leaks_descriptor demo_env exact_world _ answer_handler demo_rings empty_world [] 0 0 5 None demo_config demo_shard (mkHost 1 4) 0 16 demo_krs demo_kernel 9);
    [apply empty_world_exact|apply demo_built|apply demo_ring_run|apply demo_trace_valid|]. do 4 right. by left.
Defined.

Lemma failed_accept_deafens_witness :
  wp (@shard_loop demo_env answer_handler (sh_conf demo_shard) (mkHost 1 4) 0 16 (round_of <$> demo_krs)) (fun r s' => r = None /\
    no_request demo_kernel s' 5 /\ wv_accepting (st_worker s') = true) (sh_st demo_shard).
Proof.
  apply (@failed_accept_deafens demo_env exact_world _ answer_handler demo_rings empty_world [] 0 0 5 None demo_config demo_shard (mkHost 1 4) 0 16 demo_krs demo_kernel 103);
    [apply empty_world_exact|apply demo_built|apply demo_ring_run|apply demo_trace_valid|]. do 2 right. by left.
Defined.

Lemma shutdown_completes_witness :
  wp (@shard_loop demo_env answer_handler (sh_conf demo_shard) (mkHost 1 4) 0 16 (round_of <$> ([demo_round 0] ++ KAnswers true demo_asked :: [demo_last])))
    (fun r s' => r = Some None /\
      wv_ring_closed (st_worker s') = true /\ wv_done (st_worker s') = 1%nat /\ dom (cm_connections (st_mgr s')) = {[5]} /\
      exists T' l2 C cbs, @serves demo_env answer_handler 5 new_server (events ([demo_round 0] ++ [KAnswers true demo_asked])) T' /\
        l2 `prefix_of` events [demo_last] /\ close_serves answer_handler (closer_of T') l2 C /\ st_log s' = cr_log C /\ cr_log C = sv_log T' ++ cbs /\
        filter is_close cbs ≡ₚ (fun x => CbClose (en_addr x.2) None) <$> map_to_list (sv_conns T')) (sh_st demo_shard).
Proof.
  apply (@shutdown_completes demo_env exact_world _ answer_handler demo_rings empty_world [] 0 0 5 None demo_config demo_shard (mkHost 1 4) 0 16
    [demo_round 0] demo_asked [demo_last] demo_closed);
    [apply empty_world_exact|apply demo_built|apply demo_shutdown_run].
Defined.
