(* ===== verification/ConsumerLoop.v ===== *)
(** * ConsumerLoop: a consumer worker as a server of the connections it is given

    The event loop of [consumer_worker.go] against any ring that keeps the contract of
    [RingContract].  A consumer does not accept clients: the acceptor stores the address
    of a client and hands its descriptor over, by a message that completes on the
    consumer's ring or through the consumer's queue.  The consumer is the abstract server
    of [TableSpec] without a listener, with one more step for a descriptor handed over. *)

From S2P Require Import Prelude Errors SyncPool VirtualMem MagicRing RingRefinement RingPool ByteSlicePool Config.
From S2P Require Import KeyPool Flags Submitter LoadBalancer Sockaddr SocketOps GoState Conn ConnSpec ConnManager Worker.
From S2P Require Import WorkerSpec Looper ConsumerWorker AcceptorWorker StreamSpec ShardWorker ShardSpec RingContract TableSpec LoopSpec.
From S2P Require Import ReactorSpec Server ServerSpec ShardLoop.
Local Open Scope Z_scope.

(** ** The abstract server *)

(** A descriptor with the address of its client, or an answer of the kernel. *)
Inductive cevent : Type := EvNew (fd : Z) (addr : option NetAddr) | EvAns (x : Z * answer).

Section Steps.
Context {env : Env} (handler : EventHandler) (lfd : Z).

Inductive cserve (T : server) : cevent -> server -> Prop :=
| cv_new fd addr b A :
    sv_conns T !! fd = None -> (forall k e, sv_conns T !! k = Some e -> en_addr e <> b) ->
    prog_spec tcp empty_abs (handler (sv_log T) (CbAccept b)) A ->
    cserve T (EvNew fd addr)
      (mkServer (sv_log T ++ [CbAccept b]) (sv_listening T) (<[fd := mkEntry b addr A (next_reqs A)]> (sv_conns T)))
| cv_ans x T' : serve handler lfd T x T' -> cserve T (EvAns x) T'.

Inductive cserves : server -> list cevent -> server -> Prop :=
| cvs_nil T : cserves T [] T
| cvs_cons T x T1 l T2 : cserve T x T1 -> cserves T1 l T2 -> cserves T (x :: l) T2.

Definition cstep_valid (T : server) (x : cevent) : Prop :=
  match x with
  | EvNew _ _ => forall b, prog_valid tcp empty_abs (handler (sv_log T) (CbAccept b))
  | EvAns x => step_valid handler T x
  end.

Fixpoint ctrace_valid (T : server) (l : list cevent) : Prop :=
  match l with [] => True | x :: l => cstep_valid T x /\ forall T', cserve T x T' -> ctrace_valid T' l end.

Lemma cserves_app T l1 T1 l2 T2 : cserves T l1 T1 -> cserves T1 l2 T2 -> cserves T (l1 ++ l2) T2.
Proof. induction 1 as [|T x T0 l T1 Hs Hss IH]; [done|]. intros H2. simpl. econstructor; [exact Hs|]. by apply IH. Qed.

Lemma ctrace_valid_app T l1 l2 :
  ctrace_valid T (l1 ++ l2) -> ctrace_valid T l1 /\ forall T1, cserves T l1 T1 -> ctrace_valid T1 l2.
Proof.
  revert T. induction l1 as [|x l1 IH]; intros T Hv; [split; [done|]; intros T1 Hs; by inversion Hs; subst|].
  destruct Hv as [Hx Hv]. split; [split; [done|]; intros T' Hs; by apply IH, Hv|].
  intros T1 Hs. inversion Hs as [|? ? T0 ? ? Hx0 Hs0]; subst. by apply (proj2 (IH T0 (Hv T0 Hx0))).
Qed.

End Steps.

(** ** The ring of a consumer *)

(** A completion on the ring: a message of the acceptor, or the answer to a request. *)
Inductive citem : Type := CNew (fd : Z) (addr : option NetAddr) | CAns (x : sqe * answer).

Definition item_cqe (it : citem) : cqe :=
  match it with CNew fd _ => mkCqe fd addConnFlag false | CAns x => cqe_of x end.
Definition item_event (it : citem) : cevent :=
  match it with CNew fd addr => EvNew fd addr | CAns x => EvAns (event_of x) end.
Definition item_answer (it : citem) : option (sqe * answer) := match it with CNew _ _ => None | CAns x => Some x end.
Definition item_new (it : citem) : option (Z * option NetAddr) := match it with CNew fd addr => Some (fd, addr) | CAns _ => None end.
Definition queued (x : Z * option NetAddr) : citem := CNew x.1 x.2.

Notation answers_in l := (omap item_answer l).
Notation news_in l := (omap item_new l).

(** [k_open] has the descriptors the consumer was given and has not closed: a descriptor
    that is still open is not handed over again. *)
Inductive citem_step : kernel -> citem -> kernel -> Prop :=
| ci_new K fd addr :
    Stderr <= fd < 2 ^ 31 -> fd ∉ k_open K -> citem_step K (CNew fd addr) (mkKernel (k_chains K) (k_open K ∪ {[fd]}))
| ci_ans K x K1 : kernel_step K x K1 -> citem_step K (CAns x) K1.

Inductive citem_steps : kernel -> list citem -> kernel -> Prop :=
| cis_nil K : citem_steps K [] K
| cis_cons K x K1 l K2 : citem_step K x K1 -> citem_steps K1 l K2 -> citem_steps K (x :: l) K2.

Lemma item_chain_steps K l K' : citem_steps K l K' -> chain_steps (k_chains K) (answers_in l).
Proof.
  induction 1 as [K|K x K1 l K2 Hs Hss IH]; [constructor|]. inversion Hs as [? fd addr Hr Hn|? y ? Hk]; subst; [done|].
  inversion Hk as [? e rest chains ans Hp Ha]; subst. by econstructor.
Qed.

(** A round: messages and answers complete in any order, and descriptors are put into
    the queue; or the call is interrupted. *)
Inductive cround : Type :=
| CRound (l : list citem) (qd : list (Z * option NetAddr))
| CInterrupted (err : error) (kept : list sqe) (qd : list (Z * option NetAddr)).

Definition handover (q : bool) (x : Z * option NetAddr) : kernel_write := KwHandover x.1 x.2 q.

(** The acceptor's stores, and then the kernel's. *)
Definition stores_of (l : list citem) (qd : list (Z * option NetAddr)) : list kernel_write :=
  (handover false <$> news_in l) ++ (handover true <$> qd) ++ (answers_in l ≫= writes_of).

Definition cround_of (cr : cround) : ring_round :=
  match cr with
  | CRound l qd => mkRound None [] (stores_of l qd) (item_cqe <$> l) false
  | CInterrupted err kept qd => mkRound (Some err) kept (stores_of [] qd) [] false
  end.

Definition items_of (cr : cround) : list citem := match cr with CRound l _ => l | CInterrupted _ _ _ => [] end.
Definition queue_of (cr : cround) : list (Z * option NetAddr) := match cr with CRound _ qd | CInterrupted _ _ qd => qd end.

(** All that happens in the round, in the order in which the consumer sees it. *)
Definition seen (cr : cround) : list citem := items_of cr ++ (queued <$> queue_of cr).

(** The acceptor hands a descriptor over once; with a queue it sends no messages. *)
Definition handed (queue : bool) (cr : cround) : Prop :=
  NoDup (fst <$> news_in (seen cr)) /\ if queue then news_in (items_of cr) = [] else queue_of cr = [].

Inductive cround_allowed (queue : bool) (K : kernel) (s : St) : cround -> kernel -> Prop :=
| cra_items l qd K' :
    handed queue (CRound l qd) -> Forall (owned s) (answers_in l) ->
    citem_steps (submitted K (st_sq s)) (seen (CRound l qd)) K' -> cround_allowed queue K s (CRound l qd) K'
| cra_taken err qd K' :
    handed queue (CInterrupted err [] qd) -> interrupted err = true ->
    citem_steps (submitted K (st_sq s)) (queued <$> qd) K' -> cround_allowed queue K s (CInterrupted err [] qd) K'
| cra_left err qd K' :
    handed queue (CInterrupted err (st_sq s) qd) -> interrupted err = true ->
    citem_steps K (queued <$> qd) K' -> cround_allowed queue K s (CInterrupted err (st_sq s) qd) K'.

(** ** The relation *)

Section Events.
Context {env : Env} {P : World -> Prop} `{!EnvLaws env P} (handler : EventHandler) (w : workerConf).
Context (Htcp : w_sendRecvMsg w = false) (Hsync : w_asyncHandler w = false).
Notation lfd := (w_fd w).

(** The consumer in state [s] with the kernel [K] is the server [T]; it has not seen
    [l] yet, and [q] is its queue. *)
Record consumer_rel (q : option (list Z)) (K : kernel) (l : list citem) (s : St) (T : server) : Prop := {
  cl_table : table_rel P None K (answers_in l) s T;
  cl_listening : sv_listening T = false;
  cl_range fd : is_Some (sv_conns T !! fd) -> Stderr <= fd;
  cl_queue : wv_connQueue (st_worker s) = q;
  cl_addr fd addr : CNew fd addr ∈ l -> wv_socketAddresses (st_worker s) !! fd = Some addr;
  cl_once : NoDup (fst <$> news_in l)
}.

Definition same_budget (s s' : St) : Prop :=
  st_sq_size s' = st_sq_size s /\ wv_shutdowning (st_worker s') = wv_shutdowning (st_worker s) /\ free_slots s <= free_slots s' + 3.

(** The event was the step [x]. *)
Definition cstepped (q : option (list Z)) (K1 : kernel) (l : list citem) (T : server) (x : cevent) (s s' : St) : Prop :=
  exists T', cserve handler lfd T x T' /\ consumer_rel q K1 l s' T' /\ same_budget s s'.

Lemma news_cons fd addr l : NoDup (fst <$> news_in (CNew fd addr :: l)) -> NoDup (fst <$> news_in l) /\ forall addr', CNew fd addr' ∉ l.
Proof.
  cbn [omap list_omap item_new fmap list_fmap fst]. intros [Hn Hd]%NoDup_cons. split; [done|]. intros addr' Hin. apply Hn.
  apply list_elem_of_fmap. exists (fd, addr'). split; [done|]. apply list_elem_of_omap. by exists (CNew fd addr').
Qed.

(** The answers not yet seen are where the kernel stored them. *)
Lemma filled_new s s' fd b l :
  cm_connections (st_mgr s) !! fd = None -> cm_connections (st_mgr s') = <[fd := b]> (cm_connections (st_mgr s)) ->
  (forall k a, cm_connections (st_mgr s) !! k = Some a -> st_conns s' !! a = st_conns s !! a) ->
  wv_clientAddr (st_worker s') = wv_clientAddr (st_worker s) -> Forall (filled s) l -> Forall (filled s') l.
Proof.
  intros Hno Hcm Hoth Hw Hf. eapply Forall_impl; [exact Hf|]. intros x. rewrite /filled. destruct (x.2) as [|a data more| | | |]; try done; [by rewrite Hw|].
  intros (Hk & c & inb & Hc & Hi & Hp). split; [rewrite Hcm lookup_insert_ne //; congruence|]. exists c, inb. split; [by rewrite (Hoth _ _ Hk)|done].
Qed.

(** [handleNewConn] on a descriptor that was handed over. *)
Lemma step_new q K fd addr l s T :
  consumer_rel q K (CNew fd addr :: l) s T -> Stderr <= fd < 2 ^ 31 -> fd ∉ k_open K ->
  (forall b, prog_valid tcp empty_abs (handler (sv_log T) (CbAccept b))) -> 2 < free_slots s ->
  wp (handleNewConn handler w fd) (fun r s' => r = None /\
    cstepped q (mkKernel (k_chains K) (k_open K ∪ {[fd]})) l T (EvNew fd addr) s s') s.
Proof.
  intros [(HT & (m & Hm) & Hf) Hli Hrg Hqu Had Honce] Hfd Hop Hv Hsq. destruct (news_cons _ _ _ Honce) as [Honce' Hno'].
  have Hno : sv_conns T !! fd = None.
  { destruct (sv_conns T !! fd) eqn:He; [|done]. destruct Hop. apply (co_open _ _ _ _ _ Hm). by eexists. }
  have Htab : cm_connections (st_mgr s) = en_addr <$> sv_conns T := to_listener _ _ _ HT.
  have Hfree : cm_connections (st_mgr s) !! fd = None by rewrite Htab lookup_fmap Hno.
  eapply wp_mono; [eapply (wp_handleNewConn (P := P) handler w fd addr s Htcp); [apply HT|done|apply Had; by left|lia|by rewrite (to_log _ _ _ HT)]|].
  intros r s' [-> (b & c & s1 & [Hnew Hloc Hrem Hfresh Hcm1 Hw1 Hl1 [Hq1 Hsz1] Hoth1 Hcl1] & Hm' & Hmgr' & Hw' & Hl' & Hsz' & Hoth' & c' & sqes & Hc' & Hfd' & Hnet' & [_ Hp'] & Hst' & _ & Hspec & Hq' & Hall)].
  split; [done|]. rewrite Hl1 (to_log _ _ _ HT) in Hspec. have Hrange : 0 <= fd < 2 ^ 31 by rewrite /Stderr in Hfd; lia.
  have Hkept : forall k a, cm_connections (st_mgr s) !! k = Some a -> a <> b /\ st_conns s' !! a = st_conns s !! a.
  { intros k a Hk. have Hb : a <> b by intros ->; by apply (Hfresh k). split; [done|]. by rewrite Hoth' // Hoth1. }
  have Hold : others_kept T b s s' by intros k e Hke; apply (Hkept k); rewrite Htab lookup_fmap Hke.
  have Hsq' : st_sq s' = st_sq s ++ sqes by rewrite Hq' Hq1. have Hsz : st_sq_size s' = st_sq_size s by rewrite Hsz' Hsz1.
  have Hcm' : cm_connections (st_mgr s') = <[fd := b]> (cm_connections (st_mgr s)) by rewrite Hmgr'.
  have Hw : st_worker s' = with_socketAddresses (delete fd (wv_socketAddresses (st_worker s))) (st_worker s) by rewrite Hw'.
  have Haddr : c_remoteAddr c' = addr by rewrite Hp'. exists (with_new T fd b c'). split.
  { rewrite /with_new /new_entry Haddr. apply cv_new; [done| |done]. intros k e Hke. apply (Hold k e Hke). }
  split; [|split; [done|split; [by rewrite Hw|eapply free_slots_app; [done|done|have := next_chain_short _ _ _ Hall; lia]]]].
  split; cbn [with_new sv_conns sv_listening]; [split_and!|done|..|done].
  - eapply new_table; try done; [by rewrite Hl' Hl1|by rewrite /listener_ok Hcm' Htab /= fmap_insert| |rewrite Hw; apply HT|by rewrite Hmgr' Hcl1].
    split; try done. rewrite Hst'. apply po_next.
  - eexists. by eapply (new_chains None K (k_open K ∪ {[fd]}) s s' T fd b c' sqes); try done; set_solver.
  - eapply (filled_new s s' fd b); try done; [|by rewrite Hw]. intros k a Hk. by apply (Hkept k).
  - intros k [<-|[_ Hk]]%lookup_insert_is_Some; [lia|by apply Hrg].
  - by rewrite Hw.
  - intros fd' addr' Hin. rewrite Hw /= lookup_delete_ne; [by intros <-; apply (Hno' addr')|]. apply Had. by right.
Qed.

Lemma pend_not_accept A r rs st : pend_ok A (r :: rs) st -> st <> connAccept.
Proof.
  intros Hp. inversion Hp as [Heq| |]; [|done]. rewrite /next_state. by destruct (0 <? zlen (a_out A)), (a_closed A).
Qed.

(** The answers make no entry for a new descriptor. *)
Lemma serve_dom T x T' : sv_listening T = false -> serve handler lfd T x T' -> forall k, is_Some (sv_conns T' !! k) -> is_Some (sv_conns T !! k).
Proof.
  intros Hli Hs k. inversion Hs; subst; try congruence; cbn [called gone sv_conns]; try done.
  all: rewrite ?lookup_insert_is_Some ?lookup_delete_is_Some; try (intros [<-|[_ ?]]; [by eexists|done]); by intros [_ ?].
Qed.

(** The answer to a request. *)
Lemma step_answer q K K1 e ans l s T :
  consumer_rel q K (CAns (e, ans) :: l) s T -> kernel_step K (e, ans) K1 -> chain_steps (k_chains K1) (answers_in l) ->
  step_valid handler T (event_of (e, ans)) -> 2 < free_slots s ->
  wp (consumer_event handler w (cqe_of (e, ans))) (fun r s' => r = None /\ cstepped q K1 l T (EvAns (event_of (e, ans))) s s') s.
Proof.
  intros [Hrel Hli Hrg Hqu Had Honce] Hs Hss Hv Hsq. have Hfill : filled s (e, ans) by destruct Hrel as (_ & _ & [Hx _]%Forall_cons).
  destruct (table_head _ _ _ _ _ _ _ _ Hrel Hs Hss) as [[? _]|(en & c & r & rs & Hah)]; [done|].
  have [HT Hen [[_ Hk Hc] _ _] [Hfd Hr _ _ _ Hpo] Hpend Hsqe _ Hans _ _ _] := Hah. set (fd := key_of (sq_data e)) in *.
  have Hrange : Stderr <= fd < 2 ^ 31 by split; [apply Hrg; by eexists|lia].
  assert (Hwp : wp (consumer_event handler w (cqe_of (e, ans))) (fun r s' => r = None /\
    stepped (P := P) handler w None K1 (answers_in l) T (fd, ans) s s') s).
  { pose proof (step_head (P := P) handler w None Htcp Hsync _ _ _ _ _ _ _ _ _ _ _ _ Hah Hfill eq_refl Hv Hsq) as Hshard.
    have Hdata : exists flag, is_flag flag /\ flag <> addConnFlag /\ sq_data e = Z.lor flag (uint64 fd).
    { rewrite -Hfd. inversion Hsqe; subst e; eexists; (split; [|split; [|reflexivity]]); [constructor|by vm_compute|constructor|by vm_compute|constructor|by vm_compute]. }
    destruct Hdata as (flag & Hflag & Hadd & Hdata). rewrite /cqe_of /= Hdata in Hshard |- *. destruct (decide (0 <= ans_res ans)) as [Hres|Hres].
    - rewrite /wp -(stream_event_same handler w fd (en_addr en) c) //. rewrite Hpend in Hpo. by eapply pend_not_accept.
    - destruct ans as [fd' raw|a data more| |n| |errno]; simpl in Hres; try lia; [..|].
      + by inversion Hsqe; subst e.
      + have := zlen_nonneg data. lia.
      + inversion Hsqe; subst e; try done. simpl in Hans. lia.
      + simpl in Hans |- *. rewrite /wp (consumer_event_failed handler w fd (en_addr en)) //.
        have Hrun : shard_event handler w (mkCqe (- errno) (Z.lor flag (uint64 fd)) false) s = Ret (None, s).
        { destruct (wp_run _ _ _ (wp_shard_failed handler w (Z.lor flag (uint64 fd)) errno false s (fun r s' => r = None /\ s' = s) Hans (conj eq_refl eq_refl))) as (? & ? & -> & -> & ->). done. }
        by rewrite /wp /= Hrun in Hshard. }
  eapply wp_mono; [exact Hwp|]. intros r0 s' [-> (T' & Hsv & Hrel' & Hw & Hsz & Hfree)]. split; [done|].
  exists T'. split; [by apply cv_ans|]. split; [|split; [done|split; [by rewrite Hw|done]]]. split; try done.
  - by inversion Hsv; subst; simpl; congruence.
  - intros k Hk'. apply Hrg. by eapply serve_dom.
  - by rewrite Hw.
  - intros fd' addr Hin. rewrite Hw. apply Had. by right.
Qed.

(** The completions of a round. *)
Lemma citems_ok q K K' l later s T i :
  consumer_rel q K (l ++ later) s T -> citem_steps K l K' -> answers_in later = [] ->
  ctrace_valid handler lfd T (item_event <$> l) -> 3 * zlen l <= free_slots s ->
  wp (process_cqes (consumer_event handler w) (item_cqe <$> l) i) (fun r s' => r.2 = None /\ st_sq_size s' = st_sq_size s /\
    wv_shutdowning (st_worker s') = wv_shutdowning (st_worker s) /\ free_slots s <= free_slots s' + 3 * zlen l /\
    exists T', cserves handler lfd T (item_event <$> l) T' /\ consumer_rel q K' later s' T') s.
Proof.
  revert K s T i. induction l as [|it l IH]; intros K s T i Hrel Hss Hlater Hv Hsq.
  { inversion Hss; subst. wp_steps. split_and!; try done; [rewrite /zlen /=; lia|]. exists T. split; [constructor|done]. }
  inversion Hss as [|? ? K1 ? ? Hs Hss1]; subst. destruct Hv as [Hv Hv1].
  have Hz : zlen (it :: l) = zlen l + 1 by rewrite /zlen /=; lia. rewrite Hz in Hsq. have Hz0 := zlen_nonneg l.
  cbn [fmap list_fmap process_cqes]. wp_step.
  assert (Hstep : wp (consumer_event handler w (item_cqe it)) (fun r s' => r = None /\ cstepped q K1 (l ++ later) T (item_event it) s s') s).
  { destruct it as [fd addr|[e ans]]; inversion Hs as [? ? ? Hfd Hop|? ? ? Hk]; subst.
    - rewrite /wp consumer_event_add; [rewrite /Stderr in Hfd; lia|]. apply step_new; try done; lia.
    - apply (step_answer q K K1 e ans); try done; [|lia]. rewrite omap_app Hlater app_nil_r. by eapply item_chain_steps. }
  eapply wp_mono; [exact Hstep|]. intros r s1 [-> (T1 & Hsv & Hrel1 & Hsz & Hsd & Hfree)]. cbn beta iota.
  eapply wp_mono; [apply (IH K1 s1 T1 _ Hrel1 Hss1 Hlater); [by apply Hv1|lia]|].
  intros r s2 (Hr & Hsz2 & Hsd2 & Hfree2 & T2 & Hsvs & Hrel2). split_and!; [done|congruence|congruence|lia|]. exists T2. split; [by econstructor|done].
Qed.

(** ** The queue *)

Lemma answers_queued (qd : list (Z * option NetAddr)) : answers_in (queued <$> qd) = [].
Proof. by induction qd. Qed.

Lemma news_queued (qd : list (Z * option NetAddr)) : news_in (queued <$> qd) = qd.
Proof. induction qd as [|[fd addr] qd IH]; [done|]. rewrite fmap_cons /=. by f_equal. Qed.

(** The descriptor [fd] is taken from the queue. *)
Lemma dequeue_rel fd q K l s T :
  consumer_rel (Some (fd :: q)) K l s T -> consumer_rel (Some q) K l (set_worker (with_connQueue (Some q) (st_worker s)) s) T.
Proof.
  intros [(HT & (m & Hm) & Hf) Hli Hrg _ Had Honce]. split; try done. split_and!; [|exists m; by destruct Hm; split|done].
  destruct HT as [Hm' Hl Hr Hfree Hal Hent [Hsv Hcl]]. split; try done. by destruct Hm'; split.
Qed.

(** [getConnsFromQueue] takes all descriptors of the queue, when the fuel is more than
    their number. *)
Lemma queue_ok fuel K K' (qd : list (Z * option NetAddr)) s T :
  consumer_rel (Some (fst <$> qd)) K (queued <$> qd) s T -> citem_steps K (queued <$> qd) K' ->
  ctrace_valid handler lfd T (item_event <$> (queued <$> qd)) -> 3 * zlen qd <= free_slots s -> (length qd < fuel)%nat ->
  wp (getConnsFromQueue handler w fuel) (fun r s' => r = Some () /\ st_sq_size s' = st_sq_size s /\
    wv_shutdowning (st_worker s') = wv_shutdowning (st_worker s) /\
    exists T', cserves handler lfd T (item_event <$> (queued <$> qd)) T' /\ consumer_rel (Some []) K' [] s' T') s.
Proof.
  revert fuel K s T. induction qd as [|[fd addr] qd IH]; intros [|fuel] K s T Hrel Hss Hv Hsq Hfuel; cbn [length] in Hfuel; try lia; cbn [getConnsFromQueue].
  { wp_steps. rewrite (cl_queue _ _ _ _ _ Hrel) /=. wp_steps. inversion Hss; subst. split_and!; try done. exists T. split; [constructor|done]. }
  wp_steps. rewrite (cl_queue _ _ _ _ _ Hrel). rewrite !fmap_cons in Hrel, Hss, Hv |- *. cbn [fst]. rewrite /mod_vars. wp_steps.
  have Hrel0 := dequeue_rel _ _ _ _ _ _ Hrel. set (s0 := set_worker _ s) in *. destruct Hv as [Hv Hv1].
  have Hz : zlen ((fd, addr) :: qd) = zlen qd + 1 by rewrite /zlen /=; lia. rewrite Hz in Hsq. have Hz0 := zlen_nonneg qd.
  inversion Hss as [|? ? K1 ? ? Hs Hss1]; subst. inversion Hs as [? ? ? Hfd Hop|]; subst.
  have Hf0 : free_slots s0 = free_slots s by [].
  eapply wp_mono; [eapply (step_new (Some (fst <$> qd : list Z)) K fd addr (queued <$> qd : list citem) s0 T Hrel0 Hfd Hop Hv); lia|].
  intros r s1 [-> (T1 & Hsv & Hrel1 & Hsz & Hsd & Hfree)]. cbn beta.
  eapply wp_mono; [apply (IH fuel _ s1 T1 Hrel1 Hss1); [by apply Hv1|lia|lia]|].
  intros r s2 (-> & Hsz2 & Hsd2 & T2 & Hsvs & Hrel2). split_and!; [done|by rewrite Hsz2 Hsz|by rewrite Hsd2 Hsd|]. exists T2. split; [by econstructor|done].
Qed.

(** ** What happens while the consumer waits *)

(** The acceptor hands descriptors over. *)
Definition given (q : bool) (hs : list (Z * option NetAddr)) (v v' : workerVars) : Prop :=
  serving false v' /\ wv_clientAddr v' = wv_clientAddr v /\ wv_shutdowning v' = wv_shutdowning v /\
  wv_connQueue v' = (if q then (fun l => l ++ (fst <$> hs)) <$> wv_connQueue v else wv_connQueue v) /\
  (forall fd, fd ∉ fst <$> hs -> wv_socketAddresses v' !! fd = wv_socketAddresses v !! fd) /\
  (NoDup (fst <$> hs) -> forall fd addr, (fd, addr) ∈ hs -> wv_socketAddresses v' !! fd = Some addr).

Lemma handovers_ok q hs s Q :
  serving false (st_worker s) -> (q = true -> is_Some (wv_connQueue (st_worker s))) ->
  (forall v', given q hs (st_worker s) v' -> Q () (set_worker v' s)) ->
  wp (kernel_stores (handover q <$> hs)) Q s.
Proof.
  revert s. induction hs as [|[fd addr] hs IH]; intros s Hsv Hq HQ.
  { wp_steps. have -> : s = set_worker (st_worker s) s by destruct s. apply HQ. split_and!; try done; [|by intros _ fd addr ?%elem_of_nil].
    destruct q; [|done]. destruct (Hq eq_refl) as [l ->]. by rewrite /= app_nil_r. }
  rewrite fmap_cons. cbn [kernel_stores kernel_store handover fst snd]. rewrite /setSocketAddr /addConnToQueue /mod_vars. wp_steps.
  set (v1 := with_socketAddresses _ _). set (v2 := if q then with_connQueue ((fun l => l ++ [fd]) <$> wv_connQueue (st_worker s)) v1 else v1).
  assert (Hnext : wp (kernel_stores (handover q <$> hs)) Q (set_worker v2 s)).
  { have Hsv2 : serving false v2 by rewrite /v2; destruct q. apply IH; [done|intros ->; rewrite /v2 /=; by destruct (Hq eq_refl) as [l ->]|].
    intros v' (Hsv' & Hca & Hsd & Hcq & Hold & Hnew). cbn [st_worker set_worker] in *. apply HQ.
    have Ha : wv_socketAddresses v2 = <[fd := addr]> (wv_socketAddresses (st_worker s)) by rewrite /v2; destruct q.
    split_and!; [done|by rewrite Hca /v2; destruct q|by rewrite Hsd /v2; destruct q| | |].
    - rewrite Hcq /v2. destruct q; [|done]. cbn [wv_connQueue with_connQueue]. destruct (wv_connQueue (st_worker s)) as [l|]; [|done]. by rewrite /= -app_assoc.
    - intros k Hk. rewrite fmap_cons not_elem_of_cons in Hk. destruct Hk as [Hk1 Hk2]. by rewrite Hold // Ha lookup_insert_ne // not_eq_sym.
    - rewrite fmap_cons. intros [Hni Hnd]%NoDup_cons k addr' [[= -> ->]|Hin]%elem_of_cons; [by rewrite Hold // Ha lookup_insert_eq|by apply Hnew]. }
  destruct q; cbn [when]; wp_steps; [|exact Hnext]. cbn [st_worker set_worker]. rewrite /v2 in Hnext.
  destruct (Hq eq_refl) as [l Hl]. rewrite Hl in Hnext |- *. wp_steps. by rewrite Hl.
Qed.

Lemma vars_rel v K s T : table_rel P None K [] s T -> serving false v -> table_rel P None K [] (set_worker v s) T.
Proof.
  intros (HT & (m & Hm) & _) Hv. split_and!; [|exists m; by destruct Hm; split|constructor].
  destruct HT as [Hm' Hl Hr Hfree Hal Hent [Hsv Hcl]]. split; try done. by destruct Hm'; split.
Qed.

(** The queue of the consumer when the descriptors [qd] wait in it. *)
Definition queue_with (queue : bool) (qd : list (Z * option NetAddr)) : option (list Z) := if queue then Some (fst <$> qd) else None.

Lemma handed_given queue l qd s T K Q :
  consumer_rel (queue_with queue []) K [] s T -> handed queue (CRound l qd) ->
  (forall v', given queue (news_in (seen (CRound l qd))) (st_worker s) v' -> wp (kernel_stores (answers_in l ≫= writes_of)) Q (set_worker v' s)) ->
  wp (kernel_stores (stores_of l qd)) Q s.
Proof.
  intros [(HT & _) _ _ Hqu _ _] [_ Hh] HQ. have [Hsv _] := to_serving _ _ _ HT. rewrite /seen omap_app news_queued /= in HQ.
  rewrite /stores_of. apply stores_app. destruct queue; simpl in Hh; rewrite Hh.
  - wp_steps. apply stores_app. apply handovers_ok; [done|by intros _; rewrite Hqu; eexists|]. intros v' Hv'. apply HQ. by rewrite Hh.
  - apply handovers_ok; [done|done|]. intros v' Hv'. apply HQ. by rewrite Hh app_nil_r.
Qed.

Lemma waiting_ok queue l qd K s T :
  consumer_rel (queue_with queue []) K [] s T -> handed queue (CRound l qd) -> chain_steps (k_chains K) (answers_in l) -> Forall (owned s) (answers_in l) ->
  wp (kernel_stores (stores_of l qd)) (fun _ s' => consumer_rel (queue_with queue qd) K (seen (CRound l qd)) s' T /\
    st_sq s' = st_sq s /\ st_sq_size s' = st_sq_size s /\ wv_shutdowning (st_worker s') = wv_shutdowning (st_worker s)) s.
Proof.
  intros Hrel Hh Hss Hown. eapply handed_given; [done..|]. intros v' (Hsv & Hca & Hsd & Hcq & _ & Hnew). have Hh' := Hh. destruct Hh' as [Honce Hmode].
  have [Htab Hli Hrg Hqu _ _] := Hrel. have Htab1 := vars_rel v' _ _ _ Htab Hsv. destruct Htab1 as (HT1 & (m & Hm) & Hf1) eqn:He; clear He.
  have Hd : keys_distinct (answers_in l) by eapply (writes_distinct (k_chains K)); [apply Hm|by eapply table_lonely|done].
  eapply wp_mono; [apply (stores_ok (P := P) None K [] (answers_in l) _ T Htab1 Hss Hd Hown)|].
  intros [] s2 (Htab2 & Hmgr & Hsq & Hsz & Hsd2 & Hsa & Hcq2). split; [|split_and!; [done|done|by rewrite Hsd2]]. split; try done.
  - by rewrite /seen omap_app answers_queued app_nil_r.
  - rewrite Hcq2 /= Hcq Hqu /queue_with. rewrite /seen omap_app news_queued /= in Hmode |- *. destruct queue; [|done]. by rewrite Hmode.
  - intros fd addr Hin. rewrite Hsa. apply Hnew; [done|]. apply list_elem_of_omap. by exists (CNew fd addr).
Qed.

(** ** Rounds *)

Section ConsumerRounds.
Context (fuel : nat) (maxCQ : Z).
Notation looper := (consumer_looper handler w fuel maxCQ).

Lemma consumer_handler_serving s : wv_shutdowning (st_worker s) = false -> shutdownHandler looper s = Ret (Some true, s).
Proof.
  intros Hsd. cbn [shutdownHandler consumer_looper]. rewrite /consumer_shutdownHandler /needToShutdown /mbind /StateM_bind /get_state /=. by rewrite Hsd.
Qed.

(** The end of a round: the queue is emptied. *)
Lemma cfinish_ok queue qd K K' s T sub :
  consumer_rel (queue_with queue qd) K (queued <$> qd) s T -> (queue = false -> qd = []) -> citem_steps K (queued <$> qd) K' ->
  ctrace_valid handler lfd T (item_event <$> (queued <$> qd)) -> 3 * zlen qd <= free_slots s -> (length qd < fuel)%nat ->
  wp (finish_round looper sub) (fun r s' => r = LoopContinue sub /\ st_sq_size s' = st_sq_size s /\
    wv_shutdowning (st_worker s') = wv_shutdowning (st_worker s) /\
    exists T', cserves handler lfd T (item_event <$> (queued <$> qd)) T' /\ consumer_rel (queue_with queue []) K' [] s' T') s.
Proof.
  intros Hrel Hmode Hss Hv Hsq Hfuel. rewrite /finish_round. cbn [loopFinisher loopFinishCondition consumer_looper].
  rewrite /handleJobsInQueues /handleAsyncWritesIfEnabled Hsync /consumer_loopFinishCondition. wp_steps. rewrite (cl_queue _ _ _ _ _ Hrel) /queue_with.
  have Hend s' T' K1 q : consumer_rel q K1 [] s' T' -> allClosed (st_mgr s') = false.
  { intros [(HT & _) _ _ _ _ _]. have [_ Hcl] := to_serving _ _ _ HT. by rewrite /allClosed Hcl. }
  destruct queue; wp_steps.
  - eapply wp_mono; [by eapply queue_ok|]. intros r s' (-> & Hsz & Hsd & T' & Hsv & Hrel'). wp_steps. rewrite (Hend _ _ _ _ Hrel'). wp_steps.
    split_and!; try done. by exists T'.
  - rewrite (Hmode eq_refl) in Hrel, Hss |- *. inversion Hss; subst. rewrite (Hend _ _ _ _ Hrel). wp_steps. split_and!; try done. exists T. split; [constructor|done].
Qed.

(** What a round asks of the configuration: the completion batch, the submission queue
    and the fuel are large enough for what happens in it. *)
Definition kept_of (cr : cround) : list sqe := match cr with CRound _ _ => [] | CInterrupted _ kept _ => kept end.
Definition cround_fits (size : Z) (cr : cround) : Prop :=
  zlen (items_of cr) <= maxCQ /\ 3 * zlen (items_of cr) + 3 * zlen (queue_of cr) + zlen (kept_of cr) <= size /\ (length (queue_of cr) < fuel)%nat.

Lemma csubmit_rel q K s T : consumer_rel q K [] s T -> consumer_rel q (submitted K (st_sq s)) [] (set_sq [] s) T.
Proof. intros [Htab Hli Hrg Hqu Had Honce]. split; try done. by apply rel_submit. Qed.

Lemma citem_steps_app K l1 l2 K' : citem_steps K (l1 ++ l2) K' -> exists K1, citem_steps K l1 K1 /\ citem_steps K1 l2 K'.
Proof.
  revert K. induction l1 as [|x l1 IH]; intros K Hss; [exists K; by split; [constructor|]|].
  inversion Hss as [|? ? K0 ? ? Hs Hss1]; subst. destruct (IH _ Hss1) as (K1 & H1 & H2). exists K1. split; [by econstructor|done].
Qed.

Lemma handed_mode queue l qd : handed queue (CRound l qd) -> queue = false -> qd = [].
Proof. intros [_ Hm] ->. done. Qed.

(** The end of a round whose call was interrupted. *)
Lemma cround_interrupted queue K K' qd s0 T sub :
  consumer_rel (queue_with queue []) K [] s0 T -> handed queue (CRound [] qd) -> citem_steps K (queued <$> qd) K' ->
  3 * zlen qd <= free_slots s0 -> (length qd < fuel)%nat -> ctrace_valid handler lfd T (item_event <$> (queued <$> qd)) ->
  wp (kernel_stores (stores_of [] qd)) (fun _ => wp (finish_round looper sub)
    (fun r s' => r = LoopContinue sub /\ st_sq_size s' = st_sq_size s0 /\ wv_shutdowning (st_worker s') = wv_shutdowning (st_worker s0) /\
      exists T', cserves handler lfd T (item_event <$> (queued <$> qd)) T' /\ consumer_rel (queue_with queue []) K' [] s' T')) s0.
Proof.
  intros Hrel Hh Hss Hsq Hfuel Hv.
  eapply wp_mono; [apply (waiting_ok queue [] qd K s0 T Hrel Hh); constructor|]. intros [] s1 (Hrel1 & Hq1 & Hsz1 & Hsd1). cbn beta.
  eapply wp_mono; [apply (cfinish_ok queue qd K K' s1 T sub Hrel1); try done; [by eapply handed_mode|by rewrite /free_slots Hq1 Hsz1]|].
  intros r s2 (-> & Hsz2 & Hsd2 & T' & Hsv & Hrel2). split_and!; [done|congruence|congruence|]. by exists T'.
Qed.

(** One round of the loop. *)
Lemma cround_ok queue K K' cr s T sub :
  consumer_rel (queue_with queue []) K [] s T -> wv_shutdowning (st_worker s) = false -> cround_allowed queue K s cr K' ->
  submitter_ok sub -> cround_fits (st_sq_size s) cr -> ctrace_valid handler lfd T (item_event <$> seen cr) ->
  wp (loop_round looper (consumer_event handler w) sub (cround_of cr)) (fun r s' => st_sq_size s' = st_sq_size s /\
    wv_shutdowning (st_worker s') = false /\ exists sub' T', r = LoopContinue sub' /\ submitter_ok sub' /\
      cserves handler lfd T (item_event <$> seen cr) T' /\ consumer_rel (queue_with queue []) K' [] s' T') s.
Proof.
  intros Hrel Hsd Hall Hsub (Hmax & Hsize & Hfuel) Hv. rewrite /loop_round. wp_step.
  eapply wp_of_run; [by apply consumer_handler_serving|]. cbn beta iota. wp_step. have Hrel1 := csubmit_rel _ _ _ _ Hrel.
  destruct Hall as [l qd K' Hh Hown Hss|err qd K' Hh Herr Hss|err qd K' Hh Herr Hss];
    cbn [cround_of rr_err rr_left rr_mem rr_cqes rr_stop items_of queue_of kept_of] in *.
  - eapply wp_lift; [done|]. cbn beta iota. wp_steps. rewrite /in_worker /has_worker_self. wp_steps.
    destruct (citem_steps_app _ _ _ _ Hss) as (K1 & Hss1 & Hss2). have Hst := item_chain_steps _ _ _ Hss1.
    eapply wp_mono; [apply (waiting_ok queue l qd _ _ T Hrel1 Hh Hst Hown)|]. intros [] s1 (Hrel2 & Hq1 & Hsz1 & Hsd1). cbn [when]. wp_steps.
    have -> : take (Z.to_nat maxCQ) (item_cqe <$> l) = item_cqe <$> l by apply take_ge; rewrite length_fmap; rewrite /zlen in Hmax; lia.
    rewrite /seen /= fmap_app in Hv |- *. destruct (ctrace_valid_app handler lfd _ _ _ Hv) as [Hv1 Hv2].
    have Hf1 : free_slots s1 = st_sq_size s by rewrite /free_slots Hq1 Hsz1 /= /zlen /=; lia.
    change (zlen (@nil sqe)) with 0 in Hsize. have Hz := zlen_nonneg qd. have Hz' := zlen_nonneg l.
    eapply wp_mono; [apply (citems_ok _ _ K1 l (queued <$> qd) s1 T 0 Hrel2 Hss1); [by rewrite answers_queued|done|lia]|].
    intros [n r] s2 (Hr & Hsz2 & Hsd2 & Hfree2 & T1 & Hsv1 & Hrel3). cbn [snd] in Hr. subst r. cbn beta iota.
    destruct (advance_ok sub n Hsub) as (sub' & Hadv & Hsub' & _). wp_step. eapply wp_lift; [exact Hadv|]. cbn beta iota.
    eapply wp_mono; [apply (cfinish_ok queue qd K1 K' s2 T1 sub' Hrel3); try done; [by eapply handed_mode|by apply Hv2|lia]|].
    intros r s3 (-> & Hsz3 & Hsd3 & T2 & Hsv2 & Hrel4). split; [by rewrite Hsz3 Hsz2 Hsz1|]. split; [by rewrite Hsd3 Hsd2 Hsd1 /=|].
    exists sub', T2. split_and!; try done. by eapply cserves_app.
  - destruct (submit_ok sub (Some err) Hsub) as (e & sub' & Hs & Hsub' & _). eapply wp_lift; [exact Hs|].
    have -> : e = Some ErrSkippable by eapply submit_interrupted. cbn beta iota. wp_steps. rewrite /in_worker /has_worker_self. wp_steps. cbn [when errors_Is].
    have Hf0 : 3 * zlen qd <= free_slots (set_sq [] s) by rewrite /free_slots /=; change (zlen (@nil sqe)) with 0 in *; change (zlen (@nil citem)) with 0 in *; lia.
    eapply wp_mono; [apply (cround_interrupted queue _ K' qd _ T sub' Hrel1 Hh Hss Hf0 Hfuel Hv)|]. intros [] s1 Hwp. cbn beta. wp_steps.
    eapply wp_mono; [exact Hwp|]. intros r s2 (-> & Hsz & Hsd2 & T' & Hsv & Hrel2). split; [done|]. split; [by rewrite Hsd2|]. by exists sub', T'.
  - destruct (submit_ok sub (Some err) Hsub) as (e & sub' & Hs & Hsub' & _). eapply wp_lift; [exact Hs|].
    have -> : e = Some ErrSkippable by eapply submit_interrupted. cbn beta iota. wp_steps. rewrite /in_worker /has_worker_self. wp_steps. cbn [when errors_Is].
    have -> : set_sq (st_sq s) s = s by destruct s. have Hf0 : 3 * zlen qd <= free_slots s by rewrite /free_slots; change (zlen (@nil citem)) with 0 in *; lia.
    eapply wp_mono; [apply (cround_interrupted queue _ K' qd _ T sub' Hrel Hh Hss Hf0 Hfuel Hv)|]. intros [] s1 Hwp. cbn beta. wp_steps.
    eapply wp_mono; [exact Hwp|]. intros r s2 (-> & Hsz & Hsd2 & T' & Hsv & Hrel2). split; [done|]. split; [by rewrite Hsd2|]. by exists sub', T'.
Qed.

(** ** The loop *)

Inductive callowed (queue : bool) : kernel -> batchSubmitter -> St -> list cround -> kernel -> Prop :=
| cal_nil K sub s : callowed queue K sub s [] K
| cal_cons K sub s cr crs K1 K2 :
    cround_allowed queue K s cr K1 ->
    (forall sub' s', loop_round looper (consumer_event handler w) sub (cround_of cr) s = Ret (LoopContinue sub', s') ->
       callowed queue K1 sub' s' crs K2) ->
    callowed queue K sub s (cr :: crs) K2.

Definition cevents (crs : list cround) : list cevent := crs ≫= fun cr => item_event <$> seen cr.

Lemma cloop_ok queue K K2 crs s T sub :
  consumer_rel (queue_with queue []) K [] s T -> wv_shutdowning (st_worker s) = false -> submitter_ok sub -> callowed queue K sub s crs K2 ->
  Forall (cround_fits (st_sq_size s)) crs -> ctrace_valid handler lfd T (cevents crs) ->
  wp (innerLoop looper (consumer_event handler w) sub (cround_of <$> crs)) (fun r s' => r = None /\
    exists T', cserves handler lfd T (cevents crs) T' /\ consumer_rel (queue_with queue []) K2 [] s' T') s.
Proof.
  revert K s T sub. induction crs as [|cr crs IH]; intros K s T sub Hrel Hsd Hsub Hall Hfits Hv.
  { inversion Hall; subst. wp_steps. split; [done|]. exists T. split; [constructor|done]. }
  apply Forall_cons in Hfits as [Hfit Hfits]. destruct (ctrace_valid_app _ _ _ _ _ Hv) as [Hv1 Hv2].
  inversion Hall as [|? ? ? ? ? K1 ? Hra Hnext]; subst. rewrite fmap_cons. cbn [innerLoop].
  destruct (wp_run _ _ _ (cround_ok _ _ _ _ _ _ _ Hrel Hsd Hra Hsub Hfit Hv1)) as (r & s1 & Hrun & Hsz & Hsd1 & sub1 & T1 & -> & Hsub1 & Hsv1 & Hrel1).
  wp_step. eapply wp_of_run; [exact Hrun|]. cbn beta iota.
  eapply wp_mono; [apply (IH K1 s1 T1); try done; [by apply Hnext|by rewrite Hsz|by apply Hv2]|].
  intros r s2 [-> (T2 & Hsv2 & Hrel2)]. split; [done|]. exists T2. split; [by eapply cserves_app|done].
Qed.

End ConsumerRounds.

End Events.
Arguments consumer_rel P q K l s T : clear implicits.

(** ** Theorem *)

Definition idle_server : server := mkServer [] false ∅.

(** The consumer as the server built it, when its loop begins. *)
Definition running (c : consumer) : St := set_worker (with_running true (st_worker (co_st c))) (co_st c).

Section ConsumerLife.
Context {env : Env} {P : World -> Prop} `{!EnvLaws env P} (handler : EventHandler).
Context (CreateRing : nat -> Z -> (Z * Z) + error) (world : World) (choices : list (option nat)) (Hworld : P world).

Definition consumer_built (nth : nat) (index : Z) (addr : option NetAddr) (config : Config) (features : supportedFeatures) (c : consumer) : Prop :=
  newConsumerWorker CreateRing world choices nth index addr config features = inl c /\ AsyncHandler config = false /\ CPUAffinity config = false.

(** A run of its loop: the ring and the acceptor keep the contract. *)
Definition consumer_run (features : supportedFeatures) (c : consumer) (fuel : nat) (maxCQ : Z) (crs : list cround) (K' : kernel) : Prop :=
  Forall (cround_fits fuel maxCQ (st_sq_size (co_st c))) crs /\
  callowed handler (co_conf c) fuel maxCQ (negb (ringsMessaging features)) (mkKernel [] ∅) (mkSubmitter 0 1) (running c) crs K'.

Lemma consumer_starts nth index addr config features c :
  consumer_built nth index addr config features c ->
  consumer_rel P (queue_with (negb (ringsMessaging features)) []) (mkKernel [] ∅) [] (running c) idle_server /\
  w_sendRecvMsg (co_conf c) = false /\ w_asyncHandler (co_conf c) = false /\ w_cpuAffinity (co_conf c) = false /\
  wv_shutdowning (st_worker (running c)) = false /\ st_sq_size (running c) = st_sq_size (co_st c).
Proof.
  intros (Hnew & Has & Haff). rewrite /newConsumerWorker in Hnew. destruct (CreateRing nth _) as [[ringFd sz]|]; [|done]. injection Hnew as <-.
  split_and!; try done.
  split; try done.
  - split_and!; [|exists ∅|constructor].
    + split; try done. by apply mgr_ok_vars, mgr_ok_new_state.
    + split; try done. split; [done|]. intros fd [e He]. by rewrite lookup_empty in He.
  - intros fd [e He]. by rewrite lookup_empty in He.
  - cbn [running st_worker set_worker wv_connQueue with_running co_st new_state]. by destruct (ringsMessaging features).
  - intros fd a ?%elem_of_nil. done.
  - constructor.
Qed.

End ConsumerLife.

(** C5. A consumer worker is a server: from its construction on, for every sequence of
    rounds in which the ring and the acceptor keep their contract, with descriptors handed
    over by messages or through the queue between the completions of any number of
    connections, the loop neither panics nor stops, and does exactly the steps of the
    abstract server: each descriptor gets a connection of its own with the address the
    acceptor stored for it, whatever else was stored meanwhile, and is then served like the
    connections of a shard worker. Conditions: no CPU affinity and no asynchronous
    handlers; no shutdown is asked for; a descriptor the consumer still has is not handed
    over again ([queued_reuse_closes_stranger] shows what the code does otherwise); the
    completions of a round fit the batch and, with the queued descriptors, a third of the
    submission queue; the handler does not panic, asks for non-negative lengths and keeps
    its buffers below 2^52 bytes; [sync.Pool] answers a request for memory with nil or with
    memory of the size asked for ([pool_reuse_breaks_fifo] shows the other case) and the
    kernel grants allocations. *)
Theorem consumer_worker_serves {env : Env} P `{!EnvLaws env P} handler CreateRing world choices nth index addr config features c host fuel maxCQ crs K' :
  P world -> consumer_built CreateRing world choices nth index addr config features c -> consumer_run handler features c fuel maxCQ crs K' ->
  ctrace_valid handler (w_fd (co_conf c)) idle_server (cevents crs) ->
  wp (consumer_loop handler (co_conf c) host fuel maxCQ (cround_of <$> crs)) (fun r s' => r = None /\ exists T',
    cserves handler (w_fd (co_conf c)) idle_server (cevents crs) T' /\
    consumer_rel P (queue_with (negb (ringsMessaging features)) []) K' [] s' T') (co_st c).
Proof.
  intros HP Hb [Hfits Hall] Hv. destruct (consumer_starts (P := P) _ _ _ HP _ _ _ _ _ _ Hb) as (Hrel & Htcp & Hsync & Haff & Hsd & Hsz).
  rewrite /consumer_loop /startLoop. cbn [processPriority cpuAffinity prepareHandler consumer_looper]. rewrite Haff. wp_steps.
  rewrite /in_worker /has_worker_self /mod_vars. wp_steps. eapply wp_lift; [done|]. cbn beta.
  have Hsub : submitter_ok (mkSubmitter 0 1) by split; [simpl; lia|done].
  apply (cloop_ok (P := P) handler (co_conf c) Htcp Hsync fuel maxCQ (negb (ringsMessaging features)) (mkKernel [] ∅)); done.
Qed.

(** *** A consumer with a queue and one with messages *)

Section ConsumerDemo.
#[local] Existing Instance demo_env.

Definition demo_taker (messages : bool) : consumer :=
  mkConsumer (mkConf 0 1 false false false 0 None) 21 (new_state empty_world [] 16 (if messages then None else Some [])).

Definition demo_first_recv : sqe := mkSqe (SqRecv 9 0 4096) (Z.lor readDataFlag (uint64 9)) false.

(** Two clients are handed over, one of them sends a byte. *)
Definition demo_crounds (messages : bool) : list cround :=
  if messages then [CRound [CNew 9 (Some demo_client); CNew 8 None] []; CRound [CAns (demo_first_recv, AnsRecv 0 [x05] false)] []]
  else [CRound [] [(9, Some demo_client); (8, None)]; CRound [CAns (demo_first_recv, AnsRecv 0 [x05] false)] []].

Notation demo_clooper messages := (consumer_looper answer_handler (co_conf (demo_taker messages)) 4 16).

Definition demo_served (messages : bool) : St :=
  st_of (loop_round (demo_clooper messages) (consumer_event answer_handler (co_conf (demo_taker messages))) (mkSubmitter 0 1)
    (cround_of (match demo_crounds messages with cr :: _ => cr | [] => CRound [] [] end))) (running (demo_taker messages)).

Lemma demo_first_round messages :
  loop_round (demo_clooper messages) (consumer_event answer_handler (co_conf (demo_taker messages))) (mkSubmitter 0 1)
    (cround_of (match demo_crounds messages with cr :: _ => cr | [] => CRound [] [] end)) (running (demo_taker messages)) =
    Ret (LoopContinue (mkSubmitter 0 1), demo_served messages) /\
  st_sq (demo_served messages) = [demo_first_recv; mkSqe (SqRecv 8 0 4096) (Z.lor readDataFlag (uint64 8)) false] /\
  cm_connections (st_mgr (demo_served messages)) !! 9 = Some 0%nat.
Proof. destruct messages; split_and!; vm_compute; reflexivity. Qed.

Definition demo_given : kernel := mkKernel [] (∅ ∪ {[9]} ∪ {[8]}).
Definition demo_left : kernel := mkKernel [[mkSqe (SqRecv 8 0 4096) (Z.lor readDataFlag (uint64 8)) false]] (k_open demo_given).

Lemma demo_taken : citem_steps (mkKernel [] ∅) [CNew 9 (Some demo_client); CNew 8 None] demo_given.
Proof.
  eapply cis_cons; [apply ci_new; [rewrite /Stderr; lia|]|eapply cis_cons; [apply ci_new; [rewrite /Stderr; lia|]|apply cis_nil]].
  - change (9 ∉ (∅ : gset Z)). set_solver.
  - change (8 ∉ (∅ ∪ {[9]} : gset Z)). set_solver.
Qed.

Lemma demo_second K s :
  k_chains K = [] -> st_sq s = st_sq (demo_served true) -> cm_connections (st_mgr s) !! 9 = Some 0%nat -> k_open K = k_open demo_given ->
  forall queue, cround_allowed queue K s (CRound [CAns (demo_first_recv, AnsRecv 0 [x05] false)] []) demo_left.
Proof.
  intros HK Hsq Hcm Hop queue. apply cra_items; [split; [constructor|by destruct queue]|constructor; [exact Hcm|constructor]|].
  eapply cis_cons; [|apply cis_nil]. apply ci_ans. rewrite /demo_left -Hop.
  apply (ks_answer (submitted K (st_sq s)) demo_first_recv [] [[mkSqe (SqRecv 8 0 4096) (Z.lor readDataFlag (uint64 8)) false]] (AnsRecv 0 [x05] false)); [|split; [reflexivity|vm_compute; congruence]].
  rewrite /= HK Hsq. destruct (demo_first_round true) as (_ & -> & _). done.
Qed.

Lemma callowed_cons conf queue K cr crs K1 K2 sub s sub' s' :
  cround_allowed queue K s cr K1 ->
  loop_round (consumer_looper answer_handler conf 4 16) (consumer_event answer_handler conf) sub (cround_of cr) s = Ret (LoopContinue sub', s') ->
  callowed answer_handler conf 4 16 queue K1 sub' s' crs K2 -> callowed answer_handler conf 4 16 queue K sub s (cr :: crs) K2.
Proof.
  intros Hra Hrun Hall. eapply cal_cons; [exact Hra|]. intros sub1 s1 Hrun1. rewrite Hrun in Hrun1. by injection Hrun1 as <- <-.
Qed.

Lemma callowed_one conf queue K cr K1 sub s : cround_allowed queue K s cr K1 -> callowed answer_handler conf 4 16 queue K sub s [cr] K1.
Proof. intros Hra. eapply cal_cons; [exact Hra|]. intros. apply cal_nil. Qed.

Lemma demo_nodup : NoDup [9; 8].
Proof. constructor; [by intros ?%list_elem_of_singleton|]. constructor; [by intros ?%elem_of_nil|constructor]. Qed.

Lemma demo_last_round messages queue : cround_allowed queue demo_given (demo_served messages) (CRound [CAns (demo_first_recv, AnsRecv 0 [x05] false)] []) demo_left.
Proof.
  destruct (demo_first_round messages) as (_ & Hsq & Hcm), (demo_first_round true) as (_ & Hsqt & _).
  apply demo_second; [reflexivity|by rewrite Hsq Hsqt|exact Hcm|reflexivity].
Qed.

Lemma demo_consumer_run messages : consumer_run answer_handler (mkFeatures messages) (demo_taker messages) 4 16 (demo_crounds messages) demo_left.
Proof.
  split; [destruct messages; repeat constructor; rewrite /zlen /=; lia|]. destruct (demo_first_round messages) as (Hrun & _).
  have Hlast := callowed_one (co_conf (demo_taker messages)) (negb messages) _ _ _ (mkSubmitter 0 1) _ (demo_last_round messages (negb messages)).
  destruct messages.
  - refine (callowed_cons _ _ _ _ _ demo_given _ _ _ _ _ _ Hrun Hlast). apply cra_items; [split; [exact demo_nodup|reflexivity]|constructor|exact demo_taken].
  - refine (callowed_cons _ _ _ _ _ demo_given _ _ _ _ _ _ Hrun Hlast). apply cra_items; [split; [exact demo_nodup|reflexivity]|constructor|exact demo_taken].
Qed.

Lemma demo_ctrace_valid messages : ctrace_valid answer_handler 0 idle_server (cevents (demo_crounds messages)).
Proof.
  have -> : cevents (demo_crounds messages) = [EvNew 9 (Some demo_client); EvNew 8 None; EvAns (9, AnsRecv 0 [x05] false)] by destruct messages.
  split; [intros b; apply pv_ret|]. intros T1 H1. inversion H1 as [? ? b1 A1 Hno1 Hb1 Hs1|]; subst. inversion Hs1; subst. clear H1.
  split; [intros b; apply pv_ret|]. intros T2 H2. inversion H2 as [? ? b2 A2 Hno2 Hb2 Hs2|]; subst. inversion Hs2; subst. clear H2.
  split; [|done]. intros e [= <-]. split; [done|]. intros _. apply pv_op; [done|]. intros. apply pv_ret.
Qed.

(** The handler closes its first connection, and only that one. *)
Definition close_first : EventHandler := fun log cb =>
  match log, cb with [], CbAccept _ => HOp UClose (fun _ => HRet) | _, _ => HRet end.

(** With a queue, a client may get the connection of another one: the kernel closes
    descriptor 9 while the consumer is busy, the acceptor gets the same number for a new
    client and queues it, and the consumer takes it from the queue before it sees the
    completion of the close.  The handler is told the new client on the old, closed
    connection, and the consumer asks the kernel to close the new client's descriptor. *)
Theorem queued_reuse_closes_stranger :
  exists s', consumer_loop close_first (co_conf (demo_taker false)) (mkHost 1 4) 4 16
      (cround_of <$> [CRound [] [(9, None)]; CRound [] [(9, Some demo_client)]]) (co_st (demo_taker false)) = Ret (None, s') /\
    st_log s' = [CbAccept 0; CbAccept 0] /\ (c_remoteAddr <$> st_conns s' !! 0%nat) = Some (Some demo_client) /\
    (c_closed <$> st_conns s' !! 0%nat) = Some true /\ st_sq s' = [close_entry 9].
Proof. eexists. split; [vm_compute; reflexivity|]. split_and!; vm_compute; reflexivity. Qed.

End ConsumerDemo.

Lemma consumer_worker_serves_witness :
  wp (@consumer_loop demo_env answer_handler (co_conf (demo_taker true)) (mkHost 1 4) 4 16 (cround_of <$> demo_crounds true)) (fun r s' => r = None /\ exists T',
    @cserves demo_env answer_handler 0 idle_server (cevents (demo_crounds true)) T' /\ consumer_rel exact_world None demo_left [] s' T') (co_st (demo_taker true)).
Proof.
  apply (@consumer_worker_serves demo_env exact_world _ answer_handler demo_rings empty_world [] 1 1 None demo_config (mkFeatures true) (demo_taker true) (mkHost 1 4) 4 16
    (demo_crounds true) demo_left); [apply empty_world_exact|split_and!; [reflexivity|reflexivity|reflexivity]|exact (demo_consumer_run true)|exact (demo_ctrace_valid true)].
Defined.
