(* ===== verification/AcceptorLoop.v ===== *)
(** * AcceptorLoop: the acceptor as a dispatcher

    The event loop of [acceptor_worker.go] over any number of rounds.  The abstract
    dispatcher is the balancer with its consumers and the messages sent so far; its one
    step gives a client to the consumer the balancer chooses.  The acceptor has exactly
    one accept request pending at any time, whatever happens to the clients. *)

From S2P Require Import Prelude Errors SyncPool VirtualMem MagicRing RingRefinement RingPool ByteSlicePool Config.
From S2P Require Import KeyPool Flags Submitter LoadBalancer Sockaddr SocketOps GoState Conn ConnSpec ConnManager Worker.
From S2P Require Import WorkerSpec Looper ConsumerWorker AcceptorWorker StreamSpec ShardWorker ShardSpec RingContract TableSpec LoopSpec.
From S2P Require Import ReactorSpec Server ServerSpec ShardLoop.
Local Open Scope Z_scope.

(** ** The abstract dispatcher *)

(** A completion on the acceptor's ring: a client with its raw address, a failed accept,
    or the result of a message. *)
Inductive aitem : Type := AcClient (fd : Z) (raw : list byte) | AcFailed (errno : Z) | AcSent (res : Z).

Record dispatcher : Type := mkDispatcher { di_balancer : @loadBalancer consumer; di_messages : list sqe }.

(** The consumer once a client was handed to it; [via] is [features.ringsMessaging]. *)
Definition given_to (via : bool) (fd : Z) (addr : NetAddr) (c : consumer) : consumer :=
  let c := with_address fd (Some addr) c in
  if via then c
  else mkConsumer (co_conf c) (co_ringFd c)
         (set_worker (with_connQueue ((fun q => q ++ [fd]) <$> wv_connQueue (st_worker (co_st c))) (st_worker (co_st c))) (co_st c)).

Section Steps.
Context {env : Env} (addr_String : NetAddr -> string) (via : bool).

Inductive dispatched (D : dispatcher) : aitem -> dispatcher -> Prop :=
| ds_client fd raw addr i c lb :
    client_addr raw = inl (Some addr) -> next (di_balancer D) (addr_String addr) = Ret (c, lb) ->
    lb_workers (generic (di_balancer D)) !! i = Some c ->
    dispatched D (AcClient fd raw)
      (mkDispatcher (with_workers (fun ws => <[i := given_to via fd addr c]> ws) lb)
         (di_messages D ++ (if via then [message_sqe c fd] else [])))
| ds_unreadable fd raw e : client_addr raw = inr e -> dispatched D (AcClient fd raw) D
| ds_failed errno : dispatched D (AcFailed errno) D
| ds_sent res : dispatched D (AcSent res) D.

Inductive dispatches : dispatcher -> list aitem -> dispatcher -> Prop :=
| dss_nil D : dispatches D [] D
| dss_cons D x D1 l D2 : dispatched D x D1 -> dispatches D1 l D2 -> dispatches D (x :: l) D2.

Lemma dispatches_app D l1 D1 l2 D2 : dispatches D l1 D1 -> dispatches D1 l2 D2 -> dispatches D (l1 ++ l2) D2.
Proof. induction 1 as [|D x D0 l D1 Hs Hss IH]; [done|]. intros H2. simpl. econstructor; [exact Hs|]. by apply IH. Qed.

(** A raw address is read, or refused with an error. *)
Lemma client_addr_some raw : client_addr raw <> inl None.
Proof. rewrite /client_addr. by destruct (anyToSockaddr raw) as [[]|]. Qed.

(** The ranges of the kernel's results. *)
Definition item_ok (it : aitem) : Prop :=
  match it with
  | AcClient fd _ => 0 <= fd < 2 ^ 31
  | AcFailed errno => 0 < errno
  | AcSent _ => True
  end.

End Steps.

(** ** The ring of the acceptor *)

(** The entries the ring has taken, and how many accepts have completed. *)
Record akernel : Type := mkAkernel { ak_taken : list sqe; ak_done : nat }.

Definition is_accept (e : sqe) : bool := match sq_op e with SqAccept _ => true | _ => false end.
Definition is_message (e : sqe) : bool := match sq_op e with SqMsgRing _ _ _ => true | _ => false end.
Definition accepts (l : list sqe) : nat := length (filter is_accept l).

Definition ends_accept (it : aitem) : bool := match it with AcSent _ => false | _ => true end.
Definition completed (l : list aitem) : nat := length (filter ends_accept l).

Definition aitem_cqe (lfd : Z) (it : aitem) : cqe :=
  match it with
  | AcClient fd _ => mkCqe fd (Z.lor acceptDataFlag (uint64 lfd)) false
  | AcFailed errno => mkCqe (- errno) (Z.lor acceptDataFlag (uint64 lfd)) false
  | AcSent res => mkCqe res addConnFlag false
  end.

Definition aitem_writes (it : aitem) : list kernel_write := match it with AcClient _ raw => [KwClient raw] | _ => [] end.

Inductive around : Type := ARound (l : list aitem) | AInterrupted (err : error) (kept : list sqe).

Definition around_of (lfd : Z) (ar : around) : ring_round :=
  match ar with
  | ARound l => mkRound None [] (l ≫= aitem_writes) (aitem_cqe lfd <$> l) false
  | AInterrupted err kept => mkRound (Some err) kept [] [] false
  end.

Definition aitems (ar : around) : list aitem := match ar with ARound l => l | AInterrupted _ _ => [] end.

(** No more accepts complete than the ring was given. *)
Inductive around_allowed (K : akernel) (s : St) : around -> akernel -> Prop :=
| ara_items l :
    (ak_done K + completed l <= accepts (ak_taken K ++ st_sq s))%nat ->
    around_allowed K s (ARound l) (mkAkernel (ak_taken K ++ st_sq s) (ak_done K + completed l))
| ara_taken err : interrupted err = true -> around_allowed K s (AInterrupted err []) (mkAkernel (ak_taken K ++ st_sq s) (ak_done K))
| ara_left err : interrupted err = true -> around_allowed K s (AInterrupted err (st_sq s)) K.

(** ** The relation *)

Section Acceptor.
Context {env : Env} {P : World -> Prop} `{!EnvLaws env P} (w : workerConf) (addr_String : NetAddr -> string) (via : bool).
Context (Hka : w_tcpKeepAlive w <= 0) (Hlfd : 0 <= w_fd w < 2 ^ 31).
Notation lfd := (w_fd w).
Notation workers lb := (lb_workers (generic lb)).

(** The acceptor is the dispatcher [D]; the completions [l] have not been seen. *)
Record acceptor_rel (K : akernel) (l : list aitem) (r : reactor) (D : dispatcher) : Prop := {
  ac_ok : reactor_ok r;
  ac_mem : mem_ok P (r_acceptor r);
  ac_balancer : r_balancer r = di_balancer D;
  ac_queues : via = false -> Forall (fun c => is_Some (wv_connQueue (st_worker (co_st c)))) (workers (r_balancer r));
  ac_accepts : (accepts (ak_taken K ++ st_sq (r_acceptor r)) + completed l = ak_done K + 1)%nat;
  ac_messages : filter is_message (ak_taken K ++ st_sq (r_acceptor r)) = di_messages D;
  ac_client fd raw : AcClient fd raw ∈ l -> wv_clientAddr (st_worker (r_acceptor r)) = raw;
  ac_serving : wv_shutdowning (st_worker (r_acceptor r)) = false
}.

(** Handing a client over keeps the consumers in their places. *)
Lemma given_keeps fd addr c :
  co_conf (given_to via fd addr c) = co_conf c /\ co_ringFd (given_to via fd addr c) = co_ringFd c.
Proof. by rewrite /given_to; destruct via. Qed.

Lemma balancer_ok_with_workers (lb : @loadBalancer consumer) i c : balancer_ok lb -> balancer_ok (with_workers (fun ws => <[i := c]> ws) lb).
Proof. destruct lb; rewrite /balancer_ok /= /zlen length_insert //. Qed.

Lemma reactor_ok_given r i c fd addr lb s :
  reactor_ok r -> workers (r_balancer r) !! i = Some c -> balancer_ok lb -> generic lb = generic (r_balancer r) ->
  reactor_ok (mkReactor s (with_workers (fun ws => <[i := given_to via fd addr c]> ws) lb)).
Proof.
  intros [Hb Hidx Hring Hne] Hc Hlb Hg. have Hlt := lookup_lt_Some _ _ _ Hc. destruct (given_keeps fd addr c) as [Hcf Hrf].
  have Hws : workers (with_workers (fun ws => <[i := given_to via fd addr c]> ws) lb) = <[i := given_to via fd addr c]> (workers (r_balancer r)) by rewrite with_workers_workers Hg.
  split; cbn [r_balancer]; [by apply balancer_ok_with_workers|..]; rewrite Hws.
  - intros j c' [[<- [<- _]]|[_ Hj]]%list_lookup_insert_Some; [|by apply Hidx]. rewrite /co_index Hcf. by apply (Hidx i c).
  - rewrite list_fmap_insert Hrf list_insert_id //. by rewrite list_lookup_fmap Hc.
  - intros Heq. apply (f_equal length) in Heq. rewrite length_insert in Heq. simpl in Heq. lia.
Qed.

Lemma accepts_app l1 l2 : accepts (l1 ++ l2) = (accepts l1 + accepts l2)%nat.
Proof. by rewrite /accepts filter_app length_app. Qed.

(** An event queued the entries [es]: an accept request when it was for one. *)
Lemma rel_after K it l r r' D D' es :
  acceptor_rel K (it :: l) r D -> reactor_ok r' -> mem_ok P (r_acceptor r') -> r_balancer r' = di_balancer D' ->
  (via = false -> Forall (fun c => is_Some (wv_connQueue (st_worker (co_st c)))) (workers (r_balancer r'))) ->
  st_sq (r_acceptor r') = st_sq (r_acceptor r) ++ es -> accepts es = (if ends_accept it then 1 else 0)%nat ->
  di_messages D' = di_messages D ++ filter is_message es -> st_worker (r_acceptor r') = st_worker (r_acceptor r) ->
  acceptor_rel K l r' D'.
Proof.
  intros [_ _ _ _ Hacc Hmsg Hcl Hsv] Hr Hm Hb Hq Hsq Hes HD Hw. split; try done; try (by rewrite Hw).
  - rewrite Hsq app_assoc accepts_app Hes. rewrite /completed filter_cons in Hacc |- *. destruct (ends_accept it); simpl in Hacc |- *; lia.
  - by rewrite Hsq app_assoc filter_app Hmsg HD.
  - intros fd raw Hin. rewrite Hw. apply (Hcl fd). by right.
Qed.

(** The event was the step [it]. *)
Definition astepped (K : akernel) (l : list aitem) (D : dispatcher) (it : aitem) (r r' : reactor) : Prop :=
  exists D', dispatched addr_String via D it D' /\ acceptor_rel K l r' D' /\
    st_sq_size (r_acceptor r') = st_sq_size (r_acceptor r) /\ free_slots (r_acceptor r) <= free_slots (r_acceptor r') + 2.

Lemma slots_app s s' es : st_sq s' = st_sq s ++ es -> st_sq_size s' = st_sq_size s -> zlen es <= 2 -> free_slots s <= free_slots s' + 2.
Proof. rewrite /free_slots => -> ->. rewrite zlen_app. lia. Qed.

(** The chosen consumer gets the client through its queue. *)
Lemma wp_forward_queue fd addr r Q :
  reactor_ok r -> Forall (fun c => is_Some (wv_connQueue (st_worker (co_st c)))) (workers (r_balancer r)) ->
  (forall i c lb', chosen addr_String r addr i c lb' ->
     Q None (mkReactor (r_acceptor r) (with_workers (fun ws => <[i := given_to false fd addr c]> ws) lb'))) ->
  wp (forward addr_String false fd (Some addr)) Q r.
Proof.
  intros Hr Hqs HQ. rewrite /forward. wp_step. apply wp_next_consumer; [done|]. intros i c lb' Hch Hidx.
  have [Hnext [Hc Hg]] := Hch. rewrite Hidx. wp_step. eapply (wp_on_consumer i _ _ _ c); [by rewrite /= Hg|].
  rewrite /setSocketAddr /mod_vars. wp_steps. set (c1 := mkConsumer _ _ _). have Hlt := lookup_lt_Some _ _ _ Hc.
  destruct (proj1 (Forall_lookup _ _) Hqs _ _ Hc) as [q Hq]. rewrite /addConnMethod /addConnViaQueue Hidx. wp_step.
  eapply (wp_on_consumer i _ _ _ c1); [by rewrite /= with_workers_workers Hg list_lookup_insert_eq|].
  rewrite /addConnToQueue /mod_vars. wp_steps. rewrite Hq. wp_steps.
  have Hset : forall c2 (lb : @loadBalancer consumer), with_workers (fun ws => <[i := c2]> ws) (with_workers (fun ws => <[i := c1]> ws) lb) = with_workers (fun ws => <[i := c2]> ws) lb.
  { intros c2 [[ws n] k|[ws n]|[ws n]]; by rewrite /= list_insert_insert_eq. }
  have := HQ i c lb' Hch. rewrite /given_to /= Hq. cbn [r_acceptor r_balancer]. by rewrite Hset.
Qed.

(** A client was accepted. *)
Lemma step_client K l fd raw r D :
  acceptor_rel K (AcClient fd raw :: l) r D -> item_ok (AcClient fd raw) -> 1 < free_slots (r_acceptor r) ->
  wp (acceptor_event w addr_String via (aitem_cqe lfd (AcClient fd raw))) (fun e r' => e = None /\ astepped K l D (AcClient fd raw) r r') r.
Proof.
  intros Hrel Hfd Hsq. cbn [item_ok] in Hfd. have [Hr Hm Hb Hqs _ _ Hcl _] := Hrel. have Hraw := Hcl fd raw ltac:(by left).
  destruct (client_addr raw) as [[addr|]|e] eqn:Haddr; [|by destruct (client_addr_some raw)|].
  - eapply (wp_acceptor_event_until (P := P) w addr_String via fd (Some addr)); [done|done|lia|done|lia|by rewrite Hraw|].
    intros s Hs Hsz Hw Hms. have Hr1 : reactor_ok (mkReactor s (r_balancer r)) by destruct Hr; split.
    have Hdone : forall i c lb' s' es, chosen addr_String r addr i c lb' -> st_sq s' = st_sq s ++ es -> st_sq_size s' = st_sq_size s ->
      st_worker s' = st_worker s -> mem_ok P s' -> es = (if via then [message_sqe c fd] else []) ->
      astepped K l D (AcClient fd raw) r (mkReactor s' (with_workers (fun ws => <[i := given_to via fd addr c]> ws) lb')).
    { intros i c lb' s' es (Hnext & Hc & Hg) Hs' Hsz' Hw' Hms' Hes. have Hsq' : st_sq s' = st_sq (r_acceptor r) ++ accept_sqe lfd :: es by rewrite Hs' Hs -app_assoc.
      have Hlb : balancer_ok lb' by destruct (next_in (r_balancer r) (addr_String addr) (ro_balancer _ Hr) (ro_some _ Hr)) as (k & w1 & lb1 & Hn1 & _ & _ & Hok); rewrite Hnext in Hn1; injection Hn1 as _ ->.
      eexists. split; [eapply (ds_client addr_String via D fd raw addr i c lb'); [done|by rewrite -Hb|by rewrite -Hb]|]. split.
      - eapply (rel_after K _ l r _ D _ (accept_sqe lfd :: es) Hrel); try done.
        + by apply (reactor_ok_given r).
        + intros Hv. cbn [r_balancer]. rewrite with_workers_workers Hg. apply Forall_insert; [by apply Hqs|]. rewrite /given_to Hv /=.
          destruct (proj1 (Forall_lookup _ _) (Hqs Hv) _ _ Hc) as [q ->]. by eexists.
        + rewrite Hes. by destruct via.
        + cbn [di_messages]. f_equal. rewrite Hes. by destruct via.
        + by rewrite /= Hw' Hw.
      - cbn [r_acceptor]. split; [by rewrite Hsz' Hsz|]. eapply slots_app; [exact Hsq'|by rewrite Hsz' Hsz|]. rewrite Hes. destruct via; done. }
    destruct via.
    + apply wp_forward_ring; [done| |].
      { rewrite /free_slots /= Hs Hsz zlen_app. change (zlen [_]) with 1. rewrite /free_slots in Hsq. lia. }
      intros i c lb' Hch. split; [done|]. by apply (Hdone i c lb' _ [message_sqe c fd]).
    + apply wp_forward_queue; [done|by apply Hqs|]. intros i c lb' Hch. split; [done|]. apply (Hdone i c lb' s []); try done. by rewrite app_nil_r.
  - apply (wp_acceptor_event_addr (P := P)); [done|done|lia|done|lia|]. intros s Hs Hsz Hw Hms. rewrite Hraw Haddr.
    rewrite /syscallCloseSocket. wp_step. apply wp_in_worker. wp_step. apply wp_sys_setter. wp_steps. split; [done|].
    eexists. split; [by eapply ds_unreadable|]. split; [|split; [done|by eapply slots_app]].
    eapply (rel_after K _ l r _ D D [accept_sqe lfd] Hrel); try done; [by destruct Hr; split|by rewrite app_nil_r].
Qed.

(** One completion is one step of the dispatcher. *)
Lemma acceptor_step K l it r D :
  acceptor_rel K (it :: l) r D -> item_ok it -> 1 < free_slots (r_acceptor r) ->
  wp (acceptor_event w addr_String via (aitem_cqe lfd it)) (fun e r' => e = None /\ astepped K l D it r r') r.
Proof.
  intros Hrel Hok Hsq. destruct it as [fd raw|errno|res]; [by apply step_client|..]; have [Hr Hm Hb Hqs _ _ _ _] := Hrel.
  - apply (wp_acceptor_event_failed w addr_String via errno); [done|done|lia|]. split; [done|]. exists D. split; [constructor|].
    split; [|split; [done|by eapply slots_app]].
    eapply (rel_after K _ l r _ D D [accept_sqe lfd] Hrel); try done; [by destruct Hr; split|by rewrite app_nil_r].
  - rewrite /acceptor_event. cbn [aitem_cqe cqe_UserData]. have -> : has_flag addConnFlag addConnFlag = true by []. wp_steps. split; [done|].
    exists D. split; [constructor|]. split; [|split; [done|lia]].
    by eapply (rel_after K _ l r r D D [] Hrel); try done; rewrite ?app_nil_r.
Qed.

Lemma aprocess_ok K l r D i :
  acceptor_rel K l r D -> Forall item_ok l -> 2 * zlen l <= free_slots (r_acceptor r) ->
  wp (process_cqes (acceptor_event w addr_String via) (aitem_cqe lfd <$> l) i) (fun x r' => x.2 = None /\
    st_sq_size (r_acceptor r') = st_sq_size (r_acceptor r) /\ exists D', dispatches addr_String via D l D' /\ acceptor_rel K [] r' D') r.
Proof.
  revert r D i. induction l as [|it l IH]; intros r D i Hrel Hok Hsq; [wp_steps; split_and!; try done; exists D; split; [constructor|done]|].
  apply Forall_cons in Hok as [Hit Hok]. have Hz : zlen (it :: l) = zlen l + 1 by rewrite /zlen /=; lia. rewrite Hz in Hsq. have Hz0 := zlen_nonneg l.
  rewrite fmap_cons. cbn [process_cqes]. wp_step. eapply wp_mono; [apply (acceptor_step K l it r D Hrel Hit); lia|].
  intros e r1 [-> (D1 & Hd & Hrel1 & Hsz & Hfree)]. cbn beta iota. eapply wp_mono; [apply (IH r1 D1 _ Hrel1 Hok); lia|].
  intros x r2 (Hx & Hsz2 & D2 & Hds & Hrel2). split_and!; [done|congruence|]. exists D2. split; [by econstructor|done].
Qed.

(** ** Rounds *)

Lemma completed_cons it l : completed (it :: l) = ((if ends_accept it then 1 else 0) + completed l)%nat.
Proof. rewrite /completed filter_cons. by destruct (ends_accept it). Qed.

Lemma completed_none l : completed l = 0%nat -> l ≫= aitem_writes = [] /\ forall fd raw, AcClient fd raw ∉ l.
Proof.
  induction l as [|it l IH]; [split; [done|]; by intros ? ? ?%elem_of_nil|]. rewrite completed_cons. destruct it; try done. intros Hc.
  destruct (IH Hc) as [Hw Hn]. split; [done|]. intros fd raw [?|Hin]%elem_of_cons; [done|by eapply Hn].
Qed.

(** At most one client is stored in a round: there is one accept request. *)
Lemma client_store l s :
  (completed l <= 1)%nat ->
  wp (kernel_stores (l ≫= aitem_writes)) (fun _ s' => exists v, s' = set_worker v s /\
    (forall fd raw, AcClient fd raw ∈ l -> wv_clientAddr v = raw) /\ wv_shutdowning v = wv_shutdowning (st_worker s)) s.
Proof.
  induction l as [|it l IH]; intros Hc.
  { wp_steps. exists (st_worker s). split; [by destruct s|]. split; [by intros ? ? ?%elem_of_nil|done]. }
  rewrite completed_cons in Hc. destruct it as [fd raw|errno|res]; cbn [ends_accept] in Hc.
  - destruct (completed_none l ltac:(lia)) as [Hw Hn]. rewrite bind_cons Hw app_nil_r. cbn [aitem_writes kernel_stores kernel_store].
    rewrite /mod_vars. wp_steps. eexists. split; [done|]. split; [|done]. by intros fd' raw' [[= _ ->]|?%Hn]%elem_of_cons.
  - eapply wp_mono; [apply IH; lia|]. intros _ s' (v & -> & Hv & Hsd). exists v. split_and!; try done. intros fd raw [?|Hin]%elem_of_cons; [done|by eapply Hv].
  - eapply wp_mono; [apply IH; lia|]. intros _ s' (v & -> & Hv & Hsd). exists v. split_and!; try done. intros fd raw [?|Hin]%elem_of_cons; [done|by eapply Hv].
Qed.

Section AcceptorRounds.
Context (waits : consumer -> option consumer) (maxCQ : Z).
Notation looper := (acceptor_looper w false waits maxCQ).

Definition around_fits (size : Z) (ar : around) : Prop := zlen (aitems ar) <= maxCQ /\ 2 * zlen (aitems ar) <= size /\ Forall item_ok (aitems ar).

Lemma afinish sub r Q : Q (LoopContinue sub) r -> wp (finish_round looper sub) Q r.
Proof. intros HQ. rewrite /finish_round. cbn [loopFinisher loopFinishCondition acceptor_looper]. by wp_steps. Qed.

(** The ring takes the queue. *)
Lemma asubmit_rel K n l r D :
  acceptor_rel K [] r D -> n = (ak_done K + completed l)%nat -> (completed l <= 1)%nat ->
  forall v, (forall fd raw, AcClient fd raw ∈ l -> wv_clientAddr v = raw) -> wv_shutdowning v = wv_shutdowning (st_worker (r_acceptor r)) ->
  acceptor_rel (mkAkernel (ak_taken K ++ st_sq (r_acceptor r)) n) l (mkReactor (set_worker v (set_sq [] (r_acceptor r))) (r_balancer r)) D.
Proof.
  intros [Hr Hm Hb Hqs Hacc Hmsg _ Hsv] -> Hc v Hv Hsd. split; try done; cbn [r_acceptor st_sq set_worker set_sq ak_taken ak_done st_worker].
  - by destruct Hr; split.
  - rewrite app_nil_r. change (completed []) with 0%nat in Hacc. lia.
  - by rewrite app_nil_r.
  - by rewrite Hsd.
Qed.

Lemma around_ok K K' ar r D sub :
  acceptor_rel K [] r D -> around_allowed K (r_acceptor r) ar K' -> submitter_ok sub -> around_fits (st_sq_size (r_acceptor r)) ar ->
  wp (loop_round looper (acceptor_event w addr_String via) sub (around_of lfd ar)) (fun x r' =>
    st_sq_size (r_acceptor r') = st_sq_size (r_acceptor r) /\ exists sub' D', x = LoopContinue sub' /\ submitter_ok sub' /\
      dispatches addr_String via D (aitems ar) D' /\ acceptor_rel K' [] r' D') r.
Proof.
  intros Hrel Hall Hsub (Hmax & Hsize & Hok). rewrite /loop_round. wp_step. cbn [shutdownHandler acceptor_looper].
  rewrite /acceptor_shutdownHandler /needToShutdown. wp_steps. rewrite (ac_serving _ _ _ _ Hrel). cbn [andb]. wp_steps.
  destruct Hall as [l Hdone|err Herr|err Herr]; cbn [around_of rr_err rr_left rr_mem rr_cqes rr_stop aitems] in *.
  - have Hc : (completed l <= 1)%nat by have := ac_accepts _ _ _ _ Hrel; change (completed []) with 0%nat; lia.
    eapply wp_lift; [done|]. cbn beta iota. wp_step. apply wp_in_worker. wp_steps. apply wp_in_worker. eapply wp_mono; [by apply client_store|].
    intros _ s1 (v & -> & Hv & Hsd). cbn beta. wp_step. apply wp_in_worker. cbn [when]. wp_steps. cbn [r_balancer r_acceptor] in *.
    have Hrel1 := asubmit_rel K _ l r D Hrel eq_refl Hc v Hv Hsd.
    have -> : take (Z.to_nat maxCQ) (aitem_cqe lfd <$> l) = aitem_cqe lfd <$> l by apply take_ge; rewrite length_fmap; rewrite /zlen in Hmax; lia.
    eapply wp_mono; [apply (aprocess_ok _ l _ D 0 Hrel1 Hok)|]. { rewrite /free_slots /=. change (zlen (@nil sqe)) with 0. lia. }
    intros [n e] r2 (He & Hsz & D' & Hds & Hrel2). cbn [snd] in He. subst e. cbn beta iota. destruct (advance_ok sub n Hsub) as (sub' & Hadv & Hsub' & _).
    wp_step. eapply wp_lift; [exact Hadv|]. cbn beta iota. apply afinish. split; [done|]. by exists sub', D'.
  - destruct (submit_ok sub (Some err) Hsub) as (e & sub' & Hs & Hsub' & _). eapply wp_lift; [exact Hs|].
    have -> : e = Some ErrSkippable by eapply submit_interrupted. cbn beta iota. wp_step. apply wp_in_worker. wp_step. cbn beta. wp_step. apply wp_in_worker. cbn [kernel_stores]. wp_step. cbn beta. wp_step. apply wp_in_worker. cbn [when errors_Is]. wp_step. cbn beta iota.
    apply afinish. cbn [r_balancer r_acceptor]. split; [done|]. exists sub', D. split; [done|]. split; [done|]. split; [constructor|].
    have := asubmit_rel K (ak_done K) [] r D Hrel ltac:(change (completed []) with 0%nat; lia) ltac:(change (completed []) with 0%nat; lia) (st_worker (r_acceptor r))
      ltac:(by intros ? ? ?%elem_of_nil) eq_refl. by destruct r as [[] ?].
  - destruct (submit_ok sub (Some err) Hsub) as (e & sub' & Hs & Hsub' & _). eapply wp_lift; [exact Hs|].
    have -> : e = Some ErrSkippable by eapply submit_interrupted. cbn beta iota. wp_step. apply wp_in_worker. wp_step. cbn beta. wp_step. apply wp_in_worker. cbn [kernel_stores]. wp_step. cbn beta. wp_step. apply wp_in_worker. cbn [when errors_Is]. wp_step. cbn beta iota.
    apply afinish. have Heq : mkReactor (set_sq (st_sq (r_acceptor r)) (r_acceptor r)) (r_balancer r) = r by destruct r as [[] ?]. cbn [r_balancer r_acceptor].
    rewrite Heq. split; [done|]. exists sub', D. split; [done|]. split; [done|]. by split; [constructor|].
Qed.

(** ** The loop *)

Inductive aallowed : akernel -> batchSubmitter -> reactor -> list around -> akernel -> Prop :=
| aal_nil K sub r : aallowed K sub r [] K
| aal_cons K sub r ar ars K1 K2 :
    around_allowed K (r_acceptor r) ar K1 ->
    (forall sub' r', loop_round looper (acceptor_event w addr_String via) sub (around_of lfd ar) r = Ret (LoopContinue sub', r') ->
       aallowed K1 sub' r' ars K2) ->
    aallowed K sub r (ar :: ars) K2.

Lemma aloop_ok K K2 ars r D sub :
  acceptor_rel K [] r D -> submitter_ok sub -> aallowed K sub r ars K2 -> Forall (around_fits (st_sq_size (r_acceptor r))) ars ->
  wp (innerLoop looper (acceptor_event w addr_String via) sub (around_of lfd <$> ars)) (fun x r' => x = None /\
    exists D', dispatches addr_String via D (ars ≫= aitems) D' /\ acceptor_rel K2 [] r' D') r.
Proof.
  revert K r D sub. induction ars as [|ar ars IH]; intros K r D sub Hrel Hsub Hall Hfits.
  { inversion Hall; subst. wp_steps. split; [done|]. exists D. split; [constructor|done]. }
  apply Forall_cons in Hfits as [Hfit Hfits]. inversion Hall as [|? ? ? ? ? K1 ? Hra Hnext]; subst. rewrite fmap_cons. cbn [innerLoop].
  destruct (wp_run _ _ _ (around_ok _ _ _ _ _ _ Hrel Hra Hsub Hfit)) as (x & r1 & Hrun & Hsz & sub1 & D1 & -> & Hsub1 & Hds1 & Hrel1).
  wp_step. eapply wp_of_run; [exact Hrun|]. cbn beta iota.
  eapply wp_mono; [apply (IH K1 r1 D1); try done; [by apply Hnext|by rewrite Hsz]|].
  intros x r2 [-> (D2 & Hds2 & Hrel2)]. split; [done|]. exists D2. split; [by eapply dispatches_app|done].
Qed.

End AcceptorRounds.

End Acceptor.
Arguments acceptor_rel P via K l r D : clear implicits.

(** ** Theorem *)

(** The acceptor after [prepareHandler]: its accept request is queued. *)
Definition listening (lfd : Z) (r : reactor) : reactor :=
  let s := set_sq [accept_sqe lfd] (r_acceptor r) in
  mkReactor (set_worker (with_running true (with_accepting true (st_worker s))) s) (r_balancer r).

Section AcceptorLife.
Context {env : Env} {P : World -> Prop} `{!EnvLaws env P}.
Context (CreateRing : nat -> Z -> (Z * Z) + error) (world : World) (choices : list (option nat)).

Definition acceptor_built (fd : Z) (addr : option NetAddr) (config : Config) (features : supportedFeatures) (w : workerConf) (r : reactor) : Prop :=
  startReactor CreateRing world choices fd addr config features = inl (w, r) /\ 0 < Workers config /\ rings_granted CreateRing /\
  (forall n, LoadBalancing_ config <> OtherBalancing n) /\ CPUAffinity config = false /\ TCPKeepAlive config <= 0 /\ 0 <= fd < 2 ^ 31.

Lemma acceptor_starts fd addr config features w r :
  P world -> acceptor_built fd addr config features w r ->
  w = mkConf fd 0 false false false (TCPKeepAlive config) None /\
  acceptor_rel P (ringsMessaging features) (mkAkernel [] 0) [] (listening fd r) (mkDispatcher (r_balancer r) []) /\
  st_sq (r_acceptor r) = [] /\ 1 < st_sq_size (r_acceptor r).
Proof.
  intros HP (Hs & Hn & Hrings & Hlb & Haff & _ & _).
  destruct (reactor_ready (P := P) (fun _ _ => HRet) CreateRing world choices fd addr config features HP Hn Hrings Hlb)
    as (r0 & size & Hs0 & Hr & Hlen & Hacc & Hsize & Hc). rewrite Hs0 in Hs. injection Hs as <- <-. rewrite Haff. split; [done|].
  split; [|by rewrite Hacc]. split; cbn [listening r_acceptor r_balancer st_sq set_worker set_sq di_balancer di_messages]; try done.
  - by destruct Hr; split.
  - rewrite Hacc. apply (mo_mem _ _ (mgr_ok_new_state (P := P) world choices HP size None)).
  - intros Hv. apply Forall_lookup. intros k c Hk. destruct (Hc k c Hk) as [-> _]. rewrite Hv. by eexists.
  - intros ? ? ?%elem_of_nil. done.
  - by rewrite Hacc.
Qed.

End AcceptorLife.


(** *** An acceptor with two consumers *)

Section AcceptorDemo.
#[local] Existing Instance demo_env.

Definition demo_built_reactor : workerConf * reactor :=
  match startReactor demo_rings empty_world [] 5 None demo_config (mkFeatures true) with
  | inl x => x
  | inr _ => (mkConf 0 0 false false false 0 None, mkReactor (new_state empty_world [] 0 None) newRoundRobinLoadBalancer)
  end.

(** Two clients, and a failed accept between them. *)
Definition demo_around (n : nat) : around :=
  match n with
  | 0%nat => ARound [AcClient 9 []]
  | 1%nat => ARound [AcSent 0; AcFailed 103]
  | _ => ARound [AcClient 8 []]
  end.

Notation demo_alooper := (acceptor_looper demo_built_reactor.1 false (fun c => Some c) 16).
Notation demo_aevent := (acceptor_event demo_built_reactor.1 demo_string true).

Definition reactor_of {A} (m : StateM reactor A) (r : reactor) : reactor := match m r with Ret (_, r) => r | Panic _ => r end.

Fixpoint demo_reactor_state (n : nat) : reactor :=
  match n with
  | O => listening 5 demo_built_reactor.2
  | S n => reactor_of (loop_round demo_alooper demo_aevent (mkSubmitter 0 1) (around_of 5 (demo_around n))) (demo_reactor_state n)
  end.

Lemma demo_reactor_step n : (n < 3)%nat ->
  loop_round demo_alooper demo_aevent (mkSubmitter 0 1) (around_of 5 (demo_around n)) (demo_reactor_state n) =
    Ret (LoopContinue (mkSubmitter 0 1), demo_reactor_state (S n)).
Proof. intros Hn. destruct n as [|[|[|n]]]; [vm_compute; reflexivity..|lia]. Qed.

Definition demo_message (k fd : Z) : sqe := mkSqe (SqMsgRing (21 + k) (uint32 fd) addConnFlag) addConnFlag false.

Lemma demo_reactor_queue :
  st_sq (r_acceptor (demo_reactor_state 0)) = [accept_sqe 5] /\ st_sq (r_acceptor (demo_reactor_state 1)) = [accept_sqe 5; demo_message 0 9] /\
  st_sq (r_acceptor (demo_reactor_state 2)) = [accept_sqe 5].
Proof. split_and!; vm_compute; reflexivity. Qed.

Lemma aallowed_cons conf K ar ars K1 K2 sub r sub' r' :
  around_allowed K (r_acceptor r) ar K1 ->
  loop_round (acceptor_looper conf false (fun c => Some c) 16) (acceptor_event conf demo_string true) sub (around_of (w_fd conf) ar) r = Ret (LoopContinue sub', r') ->
  aallowed conf demo_string true (fun c => Some c) 16 K1 sub' r' ars K2 -> aallowed conf demo_string true (fun c => Some c) 16 K sub r (ar :: ars) K2.
Proof.
  intros Hra Hrun Hall. eapply aal_cons; [exact Hra|]. intros sub1 r1 Hrun1. rewrite Hrun in Hrun1. by injection Hrun1 as <- <-.
Qed.

Definition demo_ars : list around := demo_around <$> seq 0 3.
Definition demo_dispatched : akernel := mkAkernel [accept_sqe 5; accept_sqe 5; demo_message 0 9; accept_sqe 5] 3.

Lemma demo_round_allowed K n sq l :
  st_sq (r_acceptor (demo_reactor_state n)) = sq -> demo_around n = ARound l -> (ak_done K + completed l <=? accepts (ak_taken K ++ sq))%nat = true ->
  around_allowed K (r_acceptor (demo_reactor_state n)) (demo_around n) (mkAkernel (ak_taken K ++ sq) (ak_done K + completed l)).
Proof. intros <- -> Hle%Nat.leb_le. by constructor. Qed.

Lemma demo_aallowed :
  aallowed demo_built_reactor.1 demo_string true (fun c => Some c) 16 (mkAkernel [] 0) (mkSubmitter 0 1) (listening 5 demo_built_reactor.2) demo_ars demo_dispatched.
Proof.
  destruct demo_reactor_queue as (Hq0 & Hq1 & Hq2). change demo_ars with [demo_around 0; demo_around 1; demo_around 2].
  change (listening 5 demo_built_reactor.2) with (demo_reactor_state 0).
  refine (aallowed_cons _ _ _ _ _ _ _ _ _ _ (demo_round_allowed (mkAkernel [] 0) 0 _ _ Hq0 eq_refl eq_refl) (demo_reactor_step 0 ltac:(lia)) _).
  refine (aallowed_cons _ _ _ _ _ _ _ _ _ _ (demo_round_allowed (mkAkernel [accept_sqe 5] 1) 1 _ _ Hq1 eq_refl eq_refl) (demo_reactor_step 1 ltac:(lia)) _).
  refine (aallowed_cons _ _ _ _ _ _ _ _ _ _ (demo_round_allowed (mkAkernel [accept_sqe 5; accept_sqe 5; demo_message 0 9] 2) 2 _ _ Hq2 eq_refl eq_refl) (demo_reactor_step 2 ltac:(lia)) _). apply aal_nil.
Qed.

End AcceptorDemo.

