(* ===== verification/Startup.v ===== *)
(** * Startup: the goroutines of one run of the server ([server.go])

    [startConsumers], the tails of [startReactor] and [startSocketSharding] and
    [handleWorkerStop]: the caller of [start] launches one goroutine per worker,
    waits on the channel [startedChan] of each before it launches the next, launches
    the acceptor of a reactor, waits for [startedWg], stores the state [running],
    and waits for [doneWg].  The goroutines interleave in any way; the event loop of a
    worker makes any number of rounds and may or may not end. *)

From S2P Require Import Prelude.
Local Open Scope list_scope.
Local Open Scope Z_scope.

(** A goroutine that runs a worker's [loop]. *)
Inductive worker_pc : Type :=
| WNew
(** the priority and affinity of [startLoop] *)
| WTune
(** [startedChan <- done], the first action of [prepareHandler] *)
| WSignal
(** the rest of [prepareHandler] *)
| WPrepare
(** [l.running = true; l.startListener()] *)
| WListen
| WLoop
(** [handleWorkerStop]: the count of living workers, [startedWg], the table *)
| WCount
| WStop
| WDelete
(** [doneWg.Done()] *)
| WDone
| WEnd.

#[export] Instance worker_pc_eq_dec : EqDecision worker_pc.
Proof. solve_decision. Defined.

Record run_worker : Type := mkRun { rw_pc : worker_pc; rw_running : bool }.

(** The goroutine of [start]. *)
Inductive main_pc : Type :=
| MSpawn (i : nat)
| MAwait (i : nat)
| MAcceptor
| MStarted
| MRunning
| MServe
| MReturn.

(** The workers in the order in which [Range] visits them; no acceptor: sharding. *)
Record group : Type := mkGroup {
  g_main : main_pc;
  g_workers : list run_worker;
  g_acceptor : option run_worker;
  g_living : Z;
  g_table : gset nat;
  g_startedWg : Z;
  g_doneWg : Z;
  g_panic : bool
}.

Definition new_group (n : nat) (reactor : bool) : group :=
  mkGroup (MSpawn 0) (replicate n (mkRun WNew false)) (if reactor then Some (mkRun WNew false) else None)
    (Z.of_nat n) (set_seq 0 n) 0 0 false.

Definition main_to v g := mkGroup v (g_workers g) (g_acceptor g) (g_living g) (g_table g) (g_startedWg g) (g_doneWg g) (g_panic g).
Definition worker_to (i : nat) v g := mkGroup (g_main g) (<[i := v]> (g_workers g)) (g_acceptor g) (g_living g) (g_table g) (g_startedWg g) (g_doneWg g) (g_panic g).
Definition acceptor_to v g := mkGroup (g_main g) (g_workers g) (Some v) (g_living g) (g_table g) (g_startedWg g) (g_doneWg g) (g_panic g).
Definition one_less g := mkGroup (g_main g) (g_workers g) (g_acceptor g) (g_living g - 1) (g_table g) (g_startedWg g) (g_doneWg g) (g_panic g).
Definition out_of_table (i : nat) g := mkGroup (g_main g) (g_workers g) (g_acceptor g) (g_living g) (g_table g ∖ {[i]}) (g_startedWg g) (g_doneWg g) (g_panic g).
Definition panicked g := mkGroup (g_main g) (g_workers g) (g_acceptor g) (g_living g) (g_table g) (g_startedWg g) (g_doneWg g) true.

(** [sync.WaitGroup]: a counter below 0 panics. *)
Definition add_both g := mkGroup (g_main g) (g_workers g) (g_acceptor g) (g_living g) (g_table g) (g_startedWg g + 1) (g_doneWg g + 1) (g_panic g).
Definition started_Done g :=
  mkGroup (g_main g) (g_workers g) (g_acceptor g) (g_living g) (g_table g) (g_startedWg g - 1) (g_doneWg g) (g_panic g || (g_startedWg g - 1 <? 0)).
Definition done_Done g :=
  mkGroup (g_main g) (g_workers g) (g_acceptor g) (g_living g) (g_table g) (g_startedWg g) (g_doneWg g - 1) (g_panic g || (g_doneWg g - 1 <? 0)).

(** One step of [start]: [Add(1)] on both groups comes before the goroutine exists. *)
Definition move_main (g : group) : option group :=
  match g_main g with
  | MSpawn i =>
      match g_workers g !! i with
      | Some r => Some (main_to (MAwait i) (worker_to i (mkRun WTune (rw_running r)) (add_both g)))
      | None => Some (main_to (if g_acceptor g then MAcceptor else MStarted) g)
      end
  | MAwait i =>
      match g_workers g !! i with
      | Some (mkRun WSignal b) => Some (main_to (MSpawn (S i)) (worker_to i (mkRun WPrepare b) g))
      | _ => None
      end
  | MAcceptor =>
      r ← g_acceptor g; Some (main_to MStarted (acceptor_to (mkRun WTune (rw_running r)) (add_both g)))
  | MStarted => if g_startedWg g =? 0 then Some (main_to MRunning g) else None
  | MRunning => Some (main_to MServe g)
  | MServe => if g_doneWg g =? 0 then Some (main_to MReturn g) else None
  | MReturn => None
  end.

(** One step of the goroutine of worker [i]; [ok] says that what it does succeeds.  The
    step of [WLoop] is the end of the event loop. *)
Definition move_worker (i : nat) (ok : bool) (r : run_worker) (g : group) : option group :=
  let goto p := worker_to i (mkRun p (rw_running r)) in
  match rw_pc r with
  | WNew | WSignal | WEnd => None
  | WTune => Some (goto (if ok then WSignal else WCount) g)
  | WPrepare => Some (goto (if ok then WListen else WCount) g)
  | WListen => Some (worker_to i (mkRun WLoop true) (started_Done g))
  | WLoop => Some (goto (if ok then WDone else WCount) g)
  | WCount => Some (goto WStop (one_less g))
  | WStop => Some (goto WDelete (if rw_running r then g else started_Done g))
  | WDelete => Some (goto WDone (out_of_table i g))
  | WDone => Some (goto WEnd (done_Done g))
  end.

(** The goroutine of the acceptor: no channel, and an error of its loop panics. *)
Definition move_acceptor (ok : bool) (r : run_worker) (g : group) : option group :=
  match rw_pc r with
  | WTune => Some (if ok then acceptor_to (mkRun WPrepare (rw_running r)) g else panicked g)
  | WPrepare => Some (if ok then acceptor_to (mkRun WListen (rw_running r)) g else panicked g)
  | WListen => Some (acceptor_to (mkRun WLoop true) (started_Done g))
  | WLoop => Some (if ok then acceptor_to (mkRun WDone (rw_running r)) g else panicked g)
  | WDone => Some (acceptor_to (mkRun WEnd (rw_running r)) (done_Done g))
  | _ => None
  end.

Definition goroutines (g : group) : list run_worker := option_list (g_acceptor g) ++ g_workers g.

Inductive group_step (g : group) : group -> Prop :=
| step_main g' : g_panic g = false -> move_main g = Some g' -> group_step g g'
| step_worker i ok r g' : g_panic g = false -> g_workers g !! i = Some r -> move_worker i ok r g = Some g' -> group_step g g'
| step_acceptor ok r g' : g_panic g = false -> g_acceptor g = Some r -> move_acceptor ok r g = Some g' -> group_step g g'
(** a round of an event loop that goes on *)
| step_round r : g_panic g = false -> r ∈ goroutines g -> rw_pc r = WLoop -> group_step g g.

Definition run_reachable (n : nat) (reactor : bool) (g : group) : Prop := rtc group_step (new_group n reactor) g.

(** ** What the wait groups count *)

Definition tally (f : run_worker -> Z) (l : list run_worker) : Z := foldr (fun r n => f r + n) 0 l.

(** The goroutine still has to call [startedWg.Done] or [doneWg.Done]. *)
Definition owes_started (r : run_worker) : Z :=
  match rw_pc r with
  | WTune | WSignal | WPrepare | WListen => 1
  | WCount | WStop => if rw_running r then 0 else 1
  | _ => 0
  end.
Definition owes_done (r : run_worker) : Z := match rw_pc r with WNew | WEnd => 0 | _ => 1 end.

(** Worker [j] is not launched yet. *)
Definition new_at (m : main_pc) (j : nat) : bool :=
  match m with MSpawn i => (i <=? j)%nat | MAwait i => (S i <=? j)%nat | _ => false end.
Definition before_acceptor (m : main_pc) : bool := match m with MSpawn _ | MAwait _ | MAcceptor => true | _ => false end.

(** Where a worker can be, given where [start] is. *)
Definition worker_ok (m : main_pc) (j : nat) (r : run_worker) : Prop :=
  match rw_pc r with
  | WNew => new_at m j = true /\ rw_running r = false
  | WTune | WSignal => m = MAwait j /\ rw_running r = false
  | WPrepare | WListen => new_at m j = false /\ m <> MAwait j /\ rw_running r = false
  | WLoop => new_at m j = false /\ m <> MAwait j /\ rw_running r = true
  | _ => new_at m j = false /\ (m = MAwait j -> rw_running r = false)
  end.

Definition acceptor_ok (m : main_pc) (r : run_worker) : Prop :=
  match rw_pc r with
  | WNew => before_acceptor m = true /\ rw_running r = false
  | WTune | WPrepare | WListen => before_acceptor m = false /\ rw_running r = false
  | WLoop | WDone | WEnd => before_acceptor m = false /\ rw_running r = true
  | _ => False
  end.

Record group_inv (g : group) : Prop := {
  gi_started : g_startedWg g = tally owes_started (goroutines g);
  gi_done : g_doneWg g = tally owes_done (goroutines g);
  gi_workers j r : g_workers g !! j = Some r -> worker_ok (g_main g) j r;
  gi_acceptor r : g_acceptor g = Some r -> acceptor_ok (g_main g) r;
  gi_spawn : g_main g = MAcceptor -> is_Some (g_acceptor g);
  gi_await i : g_main g = MAwait i -> is_Some (g_workers g !! i);
  gi_table j r : g_workers g !! j = Some r -> rw_pc r ∉ [WDone; WEnd] -> j ∈ g_table g;
  gi_running : g_main g ∈ [MRunning; MServe; MReturn] -> g_startedWg g = 0;
  gi_return : g_main g = MReturn -> g_doneWg g = 0;
  gi_panic : g_panic g = true -> exists r, g_acceptor g = Some r /\ rw_pc r ∈ [WTune; WPrepare; WLoop]
}.

Lemma tally_app f l k : tally f (l ++ k) = tally f l + tally f k.
Proof. induction l as [|r l IH]; [done|]. rewrite /= IH. lia. Qed.

Lemma tally_insert f l i r r' : l !! i = Some r -> tally f (<[i := r']> l) = tally f l - f r + f r'.
Proof.
  revert i. induction l as [|x l IH]; intros [|i] Hi; simplify_eq/=; [lia|]. rewrite (IH i Hi). lia.
Qed.

Lemma tally_nonneg f l : (forall r, 0 <= f r) -> 0 <= tally f l.
Proof. intros Hf. induction l as [|r l IH]; [done|]. simpl. have := Hf r. lia. Qed.

Lemma tally_ge f l r : (forall r, 0 <= f r) -> r ∈ l -> f r <= tally f l.
Proof.
  intros Hf. induction 1 as [r l|r x l _ IH]; simpl; [have := tally_nonneg f l Hf; lia|]. have := Hf x. lia.
Qed.

Lemma owes_started_nonneg r : 0 <= owes_started r.
Proof. by destruct r as [[] []]. Qed.

Lemma owes_done_nonneg r : 0 <= owes_done r.
Proof. by destruct r as [[] []]. Qed.

Lemma goroutines_worker f g m i r r' a lv tb sw dw pn :
  g_workers g !! i = Some r -> a = g_acceptor g ->
  tally f (goroutines (mkGroup m (<[i := r']> (g_workers g)) a lv tb sw dw pn)) = tally f (goroutines g) - f r + f r'.
Proof. intros Hi ->. rewrite /goroutines /= !tally_app (tally_insert _ _ _ r) //. lia. Qed.

Lemma goroutines_acceptor f g m r r' lv tb sw dw pn :
  g_acceptor g = Some r ->
  tally f (goroutines (mkGroup m (g_workers g) (Some r') lv tb sw dw pn)) = tally f (goroutines g) - f r + f r'.
Proof. intros Ha. rewrite /goroutines Ha /=. lia. Qed.

(** A goroutine that moves and pays what it owes. *)
Lemma inv_worker_moves g i r r' lv tb sw dw pn :
  group_inv g -> (0 <= sw -> 0 <= dw -> pn = false) -> g_workers g !! i = Some r -> worker_ok (g_main g) i r' ->
  sw = g_startedWg g - owes_started r + owes_started r' -> owes_started r' <= owes_started r ->
  dw = g_doneWg g - owes_done r + owes_done r' -> owes_done r' <= owes_done r ->
  (forall j, j <> i -> j ∈ g_table g -> j ∈ tb) -> (rw_pc r' ∉ [WDone; WEnd] -> rw_pc r ∉ [WDone; WEnd] /\ tb = g_table g) ->
  group_inv (mkGroup (g_main g) (<[i := r']> (g_workers g)) (g_acceptor g) lv tb sw dw pn).
Proof.
  intros [Hs Hd Hw Ha Hsp Haw Htb Hru Hre Hp] Hnp Hi Hr' -> Hle -> Hld Htab Hpc.
  have Hts f := goroutines_worker f g (g_main g) i r r' _ lv tb 0 0 false Hi eq_refl.
  have H1 : 0 <= g_startedWg g - owes_started r + owes_started r' by rewrite Hs -Hts; apply tally_nonneg, owes_started_nonneg.
  have H2 : 0 <= g_doneWg g - owes_done r + owes_done r' by rewrite Hd -Hts; apply tally_nonneg, owes_done_nonneg.
  split; cbn [g_main g_workers g_acceptor g_startedWg g_doneWg g_panic]; try done.
  - by rewrite Hs -Hts.
  - by rewrite Hd -Hts.
  - intros j r1 [(<- & <- & _)|(_ & Hj)]%list_lookup_insert_Some; [done|by apply Hw].
  - intros k Hk. have [r1 Hr1] := Haw k Hk. destruct (decide (k = i)) as [->|Hne];
      [rewrite list_lookup_insert_eq; [by eapply lookup_lt_Some|done]|by rewrite list_lookup_insert_ne].
  - intros j r1 [(<- & <- & _)|(Hne & Hj)]%list_lookup_insert_Some Hpc1.
    + destruct (Hpc Hpc1) as [Hpc0 ->]. by eapply Htb.
    + apply Htab; [done|]. by eapply Htb.
  - intros Hm. apply Hru in Hm. lia.
  - intros Hm. apply Hre in Hm. lia.
  - by rewrite (Hnp H1 H2).
Qed.

Lemma inv_acceptor_moves g r r' sw dw pn :
  group_inv g -> (0 <= sw -> 0 <= dw -> pn = false) -> g_acceptor g = Some r -> acceptor_ok (g_main g) r' ->
  sw = g_startedWg g - owes_started r + owes_started r' -> owes_started r' <= owes_started r ->
  dw = g_doneWg g - owes_done r + owes_done r' -> owes_done r' <= owes_done r ->
  group_inv (mkGroup (g_main g) (g_workers g) (Some r') (g_living g) (g_table g) sw dw pn).
Proof.
  intros [Hs Hd Hw Ha Hsp Haw Htb Hru Hre Hp] Hnp Hi Hr' -> Hle -> Hld.
  have Hts f := goroutines_acceptor f g (g_main g) r r' (g_living g) (g_table g) 0 0 false Hi.
  have H1 : 0 <= g_startedWg g - owes_started r + owes_started r' by rewrite Hs -Hts; apply tally_nonneg, owes_started_nonneg.
  have H2 : 0 <= g_doneWg g - owes_done r + owes_done r' by rewrite Hd -Hts; apply tally_nonneg, owes_done_nonneg.
  split; cbn [g_main g_workers g_acceptor g_startedWg g_doneWg g_panic]; try done.
  - by rewrite Hs -Hts.
  - by rewrite Hd -Hts.
  - by intros r1 [= <-].
  - intros Hm. apply Hru in Hm. lia.
  - intros Hm. apply Hre in Hm. lia.
  - by rewrite (Hnp H1 H2).
Qed.

Lemma inv_panicked g r :
  group_inv g -> g_acceptor g = Some r -> rw_pc r ∈ [WTune; WPrepare; WLoop] -> group_inv (panicked g).
Proof. intros [Hs Hd Hw Ha Hsp Haw Htb Hru Hre Hp] Hi Hr. split; try done. intros _. by exists r. Qed.

(** A wait group that keeps its balance does not panic. *)
Ltac no_panic H := intros; rewrite H; solve [reflexivity | by apply orb_false_intro; [|apply Z.ltb_ge; lia]].

Lemma inv_step_acceptor g g' ok r :
  group_inv g -> g_panic g = false -> g_acceptor g = Some r -> move_acceptor ok r g = Some g' -> group_inv g'.
Proof.
  intros Hinv Hnp Hr Hg. have Hok := gi_acceptor _ Hinv _ Hr. destruct r as [p b].
  destruct p; destruct ok; cbn in Hg, Hok; simplify_eq; try done; try (by eapply inv_panicked; [done|done|set_solver]);
    destruct Hok as [Hm ->];
    (eapply (inv_acceptor_moves g); [done| |done| |..]; cbn; try lia; try (by no_panic Hnp); by split).
Qed.

Lemma await_not_new i : new_at (MAwait i) i = false.
Proof. apply Nat.leb_gt. lia. Qed.

Lemma inv_step_worker g g' i ok r :
  group_inv g -> g_panic g = false -> g_workers g !! i = Some r -> move_worker i ok r g = Some g' -> group_inv g'.
Proof.
  intros Hinv Hnp Hr Hg. have Hok := gi_workers _ Hinv _ _ Hr. destruct r as [p b].
  destruct p; destruct ok; cbn in Hg, Hok; simplify_eq; destruct_and?; simplify_eq.
  all: try (is_var b; destruct b); try done.
  all: eapply (inv_worker_moves g); [done| |done| |..]; cbn; try lia; try (by no_panic Hnp); try (by split_and!); try set_solver.
  rewrite H. split; [apply await_not_new|done].
Qed.

(** What [worker_ok] needs to survive a step of [start]. *)
Lemma worker_ok_main m m' j r :
  worker_ok m j r -> new_at m' j = new_at m j -> m <> MAwait j -> m' <> MAwait j -> worker_ok m' j r.
Proof. intros Hok Hn Hm Hm'. rewrite /worker_ok in Hok |- *. rewrite Hn. destruct (rw_pc r); naive_solver. Qed.

Lemma acceptor_ok_main m m' r : before_acceptor m' = before_acceptor m -> acceptor_ok m r -> acceptor_ok m' r.
Proof. intros Hb. rewrite /acceptor_ok. by rewrite Hb. Qed.

(** What [start] launches has not run before. *)
Lemma spawn_is_new i r : worker_ok (MSpawn i) i r -> r = mkRun WNew false.
Proof. rewrite /worker_ok /new_at Nat.leb_refl. destruct r as [[] b]; simpl; intros; destruct_and?; by simplify_eq. Qed.

Lemma acceptor_is_new r : acceptor_ok MAcceptor r -> r = mkRun WNew false.
Proof. destruct r as [[] b]; simpl; intros Hok; try done; destruct Hok; by simplify_eq/=. Qed.

(** A step of [start] that changes nothing else. *)
Lemma inv_main_only g m' :
  group_inv g -> g_panic g = false ->
  (forall j r, g_workers g !! j = Some r -> new_at m' j = new_at (g_main g) j /\ g_main g <> MAwait j) ->
  (forall i, m' <> MAwait i) ->
  (forall r, g_acceptor g = Some r -> before_acceptor m' = before_acceptor (g_main g)) ->
  (m' = MAcceptor -> is_Some (g_acceptor g)) ->
  (m' ∈ [MRunning; MServe; MReturn] -> g_startedWg g = 0) -> (m' = MReturn -> g_doneWg g = 0) ->
  group_inv (main_to m' g).
Proof.
  intros [Hs Hd Hw Ha Hsp Haw Htb Hru Hre Hp] Hnp Hm Hm' Hacc Hsome H0 H1. split; cbn; try done.
  - intros j r Hj. destruct (Hm j r Hj) as (Hn & ?). by apply (worker_ok_main (g_main g)); [apply Hw|..].
  - intros r Hr. by eapply acceptor_ok_main; [apply (Hacc r Hr)|apply Ha].
  - intros i Hi. by destruct (Hm' i).
Qed.

Lemma inv_spawn g i r :
  group_inv g -> g_panic g = false -> g_main g = MSpawn i -> g_workers g !! i = Some r ->
  group_inv (main_to (MAwait i) (worker_to i (mkRun WTune (rw_running r)) (add_both g))).
Proof.
  intros [Hs Hd Hw Ha Hsp Haw Htb Hru Hre Hp] Hnp Hm Hi. have Hok := Hw _ _ Hi.
  rewrite Hm in Hok. apply spawn_is_new in Hok. subst r.
  have Hts f := goroutines_worker f g (MAwait i) i _ (mkRun WTune false) _ (g_living g) (g_table g) 0 0 false Hi eq_refl.
  split; cbn [main_to worker_to add_both g_main g_workers g_acceptor g_startedWg g_doneWg g_panic rw_running]; try done.
  - rewrite Hs. etransitivity; [|symmetry; apply Hts]. cbn; lia.
  - rewrite Hd. etransitivity; [|symmetry; apply Hts]. cbn; lia.
  - intros j r1 [(<- & <- & _)|(Hne & Hj)]%list_lookup_insert_Some; [done|]. apply (worker_ok_main (g_main g)); [by apply Hw|..]; rewrite ?Hm; [|done|congruence].
    rewrite /new_at. destruct (Nat.leb_spec (S i) j), (Nat.leb_spec i j); lia || done.
  - intros r1 Hr1. apply (acceptor_ok_main (g_main g)); [by rewrite Hm|by apply Ha].
  - intros k [= <-]. rewrite list_lookup_insert_eq; [by eapply lookup_lt_Some|done].
  - intros j r1 [(<- & <- & _)|(Hne & Hj)]%list_lookup_insert_Some Hpc; [by apply (Htb _ _ Hi); set_solver|by eapply Htb].
  - set_solver.
Qed.

Lemma inv_await g i b :
  group_inv g -> g_panic g = false -> g_main g = MAwait i -> g_workers g !! i = Some (mkRun WSignal b) ->
  group_inv (main_to (MSpawn (S i)) (worker_to i (mkRun WPrepare b) g)).
Proof.
  intros [Hs Hd Hw Ha Hsp Haw Htb Hru Hre Hp] Hnp Hm Hi. have [_ Hb] := Hw _ _ Hi. cbn in Hb. subst b.
  have Hts f := goroutines_worker f g (MSpawn (S i)) i _ (mkRun WPrepare false) _ (g_living g) (g_table g) 0 0 false Hi eq_refl.
  split; cbn [main_to worker_to g_main g_workers g_acceptor g_startedWg g_doneWg g_panic]; try done.
  - rewrite Hs. etransitivity; [|symmetry; apply Hts]. cbn; lia.
  - rewrite Hd. etransitivity; [|symmetry; apply Hts]. cbn; lia.
  - intros j r1 [(<- & <- & _)|(Hne & Hj)]%list_lookup_insert_Some.
    + split_and!; [|done..]. apply Nat.leb_gt. lia.
    + apply (worker_ok_main (g_main g)); [by apply Hw|..]; rewrite ?Hm; [done|congruence|done].
  - intros r1 Hr1. apply (acceptor_ok_main (g_main g)); [by rewrite Hm|by apply Ha].
  - intros j r1 [(<- & <- & _)|(Hne & Hj)]%list_lookup_insert_Some Hpc; [by apply (Htb _ _ Hi); set_solver|by eapply Htb].
  - set_solver.
Qed.

Lemma inv_start_acceptor g r :
  group_inv g -> g_panic g = false -> g_main g = MAcceptor -> g_acceptor g = Some r ->
  group_inv (main_to MStarted (acceptor_to (mkRun WTune (rw_running r)) (add_both g))).
Proof.
  intros [Hs Hd Hw Ha Hsp Haw Htb Hru Hre Hp] Hnp Hm Hi. have Hok := Ha _ Hi.
  rewrite Hm in Hok. apply acceptor_is_new in Hok. subst r. have Hts f := goroutines_acceptor f g MStarted _ (mkRun WTune false) (g_living g) (g_table g) 0 0 false Hi.
  split; cbn [main_to acceptor_to add_both g_main g_workers g_acceptor g_startedWg g_doneWg g_panic rw_running]; try done.
  - rewrite Hs. etransitivity; [|symmetry; apply Hts]. cbn; lia.
  - rewrite Hd. etransitivity; [|symmetry; apply Hts]. cbn; lia.
  - intros j r1 Hj. apply (worker_ok_main (g_main g)); [by apply Hw|by rewrite ?Hm..].
  - by intros r1 [= <-].
  - set_solver.
  - congruence.
Qed.

Lemma inv_step_main g g' : group_inv g -> g_panic g = false -> move_main g = Some g' -> group_inv g'.
Proof.
  intros Hinv Hnp Hg. have [Hs Hd Hw Ha Hsp Haw Htb Hru Hre Hp] := Hinv. rewrite /move_main in Hg. destruct (g_main g) eqn:Hm.
  - destruct (g_workers g !! i) as [r|] eqn:Hi; injection Hg as <-; [by apply inv_spawn|].
    apply lookup_ge_None in Hi.
    have Hlt j r : g_workers g !! j = Some r -> (j < i)%nat by intros ?%lookup_lt_Some; lia.
    apply inv_main_only; rewrite ?Hm; try done.
    + intros j r Hj%Hlt. split; [|done]. symmetry. destruct (g_acceptor g); apply Nat.leb_gt; lia.
    + intros k. by destruct (g_acceptor g).
    + by intros r ->.
    + by destruct (g_acceptor g).
    + destruct (g_acceptor g); set_solver.
    + by destruct (g_acceptor g).
  - destruct (g_workers g !! i) as [[[] b]|] eqn:Hi; try done. injection Hg as <-. by apply inv_await.
  - apply bind_Some in Hg as (r & Hr & [= <-]). by apply inv_start_acceptor.
  - destruct (Z.eqb_spec (g_startedWg g) 0); [|done]. injection Hg as <-. apply inv_main_only; rewrite ?Hm; try done.
  - injection Hg as <-. apply inv_main_only; rewrite ?Hm; try done. intros _. apply Hru. set_solver.
  - destruct (Z.eqb_spec (g_doneWg g) 0); [|done]. injection Hg as <-. apply inv_main_only; rewrite ?Hm; try done. intros _. apply Hru. set_solver.
  - done.
Qed.

Lemma inv_step g g' : group_inv g -> group_step g g' -> group_inv g'.
Proof.
  intros Hinv [g1 ? ?|i ok r g1 ? ? ?|ok r g1 ? ? ?|r ? ? ?]; [by eapply inv_step_main|by eapply inv_step_worker|by eapply inv_step_acceptor|done].
Qed.

Lemma inv_new n reactor : group_inv (new_group n reactor).
Proof.
  have H0 (f : run_worker -> Z) : f (mkRun WNew false) = 0 -> tally f (goroutines (new_group n reactor)) = 0.
  { intros Hf. rewrite /goroutines tally_app. have -> : tally f (g_workers (new_group n reactor)) = 0.
    { rewrite /=. induction n as [|n IH]; [done|]. rewrite /= IH. lia. }
    destruct reactor; simpl; lia. }
  split; try done.
  - by rewrite H0.
  - by rewrite H0.
  - by intros j r [-> _]%lookup_replicate.
  - destruct reactor; [|done]. by intros r [= <-].
  - intros j r [_ Hj]%lookup_replicate _. cbn. apply elem_of_set_seq. lia.
Qed.

Lemma inv_reachable n reactor g : run_reachable n reactor g -> group_inv g.
Proof.
  rewrite /run_reachable. have := inv_new n reactor. generalize (new_group n reactor). intros g0 H0 Hr. induction Hr; eauto using inv_step.
Qed.

(** ** The steps that are not rounds of a loop are bounded *)

Definition rank (p : worker_pc) : Z :=
  match p with
  | WNew => 10 | WTune => 9 | WSignal => 8 | WPrepare => 7 | WListen => 6 | WLoop => 5
  | WCount => 4 | WStop => 3 | WDelete => 2 | WDone => 1 | WEnd => 0
  end.

Definition main_rank (n : nat) (m : main_pc) : Z :=
  match m with
  | MSpawn i => 2 * Z.of_nat (n - i) + 5 | MAwait i => 2 * Z.of_nat (n - i) + 4
  | MAcceptor => 4 | MStarted => 3 | MRunning => 2 | MServe => 1 | MReturn => 0
  end.

Definition measure (g : group) : Z :=
  main_rank (length (g_workers g)) (g_main g) + tally (fun r => rank (rw_pc r)) (goroutines g) + (if g_panic g then 0 else 1).

Lemma rank_nonneg r : 0 <= rank (rw_pc r).
Proof. by destruct r as [[] b]. Qed.

Lemma measure_nonneg g : 0 <= measure g.
Proof.
  rewrite /measure. have := tally_nonneg (fun r => rank (rw_pc r)) (goroutines g) rank_nonneg.
  have : 0 <= main_rank (length (g_workers g)) (g_main g) by destruct (g_main g); simpl; lia. destruct (g_panic g); lia.
Qed.

Lemma panic_le (b : bool) : (if b then 0 else 1) <= 1.
Proof. by destruct b. Qed.

Lemma measure_main g g' : group_inv g -> g_panic g = false -> move_main g = Some g' -> measure g' < measure g.
Proof.
  intros Hinv Hnp Hg. rewrite /move_main in Hg. rewrite {2}/measure Hnp. destruct (g_main g) eqn:Hm.
  - destruct (g_workers g !! i) as [r|] eqn:Hi; injection Hg as <-.
    + have Hok := gi_workers _ Hinv _ _ Hi. rewrite Hm in Hok. apply spawn_is_new in Hok. subst r.
      rewrite /measure. cbn [main_to worker_to add_both g_main g_workers g_panic].
      rewrite length_insert (goroutines_worker _ g _ i (mkRun WNew false) (mkRun WTune false) (g_acceptor g)) // Hnp /=. lia.
    + rewrite /measure. cbn [main_to g_main g_workers g_panic]. rewrite Hnp. change (goroutines (main_to _ g)) with (goroutines g).
      destruct (g_acceptor g); simpl; lia.
  - destruct (g_workers g !! i) as [[[] b]|] eqn:Hi; try done. injection Hg as <-. have Hlt := lookup_lt_Some _ _ _ Hi.
    rewrite /measure. cbn [main_to worker_to g_main g_workers g_panic].
    rewrite length_insert (goroutines_worker _ g _ i (mkRun WSignal b) (mkRun WPrepare b) (g_acceptor g)) // Hnp /=. lia.
  - apply bind_Some in Hg as (r & Hr & [= <-]). have Hok := gi_acceptor _ Hinv _ Hr. rewrite Hm in Hok. apply acceptor_is_new in Hok. subst r.
    rewrite /measure. cbn [main_to acceptor_to add_both g_main g_workers g_panic].
    rewrite (goroutines_acceptor _ g _ (mkRun WNew false) (mkRun WTune false)) // Hnp /=. lia.
  - destruct (g_startedWg g =? 0); [|done]. injection Hg as <-. rewrite /measure /= Hnp. change (goroutines (main_to _ g)) with (goroutines g). lia.
  - injection Hg as <-. rewrite /measure /= Hnp. change (goroutines (main_to _ g)) with (goroutines g). lia.
  - destruct (g_doneWg g =? 0); [|done]. injection Hg as <-. rewrite /measure /= Hnp. change (goroutines (main_to _ g)) with (goroutines g). lia.
  - done.
Qed.

Lemma measure_worker g g' i ok r :
  g_panic g = false -> g_workers g !! i = Some r -> move_worker i ok r g = Some g' -> measure g' < measure g.
Proof.
  intros Hnp Hi Hg. rewrite {2}/measure Hnp.
  assert (exists r' lv tb sw dw pn, g' = mkGroup (g_main g) (<[i := r']> (g_workers g)) (g_acceptor g) lv tb sw dw pn /\
            rank (rw_pc r') < rank (rw_pc r)) as (r' & lv & tb & sw & dw & pn & -> & Hlt).
  { destruct r as [[] []], ok; cbn in Hg; simplify_eq; do 6 eexists; split; reflexivity. }
  rewrite /measure. cbn [g_main g_workers g_panic]. rewrite length_insert (goroutines_worker _ g _ i r r') //. have := panic_le pn. lia.
Qed.

Lemma measure_acceptor g g' ok r :
  g_panic g = false -> g_acceptor g = Some r -> move_acceptor ok r g = Some g' -> measure g' < measure g.
Proof.
  intros Hnp Hi Hg. rewrite {2}/measure Hnp.
  assert (g' = panicked g \/ exists r' lv tb sw dw pn, g' = mkGroup (g_main g) (g_workers g) (Some r') lv tb sw dw pn /\
            rank (rw_pc r') < rank (rw_pc r)) as [->|(r' & lv & tb & sw & dw & pn & -> & Hlt)].
  { destruct r as [[] []], ok; cbn in Hg; simplify_eq; (by left) || (right; do 6 eexists; split; reflexivity). }
  - rewrite /measure. change (goroutines (panicked g)) with (goroutines g). cbn [panicked g_main g_workers g_panic]. lia.
  - rewrite /measure. cbn [g_main g_workers g_panic]. rewrite (goroutines_acceptor _ g _ r r') //. have := panic_le pn. lia.
Qed.

(** A step that changes something: not a round. *)
Definition change_step (g g' : group) : Prop := group_step g g' /\ g' <> g.

Lemma measure_step g g' : group_inv g -> change_step g g' -> measure g' < measure g.
Proof.
  intros Hinv [[g1 ? ?|i ok r g1 ? ? ?|ok r g1 ? ? ?|r ? ? ?] Hne]; eauto using measure_main, measure_worker, measure_acceptor. done.
Qed.

Lemma changes_bounded k g g' : group_inv g -> nsteps change_step k g g' -> Z.of_nat k <= measure g.
Proof.
  intros Hinv Hn. revert Hinv. induction Hn as [g|k g1 g2 g3 Hs _ IH]; intros Hinv; [apply measure_nonneg|].
  have := measure_step _ _ Hinv Hs. have := IH (inv_step _ _ Hinv (proj1 Hs)). lia.
Qed.

Lemma new_measure n reactor : measure (new_group n reactor) <= 12 * Z.of_nat n + 16.
Proof.
  rewrite /measure /goroutines tally_app /= length_replicate.
  have -> : tally (fun r => rank (rw_pc r)) (replicate n (mkRun WNew false)) = 10 * Z.of_nat n.
  { induction n as [|n IH]; [done|]. rewrite [replicate _ _]/= [tally _ _]/= IH. simpl rank. lia. }
  destruct reactor; cbn -[Z.mul Z.add]; lia.
Qed.

(** After the last launch. *)
Lemma goroutine_past g r :
  group_inv g -> before_acceptor (g_main g) = false -> r ∈ goroutines g ->
  rw_pc r <> WNew /\ (rw_pc r = WLoop -> rw_running r = true).
Proof.
  intros Hinv Hm [Hr|Hr]%elem_of_app.
  - destruct (g_acceptor g) as [r0|] eqn:Ha; [|by apply elem_of_nil in Hr]. apply list_elem_of_singleton in Hr as ->.
    have := gi_acceptor _ Hinv _ Ha. rewrite /acceptor_ok Hm. destruct (rw_pc r0); naive_solver.
  - apply list_elem_of_lookup_1 in Hr as [j Hj]. have := gi_workers _ Hinv _ _ Hj.
    rewrite /worker_ok. destruct (g_main g); simplify_eq/=; destruct (rw_pc r); naive_solver.
Qed.

(** ** Where a run can come to rest *)

(** [start] waits on the channel of a worker that returned before it reached it. *)
Definition blocked (g : group) : Prop :=
  exists i r, g_main g = MAwait i /\ g_workers g !! i = Some r /\ rw_pc r = WEnd /\ rw_running r = false.

(** No goroutine can move, except those in their event loop. *)
Record resting (g : group) : Prop := {
  rest_main : move_main g = None;
  rest_worker i ok r : g_workers g !! i = Some r -> rw_pc r <> WLoop -> move_worker i ok r g = None;
  rest_acceptor ok r : g_acceptor g = Some r -> rw_pc r <> WLoop -> move_acceptor ok r g = None
}.

(** The goroutine is in its event loop, or has ended. *)
Definition settled (r : run_worker) : Prop := (rw_pc r = WLoop /\ rw_running r = true) \/ rw_pc r = WEnd.

Section Rest.
Context (g : group) (Hinv : group_inv g) (Hrest : resting g).

Lemma rest_worker_pc i r : g_workers g !! i = Some r -> rw_pc r ∈ [WNew; WSignal; WLoop; WEnd].
Proof.
  intros Hi. destruct (decide (rw_pc r = WLoop)) as [->|Hl]; [set_solver|]. have Hg := rest_worker _ Hrest i true r Hi Hl.
  destruct r as [[] b]; cbn in Hg |- *; simplify_eq; set_solver.
Qed.

Lemma rest_acceptor_pc r : g_acceptor g = Some r -> rw_pc r ∈ [WNew; WLoop; WEnd].
Proof.
  intros Hi. destruct (decide (rw_pc r = WLoop)) as [->|Hl]; [set_solver|]. have Hg := rest_acceptor _ Hrest true r Hi Hl.
  have := gi_acceptor _ Hinv _ Hi. destruct r as [[] b]; cbn in Hg |- *; simplify_eq; set_solver.
Qed.

(** After the last launch, everything is settled. *)
Lemma rest_settled : before_acceptor (g_main g) = false -> Forall settled (goroutines g).
Proof.
  intros Hm. apply Forall_app. split.
  - destruct (g_acceptor g) as [r|] eqn:Hr; [|constructor]. constructor; [|constructor]. have := rest_acceptor_pc r Hr.
    have := gi_acceptor _ Hinv _ Hr. rewrite /acceptor_ok /settled Hm. destruct (rw_pc r); set_solver.
  - apply Forall_lookup. intros j r Hr. have := rest_worker_pc j r Hr. have := gi_workers _ Hinv _ _ Hr.
    rewrite /worker_ok /settled. destruct (g_main g); simplify_eq/=; destruct (rw_pc r); set_solver.
Qed.

Lemma settled_owes l : Forall settled l -> tally owes_started l = 0.
Proof. induction 1 as [|[p b] l Hp _ IH]; [done|]. destruct Hp as [[Hp Hb]|Hp]; simplify_eq/=; by rewrite IH. Qed.

(** Something still runs when [doneWg] is not zero. *)
Lemma settled_looping l : Forall settled l -> tally owes_done l <> 0 -> Exists (fun r => rw_pc r = WLoop) l.
Proof.
  induction 1 as [|[p b] l Hp _ IH]; [done|]. intros Hn. destruct Hp as [[Hp Hb]|Hp]; simplify_eq/=; [by left|right].
  apply IH. intros Hz. apply Hn. by rewrite Hz.
Qed.

Lemma rest_cases :
  (g_main g = MServe /\ Forall settled (goroutines g) /\ Exists (fun r => rw_pc r = WLoop) (goroutines g)) \/
  g_main g = MReturn \/ blocked g.
Proof.
  have Hmain := rest_main _ Hrest. rewrite /move_main in Hmain. destruct (g_main g) eqn:Hm.
  - by destruct (g_workers g !! i).
  - right; right. have [r Hr] := gi_await _ Hinv _ Hm. exists i, r. rewrite Hr in Hmain.
    have Hp := rest_worker_pc i r Hr. have Hok := gi_workers _ Hinv _ _ Hr. rewrite /worker_ok Hm await_not_new in Hok.
    destruct r as [[] b]; cbn in Hp, Hok, Hmain; try done; try set_solver.
  - have [r Hr] := gi_spawn _ Hinv Hm. by rewrite Hr in Hmain.
  - rewrite (gi_started _ Hinv) settled_owes // in Hmain. apply rest_settled. by rewrite Hm.
  - done.
  - left. have Hs : Forall settled (goroutines g) by apply rest_settled; rewrite Hm.
    split_and!; [done..|]. apply settled_looping; [done|]. rewrite -(gi_done _ Hinv). by destruct (Z.eqb_spec (g_doneWg g) 0).
  - by right; left.
Qed.

End Rest.

(** [start] returns when [doneWg] is zero. *)
Lemma returned_all_ended g : group_inv g -> g_main g = MReturn -> Forall (fun r => rw_pc r = WEnd) (goroutines g).
Proof.
  intros Hinv Hm. apply Forall_forall. intros r Hr. have Hle := tally_ge owes_done _ r owes_done_nonneg Hr.
  rewrite -(gi_done _ Hinv) (gi_return _ Hinv Hm) in Hle. destruct (goroutine_past g r Hinv) as [Hn _]; [by rewrite Hm|done|].
  by destruct r as [[] []].
Qed.

(** ** Properties *)

(** The worker has reported that it runs, or that it has failed. *)
Definition reported (r : run_worker) : Prop := rw_running r = true \/ rw_pc r ∈ [WDelete; WDone; WEnd].

(** C21. The server is running only when every worker has reported, and [start] returns
    only when every goroutine has ended; the wait groups never go below zero, so
    that a panic can only come from a failed acceptor; a worker that serves is in
    the table that [Shutdown] walks. *)
Theorem startup_safe n reactor g :
  run_reachable n reactor g ->
  (g_main g ∈ [MRunning; MServe; MReturn] -> Forall reported (goroutines g)) /\
  (g_main g = MReturn -> Forall (fun r => rw_pc r = WEnd) (goroutines g)) /\
  0 <= g_startedWg g /\ 0 <= g_doneWg g /\
  (g_panic g = true -> exists r, g_acceptor g = Some r /\ rw_pc r ∈ [WTune; WPrepare; WLoop]) /\
  (forall i r, g_workers g !! i = Some r -> rw_pc r = WLoop -> i ∈ g_table g).
Proof.
  intros Hinv%inv_reachable. have [Hs Hd _ _ _ _ Htb Hru Hre Hp] := Hinv. split_and!; [| | | |done|].
  - intros Hm. apply Forall_forall. intros r Hr. have Hle := tally_ge owes_started _ r owes_started_nonneg Hr.
    rewrite -Hs (Hru Hm) in Hle. destruct (goroutine_past g r Hinv) as [Hn Hl]; [by set_unfold in Hm; destruct_or?; simplify_eq/=; rewrite Hm|done|].
    rewrite /reported. destruct r as [[] []]; cbn in *; try done; try (by left); right; set_solver.
  - by apply returned_all_ended.
  - rewrite Hs. apply tally_nonneg, owes_started_nonneg.
  - rewrite Hd. apply tally_nonneg, owes_done_nonneg.
  - intros i r Hi Hl. apply (Htb i r Hi). rewrite Hl. set_solver.
Qed.

(** C22. The start of a server does not get stuck half way.  A run of [n] workers makes at
    most [12 n + 16] steps besides the rounds of the event loops, which may go on for ever;
    and whenever no goroutine can move except in its event loop, one of these holds: the
    running state was stored and [start] waits for its workers, every goroutine is in its
    event loop or has ended, and one is still in its loop; or all have ended and [start] has
    returned; or the acceptor has failed and the process panicked; or [start] waits for a
    worker that returned before it reached its channel. *)
Theorem startup_settles n reactor g :
  run_reachable n reactor g ->
  (forall k g', nsteps change_step k (new_group n reactor) g' -> Z.of_nat k <= 12 * Z.of_nat n + 16) /\
  (resting g ->
    (g_main g = MServe /\ Forall settled (goroutines g) /\ Exists (fun r => rw_pc r = WLoop) (goroutines g)) \/
    (g_main g = MReturn /\ Forall (fun r => rw_pc r = WEnd) (goroutines g)) \/
    g_panic g = true \/ blocked g).
Proof.
  intros Hr. split.
  - intros k g' Hn. have := changes_bounded _ _ _ (inv_new n reactor) Hn. have := new_measure n reactor. lia.
  - intros Hrest. have Hinv := inv_reachable _ _ _ Hr. destruct (rest_cases g Hinv Hrest) as [?|[Hm|?]]; [by left| |by right; right; right].
    right; left. split; [done|]. by apply (returned_all_ended g).
Qed.

Definition early_failed (i : nat) (g : group) : Prop :=
  g_main g = MAwait i /\ exists r, g_workers g !! i = Some r /\ rw_pc r ∈ [WCount; WStop; WDelete; WDone; WEnd].

Lemma early_failed_step i g g' : early_failed i g -> group_step g g' -> early_failed i g'.
Proof.
  intros (Hm & r & Hr & Hp) [g1 _ Hg|j ok r1 g1 _ Hj Hg|ok r1 g1 _ Ha Hg|r1 _ _ _]; [| | |by split; [|exists r]].
  - rewrite /move_main Hm Hr in Hg. destruct r as [[] b]; set_solver.
  - destruct (decide (j = i)) as [->|Hne].
    + rewrite Hr in Hj. injection Hj as <-. have Hlt := lookup_lt_Some _ _ _ Hr.
      destruct r as [[] []]; cbn in Hp; try set_solver; cbn in Hg; simplify_eq; (split; [done|]); eexists; split;
        (by apply list_lookup_insert_eq) || set_solver.
    + destruct r1 as [[] []], ok; cbn in Hg; simplify_eq; (split; [done|]); exists r; cbn; by rewrite list_lookup_insert_ne.
  - destruct r1 as [[] []], ok; cbn in Hg; simplify_eq; (split; [done|]); exists r; by split.
Qed.

(** A worker whose process tuning fails never reaches its channel: [start] waits for
    it for ever, whatever the other goroutines do, and the server neither runs nor
    returns an error. *)
Theorem early_failure_blocks_start n reactor g i r :
  run_reachable n reactor g -> g_main g = MAwait i -> g_workers g !! i = Some r -> rw_pc r = WTune ->
  exists g1, move_worker i false r g = Some g1 /\ forall g2, rtc group_step g1 g2 -> g_main g2 = MAwait i.
Proof.
  intros _ Hm Hi Hp. destruct r as [p b]. simpl in Hp. subst p. exists (worker_to i (mkRun WCount b) g). split; [reflexivity|]. intros g2 Hr.
  assert (early_failed i (worker_to i (mkRun WCount b) g)) as Hf.
  { split; [done|]. exists (mkRun WCount b). split; [|set_solver]. apply list_lookup_insert_eq. by eapply lookup_lt_Some. }
  cut (early_failed i g2); [by intros []|]. revert Hf Hr. generalize (worker_to i (mkRun WCount b) g). intros g1 Hf Hr.
  induction Hr; eauto using early_failed_step.
Qed.

(** ** Runs that exist *)

Inductive mover : Type := ByMain | ByWorker (i : nat) (ok : bool) | ByAcceptor (ok : bool).

Definition moved (m : mover) (g : group) : option group :=
  if g_panic g then None
  else match m with
       | ByMain => move_main g
       | ByWorker i ok => r ← g_workers g !! i; move_worker i ok r g
       | ByAcceptor ok => r ← g_acceptor g; move_acceptor ok r g
       end.

Fixpoint moves (l : list mover) (g : group) : option group :=
  match l with [] => Some g | m :: l => g ← moved m g; moves l g end.

Lemma moves_steps l g g' : moves l g = Some g' -> rtc group_step g g'.
Proof.
  revert g. induction l as [|m l IH]; intros g; cbn [moves].
  - intros [= ->]. constructor.
  - intros (g1 & Hm & Hl)%bind_Some. eapply rtc_l; [|by apply IH]. rewrite /moved in Hm. destruct (g_panic g) eqn:Hp; [done|].
    destruct m as [|i ok|ok]; [by apply step_main|apply bind_Some in Hm as (r & ? & ?); by eapply step_worker|].
    apply bind_Some in Hm as (r & ? & ?). by eapply step_acceptor.
Qed.

(** A reactor with one consumer that runs and ends. *)
Definition whole_run : list mover :=
  [ByMain; ByWorker 0 true; ByMain; ByWorker 0 true; ByMain; ByWorker 0 true; ByMain; ByAcceptor true; ByAcceptor true; ByAcceptor true;
   ByMain; ByMain; ByAcceptor true; ByWorker 0 true; ByWorker 0 true; ByAcceptor true; ByMain].

Definition after_moves (l : list mover) : group := default (new_group 1 true) (moves l (new_group 1 true)).

Lemma after_moves_reachable l : (if moves l (new_group 1 true) then true else false) = true -> run_reachable 1 true (after_moves l).
Proof. rewrite /after_moves. destruct (moves l _) eqn:Hl; [|done]. intros _. by eapply moves_steps. Qed.

Lemma startup_safe_witness :
  g_main (after_moves whole_run) = MReturn /\ Forall (fun r => rw_pc r = WEnd) (goroutines (after_moves whole_run)).
Proof.
  split; [by vm_compute|]. apply (startup_safe 1 true (after_moves whole_run)); [by apply after_moves_reachable|by vm_compute].
Defined.

(** The same reactor, while it serves. *)
Definition serving_run : list mover := take 12 whole_run.

Lemma serving_rests : resting (after_moves serving_run).
Proof.
  split; [by vm_compute| |].
  - intros [|[|i]] ok r Hr Hl; [|discriminate Hr..]. have Hr' : Some (mkRun WLoop true) = Some r by exact Hr. by simplify_eq.
  - intros ok r Hr Hl. have Hr' : Some (mkRun WLoop true) = Some r by exact Hr. by simplify_eq.
Qed.

Lemma startup_settles_witness :
  rw_pc <$> goroutines (after_moves serving_run) = [WLoop; WLoop] /\ g_main (after_moves serving_run) = MServe /\
  ((g_main (after_moves serving_run) = MServe /\ Forall settled (goroutines (after_moves serving_run)) /\
      Exists (fun r => rw_pc r = WLoop) (goroutines (after_moves serving_run))) \/
   (g_main (after_moves serving_run) = MReturn /\ Forall (fun r => rw_pc r = WEnd) (goroutines (after_moves serving_run))) \/
   g_panic (after_moves serving_run) = true \/ blocked (after_moves serving_run)).
Proof.
  split; [by vm_compute|]. split; [by vm_compute|].
  apply (startup_settles 1 true); [by apply after_moves_reachable|apply serving_rests].
Defined.

Lemma early_failure_blocks_start_witness :
  exists g1, move_worker 0 false (mkRun WTune false) (after_moves [ByMain]) = Some g1 /\
    forall g2, rtc group_step g1 g2 -> g_main g2 = MAwait 0.
Proof. apply (early_failure_blocks_start 1 true); [by apply after_moves_reachable|done..]. Defined.
