(* ===== verification/Engine.v ===== *)
(** * Engine: the goroutines of [server.go]

    [start], the goroutine that closes the server, the goroutine that waits for a
    signal, and the callers of [Shutdown] and [AsyncShutdown] meet at two unbuffered
    channels, [closeChan] and [closeBackChan].  The model has one program counter per
    goroutine; every access to the shared state is one step.  A run is identified by a
    number: [closer] stops the workers of the run that installed it. *)

From S2P Require Import Prelude Errors.
Local Open Scope string_scope.
Local Open Scope list_scope.
Local Open Scope Z_scope.

Inductive engineState : Type := inactive | starting | running | closing.

#[export] Instance engineState_eq_dec : EqDecision engineState.
Proof. solve_decision. Defined.

Inductive closeSignal : Type := system | user.

(** [Start], [StartAsMainProcess] and [start]. *)
Inductive start_pc : Type :=
| StCheck (mainProcess : bool)
| StLoad (mainProcess : bool)
| StStore (mainProcess : bool)
| StProbe (mainProcess : bool)
| StListen
| StReady (run : nat)
| StServe (run : nat)
| StReturn (err : option error).

(** [<-sigs; e.closeChan <- system] *)
Inductive signal_pc : Type := SgWait | SgSend | SgDone.

(** The goroutine that closes the server. *)
Inductive closer_pc : Type :=
| ClWait
| ClClose (sig : closeSignal)
(** in [closer]: the workers of the run have been asked to stop *)
| ClStopping (sig : closeSignal) (run : nat)
| ClStore (sig : closeSignal)
| ClBack (sig : closeSignal)
| ClEnd (sig : closeSignal)
| ClDone.

(** [Shutdown] and [AsyncShutdown]; a [Shutdown] returns without or after the
    acknowledgement of [closeBackChan]. *)
Inductive user_pc : Type :=
| SdLoad | SdStore | SdSend | SdWait | SdReturn (acknowledged : bool)
| AsLoad | AsStore | AsSend | AsReturn.

Record engine : Type := mkEngine {
  e_state : engineState;
  e_closer : option nat;
  e_serving : gset nat;
  e_runs : nat;
  e_crashed : bool;
  e_exited : bool;
  e_starts : list start_pc;
  e_signals : list signal_pc;
  e_closers : list closer_pc;
  e_users : list user_pc
}.

Definition NewServer : engine := mkEngine inactive None ∅ 0 false false [] [] [] [].

Definition with_state_e v e := mkEngine v (e_closer e) (e_serving e) (e_runs e) (e_crashed e) (e_exited e) (e_starts e) (e_signals e) (e_closers e) (e_users e).
Definition with_serving v e := mkEngine (e_state e) (e_closer e) v (e_runs e) (e_crashed e) (e_exited e) (e_starts e) (e_signals e) (e_closers e) (e_users e).
Definition with_crashed v e := mkEngine (e_state e) (e_closer e) (e_serving e) (e_runs e) v (e_exited e) (e_starts e) (e_signals e) (e_closers e) (e_users e).
Definition with_exited v e := mkEngine (e_state e) (e_closer e) (e_serving e) (e_runs e) (e_crashed e) v (e_starts e) (e_signals e) (e_closers e) (e_users e).
Definition with_starts v e := mkEngine (e_state e) (e_closer e) (e_serving e) (e_runs e) (e_crashed e) (e_exited e) v (e_signals e) (e_closers e) (e_users e).
Definition with_signals v e := mkEngine (e_state e) (e_closer e) (e_serving e) (e_runs e) (e_crashed e) (e_exited e) (e_starts e) v (e_closers e) (e_users e).
Definition with_closers v e := mkEngine (e_state e) (e_closer e) (e_serving e) (e_runs e) (e_crashed e) (e_exited e) (e_starts e) (e_signals e) v (e_users e).
Definition with_users v e := mkEngine (e_state e) (e_closer e) (e_serving e) (e_runs e) (e_crashed e) (e_exited e) (e_starts e) (e_signals e) (e_closers e) v.

(** The workers of a new run serve, and [closer] stops them. *)
Definition launch (e : engine) : engine :=
  mkEngine (e_state e) (Some (e_runs e)) (e_serving e ∪ {[e_runs e]}) (S (e_runs e)) (e_crashed e) (e_exited e)
    (e_starts e) (e_signals e) (e_closers e) (e_users e).

(** The goroutines [start] creates: the one for signals in the main process, and the
    one that closes the server. *)
Definition spawn (mainProcess : bool) (e : engine) : engine :=
  with_closers (e_closers e ++ [ClWait]) (with_signals (e_signals e ++ if mainProcess then [SgWait] else []) e).

(** ** Steps

    What the outside may do, and which goroutine moves. *)
Inductive action : Type :=
| CallStart (mainProcess : bool)
| CallShutdown
| CallAsyncShutdown
(** goroutine [i] of [start]; [err] is the failure of the probe or of the listeners
    and workers, if the step is one of these *)
| MoveStart (i : nat) (err : option error)
(** a signal arrives *)
| Signal (i : nat)
| MoveCloser (i : nat)
(** the workers of a run that were asked to stop have ended; they may never do so *)
| WorkersStop (run : nat)
| MoveUser (i : nat)
(** [closeChan] from a user or a signal goroutine [i] to closer [j] *)
| UserToCloser (i j : nat)
| SignalToCloser (i j : nat)
(** [closeBackChan] from closer [i] to user [j] *)
| CloserToUser (i j : nat).

Definition start_to (i : nat) (p : start_pc) (e : engine) : engine := with_starts (<[i := p]> (e_starts e)) e.
Definition closer_to (i : nat) (p : closer_pc) (e : engine) : engine := with_closers (<[i := p]> (e_closers e)) e.
Definition user_to (i : nat) (p : user_pc) (e : engine) : engine := with_users (<[i := p]> (e_users e)) e.

(** One step of [start]. *)
Definition move_start (i : nat) (err : option error) (p : start_pc) (e : engine) : option engine :=
  match p with
  | StCheck main =>
      Some (start_to i (if decide (e_state e = running) then StReturn (Some ErrServerAlreadyRunning) else StLoad main) e)
  | StLoad main =>
      Some (start_to i (if decide (e_state e = inactive) then StStore main else StReturn (Some ErrInvalidState)) e)
  | StStore main => Some (start_to i (StProbe main) (with_state_e starting e))
  | StProbe main =>
      match err with
      | Some er => Some (start_to i (StReturn (Some (Wrap "getProbe err: " er))) e)
      | None => Some (start_to i StListen (spawn main e))
      end
  | StListen =>
      match err with
      | Some er => Some (start_to i (StReturn (Some er)) e)
      | None => Some (start_to i (StReady (e_runs e)) (launch e))
      end
  | StReady run => Some (start_to i (StServe run) (with_state_e running e))
  | StServe run => if decide (run ∈ e_serving e) then None else Some (start_to i (StReturn None) e)
  | StReturn _ => None
  end.

(** The goroutines that wait in [closer] for the workers of a run. *)
Definition stopping (run : nat) (p : closer_pc) : bool := match p with ClStopping _ r => bool_decide (r = run) | _ => false end.
Definition waiting_for (run : nat) (e : engine) : nat := length (filter (fun p => stopping run p = true) (e_closers e)).

(** One step of the goroutine that closes the server.  [closer] is nil before the first
    run.  It returns when the workers it has asked to stop have ended; they wake a single
    waiter, so that a second one, or one that asks workers which have ended, waits for
    ever. *)
Definition move_closer (i : nat) (p : closer_pc) (e : engine) : option engine :=
  match p with
  | ClClose sig =>
      match e_closer e with
      | None => Some (with_crashed true e)
      | Some run => if decide (run ∈ e_serving e) then Some (closer_to i (ClStopping sig run) e) else None
      end
  | ClStopping sig run =>
      if decide (run ∈ e_serving e) then None
      else if decide (waiting_for run e = 1%nat) then Some (closer_to i (ClStore sig) e) else None
  | ClStore sig => Some (closer_to i (ClBack sig) (with_state_e inactive e))
  | ClEnd sig => Some (closer_to i ClDone (match sig with system => with_exited true e | user => e end))
  | ClWait | ClBack _ | ClDone => None
  end.

Definition move_user (i : nat) (p : user_pc) (e : engine) : option engine :=
  match p with
  | SdLoad => Some (user_to i (if decide (e_state e = running) then SdStore else SdReturn false) e)
  | SdStore => Some (user_to i SdSend (with_state_e closing e))
  | AsLoad => Some (user_to i (if decide (e_state e = running) then AsStore else AsReturn) e)
  | AsStore => Some (user_to i AsSend (with_state_e closing e))
  | _ => None
  end.

Definition act (a : action) (e : engine) : option engine :=
  if e_crashed e || e_exited e then None
  else
    match a with
    | CallStart main => Some (with_starts (e_starts e ++ [StCheck main]) e)
    | CallShutdown => Some (with_users (e_users e ++ [SdLoad]) e)
    | CallAsyncShutdown => Some (with_users (e_users e ++ [AsLoad]) e)
    | MoveStart i err => p ← e_starts e !! i; move_start i err p e
    | Signal i => match e_signals e !! i with Some SgWait => Some (with_signals (<[i := SgSend]> (e_signals e)) e) | _ => None end
    | MoveCloser i => p ← e_closers e !! i; move_closer i p e
    | WorkersStop run =>
        if decide (run ∈ e_serving e /\ waiting_for run e <> 0%nat) then Some (with_serving (e_serving e ∖ {[run]}) e) else None
    | MoveUser i => p ← e_users e !! i; move_user i p e
    | UserToCloser i j =>
        match e_users e !! i, e_closers e !! j with
        | Some SdSend, Some ClWait => Some (user_to i SdWait (closer_to j (ClClose user) e))
        | Some AsSend, Some ClWait => Some (user_to i AsReturn (closer_to j (ClClose user) e))
        | _, _ => None
        end
    | SignalToCloser i j =>
        match e_signals e !! i, e_closers e !! j with
        | Some SgSend, Some ClWait =>
            Some (with_signals (<[i := SgDone]> (e_signals e)) (closer_to j (ClClose system) e))
        | _, _ => None
        end
    | CloserToUser i j =>
        match e_closers e !! i, e_users e !! j with
        | Some (ClBack sig), Some SdWait => Some (user_to j (SdReturn true) (closer_to i (ClEnd sig) e))
        | _, _ => None
        end
    end.

Definition step (e e' : engine) : Prop := exists a, act a e = Some e'.
Definition reachable (e : engine) : Prop := rtc step NewServer e.

Fixpoint acts (l : list action) (e : engine) : option engine :=
  match l with [] => Some e | a :: l => e ← act a e; acts l e end.

Lemma acts_steps l e e' : acts l e = Some e' -> rtc step e e'.
Proof.
  revert e. induction l as [|a l IH]; intros e; cbn [acts].
  - intros [= ->]. constructor.
  - intros (e1 & Ha & Hl)%bind_Some. eapply rtc_l; [by exists a|by apply IH].
Qed.

Definition IsRunning (e : engine) : bool := bool_decide (e_state e = running).

(** ** The handshake of [shutdown.go]

    [shutdown] sets the flag, adds to the wait group and waits; the worker's loop sees
    the flag, closes its connections and calls [notifyFinish]. *)

Inductive caller_pc : Type := CallerStore | CallerAdd | CallerWait | CallerReturn.
Inductive looper_pc : Type := LooperRun | LooperNotify | LooperEnd.

Record handshake : Type := mkHandshake {
  h_shutdowning : bool;
  h_inProgress : bool;
  (** the counter of the wait group; going below 0 panics *)
  h_counter : Z;
  h_panic : bool;
  (** [loopFinishCondition] holds: the connections are closed *)
  h_drained : bool;
  h_caller : caller_pc;
  h_looper : looper_pc
}.

Definition newShutdowner : handshake := mkHandshake false false 0 false false CallerStore LooperRun.

Definition caller_step (h : handshake) : option handshake :=
  match h_caller h with
  | CallerStore => Some (mkHandshake true (h_inProgress h) (h_counter h) (h_panic h) (h_drained h) CallerAdd (h_looper h))
  | CallerAdd => Some (mkHandshake (h_shutdowning h) (h_inProgress h) (h_counter h + 1) (h_panic h) (h_drained h) CallerWait (h_looper h))
  | CallerWait =>
      if h_counter h =? 0
      then Some (mkHandshake (h_shutdowning h) (h_inProgress h) (h_counter h) (h_panic h) (h_drained h) CallerReturn (h_looper h))
      else None
  | CallerReturn => None
  end.

(** A round of the loop closes the connections when [needToShutdown]; the rounds after it
    go on until the finish condition holds, and then [notifyFinish]. *)
Definition looper_step (h : handshake) : option handshake :=
  match h_looper h with
  | LooperRun =>
      if h_shutdowning h && negb (h_inProgress h)
      then Some (mkHandshake (h_shutdowning h) true (h_counter h) (h_panic h) (h_drained h) (h_caller h) LooperNotify)
      else Some h
  | LooperNotify =>
      if h_drained h then
        if h_shutdowning h
        then Some (mkHandshake (h_shutdowning h) (h_inProgress h) (h_counter h - 1) (h_counter h - 1 <? 0) (h_drained h) (h_caller h) LooperEnd)
        else Some (mkHandshake (h_shutdowning h) (h_inProgress h) (h_counter h) (h_panic h) (h_drained h) (h_caller h) LooperEnd)
      else Some h
  | LooperEnd => None
  end.

(** The last connection is closed.  Nothing makes this happen: a connection whose close
    fails stays. *)
Definition drain_step (h : handshake) : option handshake :=
  match h_looper h with
  | LooperNotify =>
      if h_drained h then None
      else Some (mkHandshake (h_shutdowning h) (h_inProgress h) (h_counter h) (h_panic h) true (h_caller h) LooperNotify)
  | _ => None
  end.

Definition handshake_step (h h' : handshake) : Prop :=
  h_panic h = false /\ (caller_step h = Some h' \/ looper_step h = Some h' \/ drain_step h = Some h').
