(* ===== verification/EngineSpec.v ===== *)
(** * EngineSpec: what the runs of the engine guarantee *)

From S2P Require Import Prelude Errors Engine.
Local Open Scope string_scope.
Local Open Scope list_scope.
Local Open Scope Z_scope.

(** ** Program counters *)

(** [start] has created its goroutines, or returned. *)
Definition past (p : start_pc) : bool := match p with StCheck _ | StLoad _ | StStore _ | StProbe _ => false | _ => true end.

(** [start] will not launch workers any more. *)
Definition launched (p : start_pc) : bool := match p with StReady _ | StServe _ | StReturn _ => true | _ => false end.

(** The workers have been stopped by this goroutine. *)
Definition finished (p : closer_pc) : bool := match p with ClWait | ClClose _ | ClStopping _ _ => false | _ => true end.

(** It was told to close by a caller of [Shutdown] or [AsyncShutdown]. *)
Definition by_user (p : closer_pc) : bool :=
  match p with ClClose user | ClStopping user _ | ClStore user | ClBack user | ClEnd user | ClDone => true | _ => false end.

(** A [Shutdown] that has sent its request. *)
Definition asked (p : user_pc) : bool := match p with SdWait | SdReturn true => true | _ => false end.

Lemma elem_of_insert_inv {A} (l : list A) i x y : x ∈ <[i := y]> l -> x = y \/ x ∈ l.
Proof.
  intros [j Hj]%list_elem_of_lookup_1. apply list_lookup_insert_Some in Hj as [(_ & <- & _)|(_ & Hj)]; [by left|].
  right. by eapply list_elem_of_lookup_2.
Qed.

Lemma Exists_insert_other {A} (P : A -> Prop) l i x y : l !! i = Some x -> (P x -> P y) -> Exists P l -> Exists P (<[i := y]> l).
Proof.
  intros Hi Hxy (z & [j Hj]%list_elem_of_lookup_1 & Hz)%Exists_exists. apply Exists_exists. have Hlt := lookup_lt_Some _ _ _ Hi.
  destruct (decide (i = j)) as [<-|Hne].
  - exists y. split; [|apply Hxy; congruence]. apply (list_elem_of_lookup_2 _ i), list_lookup_insert_eq, Hlt.
  - exists z. split; [|done]. apply (list_elem_of_lookup_2 _ j). by rewrite list_lookup_insert_ne.
Qed.

Lemma elem_of_insert_self {A} (l : list A) i x y : l !! i = Some x -> y ∈ <[i := y]> l.
Proof. intros Hi. apply (list_elem_of_lookup_2 _ i), list_lookup_insert_eq. by eapply lookup_lt_Some. Qed.

(** The cases of a step. *)
Ltac act_cases H :=
  let Halive := fresh "Halive" in
  rewrite /act in H; destruct (_ || _) eqn:Halive in H; [discriminate H|];
  let a := match type of H with match ?a with _ => _ end = _ => a end in
  destruct a as [main| | |i err|i|i|run|i|i j|i j|i j].

Lemma reachable_inv (I : engine -> Prop) e :
  I NewServer -> (forall e e', I e -> step e e' -> I e') -> reachable e -> I e.
Proof.
  intros H0 Hstep Hr. remember NewServer as e0 eqn:He0. rewrite /reachable -He0 in Hr. clear He0. induction Hr; eauto.
Qed.

(** ** One run *)

(** The state of an engine that was started at most once. *)
Record run_inv (e : engine) : Prop := {
  ri_closers : (length (e_closers e) <= length (filter (fun p => past p = true) (e_starts e)))%nat;
  ri_none : e_starts e = [] -> e_closer e = None;
  ri_closer : e_closer e <> None -> Forall (fun p => launched p = true) (e_starts e);
  ri_serving run : run ∈ e_serving e -> e_closer e = Some run;
  ri_stopping sig run : ClStopping sig run ∈ e_closers e -> e_closer e = Some run;
  ri_finished : Exists (fun c => finished c = true) (e_closers e) ->
    e_serving e = ∅ /\ Forall (fun p => launched p = true) (e_starts e);
  ri_ack : SdReturn true ∈ e_users e -> Exists (fun c => finished c = true) (e_closers e)
}.

Lemma fin_insert (l : list closer_pc) i p q :
  l !! i = Some p -> finished q = false -> Exists (fun c => finished c = true) (<[i := q]> l) ->
  Exists (fun c => finished c = true) l.
Proof.
  intros Hi Hq (c & [->|Hc]%elem_of_insert_inv & Ha)%Exists_exists; [congruence|]. apply Exists_exists. by exists c.
Qed.

Lemma ack_user_insert (l : list user_pc) i q : q <> SdReturn true -> SdReturn true ∈ <[i := q]> l -> SdReturn true ∈ l.
Proof. intros Hq [<-|H]%elem_of_insert_inv; done. Qed.

Lemma run_inv_users e us : run_inv e -> (SdReturn true ∈ us -> SdReturn true ∈ e_users e) -> run_inv (with_users us e).
Proof.
  intros [Hn Hnone Hcl Hs Hst Hf Ha] Hus. split; cbn [with_users e_closers e_starts e_closer e_serving e_users]; try done.
  intros H. by apply Ha, Hus.
Qed.

(** A closer moves without finishing, or after it has finished. *)
Lemma run_inv_closer e i p q :
  run_inv e -> e_closers e !! i = Some p -> finished q = finished p ->
  (forall sig run, q = ClStopping sig run -> e_closer e = Some run) -> run_inv (closer_to i q e).
Proof.
  intros [Hn Hnone Hcl Hs Hst Hf Ha] Hi Hq Hqs. split; cbn [closer_to with_closers e_closers e_starts e_closer e_serving e_users]; try done.
  - by rewrite length_insert.
  - intros sig run [Hx|Hx]%elem_of_insert_inv; [by eapply Hqs|by eapply Hst].
  - destruct (finished p) eqn:Hp; intros Hx; apply Hf; [|by apply (fin_insert _ _ _ _ Hi) in Hx].
    apply Exists_exists. exists p. split; [by eapply list_elem_of_lookup_2|done].
  - intros Hx%Ha. eapply Exists_insert_other; [done| |done]. by rewrite Hq.
Qed.

(** [start] moves to a counter of the same kind. *)
Lemma run_inv_start e i p q :
  run_inv e -> (length (e_starts e) <= 1)%nat -> e_starts e !! i = Some p ->
  (past p = true -> past q = true) -> (launched p = true -> launched q = true) -> run_inv (start_to i q e).
Proof.
  intros [Hn Hnone Hcl Hs Hsp Hf Ha] Hlen Hi Hpast Hl. destruct (e_starts e) as [|p' [|]] eqn:Hst; [done| |simpl in Hlen; lia].
  destruct i as [|i]; [|done]. injection Hi as ->.
  have Hall : Forall (fun p => launched p = true) [p] -> Forall (fun p => launched p = true) [q].
  { intros H. apply Forall_cons in H as [H _]. constructor; [exact (Hl H)|constructor]. }
  split; cbn [start_to with_starts e_closers e_starts e_closer e_serving e_users]; rewrite ?Hst; try done.
  - etransitivity; [exact Hn|]. rewrite /= !filter_cons !filter_nil. repeat case_decide; simpl; try lia. naive_solver.
  - intros H. apply Hall, Hcl, H.
  - intros H. destruct (Hf H). split; [done|by apply Hall].
Qed.

Lemma run_inv_move_start e e' i err p :
  (length (e_starts e') <= 1)%nat -> run_inv e -> e_starts e !! i = Some p -> move_start i err p e = Some e' -> run_inv e'.
Proof.
  intros Hlen Hinv Hi Hmove.
  have Hlen0 : (length (e_starts e) <= 1)%nat.
  { rewrite /move_start in Hmove. destruct p, err; repeat case_decide; simplify_eq; move: Hlen; cbn [start_to with_starts e_starts]; by rewrite length_insert. }
  destruct p as [main|main|main|main| |run|run|er]; rewrite /move_start in Hmove.
  - injection Hmove as <-. eapply run_inv_start; [done..|by case_decide|done].
  - injection Hmove as <-. eapply run_inv_start; [done..|by case_decide|done].
  - injection Hmove as <-. eapply (run_inv_start (with_state_e starting e)); try done. by destruct Hinv; split.
  - destruct err; injection Hmove as <-; [by eapply run_inv_start|].
    destruct Hinv as [Hn Hnone Hcl Hs Hsp Hf Hack]. destruct (e_starts e) as [|p' [|]] eqn:Hst; [done| |simpl in Hlen0; lia].
    destruct i as [|i]; [|done]. injection Hi as ->.
    have Hcs : e_closers e = [] by destruct (e_closers e); [done|]; rewrite filter_cons_False // in Hn; simpl in Hn; lia.
    split; cbn [start_to with_starts spawn with_closers with_signals e_closers e_starts e_closer e_serving e_users]; rewrite ?Hst ?Hcs; try done.
    + intros H%Hcl. by apply Forall_cons in H as [H _].
    + intros sig run H. by apply list_elem_of_singleton in H.
    + intros H. by apply Exists_cons in H as [H|H]; [|inversion H].
    + intros H%Hack. rewrite Hcs in H. inversion H.
  - destruct err; injection Hmove as <-; [by eapply run_inv_start|].
    destruct Hinv as [Hn Hnone Hcl Hs Hsp Hf Hack]. destruct (e_starts e) as [|p' [|]] eqn:Hst; [done| |simpl in Hlen0; lia].
    destruct i as [|i]; [|done]. injection Hi as ->.
    have Hnf : Exists (fun c => finished c = true) (e_closers e) -> False by intros H%Hf; destruct H as [_ H]; by apply Forall_cons in H as [H _].
    have Hno : e_closer e = None.
    { destruct (e_closer e) eqn:Hc; [|done]. have H := Hcl ltac:(done). by apply Forall_cons in H as [H _]. }
    split; cbn [start_to with_starts launch e_closers e_starts e_closer e_serving e_users]; rewrite ?Hst; try done.
    + intros _. by repeat constructor.
    + intros r [Hr|Hr]%elem_of_union; [apply Hs in Hr; by rewrite Hno in Hr|]. apply elem_of_singleton in Hr. by rewrite Hr.
    + intros sig run H%Hsp. by rewrite Hno in H.
  - injection Hmove as <-. eapply (run_inv_start (with_state_e running e)); try done. by destruct Hinv; split.
  - case_decide; [done|]. injection Hmove as <-. by eapply run_inv_start.
  - done.
Qed.

(** Workers that stop serve no longer. *)
Lemma run_inv_serving e run : run_inv e -> run_inv (with_serving (e_serving e ∖ {[run]}) e).
Proof.
  intros [Hn Hnone Hcl Hs Hsp Hf Hack]. split; cbn [with_serving e_closers e_starts e_closer e_serving e_users]; try done.
  - intros r [Hr _]%elem_of_difference. by apply Hs.
  - intros H. destruct (Hf H) as [He Hl]. split; [|done]. rewrite He. set_solver.
Qed.

(** The closer that finds the workers it waited for stopped. *)
Lemma run_inv_stopped e i sig run :
  run_inv e -> e_closers e !! i = Some (ClStopping sig run) -> run ∉ e_serving e -> run_inv (closer_to i (ClStore sig) e).
Proof.
  intros [Hn Hnone Hcl Hs Hsp Hf Hack] Hi Hrun. have Hrc := Hsp _ _ (list_elem_of_lookup_2 _ _ _ Hi).
  have Hl : Forall (fun p => launched p = true) (e_starts e) by apply Hcl; rewrite Hrc.
  split; cbn [closer_to with_closers e_closers e_starts e_closer e_serving e_users]; try done.
  - by rewrite length_insert.
  - intros sig' run' [H|H]%elem_of_insert_inv; [done|by eapply Hsp].
  - intros _. split; [|done]. apply set_eq. intros r. split; [|by intros ?%not_elem_of_empty].
    intros Hr. have Hr' := Hs _ Hr. rewrite Hrc in Hr'. by simplify_eq.
  - intros H%Hack. by eapply Exists_insert_other.
Qed.

Lemma run_inv_move_closer e e' i p : run_inv e -> e_closers e !! i = Some p -> move_closer i p e = Some e' -> run_inv e'.
Proof.
  intros Hinv Hp Ha. rewrite /move_closer in Ha. destruct p as [|sig|sig run|sig|sig|sig|]; try discriminate Ha.
  - destruct (e_closer e) as [run|] eqn:Hclo; [|injection Ha as <-; by destruct Hinv; split].
    case_decide; [injection Ha as <-|discriminate Ha]. eapply run_inv_closer; [done..|]. by intros ? ? [= _ <-].
  - repeat case_decide; try discriminate Ha. injection Ha as <-. by eapply run_inv_stopped.
  - injection Ha as <-. apply (run_inv_closer _ i (ClStore sig)); try done. by destruct Hinv; split.
  - injection Ha as <-. apply (run_inv_closer _ i (ClEnd sig)); [|by destruct sig|done|done]. by destruct sig, Hinv; split.
Qed.

Lemma run_inv_step e e' : (length (e_starts e') <= 1)%nat -> run_inv e -> step e e' -> run_inv e'.
Proof.
  intros Hlen Hinv [a Ha]. act_cases Ha.
  - injection Ha as <-. cbn [with_starts e_starts] in Hlen. rewrite length_app /= in Hlen.
    destruct Hinv as [Hn Hnone Hcl Hs Hsp Hf Hack]. have Hst : e_starts e = [] by destruct (e_starts e); [done|simpl in Hlen; lia].
    rewrite Hst /= in Hn. have Hcs : e_closers e = [] by destruct (e_closers e); [done|simpl in Hn; lia].
    split; cbn [with_starts e_closers e_starts e_closer e_serving e_users]; rewrite ?Hcs ?Hst; try done.
    + by rewrite Hnone.
    + intros sig run H. by apply elem_of_nil in H.
    + intros H. inversion H.
    + intros H%Hack. by rewrite Hcs in H.
  - injection Ha as <-. apply run_inv_users; [done|]. intros [H|H]%elem_of_app; [done|]. by apply list_elem_of_singleton in H.
  - injection Ha as <-. apply run_inv_users; [done|]. intros [H|H]%elem_of_app; [done|]. by apply list_elem_of_singleton in H.
  - apply bind_Some in Ha as (p & Hp & Ha). by eapply run_inv_move_start.
  - destruct (e_signals e !! i) as [[]|]; simplify_eq/=. by destruct Hinv; split.
  - apply bind_Some in Ha as (p & Hp & Ha). by eapply run_inv_move_closer.
  - case_decide as Hrun; [injection Ha as <-|discriminate Ha]. by apply run_inv_serving.
  - apply bind_Some in Ha as (p & Hp & Ha). rewrite /move_user in Ha.
    destruct p; try discriminate Ha; injection Ha as <-; (apply run_inv_users; [by destruct Hinv; split|]);
      apply ack_user_insert; by repeat case_decide.
  - destruct (e_users e !! i) as [[]|] eqn:Hu, (e_closers e !! j) as [[]|] eqn:Hc; try discriminate Ha; injection Ha as <-;
      (apply run_inv_users; [by eapply run_inv_closer; try done|by apply ack_user_insert]).
  - destruct (e_signals e !! i) as [[]|] eqn:Hu, (e_closers e !! j) as [[]|] eqn:Hc; try discriminate Ha; injection Ha as <-.
    have [Hn Hnone Hcl Hs Hsp Hf Hack] := run_inv_closer e j ClWait (ClClose system) Hinv Hc eq_refl ltac:(done). by split.
  - destruct (e_closers e !! i) as [[]|] eqn:Hc, (e_users e !! j) as [[]|] eqn:Hu; try discriminate Ha; injection Ha as <-.
    have [Hn Hnone Hcl Hs Hsp Hf Hack] := run_inv_closer e i (ClBack sig) (ClEnd sig) Hinv Hc eq_refl ltac:(done). split; try done.
    intros _. apply Exists_exists. exists (ClEnd sig). split; [|done]. by eapply elem_of_insert_self.
Qed.

Lemma step_starts e e' : step e e' -> (length (e_starts e) <= length (e_starts e'))%nat.
Proof.
  intros [a Ha]. act_cases Ha.
  1: injection Ha as <-; cbn [with_starts e_starts]; rewrite length_app; lia.
  1-2: by injection Ha as <-.
  - apply bind_Some in Ha as (p & Hp & Ha). rewrite /move_start in Ha.
    destruct p, err; repeat case_decide; simplify_eq; cbn [start_to with_starts e_starts]; by rewrite length_insert.
  - by destruct (e_signals e !! i) as [[]|]; simplify_eq/=.
  - apply bind_Some in Ha as (p & Hp & Ha). rewrite /move_closer in Ha.
    destruct p as [|sig|sig run|sig|sig|sig|]; try discriminate Ha; [destruct (e_closer e); [case_decide|]| | |destruct sig];
      repeat case_decide; by simplify_eq/=.
  - case_decide; by simplify_eq/=.
  - apply bind_Some in Ha as (p & Hp & Ha). rewrite /move_user in Ha. by destruct p; simplify_eq/=.
  - by destruct (e_users e !! i) as [[]|], (e_closers e !! j) as [[]|]; simplify_eq/=.
  - by destruct (e_signals e !! i) as [[]|], (e_closers e !! j) as [[]|]; simplify_eq/=.
  - by destruct (e_closers e !! i) as [[]|], (e_users e !! j) as [[]|]; simplify_eq/=.
Qed.

Lemma run_inv_reachable e : reachable e -> (length (e_starts e) <= 1)%nat -> run_inv e.
Proof.
  apply (reachable_inv (fun e => (length (e_starts e) <= 1)%nat -> run_inv e)).
  - intros _. split; try done; [intros sig run H; by apply elem_of_nil in H|intros H; inversion H].
  - intros e1 e2 IH Hs Hlen. eapply run_inv_step; [done| |done]. apply IH. have := step_starts _ _ Hs. lia.
Qed.

(** ** Exit *)

(** In one run, a [Shutdown] waits for the goroutine it has sent to. *)
Record exit_inv (e : engine) : Prop := {
  xi_asked : Exists (fun p => asked p = true) (e_users e) -> Exists (fun c => by_user c = true) (e_closers e);
  xi_end : ClEnd system ∉ e_closers e;
  xi_exited : e_exited e = false
}.

Lemma Exists_insert_inv {A} (P : A -> Prop) l i y : ~ P y -> Exists P (<[i := y]> l) -> Exists P l.
Proof. intros Hy (c & [->|Hc]%elem_of_insert_inv & Hx)%Exists_exists; [done|]. apply Exists_exists. by exists c. Qed.

(** With one closing goroutine, moving it decides. *)
Lemma exit_inv_closer e i p q :
  (length (e_closers e) <= 1)%nat -> exit_inv e -> e_closers e !! i = Some p -> q <> ClEnd system ->
  (by_user p = true -> by_user q = true) -> exit_inv (closer_to i q e).
Proof.
  intros Hlen [Ha Hn He] Hi Hq Hpq. split; cbn [closer_to with_closers e_users e_closers e_exited]; [| |done].
  - intros H%Ha. by eapply Exists_insert_other.
  - intros [H|H]%elem_of_insert_inv; [by rewrite H in Hq|done].
Qed.

Lemma exit_inv_users e i q : exit_inv e -> asked q = false -> exit_inv (user_to i q e).
Proof.
  intros [Ha Hn He] Hq. split; cbn [user_to with_users e_users e_closers e_exited]; try done.
  intros H. apply Ha. eapply Exists_insert_inv; [|exact H]. by rewrite Hq.
Qed.

Lemma exit_inv_new e p : exit_inv e -> asked p = false -> exit_inv (with_users (e_users e ++ [p]) e).
Proof.
  intros [Ha Hn He] Hp. split; try done. intros [H|H]%Exists_app; [by apply Ha|].
  apply Exists_cons in H as [H|H]; [congruence|inversion H].
Qed.

Lemma exit_inv_step e e' : (length (e_starts e') <= 1)%nat -> run_inv e -> exit_inv e -> step e e' -> exit_inv e'.
Proof.
  intros Hlen Hrun Hinv Hstep. have Hlen0 := step_starts _ _ Hstep. destruct Hstep as [a Ha].
  have Hone : (length (e_closers e) <= 1)%nat.
  { etransitivity; [apply (ri_closers _ Hrun)|]. etransitivity; [apply length_filter|]. lia. }
  act_cases Ha.
  - injection Ha as <-. by destruct Hinv; split.
  - injection Ha as <-. by apply exit_inv_new.
  - injection Ha as <-. by apply exit_inv_new.
  - apply bind_Some in Ha as (p & Hp & Ha). rewrite /move_start in Ha.
    destruct p, err; repeat case_decide; simplify_eq; try (by destruct Hinv; split).
    destruct Hinv as [Hask Hn He]. split; cbn [start_to with_starts spawn with_closers with_signals e_users e_closers e_exited]; [| |done].
    + intros H%Hask. apply Exists_app. by left.
    + intros [H|H]%elem_of_app; [done|]. by apply list_elem_of_singleton in H.
  - destruct (e_signals e !! i) as [[]|]; simplify_eq/=. by destruct Hinv; split.
  - apply bind_Some in Ha as (p & Hp & Ha). rewrite /move_closer in Ha. destruct p as [|sig|sig run|sig|sig|sig|]; try discriminate Ha.
    + destruct (e_closer e) as [run|] eqn:Hclo; [|injection Ha as <-; by destruct Hinv; split].
      case_decide as Hr; [injection Ha as <-|discriminate Ha].
      by apply (exit_inv_closer _ i (ClClose sig)).
    + repeat case_decide; try discriminate Ha. injection Ha as <-. by apply (exit_inv_closer _ i (ClStopping sig run)).
    + injection Ha as <-. apply (exit_inv_closer _ i (ClStore sig)); try done. by destruct Hinv; split.
    + injection Ha as <-. destruct sig.
      * destruct (xi_end _ Hinv). by eapply list_elem_of_lookup_2.
      * by apply (exit_inv_closer _ i (ClEnd user)).
  - case_decide; [injection Ha as <-|discriminate Ha]. by destruct Hinv; split.
  - apply bind_Some in Ha as (p & Hp & Ha). rewrite /move_user in Ha.
    destruct p; try discriminate Ha; injection Ha as <-; (apply exit_inv_users; [by destruct Hinv; split|]); by repeat case_decide.
  - destruct (e_users e !! i) as [[]|] eqn:Hu, (e_closers e !! j) as [[]|] eqn:Hc; try discriminate Ha; injection Ha as <-.
    + have [_ Hn He] := exit_inv_closer e j ClWait (ClClose user) Hone Hinv Hc ltac:(done) ltac:(done).
      split; try done. intros _. apply Exists_exists. exists (ClClose user). split; [|done]. by eapply elem_of_insert_self.
    + apply exit_inv_users; [|done]. by apply (exit_inv_closer _ j ClWait).
  - destruct (e_signals e !! i) as [[]|] eqn:Hu, (e_closers e !! j) as [[]|] eqn:Hc; try discriminate Ha; injection Ha as <-.
    have [Ha Hn He] := exit_inv_closer e j ClWait (ClClose system) Hone Hinv Hc ltac:(done) ltac:(done). by split.
  - destruct (e_closers e !! i) as [[]|] eqn:Hc, (e_users e !! j) as [[]|] eqn:Hu; try discriminate Ha; injection Ha as <-.
    have Hex : Exists (fun c => by_user c = true) (e_closers e).
    { apply (xi_asked _ Hinv), Exists_exists. exists SdWait. split; [by eapply list_elem_of_lookup_2|done]. }
    have Hsig : sig = user.
    { destruct (e_closers e) as [|c [|]]; [done| |simpl in Hone; lia]. destruct i as [|i]; [|done]. injection Hc as ->.
      apply Exists_cons in Hex as [Hex|Hex]; [by destruct sig|inversion Hex]. }
    subst sig. have [Ha Hn He] := exit_inv_closer e i (ClBack user) (ClEnd user) Hone Hinv Hc ltac:(done) ltac:(done).
    split; try done. intros _. apply Exists_exists. exists (ClEnd user). split; [|done]. by eapply elem_of_insert_self.
Qed.

Lemma exit_inv_reachable e : reachable e -> (length (e_starts e) <= 1)%nat -> exit_inv e.
Proof.
  intros Hr. have Hr0 := Hr. revert Hr.
  apply (reachable_inv (fun e => reachable e /\ ((length (e_starts e) <= 1)%nat -> exit_inv e))) in Hr0 as [_ H]; [done| |].
  - split; [constructor|]. intros _. split; [intros H; inversion H|apply not_elem_of_nil|done].
  - intros e1 e2 [Hr1 IH] Hs. split; [by eapply rtc_r|]. intros Hlen. have Hlen0 := step_starts _ _ Hs.
    eapply exit_inv_step; [done|apply run_inv_reachable; [done|lia]|apply IH; lia|done].
Qed.

(** ** A failed start *)

(** The engine after a start that failed with [err]: calls are refused or do nothing. *)
Definition refused (err : error) (p : start_pc) : bool :=
  match p with
  | StCheck _ | StLoad _ => true
  | StReturn (Some e) => bool_decide (e = err \/ e = ErrInvalidState)
  | _ => false
  end.

Definition idle_user (p : user_pc) : bool := match p with SdLoad | SdReturn false | AsLoad | AsReturn => true | _ => false end.

Record failed (err : error) (e : engine) : Prop := {
  fd_state : e_state e = starting;
  fd_starts : Forall (fun p => refused err p = true) (e_starts e);
  fd_signals : e_signals e = [];
  fd_closers : Forall (fun p => p = ClWait) (e_closers e);
  fd_users : Forall (fun p => idle_user p = true) (e_users e)
}.

Lemma failed_step fe e e' : failed fe e -> step e e' -> failed fe e'.
Proof.
  intros [Hst Hs Hsig Hc Hu] [a Ha]. act_cases Ha.
  1-3: injection Ha as <-; split; try done; cbn [with_starts with_users e_starts e_users]; apply Forall_app; split; try done; by repeat constructor.
  - apply bind_Some in Ha as (p & Hp & Ha). have Hr := Forall_lookup_1 _ _ _ _ Hs Hp. rewrite /move_start in Ha.
    destruct p as [main|main|main|main| |run|run|[er|]]; try done; rewrite Hst in Ha; injection Ha as <-;
      (split; try done; cbn [start_to with_starts e_starts]; apply Forall_insert; [done|]); [done|].
    apply bool_decide_eq_true. by right.
  - by rewrite Hsig in Ha.
  - apply bind_Some in Ha as (p & Hp & Ha). have Hr := Forall_lookup_1 _ _ _ _ Hc Hp. cbn beta in Hr. by subst p.
  - case_decide as Hw; [|discriminate Ha]. destruct Hw as [_ []]. rewrite /waiting_for.
    by induction Hc as [|p l -> _ IH].
  - apply bind_Some in Ha as (p & Hp & Ha). have Hr := Forall_lookup_1 _ _ _ _ Hu Hp. rewrite /move_user Hst in Ha.
    destruct p; try done; injection Ha as <-; (split; try done; cbn [user_to with_users e_users]; by apply Forall_insert).
  - destruct (e_users e !! i) as [p|] eqn:Hp; [|done]. have Hr := Forall_lookup_1 _ _ _ _ Hu Hp. by destruct p.
  - by rewrite Hsig in Ha.
  - destruct (e_closers e !! i) as [p|] eqn:Hp; [|done]. have Hr := Forall_lookup_1 _ _ _ _ Hc Hp. by subst p.
Qed.

(** ** Properties *)

(** C15. [Shutdown] returns after the server has stopped: in every interleaving of one
    [Start] with any number of [Shutdown] and [AsyncShutdown] calls and signals, when a
    [Shutdown] that asked for the close returns, the workers have stopped. *)
Theorem shutdown_waits_for_workers e :
  reachable e -> (length (e_starts e) <= 1)%nat -> SdReturn true ∈ e_users e -> e_serving e = ∅.
Proof.
  intros Hr Hlen Hack. have [_ _ _ _ _ Hf Ha] := run_inv_reachable e Hr Hlen. by apply Hf, Ha.
Qed.

(** The calls that start a server, up to serving. *)
Definition start_calls (main : bool) (i : nat) : list action := CallStart main :: repeat (MoveStart i None) 6.

Definition one_shutdown : list action :=
  start_calls false 0 ++ [CallShutdown; MoveUser 0; MoveUser 0; UserToCloser 0 0; MoveCloser 0; WorkersStop 0; MoveCloser 0; MoveCloser 0; CloserToUser 0 0].

Definition after (l : list action) : engine := default NewServer (acts l NewServer).

Lemma after_reachable l : (if acts l NewServer then true else false) = true -> reachable (after l).
Proof. intros He. apply (acts_steps l). rewrite /after. by destruct (acts l NewServer). Qed.

Lemma shutdown_waits_for_workers_witness : e_serving (after one_shutdown) = ∅.
Proof.
  apply (shutdown_waits_for_workers (after one_shutdown)); [apply after_reachable; vm_compute; reflexivity|by apply (bool_decide_unpack _); vm_compute|].
  apply (list_elem_of_lookup_2 _ 0). vm_compute. reflexivity.
Defined.

(** An acknowledgement can be stale: after [AsyncShutdown], whose closing goroutine
    still waits to acknowledge, and a second [Start], a [Shutdown] of the second run can
    take the acknowledgement of the first and return while the workers serve. *)
Theorem stale_acknowledgement :
  exists e, reachable e /\ e_users e = [AsReturn; SdReturn true] /\ e_starts e = [StReturn None; StServe 1] /\ 1%nat ∈ e_serving e.
Proof.
  eexists. split.
  - apply (acts_steps (start_calls false 0 ++
      [CallAsyncShutdown; MoveUser 0; MoveUser 0; UserToCloser 0 0; MoveCloser 0; WorkersStop 0; MoveCloser 0; MoveCloser 0; MoveStart 0 None] ++
      start_calls false 1 ++ [CallShutdown; MoveUser 1; MoveUser 1; UserToCloser 1 1; CloserToUser 0 1])).
    vm_compute. reflexivity.
  - split_and!; [done|done|]. by apply (bool_decide_unpack _); vm_compute.
Qed.

(** C16. A signal never ends the process: in every interleaving of one start with any number of
    [Shutdown] and [AsyncShutdown] calls and signals, [os.Exit] is not reached, because the
    closing goroutine that a signal has woken first waits for a goroutine to take its
    acknowledgement, and only a [Shutdown] whose own request was received would. *)
Theorem signal_never_exits e : reachable e -> (length (e_starts e) <= 1)%nat -> e_exited e = false.
Proof. intros Hr Hlen. apply (exit_inv_reachable e Hr Hlen). Qed.

Definition one_signal : list action :=
  start_calls true 0 ++ [Signal 0; SignalToCloser 0 0; MoveCloser 0; WorkersStop 0; MoveCloser 0; MoveCloser 0].

Lemma signal_never_exits_witness : e_exited (after one_signal) = false.
Proof. apply (signal_never_exits (after one_signal)); [apply after_reachable; vm_compute; reflexivity|by apply (bool_decide_unpack _); vm_compute]. Defined.

(** A failed start is final: when the listeners cannot be created, the engine stays
    in [starting]; from then on every call of [Start] is refused with
    [ErrInvalidState], whatever is called in which order. *)
Theorem failed_start_is_final err :
  (exists e, acts (CallStart false :: repeat (MoveStart 0 None) 4 ++ [MoveStart 0 (Some err)]) NewServer = Some e /\
     failed err e /\ e_starts e = [StReturn (Some err)]) /\
  (forall e e', failed err e -> rtc step e e' -> failed err e').
Proof.
  split.
  - eexists. split; [reflexivity|]. split; [|done]. split; try done; try by repeat constructor.
    constructor; [|constructor]. apply bool_decide_eq_true. by left.
  - intros e e' Hf Hs. induction Hs; [done|]. by eauto using failed_step.
Qed.

(** A signal before the workers are launched crashes the server: [closer] is nil. *)
Theorem early_signal_crashes :
  exists e, acts (CallStart true :: repeat (MoveStart 0 None) 4 ++ [Signal 0; SignalToCloser 0 0; MoveCloser 0]) NewServer = Some e /\
    e_crashed e = true.
Proof. eexists. split; [vm_compute; reflexivity|done]. Qed.

(** ** The handshake of a shutdown *)

(** What holds until a panic: the counter says whether the loop has notified. *)
Definition handshake_inv (h : handshake) : Prop :=
  h_panic h = false ->
  match h_caller h, h_looper h with
  | CallerStore, LooperRun => h_counter h = 0 /\ h_shutdowning h = false
  | CallerAdd, (LooperRun | LooperNotify) => h_counter h = 0 /\ h_shutdowning h = true
  | CallerWait, (LooperRun | LooperNotify) => h_counter h = 1 /\ h_shutdowning h = true
  | (CallerWait | CallerReturn), LooperEnd => h_counter h = 0
  | _, _ => False
  end.

Lemma handshake_inv_step h h' : handshake_inv h -> handshake_step h h' -> handshake_inv h'.
Proof.
  rewrite /handshake_inv. intros Hinv [Hp Hs]. specialize (Hinv Hp). destruct h as [sd ip n p d c l]; simpl in Hinv, Hp; subst p.
  destruct Hs as [Hs|[Hs|Hs]]; [rewrite /caller_step in Hs|rewrite /looper_step in Hs|rewrite /drain_step in Hs]; destruct c, l; simpl in Hs, Hinv; try done;
    destruct_and?; subst; simpl in Hs; repeat (case_match; simplify_eq/=); try done; intros; split_and?; done || lia.
Qed.

(** The handshake of [shutdown] is right except for one race: in every interleaving
    without a panic the caller returns only after the worker's loop has ended; but the
    loop can finish between the two statements of [shutdown], and then [wg.Done] runs
    before [wg.Add] and panics. *)
Theorem shutdown_handshake :
  (forall h, rtc handshake_step newShutdowner h -> h_panic h = false -> h_caller h = CallerReturn -> h_looper h = LooperEnd) /\
  (exists h, rtc handshake_step newShutdowner h /\ h_panic h = true).
Proof.
  split.
  - intros h Hr Hp Hc. have Hinv : handshake_inv h.
    { have H0 : handshake_inv newShutdowner by []. revert H0. induction Hr; eauto using handshake_inv_step. }
    specialize (Hinv Hp). rewrite Hc in Hinv. by destruct (h_looper h).
  - eexists. split.
    + eapply rtc_l; [split; [done|]; left; reflexivity|]. eapply rtc_l; [split; [done|]; right; left; reflexivity|].
      eapply rtc_l; [split; [done|]; right; right; reflexivity|]. eapply rtc_l; [split; [done|]; right; left; reflexivity|]. constructor.
    + done.
Qed.
