(* ===== verification/Closers.v ===== *)
(** * Closers: the [closer] of the two architectures ([server.go])

    The goroutine that closes the server calls [closer].  With socket sharding it
    calls [shutdown] of every worker that [Range] finds in [readWriteWorkers], one
    after the other; in the reactor it calls [shutdown] of the acceptor, whose loop
    calls [shutdown] of every registered consumer before it ends.  Each [shutdown] is
    the handshake of [Engine] with the goroutine of that worker; all goroutines
    interleave, the loop of a worker may fail at any time, and the condition on which a
    loop that was told to stop finishes may never hold. *)

From S2P Require Import Prelude Engine EngineSpec.
Local Open Scope list_scope.
Local Open Scope Z_scope.

#[export] Instance caller_pc_eq_dec : EqDecision caller_pc.
Proof. solve_decision. Defined.

(** A worker as its closer sees it: the handshake, whether [loopFinishCondition] comes to
    hold at some time after it was told to stop ([m_ends]), whether its loop has returned
    an error (it notifies nobody then), and whether [readWriteWorkers] still has it. *)
Record member : Type := mkMember { m_shake : handshake; m_ends : bool; m_died : bool; m_stored : bool }.

Definition shake_to (h : handshake) (m : member) : member := mkMember h (m_ends m) (m_died m) (m_stored m).

(** The goroutine that goes through the workers. *)
Inductive closer_at : Type := Idle | Visiting (i : nat) | Calling (i : nat) | Returned.

Record closing : Type := mkClosing { cl_at : closer_at; cl_members : list member }.

Definition member_to (i : nat) (m : member) (c : closing) : closing := mkClosing (cl_at c) (<[i := m]> (cl_members c)).

Definition new_member (ends : bool) : member := mkMember newShutdowner ends false true.
Definition new_closing (a : closer_at) (ends : list bool) : closing := mkClosing a (new_member <$> ends).

(** One step of the goroutine that visits the workers.  [Range] of a [sync.Map]
    ([range]) passes over an entry that was deleted meanwhile; [forEach] of the balancers
    visits every consumer. *)
Definition visit (range : bool) (c : closing) : option closing :=
  match cl_at c with
  | Idle | Returned => None
  | Visiting i =>
      match cl_members c !! i with
      | None => Some (mkClosing Returned (cl_members c))
      | Some m => Some (mkClosing (if negb range || m_stored m then Calling i else Visiting (S i)) (cl_members c))
      end
  | Calling i =>
      m ← cl_members c !! i;
      match h_caller (m_shake m) with
      | CallerReturn => Some (mkClosing (Visiting (S i)) (cl_members c))
      | _ => h ← caller_step (m_shake m); Some (member_to i (shake_to h m) c)
      end
  end.

(** One step of the goroutine of a worker: a step of its loop, the completion after which
    the finish condition holds, the failure of its loop, and then the end of
    [handleWorkerStop]. *)
Inductive worker_act : Type := Loops | Drains | Dies | Deleted.

Definition member_act (a : worker_act) (m : member) : option member :=
  match a with
  | Loops => if m_died m then None else h ← looper_step (m_shake m); Some (shake_to h m)
  | Drains => if m_died m || negb (m_ends m) then None else h ← drain_step (m_shake m); Some (shake_to h m)
  | Dies =>
      match m_died m, h_looper (m_shake m) with
      | true, _ | _, LooperEnd => None
      | _, _ => Some (mkMember (m_shake m) (m_ends m) true (m_stored m))
      end
  | Deleted => if m_died m && m_stored m then Some (mkMember (m_shake m) (m_ends m) true false) else None
  end.

Inductive close_act : Type := ByCloser | ByMember (i : nat) (a : worker_act).

Definition closing_act (range : bool) (a : close_act) (c : closing) : option closing :=
  match a with
  | ByCloser => visit range c
  | ByMember i a => m ← cl_members c !! i; m' ← member_act a m; Some (member_to i m' c)
  end.

(** A negative wait group ends the process. *)
Definition unharmed (c : closing) : bool := forallb (fun m => negb (h_panic (m_shake m))) (cl_members c).

(** A round of a loop that has nothing to close leaves the state as it is. *)
Definition closing_step (range : bool) (c c' : closing) : Prop :=
  unharmed c = true /\ c' <> c /\ exists a, closing_act range a c = Some c'.

(** ** The reactor *)

Record reactor_closing : Type := mkReactorClosing { rc_acceptor : handshake; rc_consumers : closing }.

Inductive reactor_act : Type := RcCaller | RcLoop | RcConsumers (a : close_act).

(** One step: the closer in [shutdown] of the acceptor; the loop of the acceptor, which
    runs [closeRingAndConsumers] before it marks the shutdown and returns; or the visits
    of [closeRingAndConsumers] and the consumers. *)
Definition reactor_closing_act (a : reactor_act) (r : reactor_closing) : option reactor_closing :=
  let h := rc_acceptor r in
  match a with
  | RcCaller => h' ← caller_step h; Some (mkReactorClosing h' (rc_consumers r))
  | RcLoop =>
      match h_looper h, cl_at (rc_consumers r) with
      | LooperRun, Idle =>
          if h_shutdowning h && negb (h_inProgress h)
          then Some (mkReactorClosing h (mkClosing (Visiting 0) (cl_members (rc_consumers r))))
          else Some r
      | _, Returned => h' ← looper_step h; Some (mkReactorClosing h' (rc_consumers r))
      | _, _ => None
      end
  | RcConsumers a => c ← closing_act false a (rc_consumers r); Some (mkReactorClosing h c)
  end.

Definition reactor_unharmed (r : reactor_closing) : bool := negb (h_panic (rc_acceptor r)) && unharmed (rc_consumers r).

Definition reactor_closing_step (r r' : reactor_closing) : Prop :=
  reactor_unharmed r = true /\ r' <> r /\ exists a, reactor_closing_act a r = Some r'.

(** The loop of the acceptor has no finish condition of its own. *)
Definition acceptor_shutdowner : handshake := mkHandshake false false 0 false true CallerStore LooperRun.
Definition new_reactor_closing (ends : list bool) : reactor_closing := mkReactorClosing acceptor_shutdowner (new_closing Idle ends).

(** ** The invariant *)

(** What holds of the handshake of one worker while nothing has panicked. *)
Record shake_inv (h : handshake) : Prop := {
  si_inv : handshake_inv h;
  si_progress : h_looper h = LooperRun -> h_inProgress h = false
}.

Record member_inv (m : member) : Prop := {
  mi_shake : shake_inv (m_shake m);
  mi_died : m_died m = true -> h_looper (m_shake m) <> LooperEnd;
  mi_stored : m_stored m = false -> m_died m = true
}.

Definition not_asked (m : member) : Prop := h_caller (m_shake m) = CallerStore.

(** The closer is through with the worker. *)
Definition passed (range : bool) (m : member) : Prop :=
  h_caller (m_shake m) = CallerReturn \/ (range = true /\ m_stored m = false).

(** Where worker [j] stands, given where the closer is. *)
Definition place_ok (range : bool) (a : closer_at) (j : nat) (m : member) : Prop :=
  match a with
  | Idle => not_asked m
  | Visiting i => if (j <? i)%nat then passed range m else not_asked m
  | Calling i => if (j <? i)%nat then passed range m else if (i <? j)%nat then not_asked m else True
  | Returned => passed range m
  end.

Record closing_inv (range : bool) (c : closing) : Prop := {
  ci_members j m : cl_members c !! j = Some m -> member_inv m;
  ci_place j m : cl_members c !! j = Some m -> place_ok range (cl_at c) j m;
  ci_calling i : cl_at c = Calling i -> (i < length (cl_members c))%nat
}.

Lemma shake_inv_new d : shake_inv (mkHandshake false false 0 false d CallerStore LooperRun).
Proof. by split. Qed.

Lemma shake_inv_caller h h' : h_panic h = false -> shake_inv h -> caller_step h = Some h' -> shake_inv h'.
Proof.
  intros Hp [Hi Hr] Hs. split; [by eapply handshake_inv_step; [|split; [|left]]|].
  rewrite /caller_step in Hs. by repeat (case_match; simplify_eq/=).
Qed.

Lemma shake_inv_looper h h' : h_panic h = false -> shake_inv h -> looper_step h = Some h' -> shake_inv h'.
Proof.
  intros Hp [Hi Hr] Hs. split; [by eapply handshake_inv_step; [|split; [|right; left]]|].
  destruct h as [sd ip n p d k []], sd, ip, d; cbn in Hs, Hr; simplify_eq; try done; by specialize (Hr eq_refl).
Qed.

Lemma shake_inv_drain h h' : h_panic h = false -> shake_inv h -> drain_step h = Some h' -> shake_inv h'.
Proof.
  intros Hp [Hi Hr] Hs. split; [by eapply handshake_inv_step; [|split; [|right; right]]|].
  rewrite /drain_step in Hs. by repeat (case_match; simplify_eq/=).
Qed.

Lemma unharmed_member c i m : unharmed c = true -> cl_members c !! i = Some m -> h_panic (m_shake m) = false.
Proof.
  intros Hu Hi. apply list_elem_of_lookup_2 in Hi. rewrite /unharmed forallb_forall in Hu.
  apply negb_true_iff, Hu. by apply list_elem_of_In.
Qed.

Lemma member_act_inv a m m' : h_panic (m_shake m) = false -> member_inv m -> member_act a m = Some m' -> member_inv m'.
Proof.
  intros Hp [Hs Hd Ht]. destruct a; simpl.
  - case_match eqn:Hdied; [done|]. intros (h & Hh & [= <-])%bind_Some.
    split; simpl; [by eapply shake_inv_looper|by rewrite Hdied|by rewrite Hdied].
  - destruct (m_died m) eqn:Hdied, (m_ends m); try done. intros (h & Hh & [= <-])%bind_Some.
    split; simpl; [by eapply shake_inv_drain|by rewrite Hdied|by rewrite Hdied].
  - destruct (m_died m), (h_looper (m_shake m)) eqn:Hl; intros [= <-]; split; simpl; try done; by rewrite Hl.
  - destruct (m_died m) eqn:Hdied, (m_stored m); intros [= <-]; split; simpl; try done; by apply Hd.
Qed.

(** The worker's own steps do not move the closer's side of the handshake. *)
Lemma member_act_place range p j a m m' : member_act a m = Some m' -> place_ok range p j m -> place_ok range p j m'.
Proof.
  intros Ha.
  have [Hc Ht] : h_caller (m_shake m') = h_caller (m_shake m) /\ (m_stored m = false -> m_stored m' = false).
  { destruct a; simpl in Ha.
    - case_match; [done|]. apply bind_Some in Ha as (h & Hh & [= <-]). rewrite /looper_step in Hh. by repeat (case_match; simplify_eq/=).
    - case_match; [done|]. apply bind_Some in Ha as (h & Hh & [= <-]). rewrite /drain_step in Hh. by repeat (case_match; simplify_eq/=).
    - by repeat (case_match; simplify_eq/=).
    - by repeat (case_match; simplify_eq/=). }
  rewrite /place_ok /passed /not_asked Hc. destruct p; repeat case_match; naive_solver.
Qed.

Lemma inv_member_to range c i m m' :
  closing_inv range c -> cl_members c !! i = Some m -> member_inv m' -> place_ok range (cl_at c) i m' ->
  closing_inv range (member_to i m' c).
Proof.
  intros [Hm Hp Hc] Hi Hm' Hp'. split; cbn.
  - intros j m1 [(<- & <- & _)|(_ & Hj)]%list_lookup_insert_Some; [done|by eapply Hm].
  - intros j m1 [(<- & <- & _)|(_ & Hj)]%list_lookup_insert_Some; [done|by apply Hp].
  - intros k Hk. rewrite length_insert. by apply Hc.
Qed.

(** The closer moves on: only the places have to be looked at. *)
Lemma inv_closer_to range c p :
  closing_inv range c -> (forall j m, cl_members c !! j = Some m -> place_ok range (cl_at c) j m -> place_ok range p j m) ->
  (forall i, p = Calling i -> (i < length (cl_members c))%nat) -> closing_inv range (mkClosing p (cl_members c)).
Proof. intros [Hm Hp Hc] Hj Hi. split; cbn; [done| |done]. intros j m Hl. by apply Hj; [|apply Hp]. Qed.

Ltac places := rewrite /place_ok; repeat match goal with |- context [(?a <? ?b)%nat] => destruct (Nat.ltb_spec a b) end; try lia; try done.

Lemma inv_visiting range c i :
  closing_inv range c -> cl_at c = Visiting i -> forall c', visit range c = Some c' -> closing_inv range c'.
Proof.
  intros Hinv Hat c'. rewrite /visit Hat. destruct (cl_members c !! i) as [m|] eqn:Hi; intros [= <-].
  - destruct (negb range || m_stored m) eqn:Hv; apply inv_closer_to; try done; rewrite ?Hat.
    + intros j m1 Hj. places.
    + intros k [= <-]. by eapply lookup_lt_Some.
    + intros j m1 Hj. places. intros _. assert (j = i) as -> by lia. rewrite Hi in Hj. simplify_eq.
      right. by destruct range, (m_stored m1).
  - apply inv_closer_to; [done| |done]. intros j m1 Hj. rewrite Hat. apply lookup_lt_Some in Hj. apply lookup_ge_None in Hi. places.
Qed.

Lemma inv_calling range c i :
  unharmed c = true -> closing_inv range c -> cl_at c = Calling i -> forall c', visit range c = Some c' -> closing_inv range c'.
Proof.
  intros Hu Hinv Hat c'. rewrite /visit Hat. intros (m & Hi & Hc')%bind_Some.
  have Hmi := ci_members _ _ Hinv _ _ Hi. have Hp := unharmed_member _ _ _ Hu Hi.
  destruct (decide (h_caller (m_shake m) = CallerReturn)) as [Hr|Hr].
  - rewrite Hr in Hc'. injection Hc' as <-. apply inv_closer_to; [done| |done]. rewrite Hat.
    intros j m1 Hj. places. intros _. assert (j = i) as -> by lia. rewrite Hi in Hj. simplify_eq. by left.
  - have {}Hc' : (h ← caller_step (m_shake m); Some (member_to i (shake_to h m) c)) = Some c' by destruct (h_caller (m_shake m)).
    apply bind_Some in Hc' as (h & Hh & [= <-]). eapply inv_member_to; [done|done| |].
    + destruct Hmi as [Hs Hd Ht]. split; simpl; [by eapply shake_inv_caller| |done].
      intros Hdd. specialize (Hd Hdd). rewrite /caller_step in Hh. by repeat (case_match; simplify_eq/=).
    + rewrite Hat. places.
Qed.

Lemma closing_inv_step range c c' : closing_inv range c -> closing_step range c c' -> closing_inv range c'.
Proof.
  intros Hinv (Hu & _ & [|i a] & Ha); simpl in Ha.
  - destruct (cl_at c) eqn:Hat; [by rewrite /visit Hat in Ha|by eapply inv_visiting|by eapply inv_calling|by rewrite /visit Hat in Ha].
  - apply bind_Some in Ha as (m & Hi & (m' & Hm' & [= <-])%bind_Some). eapply inv_member_to; [done|done| |].
    + eapply member_act_inv; [by eapply unharmed_member|by eapply ci_members|done].
    + eapply member_act_place; [done|by eapply ci_place].
Qed.

Lemma closing_inv_new range a ends : a = Idle \/ a = Visiting 0 -> closing_inv range (new_closing a ends).
Proof.
  intros Ha. split; cbn.
  - intros j m (b & -> & _)%list_lookup_fmap_Some_1. split; [apply shake_inv_new|done..].
  - intros j m (b & -> & _)%list_lookup_fmap_Some_1. by destruct Ha as [->| ->].
  - intros i ->. by destruct Ha.
Qed.

(** ** Every step brings the shutdown closer to its end *)

Definition caller_rank (p : caller_pc) : nat := (match p with CallerStore => 3 | CallerAdd => 2 | CallerWait => 1 | CallerReturn => 0 end)%nat.
Definition looper_rank (p : looper_pc) : nat := (match p with LooperRun => 2 | LooperNotify => 1 | LooperEnd => 0 end)%nat.
Definition shake_rank (h : handshake) : nat := (caller_rank (h_caller h) + looper_rank (h_looper h) + (if h_drained h then 0 else 1))%nat.
Definition member_rank (m : member) : nat := (shake_rank (m_shake m) + (if m_died m then 0 else 1) + (if m_stored m then 1 else 0))%nat.
Definition place_rank (n : nat) (a : closer_at) : nat :=
  (match a with Idle => 2 * n + 2 | Visiting i => 2 * (n - i) + 1 | Calling i => 2 * (n - i) | Returned => 0 end)%nat.
Definition closing_rank (c : closing) : nat :=
  (place_rank (length (cl_members c)) (cl_at c) + sum_list_with member_rank (cl_members c))%nat.

Lemma sum_list_with_insert {A} (f : A -> nat) l i x y :
  l !! i = Some x -> (sum_list_with f (<[i := y]> l) + f x = sum_list_with f l + f y)%nat.
Proof. revert i. induction l as [|z l IH]; intros [|i] Hi; simplify_eq/=; [lia|]. have := IH i Hi. lia. Qed.

Lemma nsteps_rank {A} (R : relation A) (rank : A -> nat) k x y :
  (forall a b, R a b -> rank b < rank a)%nat -> nsteps R k x y -> (k + rank y <= rank x)%nat.
Proof. intros HR. induction 1 as [|k x z y Hxz _ IH]; [done|]. have := HR _ _ Hxz. lia. Qed.

Lemma caller_step_rank h h' : caller_step h = Some h' -> (shake_rank h' < shake_rank h)%nat.
Proof. rewrite /caller_step /shake_rank. destruct (h_caller h); intros; repeat case_match; simplify_eq/=; lia. Qed.

Lemma looper_step_rank h h' : looper_step h = Some h' -> h' = h \/ (shake_rank h' < shake_rank h)%nat.
Proof. rewrite /looper_step /shake_rank. destruct (h_looper h); intros; repeat case_match; simplify_eq/=; auto with lia. Qed.

Lemma drain_step_rank h h' : drain_step h = Some h' -> (shake_rank h' < shake_rank h)%nat.
Proof. rewrite /drain_step /shake_rank. destruct (h_looper h) eqn:Hl, (h_drained h); intros; simplify_eq/=; lia. Qed.

Lemma member_act_rank a m m' : member_act a m = Some m' -> m' = m \/ (member_rank m' < member_rank m)%nat.
Proof.
  destruct a; simpl.
  - case_match; [done|]. intros (h & [->|Hr]%looper_step_rank & [= <-])%bind_Some; [left; by destruct m|right].
    rewrite /member_rank /=. lia.
  - case_match; [done|]. intros (h & Hr%drain_step_rank & [= <-])%bind_Some. right. rewrite /member_rank /=. lia.
  - rewrite /member_rank. repeat case_match; intros; simplify_eq/=; lia.
  - rewrite /member_rank. destruct (m_died m) eqn:?, (m_stored m) eqn:?; intros; simplify_eq/=; lia.
Qed.

Lemma member_to_rank c i m m' :
  cl_members c !! i = Some m -> (closing_rank (member_to i m' c) + member_rank m = closing_rank c + member_rank m')%nat.
Proof. intros Hi. rewrite /closing_rank /= length_insert. have := sum_list_with_insert member_rank _ _ _ m' Hi. lia. Qed.

Lemma member_to_id c i m : cl_members c !! i = Some m -> member_to i m c = c.
Proof. intros Hi. rewrite /member_to list_insert_id //. by destruct c. Qed.

Lemma visit_rank range c c' : visit range c = Some c' -> (closing_rank c' < closing_rank c)%nat.
Proof.
  rewrite /visit. destruct (cl_at c) as [|i|i|] eqn:Hat; [done| | |done].
  - destruct (cl_members c !! i) as [m|] eqn:Hi; intros [= <-]; rewrite /closing_rank Hat /=; [|lia].
    apply lookup_lt_Some in Hi. case_match; simpl; lia.
  - intros (m & Hi & Hm)%bind_Some. destruct (decide (h_caller (m_shake m) = CallerReturn)) as [Hr|Hr].
    + rewrite Hr in Hm. injection Hm as <-. rewrite /closing_rank Hat /=. apply lookup_lt_Some in Hi. lia.
    + have {}Hm : (h ← caller_step (m_shake m); Some (member_to i (shake_to h m) c)) = Some c' by destruct (h_caller (m_shake m)).
      apply bind_Some in Hm as (h & Hh%caller_step_rank & [= <-]).
      have := member_to_rank c i m (shake_to h m) Hi. rewrite /member_rank /=. lia.
Qed.

Lemma closing_act_rank range a c c' : closing_act range a c = Some c' -> c' = c \/ (closing_rank c' < closing_rank c)%nat.
Proof.
  destruct a as [|i a]; simpl; [right; by eapply visit_rank|].
  intros (m & Hi & (m' & [->|Hr]%member_act_rank & [= <-])%bind_Some)%bind_Some; [left; by apply member_to_id|right].
  have := member_to_rank c i m m' Hi. lia.
Qed.

Lemma closing_step_rank range c c' : closing_step range c c' -> (closing_rank c' < closing_rank c)%nat.
Proof. intros (_ & Hne & a & [->|]%closing_act_rank); done. Qed.

(** A goroutine that can get on makes a step. *)
Lemma act_is_step range a c c' :
  unharmed c = true -> closing_act range a c = Some c' -> (closing_rank c' < closing_rank c)%nat -> closing_step range c c'.
Proof. intros Hu Ha Hr. split; [done|]. split; [intros ->; lia|]. by exists a. Qed.

(** ** What can hold a closer up *)

(** The closer waits for a worker whose loop has failed, or whose loop was told to stop and
    never sees its finish condition hold; the workers after it are never asked. *)
Definition held_up (c : closing) : Prop :=
  exists i m, cl_at c = Calling i /\ cl_members c !! i = Some m /\
    (m_died m = true \/ (m_ends m = false /\ h_looper (m_shake m) = LooperNotify)) /\ h_caller (m_shake m) = CallerWait /\
    forall j m', (i < j)%nat -> cl_members c !! j = Some m' -> h_shutdowning (m_shake m') = false.

(** A worker that is waited for and did not fail can get on, unless it waits for its finish
    condition. *)
Lemma waited_for_moves h :
  h_panic h = false -> shake_inv h -> h_caller h = CallerWait -> h_counter h <> 0 ->
  h_shutdowning h = true /\
  ((exists h', looper_step h = Some h' /\ (shake_rank h' < shake_rank h)%nat) \/
   (h_looper h = LooperNotify /\ h_drained h = false /\ exists h', drain_step h = Some h')).
Proof.
  intros Hp [Hi Hr] Hc Hn. specialize (Hi Hp). rewrite Hc in Hi. rewrite /looper_step /drain_step /shake_rank.
  destruct (h_looper h) eqn:Hl; [|destruct Hi as [_ Hs]|done].
  - destruct Hi as [_ Hs]. rewrite (Hr eq_refl) Hs. split; [done|]. left. eexists. split; [done|]. simpl. lia.
  - rewrite Hs. split; [done|]. destruct (h_drained h); [left|right; eauto]. eexists. split; [done|]. simpl. lia.
Qed.

Lemma caller_step_none h : caller_step h = None -> h_caller h <> CallerReturn -> h_caller h = CallerWait /\ h_counter h <> 0.
Proof. rewrite /caller_step. destruct (h_caller h); intros; repeat case_match; simplify_eq; split; [done|]. by apply Z.eqb_neq. Qed.

Lemma not_asked_flag m : h_panic (m_shake m) = false -> member_inv m -> not_asked m -> h_shutdowning (m_shake m) = false.
Proof. intros Hp [[Hi _] _ _] Hn. specialize (Hi Hp). rewrite Hn in Hi. destruct (h_looper (m_shake m)); naive_solver. Qed.

Lemma closer_stuck range c :
  closing_inv range c -> unharmed c = true -> (forall c', ~ closing_step range c c') -> cl_at c <> Idle ->
  cl_at c = Returned \/ held_up c.
Proof.
  intros Hinv Hu Hst Hidle.
  have Hv : visit range c = None.
  { destruct (visit range c) as [c'|] eqn:Hv; [|done]. destruct (Hst c').
    by apply (act_is_step _ ByCloser); [| |by eapply visit_rank]. }
  rewrite /visit in Hv. destruct (cl_at c) as [|i|i|] eqn:Hat; [done|by destruct (cl_members c !! i)| |by left]. right.
  have [m Hi] := lookup_lt_is_Some_2 _ _ (ci_calling _ _ Hinv i Hat). rewrite Hi /= in Hv.
  have Hm := ci_members _ _ Hinv _ _ Hi. have Hp := unharmed_member _ _ _ Hu Hi.
  have [Hc Hn] : h_caller (m_shake m) = CallerWait /\ h_counter (m_shake m) <> 0.
  { apply caller_step_none; [|by intros Hr; rewrite Hr in Hv]. destruct (caller_step (m_shake m)); [|done]. by destruct (h_caller (m_shake m)). }
  exists i, m. split_and!; [done|done| |done|].
  - destruct (m_died m) eqn:Hd; [by left|right].
    destruct (waited_for_moves _ Hp (mi_shake _ Hm) Hc Hn) as (_ & [(h & Hh & Hr)|(Hl & Hdr & h & Hh)]).
    + destruct (Hst (member_to i (shake_to h m) c)). apply (act_is_step _ (ByMember i Loops)); [done|by rewrite /= Hi /= Hd Hh|].
      have := member_to_rank c i m (shake_to h m) Hi. rewrite /member_rank /=. lia.
    + split; [|done]. destruct (m_ends m) eqn:He; [|done]. have Hr := drain_step_rank _ _ Hh.
      destruct (Hst (member_to i (shake_to h m) c)). apply (act_is_step _ (ByMember i Drains)); [done|by rewrite /= Hi /= Hd He Hh|].
      have := member_to_rank c i m (shake_to h m) Hi. rewrite /member_rank /=. lia.
  - intros j m' Hj Hl. apply not_asked_flag; [by eapply unharmed_member|by eapply ci_members|].
    have := ci_place _ _ Hinv _ _ Hl. rewrite Hat. places.
Qed.

(** ** The closer of socket sharding *)

(** The loop of the worker has ended after [notifyFinish], or with an error and then
    [handleWorkerStop] has taken the worker out of the table. *)
Definition gone (m : member) : Prop := h_looper (m_shake m) = LooperEnd \/ (m_died m = true /\ m_stored m = false).

Lemma returned_ended h : h_panic h = false -> shake_inv h -> h_caller h = CallerReturn -> h_looper h = LooperEnd.
Proof. intros Hp [Hi _] Hc. specialize (Hi Hp). rewrite Hc in Hi. by destruct (h_looper h). Qed.

Lemma returned_passed range c :
  closing_inv range c -> unharmed c = true -> cl_at c = Returned ->
  Forall (fun m => h_looper (m_shake m) = LooperEnd \/ (range = true /\ m_died m = true /\ m_stored m = false)) (cl_members c).
Proof.
  intros Hinv Hu Hat. apply Forall_lookup_2. intros i m Hi. have Hm := ci_members _ _ Hinv _ _ Hi.
  have := ci_place _ _ Hinv _ _ Hi. rewrite Hat. intros [Hc|[-> Hs]].
  - left. apply returned_ended; [by eapply unharmed_member|by apply Hm|done].
  - right. split_and!; [done|by apply Hm|done].
Qed.

Lemma closing_inv_nsteps range k c c' : closing_inv range c -> nsteps (closing_step range) k c c' -> closing_inv range c'.
Proof. intros Hinv Hn. induction Hn; eauto using closing_inv_step. Qed.

Lemma new_closing_rank a ends : closing_rank (new_closing a ends) = (place_rank (length ends) a + 8 * length ends)%nat.
Proof.
  rewrite /closing_rank /= length_fmap. replace (sum_list_with member_rank _) with (length ends * 8)%nat; [lia|].
  induction ends as [|b ends IH]; [done|]. by rewrite /= -IH.
Qed.

(** Only the acceptor's loop starts the visits. *)
Lemma closing_act_idle range a c c' : closing_act range a c = Some c' -> cl_at c <> Idle -> cl_at c' <> Idle.
Proof.
  destruct a as [|i a]; simpl.
  - rewrite /visit. destruct (cl_at c) eqn:Hat; [done| | |done].
    + case_match; intros [= <-] _; simpl; by repeat case_match.
    + intros (m & _ & Hm)%bind_Some _. destruct (h_caller (m_shake m)); simplify_eq/=; try done;
        apply bind_Some in Hm as (h & _ & [= <-]); by rewrite /= Hat.
  - by intros (m & _ & (m' & _ & [= <-])%bind_Some)%bind_Some.
Qed.

Lemma closing_nsteps_idle range k c c' : cl_at c <> Idle -> nsteps (closing_step range) k c c' -> cl_at c' <> Idle.
Proof. intros Hc Hn. induction Hn as [|k x y z (_ & _ & a & Ha) _ IH]; [done|]. apply IH. by eapply closing_act_idle. Qed.

(** C17. With socket sharding, for any number of workers and any interleaving of the closer
    with their goroutines, also when loops fail or wait for ever for the condition on which
    they finish ([ends] says whose condition comes to hold): rounds of the loops that change
    nothing apart, the closer and the goroutines make at most [10 n + 1] steps; when the
    closer returns, every worker has ended or was taken out of the table after its loop
    failed; and if nothing panics the closer returns, unless it waits for a worker whose
    loop has failed or never sees its finish condition hold, in which case the workers
    after that one are never told to stop. *)
Theorem sharding_closer_returns ends k c :
  nsteps (closing_step true) k (new_closing (Visiting 0) ends) c -> unharmed c = true ->
  (k <= 10 * length ends + 1)%nat /\
  (cl_at c = Returned -> Forall gone (cl_members c)) /\
  ((forall c', ~ closing_step true c c') -> cl_at c = Returned \/ held_up c).
Proof.
  intros Hn Hu. have Hinv := closing_inv_nsteps _ _ _ _ (closing_inv_new true _ ends (or_intror eq_refl)) Hn. split_and!.
  - have := nsteps_rank _ closing_rank _ _ _ (closing_step_rank true) Hn. rewrite new_closing_rank /=. lia.
  - intros Hr. eapply Forall_impl; [by eapply (returned_passed true)|]. rewrite /gone. naive_solver.
  - intros Hst. apply (closer_stuck true); [done|done|done|]. by refine (closing_nsteps_idle _ _ _ _ _ Hn).
Qed.

(** ** The closer of the reactor *)

Record reactor_closing_inv (r : reactor_closing) : Prop := {
  rv_shake : shake_inv (rc_acceptor r);
  rv_drained : h_drained (rc_acceptor r) = true;
  rv_consumers : closing_inv false (rc_consumers r);
  rv_order : h_looper (rc_acceptor r) <> LooperRun -> cl_at (rc_consumers r) = Returned
}.

Lemma caller_step_looper h h' : caller_step h = Some h' -> h_looper h' = h_looper h.
Proof. rewrite /caller_step. intros; repeat case_match; by simplify_eq/=. Qed.

Lemma caller_step_drained h h' : caller_step h = Some h' -> h_drained h' = h_drained h.
Proof. rewrite /caller_step. intros; repeat case_match; by simplify_eq/=. Qed.

Lemma looper_step_drained h h' : looper_step h = Some h' -> h_drained h' = h_drained h.
Proof. rewrite /looper_step. intros; repeat case_match; by simplify_eq/=. Qed.

Lemma closing_act_returned range a c c' : closing_act range a c = Some c' -> cl_at c = Returned -> cl_at c' = Returned.
Proof.
  destruct a as [|i a]; simpl; [rewrite /visit; by intros ? Hat; rewrite Hat in H|].
  by intros (m & _ & (m' & _ & [= <-])%bind_Some)%bind_Some.
Qed.

Lemma reactor_unharmed_split r : reactor_unharmed r = true -> h_panic (rc_acceptor r) = false /\ unharmed (rc_consumers r) = true.
Proof. intros [Hp%negb_true_iff Hu]%andb_true_iff. done. Qed.

(** The loop of the acceptor starts the visits, or goes on when they are done. *)
Lemma loop_act_cases r r' :
  reactor_closing_act RcLoop r = Some r' -> r' <> r ->
  (h_looper (rc_acceptor r) = LooperRun /\ cl_at (rc_consumers r) = Idle /\
    r' = mkReactorClosing (rc_acceptor r) (mkClosing (Visiting 0) (cl_members (rc_consumers r)))) \/
  (cl_at (rc_consumers r) = Returned /\
    exists h, looper_step (rc_acceptor r) = Some h /\ r' = mkReactorClosing h (rc_consumers r)).
Proof.
  simpl. intros Ha Hne. destruct (cl_at (rc_consumers r)) eqn:Hat.
  - left. destruct (h_looper (rc_acceptor r)); [|done|done]. case_match; by simplify_eq.
  - by destruct (h_looper (rc_acceptor r)).
  - by destruct (h_looper (rc_acceptor r)).
  - right. split; [done|].
    have {}Ha : (h' ← looper_step (rc_acceptor r); Some (mkReactorClosing h' (rc_consumers r))) = Some r' by destruct (h_looper (rc_acceptor r)).
    apply bind_Some in Ha as (h & Hh & [= <-]). by exists h.
Qed.

(** A step of the visits or of a consumer. *)
Lemma consumers_step r r' a :
  reactor_unharmed r = true -> r' <> r -> reactor_closing_act (RcConsumers a) r = Some r' ->
  exists c, closing_act false a (rc_consumers r) = Some c /\ closing_step false (rc_consumers r) c /\ r' = mkReactorClosing (rc_acceptor r) c.
Proof.
  intros [_ Hu]%reactor_unharmed_split Hne. simpl. intros (c & Hc & [= <-])%bind_Some. exists c. split_and!; [done| |done].
  split; [done|]. split; [|by exists a]. intros ->. by destruct r.
Qed.

Lemma reactor_inv_step r r' : reactor_closing_inv r -> reactor_closing_step r r' -> reactor_closing_inv r'.
Proof.
  intros [Hs Hd Hc Ho] (Hu & Hne & a & Ha). destruct (reactor_unharmed_split _ Hu) as [Hp Hu']. destruct a as [| |a].
  - apply bind_Some in Ha as (h & Hh & [= <-]). split; simpl; [by eapply shake_inv_caller|by rewrite (caller_step_drained _ _ Hh)|done|].
    by rewrite (caller_step_looper _ _ Hh).
  - destruct (loop_act_cases _ _ Ha Hne) as [(Hl & Hat & ->)|(Hat & h & Hh & ->)]; split; simpl; try done.
    + apply inv_closer_to; [done| |done]. by rewrite Hat.
    + by eapply shake_inv_looper.
    + by rewrite (looper_step_drained _ _ Hh).
  - destruct (consumers_step _ _ _ Hu Hne Ha) as (c & Hac & Hst & ->). split; simpl; [done|done|by eapply closing_inv_step|].
    intros Hl. by eapply closing_act_returned; [|apply Ho].
Qed.

Definition reactor_rank (r : reactor_closing) : nat := (shake_rank (rc_acceptor r) + closing_rank (rc_consumers r))%nat.

Lemma reactor_step_rank r r' : reactor_closing_step r r' -> (reactor_rank r' < reactor_rank r)%nat.
Proof.
  intros (Hu & Hne & a & Ha). rewrite /reactor_rank. destruct a as [| |a].
  - apply bind_Some in Ha as (h & Hh%caller_step_rank & [= <-]). simpl. lia.
  - destruct (loop_act_cases _ _ Ha Hne) as [(_ & Hat & ->)|(Hat & h & [->|Hr]%looper_step_rank & ->)]; simpl; [| |lia].
    + rewrite /closing_rank Hat /=. lia.
    + by destruct r.
  - destruct (consumers_step _ _ _ Hu Hne Ha) as (c & _ & Hr%closing_step_rank & ->). simpl. lia.
Qed.

Lemma act_is_reactor_step a r r' :
  reactor_unharmed r = true -> reactor_closing_act a r = Some r' -> (reactor_rank r' < reactor_rank r)%nat -> reactor_closing_step r r'.
Proof. intros Hu Ha Hr. split; [done|]. split; [intros ->; lia|]. by exists a. Qed.

(** A closer of the reactor that waits and cannot get on waits for a consumer. *)
Lemma reactor_stuck r :
  reactor_closing_inv r -> reactor_unharmed r = true -> (forall r', ~ reactor_closing_step r r') ->
  h_caller (rc_acceptor r) = CallerReturn \/ held_up (rc_consumers r).
Proof.
  intros [Hs Hd Hc Ho] Hu Hst. destruct (reactor_unharmed_split _ Hu) as [Hp Hu'].
  destruct (decide (h_caller (rc_acceptor r) = CallerReturn)) as [|Hr]; [by left|right].
  have Hnone : caller_step (rc_acceptor r) = None.
  { destruct (caller_step (rc_acceptor r)) as [h|] eqn:Hh; [|done]. destruct (Hst (mkReactorClosing h (rc_consumers r))).
    apply (act_is_reactor_step RcCaller); [done|by rewrite /= Hh|]. apply caller_step_rank in Hh. rewrite /reactor_rank /=. lia. }
  destruct (caller_step_none _ Hnone Hr) as [Hw Hn].
  destruct (waited_for_moves _ Hp Hs Hw Hn) as (Hsd & [(h & Hh & Hlt)|(_ & Hdr & _)]); [|by rewrite Hd in Hdr].
  have Hnr : cl_at (rc_consumers r) <> Returned.
  { intros Hat. destruct (Hst (mkReactorClosing h (rc_consumers r))). apply (act_is_reactor_step RcLoop); [done| |].
    - rewrite /= Hat Hh. by destruct (h_looper (rc_acceptor r)).
    - rewrite /reactor_rank /=. lia. }
  have Hl : h_looper (rc_acceptor r) = LooperRun by destruct (h_looper (rc_acceptor r)); [done|destruct Hnr; by apply Ho..].
  have Hni : cl_at (rc_consumers r) <> Idle.
  { intros Hat. destruct (Hst (mkReactorClosing (rc_acceptor r) (mkClosing (Visiting 0) (cl_members (rc_consumers r))))).
    apply (act_is_reactor_step RcLoop); [done|by rewrite /= Hl Hat Hsd (si_progress _ Hs Hl)|].
    rewrite /reactor_rank /closing_rank Hat /=. lia. }
  destruct (closer_stuck false (rc_consumers r)) as [|]; try done.
  intros c (_ & Hne & a & Ha). destruct (Hst (mkReactorClosing (rc_acceptor r) c)). split; [done|]. split; [by intros Heq%(f_equal rc_consumers); apply Hne|].
  exists (RcConsumers a). by rewrite /= Ha.
Qed.

Lemma reactor_inv_nsteps ends k r : nsteps reactor_closing_step k (new_reactor_closing ends) r -> reactor_closing_inv r.
Proof.
  intros Hn. have H0 : reactor_closing_inv (new_reactor_closing ends).
  { split; [apply shake_inv_new|done|apply closing_inv_new; by left|done]. }
  induction Hn; eauto using reactor_inv_step.
Qed.

(** C18. In the reactor, for any number of consumers and any interleaving of the closer, the
    acceptor and the consumers, also when loops of consumers fail or wait for ever for the
    condition on which they finish ([ends] says whose condition comes to hold): rounds of
    the loops that change nothing apart, they make at most [10 n + 7] steps; when the closer
    returns, the loop of the acceptor and the loops of all consumers have ended in order;
    and if nothing panics and the loop of the acceptor does not fail the closer returns,
    unless the acceptor waits for a consumer whose loop has failed (the balancer still has
    it) or never sees all its connections closed, in which case the consumers after that
    one are never told to stop. *)
Theorem reactor_closer_returns ends k r :
  nsteps reactor_closing_step k (new_reactor_closing ends) r -> reactor_unharmed r = true ->
  (k <= 10 * length ends + 7)%nat /\
  (h_caller (rc_acceptor r) = CallerReturn ->
    h_looper (rc_acceptor r) = LooperEnd /\ Forall (fun m => h_looper (m_shake m) = LooperEnd) (cl_members (rc_consumers r))) /\
  ((forall r', ~ reactor_closing_step r r') -> h_caller (rc_acceptor r) = CallerReturn \/ held_up (rc_consumers r)).
Proof.
  intros Hn Hu. have Hinv := reactor_inv_nsteps _ _ _ Hn. destruct (reactor_unharmed_split _ Hu) as [Hp Hu']. split_and!.
  - have := nsteps_rank _ reactor_rank _ _ _ reactor_step_rank Hn.
    rewrite {2}/reactor_rank /new_reactor_closing /= new_closing_rank /=. lia.
  - intros Hc. have Hl := returned_ended _ Hp (rv_shake _ Hinv) Hc. split; [done|].
    eapply Forall_impl; [eapply (returned_passed false); [apply Hinv|done|apply Hinv; by rewrite Hl]|]. naive_solver.
  - by apply reactor_stuck.
Qed.

(** ** Runs *)

Section Runs.
Context {S A : Type} (act : A -> S -> option S) (ok : S -> bool) (rank : S -> nat).

(** The state after a list of actions, each of which makes progress. *)
Fixpoint progress (l : list A) (s : S) : option S :=
  match l with
  | [] => Some s
  | a :: l => s' ← act a s; if ok s && (rank s' <? rank s)%nat then progress l s' else None
  end.

Lemma progress_nsteps l s s' :
  progress l s = Some s' -> nsteps (fun s s' => ok s = true /\ s' <> s /\ exists a, act a s = Some s') (length l) s s'.
Proof.
  revert s. induction l as [|a l IH]; intros s; simpl; [intros [= ->]; constructor|].
  intros (s1 & Ha & Hl)%bind_Some. destruct (ok s) eqn:Hok; [|done]. destruct (Nat.ltb_spec (rank s1) (rank s)); [|done].
  apply (nsteps_l _ _ _ s1); [|by apply IH]. split; [done|]. split; [intros ->; lia|by exists a].
Qed.
End Runs.

Definition asks (i : nat) : list close_act :=
  [ByCloser; ByCloser; ByCloser; ByMember i Loops; ByMember i Drains; ByMember i Loops; ByCloser; ByCloser].

(** Of three shard workers the second fails and leaves the table before it is visited. *)
Definition sharding_run : list close_act := ByMember 1 Dies :: asks 0 ++ [ByMember 1 Deleted; ByCloser] ++ asks 2 ++ [ByCloser].
Definition sharding_closed : closing :=
  default (new_closing (Visiting 0) [true; false; true]) (progress (closing_act true) unharmed closing_rank sharding_run (new_closing (Visiting 0) [true; false; true])).

Lemma sharding_closer_returns_witness :
  cl_at sharding_closed = Returned /\ m_died <$> cl_members sharding_closed = [false; true; false] /\ Forall gone (cl_members sharding_closed).
Proof.
  split; [reflexivity|]. split; [reflexivity|].
  apply (sharding_closer_returns [true; false; true] (length sharding_run) sharding_closed); [|reflexivity|reflexivity].
  apply (progress_nsteps (closing_act true) unharmed closing_rank). vm_compute. reflexivity.
Defined.

(** Two consumers; the acceptor closes them between the two halves of its own handshake. *)
Definition reactor_run : list reactor_act :=
  [RcCaller; RcCaller; RcLoop] ++ (RcConsumers <$> asks 0 ++ asks 1 ++ [ByCloser]) ++ [RcLoop; RcLoop; RcCaller].
Definition reactor_closed : reactor_closing :=
  default (new_reactor_closing [true; true]) (progress reactor_closing_act reactor_unharmed reactor_rank reactor_run (new_reactor_closing [true; true])).

Lemma reactor_closer_returns_witness :
  h_caller (rc_acceptor reactor_closed) = CallerReturn /\
  Forall (fun m => h_looper (m_shake m) = LooperEnd) (cl_members (rc_consumers reactor_closed)).
Proof.
  split; [reflexivity|].
  apply (reactor_closer_returns [true; true] (length reactor_run) reactor_closed); [|reflexivity|reflexivity].
  apply (progress_nsteps reactor_closing_act reactor_unharmed reactor_rank). vm_compute. reflexivity.
Defined.

(** A consumer whose loop fails stays registered with the balancer: [Shutdown] of the
    reactor then waits for it for ever, and the second consumer keeps running. *)
Theorem dead_consumer_blocks_closer :
  exists r, progress reactor_closing_act reactor_unharmed reactor_rank
      ([RcConsumers (ByMember 0 Dies); RcConsumers (ByMember 0 Deleted); RcCaller; RcCaller; RcLoop] ++ (RcConsumers <$> [ByCloser; ByCloser; ByCloser]))
      (new_reactor_closing [true; true]) = Some r /\
    held_up (rc_consumers r) /\ forall r', reactor_closing_act RcCaller r <> Some r' /\ reactor_closing_act (RcConsumers ByCloser) r <> Some r'.
Proof.
  eexists. split; [vm_compute; reflexivity|]. split; [|by intros r'; split; vm_compute].
  exists 0%nat. eexists. split; [reflexivity|]. split; [reflexivity|]. split; [by left|]. split; [done|].
  intros [|[|j]] m' Hj Hl; simplify_eq/=; [lia|done].
Qed.

(** So does a consumer that never sees all its connections closed, although no loop has
    failed: it keeps turning, and the second consumer is never told to stop. *)
Theorem undrained_consumer_blocks_closer :
  exists r, progress reactor_closing_act reactor_unharmed reactor_rank
      ([RcCaller; RcCaller; RcLoop] ++ (RcConsumers <$> [ByCloser; ByCloser; ByCloser; ByMember 0 Loops]))
      (new_reactor_closing [false; true]) = Some r /\
    Forall (fun m => m_died m = false) (cl_members (rc_consumers r)) /\ held_up (rc_consumers r) /\
    forall r', reactor_closing_act RcCaller r <> Some r' /\ reactor_closing_act (RcConsumers ByCloser) r <> Some r'.
Proof.
  eexists. split; [vm_compute; reflexivity|]. split; [by repeat constructor|]. split; [|by intros r'; split; vm_compute].
  exists 0%nat. eexists. split; [reflexivity|]. split; [reflexivity|]. split; [by right|]. split; [done|].
  intros [|[|j]] m' Hj Hl; simplify_eq/=; [lia|done].
Qed.
