(* ===== verification/MagicMap.v ===== *)
(** * MagicMap: the system calls of [pkg/pool/virtualmem/virtualmem.go]

    [allocateBuffer] reserves an address range twice as long as the buffer, creates a
    memory file and maps it over both halves.  The model of the kernel's memory has
    mappings of addresses to memory objects; the theorem says that the slice the
    function returns is the mirrored memory of [VirtualMem]. *)

From S2P Require Import Prelude Errors VirtualMem GoState.
Local Open Scope string_scope.
Local Open Scope list_scope.
Local Open Scope Z_scope.

Definition MAP_SHARED : Z := 1.
Definition MAP_FIXED : Z := 16.
Definition MAP_ANONYMOUS : Z := 32.
Definition nofd : Z := 2 ^ 64 - 1.

(** Addresses [km_addr] to [km_addr + km_len] are bytes of an object from [km_off] on;
    no object: the range is not mapped. *)
Record kmap : Type := mkMap { km_addr : Z; km_len : Z; km_obj : option nat; km_off : Z }.

(** The memory of the process: the mappings, the latest first; the objects; the open
    memory files; the errors of the coming calls (no entry: the call succeeds). *)
Record Kmem : Type := mkKmem {
  k_maps : list kmap;
  k_objs : gmap nat (list byte);
  k_fds : gmap Z nat;
  k_nextObj : nat;
  k_nextFd : Z;
  k_errors : list Z
}.

Definition next_error : StateM Kmem Z := fun k =>
  Ret (default 0 (head (k_errors k)),
       mkKmem (k_maps k) (k_objs k) (k_fds k) (k_nextObj k) (k_nextFd k) (tail (k_errors k))).

Definition add_map (m : kmap) : StateM Kmem () :=
  modify (fun k => mkKmem (m :: k_maps k) (k_objs k) (k_fds k) (k_nextObj k) (k_nextFd k) (k_errors k)).

(** A new object of [n] zero bytes. *)
Definition new_object (n : Z) : StateM Kmem nat := fun k =>
  Ret (k_nextObj k, mkKmem (k_maps k) (<[k_nextObj k := replicate (Z.to_nat n) x00]> (k_objs k)) (k_fds k)
                      (S (k_nextObj k)) (k_nextFd k) (k_errors k)).

Section MagicMap.
Context {os : Os}.
(** Where the kernel puts a mapping whose address is left to it. *)
Variable choose : list kmap -> Z -> Z.

(** [mmap] with protection read and write and offset 0. *)
Definition sys_mmap (addr length flags fd : Z) : StateM Kmem (Z + Z) :=
  e ← next_error;
  if negb (e =? 0) then mret (inr e)
  else if (length <=? 0) || (Z.testbit flags 4 && negb (addr mod pageSize =? 0)) then mret (inr 22)
  else
    k ← get_state;
    let at_ := if Z.testbit flags 4 then addr else choose (k_maps k) length in
    if Z.testbit flags 5 then
      o ← new_object length;
      _ ← add_map (mkMap at_ length (Some o) 0);
      mret (inl at_)
    else
      match k_fds k !! fd with
      | None => mret (inr 9)
      | Some o => _ ← add_map (mkMap at_ length (Some o) 0); mret (inl at_)
      end.

Definition internalMmap (addr length flags fd : Z) : StateM Kmem (Z + error) :=
  r ← sys_mmap addr (uint64 length) flags fd;
  mret (match r with inl a => inl a | inr e => inr (Wrap "internalMMap error" (Errno e)) end).

Definition internalMunmap (addr length : Z) : StateM Kmem (option error) :=
  e ← next_error;
  if negb (e =? 0) then mret (Some (Wrap "internalMunmap error" (Errno e)))
  else _ ← add_map (mkMap addr (uint64 length) None 0); mret None.

(** [unix.MemfdCreate]: an empty file. *)
Definition MemfdCreate : StateM Kmem (Z + error) :=
  e ← next_error;
  if negb (e =? 0) then mret (inr (Errno e))
  else
    o ← new_object 0;
    k ← get_state;
    _ ← modify (fun k => mkKmem (k_maps k) (k_objs k) (<[k_nextFd k := o]> (k_fds k)) (k_nextObj k) (k_nextFd k + 1) (k_errors k));
    mret (inl (k_nextFd k)).

(** [unix.Ftruncate] of a new file: it gets [n] zero bytes. *)
Definition Ftruncate (fd n : Z) : StateM Kmem (option error) :=
  e ← next_error;
  if negb (e =? 0) then mret (Some (Errno e))
  else
    k ← get_state;
    match k_fds k !! fd with
    | None => mret (Some (Errno 9))
    | Some o =>
        _ ← modify (fun k => mkKmem (k_maps k) (<[o := replicate (Z.to_nat n) x00]> (k_objs k)) (k_fds k) (k_nextObj k) (k_nextFd k) (k_errors k));
        mret None
    end.

(** The result of [syscall.Close] is ignored; the mappings keep the object. *)
Definition close_fd (fd : Z) : StateM Kmem () :=
  modify (fun k => mkKmem (k_maps k) (k_objs k) (delete fd (k_fds k)) (k_nextObj k) (k_nextFd k) (k_errors k)).

(** [if err != nil { log.Panic(err) }] *)
Definition check {A} (r : A + error) : StateM Kmem A :=
  match r with inl a => mret a | inr _ => lift (Panic (PanicLog "allocateBuffer")) end.
Definition check_err (r : option error) : StateM Kmem () :=
  match r with None => mret () | Some _ => lift (Panic (PanicLog "allocateBuffer")) end.

(** The address of the slice; its length is [doubleSize size]. *)
Definition allocateBuffer (size : Z) : StateM Kmem Z :=
  r ← internalMmap 0 (doubleSize size) (Z.lor MAP_SHARED MAP_ANONYMOUS) nofd;
  vaddr ← check r;
  r ← MemfdCreate;
  fileDescriptor ← check r;
  r ← Ftruncate fileDescriptor (int64 size);
  _ ← check_err r;
  r ← internalMmap vaddr size (Z.lor MAP_SHARED MAP_FIXED) fileDescriptor;
  _ ← check r;
  r ← internalMmap (uint64 (vaddr + size)) size (Z.lor MAP_SHARED MAP_FIXED) fileDescriptor;
  _ ← check r;
  _ ← close_fd fileDescriptor;
  mret vaddr.

(** The finalizer of a [VirtualMem]. *)
Definition finalize (vaddr size : Z) : StateM Kmem () :=
  r ← internalMunmap vaddr (doubleSize size);
  check_err r.

End MagicMap.

(** ** Loads and stores of the process *)

Definition in_map (a : Z) (m : kmap) : bool := (km_addr m <=? a) && (a <? km_addr m + km_len m).

Fixpoint k_find (maps : list kmap) (a : Z) : option (nat * Z) :=
  match maps with
  | [] => None
  | m :: maps => if in_map a m then (fun o => (o, a - km_addr m + km_off m)) <$> km_obj m else k_find maps a
  end.

(** A byte of the address space; [None]: a fault. *)
Definition load_byte (k : Kmem) (a : Z) : option byte :=
  '(o, off) ← k_find (k_maps k) a;
  obj ← k_objs k !! o;
  obj !! Z.to_nat off.

Definition store_byte (k : Kmem) (a : Z) (b : byte) : option Kmem :=
  '(o, off) ← k_find (k_maps k) a;
  obj ← k_objs k !! o;
  if (Z.to_nat off <? length obj)%nat
  then Some (mkKmem (k_maps k) (<[o := <[Z.to_nat off := b]> obj]> (k_objs k)) (k_fds k) (k_nextObj k) (k_nextFd k) (k_errors k))
  else None.

Fixpoint store_bytes (k : Kmem) (a : Z) (bs : list byte) : option Kmem :=
  match bs with [] => Some k | b :: bs => k ← store_byte k a b; store_bytes k (a + 1) bs end.

Definition load_bytes (k : Kmem) (a : Z) (n : nat) : option (list byte) :=
  mapM (fun i => load_byte k (a + Z.of_nat i)) (seq 0 n).

(** The object [o] with content [mem] is mapped twice at [vaddr]. *)
Record mirrored (vaddr : Z) (mem : list byte) (k : Kmem) : Prop := {
  mi_size : mem <> [];
  mi_obj : exists o, k_objs k !! o = Some mem /\
    forall i, 0 <= i < 2 * zlen mem -> k_find (k_maps k) (vaddr + i) = Some (o, i mod zlen mem)
}.

(** ** Loads and stores of a mirrored buffer *)

Lemma zmod_nat i n : 0 <= i -> (0 < n)%nat -> Z.to_nat (i mod Z.of_nat n) = (Z.to_nat i mod n)%nat.
Proof. intros Hi Hn. rewrite Z2Nat.inj_mod; [lia..|]. by rewrite Nat2Z.id. Qed.

Lemma mirrored_length vaddr mem k : mirrored vaddr mem k -> (0 < length mem)%nat.
Proof. intros [Hne _]. destruct mem; [done|simpl; lia]. Qed.

Lemma load_mirrored vaddr mem k i :
  mirrored vaddr mem k -> 0 <= i < 2 * zlen mem -> load_byte k (vaddr + i) = (mem ++ mem) !! Z.to_nat i.
Proof.
  intros Hm Hi. have Hlen := mirrored_length _ _ _ Hm. destruct Hm as [_ (o & Ho & Hfind)].
  rewrite /load_byte Hfind //= Ho /= mirror_lookup; [rewrite /zlen in Hi; lia|]. by rewrite /zlen zmod_nat; [lia..|].
Qed.

Lemma store_mirrored vaddr mem k i b :
  mirrored vaddr mem k -> 0 <= i < 2 * zlen mem ->
  exists k', store_byte k (vaddr + i) b = Some k' /\ mirrored vaddr (<[(Z.to_nat i mod length mem)%nat := b]> mem) k'.
Proof.
  intros Hm Hi. have Hlen := mirrored_length _ _ _ Hm. destruct Hm as [Hne (o & Ho & Hfind)].
  have Hmod : (Z.to_nat i mod length mem < length mem)%nat by apply Nat.mod_upper_bound; lia.
  have Hz : Z.to_nat (i mod zlen mem) = (Z.to_nat i mod length mem)%nat by rewrite /zlen zmod_nat; lia.
  rewrite /store_byte Hfind //= Ho /= Hz. destruct (Nat.ltb_spec (Z.to_nat i mod length mem) (length mem)); [|lia].
  eexists. split; [done|]. split.
  - intros Hnil. apply (f_equal length) in Hnil. rewrite length_insert /= in Hnil. lia.
  - exists o. cbn [k_objs k_maps]. rewrite lookup_insert_eq /zlen length_insert. split; [done|exact Hfind].
Qed.

(** One more byte of a store. *)
Lemma mirror_store_snoc mem w bs b :
  (w + length bs < 2 * length mem)%nat ->
  mirror_store mem w (bs ++ [b]) = <[((w + length bs) mod length mem)%nat := b]> (mirror_store mem w bs).
Proof.
  intros Hw. have Hl1 : length (mirror_store mem w (bs ++ [b])) = length mem by apply length_mirror_store; rewrite length_app /=; lia.
  have Hl2 : length (mirror_store mem w bs) = length mem by apply length_mirror_store; lia.
  have Hmod : ((w + length bs) mod length mem < length mem)%nat by apply Nat.mod_upper_bound; lia.
  have Hcase : (((w + length bs) mod length mem = w + length bs /\ w + length bs < length mem) \/
                ((w + length bs) mod length mem + length mem = w + length bs /\ length mem <= w + length bs))%nat.
  { destruct (decide (w + length bs < length mem)%nat); [left; by rewrite Nat.mod_small|right].
    split; [|lia]. rewrite -(Nat.mod_unique (w + length bs) (length mem) 1 (w + length bs - length mem)); lia. }
  apply list_eq_same_length with (length mem); [by rewrite ?length_insert ?Hl1 ?Hl2..|].
  intros j x y Hj. rewrite mirror_store_lookup; [rewrite length_app /=; lia|done|]. rewrite length_app /=.
  destruct (decide (j = (w + length bs) mod length mem)%nat) as [->|Hne].
  - rewrite list_lookup_insert_eq; [by rewrite Hl2|]. repeat case_decide; try lia; rewrite lookup_app_r; try lia;
      intros Hx Hy; (rewrite list_lookup_singleton_Some in Hx || idtac); destruct_and?; congruence.
  - rewrite list_lookup_insert_ne // mirror_store_lookup; [lia|done|].
    repeat case_decide; try lia; rewrite ?lookup_app_l; try lia; congruence.
Qed.

Lemma store_bytes_mirrored vaddr mem k w pre bs :
  mirrored vaddr (mirror_store mem w pre) k -> (w + length pre + length bs <= 2 * length mem)%nat ->
  exists k', store_bytes k (vaddr + Z.of_nat (w + length pre)) bs = Some k' /\ mirrored vaddr (mirror_store mem w (pre ++ bs)) k'.
Proof.
  revert k pre. induction bs as [|b bs IH]; intros k pre Hm Hlen; cbn [store_bytes].
  { exists k. by rewrite app_nil_r. }
  simpl in Hlen. have Hl : length (mirror_store mem w pre) = length mem by apply length_mirror_store; lia.
  destruct (store_mirrored _ _ _ (Z.of_nat (w + length pre)) b Hm) as (k1 & -> & Hm1); [rewrite /zlen Hl; lia|].
  rewrite Nat2Z.id Hl -mirror_store_snoc in Hm1; [lia|].
  destruct (IH k1 (pre ++ [b])) as (k2 & Hk2 & Hm2); [done|rewrite length_app /=; lia|].
  exists k2. rewrite -app_assoc in Hm2. split; [|done]. cbn [mbind option_bind].
  rewrite length_app /= in Hk2. rewrite -Hk2. f_equal. lia.
Qed.

Lemma load_bytes_mirrored vaddr mem k off n :
  mirrored vaddr mem k -> (off + n <= 2 * length mem)%nat ->
  load_bytes k (vaddr + Z.of_nat off) n = Some (take n (drop off (mem ++ mem))).
Proof.
  intros Hm Hlen. rewrite /load_bytes. apply mapM_Some_2. apply Forall2_same_length_lookup_2.
  - rewrite length_seq length_take length_drop length_app. lia.
  - intros i j b Hj Hb. apply lookup_seq in Hj as [-> Hi]. simpl.
    replace (vaddr + Z.of_nat off + Z.of_nat i) with (vaddr + Z.of_nat (off + i)) by lia.
    rewrite (load_mirrored _ _ _ _ Hm); [rewrite /zlen; lia|]. rewrite Nat2Z.id. by rewrite lookup_take_lt // lookup_drop in Hb.
Qed.

(** ** The allocation *)

(** The kernel has chosen a free, aligned range below the end of the address space. *)
Definition choice_ok {os : Os} (choose : list kmap -> Z -> Z) (maps : list kmap) (n : Z) : Prop :=
  0 <= choose maps n /\ choose maps n mod pageSize = 0 /\ choose maps n + n < 2 ^ 64 /\
  forall i, 0 <= i < n -> k_find maps (choose maps n + i) = None.

(** Every mapped object exists. *)
Definition kmem_ok (k : Kmem) : Prop := forall a o off, k_find (k_maps k) a = Some (o, off) -> (o < k_nextObj k)%nat.

Lemma k_find_two maps v size o i :
  0 <= i < 2 * size ->
  k_find (mkMap (v + size) size (Some o) 0 :: mkMap v size (Some o) 0 :: maps) (v + i) = Some (o, i mod size).
Proof.
  intros Hi. cbn [k_find]. rewrite /in_map. cbn [km_addr km_len km_obj km_off].
  destruct (Z.leb_spec (v + size) (v + i)), (Z.ltb_spec (v + i) (v + size + size)); cbn [andb]; try lia.
  - have -> : i mod size = i - size by symmetry; apply (Z.mod_unique _ _ 1); lia.
    cbn [fmap option_fmap option_map]. do 2 f_equal. lia.
  - destruct (Z.leb_spec v (v + i)), (Z.ltb_spec (v + i) (v + size)); cbn [andb]; try lia.
    cbn [fmap option_fmap option_map]. rewrite Z.mod_small; [lia|]. do 2 f_equal. lia.
Qed.

Section Allocation.
Context {os : Os} (choose : list kmap -> Z -> Z).

Definition with_maps maps k := mkKmem maps (k_objs k) (k_fds k) (k_nextObj k) (k_nextFd k) (k_errors k).
Definition with_objs objs k := mkKmem (k_maps k) objs (k_fds k) (k_nextObj k) (k_nextFd k) (k_errors k).

Lemma wp_next_error k Q : k_errors k = [] -> Q 0 k -> wp next_error Q k.
Proof. destruct k. rewrite /wp /next_error /=. by intros ->. Qed.

Lemma wp_new_object n k Q :
  Q (k_nextObj k) (mkKmem (k_maps k) (<[k_nextObj k := replicate (Z.to_nat n) x00]> (k_objs k)) (k_fds k)
                     (S (k_nextObj k)) (k_nextFd k) (k_errors k)) -> wp (new_object n) Q k.
Proof. done. Qed.

Lemma wp_mmap_anonymous length k Q :
  k_errors k = [] -> 0 < length < 2 ^ 64 ->
  (let v := choose (k_maps k) length in
   Q (inl v) (mkKmem (mkMap v length (Some (k_nextObj k)) 0 :: k_maps k) (<[k_nextObj k := replicate (Z.to_nat length) x00]> (k_objs k))
                (k_fds k) (S (k_nextObj k)) (k_nextFd k) (k_errors k))) ->
  wp (internalMmap choose 0 length (Z.lor MAP_SHARED MAP_ANONYMOUS) nofd) Q k.
Proof.
  intros Herr Hlen HQ. rewrite /internalMmap /sys_mmap. wp_step. wp_step. apply wp_next_error; [done|]. cbn [Z.eqb negb].
  have -> : uint64 length = length by apply wrap_u_small; lia. destruct (Z.leb_spec length 0); [lia|].
  change (Z.testbit (Z.lor MAP_SHARED MAP_ANONYMOUS) 4) with false. change (Z.testbit (Z.lor MAP_SHARED MAP_ANONYMOUS) 5) with true.
  cbn [orb andb]. rewrite /add_map. wp_steps. apply wp_new_object. wp_steps. exact HQ.
Qed.

Lemma wp_mmap_fixed addr length fd o k Q :
  k_errors k = [] -> 0 < length < 2 ^ 64 -> addr mod pageSize = 0 -> k_fds k !! fd = Some o ->
  Q (inl addr) (with_maps (mkMap addr length (Some o) 0 :: k_maps k) k) ->
  wp (internalMmap choose addr length (Z.lor MAP_SHARED MAP_FIXED) fd) Q k.
Proof.
  intros Herr Hlen Ha Hfd HQ. rewrite /internalMmap /sys_mmap. wp_step. wp_step. apply wp_next_error; [done|]. cbn [Z.eqb negb].
  have -> : uint64 length = length by apply wrap_u_small; lia. destruct (Z.leb_spec length 0); [lia|].
  change (Z.testbit (Z.lor MAP_SHARED MAP_FIXED) 4) with true. change (Z.testbit (Z.lor MAP_SHARED MAP_FIXED) 5) with false.
  rewrite Ha. cbn [orb andb Z.eqb negb]. rewrite /add_map. wp_steps. rewrite Hfd. by wp_steps.
Qed.

Lemma wp_memfd_then {A} n k (f : Z -> StateM Kmem A) Q :
  k_errors k = [] ->
  wp (f (k_nextFd k)) Q (mkKmem (k_maps k) (<[k_nextObj k := replicate (Z.to_nat n) x00]> (<[k_nextObj k := []]> (k_objs k)))
                    (<[k_nextFd k := k_nextObj k]> (k_fds k)) (S (k_nextObj k)) (k_nextFd k + 1) (k_errors k)) ->
  wp (r ← MemfdCreate; fd ← check r; r ← Ftruncate fd n; _ ← check_err r; f fd) Q k.
Proof.
  intros Herr HQ. rewrite /MemfdCreate /Ftruncate. wp_step. wp_step. apply wp_next_error; [done|]. cbn [Z.eqb negb]. wp_step.
  apply wp_new_object. wp_steps. cbn [check]. wp_steps. apply wp_next_error; [done|]. cbn [Z.eqb negb]. wp_steps.
  cbn [k_fds]. rewrite lookup_insert_eq. wp_steps. cbn [check_err]. wp_steps. exact HQ.
Qed.

Lemma wp_allocateBuffer size k Q :
  choice_ok choose (k_maps k) (doubleSize size) -> k_errors k = [] -> 0 < size < 2 ^ 61 -> size mod pageSize = 0 ->
  (let v := choose (k_maps k) (doubleSize size) in
   forall k', k_errors k' = [] -> k_nextObj k' = S (S (k_nextObj k)) ->
    k_maps k' = mkMap (v + size) size (Some (S (k_nextObj k))) 0 :: mkMap v size (Some (S (k_nextObj k))) 0 ::
                mkMap v (doubleSize size) (Some (k_nextObj k)) 0 :: k_maps k ->
    k_objs k' = <[S (k_nextObj k) := replicate (Z.to_nat size) x00]> (<[S (k_nextObj k) := []]>
                  (<[k_nextObj k := replicate (Z.to_nat (doubleSize size)) x00]> (k_objs k))) -> Q v k') ->
  wp (allocateBuffer choose size) Q k.
Proof.
  intros (Hv0 & Hva & Hvl & _) Herr Hsize Hmod HQ. set (v := choose (k_maps k) (doubleSize size)) in HQ.
  fold v in Hv0, Hva, Hvl. rewrite doubleSize_small in Hvl; [lia|].
  have Hva2 : (v + size) mod pageSize = 0 by rewrite Zplus_mod Hva Hmod.
  rewrite /allocateBuffer. wp_step. apply wp_mmap_anonymous; [done|rewrite doubleSize_small; lia|]. cbn beta zeta. fold v. wp_step. cbn [check]. wp_step.
  set (k1 := mkKmem _ _ _ _ _ _).
  have Hint : int64 size = size by apply wrap_s_small; lia.
  apply (wp_memfd_then (int64 size) k1); [done|]. rewrite Hint. set (k2 := mkKmem _ _ _ _ _ _).
  wp_step. eapply wp_mmap_fixed; [done|lia|done|by rewrite /= lookup_insert_eq|]. cbn [check]. wp_steps.
  have -> : uint64 (v + size) = v + size by apply wrap_u_small; lia.
  eapply wp_mmap_fixed; [done|lia|done|by rewrite /= lookup_insert_eq|]. cbn [check]. rewrite /close_fd. wp_steps. by apply HQ.
Qed.
End Allocation.

(** The two mappings of the memory file. *)
Lemma two_maps_mirrored v size o maps objs k' :
  0 < size -> k_maps k' = mkMap (v + size) size (Some o) 0 :: mkMap v size (Some o) 0 :: maps ->
  k_objs k' = <[o := replicate (Z.to_nat size) x00]> objs -> mirrored v (replicate (Z.to_nat size) x00) k'.
Proof.
  intros Hsize Hmaps Hobjs. split; [destruct (Z.to_nat size) eqn:Hz; [lia|done]|]. exists o.
  rewrite Hobjs lookup_insert_eq Hmaps /zlen length_replicate Z2Nat.id; [lia|]. split; [done|]. intros i Hi. by apply k_find_two.
Qed.

Lemma allocated_mirrored {os : Os} choose size k :
  choice_ok choose (k_maps k) (doubleSize size) -> k_errors k = [] -> 0 < size < 2 ^ 61 -> size mod pageSize = 0 ->
  wp (allocateBuffer choose size) (fun v k' => mirrored v (replicate (Z.to_nat size) x00) k') k.
Proof. intros. apply (wp_allocateBuffer choose); [done..|]. intros v k' _ _ Hmaps Hobjs. eapply two_maps_mirrored; [lia|done..]. Qed.

(** ** Properties *)

(** C14. [allocateBuffer] returns a mirrored buffer: when the system calls succeed, the
    two halves of the slice are the same bytes, all zero, and the buffers allocated
    before stay as they are; once the finalizer has unmapped it, the slice cannot be
    used. *)
Theorem allocate_mirrors {os : Os} choose size k :
  choice_ok choose (k_maps k) (doubleSize size) -> k_errors k = [] -> kmem_ok k -> 0 < size < 2 ^ 61 -> size mod pageSize = 0 ->
  exists v k', allocateBuffer choose size k = Ret (v, k') /\ mirrored v (replicate (Z.to_nat size) x00) k' /\
    (forall v2 mem2, mirrored v2 mem2 k -> mirrored v2 mem2 k') /\
    exists k'', finalize v size k' = Ret ((), k'') /\ forall i, 0 <= i < 2 * size -> load_byte k'' (v + i) = None.
Proof.
  intros Hchoose Herr Hok Hsize Hmod. apply wp_run, (wp_allocateBuffer choose); [done..|].
  intros v k' Herr' Hnext Hmaps Hobjs. destruct Hchoose as (_ & _ & _ & Hfree).
  fold v in Hfree. split; [|split].
  - eapply two_maps_mirrored; [lia|done..].
  - intros v2 mem2 Hm2. have Hlen := mirrored_length _ _ _ Hm2. destruct Hm2 as [Hne (o & Ho & Hfind)]. split; [done|]. exists o. split.
    + have Hlt : (o < k_nextObj k)%nat by apply (Hok (v2 + 0) o (0 mod zlen mem2)), Hfind; rewrite /zlen; lia.
      rewrite Hobjs !lookup_insert_ne //; lia.
    + intros i Hi. rewrite Hmaps -Hfind //. have Hout : ~ (v <= v2 + i < v + size * 2).
      { intros Hin. rewrite doubleSize_small in Hfree; [lia|]. have H := Hfree (v2 + i - v) ltac:(lia). replace (v + (v2 + i - v)) with (v2 + i) in H by lia. by rewrite Hfind in H. }
      cbn [k_find]. rewrite /in_map doubleSize_small; [lia|]. cbn [km_addr km_len].
      repeat case_match; try done; lia.
  - rewrite /finalize /internalMunmap. apply wp_run_unit. wp_step. wp_step. apply wp_next_error; [done|]. cbn [Z.eqb negb].
    rewrite /add_map. wp_steps. cbn [check_err]. wp_steps. intros i Hi. rewrite /load_byte. cbn [k_maps k_find].
    rewrite /in_map. cbn [km_addr km_len km_obj]. rewrite doubleSize_small; [lia|]. have -> : uint64 (size * 2) = size * 2 by apply wrap_u_small; lia.
    destruct (Z.leb_spec v (v + i)), (Z.ltb_spec (v + i) (v + size * 2)); [done|lia..].
Qed.

(** *** The slice as memory *)

(** What the ring buffers do with a memory: [copy] into its slice, and [Zeroes]. *)
Inductive mem_op : Type := MCopy (off : Z) (src : list byte) | MZero.

Definition vm_op (o : mem_op) (vm : VirtualMem) : outcome VirtualMem :=
  match o with
  | MCopy off src => '(_, vm) ← vm_copy vm off src; Ret vm
  | MZero => VirtualMem_Zeroes vm
  end.

Fixpoint vm_ops (l : list mem_op) (vm : VirtualMem) : outcome VirtualMem :=
  match l with [] => Ret vm | o :: l => vm ← vm_op o vm; vm_ops l vm end.

(** The same, byte by byte through the address space; [v] is the address of the slice. *)
Definition slice_op (v size : Z) (o : mem_op) (k : Kmem) : option Kmem :=
  match o with
  | MCopy off src => store_bytes k (v + off) (take (Z.to_nat (2 * size - off)) src)
  | MZero => store_bytes k v (replicate (Z.to_nat size) x00)
  end.

Fixpoint slice_ops (v size : Z) (l : list mem_op) (k : Kmem) : option Kmem :=
  match l with [] => Some k | o :: l => k ← slice_op v size o k; slice_ops v size l k end.

Lemma mirror_store_nil mem w : (w <= 2 * length mem)%nat -> mirror_store mem w [] = mem.
Proof.
  intros Hw. apply list_eq_same_length with (length mem); [done|apply length_mirror_store; simpl; lia|].
  intros i x y Hi. rewrite mirror_store_lookup /=; [lia|done|]. repeat case_decide; try lia; congruence.
Qed.

Lemma store_bytes_ok v mem k off bs :
  mirrored v mem k -> 0 <= off -> (Z.to_nat off + length bs <= 2 * length mem)%nat ->
  exists k', store_bytes k (v + off) bs = Some k' /\ mirrored v (mirror_store mem (Z.to_nat off) bs) k'.
Proof.
  intros Hm Hoff Hbs. have Hm0 : mirrored v (mirror_store mem (Z.to_nat off) []) k by rewrite mirror_store_nil //; lia.
  destruct (store_bytes_mirrored v mem k (Z.to_nat off) [] bs Hm0) as (k' & Hk' & Hm'); [simpl; lia|].
  rewrite /= Nat.add_0_r Z2Nat.id // in Hk'. by exists k'.
Qed.

(** One operation; the sizes stay. *)
Lemma slice_op_ok v size o vm vm' k :
  mirrored v (vm_mem vm) k -> vm_Size vm = size -> zlen (vm_mem vm) = size -> vm_op o vm = Ret vm' ->
  exists k', slice_op v size o k = Some k' /\ mirrored v (vm_mem vm') k' /\ vm_Size vm' = size /\ zlen (vm_mem vm') = size.
Proof.
  intros Hm Hs Hlen Hop. destruct o as [off src|]; cbn [vm_op slice_op] in Hop |- *.
  - rewrite /vm_copy in Hop. destruct (Z.leb_spec 0 off), (Z.leb_spec off (zlen (vm_Buf vm))); try done. injection Hop as <-. cbn [vm_mem vm_Size].
    have Hb : zlen (vm_Buf vm) = 2 * size by rewrite /vm_Buf zlen_app; lia. rewrite Hb in H0 |- *.
    have -> : take (Z.to_nat (Z.min (2 * size - off) (zlen src))) src = take (Z.to_nat (2 * size - off)) src.
    { destruct (Z.min_spec (2 * size - off) (zlen src)) as [[_ ->]|[? ->]]; [done|]. rewrite !take_ge //; rewrite /zlen in H1 |- *; lia. }
    destruct (store_bytes_ok v (vm_mem vm) k off (take (Z.to_nat (2 * size - off)) src) Hm) as (k' & Hk' & Hm'); [done|rewrite length_take; rewrite /zlen in Hlen; lia|].
    exists k'. split_and!; [done|done|done|]. rewrite /zlen length_mirror_store //. rewrite length_take. rewrite /zlen in Hlen. lia.
  - rewrite /VirtualMem_Zeroes /vm_zero in Hop. destruct (Z.leb_spec (vm_Size vm) (zlen (vm_Buf vm))); [|done]. injection Hop as <-. cbn [vm_mem vm_Size]. rewrite Hs.
    destruct (store_bytes_ok v (vm_mem vm) k 0 (replicate (Z.to_nat size) x00) Hm) as (k' & Hk' & Hm'); [done|rewrite length_replicate; rewrite /zlen in Hlen; lia|].
    rewrite Z.add_0_r in Hk'. exists k'. split_and!; [done|done|done|]. rewrite /zlen length_mirror_store // length_replicate. rewrite /zlen in Hlen. lia.
Qed.

Lemma slice_ops_ok v size l vm vm' k :
  mirrored v (vm_mem vm) k -> vm_Size vm = size -> zlen (vm_mem vm) = size -> vm_ops l vm = Ret vm' ->
  exists k', slice_ops v size l k = Some k' /\ mirrored v (vm_mem vm') k'.
Proof.
  revert vm k. induction l as [|o l IH]; intros vm k Hm Hs Hlen Hops; cbn [vm_ops slice_ops] in *; [injection Hops as <-; by exists k|].
  apply bind_Ret_inv in Hops as (vm1 & Ho & Hl). destruct (slice_op_ok v size o vm vm1 k Hm Hs Hlen Ho) as (k1 & -> & Hm1 & Hs1 & Hlen1).
  by apply (IH vm1).
Qed.

Lemma load_whole v mem k : mirrored v mem k -> load_bytes k v (length (mem ++ mem)) = Some (mem ++ mem).
Proof.
  intros Hm. have H := load_bytes_mirrored v mem k 0 (length (mem ++ mem)) Hm. rewrite Z.add_0_r in H.
  rewrite H ?length_app; [lia|]. by rewrite /= take_ge // length_app.
Qed.

(** C13. The memory that [allocateBuffer] maps is the one [NewVirtualMem] stands for: when
    the system calls succeed, any sequence of copies into the slice and of [Zeroes],
    done byte by byte through the two mappings the function has made, leaves in the
    whole slice exactly the bytes of the mirrored memory after these operations. *)
Theorem allocated_slice_is_virtualmem {os : Os} choose size k wd :
  choice_ok choose (k_maps k) (doubleSize size) -> k_errors k = [] -> 0 < size < 2 ^ 61 -> size mod pageSize = 0 -> can_alloc wd ->
  exists v k' vm wd', allocateBuffer choose size k = Ret (v, k') /\ NewVirtualMem size wd = Ret (vm, wd') /\
    forall l vm', vm_ops l vm = Ret vm' ->
      exists k'', slice_ops v size l k' = Some k'' /\ load_bytes k'' v (length (vm_Buf vm')) = Some (vm_Buf vm').
Proof.
  intros Hchoose Herr Hsize Hmod Hf. destruct (wp_run _ _ _ (allocated_mirrored choose size k Hchoose Herr Hsize Hmod)) as (v & k' & Ha & Hm).
  exists v, k'. rewrite /NewVirtualMem /mapped_buffer Hf bind_Ret. eexists _, _. split; [exact Ha|]. split; [done|]. intros l vm' Hl.
  destruct (slice_ops_ok v size l (mkVM (replicate (Z.to_nat size) x00) size) vm' k') as (k'' & Hk'' & Hm''); try done.
  - rewrite /zlen length_replicate. lia.
  - exists k''. split; [done|]. by apply load_whole.
Qed.

(** *** A process with one buffer *)

Definition low_choice (_ : list kmap) (_ : Z) : Z := 1048576.

Definition empty_process : Kmem := mkKmem [] ∅ ∅ 0 3 [].

Lemma empty_choice : @choice_ok linux_x86_64 low_choice [] (doubleSize 4096).
Proof. split_and!; done. Qed.

Lemma allocate_mirrors_witness :
  exists v k', @allocateBuffer linux_x86_64 low_choice 4096 empty_process = Ret (v, k') /\ mirrored v (replicate (Z.to_nat 4096) x00) k' /\
    (forall v2 mem2, mirrored v2 mem2 empty_process -> mirrored v2 mem2 k') /\
    exists k'', finalize v 4096 k' = Ret ((), k'') /\ forall i, 0 <= i < 2 * 4096 -> load_byte k'' (v + i) = None.
Proof. apply (@allocate_mirrors linux_x86_64 low_choice 4096 empty_process); [apply empty_choice|done|done|lia|done]. Defined.

(** Two bytes over the end of a page, then two at its beginning. *)
Definition wrap_ops : list mem_op := [MZero; MCopy 4095 [x0a; x0b]; MCopy 4096 [x0c]].

Lemma allocated_slice_is_virtualmem_witness :
  exists v k' vm wd', @allocateBuffer linux_x86_64 low_choice 4096 empty_process = Ret (v, k') /\
    NewVirtualMem 4096 (mkWorld virtualmem_NewPool [] []) = Ret (vm, wd') /\
    forall l vm', vm_ops l vm = Ret vm' ->
      exists k'', slice_ops v 4096 l k' = Some k'' /\ load_bytes k'' v (length (vm_Buf vm')) = Some (vm_Buf vm').
Proof.
  apply (@allocated_slice_is_virtualmem linux_x86_64 low_choice 4096 empty_process (mkWorld virtualmem_NewPool [] []));
    [apply empty_choice|done|lia|done|done].
Defined.

Example wrap_ops_result :
  (vm ← vm_ops wrap_ops (mkVM (replicate (Z.to_nat 4096) x00) 4096); Ret (take 1 (vm_mem vm), drop 4095 (vm_mem vm))) = Ret ([x0c], [x0a]).
Proof. vm_compute. reflexivity. Qed.
