(* ===== verification/Examples.v ===== *)
(** * Examples: [examples/cli/main.go], [examples/tcp_echo/main.go]

    The programs that come with the library: an echo and an HTTP handler with a
    command line, and an echo server that stops after its clients have been served.
    Their callbacks are programs over the operations of [Conn].  Log statements are
    left out. *)

From Stdlib Require Import Strings.String.
From S2P Require Import Prelude Errors Config LoadBalancer ConnSpec GoState Worker Server.
Local Open Scope string_scope.
Local Open Scope list_scope.
Local Open Scope Z_scope.

(** ** [examples/cli/main.go] *)

Definition port : Z := 9000.
Definition architectures : list string := ["reactor"; "sharding"].
Definition allowedNetworks : list string := [TCP; UDP].
Definition handlers : list string := ["http"; "echo"].

Record cmdConfig : Type := mkCmd { cmd_Config : Config; cmd_port : Z; cmd_handler : string; cmd_network : string }.

Fixpoint contains (s : list string) (str : string) : bool :=
  match s with [] => false | v :: s => if decide (v = str) then true else contains s str end.

(** The actions of the flags, called with the value of the flag; the result is the
    new configuration or the message of the error. *)
Definition architecture_Action (v : string) (c : cmdConfig) : cmdConfig + string :=
  if negb (contains architectures v) then inr "possible values for architectures"
  else
    inl (if decide (v = "reactor")
         then mkCmd (WithArchitecture Reactor (cmd_Config c)) (cmd_port c) (cmd_handler c) (cmd_network c)
         else if decide (v = "sharding")
         then mkCmd (WithArchitecture SocketSharding (cmd_Config c)) (cmd_port c) (cmd_handler c) (cmd_network c)
         else c).

Definition handler_Action (v : string) : option string :=
  if negb (contains handlers v) then Some "possible values for handler" else None.

Definition network_Action (v : string) : option string :=
  if negb (contains allowedNetworks v) then Some "possible values for networks" else None.

Definition crlf : list byte := [x0d; x0a].

Definition getHTTPLastLine : list byte :=
  crlf ++ string_bytes "Content-Length: 13" ++ crlf ++ crlf ++ string_bytes "Hello, World!".
Definition httpFirstLine : list byte :=
  string_bytes "HTTP/1.1 200 OK" ++ crlf ++ string_bytes "Server: gain" ++ crlf ++ string_bytes "Content-Type: text/plain" ++
  crlf ++ string_bytes "Date: ".
Definition httpLastLine : list byte := getHTTPLastLine.

Definition EchoHandler_OnRead (n : Z) : hprog :=
  HOp (UNext n) (fun r => HOp (UWrite (res_bytes r)) (fun _ => HRet)).

(** [EchoHandler] embeds [DefaultEventHandler]. *)
Definition EchoHandler : EventHandler := fun log cb =>
  match cb with CbRead _ n => EchoHandler_OnRead n | _ => DefaultEventHandler log cb end.

(** [if err != nil { log.Panic(err) }] *)
Definition or_panic (r : conn_res) (k : hprog) : hprog :=
  match res_err r with Some _ => HPanic "log.Panic(err)" | None => k end.

Section HTTP.
(** The time stored by [ticktock] when a callback runs. *)
Context (NowTimeFormat : list callback -> string).

Definition HTTPHandler_OnRead (now : string) (n : Z) : hprog :=
  HOp (UDiscard n) (fun r => or_panic r
    (HOp (UWrite httpFirstLine) (fun r => or_panic r
      (HOp (UWrite (string_bytes now)) (fun r => or_panic r
        (HOp (UWrite httpLastLine) (fun r => or_panic r HRet))))))).

Definition HTTPHandler : EventHandler := fun log cb =>
  match cb with CbRead _ n => HTTPHandler_OnRead (NowTimeFormat log) n | _ => DefaultEventHandler log cb end.

(** The [Action] of the application: the handler, and the address [Start] is called
    with; no handler: the server is nil. *)
Definition app_Action (c : cmdConfig) : option EventHandler * string :=
  (if decide (cmd_handler c = "echo") then Some EchoHandler
   else if decide (cmd_handler c = "http") then Some HTTPHandler else None,
   (cmd_network c ++ "://0.0.0.0:" ++ pretty port)%string).

End HTTP.

(** ** [examples/tcp_echo/main.go] *)

Definition numberOfClients : Z := 2.
Definition testData : list byte := string_bytes "echo".

(** [e.overallBytesSent]: [OnWrite] adds the bytes of each write. *)
Fixpoint overallBytesSent (log : list callback) : Z :=
  match log with
  | [] => 0
  | CbWrite _ n :: log => uint64 (uint64 n + overallBytesSent log)
  | _ :: log => overallBytesSent log
  end.

Definition tcp_echo_OnRead (n : Z) : hprog :=
  HOp (UNext n) (fun r =>
    match res_err r with Some _ => HRet | None => HOp (UWrite (res_bytes r)) (fun _ => HRet) end).

Definition tcp_echo_OnWrite : hprog := HOp UClose (fun _ => HRet).

Definition tcp_echo_handler : EventHandler := fun _ cb =>
  match cb with
  | CbRead _ n => tcp_echo_OnRead n
  | CbWrite _ _ => tcp_echo_OnWrite
  | CbAccept _ | CbClose _ _ => HRet
  end.

(** [OnClose] calls [AsyncShutdown]. *)
Definition tcp_echo_shutdown (log : list callback) : bool := zlen testData * numberOfClients <=? overallBytesSent log.
