(* ===== verification/ExamplesSpec.v ===== *)
(** * ExamplesSpec: what the example servers do, end to end

    A responder answers every message by some bytes and leaves the rest to the worker.
    The theorems combine the handlers' code with the sessions of the workers: whatever
    the kernel delivers and takes, in whatever pieces, the bytes that leave the
    connection are the answers to the messages, in order and complete. *)

From S2P Require Import Prelude Errors SyncPool VirtualMem MagicRing RingRefinement RingPool ByteSlicePool.
From S2P Require Import KeyPool Flags Submitter LoadBalancer Sockaddr SocketOps GoState Conn ConnSpec ConnManager Worker.
From S2P Require Import WorkerSpec Looper ConsumerWorker StreamSpec ShardWorker ShardSpec Server Examples.
Local Open Scope Z_scope.

(** ** Responders *)

(** On a message [d] the handler takes [d] and writes [f log d]; it does nothing else. *)
Class Responder (handler : EventHandler) (f : list callback -> list byte -> list byte) : Prop := {
  resp_read_valid log a d ctx :
    0 < zlen d -> zlen (f log d) < 2 ^ 51 -> prog_valid tcp (mkA d [] false ctx) (handler log (CbRead a (zlen d)));
  resp_read log a d ctx A :
    0 < zlen d -> prog_spec tcp (mkA d [] false ctx) (handler log (CbRead a (zlen d))) A -> A = mkA [] (f log d) false ctx;
  resp_write log a n : handler log (CbWrite a n) = HRet
}.

(** What the kernel may do with the connection of a responder that has [out] to send:
    it takes a part of [out], or, when nothing is to be sent, delivers a message. *)
Inductive script (f : list callback -> list byte -> list byte) (a : nat) : list callback -> list byte -> list kevent -> Prop :=
| scr_nil log out : script f a log out []
| scr_recv log data evs :
    0 < zlen data < 2 ^ 51 ->
    (forall n, fits data n -> zlen (f log (take (Z.to_nat n) data)) < 2 ^ 51) ->
    (forall n, fits data n -> script f a (log ++ [CbRead a n]) (f log (take (Z.to_nat n) data)) evs) ->
    script f a log [] (KRecv data :: evs)
| scr_sent log out n evs :
    0 < zlen out -> 0 <= n <= zlen out -> script f a (log ++ [CbWrite a n]) (drop (Z.to_nat n) out) evs ->
    script f a log out (KSent n :: evs).

(** The answers to the messages [ins] of the callbacks [cbs]. *)
Fixpoint answers (f : list callback -> list byte -> list byte) (log cbs : list callback) (ins : list (list byte)) : list byte :=
  match cbs with
  | [] => []
  | CbRead a n :: cbs =>
      match ins with d :: ins => f log d ++ answers f (log ++ [CbRead a n]) cbs ins | [] => [] end
  | cb :: cbs => answers f (log ++ [cb]) cbs ins
  end.

Lemma zlen_take_fits (data : list byte) n : fits data n -> zlen (take (Z.to_nat n) data) = n.
Proof. intros [Hn _]. rewrite /zlen length_take. rewrite /zlen in Hn. lia. Qed.

Section Responders.
Context {handler : EventHandler} {f : list callback -> list byte -> list byte} `{!Responder handler f}.

Lemma responder_valid a log out ctx evs :
  script f a log out evs -> session_valid handler tcp a log (mkA [] out false ctx) evs.
Proof.
  induction 1 as [log out|log data evs Hlen Hf Hk IH|log out n evs Hpos Hn Hk IH].
  - constructor.
  - apply sv_recv; [done|lia|simpl; rewrite /MinRead; change (zlen (@nil byte)) with 0; lia| |].
    + intros n Hn. rewrite /recv_abs /=. rewrite -{2}(zlen_take_fits data n Hn).
      apply resp_read_valid; [rewrite zlen_take_fits //; apply Hn|by apply Hf].
    + intros n A1 Hn Hs. rewrite /recv_abs /= -{2}(zlen_take_fits data n Hn) in Hs.
      apply resp_read in Hs; [|rewrite zlen_take_fits //; apply Hn]. subst A1. by apply IH.
  - apply sv_sent; [|done|done| |].
    + rewrite /next_state /=. destruct (Z.ltb_spec 0 (zlen out)); [done|lia].
    + rewrite resp_write. constructor.
    + rewrite resp_write. intros A1 Hs. inversion Hs; subst. apply IH.
Qed.

(** The bytes that left and the bytes still to be sent are the answers. *)
Lemma responder_session a log A evs log' A' ins outs :
  session handler tcp a log A evs log' A' ins outs ->
  a_in A = [] -> a_closed A = false -> script f a log (a_out A) evs ->
  a_in A' = [] /\ a_closed A' = false /\
  exists cbs, log' = log ++ cbs /\ outs ++ a_out A' = a_out A ++ answers f log cbs ins.
Proof.
  induction 1 as [log A|log A data n evs A1 log' A' ins outs Hn Hs _ IH|log A n evs A1 log' A' ins outs Hn Hs _ IH];
    intros Hin Hcl Hscr.
  - split_and!; [done|done|]. exists []. by rewrite !app_nil_r.
  - inversion Hscr as [|? ? ? Hlen Hf Hk Hlog Hout Hevs|]; subst. rewrite -Hout in Hscr |- *.
    rewrite /recv_abs Hin Hcl -Hout /= -{2}(zlen_take_fits data n Hn) in Hs.
    apply resp_read in Hs; [|rewrite zlen_take_fits //; apply Hn]. subst A1.
    destruct (IH eq_refl eq_refl (Hk n Hn)) as (? & ? & cbs & -> & Hb). split_and!; [done|done|].
    exists (CbRead a n :: cbs). rewrite -app_assoc. split; [done|]. by rewrite Hb.
  - inversion Hscr as [| |? ? ? ? Hpos Hn' Hk]; subst. rewrite resp_write in Hs. inversion Hs; subst.
    destruct (IH Hin Hcl Hk) as (? & ? & cbs & -> & Hb). split_and!; [done|done|].
    exists (CbWrite a n :: cbs). rewrite -app_assoc. split; [done|]. rewrite -app_assoc Hb /= app_assoc take_drop //.
Qed.

(** One client of a shard worker with a responder. *)
Lemma responder_served {env : Env} P `{!EnvLaws env P} w fd a c evs s :
  w_sendRecvMsg w = false -> w_asyncHandler w = false -> resting (P := P) fd a c s -> c_network c = tcp ->
  a_in (conn_abs c) = [] -> a_closed (conn_abs c) = false -> script f a (st_log s) (a_out (conn_abs c)) evs ->
  wp (run_session (shard_event handler w) fd a evs) (fun _ s' => exists c' cbs ins outs, resting (P := P) fd a c' s' /\
    session handler tcp a (st_log s) (conn_abs c) evs (st_log s') (conn_abs c') ins outs /\ st_log s' = st_log s ++ cbs /\
    outs ++ a_out (conn_abs c') = a_out (conn_abs c) ++ answers f (st_log s) cbs ins) s.
Proof.
  intros Htcp Hsync Hrest Hnet Hin Hcl Hscr. have Hsw := shard_stream_worker handler w Htcp.
  have HA : conn_abs c = mkA [] (a_out (conn_abs c)) false (a_ctx (conn_abs c)).
  { destruct (conn_abs c) as [i o b ctx]; simpl in *. by subst. }
  eapply wp_mono; [apply (run_session_ok (P := P) handler w 0); try done; [apply Hrest|]|].
  { rewrite Hnet HA. by apply responder_valid. }
  intros _ s' (c' & ins & outs & Hr' & _ & Hses & _). rewrite Hnet in Hses.
  destruct (responder_session _ _ _ _ _ _ _ _ Hses Hin Hcl Hscr) as (_ & _ & cbs & Hl & Hb).
  by exists c', cbs, ins, outs.
Qed.

End Responders.

(** ** The handlers *)

(** What [Next], [Discard] and [Write] do on an open connection. *)
Lemma next_spec A r A1 :
  a_closed A = false -> 0 < zlen (a_in A) -> conn_spec tcp A (UNext (zlen (a_in A))) r A1 ->
  res_bytes r = a_in A /\ res_err r = None /\ A1 = mkA [] (a_out A) false (a_ctx A).
Proof.
  intros Hcl Hpos Hs. inversion Hs as [| ? rop out c Hc Hop Hf| | | | | | | |]; simplify_eq/=; try congruence.
  have Hn : Z.to_nat (zlen (a_in A)) = length (a_in A) by rewrite /zlen; lia.
  inversion Hf; subst; try lia. simpl. rewrite Hn firstn_all drop_all Hcl. done.
Qed.

Lemma discard_spec A r A1 :
  a_closed A = false -> 0 < zlen (a_in A) -> conn_spec tcp A (UDiscard (zlen (a_in A))) r A1 ->
  res_err r = None /\ A1 = mkA [] (a_out A) false (a_ctx A).
Proof.
  intros Hcl Hpos Hs. inversion Hs as [| ? rop out c Hc Hop Hf| | | | | | | |]; simplify_eq/=; try congruence.
  have Hn : Z.to_nat (zlen (a_in A)) = length (a_in A) by rewrite /zlen; lia.
  inversion Hf; subst. simpl. rewrite Hn drop_all Hcl. done.
Qed.

Lemma write_spec_ok A bs r A1 :
  a_closed A = false -> conn_spec tcp A (UWrite bs) r A1 ->
  res_err r = None /\ A1 = mkA (a_in A) (a_out A ++ bs) false (a_ctx A).
Proof.
  intros Hcl Hs. have -> := write_spec _ _ _ _ _ Hcl Hs. split; [|done].
  inversion Hs as [| ? rop out c Hc Hop Hf| bs' out c Hc Hf | | | | | | |]; simplify_eq/=; try congruence. by inversion Hf.
Qed.

#[export] Instance echo_responder : Responder EchoHandler (fun _ d => d).
Proof.
  split; [| |done].
  - intros log a d ctx Hpos Hlen. apply pv_op; [by right|]. intros r A1 Hs.
    apply next_spec in Hs as (Hb & _ & ->); [|done|done]. rewrite Hb. apply pv_op; [simpl; change (zlen (@nil byte)) with 0; lia|]. intros. apply pv_ret.
  - intros log a d ctx A Hpos Hs. inversion Hs as [|? ? ? r A1 ? Hn Hs1]; subst. apply next_spec in Hn as (Hb & _ & ->); [|done|done].
    inversion Hs1 as [|? ? ? r2 A2 ? Hw Hs2]; subst. apply write_spec_ok in Hw as [_ ->]; [|done]. inversion Hs2; subst. by rewrite Hb.
Qed.

Definition http_response (now : string) : list byte := httpFirstLine ++ string_bytes now ++ httpLastLine.

Lemma or_panic_ok r k : res_err r = None -> or_panic r k = k.
Proof. by rewrite /or_panic => ->. Qed.

(** A write whose error would panic. *)
Lemma write_or_panic_valid A bs k :
  a_closed A = false -> zlen (a_out A) + zlen bs < 2 ^ 52 ->
  prog_valid tcp (mkA (a_in A) (a_out A ++ bs) false (a_ctx A)) k ->
  prog_valid tcp A (HOp (UWrite bs) (fun r => or_panic r k)).
Proof.
  intros Hcl Hlen Hk. apply pv_op; [done|]. intros r A1 Hs. apply write_spec_ok in Hs as [Hr ->]; [|done]. by rewrite or_panic_ok.
Qed.

Lemma write_or_panic_spec A bs k A' :
  a_closed A = false -> prog_spec tcp A (HOp (UWrite bs) (fun r => or_panic r k)) A' ->
  prog_spec tcp (mkA (a_in A) (a_out A ++ bs) false (a_ctx A)) k A'.
Proof.
  intros Hcl Hs. inversion Hs as [|? ? ? r A1 ? Hw Hk]; subst. apply write_spec_ok in Hw as [Hr ->]; [|done]. by rewrite or_panic_ok in Hk.
Qed.

#[export] Instance http_responder NowTimeFormat : Responder (HTTPHandler NowTimeFormat) (fun log _ => http_response (NowTimeFormat log)).
Proof.
  split; [| |done].
  - intros log a d ctx Hpos. rewrite /http_response /HTTPHandler /HTTPHandler_OnRead.
    generalize httpFirstLine (string_bytes (NowTimeFormat log)) httpLastLine. intros l1 l2 l3. rewrite !zlen_app. intros Hlen.
    have Hn1 := zlen_nonneg l1. have Hn2 := zlen_nonneg l2. have Hn3 := zlen_nonneg l3.
    apply pv_op; [simpl; lia|]. intros r A1 Hs. apply discard_spec in Hs as [Hr ->]; [|done|done]. rewrite or_panic_ok //. cbn [a_out a_ctx].
    repeat (apply write_or_panic_valid; [done|cbn [a_out a_in a_ctx app]; rewrite ?zlen_app; change (zlen (@nil byte)) with 0; lia|]).
    apply pv_ret.
  - intros log a d ctx A Hpos Hs. inversion Hs as [|? ? ? r A1 ? Hd Hs1]; subst. apply discard_spec in Hd as [Hr ->]; [|done|done].
    rewrite or_panic_ok // in Hs1. do 3 (apply write_or_panic_spec in Hs1; [|done]). cbn [a_in a_out a_ctx] in Hs1.
    inversion Hs1; subst. by rewrite /http_response -!app_assoc.
Qed.

(** ** The answers *)

Lemma session_nil handler network a log A log' A' ins outs :
  session handler network a log A [] log' A' ins outs -> log' = log /\ A' = A.
Proof. by inversion 1. Qed.

Lemma session_log handler network a log A evs log' A' ins outs :
  session handler network a log A evs log' A' ins outs -> exists cbs, log' = log ++ cbs.
Proof.
  induction 1 as [log A|log A data n evs A1 log' A' ins outs _ _ _ [cbs ->]|log A n evs A1 log' A' ins outs _ _ _ [cbs ->]];
    [exists []; by rewrite app_nil_r|eexists; by rewrite -app_assoc..].
Qed.

Lemma answers_echo handler a log A evs log' A' ins outs cbs :
  session handler tcp a log A evs log' A' ins outs -> log' = log ++ cbs -> answers (fun _ d => d) log cbs ins = concat ins.
Proof.
  intros Hs. revert cbs. induction Hs as [log A|log A data n evs A1 log' A' ins outs _ _ Hs IH|log A n evs A1 log' A' ins outs _ _ Hs IH]; intros cbs Hl.
  - by rewrite -{1}(app_nil_r log) in Hl; apply app_inv_head in Hl as <-.
  - destruct (session_log _ _ _ _ _ _ _ _ _ _ Hs) as [cbs1 Hl1]. rewrite Hl1 -app_assoc in Hl. apply app_inv_head in Hl as <-.
    simpl. by rewrite (IH cbs1).
  - destruct (session_log _ _ _ _ _ _ _ _ _ _ Hs) as [cbs1 Hl1]. rewrite Hl1 -app_assoc in Hl. apply app_inv_head in Hl as <-.
    simpl. by rewrite (IH cbs1).
Qed.

(** The times of the messages among the callbacks [cbs]: what [NowTimeFormat] returned when
    [OnRead] was called for them. *)
Fixpoint message_times (now : list callback -> string) (log cbs : list callback) : list string :=
  match cbs with
  | [] => []
  | CbRead a n :: cbs => now log :: message_times now (log ++ [CbRead a n]) cbs
  | cb :: cbs => message_times now (log ++ [cb]) cbs
  end.

Lemma answers_http now handler a log A evs log' A' ins outs cbs :
  session handler tcp a log A evs log' A' ins outs -> log' = log ++ cbs ->
  length (message_times now log cbs) = length ins /\
  answers (fun log _ => http_response (now log)) log cbs ins = concat (http_response <$> message_times now log cbs).
Proof.
  intros Hs. revert cbs. induction Hs as [log A|log A data n evs A1 log' A' ins outs _ _ Hs IH|log A n evs A1 log' A' ins outs _ _ Hs IH]; intros cbs Hl.
  - by rewrite -{1}(app_nil_r log) in Hl; apply app_inv_head in Hl as <-.
  - destruct (session_log _ _ _ _ _ _ _ _ _ _ Hs) as [cbs1 Hl1]. destruct (IH cbs1 Hl1) as [Hlen Ha].
    rewrite Hl1 -app_assoc in Hl. apply app_inv_head in Hl as <-. simpl. by rewrite Ha Hlen.
  - destruct (session_log _ _ _ _ _ _ _ _ _ _ Hs) as [cbs1 Hl1]. destruct (IH cbs1 Hl1) as [Hlen Ha].
    rewrite Hl1 -app_assoc in Hl. by apply app_inv_head in Hl as <-.
Qed.

(** ** Properties *)

(** C10. The echo server echoes: for a client of a stream worker whose handlers run in the
    loop, in whatever pieces the kernel delivers what the client sends and takes the
    answer, nothing panics, and at every moment the bytes sent back followed by the bytes
    still queued are exactly the bytes received.  Conditions: the completions of receives
    are not empty and do not say that more data are waiting, a message is shorter than
    [2^51] bytes, and the memory pool answers a request with nil or a memory of the size
    asked for; with a larger memory a buffer can return other bytes
    ([pool_reuse_breaks_fifo]). *)
Theorem echo_server_echoes {env : Env} P `{!EnvLaws env P} w fd a c evs s :
  w_sendRecvMsg w = false -> w_asyncHandler w = false ->
  resting (P := P) fd a c s -> c_network c = tcp -> conn_abs c = empty_abs ->
  script (fun _ d => d) a (st_log s) [] evs ->
  wp (run_session (shard_event EchoHandler w) fd a evs) (fun _ s' => exists c' ins outs, resting (P := P) fd a c' s' /\
    session EchoHandler tcp a (st_log s) empty_abs evs (st_log s') (conn_abs c') ins outs /\
    outs ++ a_out (conn_abs c') = concat ins) s.
Proof.
  intros Htcp Hsync Hrest Hnet HA Hscr.
  eapply wp_mono; [apply (responder_served (handler := EchoHandler) (f := fun _ d => d) P w fd a c evs s); try done; by rewrite HA|].
  intros _ s' (c' & cbs & ins & outs & Hr' & Hses & Hl & Hb). rewrite HA in Hses Hb. exists c', ins, outs. split_and!; try done.
  rewrite Hb (answers_echo _ _ _ _ _ _ _ _ _ cbs Hses Hl) //.
Qed.

(** C40. The HTTP server answers every message with one complete response: for a client of a
    stream worker whose handlers run in the loop, the bytes that leave the connection,
    with the ones still queued, are the responses to the messages received so far, in
    their order, each with the time [NowTimeFormat] gave when its [OnRead] ran.
    Conditions: the completions of receives are not empty and do not say that more data
    are waiting, and the memory pool answers a request with nil or a memory of the size
    asked for. *)
Theorem http_server_answers {env : Env} P `{!EnvLaws env P} NowTimeFormat w fd a c evs s :
  w_sendRecvMsg w = false -> w_asyncHandler w = false ->
  resting (P := P) fd a c s -> c_network c = tcp -> conn_abs c = empty_abs ->
  script (fun log _ => http_response (NowTimeFormat log)) a (st_log s) [] evs ->
  wp (run_session (shard_event (HTTPHandler NowTimeFormat) w) fd a evs) (fun _ s' => exists c' cbs ins outs, resting (P := P) fd a c' s' /\
    session (HTTPHandler NowTimeFormat) tcp a (st_log s) empty_abs evs (st_log s') (conn_abs c') ins outs /\ st_log s' = st_log s ++ cbs /\
    let times := message_times NowTimeFormat (st_log s) cbs in
    length times = length ins /\ outs ++ a_out (conn_abs c') = concat (http_response <$> times)) s.
Proof.
  intros Htcp Hsync Hrest Hnet HA Hscr.
  eapply wp_mono; [apply (responder_served (handler := HTTPHandler NowTimeFormat)
    (f := fun log _ => http_response (NowTimeFormat log)) P w fd a c evs s); try done; by rewrite HA|].
  intros _ s' (c' & cbs & ins & outs & Hr' & Hses & Hl & Hb). rewrite HA in Hses Hb.
  destruct (answers_http NowTimeFormat _ _ _ _ _ _ _ _ _ cbs Hses Hl) as [Hlen Ha].
  exists c', cbs, ins, outs. split_and!; try done. by rewrite Hb Ha.
Qed.

(** The echo example serves one message per client: after a message, and a write of any
    part of the answer, the connection is closed; its next requests send the rest of
    the answer, if any, and close. *)
Theorem tcp_echo_serves_once {env : Env} P `{!EnvLaws env P} w fd a c data n s :
  w_sendRecvMsg w = false -> w_asyncHandler w = false ->
  resting (P := P) fd a c s -> c_network c = tcp -> conn_abs c = empty_abs ->
  0 < zlen data <= MinRead -> 0 <= n <= zlen data ->
  wp (run_session (shard_event tcp_echo_handler w) fd a [KRecv data; KSent n]) (fun _ s' => exists c', resting (P := P) fd a c' s' /\
    st_log s' = st_log s ++ [CbRead a (zlen data); CbWrite a n] /\
    conn_abs c' = mkA [] (drop (Z.to_nat n) data) true None /\ requests_pending c' s') s.
Proof.
  intros Htcp Hsync Hrest Hnet HA Hdata Hn. have Hsw := shard_stream_worker tcp_echo_handler w Htcp.
  have Hfits m : fits data m <-> m = zlen data by rewrite /fits; lia.
  have Hall : take (Z.to_nat (zlen data)) data = data by rewrite take_ge //; rewrite /zlen; lia.
  have Hread log A1 : prog_spec tcp (recv_abs empty_abs data) (tcp_echo_handler log (CbRead a (zlen data))) A1 -> A1 = mkA [] data false None.
  { intros Hs. inversion Hs as [|? ? ? r A2 ? Hx Hs1]; subst. apply next_spec in Hx as (Hb & He & ->); [|done|simpl; lia].
    rewrite He in Hs1. inversion Hs1 as [|? ? ? r2 A2 ? Hw Hs2]; subst. apply write_spec_ok in Hw as [_ ->]; [|done]. inversion Hs2; subst. by rewrite Hb. }
  have Hwrite log A1 : prog_spec tcp (sent_abs (mkA [] data false None) n) (tcp_echo_handler log (CbWrite a n)) A1 -> A1 = mkA [] (drop (Z.to_nat n) data) true None.
  { intros Hs. inversion Hs as [|? ? ? r A2 ? Hx Hs1]; subst. inversion Hs1; subst. inversion Hx; simplify_eq/=; done. }
  eapply wp_mono; [apply (run_session_ok (P := P) tcp_echo_handler w 0); try done; [apply Hrest|]|].
  - rewrite Hnet HA. apply sv_recv; [done|lia|simpl; change (zlen (@nil byte)) with 0; rewrite /MinRead in Hdata |- *; lia|..].
    + intros m ->%Hfits. rewrite Hall. apply pv_op; [right; simpl; lia|]. intros r A1 Hx. apply next_spec in Hx as (Hb & -> & ->); [|done|simpl; lia].
      rewrite Hb. apply pv_op; [|intros; apply pv_ret]. simpl. change (zlen (@nil byte)) with 0. rewrite /MinRead in Hdata. lia.
    + intros m A1 ->%Hfits. rewrite Hall. intros ->%Hread.
      apply sv_sent; [|done|done| |intros; apply sv_nil].
      * rewrite /next_state /=. by destruct (Z.ltb_spec 0 (zlen data)); [|lia].
      * apply pv_op; [done|]. intros. apply pv_ret.
  - intros _ s' (c' & ins & outs & Hr' & _ & Hses & Hp). rewrite Hnet HA in Hses. exists c'.
    inversion Hses as [|? ? ? m ? A1 ? ? ? ? Hm Hs1 Hses1|]; subst. apply Hfits in Hm. subst m. rewrite Hall in Hs1. apply Hread in Hs1. subst A1.
    inversion Hses1 as [| |? ? ? ? A2 ? ? ? ? _ Hs2 Hses2]; subst. apply Hwrite in Hs2. subst A2.
    destruct (session_nil _ _ _ _ _ _ _ _ _ Hses2) as [Hl HA']. split_and!; try done. by rewrite Hl -app_assoc.
Qed.

(** ** Runs *)

Lemma demo_resting : resting (P := exact_world) 7 1 (demo_stream connRead) (stream_state connRead 16).
Proof. split; [apply demo_stream_conn|done|simpl; lia|]. intros inb _ [= <-]. done. Qed.

(** A client that sends two bytes and reads them back one by one. *)
Definition two_bytes : list kevent := [KRecv [x68; x69]; KSent 1; KSent 1].

Lemma fits_small (data : list byte) n : zlen data <= MinRead -> fits data n -> n = zlen data.
Proof. rewrite /fits. lia. Qed.

Lemma echo_server_echoes_witness :
  wp (run_session (@shard_event demo_env EchoHandler demo_worker) 7 1 two_bytes) (fun _ s' => exists c' ins outs,
    resting (P := exact_world) 7 1 c' s' /\
    session EchoHandler tcp 1 [] empty_abs two_bytes (st_log s') (conn_abs c') ins outs /\
    outs ++ a_out (conn_abs c') = concat ins) (stream_state connRead 16).
Proof.
  apply (@echo_server_echoes demo_env exact_world _ demo_worker 7 1 (demo_stream connRead) two_bytes (stream_state connRead 16)); [done|done|apply demo_resting|done|done|].
  apply scr_recv; [done| |]; intros n ->%fits_small; try done. apply scr_sent; [done|done|]. apply scr_sent; [done|done|]. constructor.
Defined.

(** A clock that has moved on after the first answer was sent. *)
Definition clock (log : list callback) : string :=
  if (length log <=? 1)%nat then "Mon, 02 Jan 2006 12:00:00 GMT" else "Mon, 02 Jan 2006 12:00:01 GMT".

(** A message, its answer taken by the kernel, and a second message. *)
Definition two_messages : list kevent := [KRecv [x68]; KSent (zlen (http_response (clock []))); KRecv [x69]].

Lemma http_server_answers_witness :
  wp (run_session (@shard_event demo_env (HTTPHandler clock) demo_worker) 7 1 two_messages) (fun _ s' => exists c' cbs ins outs,
    resting (P := exact_world) 7 1 c' s' /\
    session (HTTPHandler clock) tcp 1 [] empty_abs two_messages (st_log s') (conn_abs c') ins outs /\ st_log s' = [] ++ cbs /\
    let times := message_times clock [] cbs in
    length times = length ins /\ outs ++ a_out (conn_abs c') = concat (http_response <$> times)) (stream_state connRead 16).
Proof.
  apply (@http_server_answers demo_env exact_world _ clock demo_worker 7 1 (demo_stream connRead) two_messages (stream_state connRead 16)); [done|done|apply demo_resting|done|done|].
  apply scr_recv; [done|intros n _; by vm_compute|]. intros n ->%fits_small; [|done]. apply scr_sent; [by vm_compute|split; [by vm_compute|done]|].
  rewrite /zlen Nat2Z.id drop_all. apply scr_recv; [done|intros n _; by vm_compute|]. intros n ->%fits_small; [|done]. constructor.
Defined.

Lemma tcp_echo_serves_once_witness :
  wp (run_session (@shard_event demo_env tcp_echo_handler demo_worker) 7 1 [KRecv testData; KSent 4]) (fun _ s' => exists c',
    resting (P := exact_world) 7 1 c' s' /\ st_log s' = [] ++ [CbRead 1 (zlen testData); CbWrite 1 4] /\
    conn_abs c' = mkA [] (drop (Z.to_nat 4) testData) true None /\ requests_pending c' s') (stream_state connRead 16).
Proof.
  apply (@tcp_echo_serves_once demo_env exact_world _ demo_worker 7 1 (demo_stream connRead) testData 4 (stream_state connRead 16)); [done|done|apply demo_resting|done|done|done|done].
Defined.
